(* ===== verification/_CoqProject ===== *)
-Q . S2P
Prelude.v
Threads.v
Core.v
Cancellation.v
WaitRace.v
Health.v
Shutdown.v
Metrics.v
Std.v
Config.v
Security.v
Manifest.v
Install.v
Disk.v
Cache.v
Identity.v
Files.v
Store.v
Confine.v
Staging.v
Installer.v
Discovery.v
Float.v
Probe.v
Scheduler.v
Pool.v
Serving.v
Onnx.v
Loading.v
Runtime.v
Requests.v
Catalog.v
Application.v
Service.v
Transport.v
Mcp.v
Http.v
Grpc.v
Process.v
Cli.v
