(* ===== verification/Prelude.v ===== *)
(** * Verification of the impossible-embeddings server

    impossible-embeddings serves text embeddings from verified local models.  Its
    crates are an engine-neutral domain core ([impossible-embedding-core]), the ONNX
    engine ([impossible-embedding-onnx]), a model manifest, store and installer
    ([impossible-models]), the error contract of the gRPC protocol
    ([impossible-protocol]), shared server services ([impossible-server-core]:
    configuration, credentials, health, shutdown, metrics), and the server itself
    ([impossible-server]: runtime with its batching scheduler, application layer,
    HTTP, gRPC and MCP adapters, process host and command line).

    The command line loads the configuration and starts the process host, which binds
    two listeners, preloads models and starts the transports.  A transport
    authenticates and decodes a request and calls the application, which resolves the
    model in its catalog and enters [embed] of the runtime: the request is admitted,
    leased, queued and preflighted, and waits for its model's scheduler task, which
    forms compatible batches, runs the engine on a blocking pool and answers each
    request once.  Administration installs, loads, unloads and deletes models through
    the store; shutdown fences all of it.

    ** Files

    Foundations:
    - [Prelude]: results, guards, machine integers, durations, decimal text, lists;
      the tactics [inv_result], [inv_bool] and [frame].
    - [Threads]: asynchronous operations as programs of atomic sections over shared
      state, with dropped futures, and a rely-guarantee logic for them.
    - [Std]: what the sources use of the standard library and of the [url] and [toml]
      crates (classes [UrlCrate], [TomlCrate]).
    - [Float]: [f32] as IEEE-754 binary32 bit patterns.

    Domain and shared services:
    - [Core]: [impossible-embedding-core/src/lib.rs], error codes, failures, costs,
      options, identities, usage.  [Cancellation]: same file, the shared cancellation
      tokens as a store with aliasing, [ExecutionControl] and [execute_embedding].
      [WaitRace]: the race of [CancellationToken::cancelled] with [cancel] at the
      granularity of single atomic accesses.
    - [Health]: [health.rs], [doctor.rs].  [Shutdown]: [shutdown.rs].  [Metrics]:
      [metrics.rs], [telemetry.rs].  [Config]: [config.rs].  [Security]: [security.rs].

    Models ([impossible-models/src]):
    - [Manifest]: [manifest.rs] and the errors of [lib.rs]; JSON is a class [JsonCrate].
    - [Install]: [install.rs], commit gate, network policy, requests of a download.
    - [Disk]: the file system, programs of system calls over it, faults, crashes and
      delayed directory flushes, and a crash logic.  [Cache]: the transactions of
      [store.rs] (durable renames, repair, quarantine, staging, deletion).
      [Identity]: fingerprints, trust, keys.  [Files]: contained file access and
      copying.  [Store]: status, capabilities, import, deletion, locks.  [Discovery]:
      the scan of the configured roots.
    - [Confine]: programs whose calls stay within a set of operations, and programs
      whose success means that nothing was disturbed.  [Staging]: import end to end.
      [Installer]: the transaction of [install.rs] end to end.

    Engine and runtime:
    - [Probe], [Onnx]: [impossible-embedding-onnx/src/lib.rs], the graph checks;
      loading, tokenization limits, padding, pooling, normalization, preflight.
      [Loading]: the closure of [load_onnx] ([runtime.rs]), verification, load and
      warm-up, and its composition with installation.
    - [Scheduler]: [impossible-server/src/runtime.rs], engine contract (class
      [RuntimeEngine], of which [Onnx] gives the instance), policy, preflight, batch
      formation, execution, publication, the scheduler task.  [Pool]: its blocking
      worker threads over a bounded channel.  [Serving]: the tasks of all models on one
      pool.  [Runtime]: the registries, counters and
      lifecycle of the same file as steps of one state; [reachable] is every
      interleaving of lock sections.  [Requests]: [embed] end to end, the waits, the
      drop of the last handle.

    Application and transports ([impossible-server/src]):
    - [Catalog], [Application], [Service]: [application.rs], the names of models and
      the error taxonomy; the administrative operations, preload and shutdown as
      programs of [Threads]; credentials, request ids and the embedding boundary.
    - [Transport]: header maps, and handlers as finite trees of the calls they make of
      the application ([io], [spec], [run]).  [Mcp]: [mcp.rs].  [Http]: [http.rs].
      [Grpc]: [grpc.rs] and [impossible-protocol/src/lib.rs].
    - [Process]: [process.rs].  [Cli]: [cli.rs].

    ** Theorems

    - Answers: a success is the request's own slice of a validated engine output under
      the contracted identity ([success_is_contractual]), batching is invisible
      ([batching_transparent]), batches respect every limit and lose nothing
      ([batch_formation], [round_serves_all]), everyone is answered exactly once, per
      task ([scheduler_answers_everyone], [one_answer_each]) and over all tasks and
      the pool they share ([everyone_served]).
    - Requests: admission is sufficient for the scheduler, a request leaks nothing and
      is answered truthfully ([embed_accounts], [await_truthful]).
    - Workers: the blocking pool starts every accepted job once and in order, keeps its
      workers through panics, and always comes to rest ([pool_accounts],
      [pool_quiesces]).
    - Lifecycle: counters are exact and registries agree in every reachable state
      ([runtime_invariant]), only idle models unload, draining is final, a finished
      shutdown leaves nothing; above the runtime, catalog, loaded set and runtime stay
      consistent under every interleaving and every dropped future
      ([application_consistent]), shutdown fences publication and a strict preload is
      all or nothing.
    - Cancellation: flags propagate through derived tokens, are permanent and
      isolated, no wake-up is lost, notification terminates.
    - Store: promotion, installation and deletion are atomic under any fault and crash
      and recovery converges ([promotion_is_atomic], [recovery_converges],
      [deletion_is_permanent]); status is exact; import installs what it was given;
      fingerprints bind the contract.
    - Installation: manifests are contained and portable, a download is exactly its
      abstract counterpart ([download_exact]), the whole transaction is safe under every
      server, fault and crash ([install_crash_safe]), the commit gate has one winner, and
      an undisturbed installation of a trusted model loads as exactly what the native
      libraries make of the fetched bytes ([network_to_engine]).
    - Engine: outputs have the contracted shape and are finite, are accepted by the
      scheduler's check, only trusted, authenticated and warm models come out of a load
      ([loaded_is_trusted]), loading never publishes a stale epoch, the
      engine never panics, external tensor data is always refused.
    - Transports: no protected call without its credential and origin
      ([http_boundary], [grpc_boundary]), MCP answers exactly what JSON-RPC asks for
      and serves nothing before its handshake, the stdio loop ends, preflights agree
      with the routes, OpenAI requests are served, the gRPC timeout is exact.
    - Configuration and security: precedence and validation are exact, options are
      forwarded unchanged, secrets never come from the command line, authentication
      decides equality, the two credentials are distinct.
    - Process: start is all or nothing, shutdown leaves no transport running, the
      client of the model commands sends exactly what it means.
    - Health, shutdown coordinator and metrics: lifecycle is monotone, readiness
      exact, permits exact, the exposition has a fixed set of series.

    ** Modelling choices

    Rust integers are [N] with their width written out ([checked_add],
    [saturating_add], [wrapping_add], [usize] of 64 bits); strings are bytes; [f32] is
    its bit pattern; durations are nanoseconds (configured limits are milliseconds).  A
    mutex section is one step; an atomic access is one step; asynchronous waits are
    functions of what their polls observe, or suspension points of [Threads] at which
    other operations run and the future may be dropped.  The steps of the environment
    of an application operation include every step of requests and schedulers, also
    ones no request would take.  Serde, axum, tonic, prost, the tokenizer, the
    inference session, SHA-256, the URL and TOML parsers are parameters, with concrete
    instances in the witnesses.

    Recursion without a structural measure takes fuel, and theorems show it is enough:
    one unit per unset flag for [signal_cancel_fuel] (each nested call sets one), the
    token's index for token queries (a token refers to older ones only), the redirect
    limit for [follow], the number of graphs for the external-data scan, a height of
    1025 for staged trees (relative paths have at most 1024 bytes, so fewer components
    than that), the free names for quarantine, 51 attempts for the store and installation locks, more
    than the length of the input for the stdio loop, two rounds for a request id.
    [Runtime.counters_fit] excludes wrap-around of counters whose every unit is a live
    value in memory or one of 2^64 registrations.  Lock poisoning is modelled where
    the code gives it an answer of its own ([Health], [Shutdown], [Metrics]).

    ** Not modelled

    Parsing of the arguments by clap, the set-up of logging and the panic hook; the
    generated protobuf code, axum's own answers to requests no route takes, and the
    bodies of the curated manifests.  Windows variants of the file operations are left
    out in favour of the Unix ones.  In the runtime and the application layer the answers
    of the pool, the store and the network are given by the environment, so their theorems
    hold for every pool, disk and server; [Serving], [Installer] and [Loading] compose the
    real ones.  What acquiring a file lock answers is an argument of the operations that
    need it ([Store] models the wait for it). *)

From stdpp Require Import base list strings gmap sorting.
From Stdlib Require Import ZArith NArith Lia Ascii.

#[global] Set Default Goal Selector "!".
#[global] Arguments String.append !_ _ / : simpl nomatch.

(** * Results

    Rust's [Result<T, E>] with its [?] operator.  [let? x := e in k] is
    [let x = e?; k]; [ensure c else e in k] is the guard
    [if !c { return Err(e) } k]. *)

Declare Scope rust_scope.
Delimit Scope rust_scope with rust.
Open Scope rust_scope.

Inductive result (E A : Type) : Type :=
| Ok (a : A)
| Err (e : E).
Arguments Ok {E A} a.
Arguments Err {E A} e.

Definition result_bind {E A B} (r : result E A) (k : A → result E B) : result E B :=
  match r with Ok a => k a | Err e => Err e end.

Notation "'let?' x ':=' e 'in' k" := (result_bind e (λ x, k))
  (at level 10, x name, e at level 100, k at level 200) : rust_scope.
Notation "'let?' ' p ':=' e 'in' k" := (result_bind e (λ x, match x with p => k end))
  (at level 10, p pattern, e at level 100, k at level 200) : rust_scope.
Notation "'ensure' c 'else' e 'in' k" := (if c then k else Err e)
  (at level 10, c at level 100, e at level 100, k at level 200) : rust_scope.

Definition is_ok {E A} (r : result E A) : bool :=
  match r with Ok _ => true | Err _ => false end.
Definition result_err {E A} (r : result E A) : option E :=
  match r with Ok _ => None | Err e => Some e end.
(** [opt.ok_or(e)] *)
Definition ok_or {E A} (o : option A) (e : E) : result E A :=
  match o with Some a => Ok a | None => Err e end.
(** [r.map_err(f)] *)
Definition map_err {E F A} (f : E → F) (r : result E A) : result F A :=
  match r with Ok a => Ok a | Err e => Err (f e) end.

#[export] Instance result_eq_dec {E A} `{EqDecision E, EqDecision A} : EqDecision (result E A).
Proof. solve_decision. Defined.

Lemma bind_Ok {E A B} (r : result E A) (k : A → result E B) b :
  result_bind r k = Ok b ↔ ∃ a, r = Ok a ∧ k a = Ok b.
Proof. destruct r; naive_solver. Qed.

Lemma bind_Err {E A B} (r : result E A) (k : A → result E B) e :
  result_bind r k = Err e ↔ r = Err e ∨ ∃ a, r = Ok a ∧ k a = Err e.
Proof. destruct r; naive_solver. Qed.

Lemma ok_or_Ok {E A} (o : option A) (e : E) a : ok_or o e = Ok a ↔ o = Some a.
Proof. destruct o; naive_solver. Qed.

(** ** Replacing an element of a list *)

Lemma sum_insert {A} (f : A → nat) (l : list A) i old new :
  l !! i = Some old → sum_list_with f (<[i := new]> l) + f old = sum_list_with f l + f new.
Proof.
  intros Hi. rewrite <-(take_drop_middle l i old Hi) at 2. rewrite insert_take_drop by (by eapply lookup_lt_Some).
  rewrite !sum_list_with_app. simpl. lia.
Qed.
Lemma bind_insert {A B} (f : A → list B) (l : list A) i old new :
  l !! i = Some old → f old ++ (<[i := new]> l ≫= f) ≡ₚ f new ++ (l ≫= f).
Proof.
  intros Hi. rewrite <-(take_drop_middle l i old Hi) at 2. rewrite insert_take_drop by (by eapply lookup_lt_Some).
  rewrite !bind_app. cbn. solve_Permutation.
Qed.

(** Components register here that their invariants ignore parts of the state. *)
Create HintDb invariants.

(** A step given by an equation [H : op .. = ..] that leaves an invariant alone:
    every branch of [op] is covered by the registered facts. *)
Tactic Notation "frame" reference(op) "in" hyp(H) :=
  unfold op in H; repeat case_match; simplify_eq; by eauto with invariants.

(** Inversion of a successful computation: every [?] and every guard passed. *)
Ltac inv_result :=
  repeat match goal with
  | H : result_bind _ _ = Ok _ |- _ => apply bind_Ok in H as (? & ? & H)
  | H : ok_or _ _ = Ok _ |- _ => apply ok_or_Ok in H
  | H : (if ?c then _ else Err _) = Ok _ |- _ => destruct c eqn:?; [|discriminate H]
  | H : (if ?c then Err _ else _) = Ok _ |- _ => destruct c eqn:?; [discriminate H|]
  | H : Err _ = Ok _ |- _ => discriminate H
  | H : Ok _ = Err _ |- _ => discriminate H
  | H : Ok ?x = Ok ?y |- _ => injection H as H; try subst x; try subst y
  end.

(** Boolean guards as propositions. *)
Ltac inv_bool :=
  repeat match goal with
  | H : _ && _ = true |- _ => apply andb_prop in H as [? ?]
  | H : _ || _ = false |- _ => apply orb_false_elim in H as [? ?]
  | H : negb _ = true |- _ => apply negb_true_iff in H
  | H : negb _ = false |- _ => apply negb_false_iff in H
  | H : bool_decide _ = true |- _ => apply bool_decide_eq_true_1 in H
  | H : bool_decide _ = false |- _ => apply bool_decide_eq_false_1 in H
  | H : (_ <=? _)%N = true |- _ => apply N.leb_le in H
  | H : (_ <=? _)%N = false |- _ => apply N.leb_gt in H
  | H : (_ <? _)%N = true |- _ => apply N.ltb_lt in H
  | H : (_ <? _)%N = false |- _ => apply N.ltb_ge in H
  | H : (_ =? _)%N = true |- _ => apply N.eqb_eq in H
  | H : (_ =? _)%N = false |- _ => apply N.eqb_neq in H
  | H : String.eqb _ _ = true |- _ => apply String.eqb_eq in H
  | H : String.eqb _ _ = false |- _ => apply String.eqb_neq in H
  end.

(** Traversal of a list by a fallible function, first error wins
    ([iter().map(f).collect::<Result<Vec<_>, _>>()]). *)
Fixpoint result_map {E A B} (f : A → result E B) (l : list A) : result E (list B) :=
  match l with
  | [] => Ok []
  | a :: l => let? b := f a in let? bs := result_map f l in Ok (b :: bs)
  end.

Lemma result_map_Ok {E A B} (f : A → result E B) l bs :
  result_map f l = Ok bs ↔ Forall2 (λ a b, f a = Ok b) l bs.
Proof.
  revert bs; induction l as [|a l IH]; intros bs; simpl.
  - split; [intros [= <-]; constructor | by inversion 1].
  - rewrite bind_Ok. setoid_rewrite bind_Ok. split.
    + intros (b & Hb & bs' & Hbs' & [= <-]). constructor; [done | by apply IH].
    + inversion 1; subst. eexists; split; [done|]. eexists; split; [by apply IH|done].
Qed.

(** * Machine integers

    [usize], [u64] and [u32] are non-negative, so they are [N]; every operation
    of the source that can leave the range is written with its checked,
    saturating or wrapping form.  [usize] is 64 bits wide: the supported release
    targets are x86-64. *)

Definition u32_max : N := 2 ^ 32 - 1.
Definition u64_max : N := 2 ^ 64 - 1.
Definition usize_max : N := u64_max.

Definition checked_add (max a b : N) : option N :=
  if (a + b <=? max)%N then Some (a + b)%N else None.
Definition checked_mul (max a b : N) : option N :=
  if (a * b <=? max)%N then Some (a * b)%N else None.
Definition saturating_mul (max a b : N) : N := N.min (a * b) max.
Definition saturating_add (max a b : N) : N := N.min (a + b) max.
Definition saturating_sub (a b : N) : N := (a - b)%N.
(** [AtomicUsize::fetch_add]/[fetch_sub] wrap around. *)
Definition wrapping_add (a b : N) : N := ((a + b) mod 2 ^ 64)%N.
Definition wrapping_sub (a b : N) : N := ((a + 2 ^ 64 - b) mod 2 ^ 64)%N.
#[global] Arguments wrapping_add : simpl never.
#[global] Arguments wrapping_sub : simpl never.
(** [u32::try_from], [u64::try_from] on a wider value. *)
Definition try_from (max a : N) : option N := if (a <=? max)%N then Some a else None.

(** [Duration], in nanoseconds. *)
Definition from_nanos (n : N) : N := n.
Definition from_micros (n : N) : N := n * 1000.
Definition from_millis (n : N) : N := n * 1000000.
Definition from_secs (n : N) : N := n * 1000000000.

Definition len {A} (l : list A) : N := N.of_nat (length l).

Lemma checked_add_Some max a b c :
  checked_add max a b = Some c ↔ c = (a + b)%N ∧ (a + b <= max)%N.
Proof. unfold checked_add. destruct (N.leb_spec (a + b) max); naive_solver lia. Qed.

Lemma checked_mul_Some max a b c :
  checked_mul max a b = Some c ↔ c = (a * b)%N ∧ (a * b <= max)%N.
Proof. unfold checked_mul. destruct (N.leb_spec (a * b) max); naive_solver lia. Qed.

Lemma checked_add_None max a b : checked_add max a b = None ↔ (max < a + b)%N.
Proof. unfold checked_add. destruct (N.leb_spec (a + b) max); naive_solver lia. Qed.

Lemma checked_mul_None max a b : checked_mul max a b = None ↔ (max < a * b)%N.
Proof. unfold checked_mul. destruct (N.leb_spec (a * b) max); naive_solver lia. Qed.

Lemma len_app {A} (l k : list A) : len (l ++ k) = (len l + len k)%N.
Proof. unfold len. rewrite length_app. lia. Qed.

Lemma len_cons {A} (x : A) l : len (x :: l) = (1 + len l)%N.
Proof. unfold len. simpl. lia. Qed.

Lemma len_nil {A} : len (@nil A) = 0%N.
Proof. done. Qed.

Lemma len_0 {A} (l : list A) : len l = 0%N ↔ l = [].
Proof. unfold len. destruct l; naive_solver lia. Qed.

(** [iter().try_fold(0, |sum, x| sum.checked_add(x))] *)
Fixpoint checked_sum_from (max acc : N) (l : list N) : option N :=
  match l with
  | [] => Some acc
  | x :: l => acc' ← checked_add max acc x; checked_sum_from max acc' l
  end.
Definition checked_sum (max : N) (l : list N) : option N := checked_sum_from max 0 l.

Definition sum_N (l : list N) : N := foldr N.add 0%N l.

Lemma sum_N_app l k : sum_N (l ++ k) = (sum_N l + sum_N k)%N.
Proof. unfold sum_N. induction l; simpl; lia. Qed.

Lemma checked_sum_from_Some max acc l s :
  checked_sum_from max acc l = Some s ↔
  s = (acc + sum_N l)%N ∧ (l = [] ∨ acc + sum_N l <= max)%N.
Proof.
  revert acc; induction l as [|x l IH]; intros acc; simpl.
  - rewrite N.add_0_r. naive_solver.
  - rewrite bind_Some. setoid_rewrite checked_add_Some. split.
    + intros (a & (-> & Ha) & [-> Hl]%IH). destruct Hl as [->|]; simpl in *; split; lia.
    + intros [-> [|]]; [done|]. eexists; split; [split; [done|lia]|].
      apply IH. split; [lia|]. right. lia.
Qed.

(** A checked sum succeeds exactly when the mathematical sum fits, and is it. *)
Lemma checked_sum_Some max l s :
  checked_sum max l = Some s ↔ s = sum_N l ∧ (sum_N l <= max)%N.
Proof.
  unfold checked_sum. rewrite checked_sum_from_Some, N.add_0_l.
  split; [intros [-> [->|]]; simpl; split; [done|lia|done|done] | naive_solver].
Qed.

(** * Strings

    A Rust [str] is its UTF-8 encoding: a [string] whose characters are the
    bytes.  Predicates of the source that look at [char]s are written on the
    encoded bytes; they are meant on well-formed UTF-8, which every [str] is. *)

Definition byte_val (c : ascii) : N := N_of_ascii c.
Definition byte (n : N) : ascii := ascii_of_N n.
Definition str_len (s : string) : N := N.of_nat (String.length s).
Definition str_is_empty (s : string) : bool := match s with EmptyString => true | _ => false end.
Definition dquote : string := String (byte 34) EmptyString.
Definition newline : string := String (byte 10) EmptyString.

Lemma str_app_inj_l (a b c : string) : a +:+ b = a +:+ c → b = c.
Proof. induction a as [|x a IH]; simpl; [done|]. intros [= H]. by apply IH. Qed.

Lemma str_length_app (a b : string) : String.length (a +:+ b) = (String.length a + String.length b)%nat.
Proof. induction a as [|x a IH]; simpl; [done|]. by rewrite IH. Qed.

Lemma str_app_inj_r (a b c : string) : b +:+ a = c +:+ a → b = c.
Proof.
  revert c. induction b as [|x b IH]; intros [|y c]; simpl; try done.
  - intros H%(f_equal String.length). simpl in H. rewrite str_length_app in H. lia.
  - intros H%(f_equal String.length). simpl in H. rewrite str_length_app in H. lia.
  - intros [= -> H]. f_equal. by apply IH.
Qed.

Lemma str_len_app a b : str_len (a +:+ b) = (str_len a + str_len b)%N.
Proof. unfold str_len. induction a as [|c a IH]; simpl; [done|]. lia. Qed.

Fixpoint str_bytes (s : string) : list ascii :=
  match s with EmptyString => [] | String c s => c :: str_bytes s end.

(** [char::is_whitespace] (Unicode [White_Space]) for the character that
    starts the string: the rest of the string after it. *)
Definition eat_whitespace (s : string) : option string :=
  match s with
  | EmptyString => None
  | String a r =>
    let n := byte_val a in
    if ((9 <=? n) && (n <=? 13) || (n =? 32))%N then Some r else
    match r with
    | EmptyString => None
    | String b r2 =>
      let m := byte_val b in
      if ((n =? 194) && ((m =? 133) || (m =? 160)))%N then Some r2 else
      match r2 with
      | EmptyString => None
      | String c r3 =>
        let k := byte_val c in
        if ((n =? 225) && (m =? 154) && (k =? 128))%N then Some r3 else
        if ((n =? 226) && (m =? 128) &&
            (((128 <=? k) && (k <=? 138)) || (k =? 168) || (k =? 169) || (k =? 175)))%N then Some r3 else
        if ((n =? 226) && (m =? 129) && (k =? 159))%N then Some r3 else
        if ((n =? 227) && (m =? 128) && (k =? 128))%N then Some r3 else None
      end
    end
  end.

(** [s.trim_start()]; one unit of fuel per character. *)
Fixpoint trim_start_fuel (fuel : nat) (s : string) : string :=
  match fuel with
  | O => s
  | S fuel => match eat_whitespace s with Some r => trim_start_fuel fuel r | None => s end
  end.
Definition trim_start (s : string) : string := trim_start_fuel (String.length s) s.
(** [s.trim().is_empty()]: every character is white space. *)
Definition is_blank (s : string) : bool := str_is_empty (trim_start s).
Fixpoint trim_end (s : string) : string :=
  if is_blank s then EmptyString else
  match s with EmptyString => EmptyString | String c r => String c (trim_end r) end.
Definition trim (s : string) : string := trim_end (trim_start s).

(** [chars().any(char::is_control)]: C0 controls, DEL and the C1 controls
    U+0080..U+009F (encoded C2 80 .. C2 9F). *)
Fixpoint has_control (s : string) : bool :=
  match s with
  | EmptyString => false
  | String a r =>
    ((byte_val a <? 32) || (byte_val a =? 127))%N ||
    (match r with
     | String b _ => ((byte_val a =? 194) && (128 <=? byte_val b) && (byte_val b <=? 159))%N
     | EmptyString => false
     end) || has_control r
  end.

(** [s.strip_prefix(p)] *)
Fixpoint strip_prefix (p s : string) : option string :=
  match p, s with
  | EmptyString, _ => Some s
  | String a p, String b s => if Ascii.eqb a b then strip_prefix p s else None
  | String _ _, EmptyString => None
  end.
Definition starts_with (p s : string) : bool :=
  match strip_prefix p s with Some _ => true | None => false end.
Lemma strip_prefix_app p r : strip_prefix p (String.app p r) = Some r.
Proof. induction p as [|c p IH]; simpl; [done|]. by rewrite Ascii.eqb_refl. Qed.

Lemma starts_with_app p r : starts_with p (String.app p r) = true.
Proof. unfold starts_with. by rewrite strip_prefix_app. Qed.

(** [s.contains(p)] *)
Fixpoint str_contains (p s : string) : bool :=
  starts_with p s || match s with EmptyString => false | String _ s => str_contains p s end.
Fixpoint str_last (s : string) : option ascii :=
  match s with
  | EmptyString => None
  | String c EmptyString => Some c
  | String _ s => str_last s
  end.
(** [s.split(c)]: always at least one piece. *)
Fixpoint str_split (sep : ascii) (s : string) : list string :=
  match s with
  | EmptyString => [EmptyString]
  | String c r =>
    if Ascii.eqb c sep then EmptyString :: str_split sep r
    else match str_split sep r with
         | p :: ps => String c p :: ps
         | [] => [String c EmptyString]
         end
  end.
(** [s.split_once(c)] *)
Fixpoint split_once (sep : ascii) (s : string) : option (string * string) :=
  match s with
  | EmptyString => None
  | String c r =>
    if Ascii.eqb c sep then Some (EmptyString, r)
    else match split_once sep r with Some (a, b) => Some (String c a, b) | None => None end
  end.
Definition str_map (f : ascii → ascii) : string → string :=
  fix go s := match s with EmptyString => EmptyString | String c s => String (f c) (go s) end.
Definition str_forall (P : ascii → bool) (s : string) : bool := forallb P (str_bytes s).

Definition in_range (lo hi : N) (c : ascii) : bool := ((lo <=? byte_val c) && (byte_val c <=? hi))%N.
Definition is_ascii_digit : ascii → bool := in_range 48 57.
Definition is_ascii_uppercase : ascii → bool := in_range 65 90.
Definition is_ascii_lowercase : ascii → bool := in_range 97 122.
Definition is_ascii_alphanumeric (c : ascii) : bool :=
  is_ascii_digit c || is_ascii_uppercase c || is_ascii_lowercase c.
Definition is_lower_hex (c : ascii) : bool := is_ascii_digit c || in_range 97 102 c.
Definition ascii_lower (c : ascii) : ascii := if is_ascii_uppercase c then byte (byte_val c + 32) else c.
Definition ascii_upper (c : ascii) : ascii := if is_ascii_lowercase c then byte (byte_val c - 32) else c.
Definition to_ascii_lowercase : string → string := str_map ascii_lower.
Definition to_ascii_uppercase : string → string := str_map ascii_upper.

(** ** Decimal numbers: [n.to_string()] and [s.parse::<u64>()] *)

Definition digit (n : N) : ascii := byte (48 + n).

Fixpoint decimal_fuel (fuel : nat) (n : N) : string :=
  match fuel with
  | O => String (digit n) EmptyString
  | S fuel =>
    if (n <? 10)%N then String (digit n) EmptyString
    else String.app (decimal_fuel fuel (n / 10)) (String (digit (n mod 10)) EmptyString)
  end.
(** The number of binary digits bounds the number of decimal ones. *)
Definition decimal (n : N) : string := decimal_fuel (N.to_nat (N.size n)) n.

(** [{n:06}]: zeros on the left up to a width. *)
Fixpoint zeros (k : nat) : string := match k with O => EmptyString | S k => String (digit 0) (zeros k) end.
Definition zero_padded (width : nat) (n : N) : string :=
  let s := decimal n in String.app (zeros (width - String.length s)) s.

Fixpoint parse_digits (max acc : N) (s : string) : option N :=
  match s with
  | EmptyString => Some acc
  | String c s =>
    if is_ascii_digit c
    then (shifted ← checked_mul max acc 10;
          acc' ← checked_add max shifted (byte_val c - 48);
          parse_digits max acc' s)
    else None
  end.
(** [str::parse] for an unsigned type: an optional [+], then at least one digit. *)
Definition parse_unsigned (max : N) (s : string) : option N :=
  let body := match s with String c r => if Ascii.eqb c "+" then r else s | EmptyString => s end in
  if str_is_empty body then None else parse_digits max 0 body.

Lemma byte_val_byte n : (n < 256)%N → byte_val (byte n) = n.
Proof. apply N_ascii_embedding. Qed.

Lemma byte_byte_val c : byte (byte_val c) = c.
Proof. apply ascii_N_embedding. Qed.

Lemma digit_is_digit n : (n < 10)%N → is_ascii_digit (digit n) = true.
Proof.
  intros H. unfold is_ascii_digit, in_range, digit. rewrite byte_val_byte by lia.
  apply andb_true_intro. split; apply N.leb_le; lia.
Qed.

Lemma size_div10 n : (10 <= n)%N → (N.size (n / 10) < N.size n)%N.
Proof.
  intros H. assert (n / 10 ≠ 0)%N as Hne.
  { intros H0. apply N.div_small_iff in H0; lia. }
  rewrite !N.size_log2 by lia. assert (n / 10 <= n / 2)%N.
  { apply N.div_le_compat_l. lia. }
  assert (N.log2 (n / 10) <= N.log2 (n / 2))%N by by apply N.log2_le_mono.
  rewrite <-N.div2_div in *. assert (N.log2 (N.div2 n) = N.pred (N.log2 n)) as Hd.
  { rewrite N.div2_spec, N.log2_shiftr. lia. }
  assert (0 < N.log2 n)%N by (apply N.log2_pos; lia). lia.
Qed.

Lemma str_app_assoc (a b c : string) : String.app (String.app a b) c = String.app a (String.app b c).
Proof. induction a as [|x a IH]; simpl; [done|]. by rewrite IH. Qed.

Lemma str_app_nil_r (a : string) : String.app a EmptyString = a.
Proof. induction a as [|x a IH]; simpl; [done|]. by rewrite IH. Qed.

Lemma str_forall_app P a b : str_forall P (String.app a b) = str_forall P a && str_forall P b.
Proof. unfold str_forall. induction a as [|x a IH]; simpl; [done|]. rewrite IH. by rewrite andb_assoc. Qed.

Lemma decimal_fuel_digits fuel n :
  (N.to_nat (N.size n) ≤ fuel)%nat → str_forall is_ascii_digit (decimal_fuel fuel n) = true.
Proof.
  revert n; induction fuel as [|fuel IH]; intros n Hf; simpl.
  - assert (n = 0)%N as -> by (destruct n as [|[p|p|]]; simpl in Hf; lia). done.
  - destruct (N.ltb_spec n 10).
    + unfold str_forall; simpl. by rewrite digit_is_digit.
    + rewrite str_forall_app, IH. 2: { pose proof (size_div10 n ltac:(lia)). lia. }
      unfold str_forall; simpl. rewrite digit_is_digit; [done|]. apply N.mod_lt. lia.
Qed.

(** A printed number consists of decimal digits. *)
Lemma decimal_digits n : str_forall is_ascii_digit (decimal n) = true.
Proof. by apply decimal_fuel_digits. Qed.

Lemma zero_padded_digits w n : str_forall is_ascii_digit (zero_padded w n) = true.
Proof.
  unfold zero_padded. rewrite str_forall_app, decimal_digits, andb_true_r.
  by induction (w - _)%nat.
Qed.

Lemma parse_digits_app max acc s t :
  parse_digits max acc (String.app s t) = a ← parse_digits max acc s; parse_digits max a t.
Proof.
  revert acc; induction s as [|c s IH]; intros acc; simpl; [done|].
  destruct (is_ascii_digit c); [|done]. destruct (checked_mul _ _ _); simpl; [|done].
  destruct (checked_add _ _ _); simpl; [|done]. apply IH.
Qed.

Lemma parse_digits_one max acc d :
  (d < 10)%N → (acc * 10 + d <= max)%N →
  parse_digits max acc (String (digit d) EmptyString) = Some (acc * 10 + d)%N.
Proof.
  intros Hd Hm. simpl. rewrite digit_is_digit by done. unfold digit. rewrite byte_val_byte by lia.
  unfold checked_mul, checked_add. destruct (N.leb_spec (acc * 10) max); [|lia]. simpl.
  replace (48 + d - 48)%N with d by lia. destruct (N.leb_spec (acc * 10 + d) max); [done|lia].
Qed.

Lemma parse_decimal_fuel max fuel n :
  (N.to_nat (N.size n) ≤ fuel)%nat → (n <= max)%N → parse_digits max 0 (decimal_fuel fuel n) = Some n.
Proof.
  revert n; induction fuel as [|fuel IH]; intros n Hf Hm.
  - assert (n = 0)%N as -> by (destruct n as [|[p|p|]]; simpl in Hf; lia).
    by apply parse_digits_one.
  - cbn [decimal_fuel]. destruct (N.ltb_spec n 10).
    + by rewrite parse_digits_one by lia.
    + assert (n = 10 * (n / 10) + n mod 10)%N as Hn by (apply N.div_mod; lia).
      assert (n mod 10 < 10)%N by (apply N.mod_lt; lia).
      rewrite parse_digits_app, IH.
      * cbn [mbind option_bind]. rewrite parse_digits_one by lia. f_equal. lia.
      * pose proof (size_div10 n ltac:(lia)). lia.
      * transitivity n; [|done]. apply N.Div0.div_le_upper_bound. lia.
Qed.

Lemma decimal_nonempty n : ∃ c r, decimal n = String c r ∧ is_ascii_digit c = true.
Proof.
  pose proof (decimal_digits n) as Hd. destruct (decimal n) as [|c r] eqn:E.
  - exfalso. unfold decimal in E. destruct (N.to_nat (N.size n)); simpl in E; [done|].
    destruct (_ <? _)%N; [done|]. by destruct (decimal_fuel n0 (n / 10)).
  - exists c, r. split; [done|]. unfold str_forall in Hd. simpl in Hd. by apply andb_prop in Hd as [? _].
Qed.

(** Printing then parsing a number that fits gives it back. *)
Lemma parse_decimal max n : (n <= max)%N → parse_unsigned max (decimal n) = Some n.
Proof.
  intros Hm. unfold parse_unsigned. destruct (decimal_nonempty n) as (c & r & E & Hc).
  rewrite E. destruct (Ascii.eqb_spec c "+") as [->|_]; [done|]. simpl str_is_empty. cbv iota.
  rewrite <-E. by apply parse_decimal_fuel.
Qed.

(** ** Lines *)

Lemma split_once_app_Some c x y a b : split_once c x = Some (a, b) → split_once c (x +:+ y) = Some (a, b +:+ y).
Proof.
  revert a. induction x as [|d x IH]; intros a; simpl; [done|]. destruct (Ascii.eqb d c); [by intros [= <- ->]|].
  destruct (split_once c x) as [[a' b']|]; [|done]. intros [= <- ->]. by rewrite (IH a').
Qed.

Lemma split_once_app_None c x y :
  split_once c x = None → split_once c (x +:+ y) = (λ ab, (x +:+ ab.1, ab.2)) <$> split_once c y.
Proof.
  induction x as [|d x IH]; simpl; [by destruct (split_once c y) as [[]|]|]. destruct (Ascii.eqb d c); [done|].
  destruct (split_once c x) as [[]|]; [done|]. intros _. rewrite IH by done. by destruct (split_once c y) as [[]|].
Qed.

Lemma str_split_once c s :
  str_split c s = match split_once c s with Some (a, b) => a :: str_split c b | None => [s] end.
Proof.
  induction s as [|d s IH]; simpl; [done|]. destruct (Ascii.eqb d c); [done|]. rewrite IH.
  by destruct (split_once c s) as [[]|].
Qed.

Definition lines (s : string) : list string := str_split (byte 10) s.
Definition has_char (c : ascii) (s : string) : bool := existsb (Ascii.eqb c) (str_bytes s).

Lemma has_char_app c a b : has_char c (String.app a b) = has_char c a || has_char c b.
Proof. unfold has_char. induction a as [|x a IH]; simpl; [done|]. by rewrite IH, orb_assoc. Qed.

Lemma digits_no_char c s :
  is_ascii_digit c = false → str_forall is_ascii_digit s = true → has_char c s = false.
Proof.
  intros Hc. unfold has_char, str_forall. induction s as [|x s IH]; simpl; [done|].
  intros [Hx Hs]%andb_prop. destruct (Ascii.eqb_spec c x) as [->|]; [congruence|]. by apply IH.
Qed.

Lemma split_app sep a b :
  has_char sep a = false → str_split sep (String.app a (String sep b)) = a :: str_split sep b.
Proof.
  unfold has_char. induction a as [|x a IH]; simpl.
  - by rewrite Ascii.eqb_refl.
  - intros [Hx Ha]%orb_false_elim. rewrite Ascii.eqb_sym, Hx, IH by done. done.
Qed.
