(* ===== verification/Threads.v ===== *)
(** Asynchronous operations on shared state, and a rely-guarantee logic for them.

    An operation is a program of atomic sections.  [Step] is a section that always runs
    (a lock section, an atomic access, a synchronous call); [Await] is a suspension point:
    the section runs when the awaited condition holds, and while it does not the caller may
    drop the future, which runs the destructors of what the operation still owns, one
    section at a time.  [owning d p] is [p] in the scope of a value whose destructor is [d].

    [pool_step] interleaves any number of operations with the background; [safe] is the
    condition on one operation under which [pool_inv] carries an invariant through every
    interleaving, and [amid] is one operation among arbitrary interference. *)

From Stdlib Require Import Lia.
From stdpp Require Import base relations list.
From S2P Require Import Prelude.

Local Open Scope list_scope.

Module Threads.

Section programs.
(** [S]: the shared state; [Env]: what the outside answers at a section. *)
Context {S Env : Type}.

Definition section : Type := Env → S → S.

Inductive prog (A : Type) : Type :=
| Ret (a : A)
| Step {X : Type} (f : Env → S → X * S) (k : X → prog A)
| Await {X : Type} (f : Env → S → option (X * S)) (dropped : list section) (k : X → prog A).
Arguments Ret {A} a.
Arguments Step {A X} f k.
Arguments Await {A X} f dropped k.

Fixpoint bind {A B} (p : prog A) (k : A → prog B) : prog B :=
  match p with
  | Ret a => k a
  | Step f j => Step f (λ x, bind (j x) k)
  | Await f d j => Await f d (λ x, bind (j x) k)
  end.

(** The sections [l], then [r]. *)
Fixpoint sections {A} (l : list section) (r : prog A) : prog A :=
  match l with
  | [] => r
  | f :: l => Step (λ e s, (tt, f e s)) (λ _, sections l r)
  end.

(** The destructors [d] run only if [p] is dropped. *)
Fixpoint on_drop {A} (d : list section) (p : prog A) : prog A :=
  match p with
  | Ret a => Ret a
  | Step f k => Step f (λ x, on_drop d (k x))
  | Await f d' k => Await f (d' ++ d) (λ x, on_drop d (k x))
  end.

(** [p] in the scope of a value with destructor [d]. *)
Definition owning {A} (d : list section) (p : prog A) : prog A :=
  bind (on_drop d p) (λ a, sections d (Ret a)).

(** A section without an answer, a look at the state, an answer of the outside. *)
Definition act (f : section) : prog unit := Step (λ e s, (tt, f e s)) Ret.
Definition look {X} (f : S → X) : prog X := Step (λ _ s, (f s, s)) Ret.
Definition ask {X} (f : Env → X) : prog X := Step (λ e s, (f e, s)) Ret.

(** * Interleaving *)

(** A running operation, or the destructors of a dropped one; the answer of the latter is
    [None]. *)
Definition thread (A : Type) : Type := prog (option A).
Definition start {A} (p : prog A) : thread A := bind p (λ a, Ret (Some a)).

Section pool.
Context {A : Type} (me : Env → nat) (operation : prog A → Prop) (background : S → S → Prop) (fit : S → Prop).

Inductive pool_step : S * list (thread A) → S * list (thread A) → Prop :=
| p_start s ts p : operation p → pool_step (s, ts) (s, ts ++ [start p])
| p_step s ts t X (f : Env → S → X * S) k e x s' :
    ts !! t = Some (Step f k) → me e = t → fit s → f e s = (x, s') → pool_step (s, ts) (s', <[t := k x]> ts)
| p_ready s ts t X (f : Env → S → option (X * S)) d k e x s' :
    ts !! t = Some (Await f d k) → me e = t → fit s → f e s = Some (x, s') → pool_step (s, ts) (s', <[t := k x]> ts)
| p_drop s ts t X (f : Env → S → option (X * S)) d k :
    ts !! t = Some (Await f d k) → pool_step (s, ts) (s, <[t := sections d (Ret None)]> ts)
| p_background s ts s' : fit s → background s s' → pool_step (s, ts) (s', ts).

End pool.

(** One operation that is given the answers it waits for, as a function; [fit_b] decides
    whether a section may run. *)
Section drive.
Context (fit_b : S → bool).
Fixpoint drive {A} (answers : list Env) (p : prog A) (s : S) : option (prog A * S) :=
  match answers with
  | [] => Some (p, s)
  | e :: answers =>
    if fit_b s then
      match p with
      | Ret _ => Some (p, s)
      | Step f k => let '(x, s') := f e s in drive answers (k x) s'
      | Await f _ k => match f e s with Some (x, s') => drive answers (k x) s' | None => None end
      end
    else None
  end.

Lemma drive_pool {A} (me : Env → nat) (operation : prog A → Prop) (background : S → S → Prop) (fit : S → Prop)
    t answers (p p' : thread A) s s' ts :
  (∀ s, fit_b s = true → fit s) → Forall (λ e, me e = t) answers → ts !! t = Some p →
  drive answers p s = Some (p', s') →
  rtc (pool_step me operation background fit) (s, ts) (s', <[t := p']> ts).
Proof.
  intros Hfit. revert p s ts. induction answers as [|e answers IH]; intros p s ts Hme Ht; cbn [drive].
  { intros [= -> ->]. by rewrite list_insert_id. }
  apply Forall_cons in Hme as [Hm Hme]. destruct (fit_b s) eqn:Hf; [|done]. apply Hfit in Hf.
  assert (∀ q s1, pool_step me operation background fit (s, ts) (s1, <[t := q]> ts) → drive answers q s1 = Some (p', s') →
    rtc (pool_step me operation background fit) (s, ts) (s', <[t := p']> ts)) as Hgo.
  { intros q s1 Hst Hd. eapply rtc_l; [exact Hst|]. rewrite <-(list_insert_insert_eq ts t p' q).
    apply (IH q); [done| |done]. apply list_lookup_insert_eq. by eapply lookup_lt_Some. }
  destruct p as [a|X f k|X f d k]; [intros [= <- <-]; by rewrite list_insert_id| |].
  - destruct (f e s) as [x s1] eqn:He. intros Hd. eapply Hgo; [|exact Hd]. by eapply p_step.
  - destruct (f e s) as [ [x s1]|] eqn:He; [|done]. intros Hd. eapply Hgo; [|exact Hd]. by eapply p_ready.
Qed.

End drive.

(** * Rely and guarantee *)

Section logic.
Context (me : Env → nat) (rely guar : nat → S → S → Prop) (inv fit : S → Prop).

(** From [s], whatever the others do, every section of [p] meets the guarantee and the
    invariant, and [p] ends in [Φ] or, dropped, in [Ψ]. *)
Fixpoint safe_sections (t : nat) (l : list section) (Ψ : S → Prop) (s : S) : Prop :=
  match l with
  | [] => Ψ s
  | f :: l => ∀ s1 e, rely t s s1 → inv s1 → fit s1 → me e = t →
                guar t s1 (f e s1) ∧ inv (f e s1) ∧ safe_sections t l Ψ (f e s1)
  end.
Fixpoint safe {A} (t : nat) (p : prog A) (Φ : A → S → Prop) (Ψ : S → Prop) (s : S) : Prop :=
  match p with
  | Ret a => Φ a s
  | Step f k => ∀ s1 e x s2, rely t s s1 → inv s1 → fit s1 → me e = t → f e s1 = (x, s2) →
                  guar t s1 s2 ∧ inv s2 ∧ safe t (k x) Φ Ψ s2
  | Await f d k => ∀ s1, rely t s s1 → inv s1 →
      (∀ e x s2, fit s1 → me e = t → f e s1 = Some (x, s2) → guar t s1 s2 ∧ inv s2 ∧ safe t (k x) Φ Ψ s2)
      ∧ safe_sections t d Ψ s1
  end.

(** What the others do leaves [P] true. *)
Definition stable (t : nat) (P : S → Prop) : Prop := ∀ s s', P s → rely t s s' → inv s' → P s'.

Context (rely_refl : ∀ t s, rely t s s) (rely_trans : ∀ t s s' s'', rely t s s' → rely t s' s'' → rely t s s'').

Lemma safe_sections_rely t l Ψ s s' :
  stable t Ψ → safe_sections t l Ψ s → rely t s s' → inv s' → safe_sections t l Ψ s'.
Proof. destruct l as [|f l]; simpl; eauto. Qed.

Lemma safe_rely {A} t (p : prog A) Φ Ψ s s' :
  (∀ a, stable t (Φ a)) → safe t p Φ Ψ s → rely t s s' → inv s' → safe t p Φ Ψ s'.
Proof. destruct p; simpl; unfold stable; eauto. Qed.

Lemma safe_bind {A B} t (p : prog A) (k : A → prog B) Φ Ψ s :
  safe t p (λ a s, safe t (k a) Φ Ψ s) Ψ s → safe t (bind p k) Φ Ψ s.
Proof.
  revert s. induction p as [a|X f j IH|X f d j IH]; intros s; cbn [safe bind]; [done| |].
  - intros H s1 e x s2 Hr Hi Hf Hm He. destruct (H s1 e x s2 Hr Hi Hf Hm He) as (Hg & Hi' & Hs). auto.
  - intros H s1 Hr Hi. destruct (H s1 Hr Hi) as [H1 H2]. split; [|done].
    intros e x s2 Hf Hm He. destruct (H1 e x s2 Hf Hm He) as (Hg & Hi' & Hs). auto.
Qed.

Lemma safe_sections_mono t l (Ψ Ψ' : S → Prop) s :
  safe_sections t l Ψ s → (∀ s, Ψ s → Ψ' s) → safe_sections t l Ψ' s.
Proof.
  intros H HΨ. revert s H. induction l as [|f l IH]; intros s; simpl; [eauto|].
  intros H s1 e Hr Hi Hf Hm. destruct (H s1 e Hr Hi Hf Hm) as (Hg & Hi' & Hs). auto.
Qed.

Lemma safe_mono {A} t (p : prog A) (Φ Φ' : A → S → Prop) (Ψ Ψ' : S → Prop) s :
  safe t p Φ Ψ s → (∀ a s, Φ a s → Φ' a s) → (∀ s, Ψ s → Ψ' s) → safe t p Φ' Ψ' s.
Proof.
  intros H HΦ HΨ. revert s H. induction p as [a|X f j IH|X f d j IH]; intros s; cbn [safe]; [auto| |].
  - intros H s1 e x s2 Hr Hi Hf Hm He. destruct (H s1 e x s2 Hr Hi Hf Hm He) as (Hg & Hi' & Hs). auto.
  - intros H s1 Hr Hi. destruct (H s1 Hr Hi) as [H1 H2]. split; [|eauto using safe_sections_mono].
    intros e x s2 Hf Hm He. destruct (H1 e x s2 Hf Hm He) as (Hg & Hi' & Hs). auto.
Qed.

Lemma safe_run_sections {A} t l (r : prog A) Φ Ψ s :
  safe_sections t l (λ s, safe t r Φ Ψ s) s → safe t (sections l r) Φ Ψ s.
Proof.
  revert s. induction l as [|f l IH]; intros s; simpl; [done|].
  intros H s1 e x s2 Hr Hi Hf Hm [= <- <-]. destruct (H s1 e Hr Hi Hf Hm) as (Hg & Hi' & Hs). auto.
Qed.

Lemma safe_sections_app t l l' Ψ s :
  safe_sections t l (λ s, safe_sections t l' Ψ s) s → safe_sections t (l ++ l') Ψ s.
Proof.
  revert s. induction l as [|f l IH]; intros s; simpl; [done|].
  intros H s1 e Hr Hi Hf Hm. destruct (H s1 e Hr Hi Hf Hm) as (Hg & Hi' & Hs). auto.
Qed.

Lemma safe_on_drop {A} t d (p : prog A) Φ Ψ s :
  safe t p Φ (λ s, safe_sections t d Ψ s) s → safe t (on_drop d p) Φ Ψ s.
Proof.
  revert s. induction p as [a|X f j IH|X f d' j IH]; intros s; cbn [safe on_drop]; [done| |].
  - intros H s1 e x s2 Hr Hi Hf Hm He. destruct (H s1 e x s2 Hr Hi Hf Hm He) as (Hg & Hi' & Hs). auto.
  - intros H s1 Hr Hi. destruct (H s1 Hr Hi) as [H1 H2]. split; [|by apply safe_sections_app].
    intros e x s2 Hf Hm He. destruct (H1 e x s2 Hf Hm He) as (Hg & Hi' & Hs). auto.
Qed.

(** The rule of scopes: the destructor runs on either way out. *)
Lemma safe_owning {A} t d (p : prog A) Φ Ψ s :
  safe t p (λ a s, safe_sections t d (Φ a) s) (λ s, safe_sections t d Ψ s) s →
  safe t (owning d p) Φ Ψ s.
Proof.
  intros H. apply safe_bind, safe_on_drop. eapply safe_mono; [done| |done].
  intros a s' Hs. by apply safe_run_sections.
Qed.

(** * One operation *)

Section one.
(** What the operation may assume of the states the others leave. *)
Context (ok : S → Prop).

(** Destructors amid the steps of the others, and their own sections as pairs of states. *)
Inductive amid_sections (t : nat) : list section → S → list (S * S) → S → Prop :=
| as_nil s : amid_sections t [] s [] s
| as_cons f l s s1 e tr s' :
    rely t s s1 → ok s1 → fit s1 → me e = t → amid_sections t l (f e s1) tr s' →
    amid_sections t (f :: l) s ((s1, f e s1) :: tr) s'.

(** One operation amid the steps of the others: its own sections as pairs of states, its
    answer ([None]: dropped) and the last state. *)
Inductive amid {A} (t : nat) : prog A → S → list (S * S) → option A → S → Prop :=
| am_ret a s : amid t (Ret a) s [] (Some a) s
| am_step X (f : Env → S → X * S) k s s1 e x s2 l r s' :
    rely t s s1 → ok s1 → fit s1 → me e = t → f e s1 = (x, s2) → amid t (k x) s2 l r s' →
    amid t (Step f k) s ((s1, s2) :: l) r s'
| am_ready X (f : Env → S → option (X * S)) d k s s1 e x s2 l r s' :
    rely t s s1 → ok s1 → fit s1 → me e = t → f e s1 = Some (x, s2) → amid t (k x) s2 l r s' →
    amid t (Await f d k) s ((s1, s2) :: l) r s'
| am_drop X (f : Env → S → option (X * S)) d k s s1 l s' :
    rely t s s1 → ok s1 → amid_sections t d s1 l s' → amid t (Await f d k) s l None s'.

(** A driven operation is one amid nobody's interference. *)
Lemma drive_amid {A} (fit_b : S → bool) t answers (p : prog A) a s s' Φ Ψ :
  (∀ s, fit_b s = true → fit s) → (∀ s, inv s → ok s) → Forall (λ e, me e = t) answers → inv s → safe t p Φ Ψ s →
  drive fit_b answers p s = Some (Ret a, s') → ∃ tr, amid t p s tr (Some a) s'.
Proof.
  intros Hfit Hok. revert p s. induction answers as [|e answers IH]; intros p s Hme Hi Hs; cbn [drive].
  { intros [= -> ->]. eexists. constructor. }
  apply Forall_cons in Hme as [Hm Hme]. destruct (fit_b s) eqn:Hf; [|done]. apply Hfit in Hf.
  destruct p as [b|X f k|X f d k]; [intros [= -> ->]; eexists; constructor| |]; cbn [safe] in Hs.
  - destruct (f e s) as [x s1] eqn:He. intros Hd. destruct (Hs s e x s1) as (_ & Hi1 & Hs1); [by auto..|].
    destruct (IH _ _ Hme Hi1 Hs1 Hd) as [tr Htr]. eexists. eapply am_step; eauto.
  - destruct (f e s) as [ [x s1]|] eqn:He; [|done]. intros Hd. destruct (Hs s) as [H1 _]; [by auto..|].
    destruct (H1 e x s1) as (_ & Hi1 & Hs1); [by auto..|].
    destruct (IH _ _ Hme Hi1 Hs1 Hd) as [tr Htr]. eexists. eapply am_ready; eauto.
Qed.

(** What [safe] means for one operation, when the invariant of the logic is at least as much
    as the others leave and survives what they do. *)
Context (t : nat) (inv_rely : ∀ s s', inv s → rely t s s' → ok s' → inv s').

Lemma amid_sections_safe l s tr s' Ψ :
  amid_sections t l s tr s' → inv s → safe_sections t l Ψ s →
  Ψ s' ∧ Forall (λ p, guar t p.1 p.2 ∧ inv p.2) tr.
Proof.
  induction 1 as [s|f l s s1 e tr s' Hr Hi Hf Hm Ha IH]; simpl; [done|]. intros H0 Hs.
  destruct (Hs s1 e Hr) as (Hg & Hi' & Hs'); [by eauto|done|done|]. destruct (IH Hi' Hs') as [HΨ Htr]. auto.
Qed.

Lemma amid_safe {A} (p : prog A) s tr r s' Φ Ψ :
  amid t p s tr r s' → inv s → safe t p Φ Ψ s →
  match r with Some a => Φ a s' | None => Ψ s' end ∧ Forall (λ p, guar t p.1 p.2 ∧ inv p.2) tr.
Proof.
  induction 1 as [a s|X f k s s1 e x s2 l r s' Hr Hi Hf Hm He _ IH|X f d k s s1 e x s2 l r s' Hr Hi Hf Hm He _ IH
                 |X f d k s s1 l s' Hr Hi Hd]; cbn [safe]; intros H0 Hs.
  - done.
  - destruct (Hs s1 e x s2 Hr) as (Hg & Hi' & Hs'); [by eauto|done..|]. destruct (IH Hi' Hs') as [HΦ Htr]. auto.
  - destruct (Hs s1 Hr) as [H1 _]; [by eauto|]. destruct (H1 e x s2 Hf Hm He) as (Hg & Hi' & Hs').
    destruct (IH Hi' Hs') as [HΦ Htr]. auto.
  - destruct (Hs s1 Hr) as [_ H2]; [by eauto|]. eapply amid_sections_safe; [done|by eauto|done].
Qed.

End one.

(** * The pool *)

(** Operations that are safe from any state in which they own nothing ([idle]), together
    with a background that everyone relies on, keep the invariant in every interleaving;
    an operation that has ended is where it promised to be. *)
Section invariant.
Context {A : Type} (operation : prog A → Prop) (background : S → S → Prop).
Context (Φ : nat → option A → S → Prop) (idle : nat → S → Prop).

Context (Φ_stable : ∀ t a, stable t (Φ t a)) (idle_stable : ∀ t, stable t (idle t)).
Context (guar_rely : ∀ t u s s', t ≠ u → guar u s s' → rely t s s').
Context (background_rely : ∀ t s s', inv s → fit s → background s s' → rely t s s').
Context (background_inv : ∀ s s', inv s → fit s → background s s' → inv s').
Context (operation_safe : ∀ p t s, operation p → idle t s → inv s → safe t p (λ a, Φ t (Some a)) (Φ t None) s).

Definition pool_inv (c : S * list (thread A)) : Prop :=
  inv c.1 ∧ (∀ t, (length c.2 ≤ t)%nat → idle t c.1) ∧
  ∀ t p, c.2 !! t = Some p → safe t p (Φ t) (Φ t None) c.1.

(** What one thread's section does to the others. *)
Lemma pool_update s s' (ts : list (thread A)) t q :
  pool_inv (s, ts) → is_Some (ts !! t) → guar t s s' → inv s' → safe t q (Φ t) (Φ t None) s' →
  pool_inv (s', <[t := q]> ts).
Proof.
  intros (Hi & Hid & Hs) Ht Hg Hi' Hq. split_and!; simpl in *; [done| |].
  - intros u. rewrite length_insert. intros Hu. apply (idle_stable u s); [by apply Hid| |done].
    apply (guar_rely u t); [|done]. intros ->. apply lookup_lt_is_Some in Ht. lia.
  - intros u p Hp. destruct (decide (t = u)) as [->|Hne].
    + rewrite list_lookup_insert_eq in Hp by by apply lookup_lt_is_Some. by simplify_eq.
    + rewrite list_lookup_insert_ne in Hp by done. eapply safe_rely; [done|by apply Hs| |done].
      by apply (guar_rely u t).
Qed.

Lemma pool_step_inv c c' : pool_inv c → pool_step me operation background fit c c' → pool_inv c'.
Proof.
  intros Hc Hstep. pose proof Hc as (Hi & Hid & Hs).
  destruct Hstep as [s ts p Hop|s ts t X f k e x s' Ht Hm Hf He|s ts t X f d k e x s' Ht Hm Hf He|s ts t X f d k Ht|s ts s' Hf Hb];
    simpl in *.
  - split_and!; simpl; [done| |].
    + intros t. rewrite length_app. simpl. intros Ht. apply Hid. lia.
    + intros t q [Hq|[Hlt Hq]]%lookup_app_Some; [by apply Hs|]. apply list_lookup_singleton_Some in Hq as [Hz <-].
      apply safe_bind. eapply safe_mono; [eapply operation_safe; [done|by apply Hid|done]|done|done].
  - destruct (Hs _ _ Ht s e x s') as (Hg & Hi' & Hk); try done. by eapply pool_update.
  - destruct (Hs _ _ Ht s) as [H1 _]; try done. destruct (H1 e x s') as (Hg & Hi' & Hk); try done.
    by eapply pool_update.
  - destruct (Hs _ _ Ht s) as [_ H2]; try done. split_and!; simpl; [done| |].
    + intros u. rewrite length_insert. apply Hid.
    + intros u p Hp. destruct (decide (t = u)) as [->|Hne].
      * rewrite list_lookup_insert_eq in Hp by by apply lookup_lt_is_Some. simplify_eq.
        by apply safe_run_sections.
      * rewrite list_lookup_insert_ne in Hp by done. by apply Hs.
  - assert (inv s') as Hi' by eauto. split_and!; simpl; [done| |].
    + intros t Ht. eapply idle_stable; eauto.
    + intros t p Hp. eapply safe_rely; eauto.
Qed.

Lemma pool_run_inv c c' : pool_inv c → rtc (pool_step me operation background fit) c c' → pool_inv c'.
Proof. intros Hc. induction 1; eauto using pool_step_inv. Qed.

End invariant.
End logic.
End programs.

Arguments Ret {S Env A} a.
Arguments Step {S Env A X} f k.
Arguments Await {S Env A X} f dropped k.

End Threads.
