(* ===== verification/Core.v ===== *)
(** The engine-neutral domain types of [crates/impossible-embedding-core]:
    stable error codes and their privacy-reviewed public form, batch costs,
    request options, model identities, and exact token usage.  Control of
    running requests (cancellation and deadlines) is in [Cancellation.v]. *)

From stdpp Require Import base list strings.
From Stdlib Require Import NArith Lia.
From S2P Require Import Prelude.

Local Open Scope string_scope.
Local Open Scope list_scope.

(** * Stable failures *)

Inductive ErrorCode :=
| InvalidRequest
| ModelUnavailable
| QueueFull
| Cancelled
| DeadlineExceeded
| InferenceFailed
| Internal.

#[export] Instance ErrorCode_eq_dec : EqDecision ErrorCode.
Proof. solve_decision. Defined.

(** [ErrorCode::as_str] *)
Definition ErrorCode_as_str (c : ErrorCode) : string :=
  match c with
  | InvalidRequest => "invalid_request"
  | ModelUnavailable => "model_unavailable"
  | QueueFull => "queue_full"
  | Cancelled => "cancelled"
  | DeadlineExceeded => "deadline_exceeded"
  | InferenceFailed => "inference_failed"
  | Internal => "internal"
  end.

Inductive Retryability := Never | Retryable | Unknown.

#[export] Instance Retryability_eq_dec : EqDecision Retryability.
Proof. solve_decision. Defined.

Record PublicError := mk_PublicError {
  pe_code : ErrorCode;
  pe_retryability : Retryability;
  pe_message : string;
}.

#[export] Instance PublicError_eq_dec : EqDecision PublicError.
Proof. solve_decision. Defined.

(** [PublicError::for_code] *)
Definition for_code (code : ErrorCode) : PublicError :=
  match code with
  | InvalidRequest => mk_PublicError code Never "the embedding request is invalid"
  | ModelUnavailable => mk_PublicError code Retryable "the requested model is unavailable"
  | QueueFull => mk_PublicError code Retryable "the request queue is full"
  | Cancelled => mk_PublicError code Never "the request was cancelled"
  | DeadlineExceeded => mk_PublicError code Never "the request deadline was exceeded"
  | InferenceFailed => mk_PublicError code Unknown "embedding inference failed"
  | Internal => mk_PublicError code Unknown "an internal server error occurred"
  end.

(** [EngineFailure]: the private diagnostic source is kept apart from the public
    error; it is represented by its rendered text. *)
Record EngineFailure := mk_EngineFailure {
  ef_public : PublicError;
  ef_source : option string;
}.

#[export] Instance EngineFailure_eq_dec : EqDecision EngineFailure.
Proof. solve_decision. Defined.

(** [EngineFailure::public] *)
Definition public (code : ErrorCode) : EngineFailure := mk_EngineFailure (for_code code) None.
(** [EngineFailure::with_source] *)
Definition with_source (code : ErrorCode) (source : string) : EngineFailure :=
  mk_EngineFailure (for_code code) (Some source).
(** [EngineFailure::public_error] *)
Definition public_error (f : EngineFailure) : PublicError := ef_public f.
(** [EngineFailure::diagnostic_source] *)
Definition diagnostic_source (f : EngineFailure) : option string := ef_source f.
(** [Display for EngineFailure]: the static public message only. *)
Definition EngineFailure_display (f : EngineFailure) : string := pe_message (ef_public f).
Definition failure_code (f : EngineFailure) : ErrorCode := pe_code (public_error f).

(** [Debug for EngineFailure]: the public error and whether a diagnostic exists. *)
Definition EngineFailure_debug (f : EngineFailure) : PublicError * bool :=
  (ef_public f, match ef_source f with Some _ => true | None => false end).

(** * Batch cost *)

Record EmbeddingBatchCost := mk_EmbeddingBatchCost {
  items : N;
  tokens : N;
  max_sequence_length : N;
}.

#[export] Instance EmbeddingBatchCost_eq_dec : EqDecision EmbeddingBatchCost.
Proof. solve_decision. Defined.

(** [EmbeddingBatchCost::new] *)
Definition EmbeddingBatchCost_new (its toks m : N) : result EngineFailure EmbeddingBatchCost :=
  let? padded := ok_or (checked_mul usize_max its m) (public InvalidRequest) in
  if ((its =? 0) || (m =? 0) || (padded <? toks))%N then Err (public InvalidRequest)
  else Ok (mk_EmbeddingBatchCost its toks m).

(** [EmbeddingBatchCost::padded_tokens] *)
Definition padded_tokens (c : EmbeddingBatchCost) : result EngineFailure N :=
  ok_or (checked_mul usize_max (items c) (max_sequence_length c)) (public InvalidRequest).

(** [EmbeddingBatchCost::combined_padded_tokens] *)
Definition combined_padded_tokens (c other : EmbeddingBatchCost) : result EngineFailure N :=
  ok_or (its ← checked_add usize_max (items c) (items other);
         checked_mul usize_max its (N.max (max_sequence_length c) (max_sequence_length other)))
        (public InvalidRequest).

(** * Request options, batches and identities *)

Inductive EmbeddingTask := Query | Document.
Inductive Truncation := Reject | Truncate.

#[export] Instance EmbeddingTask_eq_dec : EqDecision EmbeddingTask.
Proof. solve_decision. Defined.
#[export] Instance Truncation_eq_dec : EqDecision Truncation.
Proof. solve_decision. Defined.

Record EmbedOptions := mk_EmbedOptions {
  task : EmbeddingTask;
  truncation : Truncation;
  dimensions : option N;
  normalize : option bool;
}.

#[export] Instance EmbedOptions_eq_dec : EqDecision EmbedOptions.
Proof. solve_decision. Defined.

(** [Default for EmbedOptions] *)
Definition EmbedOptions_default : EmbedOptions := mk_EmbedOptions Document Reject None None.

Inductive ModelVerificationStatus := Missing | Invalid | IntegrityVerified | Loadable.

#[export] Instance ModelVerificationStatus_eq_dec : EqDecision ModelVerificationStatus.
Proof. solve_decision. Defined.

(** [EmbeddingBatch]: a non-empty list of texts ([EmbeddingBatch::new]). *)
Record EmbeddingBatch := mk_EmbeddingBatch { inputs : list string }.

Definition EmbeddingBatch_new (ins : list string) : result EngineFailure EmbeddingBatch :=
  match ins with
  | [] => Err (public InvalidRequest)
  | _ => Ok (mk_EmbeddingBatch ins)
  end.

(** [RequestedModel::new]: any non-blank name. *)
Record RequestedModel := mk_RequestedModel { rm_str : string }.

Definition RequestedModel_new (value : string) : result EngineFailure RequestedModel :=
  if is_blank value then Err (public InvalidRequest) else Ok (mk_RequestedModel value).

Record ResolvedModelIdentity := mk_ResolvedModelIdentity {
  canonical_id : string;
  revision : string;
  runtime : string;
  artifact_fingerprint : string;
  semantic_fingerprint : string;
}.

#[export] Instance ResolvedModelIdentity_eq_dec : EqDecision ResolvedModelIdentity.
Proof. solve_decision. Defined.

Definition identity_fields (i : ResolvedModelIdentity) : list string :=
  [canonical_id i; revision i; runtime i; artifact_fingerprint i; semantic_fingerprint i].

(** [ResolvedModelIdentity::new] *)
Definition ResolvedModelIdentity_new (c r rt af sf : string)
    : result EngineFailure ResolvedModelIdentity :=
  let identity := mk_ResolvedModelIdentity c r rt af sf in
  if existsb is_blank (identity_fields identity) then Err (public Internal) else Ok identity.

(** * Output and exact usage *)

Record EmbeddingUsage := mk_EmbeddingUsage {
  input_tokens : list N;
  total_tokens : N;
}.

(** [EmbeddingUsage::new] *)
Definition EmbeddingUsage_new (toks : list N) : result EngineFailure EmbeddingUsage :=
  match toks with
  | [] => Err (public InferenceFailed)
  | _ => let? total := ok_or (checked_sum u64_max toks) (public InferenceFailed) in
         Ok (mk_EmbeddingUsage toks total)
  end.

(** A single-precision value is its IEEE-754 bit pattern; [f32::is_finite] is an
    exponent field that is not all ones. *)
Abbreviation f32 := N (only parsing).
Definition f32_is_finite (bits : f32) : bool := negb (N.land (N.shiftr bits 23) 255 =? 255)%N.

Record EmbeddingOutput := mk_EmbeddingOutput {
  vectors : list (list f32);
  out_model : ResolvedModelIdentity;
  usage : EmbeddingUsage;
}.

#[export] Instance EmbeddingUsage_eq_dec : EqDecision EmbeddingUsage.
Proof. solve_decision. Defined.
#[export] Instance EmbeddingOutput_eq_dec : EqDecision EmbeddingOutput.
Proof. solve_decision. Defined.

(** * Well-formedness and the operations *)

(** What a constructed cost promises to a scheduler. *)
Definition cost_wf (c : EmbeddingBatchCost) : Prop :=
  (1 <= items c)%N ∧ (1 <= max_sequence_length c)%N ∧
  (tokens c <= items c * max_sequence_length c)%N ∧
  (items c * max_sequence_length c <= usize_max)%N.

Lemma EmbeddingBatchCost_new_Ok its toks m c :
  EmbeddingBatchCost_new its toks m = Ok c ↔
  c = mk_EmbeddingBatchCost its toks m ∧ cost_wf c.
Proof.
  unfold EmbeddingBatchCost_new, cost_wf. rewrite bind_Ok. setoid_rewrite ok_or_Ok.
  setoid_rewrite checked_mul_Some. split.
  - intros (p & [-> Hp] & H).
    destruct (N.eqb_spec its 0), (N.eqb_spec m 0), (N.ltb_spec (its * m) toks); try done.
    injection H as <-. simpl in *. split; [done|]. lia.
  - intros [-> (? & ? & ? & ?)]; simpl in *. eexists; split; [split; [done|lia]|].
    destruct (N.eqb_spec its 0), (N.eqb_spec m 0), (N.ltb_spec (its * m) toks); (lia || done).
Qed.

Lemma EmbeddingUsage_new_Ok toks u :
  EmbeddingUsage_new toks = Ok u ↔
  toks ≠ [] ∧ u = mk_EmbeddingUsage toks (sum_N toks) ∧ (sum_N toks <= u64_max)%N.
Proof.
  unfold EmbeddingUsage_new. destruct toks as [|t ts] eqn:E; [naive_solver|].
  rewrite <-E in *. rewrite bind_Ok. setoid_rewrite ok_or_Ok. setoid_rewrite checked_sum_Some.
  split.
  - intros (a & [-> ?] & [= <-]). naive_solver.
  - intros (_ & -> & ?). eexists; split; [done|]. done.
Qed.

Lemma EmbeddingBatch_new_Ok ins b :
  EmbeddingBatch_new ins = Ok b ↔ ins ≠ [] ∧ b = mk_EmbeddingBatch ins.
Proof. destruct ins; naive_solver. Qed.

Lemma RequestedModel_new_Ok v m :
  RequestedModel_new v = Ok m ↔ is_blank v = false ∧ m = mk_RequestedModel v.
Proof. unfold RequestedModel_new. destruct (is_blank v); naive_solver. Qed.

(** [EmbeddingBatchCost::new] accepts exactly the consistent costs, and
    for a cost it accepts neither accessor can fail: [padded_tokens] is the
    product, and the combined size of two accepted costs, when it is
    representable, is the padded size of the merged batch and bounds both
    parts. *)
Theorem cost_new_safe its toks m c :
  EmbeddingBatchCost_new its toks m = Ok c →
  (1 <= its ∧ 1 <= m ∧ toks <= its * m)%N ∧
  padded_tokens c = Ok (its * m)%N ∧
  (∀ its' toks' m' c' w,
     EmbeddingBatchCost_new its' toks' m' = Ok c' →
     combined_padded_tokens c c' = Ok w →
     w = ((its + its') * N.max m m')%N ∧ (its * m + its' * m' <= w)%N ∧ (toks + toks' <= w)%N).
Proof.
  rewrite EmbeddingBatchCost_new_Ok. intros [-> (? & ? & ? & ?)]; simpl in *.
  split; [lia|]. split.
  - unfold padded_tokens. apply ok_or_Ok, checked_mul_Some. simpl. lia.
  - intros its' toks' m' c' w. rewrite EmbeddingBatchCost_new_Ok.
    intros [-> (? & ? & ? & ?)]; simpl in *. unfold combined_padded_tokens; simpl.
    rewrite ok_or_Ok, bind_Some. setoid_rewrite checked_add_Some.
    intros (n & [-> ?] & [-> ?]%checked_mul_Some). split; [done|]. nia.
Qed.

Lemma cost_new_safe_witness :
  EmbeddingBatchCost_new 2 7 4 = Ok (mk_EmbeddingBatchCost 2 7 4) ∧
  padded_tokens (mk_EmbeddingBatchCost 2 7 4) = Ok 8%N.
Proof.
  split; [reflexivity|].
  exact (proj1 (proj2 (cost_new_safe 2 7 4 (mk_EmbeddingBatchCost 2 7 4) eq_refl))).
Defined.

(** Exact usage is splittable: for ordered counts [a ++ b] accepted as one
    usage, both non-empty halves are accepted on their own, keep their order,
    and their totals add up to the total of the whole with no overflow. *)
Theorem usage_splits a b u :
  EmbeddingUsage_new (a ++ b) = Ok u → a ≠ [] → b ≠ [] →
  ∃ ua ub, EmbeddingUsage_new a = Ok ua ∧ EmbeddingUsage_new b = Ok ub ∧
    input_tokens u = input_tokens ua ++ input_tokens ub ∧
    total_tokens u = (total_tokens ua + total_tokens ub)%N ∧ (total_tokens u <= u64_max)%N.
Proof.
  rewrite EmbeddingUsage_new_Ok, sum_N_app. intros (_ & -> & Hsum) Ha Hb.
  exists (mk_EmbeddingUsage a (sum_N a)), (mk_EmbeddingUsage b (sum_N b)).
  rewrite !EmbeddingUsage_new_Ok. simpl. repeat split; (done || lia).
Qed.

Lemma usage_splits_witness :
  EmbeddingUsage_new ([3; 4] ++ [5])%N = Ok (mk_EmbeddingUsage [3; 4; 5]%N 12%N) ∧
  ∃ ua ub, EmbeddingUsage_new [3; 4]%N = Ok ua ∧ EmbeddingUsage_new [5]%N = Ok ub ∧
    [3; 4; 5]%N = input_tokens ua ++ input_tokens ub ∧
    12%N = (total_tokens ua + total_tokens ub)%N ∧ (12 <= u64_max)%N.
Proof.
  split; [reflexivity|].
  apply (usage_splits [3; 4]%N [5]%N (mk_EmbeddingUsage [3; 4; 5]%N 12%N)); [reflexivity|done|done].
Defined.

(** What a failure exposes is determined by its stable code alone: attaching
    a private diagnostic changes neither the public error nor the displayed
    text, the wire names of distinct codes are distinct, and only overload and
    unavailability are advertised as retryable. *)
Theorem public_failure_is_private code source :
  public_error (with_source code source) = public_error (public code) ∧
  EngineFailure_display (with_source code source) = EngineFailure_display (public code) ∧
  failure_code (with_source code source) = code ∧
  (∀ code', ErrorCode_as_str code = ErrorCode_as_str code' → code = code') ∧
  (pe_retryability (for_code code) = Retryable ↔ code = QueueFull ∨ code = ModelUnavailable).
Proof.
  split; [done|]. split; [done|]. split; [by destruct code|]. split.
  - intros code'; destruct code, code'; simpl; congruence.
  - destruct code; simpl; naive_solver.
Qed.
