(* ===== verification/Cancellation.v ===== *)
(** Cancellation tokens and execution control
    ([crates/impossible-embedding-core/src/lib.rs], from [CancellationSignal] on).

    A [CancellationToken] is an [Arc] to a shared [CancellationState]; cancelling
    one handle is seen through every other.  The model is therefore a store: a
    token is the address of its state, the store lists the states in the order
    they were allocated, and every operation maps a store to a store.  A [Weak]
    handle is an address whose cell may be dead ([cell_alive = false] is
    [strong_count() == 0]).  Each operation runs as one atomic step; the race of
    [register_waiter] against [cancel] is in [WaitRace.v].  [now] is the
    monotonic clock reading of the step. *)

From stdpp Require Import base list strings sets relations.
From Stdlib Require Import NArith Lia.
From S2P Require Import Prelude Core.

Abbreviation token := nat (only parsing).
Abbreviation waker := nat (only parsing).

(** * The shared store *)

Record CancellationSignal := mk_CancellationSignal {
  cancelled : bool;
  waiters : list waker;
  dependents : list token;
}.

(** [Default for CancellationSignal] *)
Definition CancellationSignal_default : CancellationSignal := mk_CancellationSignal false [] [].

(** [ExecutionControl] *)
Inductive ExecutionControl :=
| mk_ExecutionControl (cancellation : token) (deadline : option N)
    (constituents : option (list ExecutionControl)).

Definition ec_cancellation (c : ExecutionControl) : token :=
  match c with mk_ExecutionControl t _ _ => t end.
Definition ec_constituents (c : ExecutionControl) : option (list ExecutionControl) :=
  match c with mk_ExecutionControl _ _ cs => cs end.

(** [enum CancellationState] *)
Inductive CancellationState :=
| Single (signal : CancellationSignal)
| Any (signal : CancellationSignal) (constituents : list token)
| Composite (controls : list ExecutionControl).

Record Cell := mk_Cell { cell_alive : bool; cell_state : CancellationState }.

Record Store := mk_Store { cells : list Cell; woken : list waker }.

Definition state_signal (s : CancellationState) : option CancellationSignal :=
  match s with Single sg | Any sg _ => Some sg | Composite _ => None end.
Definition with_signal (sg : CancellationSignal) (s : CancellationState) : CancellationState :=
  match s with Single _ => Single sg | Any _ cs => Any sg cs | Composite l => Composite l end.

Definition lookup_state (st : Store) (t : token) : option CancellationState :=
  cell_state <$> cells st !! t.
Definition lookup_signal (st : Store) (t : token) : option CancellationSignal :=
  lookup_state st t ≫= state_signal.
(** [strong_count() != 0] *)
Definition alive (st : Store) (t : token) : bool :=
  match cells st !! t with Some c => cell_alive c | None => false end.
Definition set_signal (t : token) (sg : CancellationSignal) (st : Store) : Store :=
  mk_Store (alter (λ c, mk_Cell (cell_alive c) (with_signal sg (cell_state c))) t (cells st)) (woken st).
Definition wake (ws : list waker) (st : Store) : Store := mk_Store (cells st) (woken st ++ ws).
Definition flag (st : Store) (t : token) : bool :=
  match lookup_signal st t with Some sg => cancelled sg | None => false end.

(** * Queries *)

(** [ExecutionControl::ensure_active], against the token test [isc]. *)
Fixpoint ensure_active_with (isc : token → bool) (now : N) (c : ExecutionControl)
    : result EngineFailure unit :=
  match c with
  | mk_ExecutionControl tok _ (Some l) =>
    if existsb (λ c, is_ok (ensure_active_with isc now c)) l then Ok tt
    else if existsb (λ c, isc (ec_cancellation c)) l then Err (public Cancelled)
    else Err (public DeadlineExceeded)
  | mk_ExecutionControl tok dl None =>
    if isc tok then Err (public Cancelled)
    else if match dl with Some d => (d <=? now)%N | None => false end
    then Err (public DeadlineExceeded)
    else Ok tt
  end.

(** [CancellationToken::is_cancelled].  A state only refers to states allocated
    before it, so [S t] units of fuel reach every one of them
    ([is_cancelled_fuel_enough]). *)
Fixpoint is_cancelled_fuel (fuel : nat) (st : Store) (now : N) (t : token) : bool :=
  match fuel with
  | O => false
  | S fuel =>
    match lookup_state st t with
    | Some (Single sg) => cancelled sg
    | Some (Any sg cs) => cancelled sg || existsb (is_cancelled_fuel fuel st now) cs
    | Some (Composite l) =>
        forallb (λ c, negb (is_ok (ensure_active_with (is_cancelled_fuel fuel st now) now c))) l
    | None => false
    end
  end.
Definition is_cancelled (st : Store) (now : N) (t : token) : bool := is_cancelled_fuel (S t) st now t.
Definition ensure_active (st : Store) (now : N) (c : ExecutionControl) : result EngineFailure unit :=
  ensure_active_with (is_cancelled st now) now c.

(** * Updates *)

(** [CancellationState::source_changed], with [CancellationSignal::cancel] as [rec]. *)
Definition source_changed_with (rec : Store → token → Store) (now : N) (st : Store) (t : token) : Store :=
  match lookup_state st t with
  | Some (Any _ cs) => if existsb (is_cancelled st now) cs then rec st t else st
  | _ => st
  end.

Definition notify_dependents (rec : Store → token → Store) (now : N) (deps : list token) (st : Store) : Store :=
  foldl (λ st d, if alive st d then source_changed_with rec now st d else st) st deps.

(** [CancellationSignal::cancel]: set the flag, drain and wake the waiters, drop
    dead dependents and tell the live ones.  Each nested call sets one more flag,
    so one unit of fuel per unset flag is enough ([signal_cancel_fuel_enough]). *)
Fixpoint signal_cancel_fuel (fuel : nat) (now : N) (st : Store) (t : token) : Store :=
  match fuel with
  | O => st
  | S fuel =>
    match lookup_signal st t with
    | None => st
    | Some sg =>
      if cancelled sg then st else
      let deps := filter (λ d, alive st d = true) (dependents sg) in
      notify_dependents (signal_cancel_fuel fuel now) now deps
        (wake (waiters sg) (set_signal t (mk_CancellationSignal true [] deps) st))
    end
  end.
Definition signal_cancel (now : N) (st : Store) (t : token) : Store :=
  signal_cancel_fuel (S (length (cells st))) now st t.
Definition source_changed (now : N) (st : Store) (t : token) : Store :=
  source_changed_with (signal_cancel now) now st t.

(** [CancellationSignal::register_waiter] *)
Definition signal_register_waiter (w : waker) (st : Store) (t : token) : Store :=
  match lookup_signal st t with
  | None => st
  | Some sg =>
    if cancelled sg then wake [w] st else
    if bool_decide (w ∈ waiters sg) then st
    else set_signal t (mk_CancellationSignal false (waiters sg ++ [w]) (dependents sg)) st
  end.

(** [CancellationSignal::register_dependent] *)
Definition signal_register_dependent (now : N) (dep : token) (st : Store) (t : token) : Store :=
  match lookup_signal st t with
  | None => st
  | Some sg =>
    let kept := filter (λ d, alive st d = true) (dependents sg) in
    let deps := if bool_decide (dep ∈ kept) then kept else kept ++ [dep] in
    let st := set_signal t (mk_CancellationSignal (cancelled sg) (waiters sg) deps) st in
    if cancelled sg && alive st dep then source_changed now st dep else st
  end.

(** The [match self.0.as_ref()] of [CancellationToken::{register_dependent,
    register_waiter, cancel}]: act on the signal, or descend into the controls
    of a composite. *)
Fixpoint on_signals (f : Store → token → Store) (fuel : nat) (st : Store) (t : token) : Store :=
  match fuel with
  | O => st
  | S fuel =>
    match lookup_state st t with
    | Some (Single _) | Some (Any _ _) => f st t
    | Some (Composite l) => foldl (λ st c, on_signals f fuel st (ec_cancellation c)) st l
    | None => st
    end
  end.
Definition register_dependent (now : N) (dep : token) (st : Store) (t : token) : Store :=
  on_signals (signal_register_dependent now dep) (S t) st t.
Definition register_waiter (w : waker) (st : Store) (t : token) : Store :=
  on_signals (signal_register_waiter w) (S t) st t.
(** [CancellationToken::cancel] *)
Definition cancel (now : N) (st : Store) (t : token) : Store :=
  on_signals (signal_cancel now) (S t) st t.

Definition alloc (s : CancellationState) (st : Store) : token * Store :=
  (length (cells st), mk_Store (cells st ++ [mk_Cell true s]) (woken st)).
(** [Default for CancellationToken] *)
Definition token_default (st : Store) : token * Store := alloc (Single CancellationSignal_default) st.
(** [CancellationToken::any] *)
Definition any (now : N) (constituents : list token) (st : Store) : token * Store :=
  let '(t, st) := alloc (Any CancellationSignal_default constituents) st in
  let st := foldl (register_dependent now t) st constituents in
  (t, source_changed now st t).
(** [ExecutionControl::new] *)
Definition ExecutionControl_new (t : token) (deadline : option N) : ExecutionControl :=
  mk_ExecutionControl t deadline None.
(** [ExecutionControl::composite] *)
Definition composite (constituents : list ExecutionControl) (st : Store) : ExecutionControl * Store :=
  let '(t, st) := alloc (Composite constituents) st in
  (mk_ExecutionControl t None (Some constituents), st).
(** The last strong handle of a token is dropped. *)
Definition drop_token (t : token) (st : Store) : Store :=
  mk_Store (alter (λ c, mk_Cell false (cell_state c)) t (cells st)) (woken st).
(** One poll of [CancellationToken::cancelled]: ready, or the waker registered. *)
Definition poll_cancelled (now : N) (w : waker) (st : Store) (t : token) : bool * Store :=
  if is_cancelled st now t then (true, st) else
  let st := register_waiter w st t in (is_cancelled st now t, st).

#[global] Arguments is_cancelled : simpl never.
#[global] Arguments ensure_active : simpl never.
#[global] Arguments signal_cancel : simpl never.

(** * Engine boundary *)

(** [trait EmbeddingEngine]: what in-process and delegated runtimes provide. *)
Class EmbeddingEngine := {
  engine_embed : RequestedModel → EmbeddingBatch → ExecutionControl → result EngineFailure EmbeddingOutput;
}.

(** [execute_embedding]: the control is checked before dispatch (store [st], at
    [now]) and again after inference (store [st'], at [now']). *)
Definition execute_embedding `{EmbeddingEngine} (m : RequestedModel) (b : EmbeddingBatch)
    (c : ExecutionControl) (st : Store) (now : N) (st' : Store) (now' : N)
    : result EngineFailure EmbeddingOutput :=
  let? _ := ensure_active st now c in
  let r := engine_embed m b c in
  let? _ := ensure_active st' now' c in
  r.

(** * Well-formed stores *)

Section control_induction.
  Variable P : ExecutionControl → Prop.
  Hypothesis Hleaf : ∀ t d, P (mk_ExecutionControl t d None).
  Hypothesis Hnode : ∀ t d l, Forall P l → P (mk_ExecutionControl t d (Some l)).

  (** Induction on controls with a hypothesis for every constituent. *)
Fixpoint ExecutionControl_rect' (c : ExecutionControl) : P c :=
    match c with
    | mk_ExecutionControl t d None => Hleaf t d
    | mk_ExecutionControl t d (Some l) =>
      Hnode t d l
        ((fix go l := match l return Forall P l with
                      | [] => Forall_nil_2 _
                      | c :: l => Forall_cons_2 _ _ _ (ExecutionControl_rect' c) (go l)
                      end) l)
    end.
End control_induction.

Fixpoint control_tokens (c : ExecutionControl) : list token :=
  match c with
  | mk_ExecutionControl t _ None => [t]
  | mk_ExecutionControl t _ (Some l) => t :: flat_map control_tokens l
  end.

(** A composite control refers to the composite state it was built with. *)
Fixpoint control_ok (st : Store) (c : ExecutionControl) : Prop :=
  match c with
  | mk_ExecutionControl _ _ None => True
  | mk_ExecutionControl t _ (Some l) =>
    lookup_state st t = Some (Composite l) ∧ foldr (λ c P, control_ok st c ∧ P) True l
  end.

Definition state_refs (s : CancellationState) : list token :=
  match s with
  | Single _ => []
  | Any _ cs => cs
  | Composite l => flat_map control_tokens l
  end.
Definition state_deps (s : CancellationState) : list token :=
  match state_signal s with Some sg => dependents sg | None => [] end.
Definition state_controls (s : CancellationState) : list ExecutionControl :=
  match s with Composite l => l | _ => [] end.

(** States refer to older states; dependents are newer; composites are built
    from well-formed controls. *)
Definition store_wf (st : Store) : Prop :=
  ∀ t s, lookup_state st t = Some s →
    Forall (λ u, u < t) (state_refs s) ∧ Forall (λ u, t < u) (state_deps s) ∧
    Forall (control_ok st) (state_controls s).

(** What a state is apart from its mutable signal. *)
Definition shape (s : CancellationState) : CancellationState := with_signal CancellationSignal_default s.

(** [st'] is a later store: the same states, with at least the same flags. *)
Definition later (st st' : Store) : Prop :=
  ∀ t s, lookup_state st t = Some s →
    (shape <$> lookup_state st' t = Some (shape s)) ∧ (flag st t = true → flag st' t = true).

#[export] Instance later_preorder : PreOrder later.
Proof.
  split.
  - intros st t s H. rewrite H. done.
  - intros st1 st2 st3 H12 H23 t s Hs. destruct (H12 t s Hs) as [Hsh Hf].
    apply fmap_Some in Hsh as (s2 & Hs2 & Hsh). destruct (H23 t s2 Hs2) as [Hsh3 Hf3].
    rewrite Hsh. auto.
Qed.

(** [st] and [st'] have the same states with the same flags up to address [t]. *)
Definition agree_upto (t : token) (st st' : Store) : Prop :=
  ∀ u, u ≤ t → shape <$> lookup_state st u = shape <$> lookup_state st' u ∧ flag st u = flag st' u.

Lemma is_cancelled_fuel_S fuel st now t :
  is_cancelled_fuel (S fuel) st now t =
  match shape <$> lookup_state st t with
  | Some (Single _) => flag st t
  | Some (Any _ cs) => flag st t || existsb (is_cancelled_fuel fuel st now) cs
  | Some (Composite l) =>
      forallb (λ c, negb (is_ok (ensure_active_with (is_cancelled_fuel fuel st now) now c))) l
  | None => false
  end.
Proof. unfold flag, lookup_signal. simpl. destruct (lookup_state st t) as [[]|]; done. Qed.

Lemma existsb_ext_in {A} (f g : A → bool) l :
  (∀ x, x ∈ l → f x = g x) → existsb f l = existsb g l.
Proof.
  induction l as [|x l IH]; simpl; intros H; [done|].
  rewrite (H x), IH; [done|set_solver..].
Qed.

Lemma forallb_ext_in {A} (f g : A → bool) l :
  (∀ x, x ∈ l → f x = g x) → forallb f l = forallb g l.
Proof.
  induction l as [|x l IH]; simpl; intros H; [done|].
  rewrite (H x), IH; [done|set_solver..].
Qed.

Lemma elem_of_flat_map {A B} (f : A → list B) l y :
  y ∈ flat_map f l ↔ ∃ x, x ∈ l ∧ y ∈ f x.
Proof. induction l; simpl; set_solver. Qed.

Lemma control_token_in c : ec_cancellation c ∈ control_tokens c.
Proof. destruct c as [t d [l|]]; simpl; set_solver. Qed.

Lemma ensure_active_ext isc isc' now c :
  (∀ t, t ∈ control_tokens c → isc t = isc' t) →
  ensure_active_with isc now c = ensure_active_with isc' now c.
Proof.
  induction c as [t d|t d l IH] using ExecutionControl_rect'; simpl; intros H.
  - rewrite (H t); set_solver.
  - rewrite Forall_forall in IH.
    assert (Hsub : ∀ c u, c ∈ l → u ∈ control_tokens c → isc u = isc' u).
    { intros c u Hc Hu. apply H, elem_of_cons. right. apply elem_of_flat_map. eauto. }
    rewrite (existsb_ext_in _ (λ c, is_ok (ensure_active_with isc' now c)) l).
    + rewrite (existsb_ext_in (λ c, isc (ec_cancellation c)) (λ c, isc' (ec_cancellation c)) l); [done|].
      intros c Hc. apply (Hsub c); [done|apply control_token_in].
    + intros c Hc. rewrite (IH c Hc); eauto.
Qed.

Lemma refs_lt st t s u :
  store_wf st → shape <$> lookup_state st t = Some (shape s) → u ∈ state_refs s → u < t.
Proof.
  intros Hwf Hs Hu. apply fmap_Some in Hs as (s' & Hs' & Hsh).
  destruct (Hwf t s' Hs') as [Hr _]. rewrite Forall_forall in Hr.
  apply Hr. by destruct s, s'; simpl in *; simplify_eq.
Qed.

Lemma composite_token_ref l c u :
  c ∈ l → u ∈ control_tokens c → u ∈ state_refs (Composite l).
Proof. intros. apply elem_of_flat_map. eauto. Qed.

(** The answer depends only on the states up to [t], and on no more fuel than
    [S t]. *)
Lemma is_cancelled_fuel_agree st st' now t f f' :
  store_wf st → agree_upto t st st' → t < f → t < f' →
  is_cancelled_fuel f st now t = is_cancelled_fuel f' st' now t.
Proof.
  intros Hwf. revert f f'. induction (lt_wf t) as [t _ IH]; intros f f' Hag Hf Hf'.
  destruct f as [|f]; [lia|]. destruct f' as [|f']; [lia|].
  rewrite !is_cancelled_fuel_S. destruct (Hag t) as [Hs Hfl]; [done|].
  rewrite <-Hs, <-Hfl. destruct (shape <$> lookup_state st t) as [s|] eqn:E; [|done].
  assert (Hsub : ∀ u, u ∈ state_refs s →
            is_cancelled_fuel f st now u = is_cancelled_fuel f' st' now u).
  { intros u Hu. assert (u < t).
    { apply (refs_lt st t s u Hwf); [|done]. rewrite E.
      apply fmap_Some in E as (s' & _ & ->). by destruct s'. }
    apply IH; [done| |lia|lia]. intros v Hv. apply Hag. lia. }
  destruct s as [sg|sg cs|l]; [done| |].
  - f_equal. by apply existsb_ext_in.
  - apply forallb_ext_in. intros c Hc. rewrite (ensure_active_ext _ (is_cancelled_fuel f' st' now)); [done|].
    intros u Hu. apply Hsub. by eapply composite_token_ref.
Qed.

Lemma agree_upto_refl t st : agree_upto t st st.
Proof. done. Qed.

Lemma is_cancelled_fuel_enough st now t f :
  store_wf st → t < f → is_cancelled_fuel f st now t = is_cancelled st now t.
Proof. intros. apply is_cancelled_fuel_agree; [done|apply agree_upto_refl|lia|lia]. Qed.

(** The defining equations, without fuel. *)
Lemma is_cancelled_eq st now t :
  store_wf st →
  is_cancelled st now t =
  match shape <$> lookup_state st t with
  | Some (Single _) => flag st t
  | Some (Any _ cs) => flag st t || existsb (is_cancelled st now) cs
  | Some (Composite l) => forallb (λ c, negb (is_ok (ensure_active st now c))) l
  | None => false
  end.
Proof.
  intros Hwf. unfold is_cancelled at 1. rewrite is_cancelled_fuel_S.
  destruct (shape <$> lookup_state st t) as [s|] eqn:E; [|done].
  assert (Hsub : ∀ u, u ∈ state_refs s → is_cancelled_fuel t st now u = is_cancelled st now u).
  { intros u Hu. apply is_cancelled_fuel_enough; [done|]. apply (refs_lt st t s u Hwf); [|done].
    rewrite E. apply fmap_Some in E as (s' & _ & ->). by destruct s'. }
  destruct s as [sg|sg cs|l]; [done| |].
  - f_equal. by apply existsb_ext_in.
  - apply forallb_ext_in. intros c Hc. unfold ensure_active.
    rewrite (ensure_active_ext _ (is_cancelled st now)); [done|].
    intros u Hu. apply Hsub. by eapply composite_token_ref.
Qed.

Lemma flag_is_cancelled st now t : store_wf st → flag st t = true → is_cancelled st now t = true.
Proof.
  intros Hwf Hf. rewrite is_cancelled_eq by done. revert Hf. unfold flag, lookup_signal.
  destruct (lookup_state st t) as [[]|]; simpl; try done. by intros ->.
Qed.

(** * Cancellation is permanent *)

Lemma ensure_active_mono isc isc' now now' c :
  (∀ t, t ∈ control_tokens c → isc t = true → isc' t = true) → (now <= now')%N →
  is_ok (ensure_active_with isc' now' c) = true → is_ok (ensure_active_with isc now c) = true.
Proof.
  induction c as [t d|t d l IH] using ExecutionControl_rect'; simpl; intros H Hnow.
  - destruct (isc t) eqn:E.
    + rewrite (H t); [done|set_solver|done].
    + destruct (isc' t); [done|]. destruct d as [d|]; [|done].
      destruct (N.leb_spec d now'), (N.leb_spec d now); (done || lia).
  - rewrite Forall_forall in IH. intros Hok.
    destruct (existsb (λ c, is_ok (ensure_active_with isc' now' c)) l) eqn:E.
    + apply existsb_exists in E as (c & Hc & Hcok). apply list_elem_of_In in Hc.
      assert (existsb (λ c, is_ok (ensure_active_with isc now c)) l = true) as ->; [|done].
      apply existsb_exists. exists c. split; [by apply list_elem_of_In|].
      apply (IH c Hc); [|done|done]. intros u Hu. apply H, elem_of_cons. right.
      apply elem_of_flat_map. eauto.
    + by destruct (existsb (λ c, isc' (ec_cancellation c)) l).
Qed.

Lemma later_shape st st' t : later st st' → shape <$> lookup_state st t = shape <$> lookup_state st' t ∨ lookup_state st t = None.
Proof.
  intros Hl. destruct (lookup_state st t) as [s|] eqn:E; [|by right].
  left. destruct (Hl t s E) as [-> _]. done.
Qed.

Lemma is_cancelled_later st st' now now' t :
  store_wf st → store_wf st' → later st st' → (now <= now')%N →
  is_cancelled st now t = true → is_cancelled st' now' t = true.
Proof.
  intros Hwf Hwf' Hl Hnow. induction (lt_wf t) as [t _ IH].
  rewrite !is_cancelled_eq by done.
  destruct (lookup_state st t) as [s|] eqn:Es; [|done].
  destruct (Hl t s Es) as [Hsh Hfl]. rewrite Hsh. simpl.
  assert (Hsub : ∀ u, u ∈ state_refs s → is_cancelled st now u = true → is_cancelled st' now' u = true).
  { intros u Hu. apply IH. apply (refs_lt st t s u Hwf); [by rewrite Es|done]. }
  destruct s as [sg|sg cs|l]; simpl; [done| |].
  - rewrite !orb_true_iff, !existsb_exists. intros [?|(u & Hu & Hc)]; [auto|].
    right. exists u. split; [done|]. apply Hsub; [by apply list_elem_of_In|done].
  - rewrite !forallb_forall. intros Hall c Hc.
    assert (Hok := Hall c Hc). rewrite negb_true_iff in *.
    destruct (is_ok (ensure_active st' now' c)) eqn:E; [|done]. rewrite <-Hok.
    symmetry. revert E. apply ensure_active_mono; [|done].
    intros u Hu. apply Hsub. eapply composite_token_ref; [by apply list_elem_of_In|done].
Qed.

(** * Store updates *)

Lemma lookup_set_signal t sg st u :
  lookup_state (set_signal t sg st) u =
  if decide (t = u) then with_signal sg <$> lookup_state st u else lookup_state st u.
Proof.
  unfold lookup_state, set_signal; simpl. case_decide as H; [subst u|].
  - rewrite list_lookup_alter_eq. by destruct (cells st !! t).
  - by rewrite list_lookup_alter_ne.
Qed.

Lemma lookup_wake ws st u : lookup_state (wake ws st) u = lookup_state st u.
Proof. done. Qed.

Lemma alive_set_signal t sg st u : alive (set_signal t sg st) u = alive st u.
Proof.
  unfold alive, set_signal; simpl. destruct (decide (t = u)) as [->|].
  - rewrite list_lookup_alter_eq. by destruct (cells st !! u).
  - by rewrite list_lookup_alter_ne.
Qed.

Lemma signal_set_signal t sg st u :
  lookup_signal (set_signal t sg st) u =
  if decide (t = u) then (λ _, sg) <$> lookup_signal st u else lookup_signal st u.
Proof.
  unfold lookup_signal. rewrite lookup_set_signal. case_decide; [|done].
  by destruct (lookup_state st u) as [[]|].
Qed.

Lemma flag_set_signal t sg st u :
  flag (set_signal t sg st) u =
  if decide (t = u) then match lookup_signal st u with Some _ => cancelled sg | None => false end else flag st u.
Proof.
  unfold flag. rewrite signal_set_signal. case_decide; [|done]. by destruct (lookup_signal st u).
Qed.

Lemma shape_set_signal t sg st u :
  shape <$> lookup_state (set_signal t sg st) u = shape <$> lookup_state st u.
Proof. rewrite lookup_set_signal. case_decide; [|done]. by destruct (lookup_state st u) as [[]|]. Qed.

Lemma shape_composite s l : shape s = Composite l → s = Composite l.
Proof. destruct s; simpl; congruence. Qed.

Lemma control_ok_shape st st' c :
  (∀ u, shape <$> lookup_state st u = shape <$> lookup_state st' u) →
  control_ok st c → control_ok st' c.
Proof.
  intros Hsh. induction c as [t d|t d l IH] using ExecutionControl_rect'; simpl; [done|].
  intros [Ht Hl]. split.
  - pose proof (Hsh t) as E. rewrite Ht in E. simpl in E. symmetry in E.
    apply fmap_Some in E as (s & -> & Es). by rewrite (shape_composite s l).
  - clear Ht. induction IH as [|c l Hc _ IH]; simpl in *; [done|]. destruct Hl. auto.
Qed.

Lemma shape_refs s s' : shape s = shape s' → state_refs s = state_refs s' ∧ state_controls s = state_controls s'.
Proof. destruct s, s'; simpl; intros; by simplify_eq. Qed.

(** [st'] is [st] with signals updated at addresses from [t] on: nothing is
    allocated, dropped or un-cancelled, and live dependents are kept. *)
Record evolves (t : token) (st st' : Store) : Prop := {
  ev_shape : ∀ u, shape <$> lookup_state st u = shape <$> lookup_state st' u;
  ev_alive : ∀ u, alive st u = alive st' u;
  ev_length : length (cells st) = length (cells st');
  ev_flag : ∀ u, flag st u = true → flag st' u = true;
  ev_low : ∀ u, u < t → lookup_state st u = lookup_state st' u;
  ev_deps : ∀ u sg sg' d, lookup_signal st u = Some sg → lookup_signal st' u = Some sg' →
    alive st d = true → d ∈ dependents sg → d ∈ dependents sg';
}.

Lemma evolves_refl t st : evolves t st st.
Proof. split; try done. intros. by simplify_eq. Qed.

Lemma shape_signal st st' u sg :
  shape <$> lookup_state st u = shape <$> lookup_state st' u → lookup_signal st u = Some sg →
  is_Some (lookup_signal st' u).
Proof.
  unfold lookup_signal. destruct (lookup_state st u) as [[]|], (lookup_state st' u) as [[]|];
    simpl; (done || eauto).
Qed.

Lemma evolves_trans t st1 st2 st3 : evolves t st1 st2 → evolves t st2 st3 → evolves t st1 st3.
Proof.
  intros H1 H2. split; intros.
  - rewrite (ev_shape _ _ _ H1). apply (ev_shape _ _ _ H2).
  - rewrite (ev_alive _ _ _ H1). apply (ev_alive _ _ _ H2).
  - rewrite (ev_length _ _ _ H1). apply (ev_length _ _ _ H2).
  - by apply (ev_flag _ _ _ H2), (ev_flag _ _ _ H1).
  - rewrite (ev_low _ _ _ H1) by done. by apply (ev_low _ _ _ H2).
  - destruct (shape_signal st1 st2 u sg) as [sg2 Hsg2]; [apply (ev_shape _ _ _ H1)|done|].
    eapply (ev_deps _ _ _ H2); [done|done| |].
    + by rewrite <-(ev_alive _ _ _ H1).
    + by eapply (ev_deps _ _ _ H1).
Qed.

Lemma evolves_weaken t t' st st' : t ≤ t' → evolves t' st st' → evolves t st st'.
Proof. intros Ht [? ? ? ? Hlow ?]. split; try done. intros u Hu. apply Hlow. lia. Qed.

Lemma evolves_later t st st' : evolves t st st' → later st st'.
Proof.
  intros H u s Hs. split; [|apply (ev_flag _ _ _ H)]. rewrite <-(ev_shape _ _ _ H), Hs. done.
Qed.

Lemma evolves_set_signal t st sg sg' :
  lookup_signal st t = Some sg → (cancelled sg = true → cancelled sg' = true) →
  (∀ d, alive st d = true → d ∈ dependents sg → d ∈ dependents sg') →
  evolves t st (set_signal t sg' st).
Proof.
  intros Hsg Hc Hd. split.
  - intros u. by rewrite shape_set_signal.
  - intros u. by rewrite alive_set_signal.
  - unfold set_signal; simpl. by rewrite length_alter.
  - intros u. rewrite flag_set_signal. case_decide as E; [subst u|done].
    unfold flag. rewrite Hsg. done.
  - intros u Hu. rewrite lookup_set_signal. case_decide; [lia|done].
  - intros u sg1 sg2 d. rewrite signal_set_signal. case_decide as E; [subst u|naive_solver].
    intros H1 H2. rewrite H1 in Hsg. rewrite H1 in H2. simpl in H2. simplify_eq. eauto.
Qed.

Lemma evolves_wake t ws st : evolves t st (wake ws st).
Proof.
  split; try done. intros u sg sg' d H1 H2 _ Hin. unfold lookup_signal in *.
  rewrite lookup_wake in H2. by simplify_eq.
Qed.

(** * The invariant of the store *)

(** A signal that is set has no waiter left. *)
Definition no_stranded (st : Store) : Prop :=
  ∀ t sg, lookup_signal st t = Some sg → cancelled sg = true → waiters sg = [].
(** A live [any] token is registered with every constituent signal, except for
    the pairs [E] of a registration in progress. *)
Definition deps_complete (E : token → token → Prop) (st : Store) : Prop :=
  ∀ c d sg cs sgc, ¬ E c d → lookup_state st d = Some (Any sg cs) → alive st d = true → c ∈ cs →
    lookup_signal st c = Some sgc → d ∈ dependents sgc.
(** Set flags have reached every live [any] token, except from the tokens [X]
    whose cancellation is in progress. *)
Definition propagated (E : token → token → Prop) (X : list token) (st : Store) : Prop :=
  ∀ c d sg cs, ¬ E c d → c ∉ X → lookup_state st d = Some (Any sg cs) → alive st d = true → c ∈ cs →
    flag st c = true → flag st d = true.

Record store_inv (E : token → token → Prop) (X : list token) (st : Store) : Prop := {
  si_wf : store_wf st;
  si_stranded : no_stranded st;
  si_complete : deps_complete E st;
  si_propagated : propagated E X st;
}.

Lemma wf_set_signal t sg' st :
  store_wf st → Forall (λ u, t < u) (dependents sg') → store_wf (set_signal t sg' st).
Proof.
  intros Hwf Hdeps u s' Hs'.
  pose proof (shape_set_signal t sg' st u) as Hsh. rewrite Hs' in Hsh. simpl in Hsh. symmetry in Hsh.
  apply fmap_Some in Hsh as (s & Hs & Hsh). destruct (Hwf u s Hs) as (Hr & Hd & Hc).
  destruct (shape_refs _ _ Hsh) as [-> ->]. split; [done|]. split.
  - rewrite lookup_set_signal, Hs in Hs'. case_decide; [subst u|]; simpl in *; simplify_eq; [|done].
    by destruct s.
  - eapply Forall_impl; [exact Hc|]. intros c. apply control_ok_shape. intros v.
    by rewrite shape_set_signal.
Qed.

Lemma complete_evolves E t st st' : evolves t st st' → deps_complete E st → deps_complete E st'.
Proof.
  intros Hev Hc c d sg cs sgc HE Hd Ha Hin Hsgc.
  pose proof (ev_shape _ _ _ Hev d) as Hsh. rewrite Hd in Hsh. simpl in Hsh.
  apply fmap_Some in Hsh as (s & Hs & Hsh). destruct s as [|sg0 cs0|]; simplify_eq/=.
  destruct (shape_signal st' st c sgc) as [sg1 Hsg1]; [by rewrite (ev_shape _ _ _ Hev)|done|].
  rewrite <-(ev_alive _ _ _ Hev) in Ha.
  eapply (ev_deps _ _ _ Hev); [done|done|done|]. by eapply Hc.
Qed.

(** How many flags of the store are not set. *)
Definition unset (st : Store) : nat :=
  length (filter (λ u, flag st u = false) (seq 0 (length (cells st)))).

Lemma filter_length_le {A} (P Q : A → Prop) `{∀ x, Decision (P x), ∀ x, Decision (Q x)} (l : list A) :
  (∀ x, x ∈ l → Q x → P x) → length (filter Q l) ≤ length (filter P l).
Proof.
  induction l as [|x l IH]; intros Himp; [done|].
  assert (length (filter Q l) ≤ length (filter P l)) by (apply IH; set_solver).
  rewrite !filter_cons. repeat case_decide; simpl; try lia.
  exfalso. set_solver.
Qed.

Lemma filter_length_lt {A} (P Q : A → Prop) `{∀ x, Decision (P x), ∀ x, Decision (Q x)} (l : list A) y :
  (∀ x, x ∈ l → Q x → P x) → y ∈ l → P y → ¬ Q y → length (filter Q l) < length (filter P l).
Proof.
  intros Himp Hy HP HQ. induction l as [|x l IH]; [set_solver|].
  assert (Hle : length (filter Q l) ≤ length (filter P l)) by (apply filter_length_le; set_solver).
  rewrite !filter_cons. apply elem_of_cons in Hy as [->|Hy].
  - repeat case_decide; simpl; (lia || done).
  - assert (length (filter Q l) < length (filter P l)) by (apply IH; set_solver).
    repeat case_decide; simpl; try lia. exfalso. set_solver.
Qed.

Lemma unset_le t st st' : evolves t st st' → unset st' ≤ unset st.
Proof.
  intros Hev. unfold unset. rewrite <-(ev_length _ _ _ Hev). apply filter_length_le.
  intros u _ Hu. destruct (flag st u) eqn:E; [|done]. apply (ev_flag _ _ _ Hev) in E. congruence.
Qed.

Lemma lookup_state_lt st t s : lookup_state st t = Some s → t < length (cells st).
Proof. unfold lookup_state. intros (c & Hc & _)%fmap_Some. by eapply lookup_lt_Some. Qed.

Lemma lookup_signal_lt st t sg : lookup_signal st t = Some sg → t < length (cells st).
Proof. unfold lookup_signal. intros (s & Hs & _)%bind_Some. by eapply lookup_state_lt. Qed.

Lemma unset_lt t st st' u :
  evolves t st st' → u < length (cells st) → flag st u = false → flag st' u = true → unset st' < unset st.
Proof.
  intros Hev Hu H1 H2. unfold unset. rewrite <-(ev_length _ _ _ Hev).
  apply (filter_length_lt _ _ _ u); [| |done|congruence].
  - intros v _ Hv. destruct (flag st v) eqn:E; [|done]. apply (ev_flag _ _ _ Hev) in E. congruence.
  - apply elem_of_seq. lia.
Qed.

Lemma unset_bound st : unset st ≤ length (cells st).
Proof. unfold unset. etrans; [apply length_filter|]. by rewrite length_seq. Qed.

(** * Cancelling a signal *)

Lemma any_shape st st' d sg cs :
  shape <$> lookup_state st d = shape <$> lookup_state st' d → lookup_state st' d = Some (Any sg cs) →
  ∃ sg0, lookup_state st d = Some (Any sg0 cs).
Proof.
  intros Hsh Hd. rewrite Hd in Hsh. apply fmap_Some in Hsh as (s & Hs & Hsh).
  destruct s as [|sg0 cs0|]; simplify_eq/=. eauto.
Qed.

(** Setting one flag leaves only that token's dependents to be told. *)
Lemma inv_set_flag E X t st sg deps :
  store_inv E X st → lookup_signal st t = Some sg → cancelled sg = false →
  deps = filter (λ d, alive st d = true) (dependents sg) →
  let st' := wake (waiters sg) (set_signal t (mk_CancellationSignal true [] deps) st) in
  store_inv E (t :: X) st' ∧ evolves t st st' ∧ flag st' t = true ∧ Forall (λ d, t < d) deps.
Proof.
  intros [Hwf Hst Hco Hpr] Hsg Hfl Hdeps st'.
  assert (Hlt : Forall (λ d, t < d) deps).
  { subst deps. apply Forall_forall. intros d [_ Hd]%list_elem_of_filter.
    unfold lookup_signal in Hsg. apply bind_Some in Hsg as (s & Hs & Hsg).
    destruct (Hwf t s Hs) as (_ & Hd' & _). unfold state_deps in Hd'. rewrite Hsg in Hd'.
    by rewrite Forall_forall in Hd'; apply Hd'. }
  assert (Hev : evolves t st st').
  { eapply evolves_trans; [|apply evolves_wake]. eapply evolves_set_signal; [done|done|].
    intros d Ha Hd. simpl. subst deps. by apply list_elem_of_filter. }
  assert (Hf : flag st' t = true).
  { unfold st'. unfold flag, lookup_signal. rewrite lookup_wake.
    fold (lookup_signal (set_signal t (mk_CancellationSignal true [] deps) st) t).
    rewrite signal_set_signal, decide_True, Hsg by done. done. }
  split; [|done]. split.
  - intros u s Hs. pose proof (wf_set_signal t (mk_CancellationSignal true [] deps) st Hwf Hlt) as Hwf'.
    destruct (Hwf' u s Hs) as (? & ? & Hc). split; [done|]. split; [done|].
    eapply Forall_impl; [exact Hc|]. intros c. by apply control_ok_shape.
  - intros u sg' Hu Hc.
    assert (Hu' : lookup_signal (set_signal t (mk_CancellationSignal true [] deps) st) u = Some sg') by done.
    rewrite signal_set_signal in Hu'. case_decide as Eu; [subst u|by eapply Hst].
    rewrite Hsg in Hu'. by simplify_eq/=.
  - by eapply complete_evolves.
  - intros c d sg' cs HE Hc Hd Ha Hin Hfc. apply (ev_flag _ _ _ Hev).
    destruct (any_shape st st' d sg' cs) as [sg0 Hd0]; [apply (ev_shape _ _ _ Hev)|done|].
    apply (Hpr c d sg0 cs); [done|set_solver|done| |done|].
    + by rewrite (ev_alive _ _ _ Hev).
    + rewrite <-Hfc. symmetry.
      change (flag (set_signal t (mk_CancellationSignal true [] deps) st) c = flag st c).
      rewrite flag_set_signal. case_decide; [|done]. set_solver.
Qed.

Section notify.
  Context (now : N) (rec : Store → token → Store) (fuel : nat) (E : token → token → Prop).

  (** What the recursive cancellation promises while [fuel] bounds the unset flags. *)
  Hypothesis Hrec : ∀ st d X, store_inv E X st → unset st < fuel → is_Some (lookup_signal st d) →
    store_inv E X (rec st d) ∧ evolves d st (rec st d) ∧ flag (rec st d) d = true.

Lemma source_changed_spec st d t X :
    store_inv E X st → unset st < fuel → t < d →
    let st' := source_changed_with rec now st d in
    store_inv E X st' ∧ evolves t st st' ∧
    (∀ sg cs, lookup_state st d = Some (Any sg cs) → existsb (is_cancelled st now) cs = true →
       flag st' d = true).
  Proof.
    intros Hinv Hfuel Htd. unfold source_changed_with.
    destruct (lookup_state st d) as [[sg|sg cs|l]|] eqn:Ed;
      try (split; [done|]; split; [apply evolves_refl|]; naive_solver).
    destruct (existsb (is_cancelled st now) cs) eqn:Ex.
    - destruct (Hrec st d X) as (? & ? & ?); [done|done| |].
      + unfold lookup_signal. rewrite Ed. by eexists.
      + split; [done|]. split; [|by intros]. eapply evolves_weaken; [|done]. lia.
    - split; [done|]. split; [apply evolves_refl|]. intros ? ? [= <- <-]. congruence.
  Qed.

Lemma notify_spec deps st t X :
    store_inv E X st → unset st < fuel → Forall (λ d, t < d) deps →
    let st' := notify_dependents rec now deps st in
    store_inv E X st' ∧ evolves t st st' ∧
    (∀ d sg cs, d ∈ deps → alive st d = true → lookup_state st d = Some (Any sg cs) →
       existsb (is_cancelled st now) cs = true → flag st' d = true).
  Proof.
    revert st. induction deps as [|d deps IH]; intros st Hinv Hfuel Hlt; simpl.
    { split; [done|]. split; [apply evolves_refl|]. set_solver. }
    apply Forall_cons in Hlt as [Htd Hlt].
    set (st1 := if alive st d then source_changed_with rec now st d else st).
    assert (H1 : store_inv E X st1 ∧ evolves t st st1 ∧
              (alive st d = true → ∀ sg cs, lookup_state st d = Some (Any sg cs) →
                 existsb (is_cancelled st now) cs = true → flag st1 d = true)).
    { unfold st1. destruct (alive st d).
      - destruct (source_changed_spec st d t X) as (? & ? & ?); eauto.
      - split; [done|]. split; [apply evolves_refl|done]. }
    destruct H1 as (Hinv1 & Hev1 & Hfl1).
    destruct (IH st1) as (Hinv2 & Hev2 & Hfl2);
      [done|by eapply Nat.le_lt_trans; [eapply unset_le|]|done|].
    fold (notify_dependents rec now deps st1).
    split; [done|]. split; [by eapply evolves_trans|].
    intros d' sg cs [->|Hin]%elem_of_cons Ha Hd Hex.
    - apply (ev_flag _ _ _ Hev2). eauto.
    - destruct (any_shape st1 st d' sg cs) as [sg1 Hd1];
        [symmetry; apply (ev_shape _ _ _ Hev1)|done|].
      apply (Hfl2 d' sg1 cs); [done| |done|].
      + by rewrite <-(ev_alive _ _ _ Hev1).
      + apply existsb_exists in Hex as (c & Hc & Hcc). apply existsb_exists. exists c. split; [done|].
        eapply is_cancelled_later; [apply Hinv|apply Hinv1|by eapply evolves_later|reflexivity|done].
  Qed.
End notify.

(** Cancelling a signal sets its flag, reaches every live token built on it,
    strands no waiter and touches no older state. *)
Lemma signal_cancel_fuel_spec E now fuel st t X :
  store_inv E X st → unset st < fuel → is_Some (lookup_signal st t) →
  let st' := signal_cancel_fuel fuel now st t in
  store_inv E X st' ∧ evolves t st st' ∧ flag st' t = true.
Proof.
  revert st t X. induction fuel as [|fuel IH]; intros st t X Hinv Hfuel [sg Hsg]; [lia|]. simpl.
  rewrite Hsg. destruct (cancelled sg) eqn:Efl.
  { split; [done|]. split; [apply evolves_refl|]. unfold flag. by rewrite Hsg. }
  set (deps := filter _ (dependents sg)). set (st1 := wake _ _).
  destruct (inv_set_flag E X t st sg deps) as (Hinv1 & Hev1 & Hfl1 & Hlt); try done.
  fold st1 in Hinv1, Hev1, Hfl1.
  assert (Hun : unset st1 < unset st).
  { eapply unset_lt; [done|by eapply lookup_signal_lt| |done]. unfold flag. by rewrite Hsg. }
  destruct (notify_spec now (signal_cancel_fuel fuel now) fuel E IH deps st1 t (t :: X))
    as (Hinv2 & Hev2 & Hfl2); [done|lia|done|].
  set (st2 := notify_dependents _ now deps st1) in *.
  split; [|split; [by eapply evolves_trans|by apply (ev_flag _ _ _ Hev2)]].
  split; [apply Hinv2..|]. intros c d sgd cs HE Hc Hd Ha Hin Hfc.
  destruct (decide (c = t)) as [->|Hne].
  - assert (Hev : evolves t st st2) by by eapply evolves_trans.
    destruct (any_shape st st2 d sgd cs) as [sg0 Hd0]; [apply (ev_shape _ _ _ Hev)|done|].
    destruct (any_shape st1 st d sg0 cs) as [sg1 Hd1]; [symmetry; apply (ev_shape _ _ _ Hev1)|done|].
    rewrite <-(ev_alive _ _ _ Hev) in Ha.
    apply (Hfl2 d sg1 cs); [| |done|].
    + apply list_elem_of_filter. split; [done|]. by eapply (si_complete _ _ _ Hinv).
    + by rewrite <-(ev_alive _ _ _ Hev1).
    + apply existsb_exists. exists t. split; [by apply list_elem_of_In|].
      by apply flag_is_cancelled; [apply Hinv1|].
  - apply (si_propagated _ _ _ Hinv2 c d sgd cs); [done|set_solver|done..].
Qed.

Lemma signal_cancel_spec E now st t X :
  store_inv E X st → is_Some (lookup_signal st t) →
  let st' := signal_cancel now st t in
  store_inv E X st' ∧ evolves t st st' ∧ flag st' t = true.
Proof. intros. apply signal_cancel_fuel_spec; [done| |done]. pose proof (unset_bound st). lia. Qed.

Lemma source_changed_inv E now st d t X :
  store_inv E X st → t < d →
  let st' := source_changed now st d in
  store_inv E X st' ∧ evolves t st st' ∧
  (∀ sg cs, lookup_state st d = Some (Any sg cs) → existsb (is_cancelled st now) cs = true →
     flag st' d = true).
Proof.
  intros. eapply (source_changed_spec now (signal_cancel now) (S (unset st)) E); [|done|lia|done].
  intros. by apply signal_cancel_spec.
Qed.

(** * Token operations preserve the invariant *)

Definition no_pair : token → token → Prop := λ _ _, False.

Lemma store_refs_lt E X st t l c :
  store_inv E X st → lookup_state st t = Some (Composite l) → c ∈ l → ec_cancellation c < t.
Proof.
  intros [Hwf _ _ _] Ht Hc. apply (refs_lt st t (Composite l)); [done|by rewrite Ht|].
  eapply composite_token_ref; [done|apply control_token_in].
Qed.

(** A control whose token is cancelled is inactive. *)
Lemma cancelled_inactive st now c :
  store_wf st → control_ok st c → is_cancelled st now (ec_cancellation c) = true →
  is_ok (ensure_active st now c) = false.
Proof.
  intros Hwf. destruct c as [t d [l|]]; simpl; [|unfold ensure_active; simpl; by intros _ ->].
  intros [Ht _] Hc. rewrite is_cancelled_eq, Ht in Hc by done. simpl in Hc.
  rewrite forallb_forall in Hc. unfold ensure_active; simpl.
  destruct (existsb (λ c, is_ok (ensure_active_with (is_cancelled st now) now c)) l) eqn:Ex.
  - apply existsb_exists in Ex as (c & Hin & Hok). specialize (Hc c Hin).
    unfold ensure_active in Hc. by rewrite Hok in Hc.
  - by case_match.
Qed.

Lemma state_exists st u : u < length (cells st) → is_Some (lookup_state st u).
Proof. intros Hu. unfold lookup_state. apply lookup_lt_is_Some in Hu as [c ->]. by eexists. Qed.

Lemma evolves_exists t st st' u : evolves t st st' → is_Some (lookup_state st u) → is_Some (lookup_state st' u).
Proof.
  intros Hev [s Hs]. apply state_exists. rewrite <-(ev_length _ _ _ Hev). by eapply lookup_state_lt.
Qed.

(** A fold of steps that each keep the invariant and make a fact about their
    element true for good makes it true of every element. *)
Lemma foldl_inv {A} (f : Store → A → Store) (I : Store → Prop) (Q : A → Store → Prop) (l : list A) st :
  I st → (∀ st a, I st → a ∈ l → I (f st a) ∧ evolves 0 st (f st a) ∧ Q a (f st a)) →
  (∀ a st st', I st → I st' → evolves 0 st st' → Q a st → Q a st') →
  I (foldl f st l) ∧ evolves 0 st (foldl f st l) ∧ ∀ a, a ∈ l → Q a (foldl f st l).
Proof.
  revert st. induction l as [|a l IH]; intros st HI Hstep HQ; simpl.
  { split; [done|]. split; [apply evolves_refl|]. set_solver. }
  destruct (Hstep st a) as (HI1 & Hev1 & HQ1); [done|set_solver|].
  destruct (IH (f st a)) as (HI2 & Hev2 & HQ2); [done| |done|].
  { intros st1 b HIb Hb. apply Hstep; [done|set_solver]. }
  split; [done|]. split; [by eapply evolves_trans|].
  intros b [->|Hb]%elem_of_cons; [|auto]. by apply (HQ a (f st a)).
Qed.

Lemma on_signals_cancel E X now fuel t st :
  t < fuel → store_inv E X st →
  let st' := on_signals (signal_cancel now) fuel st t in
  store_inv E X st' ∧ evolves 0 st st' ∧ (is_Some (lookup_state st t) → is_cancelled st' now t = true).
Proof.
  revert t st. induction fuel as [|fuel IH]; intros t st Ht Hinv; [lia|]. simpl.
  destruct (lookup_state st t) as [s|] eqn:Es.
  2:{ split; [done|]. split; [apply evolves_refl|]. by intros []. }
  assert (Hsig : is_Some (state_signal s) →
            let st' := signal_cancel now st t in
            store_inv E X st' ∧ evolves 0 st st' ∧ (is_Some (Some s) → is_cancelled st' now t = true)).
  { intros Hs. destruct (signal_cancel_spec E now st t X) as (? & ? & ?);
      [done|unfold lookup_signal; by rewrite Es|].
    split; [done|]. split; [eapply evolves_weaken; [|done]; lia|]. intros _.
    by apply flag_is_cancelled; [eapply si_wf|]. }
  destruct s as [sg|sg cs|l]; [apply Hsig; by eexists..|]. clear Hsig.
  destruct (foldl_inv (λ st c, on_signals (signal_cancel now) fuel st (ec_cancellation c))
    (λ st, store_inv E X st ∧ lookup_state st t = Some (Composite l))
    (λ c st, is_cancelled st now (ec_cancellation c) = true) l st) as ((Hinv' & Ht') & Hev & Hall).
  - done.
  - intros st1 c [Hinv1 Ht1] Hc. pose proof (store_refs_lt _ _ _ _ _ _ Hinv1 Ht1 Hc) as Hlt.
    destruct (IH (ec_cancellation c) st1) as (? & Hev1 & Hc1); [lia|done|].
    split; [|split; [done|]].
    + split; [done|]. pose proof (ev_shape _ _ _ Hev1 t) as Hsh. rewrite Ht1 in Hsh.
      symmetry in Hsh. apply fmap_Some in Hsh as (s & -> & Hs). by rewrite (shape_composite s l).
    + apply Hc1, state_exists. apply lookup_state_lt in Ht1. lia.
  - intros c st1 st2 [H1 _] [H2 _] Hev1. apply is_cancelled_later; [apply H1|apply H2| |reflexivity].
    by eapply evolves_later.
  - split; [done|]. split; [done|]. intros _. rewrite is_cancelled_eq by apply Hinv'. rewrite Ht'. simpl.
    apply forallb_forall. intros c Hc%list_elem_of_In. rewrite negb_true_iff.
    apply cancelled_inactive; [apply Hinv'| |auto].
    destruct (si_wf _ _ _ Hinv' t _ Ht') as (_ & _ & Hok). rewrite Forall_forall in Hok. by apply Hok.
Qed.

Lemma inv_weaken (E E' : token → token → Prop) X st :
  (∀ c d, E c d → E' c d) → store_inv E X st → store_inv E' X st.
Proof.
  intros Himp [Hwf Hst Hco Hpr]. split; [done|done| |].
  - intros c d sg cs sgc HE. apply Hco. eauto.
  - intros c d sg cs HE. apply Hpr. eauto.
Qed.

(** Replacing a signal without changing its flag keeps the invariant. *)
Lemma inv_set_signal E t st sg sg' :
  store_inv E [] st → lookup_signal st t = Some sg → cancelled sg' = cancelled sg →
  (cancelled sg = true → waiters sg' = []) → Forall (λ d, t < d) (dependents sg') →
  (∀ d, alive st d = true → d ∈ dependents sg → d ∈ dependents sg') →
  store_inv E [] (set_signal t sg' st) ∧ evolves t st (set_signal t sg' st).
Proof.
  intros [Hwf Hst Hco Hpr] Hsg Hfl Hw Hlt Hdeps.
  assert (Hev : evolves t st (set_signal t sg' st))
    by (eapply evolves_set_signal; [done|by rewrite Hfl|done]).
  assert (Hflag : ∀ u, flag (set_signal t sg' st) u = flag st u).
  { intros u. rewrite flag_set_signal. case_decide as Eu; [subst u|done].
    unfold flag. rewrite Hsg. done. }
  split; [|done]. split.
  - by apply wf_set_signal.
  - intros u sg1. rewrite signal_set_signal. case_decide as Eu; [subst u|by apply Hst].
    rewrite Hsg. intros [= <-]. rewrite Hfl. auto.
  - by eapply complete_evolves.
  - intros c d sg1 cs HE Hc Hd Ha Hin. rewrite !Hflag.
    destruct (any_shape st (set_signal t sg' st) d sg1 cs) as [sg0 Hd0]; [apply (ev_shape _ _ _ Hev)|done|].
    rewrite alive_set_signal in Ha. by eapply Hpr.
Qed.

Lemma deps_lt E X st t sg d :
  store_inv E X st → lookup_signal st t = Some sg → d ∈ dependents sg → t < d.
Proof.
  intros [Hwf _ _ _] Hsg Hd. unfold lookup_signal in Hsg. apply bind_Some in Hsg as (s & Hs & Hsg).
  destruct (Hwf t s Hs) as (_ & Hlt & _). unfold state_deps in Hlt. rewrite Hsg, Forall_forall in Hlt. auto.
Qed.

Lemma wf_same_states st st' :
  (∀ u, lookup_state st' u = lookup_state st u) → store_wf st → store_wf st'.
Proof.
  intros Heq Hwf u s Hs. rewrite Heq in Hs. destruct (Hwf u s Hs) as (? & ? & Hc).
  split; [done|]. split; [done|]. eapply Forall_impl; [exact Hc|].
  intros c. apply control_ok_shape. intros v. by rewrite Heq.
Qed.

Lemma inv_wake E X ws st : store_inv E X st → store_inv E X (wake ws st).
Proof. intros [Hwf ? ? ?]. split; [|done..]. by apply (wf_same_states st). Qed.

Lemma signal_register_waiter_inv E w st t :
  store_inv E [] st → store_inv E [] (signal_register_waiter w st t) ∧ evolves t st (signal_register_waiter w st t).
Proof.
  intros Hinv. unfold signal_register_waiter. destruct (lookup_signal st t) as [sg|] eqn:Esg.
  2:{ split; [done|apply evolves_refl]. }
  destruct (cancelled sg) eqn:Ef.
  { split; [by apply inv_wake|apply evolves_wake]. }
  case_bool_decide; [split; [done|apply evolves_refl]|].
  apply (inv_set_signal E t st sg); [done|done|done|by rewrite Ef| |done].
  apply Forall_forall. intros d. simpl. by apply (deps_lt E [] st).
Qed.

(** Registering a dependent settles the pair it is about. *)
Lemma signal_register_dependent_inv E now dep st t :
  store_inv E [] st → t < dep →
  let st' := signal_register_dependent now dep st t in
  store_inv (λ c d, E c d ∧ ¬ (c = t ∧ d = dep)) [] st' ∧ evolves 0 st st'.
Proof.
  intros Hinv Hlt. unfold signal_register_dependent.
  destruct (lookup_signal st t) as [sg|] eqn:Esg.
  2:{ split; [|apply evolves_refl]. destruct Hinv as [Hwf Hst Hco Hpr]. split; [done|done| |].
      - intros c d sg cs sgc HE Hd Ha Hin Hc. apply (Hco c d sg cs sgc); try done.
        intros HE'. apply HE. split; [done|]. intros [-> ->]. congruence.
      - intros c d sg cs HE _ Hd Ha Hin Hf. apply (Hpr c d sg cs); [|set_solver|done..].
        intros HE'. apply HE. split; [done|]. intros [-> ->]. unfold flag in Hf. by rewrite Esg in Hf. }
  set (kept := filter _ (dependents sg)). set (deps := if bool_decide (dep ∈ kept) then _ else _).
  assert (Hdep : dep ∈ deps) by (unfold deps; case_bool_decide; set_solver).
  assert (Hk : ∀ d, d ∈ kept → d ∈ deps) by (unfold deps; case_bool_decide; set_solver).
  set (sg' := mk_CancellationSignal (cancelled sg) (waiters sg) deps).
  destruct (inv_set_signal E t st sg sg') as [Hinv1 Hev1]; [done|done|done| | | |].
  { intros Hf. by apply (si_stranded _ _ _ Hinv t sg). }
  { apply Forall_forall. intros d Hd. simpl in Hd. unfold deps in Hd.
    assert (d ∈ kept ∨ d = dep) as [Hd'| ->] by (case_bool_decide; set_solver); [|done].
    apply list_elem_of_filter in Hd' as [_ Hd']. by eapply deps_lt. }
  { intros d Ha Hd. apply Hk, list_elem_of_filter. done. }
  set (st1 := set_signal t sg' st) in *.
  set (st2 := if cancelled sg && alive st1 dep then source_changed now st1 dep else st1).
  assert (H2 : store_inv E [] st2 ∧ evolves t st1 st2 ∧
     (cancelled sg = true → alive st1 dep = true → ∀ sg0 cs, lookup_state st1 dep = Some (Any sg0 cs) →
        existsb (is_cancelled st1 now) cs = true → flag st2 dep = true)).
  { unfold st2. destruct (cancelled sg), (alive st1 dep); simpl;
      try (split; [done|]; split; [apply evolves_refl|done]).
    destruct (source_changed_inv E now st1 dep t []) as (? & ? & ?); [done|done|].
    split; [done|]. split; [done|]. eauto. }
  destruct H2 as (Hinv2 & Hev2 & Hfl2).
  assert (Hsg1 : lookup_signal st1 t = Some sg').
  { unfold st1. rewrite signal_set_signal, decide_True, Esg by done. done. }
  split; [|eapply evolves_weaken; [|by eapply evolves_trans]; lia].
  split; [apply Hinv2..| |].
  - intros c d sg0 cs sgc HE Hd Ha Hin Hc. destruct (decide (c = t ∧ d = dep)) as [[-> ->]|Hne].
    + eapply (ev_deps _ _ _ Hev2); [exact Hsg1|done| |done]. by rewrite (ev_alive _ _ _ Hev2).
    + apply (si_complete _ _ _ Hinv2 c d sg0 cs sgc); try done. intros HE'. by apply HE.
  - intros c d sg0 cs HE _ Hd Ha Hin Hf. destruct (decide (c = t ∧ d = dep)) as [[-> ->]|Hne].
    + rewrite <-(ev_alive _ _ _ Hev2) in Ha.
      destruct (any_shape st1 st2 dep sg0 cs) as [sg1 Hd1]; [apply (ev_shape _ _ _ Hev2)|done|].
      destruct (cancelled sg) eqn:Ec.
      * apply (Hfl2 eq_refl Ha sg1 cs Hd1). apply existsb_exists. exists t.
        split; [by apply list_elem_of_In|]. apply flag_is_cancelled; [apply Hinv1|].
        unfold flag. by rewrite Hsg1.
      * exfalso. unfold st2 in Hf. simpl in Hf. unfold flag in Hf. by rewrite Hsg1 in Hf.
    + apply (si_propagated _ _ _ Hinv2 c d sg0 cs); [|set_solver|done..]. intros HE'. by apply HE.
Qed.

Lemma inv_no_signal E t dep st :
  lookup_signal st t = None → store_inv E [] st →
  store_inv (λ c d, E c d ∧ ¬ (c = t ∧ d = dep)) [] st.
Proof.
  intros Esg [Hwf Hst Hco Hpr]. split; [done|done| |].
  - intros c d sg cs sgc HE Hd Ha Hin Hc. apply (Hco c d sg cs sgc); try done.
    intros HE'. apply HE. split; [done|]. intros [-> ->]. congruence.
  - intros c d sg cs HE _ Hd Ha Hin Hf. apply (Hpr c d sg cs); [|set_solver|done..].
    intros HE'. apply HE. split; [done|]. intros [-> ->]. unfold flag in Hf. by rewrite Esg in Hf.
Qed.

Section on_signals.
  Context (f : Store → token → Store) (P : token → Prop) (E : token → token → Prop).
  Hypothesis Pdown : ∀ t u, P t → u < t → P u.
  Hypothesis Hf : ∀ st t, P t → store_inv E [] st → store_inv E [] (f st t) ∧ evolves 0 st (f st t).

  (** Descending into composites keeps what the action keeps. *)
Lemma on_signals_inv fuel t st :
    P t → store_inv E [] st →
    store_inv E [] (on_signals f fuel st t) ∧ evolves 0 st (on_signals f fuel st t).
  Proof using Pdown Hf.
    revert t st. induction fuel as [|fuel IH]; intros t st HP Hinv; simpl.
    { split; [done|apply evolves_refl]. }
    destruct (lookup_state st t) as [[sg|sg cs|l]|] eqn:Es; [by apply Hf|by apply Hf| |].
    2:{ split; [done|apply evolves_refl]. }
    destruct (foldl_inv (λ st c, on_signals f fuel st (ec_cancellation c))
      (λ st, store_inv E [] st ∧ lookup_state st t = Some (Composite l)) (λ _ _, True) l st)
      as ([? _] & ? & _); [done| |done|done].
    intros st1 c [Hinv1 Ht1] Hc. destruct (IH (ec_cancellation c) st1) as [? Hev1].
    { eapply Pdown; [done|]. by eapply store_refs_lt. }
    { done. }
    split; [|done]. split; [done|]. pose proof (ev_shape _ _ _ Hev1 t) as Hsh. rewrite Ht1 in Hsh.
    symmetry in Hsh. apply fmap_Some in Hsh as (s & -> & Hs). by rewrite (shape_composite s l).
  Qed.
End on_signals.

Lemma register_waiter_inv E w st t :
  store_inv E [] st → store_inv E [] (register_waiter w st t) ∧ evolves 0 st (register_waiter w st t).
Proof.
  intros Hinv. apply (on_signals_inv _ (λ _, True) E); [done| |done|done].
  intros st1 u _ H1. destruct (signal_register_waiter_inv E w st1 u H1) as [? Hev].
  split; [done|]. eapply evolves_weaken; [|done]. lia.
Qed.

Lemma register_dependent_inv E now dep st t :
  store_inv E [] st → t < dep →
  let st' := register_dependent now dep st t in
  store_inv (λ c d, E c d ∧ ¬ (c = t ∧ d = dep)) [] st' ∧ evolves 0 st st'.
Proof.
  intros Hinv Hlt. unfold register_dependent.
  assert (Hgen : store_inv E [] (on_signals (signal_register_dependent now dep) (S t) st t) ∧
            evolves 0 st (on_signals (signal_register_dependent now dep) (S t) st t)).
  { apply (on_signals_inv _ (λ u, u < dep) E); [intros; lia| |done|done].
    intros st1 u Hu H1. destruct (signal_register_dependent_inv E now dep st1 u H1 Hu) as [H2 ?].
    split; [|done]. eapply inv_weaken; [|exact H2]. by intros c d [? _]. }
  destruct (lookup_state st t) as [[sg|sg cs|l]|] eqn:Es; simpl in *; rewrite Es in *.
  1-2: by apply signal_register_dependent_inv.
  - destruct Hgen as [Hinv' Hev]. split; [|done]. apply inv_no_signal; [|done].
    pose proof (ev_shape _ _ _ Hev t) as Hsh. rewrite Es in Hsh. symmetry in Hsh.
    apply fmap_Some in Hsh as (s & Hs & Hsh). unfold lookup_signal. rewrite Hs.
    by rewrite (shape_composite s l).
  - split; [|apply evolves_refl]. apply inv_no_signal; [|done]. unfold lookup_signal. by rewrite Es.
Qed.

(** * Allocation *)

Lemma lookup_alloc s st u :
  lookup_state (alloc s st).2 u =
  if decide (u = length (cells st)) then Some s else lookup_state st u.
Proof.
  unfold lookup_state, alloc; simpl. case_decide as E.
  - subst u. rewrite lookup_app_r, Nat.sub_diag by done. done.
  - destruct (decide (u < length (cells st))).
    + by rewrite lookup_app_l.
    + rewrite (lookup_ge_None_2 (cells st ++ _)), lookup_ge_None_2; [done|lia|].
      rewrite length_app; simpl; lia.
Qed.

Lemma alive_alloc s st u :
  alive (alloc s st).2 u = if decide (u = length (cells st)) then true else alive st u.
Proof.
  unfold alive, alloc; simpl. case_decide as E.
  - subst u. by rewrite lookup_app_r, Nat.sub_diag.
  - destruct (decide (u < length (cells st))).
    + by rewrite lookup_app_l.
    + rewrite (lookup_ge_None_2 (cells st ++ _)), lookup_ge_None_2; [done|lia|].
      rewrite length_app; simpl; lia.
Qed.

Lemma later_alloc s st : later st (alloc s st).2.
Proof.
  intros u s' Hu. pose proof (lookup_state_lt _ _ _ Hu). unfold flag, lookup_signal.
  rewrite lookup_alloc, decide_False, Hu by lia. done.
Qed.

Definition control_built (st : Store) (c : ExecutionControl) : Prop :=
  control_ok st c ∧ Forall (λ u, u < length (cells st)) (control_tokens c).

Lemma control_ok_alloc s st c : control_ok st c → control_ok (alloc s st).2 c.
Proof.
  pose proof (lookup_alloc s st) as Hla. revert Hla. generalize (alloc s st).2 as st'. intros st' Hla.
  induction c as [t d|t d l IH] using ExecutionControl_rect'; simpl; [done|]. intros [Ht Hl]. split.
  - rewrite Hla, decide_False; [done|]. apply lookup_state_lt in Ht. lia.
  - clear Ht. induction IH as [|c l Hc _ IH]; simpl in *; [done|]. destruct Hl. auto.
Qed.

(** A new state that refers to existing ones: only its own registrations are open. *)
Lemma alloc_inv s st :
  store_inv no_pair [] st → (state_signal s = Some CancellationSignal_default ∨ state_signal s = None) →
  Forall (λ u, u < length (cells st)) (state_refs s) → Forall (control_ok st) (state_controls s) →
  store_inv (λ c d, d = length (cells st) ∧ c ∈ state_refs s) [] (alloc s st).2.
Proof.
  intros [Hwf Hst Hco Hpr] Hsig Hrefs Hok.
  assert (Hfl : ∀ u, flag (alloc s st).2 u = if decide (u = length (cells st)) then false else flag st u).
  { intros u. unfold flag, lookup_signal. rewrite lookup_alloc. case_decide; [|done].
    simpl. by destruct Hsig as [-> | ->]. }
  split.
  - intros u s'. rewrite lookup_alloc. case_decide as E.
    + subst u. intros [= <-]. split; [done|]. split.
      * unfold state_deps. by destruct Hsig as [-> | ->].
      * eapply Forall_impl; [exact Hok|]. intros c. apply control_ok_alloc.
    + intros Hs. destruct (Hwf u s' Hs) as (? & ? & Hc). split; [done|]. split; [done|].
      eapply Forall_impl; [exact Hc|]. intros c. apply control_ok_alloc.
  - intros u sg Hu. unfold lookup_signal in Hu. rewrite lookup_alloc in Hu. case_decide.
    + simpl in Hu. destruct Hsig as [Hs|Hs]; rewrite Hs in Hu; by simplify_eq.
    + by eapply Hst.
  - intros c d sg cs sgc HE Hd Ha Hin Hc. rewrite lookup_alloc in Hd. rewrite alive_alloc in Ha.
    case_decide; [exfalso; apply HE; split; [done|]; by simplify_eq/=|].
    unfold lookup_signal in Hc. rewrite lookup_alloc in Hc. case_decide.
    + exfalso. pose proof (lookup_state_lt _ _ _ Hd). destruct (Hwf d _ Hd) as (Hr & _ & _).
      rewrite Forall_forall in Hr. specialize (Hr c Hin). lia.
    + eapply Hco; [by intros []|done..].
  - intros c d sg cs HE _ Hd Ha Hin. rewrite !Hfl. rewrite lookup_alloc in Hd. rewrite alive_alloc in Ha.
    case_decide; [exfalso; apply HE; split; [done|]; by simplify_eq/=|].
    case_decide; [done|]. apply (Hpr c d sg cs); [by intros []|set_solver|done..].
Qed.

Lemma any_registers now t cs (E : token → token → Prop) st :
  store_inv E [] st → Forall (λ u, u < t) cs →
  let st' := foldl (register_dependent now t) st cs in
  store_inv (λ c d, E c d ∧ ¬ (d = t ∧ c ∈ cs)) [] st' ∧ evolves 0 st st'.
Proof.
  revert E st. induction cs as [|c cs IH]; intros E st Hinv Hlt; simpl.
  { split; [|apply evolves_refl]. eapply inv_weaken; [|exact Hinv]. set_solver. }
  apply Forall_cons in Hlt as [Hc Hlt].
  destruct (register_dependent_inv E now t st c Hinv Hc) as [Hinv1 Hev1].
  destruct (IH _ _ Hinv1 Hlt) as [Hinv2 Hev2].
  split; [|by eapply evolves_trans]. eapply inv_weaken; [|exact Hinv2].
  simpl. intros c' d' [[HE Hn] Hn']. split; [done|]. intros [-> [->|]%elem_of_cons]; auto.
Qed.

Lemma any_inv now cs st :
  store_inv no_pair [] st → Forall (λ u, u < length (cells st)) cs →
  store_inv no_pair [] (any now cs st).2 ∧ later st (any now cs st).2.
Proof.
  intros Hinv Hlt. set (t := length (cells st)).
  pose proof (alloc_inv (Any CancellationSignal_default cs) st Hinv (or_introl eq_refl) Hlt
                (Forall_nil_2 _)) as Hinv1.
  set (st1 := (alloc (Any CancellationSignal_default cs) st).2) in *.
  change (any now cs st).2 with (source_changed now (foldl (register_dependent now t) st1 cs) t).
  destruct (any_registers now t cs _ st1 Hinv1 Hlt) as [Hinv2 Hev2].
  set (st2 := foldl _ st1 cs) in *.
  assert (Hinv2' : store_inv no_pair [] st2).
  { eapply inv_weaken; [|exact Hinv2]. simpl. intros c d [[-> Hin] Hn]. exfalso. by apply Hn. }
  assert (Hl2 : later st st2).
  { etrans; [apply (later_alloc (Any CancellationSignal_default cs))|]. by eapply evolves_later. }
  unfold source_changed, source_changed_with. fold t.
  destruct (lookup_state st2 t) as [[|sg cs'|]|] eqn:Et; try by split.
  case_match; [|by split]. destruct (signal_cancel_spec no_pair now st2 t []) as (? & ? & _);
    [done|unfold lookup_signal; rewrite Et; by eexists|].
  split; [done|]. etrans; [done|]. by eapply evolves_later.
Qed.

(** * Reachable stores *)

Lemma drop_inv t st : store_inv no_pair [] st → store_inv no_pair [] (drop_token t st) ∧ later st (drop_token t st).
Proof.
  intros [Hwf Hst Hco Hpr].
  assert (Hls : ∀ u, lookup_state (drop_token t st) u = lookup_state st u).
  { intros u. unfold lookup_state, drop_token; simpl. destruct (decide (t = u)) as [->|].
    - rewrite list_lookup_alter_eq. by destruct (cells st !! u).
    - by rewrite list_lookup_alter_ne. }
  assert (Hal : ∀ u, alive (drop_token t st) u = true → alive st u = true).
  { intros u. unfold alive, drop_token; simpl. destruct (decide (t = u)) as [->|].
    - rewrite list_lookup_alter_eq. by destruct (cells st !! u).
    - by rewrite list_lookup_alter_ne. }
  split.
  - split; [by eapply wf_same_states| | |].
    + intros u sg. unfold lookup_signal. rewrite Hls. apply Hst.
    + intros c d sg cs sgc HE. rewrite Hls. unfold lookup_signal. rewrite Hls. intros Hd Ha%Hal. eauto.
    + intros c d sg cs HE Hc. unfold flag, lookup_signal. rewrite !Hls. intros Hd Ha%Hal. by eapply Hpr.
  - intros u s Hs. unfold flag, lookup_signal. by rewrite !Hls, Hs.
Qed.

Lemma inv_all_settled E st : (∀ c d, ¬ E c d) → store_inv E [] st → store_inv no_pair [] st.
Proof. intros HE. apply inv_weaken. intros c d H. by apply HE in H. Qed.

Lemma alloc_closed s st :
  store_inv no_pair [] st → state_signal s = Some CancellationSignal_default ∧ state_refs s = [] ∨ state_signal s = None →
  Forall (λ u, u < length (cells st)) (state_refs s) → Forall (control_ok st) (state_controls s) →
  store_inv no_pair [] (alloc s st).2.
Proof.
  intros Hinv Hs Hr Hc. pose proof (alloc_inv s st Hinv) as H.
  destruct Hs as [[Hs Hnil]|Hs].
  - eapply inv_all_settled; [|apply H; auto]. rewrite Hnil. set_solver.
  - destruct (H (or_intror Hs) Hr Hc) as [? ? Hco Hpr]. split; [done|done| |].
    + intros c d sg cs sgc _ Hd. eapply (Hco _ _ _ _ _); [|done]. intros [-> _].
      rewrite lookup_alloc, decide_True in Hd by done. destruct s; simplify_eq/=.
    + intros c d sg cs _ HX Hd. apply (Hpr _ _ sg cs); [|done|done]. intros [-> _].
      rewrite lookup_alloc, decide_True in Hd by done. destruct s; simplify_eq/=.
Qed.

(** One operation of the program on the store. *)
Inductive store_step (st : Store) : Store → Prop :=
| step_default : store_step st (token_default st).2
| step_any now cs : Forall (λ u, u < length (cells st)) cs → store_step st (any now cs st).2
| step_composite l : Forall (control_built st) l → store_step st (composite l st).2
| step_cancel now t : store_step st (cancel now st t)
| step_register_waiter w t : store_step st (register_waiter w st t)
| step_drop t : store_step st (drop_token t st).

Definition empty_store : Store := mk_Store [] [].
Definition reachable (st : Store) : Prop := rtc store_step empty_store st.

Lemma composite_eq l st :
  composite l st = (mk_ExecutionControl (length (cells st)) None (Some l), (alloc (Composite l) st).2).
Proof. done. Qed.

Lemma composite_inv l st :
  store_inv no_pair [] st → Forall (control_built st) l →
  store_inv no_pair [] (composite l st).2 ∧ later st (composite l st).2.
Proof.
  intros Hinv Hl. rewrite composite_eq. split; [|apply later_alloc].
  apply alloc_closed; [done|by right| |].
  - apply Forall_forall. simpl. intros u (c & Hc & Hu)%elem_of_flat_map.
    rewrite Forall_forall in Hl. destruct (Hl c Hc) as [_ Ht]. rewrite Forall_forall in Ht. auto.
  - eapply Forall_impl; [exact Hl|]. by intros c [? _].
Qed.

Lemma step_inv st st' :
  store_inv no_pair [] st → store_step st st' → store_inv no_pair [] st' ∧ later st st'.
Proof.
  intros Hinv [|now cs Hcs|l Hl|now t|w t|t].
  - split; [|apply later_alloc]. apply alloc_closed; [done|by left|constructor..].
  - by apply any_inv.
  - by apply composite_inv.
  - destruct (on_signals_cancel no_pair [] now (S t) t st) as (? & ? & _); [lia|done|].
    split; [done|]. by eapply evolves_later.
  - destruct (register_waiter_inv no_pair w st t Hinv). split; [done|]. by eapply evolves_later.
  - by apply drop_inv.
Qed.

Lemma steps_inv st st' :
  store_inv no_pair [] st → rtc store_step st st' → store_inv no_pair [] st' ∧ later st st'.
Proof.
  intros Hinv H. induction H as [|st1 st2 st3 H12 _ IH]; [by split|].
  destruct (step_inv _ _ Hinv H12) as [Hinv2 Hl12]. destruct (IH Hinv2) as [? ?].
  split; [done|]. by etrans.
Qed.

Lemma reachable_inv st : reachable st → store_inv no_pair [] st.
Proof. intros H. apply (steps_inv empty_store st); [|done]. by split. Qed.

(** * Theorems *)

(** Cancellation is total and permanent: cancelling any existing token, plain,
    [any] or composite, makes it cancelled, and no later operation on the store
    and no passage of time makes it active again. *)
Theorem cancel_permanent st now t st' now' :
  reachable st → t < length (cells st) → rtc store_step (cancel now st t) st' → (now <= now')%N →
  is_cancelled st' now' t = true.
Proof.
  intros Hr Ht Hsteps Hnow. pose proof (reachable_inv st Hr) as Hinv.
  destruct (on_signals_cancel no_pair [] now (S t) t st) as (Hinv1 & _ & Hc); [lia|done|].
  destruct (steps_inv _ _ Hinv1 Hsteps) as [Hinv2 Hl].
  eapply is_cancelled_later; [apply Hinv1|apply Hinv2|done|done|]. by apply Hc, state_exists.
Qed.

(** Two plain tokens (0, 1) and an [any] token (2) over both. *)
Definition sample_store : Store := (any 0 [0; 1] (token_default (token_default empty_store).2).2).2.

Lemma sample_reachable : reachable sample_store.
Proof.
  eapply rtc_l; [apply step_default|]. eapply rtc_l; [apply step_default|].
  eapply rtc_l; [apply (step_any _ 0 [0; 1])|done]. vm_compute. repeat constructor.
Qed.

Lemma cancel_permanent_witness :
  is_cancelled (token_default (cancel 5 sample_store 2)).2 9 2 = true.
Proof.
  apply (cancel_permanent sample_store 5 2); [apply sample_reachable|vm_compute; lia| |lia].
  apply rtc_once, step_default.
Defined.

(** Cancelling an [any] (or plain) token never reaches the tokens it was
    built from: every older token answers exactly as before. *)
Theorem cancel_isolated st now t sg u now' :
  reachable st → lookup_signal st t = Some sg → u < t →
  is_cancelled (cancel now st t) now' u = is_cancelled st now' u.
Proof.
  intros Hr Hsg Hu. pose proof (reachable_inv st Hr) as Hinv.
  assert (Hc : cancel now st t = signal_cancel now st t).
  { unfold cancel. simpl. unfold lookup_signal in Hsg.
    by destruct (lookup_state st t) as [[]|]. }
  destruct (signal_cancel_spec no_pair now st t []) as (_ & Hev & _); [done|by eexists|].
  rewrite Hc. symmetry. apply is_cancelled_fuel_agree; [apply Hinv| |lia|lia].
  intros v Hv. unfold flag, lookup_signal. rewrite (ev_low _ _ _ Hev) by lia. done.
Qed.

Lemma cancel_isolated_witness :
  is_cancelled (cancel 5 sample_store 2) 7 0 = false ∧ is_cancelled (cancel 5 sample_store 2) 7 2 = true.
Proof.
  split; [|reflexivity].
  rewrite (cancel_isolated sample_store 5 2 (mk_CancellationSignal false [] [])
             0 7 sample_reachable); [reflexivity|reflexivity|lia].
Defined.



(** The control of a native batch is active exactly while some member is:
    cancelling or expiring one member never stops work a surviving member needs,
    when none survives the failure is [Cancelled] as soon as one member was
    cancelled and [DeadlineExceeded] otherwise, and the batch token agrees with
    the check. *)
Theorem composite_control st l now :
  reachable st → Forall (control_built st) l →
  let c := (composite l st).1 in let st' := (composite l st).2 in
  (is_ok (ensure_active st' now c) = true ↔ ∃ m, m ∈ l ∧ is_ok (ensure_active st' now m) = true) ∧
  (ensure_active st' now c = Ok tt ∨
   ensure_active st' now c =
     Err (public (if existsb (λ m, is_cancelled st' now (ec_cancellation m)) l
                  then Cancelled else DeadlineExceeded))) ∧
  is_cancelled st' now (ec_cancellation c) = negb (is_ok (ensure_active st' now c)).
Proof.
  intros Hr Hl c st'. pose proof (composite_inv l st (reachable_inv st Hr) Hl) as [Hinv _].
  fold st' in Hinv.
  assert (Hc : lookup_state st' (ec_cancellation c) = Some (Composite l)).
  { unfold c, st'. rewrite composite_eq. simpl (ec_cancellation _).
    change (lookup_state (alloc (Composite l) st).2 (length (cells st)) = Some (Composite l)).
    by rewrite lookup_alloc, decide_True. }
  assert (Hea : ensure_active st' now c =
     if existsb (λ m, is_ok (ensure_active st' now m)) l then Ok tt
     else if existsb (λ m, is_cancelled st' now (ec_cancellation m)) l
          then Err (public Cancelled) else Err (public DeadlineExceeded)) by done.
  rewrite is_cancelled_eq by apply Hinv. rewrite Hc, Hea. simpl.
  destruct (existsb (λ m, is_ok (ensure_active st' now m)) l) eqn:Ex.
  - split; [|split; [by left|]].
    + split; [|done]. intros _. apply existsb_exists in Ex as (m & Hm & ?).
      exists m. split; [by apply list_elem_of_In|done].
    + apply existsb_exists in Ex as (m & Hm & Hok). apply not_true_is_false.
      rewrite forallb_forall. intros Hall. specialize (Hall m Hm). simpl in Hall. by rewrite Hok in Hall.
  - assert (Hno : ∀ m, m ∈ l → is_ok (ensure_active st' now m) = false).
    { intros m Hm. apply not_true_is_false. intros Hok. apply not_true_iff_false in Ex. apply Ex.
      apply existsb_exists. exists m. split; [by apply list_elem_of_In|done]. }
    split; [|split; [right; by case_match|]].
    + split; [by case_match|]. intros (m & Hm & Hok). rewrite Hno in Hok; done.
    + replace (is_ok _) with false by by case_match. simpl.
      apply forallb_forall. intros m Hm. by rewrite Hno by by apply list_elem_of_In.
Qed.

Lemma composite_control_witness :
  let ms := [ExecutionControl_new 0 None; ExecutionControl_new 1 (Some 10%N)] in
  is_cancelled (composite ms sample_store).2 20 3 = false.
Proof.
  intros ms.
  destruct (composite_control sample_store ms 20 sample_reachable) as (_ & _ & H).
  - repeat constructor; vm_compute; lia.
  - exact H.
Defined.

Lemma is_ok_tt {E} (r : result E unit) : is_ok r = true ↔ r = Ok tt.
Proof. destruct r as [[]|]; naive_solver. Qed.

(** A control that is active was active at every earlier moment. *)
Lemma ensure_active_earlier st st' now now' c :
  store_inv no_pair [] st → rtc store_step st st' → (now <= now')%N →
  ensure_active st' now' c = Ok tt → ensure_active st now c = Ok tt.
Proof.
  intros Hinv Hsteps Hnow. destruct (steps_inv _ _ Hinv Hsteps) as [Hinv' Hl].
  rewrite <-!is_ok_tt. apply ensure_active_mono; [|done].
  intros u _. apply is_cancelled_later; [apply Hinv|apply Hinv'|done|done].
Qed.

(** A late result is never published.  A result comes out of
    [execute_embedding] only if it is the engine's and the request was active at
    every moment between dispatch and publication; a control failure observed
    after inference replaces whatever the engine returned. *)
Theorem execute_embedding_guarded (eng : EmbeddingEngine) m b c st now mid nmid st' now' out :
  reachable st → rtc store_step st mid → rtc store_step mid st' → (now <= nmid <= now')%N →
  (execute_embedding m b c st now st' now' = Ok out →
     engine_embed m b c = Ok out ∧ ensure_active mid nmid c = Ok tt) ∧
  (∀ e, ensure_active mid nmid c = Err e → ∃ e', execute_embedding m b c st now st' now' = Err e').
Proof.
  intros Hr H1 H2 [Hn1 Hn2]. pose proof (reachable_inv st Hr) as Hinv.
  destruct (steps_inv _ _ Hinv H1) as [Hinv1 _].
  assert (Hpub : ∀ out', execute_embedding m b c st now st' now' = Ok out' →
            engine_embed m b c = Ok out' ∧ ensure_active mid nmid c = Ok tt).
  { unfold execute_embedding. intros out'. rewrite bind_Ok. setoid_rewrite bind_Ok.
    intros ([] & _ & [] & Hact & Hout). split; [done|].
    by eapply ensure_active_earlier. }
  split; [apply Hpub|]. intros e He.
  destruct (execute_embedding m b c st now st' now') as [out'|e'] eqn:Ex; [|by eauto].
  destruct (Hpub out' eq_refl) as [_ Hok]. congruence.
Qed.

Definition sample_identity : ResolvedModelIdentity :=
  mk_ResolvedModelIdentity "m" "r" "onnx" "sha" "sem".
Definition sample_output : EmbeddingOutput :=
  mk_EmbeddingOutput [[1]]%N sample_identity (mk_EmbeddingUsage [3]%N 3).

Lemma execute_embedding_guarded_witness :
  let eng := Build_EmbeddingEngine (λ _ _ _, Ok sample_output) in
  let c := ExecutionControl_new 2 (Some 100%N) in
  let run st' := @execute_embedding eng (mk_RequestedModel "m") (mk_EmbeddingBatch ["x"%string]) c sample_store 1 st' 9 in
  run sample_store = Ok sample_output ∧ ∃ e', run (cancel 4 sample_store 0) = Err e'.
Proof.
  intros eng c run. split; [reflexivity|].
  destruct (execute_embedding_guarded eng (mk_RequestedModel "m") (mk_EmbeddingBatch ["x"%string]) c
    sample_store 1 (cancel 4 sample_store 0) 4 (cancel 4 sample_store 0) 9 sample_output) as [_ H].
  - apply sample_reachable.
  - apply rtc_once, step_cancel.
  - done.
  - lia.
  - apply (H (public Cancelled)). reflexivity.
Defined.

(** * Termination *)

Lemma notify_ext now rec rec' fuel E deps st t X :
  (∀ st d X, store_inv E X st → unset st < fuel → is_Some (lookup_signal st d) →
     store_inv E X (rec st d) ∧ evolves d st (rec st d) ∧ flag (rec st d) d = true) →
  (∀ st d X, store_inv E X st → unset st < fuel → is_Some (lookup_signal st d) → rec st d = rec' st d) →
  store_inv E X st → unset st < fuel → Forall (λ d, t < d) deps →
  notify_dependents rec now deps st = notify_dependents rec' now deps st.
Proof.
  intros Hrec Heq. revert st. induction deps as [|d deps IH]; intros st Hinv Hf Hlt; [done|].
  apply Forall_cons in Hlt as [Hd Hlt]. simpl.
  assert (E1 : source_changed_with rec now st d = source_changed_with rec' now st d).
  { unfold source_changed_with. destruct (lookup_state st d) as [[|sg cs|]|] eqn:Ed; try done.
    case_match; [|done]. eapply Heq; [done|done|]. unfold lookup_signal. rewrite Ed. by eexists. }
  rewrite <-E1. destruct (source_changed_spec now rec fuel E Hrec st d t X) as (Hinv1 & Hev1 & _); [done..|].
  destruct (alive st d); apply IH; try done. by eapply Nat.le_lt_trans; [eapply unset_le|].
Qed.

Lemma signal_cancel_fuel_stable E now f f' st t X :
  store_inv E X st → unset st < f → f ≤ f' → is_Some (lookup_signal st t) →
  signal_cancel_fuel f now st t = signal_cancel_fuel f' now st t.
Proof.
  revert f' st t X. induction f as [|f IH]; intros f' st t X Hinv Hf Hle [sg Hsg]; [lia|].
  destruct f' as [|f']; [lia|]. simpl. rewrite Hsg. destruct (cancelled sg) eqn:Efl; [done|].
  set (deps := filter _ (dependents sg)). set (st1 := wake _ _).
  destruct (inv_set_flag E X t st sg deps) as (Hinv1 & Hev1 & Hfl1 & Hlt); try done.
  fold st1 in Hinv1, Hev1, Hfl1.
  assert (Hun : unset st1 < unset st).
  { eapply unset_lt; [done|by eapply lookup_signal_lt| |done]. unfold flag. by rewrite Hsg. }
  eapply (notify_ext now _ _ f E deps st1 t (t :: X)); [| |done|lia|done].
  - intros. by apply signal_cancel_fuel_spec.
  - intros. eapply IH; [done|done|lia|done].
Qed.

(** The recursive notification of [CancellationSignal::cancel] terminates: in
    every reachable store a recursion depth of one call per token is enough, and
    any larger bound computes the same store. *)
Theorem signal_cancel_terminates st now t fuel :
  reachable st → length (cells st) < fuel → is_Some (lookup_signal st t) →
  signal_cancel_fuel fuel now st t = signal_cancel now st t.
Proof.
  intros Hr Hf Hs. symmetry. eapply signal_cancel_fuel_stable; [by apply reachable_inv| |lia|done].
  pose proof (unset_bound st). lia.
Qed.

Lemma signal_cancel_terminates_witness :
  signal_cancel_fuel 50 3 sample_store 0 = signal_cancel 3 sample_store 0.
Proof.
  apply signal_cancel_terminates; [apply sample_reachable|vm_compute; lia|vm_compute; by eexists].
Defined.
