(* ===== verification/WaitRace.v ===== *)
(** The race of one poll of [CancellationToken::cancelled] against one
    [CancellationSignal::cancel] ([crates/impossible-embedding-core/src/lib.rs]).

    [Cancellation.v] runs each operation as one step.  Here the two operations
    are split at every atomic access and lock section of the source and their
    steps interleave freely: the poll loads the flag, pushes its waker under the
    waiter lock, loads the flag again and re-checks before it goes to sleep,
    while the canceller swaps the flag, drains the waiters under the lock and
    wakes what it drained. *)

From stdpp Require Import base relations.
From S2P Require Import Prelude.

Module WaitRace.

(** Program point of the polling task ([cancelled] and [register_waiter]). *)
Inductive PollPc :=
| PCheck      (** [if self.is_cancelled()] of the poll *)
| PLoad       (** first [cancelled.load] of [register_waiter] *)
| PPush       (** [waiters.push(waiter.clone())] under the lock *)
| PReload     (** second [cancelled.load] of [register_waiter] *)
| PRecheck    (** second [if self.is_cancelled()] of the poll *)
| PReady      (** [Poll::Ready] *)
| PPending.   (** [Poll::Pending]: asleep until woken *)

(** Program point of the cancelling task ([CancellationSignal::cancel]). *)
Inductive CancelPc :=
| CSwap       (** [cancelled.swap(true)] *)
| CDrain      (** [waiters.drain(..)] under the lock *)
| CWake       (** [waiter.wake()] of the drained wakers *)
| CDone.

#[global] Instance PollPc_eq_dec : EqDecision PollPc.
Proof. solve_decision. Defined.
#[global] Instance CancelPc_eq_dec : EqDecision CancelPc.
Proof. solve_decision. Defined.

Record Race := mk_Race {
  flag : bool;        (** [cancelled] *)
  waiting : bool;     (** the waker is in [waiters] *)
  drained : bool;     (** the waker was drained by the canceller *)
  woken : bool;       (** the waker has been woken *)
  poll_pc : PollPc;
  cancel_pc : CancelPc;
}.

Definition race_start : Race := mk_Race false false false false PCheck CSwap.

(** The next atomic step of the polling task. *)
Definition poll_step (r : Race) : option Race :=
  let go w k pc := Some (mk_Race (flag r) w (drained r) k pc (cancel_pc r)) in
  match poll_pc r with
  | PCheck => go (waiting r) (woken r) (if flag r then PReady else PLoad)
  | PLoad => if flag r then go (waiting r) true PRecheck else go (waiting r) (woken r) PPush
  | PPush => go true (woken r) PReload
  | PReload => go (waiting r) (woken r || flag r) PRecheck
  | PRecheck => go (waiting r) (woken r) (if flag r then PReady else PPending)
  | PReady | PPending => None
  end.

(** The next atomic step of the cancelling task. *)
Definition cancel_step (r : Race) : option Race :=
  match cancel_pc r with
  | CSwap => Some (mk_Race true (waiting r) (drained r) (woken r) (poll_pc r) CDrain)
  | CDrain => Some (mk_Race (flag r) false (waiting r) (woken r) (poll_pc r) CWake)
  | CWake => Some (mk_Race (flag r) (waiting r) false (woken r || drained r) (poll_pc r) CDone)
  | CDone => None
  end.

Inductive race_step (r : Race) : Race → Prop :=
| step_poll r' : poll_step r = Some r' → race_step r r'
| step_cancel r' : cancel_step r = Some r' → race_step r r'.

(** While the flag is clear a registered waker is in the list; once the task
    sleeps its waker is in the list, then with the canceller, then woken. *)
Definition race_inv (r : Race) : bool :=
  Bool.eqb (flag r) (match cancel_pc r with CSwap => false | _ => true end) &&
  match poll_pc r with
  | PReload | PRecheck => flag r || waiting r
  | PPending => match cancel_pc r with
                | CSwap | CDrain => waiting r
                | CWake => drained r
                | CDone => woken r
                end
  | _ => true
  end.

Lemma race_inv_step r r' : race_inv r = true → race_step r r' → race_inv r' = true.
Proof.
  destruct r as [[] [] [] [] [] []]; try discriminate;
    intros _ [r1 H|r1 H]; vm_compute in H; try discriminate; injection H as <-; reflexivity.
Qed.

Lemma race_inv_reachable r : rtc race_step race_start r → race_inv r = true.
Proof.
  assert (Hgen : ∀ r0, rtc race_step r0 r → race_inv r0 = true → race_inv r = true).
  { induction 1; eauto using race_inv_step. }
  intros H. by apply (Hgen race_start).
Qed.

(** C39: no wake-up is lost between [register_waiter] and [cancel]: in every
    interleaving, when both have run to completion, the polling task has either
    observed the cancellation or been woken. *)
Theorem no_lost_wakeup r :
  rtc race_step race_start r → poll_step r = None → cancel_step r = None →
  poll_pc r = PReady ∨ woken r = true.
Proof.
  intros Hr Hp Hc. pose proof (race_inv_reachable r Hr) as Hinv.
  destruct r as [[] w d k [] []]; try discriminate; by auto.
Qed.

(** The waker is pushed after the drain: the second load catches it. *)
Lemma no_lost_wakeup_witness :
  let r := mk_Race true true false true PReady CDone in
  rtc race_step race_start r ∧ (poll_pc r = PReady ∨ woken r = true).
Proof.
  intros r. assert (Hr : rtc race_step race_start r).
  { do 2 (eapply rtc_l; [apply step_poll; reflexivity|]).
    do 3 (eapply rtc_l; [apply step_cancel; reflexivity|]).
    do 3 (eapply rtc_l; [apply step_poll; reflexivity|]). reflexivity. }
  split; [exact Hr|]. apply (no_lost_wakeup r Hr); reflexivity.
Defined.

End WaitRace.
