(* ===== verification/Health.v ===== *)
(** Liveness, readiness and per-model state
    ([crates/impossible-server-core/src/health.rs], [doctor.rs]).  The registry is one
    [RwLock]; a poisoned lock degrades every answer, so poisoning is part of the
    modelled state. *)

From stdpp Require Import base gmap list strings relations.
From Stdlib Require Import NArith Lia.
From S2P Require Import Prelude Core.

Local Open Scope string_scope.
Local Open Scope nat_scope.

Module Health.

Inductive LifecycleState := Starting | Ready | Draining | Stopped.

Inductive ModelFailureReason :=
| FMissing | FInvalid | SemanticVerificationPending | RuntimeInitializationFailed.

Inductive ModelState :=
| MUnloaded
| MLoading
| MReady
| MFailed (reason : ModelFailureReason).

Inductive ReadinessReason :=
| RStarting | NoModelsConfigured | NoReadyModels | RDraining | RStopped | HealthStateUnavailable.

#[global] Instance LifecycleState_eq_dec : EqDecision LifecycleState.
Proof. solve_decision. Defined.
#[global] Instance ModelFailureReason_eq_dec : EqDecision ModelFailureReason.
Proof. solve_decision. Defined.
#[global] Instance ModelState_eq_dec : EqDecision ModelState.
Proof. solve_decision. Defined.
#[global] Instance ReadinessReason_eq_dec : EqDecision ReadinessReason.
Proof. solve_decision. Defined.

(** [ReadinessReason::code] *)
Definition reason_code_str (r : ReadinessReason) : string :=
  match r with
  | RStarting => "starting"
  | NoModelsConfigured => "no_models_configured"
  | NoReadyModels => "no_ready_models"
  | RDraining => "draining"
  | RStopped => "stopped"
  | HealthStateUnavailable => "health_state_unavailable"
  end.

(** [From<ModelVerificationStatus> for ModelState] *)
Definition of_verification (s : ModelVerificationStatus) : ModelState :=
  match s with
  | Missing => MFailed FMissing
  | Invalid => MFailed FInvalid
  | IntegrityVerified => MFailed SemanticVerificationPending
  | Loadable => MLoading
  end.

Record Readiness := mk_Readiness {
  state : LifecycleState;
  reason_code : option ReadinessReason;
}.

(** [Readiness::is_ready] *)
Definition is_ready (r : Readiness) : bool :=
  match state r, reason_code r with Ready, None => true | _, _ => false end.

(** [struct HealthState]; a [ModelKey] is its [u64]. *)
Record HealthState := mk_HealthState {
  live : bool;
  lifecycle : LifecycleState;
  reason : option ReadinessReason;
  models : gmap N ModelState;
}.

Record HealthRegistry := mk_HealthRegistry {
  poisoned : bool;
  inner : HealthState;
}.

(** [Default for HealthRegistry] *)
Definition HealthRegistry_default : HealthRegistry :=
  mk_HealthRegistry false (mk_HealthState true Starting (Some RStarting) ∅).

(** [if let Ok(mut state) = self.0.write()] *)
Definition write (f : HealthState → HealthState) (h : HealthRegistry) : HealthRegistry :=
  if poisoned h then h else mk_HealthRegistry false (f (inner h)).

(** [HealthRegistry::is_live] *)
Definition is_live (h : HealthRegistry) : bool := negb (poisoned h) && live (inner h).

(** [HealthRegistry::set_model] *)
Definition set_model (key : N) (m : ModelState) : HealthRegistry → HealthRegistry :=
  write (λ s, mk_HealthState (live s) (lifecycle s) (reason s) (<[key := m]> (models s))).

(** [HealthRegistry::remove_model] *)
Definition remove_model (key : N) (h : HealthRegistry) : bool * HealthRegistry :=
  (negb (poisoned h) && bool_decide (is_Some (models (inner h) !! key)),
   write (λ s, mk_HealthState (live s) (lifecycle s) (reason s) (delete key (models s))) h).

(** [HealthRegistry::clear_models] *)
Definition clear_models : HealthRegistry → HealthRegistry :=
  write (λ s, mk_HealthState (live s) (lifecycle s) (reason s) ∅).

(** [HealthRegistry::set_model_verification] *)
Definition set_model_verification (key : N) (s : ModelVerificationStatus) : HealthRegistry → HealthRegistry :=
  set_model key (of_verification s).

(** [HealthRegistry::transition] *)
Definition transition (next : LifecycleState) (r : option ReadinessReason) (h : HealthRegistry)
    : bool * HealthRegistry :=
  if poisoned h then (false, h) else
  let s := inner h in
  if bool_decide (lifecycle s = Stopped) then (bool_decide (next = Stopped), h) else
  if bool_decide (lifecycle s = Draining) && bool_decide (next = Starting ∨ next = Ready) then (false, h) else
  (true, mk_HealthRegistry false
     (mk_HealthState (if bool_decide (next = Stopped) then false else live s) next r (models s))).

Definition ready_count (s : HealthState) : nat := size (filter (λ km, km.2 = MReady) (models s)).

(** [HealthRegistry::readiness] *)
Definition readiness (h : HealthRegistry) : Readiness :=
  if poisoned h then mk_Readiness Draining (Some HealthStateUnavailable) else
  let s := inner h in
  let or_else d := match reason s with Some r => Some r | None => Some d end in
  mk_Readiness (lifecycle s)
    match lifecycle s with
    | Ready => if bool_decide (models s = ∅) then Some NoModelsConfigured
               else if (ready_count s =? 0)%nat then Some NoReadyModels
               else reason s
    | Starting => or_else RStarting
    | Draining => or_else RDraining
    | Stopped => or_else RStopped
    end.

(** [HealthRegistry::model_counts] *)
Definition model_counts (h : HealthRegistry) : nat * nat :=
  if poisoned h then (0, 0) else (ready_count (inner h), size (models (inner h))).

(** [DoctorReport] and [DoctorReport::from_readiness] *)
Record DoctorReport := mk_DoctorReport {
  dr_version : string;
  dr_lifecycle : LifecycleState;
  dr_reason : option ReadinessReason;
  model_count : nat;
  ready_model_count : nat;
}.
Definition from_readiness (version : string) (r : Readiness) (ready total : nat) : DoctorReport :=
  mk_DoctorReport version (state r) (reason_code r) total ready.

(** One operation on the shared registry; a panicking writer poisons it. *)
Inductive health_step (h : HealthRegistry) : HealthRegistry → Prop :=
| step_set_model k m : health_step h (set_model k m h)
| step_remove_model k : health_step h (remove_model k h).2
| step_clear : health_step h (clear_models h)
| step_verification k s : health_step h (set_model_verification k s h)
| step_transition n r : health_step h (transition n r h).2
| step_poison : health_step h (mk_HealthRegistry true (inner h)).

Definition rank (l : LifecycleState) : nat :=
  match l with Starting | Ready => 0 | Draining => 1 | Stopped => 2 end.

(** A stopped process is not alive. *)
Definition health_inv (h : HealthRegistry) : Prop := lifecycle (inner h) = Stopped → is_live h = false.

Lemma health_step_mono h h' :
  health_step h h' → rank (lifecycle (inner h)) ≤ rank (lifecycle (inner h')) ∧
  (health_inv h → health_inv h').
Proof.
  unfold health_inv, is_live. destruct h as [p [lv lc rs ms]].
  intros [k m|k| |k s|n r|]; destruct p; simpl; try (split; [lia|done]).
  unfold transition; simpl. destruct lc, n; simpl; split; (lia || done).
Qed.

Lemma ready_count_pos s : ready_count s ≠ 0 ↔ ∃ k, models s !! k = Some MReady.
Proof.
  unfold ready_count. rewrite map_size_non_empty_iff. split.
  - intros Hne. apply map_choose in Hne as (k & m & Hk).
    apply map_lookup_filter_Some in Hk as [Hk Hm]. simpl in Hm. subst. eauto.
  - intros [k Hk] Hemp. assert (filter (λ km, km.2 = MReady) (models s) !! k = Some MReady) as H.
    { by apply map_lookup_filter_Some. }
    rewrite Hemp in H. set_solver.
Qed.

(** The lifecycle only moves forward: whatever operations are applied, a
    process that drains never becomes ready again, a stopped one stays stopped
    and is never reported live or ready. *)
Theorem lifecycle_monotone h h' :
  rtc health_step HealthRegistry_default h → rtc health_step h h' →
  rank (lifecycle (inner h)) ≤ rank (lifecycle (inner h')) ∧
  (rank (lifecycle (inner h)) ≠ 0 → is_ready (readiness h') = false) ∧
  (lifecycle (inner h) = Stopped → lifecycle (inner h') = Stopped ∧ is_live h' = false).
Proof.
  assert (Hgen : ∀ h h', rtc health_step h h' →
    rank (lifecycle (inner h)) ≤ rank (lifecycle (inner h')) ∧ (health_inv h → health_inv h')).
  { induction 1 as [|x y z Hxy _ [IH1 IH2]]; [done|].
    destruct (health_step_mono x y Hxy) as [H1 H2]. split; [lia|auto]. }
  intros H0 H1. destruct (Hgen _ _ H0) as [_ Hi]. destruct (Hgen _ _ H1) as [Hr Hi'].
  assert (Hinv : health_inv h') by by apply Hi', Hi.
  split; [done|]. split.
  - intros Hne. unfold is_ready, readiness. destruct (poisoned h'); [done|]. simpl.
    destruct (lifecycle (inner h')); simpl in *; (done || lia).
  - intros Hst. rewrite Hst in Hr. assert (lifecycle (inner h') = Stopped) as Hs'.
    { destruct (lifecycle (inner h')); simpl in Hr; (done || lia). }
    split; [done|]. by apply Hinv.
Qed.

Lemma lifecycle_monotone_witness :
  let h := (transition Stopped (Some RStopped) HealthRegistry_default).2 in
  let h' := (transition Ready None (set_model 1 MReady h)).2 in
  lifecycle (inner h') = Stopped ∧ is_live h' = false.
Proof.
  intros h h'. apply (lifecycle_monotone h h'); [| |reflexivity].
  - apply rtc_once, step_transition.
  - eapply rtc_l; [apply step_set_model|]. apply rtc_once, step_transition.
Defined.

(** Readiness is exact: the process reports ready if and only if the registry
    is intact, its lifecycle is ready with no stored objection, and at least one
    model can accept requests; the artifact verification status of a model alone
    never makes it so. *)
Theorem ready_iff h :
  (is_ready (readiness h) = true ↔
     poisoned h = false ∧ lifecycle (inner h) = Ready ∧ reason (inner h) = None ∧
     ∃ k, models (inner h) !! k = Some MReady) ∧
  (∀ key s, is_ready (readiness (set_model_verification key s h)) = true →
     ∃ k, k ≠ key ∧ models (inner h) !! k = Some MReady).
Proof.
  assert (Hiff : ∀ h, is_ready (readiness h) = true ↔
     poisoned h = false ∧ lifecycle (inner h) = Ready ∧ reason (inner h) = None ∧
     ∃ k, models (inner h) !! k = Some MReady).
  { clear h. intros h. rewrite <-ready_count_pos. unfold is_ready, readiness.
    destruct (poisoned h); [naive_solver|]. simpl.
    destruct (lifecycle (inner h)); try (split; [done|]; naive_solver).
    destruct (decide (models (inner h) = ∅)) as [He|He].
    - rewrite bool_decide_eq_true_2 by done. split; [done|]. intros (_ & _ & _ & Hc). exfalso. apply Hc.
      unfold ready_count. by rewrite He, map_filter_empty, map_size_empty.
    - rewrite bool_decide_eq_false_2 by done.
      destruct (Nat.eqb_spec (ready_count (inner h)) 0); [naive_solver|].
      destruct (reason (inner h)); naive_solver. }
  split; [apply Hiff|]. intros key s Hr. apply Hiff in Hr as (Hp & _ & _ & k & Hk).
  unfold set_model_verification, set_model, write in *.
  destruct (poisoned h) eqn:Hph; [congruence|].
  simpl in Hk. exists k. destruct (decide (k = key)) as [->|Hne].
  - rewrite lookup_insert_eq in Hk. by destruct s.
  - by rewrite lookup_insert_ne in Hk.
Qed.

End Health.
