(* ===== verification/Shutdown.v ===== *)
(** Graceful shutdown coordination
    ([crates/impossible-server-core/src/shutdown.rs]): a mutex-protected state and
    count of admitted work, with RAII permits. *)

From stdpp Require Import base list relations.
From Stdlib Require Import NArith Lia.
From S2P Require Import Prelude.

Module Shutdown.

Inductive ShutdownState := Running | Draining | Stopped.

#[global] Instance ShutdownState_eq_dec : EqDecision ShutdownState.
Proof. solve_decision. Defined.

(** [struct State], behind a mutex that a panicking holder poisons. *)
Record Coordinator := mk_Coordinator {
  poisoned : bool;
  shutdown : ShutdownState;
  active : N;
}.

(** [Default for ShutdownCoordinator] *)
Definition Coordinator_default : Coordinator := mk_Coordinator false Running 0.

(** [ShutdownCoordinator::state] *)
Definition state (c : Coordinator) : ShutdownState := if poisoned c then Stopped else shutdown c.

(** [ShutdownCoordinator::admit]: whether a permit was issued, and the new state. *)
Definition coordinator_admit (c : Coordinator) : bool * Coordinator :=
  if poisoned c then (false, c) else
  if bool_decide (shutdown c = Running)
  then (true, mk_Coordinator false Running (saturating_add usize_max (active c) 1))
  else (false, c).

(** [ShutdownCoordinator::begin] *)
Definition begin (c : Coordinator) : Coordinator :=
  if poisoned c then c else
  let s := if bool_decide (shutdown c = Running) then Draining else shutdown c in
  mk_Coordinator false (if (active c =? 0)%N then Stopped else s) (active c).

(** [ShutdownCoordinator::force_stop] *)
Definition force_stop (c : Coordinator) : Coordinator :=
  if poisoned c then c else mk_Coordinator false Stopped (active c).

(** [Drop for WorkPermit] *)
Definition drop_permit (c : Coordinator) : Coordinator :=
  if poisoned c then c else
  let a := saturating_sub (active c) 1 in
  mk_Coordinator false
    (if ((a =? 0)%N && bool_decide (shutdown c = Draining)) then Stopped else shutdown c) a.

(** [ShutdownCoordinator::wait]: each round of the condition variable is what it
    observes: the time elapsed since [started] and then, when it waits, the state
    it wakes to (or [None] for a poisoned lock) and whether the wait timed out.
    [None]: still waiting when the observations end. *)
Record Round := mk_Round { elapsed : N; next : option ShutdownState; timed_out : bool }.

Fixpoint wait (timeout : N) (s : ShutdownState) (rounds : list Round) : option bool :=
  match s with
  | Stopped => Some true
  | _ =>
    match rounds with
    | [] => None
    | r :: rounds =>
      if (saturating_sub timeout (elapsed r) =? 0)%N then Some false else
      match next r with
      | None => Some false
      | Some s' => if timed_out r && negb (bool_decide (s' = Stopped)) then Some false
                   else wait timeout s' rounds
      end
    end
  end.

(** The coordinator together with the number of live permits. *)
Record System := mk_System { coordinator : Coordinator; permits : N }.

Inductive step : System → System → Prop :=
| step_admit c n c' : coordinator_admit c = (true, c') → step (mk_System c n) (mk_System c' (n + 1))
| step_refuse c n : coordinator_admit c = (false, c) → step (mk_System c n) (mk_System c n)
| step_drop c n : step (mk_System c (n + 1)) (mk_System (drop_permit c) n)
| step_begin c n : step (mk_System c n) (mk_System (begin c) n)
| step_force c n : step (mk_System c n) (mk_System (force_stop c) n).

Definition start : System := mk_System Coordinator_default 0.

(** The count is the number of live permits (as long as it fits), and draining
    means there is work left. *)
Definition coordinator_inv (s : System) : Prop :=
  poisoned (coordinator s) = false ∧
  ((permits s <= usize_max)%N → active (coordinator s) = permits s) ∧
  (shutdown (coordinator s) = Draining → active (coordinator s) ≠ 0%N).

Lemma admit_true c c' :
  coordinator_admit c = (true, c') ↔ poisoned c = false ∧ shutdown c = Running ∧
    c' = mk_Coordinator false Running (saturating_add usize_max (active c) 1).
Proof. unfold coordinator_admit. destruct (poisoned c); [naive_solver|]. case_bool_decide; naive_solver. Qed.

(** Permits never exceed the width of the counter. *)
Inductive bounded_steps : System → System → Prop :=
| bs_refl s : bounded_steps s s
| bs_step s1 s2 s3 : bounded_steps s1 s2 → step s2 s3 → (permits s3 <= usize_max)%N → bounded_steps s1 s3.

Lemma inv_step s s' :
  coordinator_inv s → (permits s <= usize_max)%N → (permits s' <= usize_max)%N → step s s' → coordinator_inv s'.
Proof.
  intros (Hp & Hn & Hd) Hb Hb' Hs. specialize (Hn Hb).
  destruct Hs as [c n c' Ha|c n|c n|c n|c n]; simpl in *; unfold coordinator_inv; simpl.
  - apply admit_true in Ha as (_ & _ & ->). simpl. unfold saturating_add.
    split; [done|]. split; [intros; lia|done].
  - done.
  - unfold drop_permit, saturating_sub. rewrite Hp. simpl. split; [done|]. split; [intros; lia|].
    case_bool_decide as E; destruct (N.eqb_spec (active c - 1) 0); simpl; done.
  - unfold begin. rewrite Hp. simpl. split; [done|]. split; [by intros; apply Hn|].
    by destruct (N.eqb_spec (active c) 0).
  - unfold force_stop. rewrite Hp. simpl. split; [done|]. split; [by intros; apply Hn|done].
Qed.

Lemma bounded_inv s s' :
  bounded_steps s s' → coordinator_inv s → (permits s <= usize_max)%N →
  coordinator_inv s' ∧ (permits s' <= usize_max)%N.
Proof.
  induction 1 as [|s1 s2 s3 _ IH H23 Hb]; intros Hi Hb1; [done|].
  destruct (IH Hi Hb1) as [? ?]. split; [|done]. by eapply inv_step.
Qed.

Definition stop_rank (s : ShutdownState) : nat :=
  match s with Running => 0 | Draining => 1 | Stopped => 2 end.

Lemma step_rank s s' : step s s' → stop_rank (shutdown (coordinator s)) ≤ stop_rank (shutdown (coordinator s')).
Proof.
  intros [c n c' Ha|c n|c n|c n|c n]; simpl; [|done|..].
  - apply admit_true in Ha as (_ & -> & ->). done.
  - unfold drop_permit. destruct (poisoned c); [done|]. simpl.
    case_bool_decide as E; destruct (_ =? 0)%N; simpl; rewrite ?E; simpl; lia.
  - unfold begin. destruct (poisoned c); [done|]. simpl.
    destruct (shutdown c); destruct (_ =? 0)%N; simpl; lia.
  - unfold force_stop. destruct (poisoned c); [done|]. simpl. destruct (shutdown c); simpl; lia.
Qed.

(** The coordinator admits, drains and stops as documented.  In every
    history its count is the number of live permits; once draining began no
    permit is ever issued again; while it drains there is live work, and the
    release of the last permit stops it; a stopped coordinator stays stopped. *)
Theorem coordinator_correct s :
  bounded_steps start s →
  let c := coordinator s in
  active c = permits s ∧
  (shutdown c ≠ Running → ∀ s', rtc step s s' → fst (coordinator_admit (coordinator s')) = false) ∧
  (shutdown c = Draining → permits s ≠ 0%N) ∧
  (shutdown c = Draining → permits s = 1%N → shutdown (drop_permit c) = Stopped) ∧
  (shutdown c = Stopped → ∀ s', rtc step s s' → shutdown (coordinator s') = Stopped).
Proof.
  intros Hs c. destruct (bounded_inv start s Hs) as [(Hp & Hn & Hd) Hb].
  { by split. }
  { vm_compute. done. }
  assert (Hrank : ∀ s', rtc step s s' → stop_rank (shutdown c) ≤ stop_rank (shutdown (coordinator s'))).
  { intros s' H. clear -H. subst c. induction H as [|x y z Hxy _ IH]; [done|].
    pose proof (step_rank x y Hxy). lia. }
  specialize (Hn Hb). fold c in Hp, Hn, Hd. split; [done|]. split; [|split; [|split]].
  - intros Hne s' Hs'. specialize (Hrank s' Hs').
    destruct (coordinator_admit (coordinator s')) as [[] c'] eqn:Ha; [|done].
    apply admit_true in Ha as (_ & Hrun & _). rewrite Hrun in Hrank.
    destruct (shutdown c); simpl in Hrank; (done || lia).
  - intros H. rewrite <-Hn. auto.
  - intros H H1. unfold drop_permit. rewrite Hp. simpl. rewrite Hn, H1. simpl.
    by rewrite bool_decide_eq_true_2.
  - intros H s' Hs'. specialize (Hrank s' Hs'). rewrite H in Hrank.
    destruct (shutdown (coordinator s')); simpl in Hrank; (done || lia).
Qed.

Lemma coordinator_correct_witness :
  let s := mk_System (mk_Coordinator false Draining 1) 1 in
  shutdown (drop_permit (coordinator s)) = Stopped ∧ fst (coordinator_admit (coordinator s)) = false.
Proof.
  intros s.
  assert (Hs : bounded_steps start s).
  { eapply (bs_step _ (mk_System (mk_Coordinator false Running 1) 1)).
    - eapply bs_step; [apply bs_refl| |vm_compute; done].
      apply (step_admit Coordinator_default 0). reflexivity.
    - apply (step_begin (mk_Coordinator false Running 1) 1).
    - vm_compute. done. }
  destruct (coordinator_correct s Hs) as (_ & Hadm & _ & Hlast & _).
  split; [by apply Hlast|]. apply Hadm; [done|reflexivity].
Defined.

(** Waiting for the drain is bounded and truthful: it answers [true] only for
    a stopped coordinator, and with finitely many wake-ups of which the last sees
    the deadline pass it always answers. *)
Theorem wait_truthful timeout s rounds :
  (wait timeout s rounds = Some true →
     s = Stopped ∨ ∃ r, r ∈ rounds ∧ next r = Some Stopped) ∧
  ((∃ r, last rounds = Some r ∧ (timeout <= elapsed r)%N) → wait timeout s rounds ≠ None).
Proof.
  split.
  - revert s. induction rounds as [|r rounds IH]; intros s.
    + destruct s; simpl; naive_solver.
    + destruct (decide (s = Stopped)) as [->|Hne]; [by left|].
      assert (wait timeout s (r :: rounds) =
        if (saturating_sub timeout (elapsed r) =? 0)%N then Some false else
        match next r with
        | None => Some false
        | Some s' => if timed_out r && negb (bool_decide (s' = Stopped)) then Some false
                     else wait timeout s' rounds
        end) as -> by by destruct s.
      destruct (_ =? 0)%N; [done|]. destruct (next r) as [s'|] eqn:En; [|done].
      destruct (timed_out r && _); [done|].
      intros [->|(r' & Hr' & Hn)]%IH; right; [exists r|exists r']; set_solver.
  - intros (r & Hl & Ht). revert s Hl. induction rounds as [|r0 rounds IH]; intros s Hl; [done|].
    assert (Hlast : rounds = [] → r0 = r) by (intros ->; by simplify_eq/=).
    assert (Htl : rounds ≠ [] → last rounds = Some r) by (destruct rounds; done).
    destruct s; simpl; [|  |done];
      (destruct (N.eqb_spec (saturating_sub timeout (elapsed r0)) 0) as [|Hz]; [done|];
       destruct (next r0) as [s'|]; [|done]; destruct (timed_out r0 && _); [done|];
       destruct (decide (rounds = [])) as [->|]; [|by apply IH, Htl];
       rewrite Hlast in Hz by done; unfold saturating_sub in Hz; lia).
Qed.

End Shutdown.
