(* ===== verification/Metrics.v ===== *)
(** Prometheus metrics and request telemetry
    ([crates/impossible-server-core/src/metrics.rs], [telemetry.rs]): one mutex
    around counters and gauges, and the text exposition. *)

From stdpp Require Import base gmap list strings.
From Stdlib Require Import NArith Lia Ascii.
From S2P Require Import Prelude.

Local Open Scope string_scope.
Local Open Scope list_scope.

Module Metrics.

Inductive Operation := Embed | ListModels | AdminModel | OpHealth.
Inductive Outcome := OutOk | OutInvalid | OutOverloaded | OutCancelled | OutFailed.

#[global] Instance Operation_eq_dec : EqDecision Operation.
Proof. solve_decision. Defined.
#[global] Instance Outcome_eq_dec : EqDecision Outcome.
Proof. solve_decision. Defined.

(** [Operation::ALL], [Operation::label] *)
Definition Operation_ALL : list Operation := [Embed; ListModels; AdminModel; OpHealth].
Definition Operation_label (o : Operation) : string :=
  match o with
  | Embed => "embed" | ListModels => "list_models" | AdminModel => "admin_model" | OpHealth => "health"
  end.

(** [Outcome::ALL], [Outcome::label] *)
Definition Outcome_ALL : list Outcome := [OutOk; OutInvalid; OutOverloaded; OutCancelled; OutFailed].
Definition Outcome_label (o : Outcome) : string :=
  match o with
  | OutOk => "ok" | OutInvalid => "invalid" | OutOverloaded => "overloaded"
  | OutCancelled => "cancelled" | OutFailed => "failed"
  end.

(** The [BTreeMap]s are keyed by a closed enumeration; an absent key reads as
    the default [0], which is also what [entry().or_default()] starts from. *)
Record Inner := mk_Inner {
  requests : Operation → Outcome → N;
  durations_micros : Operation → N;
  queue_depth : N;
  active : N;
}.
Record Metrics := mk_Metrics { poisoned : bool; inner : Inner }.

Definition Metrics_default : Metrics := mk_Metrics false (mk_Inner (λ _ _, 0%N) (λ _, 0%N) 0 0).

(** [if let Ok(mut inner) = self.0.lock()] *)
Definition locked (f : Inner → Inner) (m : Metrics) : Metrics :=
  if poisoned m then m else mk_Metrics false (f (inner m)).

(** [Metrics::observe]; the release profile leaves overflow checks off, so the
    counter wraps.  [micros] is [elapsed.as_micros()], a [u128]. *)
Definition observe (op : Operation) (out : Outcome) (micros : N) : Metrics → Metrics :=
  locked (λ i, mk_Inner
    (λ p q, if decide (p = op ∧ q = out) then wrapping_add (requests i p q) 1 else requests i p q)
    (λ p, if decide (p = op)
          then saturating_add u64_max (durations_micros i p) (default u64_max (try_from u64_max micros))
          else durations_micros i p)
    (queue_depth i) (active i)).

Definition with_queue_depth (f : N → N) : Metrics → Metrics :=
  locked (λ i, mk_Inner (requests i) (durations_micros i) (f (queue_depth i)) (active i)).
Definition with_active (f : N → N) : Metrics → Metrics :=
  locked (λ i, mk_Inner (requests i) (durations_micros i) (queue_depth i) (f (active i))).

(** [Metrics::set_queue_depth], [set_active] *)
Definition set_queue_depth (depth : N) : Metrics → Metrics :=
  with_queue_depth (λ _, default u64_max (try_from u64_max depth)).
Definition set_active (n : N) : Metrics → Metrics :=
  with_active (λ _, default u64_max (try_from u64_max n)).
(** [Metrics::increment_active], [decrement_active] *)
Definition increment_active : Metrics → Metrics := with_active (λ a, saturating_add u64_max a 1).
Definition decrement_active : Metrics → Metrics := with_active (λ a, saturating_sub a 1).
(** [Metrics::increment_queue_depth], [decrement_queue_depth] *)
Definition increment_queue_depth : Metrics → Metrics := with_queue_depth (λ a, saturating_add u64_max a 1).
Definition decrement_queue_depth : Metrics → Metrics := with_queue_depth (λ a, saturating_sub a 1).

(** The lines that [Metrics::render] writes, in order. *)
Definition request_series (op : Operation) (out : Outcome) : string :=
  "impossible_requests_total{operation=" +:+ dquote +:+ Operation_label op +:+ dquote +:+
  ",outcome=" +:+ dquote +:+ Outcome_label out +:+ dquote +:+ "}".
Definition duration_series (op : Operation) : string :=
  "impossible_operation_duration_seconds_total{operation=" +:+ dquote +:+ Operation_label op +:+ dquote +:+ "}".
Definition seconds (micros : N) : string :=
  decimal (micros / 1000000) +:+ "." +:+ zero_padded 6 (micros mod 1000000).

Definition render_lines (i : Inner) : list string :=
  ["# HELP impossible_requests_total Completed requests.";
   "# TYPE impossible_requests_total counter"] ++
  (op ← Operation_ALL; (λ out, request_series op out +:+ " " +:+ decimal (requests i op out)) <$> Outcome_ALL) ++
  ["# HELP impossible_operation_duration_seconds_total Aggregate operation time.";
   "# TYPE impossible_operation_duration_seconds_total counter"] ++
  ((λ op, duration_series op +:+ " " +:+ seconds (durations_micros i op)) <$> Operation_ALL) ++
  ["# TYPE impossible_queue_depth gauge";
   "impossible_queue_depth " +:+ decimal (queue_depth i);
   "# TYPE impossible_active_requests gauge";
   "impossible_active_requests " +:+ decimal (active i)].

Fixpoint unlines (ls : list string) : string :=
  match ls with [] => EmptyString | l :: ls => l +:+ newline +:+ unlines ls end.

(** [Metrics::render] *)
Definition render (m : Metrics) : string :=
  if poisoned m then "# metrics unavailable" +:+ newline else unlines (render_lines (inner m)).

(** [Metrics::maximum_labelled_series] *)
Definition maximum_labelled_series : nat := 24.

(** ** Telemetry *)

Record RequestEvent := mk_RequestEvent {
  request_id : N; operation : Operation; outcome : Outcome;
  input_count : N; request_bytes : N; elapsed_us : N;
}.
(** The derived [Debug] names. *)
Definition Operation_debug (o : Operation) : string :=
  match o with
  | Embed => "Embed" | ListModels => "ListModels" | AdminModel => "AdminModel" | OpHealth => "Health"
  end.
Definition Outcome_debug (o : Outcome) : string :=
  match o with
  | OutOk => "Ok" | OutInvalid => "Invalid" | OutOverloaded => "Overloaded"
  | OutCancelled => "Cancelled" | OutFailed => "Failed"
  end.
(** [RequestEvent::to_logfmt] *)
Definition to_logfmt (e : RequestEvent) : string :=
  "event=request_complete request_id=" +:+ decimal (request_id e) +:+
  " operation=" +:+ Operation_debug (operation e) +:+
  " outcome=" +:+ Outcome_debug (outcome e) +:+
  " input_count=" +:+ decimal (input_count e) +:+
  " request_bytes=" +:+ decimal (request_bytes e) +:+
  " elapsed_us=" +:+ decimal (elapsed_us e).

Inductive DiagnosticClass := DConfiguration | DRuntime | DModel | DStorage.
(** [DiagnosticClass::code] *)
Definition DiagnosticClass_code (c : DiagnosticClass) : string :=
  match c with
  | DConfiguration => "configuration_error" | DRuntime => "runtime_error"
  | DModel => "model_error" | DStorage => "storage_error"
  end.

(** ** Properties *)

Lemma lines_unlines ls :
  Forall (λ l, has_char (byte 10) l = false) ls → lines (unlines ls) = ls ++ [""].
Proof.
  unfold lines. induction 1 as [|l ls Hl _ IH]; [done|]. cbn [unlines app].
  change (newline +:+ unlines ls) with (String (byte 10) (unlines ls)).
  rewrite split_app by done. by rewrite IH.
Qed.

Lemma seconds_no_char c n : is_ascii_digit c = false → c ≠ "."%char → has_char c (seconds n) = false.
Proof.
  intros Hc Hdot. unfold seconds. rewrite !has_char_app.
  rewrite (digits_no_char c _ Hc (decimal_digits _)), (digits_no_char c _ Hc (zero_padded_digits _ _)).
  apply Ascii.eqb_neq in Hdot. unfold has_char; simpl. by rewrite Hdot.
Qed.

Lemma decimal_no_char c n : is_ascii_digit c = false → has_char c (decimal n) = false.
Proof. intros. apply digits_no_char; [done|]. apply decimal_digits. Qed.

(** The labelled series of an exposition: the part before the space of each
    line that carries a label set. *)
Definition labelled (l : string) : bool := has_char "{" l.
Definition series_name (l : string) : string := hd "" (str_split " " l).
Definition exposed_series (text : string) : list string :=
  series_name <$> List.filter labelled (lines text).

Definition all_series : list string :=
  (op ← Operation_ALL; request_series op <$> Outcome_ALL) ++ (duration_series <$> Operation_ALL).

Definition free_of (c : ascii) (l : string) : Prop := has_char c l = false.

Lemma value_line_free {K} c (f g : K → string) keys :
  c ≠ " "%char → Forall (λ k, free_of c (f k)) keys → (∀ k, free_of c (g k)) →
  Forall (free_of c) ((λ k, f k +:+ " " +:+ g k) <$> keys).
Proof.
  intros Hc Hf Hg. apply Forall_fmap. eapply Forall_impl; [exact Hf|]. intros k Hk.
  unfold compose, free_of in *. rewrite !has_char_app, Hk, Hg. apply Ascii.eqb_neq in Hc.
  unfold has_char; simpl. by rewrite Hc.
Qed.

Lemma value_line_series {K} (f g : K → string) keys :
  Forall (λ k, labelled (f k) = true ∧ free_of " " (f k)) keys →
  series_name <$> List.filter labelled ((λ k, f k +:+ " " +:+ g k) <$> keys) = f <$> keys.
Proof.
  induction 1 as [|k keys [Hl Hs] _ IH]; [done|]. cbn [fmap list_fmap List.filter].
  unfold labelled at 1. rewrite has_char_app. unfold labelled in Hl. rewrite Hl. simpl orb. cbv iota.
  change (" " +:+ g k) with (String " " (g k)). cbn [fmap list_fmap].
  unfold series_name at 1. rewrite split_app by done. cbn [hd]. by f_equal.
Qed.

Lemma prefix_line_free c s v : free_of c s → free_of c v → free_of c (s +:+ v).
Proof. unfold free_of. by rewrite has_char_app; intros -> ->. Qed.

Definition request_lines (i : Inner) (op : Operation) : list string :=
  (λ out, request_series op out +:+ " " +:+ decimal (requests i op out)) <$> Outcome_ALL.

Lemma request_lines_free i op : Forall (free_of (byte 10)) (request_lines i op).
Proof.
  apply (value_line_free _ (request_series op)); [done| |intros; by apply decimal_no_char].
  destruct op; repeat constructor.
Qed.

Lemma request_lines_series i op :
  series_name <$> List.filter labelled (request_lines i op) = request_series op <$> Outcome_ALL.
Proof. apply value_line_series. destruct op; repeat constructor. Qed.

Lemma render_lines_no_newline i : Forall (free_of (byte 10)) (render_lines i).
Proof.
  unfold render_lines. rewrite !Forall_app.
  split_and!; [by repeat constructor| |by repeat constructor| |].
  - apply Forall_forall. intros l (op & Hl & _)%list_elem_of_bind.
    pose proof (request_lines_free i op) as Hf. rewrite Forall_forall in Hf. by apply Hf.
  - apply (value_line_free _ duration_series); [done|by repeat constructor|].
    intros op. by apply seconds_no_char.
  - apply Forall_cons; split; [reflexivity|].
    apply Forall_cons; split; [apply prefix_line_free; [reflexivity|by apply decimal_no_char]|].
    apply Forall_cons; split; [reflexivity|].
    apply Forall_cons; split; [apply prefix_line_free; [reflexivity|by apply decimal_no_char]|].
    apply Forall_nil_2.
Qed.

Lemma gauge_unlabelled s n : labelled s = false → labelled (s +:+ decimal n) = false.
Proof. intros. by apply prefix_line_free, decimal_no_char. Qed.

Lemma exposed_series_lines i : series_name <$> List.filter labelled (render_lines i) = all_series.
Proof.
  unfold render_lines, all_series. rewrite !List.filter_app, !fmap_app.
  cbn [List.filter]. rewrite !gauge_unlabelled by reflexivity.
  rewrite (value_line_series duration_series) by by repeat constructor.
  unfold Operation_ALL at 1. cbn [mbind list_bind]. rewrite !List.filter_app, !fmap_app.
  fold (request_lines i Embed) (request_lines i ListModels) (request_lines i AdminModel) (request_lines i OpHealth).
  rewrite !request_lines_series. reflexivity.
Qed.

(** Metrics cardinality cannot be expanded by requests: whatever was
    observed, the exposition carries exactly the fixed list of labelled series,
    each once, and their number is the advertised maximum. *)
Theorem cardinality_fixed m :
  poisoned m = false →
  exposed_series (render m) = all_series ∧ NoDup (exposed_series (render m)) ∧
  length (exposed_series (render m)) = maximum_labelled_series.
Proof.
  intros Hp. assert (exposed_series (render m) = all_series) as ->.
  { unfold exposed_series, render. rewrite Hp, lines_unlines by apply render_lines_no_newline.
    rewrite List.filter_app, fmap_app, exposed_series_lines. reflexivity. }
  split; [done|]. split; [|reflexivity]. apply (bool_decide_unpack _). vm_compute. done.
Qed.

Lemma cardinality_fixed_witness :
  poisoned (observe Embed OutOk 7 Metrics_default) = false ∧
  length (exposed_series (render (observe Embed OutOk 7 Metrics_default))) = 24%nat.
Proof.
  split; [reflexivity|]. apply (cardinality_fixed (observe Embed OutOk 7 Metrics_default)). reflexivity.
Defined.

(** One completed operation: its class, outcome and time in microseconds. *)
Definition observe_all (l : list (Operation * Outcome * N)) (m : Metrics) : Metrics :=
  foldl (λ m e, observe e.1.1 e.1.2 e.2 m) m l.
Definition seen (op : Operation) (out : Outcome) (l : list (Operation * Outcome * N)) : N :=
  len (List.filter (λ e, bool_decide (e.1.1 = op ∧ e.1.2 = out)) l).
Definition time_of (op : Operation) (l : list (Operation * Outcome * N)) : N :=
  sum_N (snd <$> List.filter (λ e, bool_decide (e.1.1 = op)) l).

Lemma observe_all_counts l m op out :
  poisoned m = false →
  (requests (inner m) op out < 2 ^ 64)%N → (durations_micros (inner m) op <= u64_max)%N →
  let m' := observe_all l m in
  poisoned m' = false ∧
  requests (inner m') op out = ((requests (inner m) op out + seen op out l) mod 2 ^ 64)%N ∧
  durations_micros (inner m') op = N.min (durations_micros (inner m) op + time_of op l) u64_max ∧
  queue_depth (inner m') = queue_depth (inner m) ∧ active (inner m') = active (inner m).
Proof.
  revert m. induction l as [|[[p q] t] l IH]; intros m Hp Hr Hd; simpl.
  - rewrite !N.add_0_r, N.mod_small, N.min_l by done. done.
  - destruct (IH (observe p q t m)) as (H1 & H2 & H3 & H4 & H5);
      unfold observe, locked; rewrite Hp; simpl; [done| | |].
    { case_decide; [|done]. apply N.mod_lt. lia. }
    { case_decide; [|done]. unfold saturating_add. lia. }
    unfold observe, locked in *. rewrite Hp in *. simpl in *.
    split; [done|]. rewrite H2, H3. split; [|split; [|done]]; clear.
    + unfold seen. simpl. case_decide as E.
      * rewrite bool_decide_eq_true_2 by (by destruct E as [-> ->]).
        rewrite len_cons. unfold wrapping_add.
        rewrite N.Div0.add_mod_idemp_l. f_equal. lia.
      * rewrite bool_decide_eq_false_2; [done|]. intros [-> ->]. by apply E.
    + unfold time_of. simpl. case_decide as E.
      * rewrite bool_decide_eq_true_2 by done. cbn [fmap list_fmap sum_N foldr snd].
        fold (sum_N (snd <$> List.filter (λ e, bool_decide (e.1.1 = op)) l)). unfold saturating_add, try_from.
        destruct (N.leb_spec t u64_max); simpl; lia.
      * rewrite bool_decide_eq_false_2; [done|]. intros ->. by apply E.
Qed.

(** Observation is exact and isolated: after any sequence of completed
    operations each counter is the number of operations of that class and outcome
    (modulo the 64-bit width), each duration the saturated sum of the times of
    that class, and the gauges are untouched. *)
Theorem observe_exact l op out :
  let m := observe_all l Metrics_default in
  requests (inner m) op out = (seen op out l mod 2 ^ 64)%N ∧
  durations_micros (inner m) op = N.min (time_of op l) u64_max ∧
  queue_depth (inner m) = 0%N ∧ active (inner m) = 0%N.
Proof.
  destruct (observe_all_counts l Metrics_default op out) as (_ & H1 & H2 & H3 & H4);
    [reflexivity|vm_compute; done|vm_compute; done|]. done.
Qed.

End Metrics.
