(* ===== verification/Std.v ===== *)
(** What the server relies on of Rust's standard library beyond [Prelude]:
    socket addresses and their parser ([core::net]), UTF-8 validation
    ([String::from_utf8]) and the observations a program makes of one open file
    handle.  None of it is code of the repository; the components below use it. *)

From stdpp Require Import base list strings.
From Stdlib Require Import NArith Lia Ascii.
From S2P Require Import Prelude.

Local Open Scope string_scope.
Local Open Scope list_scope.

(** * Socket addresses *)

Inductive IpAddr :=
| V4 (a b c d : N)
| V6 (segments : list N).

(** [SocketAddr]; an IPv6 socket address also has a flow label and a scope. *)
Record SocketAddr := mk_SocketAddr { ip : IpAddr; port : N; flowinfo : N; scope_id : N }.

#[export] Instance IpAddr_eq_dec : EqDecision IpAddr.
Proof. solve_decision. Defined.
#[export] Instance SocketAddr_eq_dec : EqDecision SocketAddr.
Proof. solve_decision. Defined.

Definition LOCALHOST_V6 : IpAddr := V6 [0; 0; 0; 0; 0; 0; 0; 1]%N.
(** [SocketAddr::new] *)
Definition SocketAddr_new (i : IpAddr) (p : N) : SocketAddr := mk_SocketAddr i p 0 0.

(** [IpAddr::is_loopback]: 127.0.0.0/8 or ::1. *)
Definition is_loopback (i : IpAddr) : bool :=
  match i with
  | V4 a _ _ _ => (a =? 127)%N
  | V6 s => bool_decide (s = [0; 0; 0; 0; 0; 0; 0; 1]%N)
  end.

(** ** The parser of [core::net]: a reader returns what it read and the rest. *)

Definition reader (A : Type) := string → option (A * string).

Definition read_given_char (c : ascii) : reader unit := λ s,
  match s with String d r => if Ascii.eqb c d then Some (tt, r) else None | EmptyString => None end.

Definition to_digit (radix : N) (c : ascii) : option N :=
  let v := byte_val c in
  let d := if is_ascii_digit c then Some (v - 48)%N
           else if in_range 97 102 c then Some (v - 87)%N
           else if in_range 65 70 c then Some (v - 55)%N else None in
  match d with Some d => if (d <? radix)%N then Some d else None | None => None end.

(** The longest run of digits: its value, its length and the rest. *)
Fixpoint read_digits (radix : N) (acc : N) (count : nat) (s : string) : N * nat * string :=
  match s with
  | EmptyString => (acc, count, s)
  | String c r =>
    match to_digit radix c with
    | Some d => read_digits radix (acc * radix + d) (S count) r
    | None => (acc, count, s)
    end
  end.

(** [read_number]: at most [max_digits] digits, at least one, no leading zero
    unless allowed, within [max]. *)
Definition read_number (radix : N) (max_digits : option nat) (allow_zero_prefix : bool) (max : N) : reader N :=
  λ s,
    let '(v, count, r) := read_digits radix 0 0 s in
    let leading_zero := match s with String c _ => Ascii.eqb c "0" | EmptyString => false end in
    if (count =? 0)%nat then None else
    if match max_digits with Some m => (m <? count)%nat | None => false end then None else
    if negb allow_zero_prefix && leading_zero && (1 <? count)%nat then None else
    if (v <=? max)%N then Some (v, r) else None.

(** [read_separator]: a separator before every element but the first. *)
Definition read_separator {A} (sep : ascii) (index : nat) (inner : reader A) : reader A := λ s,
  if (index =? 0)%nat then inner s
  else '(_, r) ← read_given_char sep s; inner r.

Definition read_ipv4_addr : reader (N * N * N * N) := λ s,
  let group i := read_separator "." i (read_number 10 (Some 3) false 255) in
  '(a, s) ← group 0 s; '(b, s) ← group 1 s; '(c, s) ← group 2 s; '(d, s) ← group 3 s;
  Some ((a, b, c, d), s).

(** [read_groups]: the groups read, whether an embedded IPv4 address ended them
    and the rest; [i] counts up to [limit]. *)
Fixpoint read_groups (fuel i limit : nat) (s : string) : list N * bool * string :=
  match fuel with
  | O => ([], false, s)
  | S fuel =>
    match (if (i <? limit - 1)%nat then read_separator ":" i read_ipv4_addr s else None) with
    | Some ((a, b, c, d), r) => ([(256 * a + b)%N; (256 * c + d)%N], true, r)
    | None =>
      match read_separator ":" i (read_number 16 (Some 4) true 65535) s with
      | Some (g, r) => let '(gs, v4, r') := read_groups fuel (S i) limit r in (g :: gs, v4, r')
      | None => ([], false, s)
      end
    end
  end.

Definition read_ipv6_addr : reader (list N) := λ s,
  let '(head, head_ipv4, s) := read_groups 8 0 8 s in
  if (length head =? 8)%nat then Some (head, s) else
  if head_ipv4 then None else
  '(_, s) ← read_given_char ":" s; '(_, s) ← read_given_char ":" s;
  let limit := (8 - (length head + 1))%nat in
  let '(tail, _, s) := read_groups limit 0 limit s in
  Some (head ++ replicate (8 - length head - length tail) 0%N ++ tail, s).

Definition read_port : reader N := λ s,
  '(_, s) ← read_given_char ":" s; read_number 10 None true 65535 s.

Definition read_socket_addr_v4 : reader SocketAddr := λ s,
  '((a, b, c, d), s) ← read_ipv4_addr s; '(p, s) ← read_port s;
  Some (mk_SocketAddr (V4 a b c d) p 0 0, s).

Definition read_socket_addr_v6 : reader SocketAddr := λ s,
  '(_, s) ← read_given_char "[" s;
  '(segs, s) ← read_ipv6_addr s;
  let '(scope, s) :=
    match ('(_, r) ← read_given_char "%" s; read_number 10 None true u32_max r) with
    | Some (n, r) => (n, r) | None => (0%N, s)
    end in
  '(_, s) ← read_given_char "]" s;
  '(p, s) ← read_port s;
  Some (mk_SocketAddr (V6 segs) p 0 scope, s).

(** [str::parse::<SocketAddr>] *)
Definition parse_socket_addr (s : string) : option SocketAddr :=
  match (match read_socket_addr_v4 s with Some x => Some x | None => read_socket_addr_v6 s end) with
  | Some (a, EmptyString) => Some a
  | _ => None
  end.

Example parse_v6 : parse_socket_addr "[::1]:8080" = Some (SocketAddr_new LOCALHOST_V6 8080).
Proof. vm_compute. reflexivity. Qed.
Example parse_v4 : parse_socket_addr "0.0.0.0:80" = Some (SocketAddr_new (V4 0 0 0 0) 80).
Proof. vm_compute. reflexivity. Qed.
Example parse_v4_zero : parse_socket_addr "127.0.0.01:80" = None.
Proof. vm_compute. reflexivity. Qed.
Example parse_v6_mapped :
  parse_socket_addr "[::ffff:10.0.0.1%3]:1" =
  Some (mk_SocketAddr (V6 [0; 0; 0; 0; 0; 65535; 2560; 1]%N) 1 0 3).
Proof. vm_compute. reflexivity. Qed.

(** * UTF-8 *)

Definition continuation (c : ascii) : bool := in_range 128 191 c.

(** [String::from_utf8(..).is_ok()]: the well-formed byte sequences of the
    Unicode standard, table 3-7. *)
Fixpoint utf8_valid_fuel (fuel : nat) (s : string) : bool :=
  match fuel with
  | O => str_is_empty s
  | S fuel =>
    match s with
    | EmptyString => true
    | String a r =>
      let n := byte_val a in
      if (n <? 128)%N then utf8_valid_fuel fuel r else
      match r with
      | EmptyString => false
      | String b r2 =>
        if ((194 <=? n) && (n <=? 223))%N then continuation b && utf8_valid_fuel fuel r2 else
        match r2 with
        | EmptyString => false
        | String c r3 =>
          let second := if (n =? 224)%N then in_range 160 191 b
                        else if (n =? 237)%N then in_range 128 159 b else continuation b in
          if ((224 <=? n) && (n <=? 239))%N then second && continuation c && utf8_valid_fuel fuel r3 else
          match r3 with
          | EmptyString => false
          | String d r4 =>
            let second := if (n =? 240)%N then in_range 144 191 b
                          else if (n =? 244)%N then in_range 128 143 b else continuation b in
            if ((240 <=? n) && (n <=? 244))%N
            then second && continuation c && continuation d && utf8_valid_fuel fuel r4 else false
          end
        end
      end
    end
  end.
Definition utf8_valid (s : string) : bool := utf8_valid_fuel (String.length s) s.

(** * File handles

    What a program that opens a file, asks for its metadata, reads it and asks
    again observes: each of the four calls may fail, and the file may change in
    between. *)

Record Metadata := mk_Metadata { is_file : bool; is_symlink : bool; md_len : N }.

Record FileTrace := mk_FileTrace {
  opened : result (option N) unit;     (** the raw OS error when opening fails *)
  initial_metadata : option Metadata;
  contents : option string;            (** all bytes up to the end of the file *)
  final_metadata : option Metadata;
}.

(** [Read::take(n).read_to_end] *)
Fixpoint str_take (n : nat) (s : string) : string :=
  match n, s with
  | S n, String c s => String c (str_take n s)
  | _, _ => EmptyString
  end.

(** A file that stays the same regular file while it is read. *)
Definition stable_file (bytes : string) : FileTrace :=
  let m := mk_Metadata true false (str_len bytes) in mk_FileTrace (Ok tt) (Some m) (Some bytes) (Some m).

Lemma str_take_all n s : (String.length s ≤ n)%nat → str_take n s = s.
Proof.
  revert n; induction s as [|c s IH]; intros [|n]; simpl; try done; [lia|].
  intros. rewrite IH; [done|lia].
Qed.

Lemma str_take_length n s : String.length (str_take n s) = (String.length s `min` n)%nat.
Proof. revert n; induction s as [|c s IH]; intros [|n]; simpl; [done..|]. by rewrite IH. Qed.

(** * Interfaces of third-party crates *)

(** The [url] crate: a parsed URL and the accessors the program uses. *)
Class UrlCrate := {
  Url : Type;
  url_parse : string → option Url;
  url_scheme : Url → string;
  url_host_str : Url → option string;
  url_username : Url → string;
  url_password : Url → option string;
  url_port_or_known_default : Url → option N;
  url_path : Url → string;
  url_query : Url → option string;
  url_fragment : Url → option string;
  url_as_str : Url → string;
  (** [Url::origin]: [None] for an opaque origin, otherwise its ASCII serialization. *)
  url_origin : Url → option string;
  (** [Url::join] *)
  url_join : Url → string → option Url;
}.

(** The [toml] crate's values and its document parser. *)
Inductive TomlValue :=
| TString (s : string)
| TInteger (z : Z)
| TFloat
| TBoolean (b : bool)
| TDatetime
| TArray (vs : list TomlValue)
| TTable (t : list (string * TomlValue)).

Class TomlCrate := { toml_parse_table : string → option (list (string * TomlValue)) }.

(** [i64::to_string], [bool::to_string] *)
Definition i64_to_string (z : Z) : string :=
  if (z <? 0)%Z then "-" +:+ decimal (Z.to_N (- z)) else decimal (Z.to_N z).
Definition bool_to_string (b : bool) : string := if b then "true" else "false".

(** A bounded read of one more byte than allowed loses nothing when the result
    is within the bound. *)
Lemma str_take_within n s :
  (String.length (str_take (S n) s) ≤ n)%nat → str_take (S n) s = s.
Proof.
  rewrite str_take_length. intros H. apply str_take_all. lia.
Qed.

(** The file was, for the whole read, one regular file that holds [text]. *)
Definition stable_read (f : FileTrace) (max : N) (text : string) : Prop :=
  contents f = Some text ∧ (str_len text <= max)%N ∧
  ∃ m m', initial_metadata f = Some m ∧ final_metadata f = Some m' ∧
    is_file m = true ∧ is_symlink m = false ∧ is_file m' = true ∧ is_symlink m' = false ∧
    md_len m = str_len text ∧ md_len m' = str_len text.

Lemma take_contents f max bytes :
  str_take (S (N.to_nat max)) <$> contents f = Some bytes → (str_len bytes <= max)%N → contents f = Some bytes.
Proof.
  intros (s & -> & Hs)%fmap_Some Hl. rewrite Hs in *. unfold str_len in Hl.
  rewrite str_take_within by lia. done.
Qed.

Lemma contents_take f max bytes :
  contents f = Some bytes → (str_len bytes <= max)%N → str_take (S (N.to_nat max)) <$> contents f = Some bytes.
Proof.
  intros -> Hl. cbn [fmap option_fmap option_map]. unfold str_len in Hl. by rewrite str_take_all by lia.
Qed.

(** A small instance of the URL interface, for absolute URLs without user
    information, query or fragment. *)
Definition simple_url_parse (s : string) : option (string * string * string) :=
  match str_split ":" s with
  | scheme :: _ :: _ =>
    match strip_prefix (scheme +:+ "://") s with
    | Some rest =>
      match str_split "/" rest with
      | host :: [] => Some (scheme, host, "/")
      | host :: path => Some (scheme, host, String.concat "/" ("" :: path))
      | [] => None
      end
    | None => None
    end
  | _ => None
  end.

Definition SimpleUrl : UrlCrate := {|
  Url := string * string * string;
  url_parse := simple_url_parse;
  url_scheme u := u.1.1;
  url_host_str u := Some u.1.2;
  url_username _ := "";
  url_password _ := None;
  url_port_or_known_default u := if String.eqb u.1.1 "https" then Some 443%N else Some 80%N;
  url_path u := u.2;
  url_query _ := None;
  url_fragment _ := None;
  url_as_str u := u.1.1 +:+ "://" +:+ u.1.2 +:+ u.2;
  url_origin u := Some (u.1.1 +:+ "://" +:+ u.1.2);
  url_join _ s := simple_url_parse s;
|}.

(** A small instance of the TOML interface: a document of one [key = true] line. *)
Definition SimpleToml : TomlCrate := {|
  toml_parse_table s :=
    match str_split " " s with
    | [key; "="; "true"] => Some [(key, TBoolean true)]
    | _ => None
    end;
|}.
