(* ===== verification/Config.v ===== *)
(** Typed configuration with deterministic precedence and secure defaults
    ([crates/impossible-server-core/src/config.rs]).  The TOML and URL crates are
    parameters; the merge of the three sources, every value parser and the
    validation are modelled in full. *)

From Stdlib Require Import ZArith NArith Lia Ascii.
From stdpp Require Import base countable strings gmap list.
From S2P Require Import Prelude Std.

Local Open Scope string_scope.
Local Open Scope list_scope.

Module Config.

(** * Data *)

Inductive CredentialSource := Environment (name : string) | File (path : string).
Inductive StartupPolicy := BestEffort | Strict.

(** [Debug for CredentialSource] *)
Definition CredentialSource_debug (c : CredentialSource) : string :=
  match c with Environment _ => "Environment([REDACTED])" | File _ => "File([REDACTED])" end.

(** [struct Limits]; the two durations are whole milliseconds. *)
Record Limits := mk_Limits {
  max_body_bytes : N;
  max_input_bytes : N;
  max_request_bytes : N;
  max_items : N;
  max_tokens : N;
  max_queue_depth : N;
  max_batch_items : N;
  max_batch_tokens : N;
  max_concurrency : N;
  request_timeout : N;
  shutdown_timeout : N;
}.

(** [Default for Limits] *)
Definition Limits_default : Limits :=
  mk_Limits (2 * 1024 * 1024) (256 * 1024) (1024 * 1024) 128 32768 256 128 32768 4 30000 20000.

Record ServerConfig := mk_ServerConfig {
  http_bind : SocketAddr;
  grpc_bind : SocketAddr;
  allow_insecure_remote : bool;
  auth : option CredentialSource;
  admin_auth : option CredentialSource;
  admin_api_enabled : bool;
  allowed_origins : list string;
  model_directories : list string;
  cache_directory : string;
  preload_models : list string;
  offline : bool;
  startup_policy : StartupPolicy;
  limits : Limits;
}.

(** [Default for ServerConfig] *)
Definition ServerConfig_default : ServerConfig :=
  mk_ServerConfig (SocketAddr_new LOCALHOST_V6 8080) (SocketAddr_new LOCALHOST_V6 50051)
    false None None true [] [] ".impossible-embedding-cache" [] false BestEffort Limits_default.

(** Assignment to one field. *)
Definition set_http_bind v c := mk_ServerConfig v (grpc_bind c) (allow_insecure_remote c) (auth c) (admin_auth c) (admin_api_enabled c) (allowed_origins c) (model_directories c) (cache_directory c) (preload_models c) (offline c) (startup_policy c) (limits c).
Definition set_grpc_bind v c := mk_ServerConfig (http_bind c) v (allow_insecure_remote c) (auth c) (admin_auth c) (admin_api_enabled c) (allowed_origins c) (model_directories c) (cache_directory c) (preload_models c) (offline c) (startup_policy c) (limits c).
Definition set_allow_insecure_remote v c := mk_ServerConfig (http_bind c) (grpc_bind c) v (auth c) (admin_auth c) (admin_api_enabled c) (allowed_origins c) (model_directories c) (cache_directory c) (preload_models c) (offline c) (startup_policy c) (limits c).
Definition set_auth v c := mk_ServerConfig (http_bind c) (grpc_bind c) (allow_insecure_remote c) v (admin_auth c) (admin_api_enabled c) (allowed_origins c) (model_directories c) (cache_directory c) (preload_models c) (offline c) (startup_policy c) (limits c).
Definition set_admin_auth v c := mk_ServerConfig (http_bind c) (grpc_bind c) (allow_insecure_remote c) (auth c) v (admin_api_enabled c) (allowed_origins c) (model_directories c) (cache_directory c) (preload_models c) (offline c) (startup_policy c) (limits c).
Definition set_admin_api_enabled v c := mk_ServerConfig (http_bind c) (grpc_bind c) (allow_insecure_remote c) (auth c) (admin_auth c) v (allowed_origins c) (model_directories c) (cache_directory c) (preload_models c) (offline c) (startup_policy c) (limits c).
Definition set_allowed_origins v c := mk_ServerConfig (http_bind c) (grpc_bind c) (allow_insecure_remote c) (auth c) (admin_auth c) (admin_api_enabled c) v (model_directories c) (cache_directory c) (preload_models c) (offline c) (startup_policy c) (limits c).
Definition set_model_directories v c := mk_ServerConfig (http_bind c) (grpc_bind c) (allow_insecure_remote c) (auth c) (admin_auth c) (admin_api_enabled c) (allowed_origins c) v (cache_directory c) (preload_models c) (offline c) (startup_policy c) (limits c).
Definition set_cache_directory v c := mk_ServerConfig (http_bind c) (grpc_bind c) (allow_insecure_remote c) (auth c) (admin_auth c) (admin_api_enabled c) (allowed_origins c) (model_directories c) v (preload_models c) (offline c) (startup_policy c) (limits c).
Definition set_preload_models v c := mk_ServerConfig (http_bind c) (grpc_bind c) (allow_insecure_remote c) (auth c) (admin_auth c) (admin_api_enabled c) (allowed_origins c) (model_directories c) (cache_directory c) v (offline c) (startup_policy c) (limits c).
Definition set_offline v c := mk_ServerConfig (http_bind c) (grpc_bind c) (allow_insecure_remote c) (auth c) (admin_auth c) (admin_api_enabled c) (allowed_origins c) (model_directories c) (cache_directory c) (preload_models c) v (startup_policy c) (limits c).
Definition set_startup_policy v c := mk_ServerConfig (http_bind c) (grpc_bind c) (allow_insecure_remote c) (auth c) (admin_auth c) (admin_api_enabled c) (allowed_origins c) (model_directories c) (cache_directory c) (preload_models c) (offline c) v (limits c).
Definition set_limits v c := mk_ServerConfig (http_bind c) (grpc_bind c) (allow_insecure_remote c) (auth c) (admin_auth c) (admin_api_enabled c) (allowed_origins c) (model_directories c) (cache_directory c) (preload_models c) (offline c) (startup_policy c) v.
Definition set_max_body_bytes v c := let l := limits c in set_limits (mk_Limits v (max_input_bytes l) (max_request_bytes l) (max_items l) (max_tokens l) (max_queue_depth l) (max_batch_items l) (max_batch_tokens l) (max_concurrency l) (request_timeout l) (shutdown_timeout l)) c.
Definition set_max_input_bytes v c := let l := limits c in set_limits (mk_Limits (max_body_bytes l) v (max_request_bytes l) (max_items l) (max_tokens l) (max_queue_depth l) (max_batch_items l) (max_batch_tokens l) (max_concurrency l) (request_timeout l) (shutdown_timeout l)) c.
Definition set_max_request_bytes v c := let l := limits c in set_limits (mk_Limits (max_body_bytes l) (max_input_bytes l) v (max_items l) (max_tokens l) (max_queue_depth l) (max_batch_items l) (max_batch_tokens l) (max_concurrency l) (request_timeout l) (shutdown_timeout l)) c.
Definition set_max_items v c := let l := limits c in set_limits (mk_Limits (max_body_bytes l) (max_input_bytes l) (max_request_bytes l) v (max_tokens l) (max_queue_depth l) (max_batch_items l) (max_batch_tokens l) (max_concurrency l) (request_timeout l) (shutdown_timeout l)) c.
Definition set_max_tokens v c := let l := limits c in set_limits (mk_Limits (max_body_bytes l) (max_input_bytes l) (max_request_bytes l) (max_items l) v (max_queue_depth l) (max_batch_items l) (max_batch_tokens l) (max_concurrency l) (request_timeout l) (shutdown_timeout l)) c.
Definition set_max_queue_depth v c := let l := limits c in set_limits (mk_Limits (max_body_bytes l) (max_input_bytes l) (max_request_bytes l) (max_items l) (max_tokens l) v (max_batch_items l) (max_batch_tokens l) (max_concurrency l) (request_timeout l) (shutdown_timeout l)) c.
Definition set_max_batch_items v c := let l := limits c in set_limits (mk_Limits (max_body_bytes l) (max_input_bytes l) (max_request_bytes l) (max_items l) (max_tokens l) (max_queue_depth l) v (max_batch_tokens l) (max_concurrency l) (request_timeout l) (shutdown_timeout l)) c.
Definition set_max_batch_tokens v c := let l := limits c in set_limits (mk_Limits (max_body_bytes l) (max_input_bytes l) (max_request_bytes l) (max_items l) (max_tokens l) (max_queue_depth l) (max_batch_items l) v (max_concurrency l) (request_timeout l) (shutdown_timeout l)) c.
Definition set_max_concurrency v c := let l := limits c in set_limits (mk_Limits (max_body_bytes l) (max_input_bytes l) (max_request_bytes l) (max_items l) (max_tokens l) (max_queue_depth l) (max_batch_items l) (max_batch_tokens l) v (request_timeout l) (shutdown_timeout l)) c.
Definition set_request_timeout v c := let l := limits c in set_limits (mk_Limits (max_body_bytes l) (max_input_bytes l) (max_request_bytes l) (max_items l) (max_tokens l) (max_queue_depth l) (max_batch_items l) (max_batch_tokens l) (max_concurrency l) v (shutdown_timeout l)) c.
Definition set_shutdown_timeout v c := let l := limits c in set_limits (mk_Limits (max_body_bytes l) (max_input_bytes l) (max_request_bytes l) (max_items l) (max_tokens l) (max_queue_depth l) (max_batch_items l) (max_batch_tokens l) (max_concurrency l) (request_timeout l) v) c.

Inductive ConfigKey :=
| HttpBind | GrpcBind | AllowInsecureRemote | AuthEnv | AuthTokenPresent
| AuthFile | AdminAuthEnv | AdminAuthTokenPresent | AdminAuthFile | AdminApiEnabled
| AllowedOrigins | ModelDirectories | CacheDirectory | PreloadModels | Offline
| StartupPolicyKey | MaxBodyBytes | MaxInputBytes | MaxRequestBytes | MaxItems
| MaxTokens | MaxQueueDepth | MaxBatchItems | MaxBatchTokens | MaxConcurrency
| RequestTimeout | ShutdownTimeout | TomlKey | PathKey.

(** The keys in declaration order, which is the derived [Ord] the patches iterate in. *)
Definition ALL_KEYS : list ConfigKey :=
  [HttpBind; GrpcBind; AllowInsecureRemote; AuthEnv; AuthTokenPresent;
   AuthFile; AdminAuthEnv; AdminAuthTokenPresent; AdminAuthFile; AdminApiEnabled;
   AllowedOrigins; ModelDirectories; CacheDirectory; PreloadModels; Offline;
   StartupPolicyKey; MaxBodyBytes; MaxInputBytes; MaxRequestBytes; MaxItems;
   MaxTokens; MaxQueueDepth; MaxBatchItems; MaxBatchTokens; MaxConcurrency;
   RequestTimeout; ShutdownTimeout; TomlKey; PathKey].

(** [ConfigKey::as_str] *)
Definition ConfigKey_as_str (k : ConfigKey) : string :=
  match k with
  | HttpBind => "http_bind"
  | GrpcBind => "grpc_bind"
  | AllowInsecureRemote => "allow_insecure_remote"
  | AuthEnv => "auth_env"
  | AuthTokenPresent => "auth_token_present"
  | AuthFile => "auth_file"
  | AdminAuthEnv => "admin_auth_env"
  | AdminAuthTokenPresent => "admin_auth_token_present"
  | AdminAuthFile => "admin_auth_file"
  | AdminApiEnabled => "admin_api_enabled"
  | AllowedOrigins => "allowed_origins"
  | ModelDirectories => "model_directories"
  | CacheDirectory => "cache_directory"
  | PreloadModels => "preload_models"
  | Offline => "offline"
  | StartupPolicyKey => "startup_policy"
  | MaxBodyBytes => "limits.max_body_bytes"
  | MaxInputBytes => "limits.max_input_bytes"
  | MaxRequestBytes => "limits.max_request_bytes"
  | MaxItems => "limits.max_items"
  | MaxTokens => "limits.max_tokens"
  | MaxQueueDepth => "limits.max_queue_depth"
  | MaxBatchItems => "limits.max_batch_items"
  | MaxBatchTokens => "limits.max_batch_tokens"
  | MaxConcurrency => "limits.max_concurrency"
  | RequestTimeout => "limits.request_timeout_ms"
  | ShutdownTimeout => "limits.shutdown_timeout_ms"
  | TomlKey => "toml"
  | PathKey => "path"
  end.

#[global] Instance ConfigKey_eq_dec : EqDecision ConfigKey.
Proof. solve_decision. Defined.

Definition key_index (k : ConfigKey) : nat :=
  match k with
  | HttpBind => 0 | GrpcBind => 1 | AllowInsecureRemote => 2 | AuthEnv => 3 | AuthTokenPresent => 4
  | AuthFile => 5 | AdminAuthEnv => 6 | AdminAuthTokenPresent => 7 | AdminAuthFile => 8 | AdminApiEnabled => 9
  | AllowedOrigins => 10 | ModelDirectories => 11 | CacheDirectory => 12 | PreloadModels => 13 | Offline => 14
  | StartupPolicyKey => 15 | MaxBodyBytes => 16 | MaxInputBytes => 17 | MaxRequestBytes => 18 | MaxItems => 19
  | MaxTokens => 20 | MaxQueueDepth => 21 | MaxBatchItems => 22 | MaxBatchTokens => 23 | MaxConcurrency => 24
  | RequestTimeout => 25 | ShutdownTimeout => 26 | TomlKey => 27 | PathKey => 28
  end.

#[global] Instance ConfigKey_countable : Countable ConfigKey.
Proof. apply (inj_countable key_index (λ n, ALL_KEYS !! n)). by intros []. Defined.

Inductive ConfigSource := FromToml | FromEnvironment | FromCommandLine | FromValidation.

Inductive ConfigError :=
| UnknownKey (source : ConfigSource)
| InvalidValue (key : ConfigKey) (reason : string)
| MissingValue (key : ConfigKey)
| UnexpectedArgument
| ConfigFileUnavailable
| UnsafeRemoteBind
| InvalidAdminCredentialPolicy.

#[global] Instance ConfigSource_eq_dec : EqDecision ConfigSource.
Proof. solve_decision. Defined.
#[global] Instance ConfigError_eq_dec : EqDecision ConfigError.
Proof. solve_decision. Defined.
#[global] Instance CredentialSource_eq_dec : EqDecision CredentialSource.
Proof. solve_decision. Defined.
#[global] Instance StartupPolicy_eq_dec : EqDecision StartupPolicy.
Proof. solve_decision. Defined.

(** [ConfigSource::as_str] *)
Definition ConfigSource_as_str (s : ConfigSource) : string :=
  match s with
  | FromToml => "TOML" | FromEnvironment => "environment"
  | FromCommandLine => "command line" | FromValidation => "validation"
  end.

(** [Display for ConfigError] *)
Definition ConfigError_display (e : ConfigError) : string :=
  match e with
  | UnknownKey s => "unknown configuration key in " +:+ ConfigSource_as_str s
  | InvalidValue k r => "invalid value for " +:+ ConfigKey_as_str k +:+ ": " +:+ r
  | MissingValue k => "missing value for " +:+ ConfigKey_as_str k
  | UnexpectedArgument => "unexpected positional argument"
  | ConfigFileUnavailable => "configuration file is unavailable"
  | UnsafeRemoteBind => "non-loopback binding requires authentication or an explicit insecure override"
  | InvalidAdminCredentialPolicy => "administrative APIs require a separate credential source"
  end.

Record ConfigDiagnostic := mk_ConfigDiagnostic {
  code : string; source : ConfigSource; key : option ConfigKey; reason : option string;
}.
(** [ConfigError::diagnostic] *)
Definition diagnostic (e : ConfigError) : ConfigDiagnostic :=
  match e with
  | UnknownKey s => mk_ConfigDiagnostic "config_unknown_key" s None None
  | InvalidValue k r => mk_ConfigDiagnostic "config_invalid_value" FromValidation (Some k) (Some r)
  | MissingValue k => mk_ConfigDiagnostic "config_missing_value" FromCommandLine (Some k) None
  | UnexpectedArgument => mk_ConfigDiagnostic "config_unexpected_argument" FromCommandLine None None
  | ConfigFileUnavailable => mk_ConfigDiagnostic "config_file_unavailable" FromToml None None
  | UnsafeRemoteBind => mk_ConfigDiagnostic "config_unsafe_remote_bind" FromValidation (Some HttpBind) None
  | InvalidAdminCredentialPolicy =>
    mk_ConfigDiagnostic "config_invalid_admin_credential_policy" FromValidation (Some AdminAuthEnv) None
  end.

(** * Value parsers *)

Definition parse_bool (v : string) : option bool :=
  if String.eqb v "true" || String.eqb v "1" then Some true else
  if String.eqb v "false" || String.eqb v "0" then Some false else None.

Definition parse_usize (v : string) (k : ConfigKey) : result ConfigError N :=
  ok_or (parse_unsigned usize_max v) (InvalidValue k "expected positive integer").
Definition parse_duration (v : string) (k : ConfigKey) : result ConfigError N :=
  ok_or (parse_unsigned u64_max v) (InvalidValue k "expected milliseconds").

Definition env_name_char (c : ascii) : bool :=
  Ascii.eqb c "_" || is_ascii_uppercase c || is_ascii_digit c.
Definition validate_env_name (v : string) (k : ConfigKey) : result ConfigError string :=
  ensure negb (str_is_empty v || negb (str_forall env_name_char v))
    else InvalidValue k "expected an uppercase environment variable name" in Ok v.

Inductive PatchValue := Scalar (v : string) | PList (vs : list string).
Abbreviation Patch := (gmap ConfigKey PatchValue).

Definition list_value (v : PatchValue) (k : ConfigKey) : result ConfigError (list string) :=
  let values := match v with Scalar s => trim <$> str_split "," s | PList vs => vs end in
  ensure negb (existsb str_is_empty values) else InvalidValue k "list entries must not be empty" in
  Ok values.

(** [parse_key] *)
Definition key_names : list (string * ConfigKey) :=
  [("http_bind", HttpBind);
   ("grpc_bind", GrpcBind);
   ("allow_insecure_remote", AllowInsecureRemote);
   ("auth_env", AuthEnv);
   ("auth_token_present", AuthTokenPresent);
   ("auth_file", AuthFile);
   ("admin_auth_env", AdminAuthEnv);
   ("admin_auth_token_present", AdminAuthTokenPresent);
   ("admin_auth_file", AdminAuthFile);
   ("admin_api_enabled", AdminApiEnabled);
   ("allowed_origins", AllowedOrigins);
   ("model_directories", ModelDirectories);
   ("cache_directory", CacheDirectory);
   ("preload_models", PreloadModels);
   ("offline", Offline);
   ("startup_policy", StartupPolicyKey);
   ("limits.max_body_bytes", MaxBodyBytes);
   ("limits.max_input_bytes", MaxInputBytes);
   ("limits.max_request_bytes", MaxRequestBytes);
   ("limits.max_items", MaxItems);
   ("limits.max_tokens", MaxTokens);
   ("limits.max_queue_depth", MaxQueueDepth);
   ("limits.max_batch_items", MaxBatchItems);
   ("limits.max_batch_tokens", MaxBatchTokens);
   ("limits.max_concurrency", MaxConcurrency);
   ("limits.request_timeout_ms", RequestTimeout);
   ("limits.shutdown_timeout_ms", ShutdownTimeout)].

Definition lookup_name {A} (table : list (string * A)) (s : string) : option A :=
  snd <$> List.find (λ p, String.eqb p.1 s) table.
Definition parse_key (s : string) : option ConfigKey := lookup_name key_names s.

(** The names [parse_environment] recognises after the prefix. *)
Definition env_names : list (string * ConfigKey) :=
  [("HTTP_BIND", HttpBind);
   ("GRPC_BIND", GrpcBind);
   ("ALLOW_INSECURE_REMOTE", AllowInsecureRemote);
   ("AUTH_ENV", AuthEnv);
   ("AUTH_TOKEN", AuthTokenPresent);
   ("AUTH_FILE", AuthFile);
   ("ADMIN_AUTH_ENV", AdminAuthEnv);
   ("ADMIN_AUTH_TOKEN", AdminAuthTokenPresent);
   ("ADMIN_AUTH_FILE", AdminAuthFile);
   ("ADMIN_API_ENABLED", AdminApiEnabled);
   ("ALLOWED_ORIGINS", AllowedOrigins);
   ("MODEL_DIRECTORIES", ModelDirectories);
   ("CACHE_DIRECTORY", CacheDirectory);
   ("PRELOAD_MODELS", PreloadModels);
   ("OFFLINE", Offline);
   ("STARTUP_POLICY", StartupPolicyKey);
   ("MAX_BODY_BYTES", MaxBodyBytes);
   ("MAX_INPUT_BYTES", MaxInputBytes);
   ("MAX_REQUEST_BYTES", MaxRequestBytes);
   ("MAX_ITEMS", MaxItems);
   ("MAX_TOKENS", MaxTokens);
   ("MAX_QUEUE_DEPTH", MaxQueueDepth);
   ("MAX_BATCH_ITEMS", MaxBatchItems);
   ("MAX_BATCH_TOKENS", MaxBatchTokens);
   ("MAX_CONCURRENCY", MaxConcurrency);
   ("REQUEST_TIMEOUT_MS", RequestTimeout);
   ("SHUTDOWN_TIMEOUT_MS", ShutdownTimeout)].

(** * Applying a patch *)

Definition scalar (k : ConfigKey) (v : PatchValue) : result ConfigError string :=
  match v with Scalar s => Ok s | PList _ => Err (InvalidValue k "expected scalar value") end.

(** [apply_value] *)
Definition apply_value (t : ServerConfig) (k : ConfigKey) (v : PatchValue) : result ConfigError ServerConfig :=
  let invalid r := InvalidValue k r in
  match k with
  | HttpBind => let? s := scalar k v in let? a := ok_or (parse_socket_addr s) (invalid "expected socket address") in
    Ok (set_http_bind a t)
  | GrpcBind => let? s := scalar k v in let? a := ok_or (parse_socket_addr s) (invalid "expected socket address") in
    Ok (set_grpc_bind a t)
  | AllowInsecureRemote => let? s := scalar k v in let? b := ok_or (parse_bool s) (invalid "expected boolean") in
    Ok (set_allow_insecure_remote b t)
  | AuthEnv => let? s := scalar k v in let? n := validate_env_name s k in Ok (set_auth (Some (Environment n)) t)
  | AuthTokenPresent => let? s := scalar k v in Ok (set_auth (Some (Environment s)) t)
  | AuthFile => let? s := scalar k v in Ok (set_auth (Some (File s)) t)
  | AdminAuthEnv => let? s := scalar k v in let? n := validate_env_name s k in Ok (set_admin_auth (Some (Environment n)) t)
  | AdminAuthTokenPresent => let? s := scalar k v in Ok (set_admin_auth (Some (Environment s)) t)
  | AdminAuthFile => let? s := scalar k v in Ok (set_admin_auth (Some (File s)) t)
  | AdminApiEnabled => let? s := scalar k v in let? b := ok_or (parse_bool s) (invalid "expected boolean") in
    Ok (set_admin_api_enabled b t)
  | AllowedOrigins => let? l := list_value v k in Ok (set_allowed_origins l t)
  | ModelDirectories => let? l := list_value v k in Ok (set_model_directories l t)
  | CacheDirectory => let? s := scalar k v in Ok (set_cache_directory s t)
  | PreloadModels => let? l := list_value v k in Ok (set_preload_models l t)
  | Offline => let? s := scalar k v in let? b := ok_or (parse_bool s) (invalid "expected boolean") in
    Ok (set_offline b t)
  | StartupPolicyKey => let? s := scalar k v in
    if String.eqb s "best_effort" then Ok (set_startup_policy BestEffort t) else
    if String.eqb s "strict" then Ok (set_startup_policy Strict t) else
    Err (invalid "expected best_effort or strict")
  | MaxBodyBytes => let? s := scalar k v in let? n := parse_usize s k in Ok (set_max_body_bytes n t)
  | MaxInputBytes => let? s := scalar k v in let? n := parse_usize s k in Ok (set_max_input_bytes n t)
  | MaxRequestBytes => let? s := scalar k v in let? n := parse_usize s k in Ok (set_max_request_bytes n t)
  | MaxItems => let? s := scalar k v in let? n := parse_usize s k in Ok (set_max_items n t)
  | MaxTokens => let? s := scalar k v in let? n := parse_usize s k in Ok (set_max_tokens n t)
  | MaxQueueDepth => let? s := scalar k v in let? n := parse_usize s k in Ok (set_max_queue_depth n t)
  | MaxBatchItems => let? s := scalar k v in let? n := parse_usize s k in Ok (set_max_batch_items n t)
  | MaxBatchTokens => let? s := scalar k v in let? n := parse_usize s k in Ok (set_max_batch_tokens n t)
  | MaxConcurrency => let? s := scalar k v in let? n := parse_usize s k in Ok (set_max_concurrency n t)
  | RequestTimeout => let? s := scalar k v in let? n := parse_duration s k in Ok (set_request_timeout n t)
  | ShutdownTimeout => let? s := scalar k v in let? n := parse_duration s k in Ok (set_shutdown_timeout n t)
  | TomlKey | PathKey => Err (invalid "field is not directly configurable")
  end.

(** [Patch::set] *)
Definition patch_set (k : ConfigKey) (v : PatchValue) (p : Patch) : result ConfigError Patch :=
  match p !! k with
  | Some _ => Err (InvalidValue k "duplicate key in one configuration source")
  | None => Ok (<[k := v]> p)
  end.

Definition contains_key (p : Patch) (k : ConfigKey) : bool :=
  match p !! k with Some _ => true | None => false end.

(** The mutually exclusive credential keys that [Patch::apply] checks. *)
Definition alternatives : list (list ConfigKey) :=
  [[AuthEnv; AuthFile; AuthTokenPresent]; [AdminAuthEnv; AdminAuthFile; AdminAuthTokenPresent]].

Fixpoint check_alternatives (p : Patch) (groups : list (list ConfigKey)) : result ConfigError unit :=
  match groups with
  | [] => Ok tt
  | g :: groups =>
    ensure negb (1 <? length (List.filter (contains_key p) g))%nat
      else InvalidValue (hd AuthEnv g) "configure exactly one credential source" in
    check_alternatives p groups
  end.

Fixpoint apply_keys (keys : list ConfigKey) (p : Patch) (t : ServerConfig) : result ConfigError ServerConfig :=
  match keys with
  | [] => Ok t
  | k :: keys =>
    match p !! k with
    | None => apply_keys keys p t
    | Some v => let? t' := apply_value t k v in apply_keys keys p t'
    end
  end.

(** [Patch::apply]: the entries of the map in key order. *)
Definition apply (p : Patch) (t : ServerConfig) : result ConfigError ServerConfig :=
  let? _ := check_alternatives p alternatives in apply_keys ALL_KEYS p t.

(** * The three sources *)

Section sources.
Context {U : UrlCrate} {T : TomlCrate}.

(** [value.as_str()] on an array element *)
Definition toml_as_str (v : TomlValue) : option string :=
  match v with TString s => Some s | _ => None end.

(** [insert_toml_value] *)
Definition insert_toml_value (p : Patch) (k : ConfigKey) (v : TomlValue) : result ConfigError Patch :=
  let? v :=
    match v with
    | TString s => Ok (Scalar s)
    | TInteger z => Ok (Scalar (i64_to_string z))
    | TBoolean b => Ok (Scalar (bool_to_string b))
    | TArray vs =>
      let? l := result_map (λ v, ok_or (toml_as_str v) (InvalidValue k "expected an array of strings")) vs in
      Ok (PList l)
    | _ => Err (InvalidValue k "unsupported TOML value type")
    end in
  patch_set k v p.

(** One entry of a table whose keys carry a prefix. *)
Fixpoint insert_toml_entries (prefix : string) (p : Patch) (t : list (string * TomlValue))
    : result ConfigError Patch :=
  match t with
  | [] => Ok p
  | (name, v) :: t =>
    let? k := ok_or (parse_key (prefix +:+ name)) (UnknownKey FromToml) in
    let? p := insert_toml_value p k v in
    insert_toml_entries prefix p t
  end.

Fixpoint insert_toml_table (p : Patch) (t : list (string * TomlValue)) : result ConfigError Patch :=
  match t with
  | [] => Ok p
  | (name, v) :: t =>
    let? p :=
      if String.eqb name "limits" then
        match v with
        | TTable limits => insert_toml_entries "limits." p limits
        | _ => Err (InvalidValue TomlKey "expected table")
        end
      else insert_toml_entries "" p [(name, v)] in
    insert_toml_table p t
  end.

(** [parse_toml] *)
Definition parse_toml (input : string) : result ConfigError Patch :=
  let? table := ok_or (toml_parse_table input) (InvalidValue TomlKey "invalid TOML document") in
  insert_toml_table ∅ table.

Definition is_token_key (k : ConfigKey) : bool :=
  bool_decide (k = AuthTokenPresent ∨ k = AdminAuthTokenPresent).

Fixpoint insert_environment (p : Patch) (env : list (string * string)) : result ConfigError Patch :=
  match env with
  | [] => Ok p
  | (name, v) :: env =>
    match strip_prefix "IMPOSSIBLE_" name with
    | None => insert_environment p env
    | Some suffix =>
      let? k := ok_or (lookup_name env_names suffix) (UnknownKey FromEnvironment) in
      let? p :=
        if is_token_key k then
          ensure negb (str_is_empty v) else InvalidValue k "credential must not be empty" in
          patch_set k (Scalar name) p
        else patch_set k (Scalar v) p in
      insert_environment p env
    end
  end.

(** [parse_environment] *)
Definition parse_environment (env : list (string * string)) : result ConfigError Patch :=
  insert_environment ∅ env.

(** [credential_like_option] *)
Definition credential_like_option (o : string) : bool :=
  String.eqb o "auth" || str_contains "token" o || str_contains "secret" o ||
  str_contains "password" o || str_contains "credential" o || str_contains "api_key" o.

Definition underscore (c : ascii) : ascii := if Ascii.eqb c "-" then "_"%char else c.

(** The limit options whose names lack the table prefix. *)
Definition cli_limit_names : list string :=
  ["max_body_bytes"; "max_input_bytes"; "max_request_bytes"; "max_items"; "max_tokens";
   "max_queue_depth"; "max_batch_items"; "max_batch_tokens"; "max_concurrency";
   "request_timeout_ms"; "shutdown_timeout_ms"].
Definition cli_name (n : string) : string :=
  if existsb (String.eqb n) cli_limit_names then "limits." +:+ n else n.

(** [parse_cli]: one option and, unless it is a flag, the argument after it. *)
Fixpoint insert_cli (p : Patch) (args : list string) : result ConfigError Patch :=
  match args with
  | [] => Ok p
  | argument :: args =>
    let? option := ok_or (strip_prefix "--" argument) UnexpectedArgument in
    let option_name := hd "" (str_split "=" option) in
    let normalized_name := str_map underscore option_name in
    ensure negb (credential_like_option normalized_name) else UnknownKey FromCommandLine in
    let? k := ok_or (parse_key (cli_name normalized_name)) (UnknownKey FromCommandLine) in
    ensure negb (has_char "=" option) else InvalidValue k "inline option values are not supported" in
    if bool_decide (k = AllowInsecureRemote ∨ k = Offline)
    then let? p := patch_set k (Scalar "true") p in insert_cli p args
    else match args with
         | [] => Err (MissingValue k)
         | v :: args => let? p := patch_set k (Scalar v) p in insert_cli p args
         end
  end.
Definition parse_cli (args : list string) : result ConfigError Patch := insert_cli ∅ args.

(** * Validation *)

(** [valid_origin] *)
Definition valid_origin (origin : string) : bool :=
  if str_is_empty origin || has_char "*" origin then false else
  match url_parse origin with
  | None => false
  | Some u =>
    if negb (String.eqb (url_scheme u) "http" || String.eqb (url_scheme u) "https")
       || bool_decide (url_host_str u = None) || negb (str_is_empty (url_username u))
       || bool_decide (url_password u ≠ None) || negb (String.eqb (url_path u) "/")
       || bool_decide (url_query u ≠ None) || bool_decide (url_fragment u ≠ None)
    then false
    else match url_origin u with
         | None => false
         | Some serialization => String.eqb serialization origin
         end
  end.

Definition MIB : N := 1024 * 1024.

(** The closed intervals of [validate_bounds]. *)
Definition bound_table (l : Limits) : list (ConfigKey * N * N * N) :=
  [(MaxBodyBytes, max_body_bytes l, 1, 64 * MIB); (MaxInputBytes, max_input_bytes l, 1, 64 * MIB);
   (MaxRequestBytes, max_request_bytes l, 1, 64 * MIB); (MaxItems, max_items l, 1, 4096);
   (MaxTokens, max_tokens l, 1, 1000000); (MaxQueueDepth, max_queue_depth l, 1, 100000);
   (MaxBatchItems, max_batch_items l, 1, 4096); (MaxBatchTokens, max_batch_tokens l, 1, 10000000);
   (MaxConcurrency, max_concurrency l, 1, 1024);
   (RequestTimeout, request_timeout l, 10, 600000); (ShutdownTimeout, shutdown_timeout l, 10, 600000)]%N.

Fixpoint check_bounds (t : list (ConfigKey * N * N * N)) : result ConfigError unit :=
  match t with
  | [] => Ok tt
  | (k, v, lo, hi) :: t =>
    ensure ((lo <=? v) && (v <=? hi))%N else InvalidValue k "outside supported bounds" in check_bounds t
  end.

(** [validate_bounds] *)
Definition validate_bounds (l : Limits) : result ConfigError unit :=
  let? _ := check_bounds (bound_table l) in
  ensure (max_items l <=? max_batch_items l)%N else InvalidValue MaxBatchItems "must be at least limits.max_items" in
  ensure (max_input_bytes l <=? max_request_bytes l)%N
    else InvalidValue MaxRequestBytes "must be at least limits.max_input_bytes" in
  ensure (max_request_bytes l <=? max_body_bytes l)%N
    else InvalidValue MaxRequestBytes "must not exceed limits.max_body_bytes" in
  ensure (max_tokens l <=? max_batch_tokens l)%N
    else InvalidValue MaxBatchTokens "must be at least limits.max_tokens" in
  Ok tt.

(** The preload scan; [seen] is the [HashSet] it fills. *)
Fixpoint bad_preload (seen : list string) (models : list string) : bool :=
  match models with
  | [] => false
  | m :: models =>
    is_blank m || (512 <? str_len m)%N || has_control m || bool_decide (m ∈ seen) ||
    bad_preload (m :: seen) models
  end.

Definition remotely_exposed (c : ServerConfig) : bool :=
  negb (is_loopback (ip (http_bind c))) || negb (is_loopback (ip (grpc_bind c))).

(** [ServerConfig::validate] *)
Definition validate (c : ServerConfig) : result ConfigError unit :=
  ensure negb (remotely_exposed c && bool_decide (auth c = None) && negb (allow_insecure_remote c))
    else UnsafeRemoteBind in
  ensure negb ((bool_decide (admin_auth c ≠ None) && bool_decide (admin_auth c = auth c))
               || (remotely_exposed c && admin_api_enabled c && bool_decide (admin_auth c = None)))
    else InvalidAdminCredentialPolicy in
  ensure negb (bool_decide (http_bind c = grpc_bind c))
    else InvalidValue GrpcBind "HTTP and gRPC listeners must use distinct addresses" in
  ensure negb (str_is_empty (cache_directory c))
    else InvalidValue CacheDirectory "cache directory must not be empty" in
  ensure negb (bad_preload [] (preload_models c))
    else InvalidValue PreloadModels "preload models must be unique, bounded, non-empty identifiers" in
  let? _ := validate_bounds (limits c) in
  ensure negb (existsb (λ o, negb (valid_origin o)) (allowed_origins c))
    else InvalidValue AllowedOrigins "origins must be exact HTTP(S) origins without wildcards" in
  Ok tt.

(** * Loading *)

Definition MAX_CONFIG_FILE_BYTES : N := 256 * 1024.

(** [safe_regular_config] (Unix) *)
Definition safe_regular_config (m : Metadata) : bool := is_file m && negb (is_symlink m).

(** [read_config_file] *)
Definition read_config_file (f : FileTrace) : result ConfigError string :=
  let? _ := map_err (λ _, ConfigFileUnavailable) (opened f) in
  let? initial := ok_or (initial_metadata f) ConfigFileUnavailable in
  ensure negb (negb (safe_regular_config initial) || (MAX_CONFIG_FILE_BYTES <? md_len initial)%N)
    else ConfigFileUnavailable in
  let? bytes := ok_or (str_take (S (N.to_nat MAX_CONFIG_FILE_BYTES)) <$> contents f) ConfigFileUnavailable in
  let? final := ok_or (final_metadata f) ConfigFileUnavailable in
  ensure negb (negb (safe_regular_config final) || (MAX_CONFIG_FILE_BYTES <? str_len bytes)%N
               || negb (md_len final =? md_len initial)%N || negb (md_len final =? str_len bytes)%N)
    else ConfigFileUnavailable in
  ensure utf8_valid bytes else ConfigFileUnavailable in
  Ok bytes.

(** [ServerConfig::load] *)
Definition load (toml : option FileTrace) (env : list (string * string)) (cli : list string)
    : result ConfigError ServerConfig :=
  let? config :=
    match toml with
    | None => Ok ServerConfig_default
    | Some f =>
      let? text := read_config_file f in
      let? p := parse_toml text in apply p ServerConfig_default
    end in
  let? pe := parse_environment env in
  let? config := apply pe config in
  let? pc := parse_cli cli in
  let? config := apply pc config in
  let? _ := validate config in
  Ok config.

(** * What validation guarantees *)

(** The limits are inside their documented ranges and consistent with each other. *)
Record safe_limits (l : Limits) : Prop := {
  sl_body : (1 <= max_body_bytes l <= 64 * MIB)%N;
  sl_input : (1 <= max_input_bytes l <= max_request_bytes l)%N;
  sl_request : (max_request_bytes l <= max_body_bytes l)%N;
  sl_items : (1 <= max_items l <= max_batch_items l)%N;
  sl_batch_items : (max_batch_items l <= 4096)%N;
  sl_tokens : (1 <= max_tokens l <= 1000000)%N;
  sl_batch_tokens : (max_tokens l <= max_batch_tokens l <= 10000000)%N;
  sl_queue : (1 <= max_queue_depth l <= 100000)%N;
  sl_concurrency : (1 <= max_concurrency l <= 1024)%N;
  sl_request_timeout : (10 <= request_timeout l <= 600000)%N;
  sl_shutdown_timeout : (10 <= shutdown_timeout l <= 600000)%N;
}.

(** The policy a running server relies on. *)
Record safe_config (c : ServerConfig) : Prop := {
  sc_remote : remotely_exposed c = true → auth c ≠ None ∨ allow_insecure_remote c = true;
  sc_admin_remote : remotely_exposed c = true → admin_api_enabled c = true → admin_auth c ≠ None;
  sc_admin_distinct : admin_auth c ≠ None → admin_auth c ≠ auth c;
  sc_listeners : http_bind c ≠ grpc_bind c;
  sc_cache : cache_directory c ≠ "";
  sc_preload_unique : NoDup (preload_models c);
  sc_preload : Forall (λ m, is_blank m = false ∧ (str_len m <= 512)%N ∧ has_control m = false) (preload_models c);
  sc_limits : safe_limits (limits c);
  sc_origins : Forall (λ o, valid_origin o = true) (allowed_origins c);
}.

Lemma ensure_Ok {E A} (b : bool) (e : E) (k : result E A) a :
  (ensure b else e in k) = Ok a ↔ b = true ∧ k = Ok a.
Proof. destruct b; naive_solver. Qed.

Lemma bind_unit_Ok {E A} (r : result E unit) (k : result E A) a :
  result_bind r (λ _, k) = Ok a ↔ r = Ok tt ∧ k = Ok a.
Proof. rewrite bind_Ok. split; [by intros [[] ?]|intros [? ?]; by exists tt]. Qed.

Lemma bad_preload_false seen models :
  bad_preload seen models = false ↔
  Forall (λ m, is_blank m = false ∧ (str_len m <= 512)%N ∧ has_control m = false) models ∧
  NoDup models ∧ Forall (λ m, m ∉ seen) models.
Proof.
  revert seen. induction models as [|m models IH]; intros seen; simpl.
  - split; [intros _; split_and!; constructor|done].
  - rewrite !orb_false_iff, IH, bool_decide_eq_false, N.ltb_ge. split.
    + intros ((((H1 & H2) & H3) & H4) & H5 & H6 & H7). rewrite Forall_forall in H7.
      split; [by constructor|]. split; constructor.
      * intros Hm. apply (H7 m Hm). by left.
      * done.
      * done.
      * apply Forall_forall. intros x Hx Hs. apply (H7 x Hx). by right.
    + intros (H1 & H2 & H3). inversion H1 as [|?? (? & ? & ?)]; inversion H2; inversion H3 as [|??? Hs']; subst.
      rewrite Forall_forall in Hs'.
      split_and!; try done. apply Forall_forall. intros x Hx [->|Hs]%elem_of_cons; [done|].
      by apply (Hs' x).
Qed.

Lemma validate_bounds_Ok l : validate_bounds l = Ok tt ↔ safe_limits l.
Proof.
  unfold validate_bounds. rewrite bind_unit_Ok, !ensure_Ok. unfold bound_table, check_bounds.
  rewrite !ensure_Ok, !andb_true_iff, !N.leb_le. split.
  - intros H. constructor; lia.
  - intros []. split_and!; (reflexivity || lia).
Qed.

Lemma existsb_negb {A} (f : A → bool) l : existsb (λ a, negb (f a)) l = false ↔ Forall (λ a, f a = true) l.
Proof.
  induction l as [|a l IH]; simpl; [by split|].
  rewrite orb_false_iff, negb_false_iff, Forall_cons, IH. done.
Qed.

Lemma str_is_empty_false s : str_is_empty s = false ↔ s ≠ "".
Proof. by destruct s. Qed.

Lemma validate_iff c : validate c = Ok tt ↔ safe_config c.
Proof.
  unfold validate. rewrite !ensure_Ok, bind_unit_Ok, ensure_Ok, validate_bounds_Ok.
  rewrite !negb_true_iff, !andb_false_iff, orb_false_iff, !andb_false_iff, existsb_negb,
    bad_preload_false, str_is_empty_false, negb_false_iff, !bool_decide_eq_false.
  split.
  - intros (H1 & (H2 & H3) & H4 & H5 & (H6 & H7 & _) & H8 & H9 & _). constructor; try done.
    + intros Hr. rewrite Hr in H1. destruct H1 as [[|]|]; auto.
    + intros Hr Ha Hn. rewrite Hr, Ha in H3. destruct H3 as [[|]|]; done.
    + intros Hn. destruct H2 as [H2|H2]; [by destruct (H2 Hn)|done].
  - intros []. split_and!; try done.
    + destruct (remotely_exposed c); [|by left; left].
      destruct sc_remote0; [done|by left; right|by right].
    + destruct (decide (admin_auth c = None)) as [->|Hn]; [left; by intros []|right; by apply sc_admin_distinct0].
    + destruct (remotely_exposed c), (admin_api_enabled c); try (by left; left); try (by left; right).
      right. by apply sc_admin_remote0.
    + apply Forall_forall. intros; set_solver.
Qed.

(** Validation is exact: it accepts a configuration if and only if the
    configuration is safe: no unauthenticated remote listener without the
    explicit override, administration on a remote listener only with its own
    credential and never with the public one, distinct listeners, unique bounded
    preloads, limits in range and mutually consistent, exact origins. *)
Theorem validate_exact c : validate c = Ok tt ↔ safe_config c.
Proof. apply validate_iff. Qed.

(** * Precedence *)

(** The value of the field that a key configures. *)
Inductive Field :=
| FAddr (a : SocketAddr) | FBool (b : bool) | FCred (c : option CredentialSource)
| FList (l : list string) | FStr (s : string) | FPolicy (p : StartupPolicy) | FNum (n : N) | FNone.

Definition get (k : ConfigKey) (c : ServerConfig) : Field :=
  let l := limits c in
  match k with
  | HttpBind => FAddr (http_bind c) | GrpcBind => FAddr (grpc_bind c)
  | AllowInsecureRemote => FBool (allow_insecure_remote c)
  | AuthEnv | AuthTokenPresent | AuthFile => FCred (auth c)
  | AdminAuthEnv | AdminAuthTokenPresent | AdminAuthFile => FCred (admin_auth c)
  | AdminApiEnabled => FBool (admin_api_enabled c)
  | AllowedOrigins => FList (allowed_origins c) | ModelDirectories => FList (model_directories c)
  | CacheDirectory => FStr (cache_directory c) | PreloadModels => FList (preload_models c)
  | Offline => FBool (offline c) | StartupPolicyKey => FPolicy (startup_policy c)
  | MaxBodyBytes => FNum (max_body_bytes l) | MaxInputBytes => FNum (max_input_bytes l)
  | MaxRequestBytes => FNum (max_request_bytes l) | MaxItems => FNum (max_items l)
  | MaxTokens => FNum (max_tokens l) | MaxQueueDepth => FNum (max_queue_depth l)
  | MaxBatchItems => FNum (max_batch_items l) | MaxBatchTokens => FNum (max_batch_tokens l)
  | MaxConcurrency => FNum (max_concurrency l) | RequestTimeout => FNum (request_timeout l)
  | ShutdownTimeout => FNum (shutdown_timeout l) | TomlKey | PathKey => FNone
  end.

(** Keys of the same slot configure the same field. *)
Definition slot (k : ConfigKey) : nat :=
  match k with
  | AuthTokenPresent | AuthFile => key_index AuthEnv
  | AdminAuthTokenPresent | AdminAuthFile => key_index AdminAuthEnv
  | k => key_index k
  end.
Definition same_field (k k' : ConfigKey) : bool := Nat.eqb (slot k) (slot k').

(** The value a single setting stands for. *)
Definition value_of (k : ConfigKey) (v : PatchValue) : option Field :=
  match apply_value ServerConfig_default k v with Ok t => Some (get k t) | Err _ => None end.

Definition setting_in (keys : list ConfigKey) (p : Patch) (k : ConfigKey) : option Field :=
  k' ← List.find (λ k', same_field k k' && contains_key p k') keys;
  v ← p !! k'; value_of k' v.
(** What a source says about the field of a key. *)
Definition setting : Patch → ConfigKey → option Field := setting_in ALL_KEYS.

(** A configuration is the values of its fields. *)
Lemma get_ext c c' : (∀ k, get k c = get k c') → c = c'.
Proof.
  intros H. destruct c as [? ? ? ? ? ? ? ? ? ? ? ? []], c' as [? ? ? ? ? ? ? ? ? ? ? ? []].
  pose proof (H HttpBind). pose proof (H GrpcBind). pose proof (H AllowInsecureRemote).
  pose proof (H AuthEnv). pose proof (H AdminAuthEnv). pose proof (H AdminApiEnabled).
  pose proof (H AllowedOrigins). pose proof (H ModelDirectories). pose proof (H CacheDirectory).
  pose proof (H PreloadModels). pose proof (H Offline). pose proof (H StartupPolicyKey).
  pose proof (H MaxBodyBytes). pose proof (H MaxInputBytes). pose proof (H MaxRequestBytes).
  pose proof (H MaxItems). pose proof (H MaxTokens). pose proof (H MaxQueueDepth).
  pose proof (H MaxBatchItems). pose proof (H MaxBatchTokens). pose proof (H MaxConcurrency).
  pose proof (H RequestTimeout). pose proof (H ShutdownTimeout). clear H. simplify_eq/=. done.
Qed.

Lemma get_same_field k k' c : same_field k k' = true → get k c = get k' c.
Proof. destruct k, k'; done. Qed.

Lemma apply_value_get t k v t' :
  apply_value t k v = Ok t' →
  value_of k v = Some (get k t') ∧ ∀ k', same_field k' k = false → get k' t' = get k' t.
Proof.
  intros H. unfold value_of. split.
  - destruct k; simpl in H |- *;
      try (apply bind_Ok in H as (s & -> & H); simpl); try (apply bind_Ok in H as (x & -> & H); simpl);
      try (by simplify_eq); try done.
    repeat case_match; by simplify_eq.
  - assert (Hk : ∀ k', same_field k' k = false → get k' t' = get k' t); [|done].
    destruct k; simpl in H;
      try (apply bind_Ok in H as (s & _ & H)); try (apply bind_Ok in H as (x & _ & H));
      repeat case_match; simplify_eq; intros [] Hs; (discriminate Hs || reflexivity).
Qed.

Lemma find_None_filter {A} (f : A → bool) l : List.filter f l = [] → List.find f l = None.
Proof. induction l as [|a l IH]; simpl; [done|]. destruct (f a); [done|auto]. Qed.

Lemma singleton_In {A} (l : list A) a b : (length l ≤ 1)%nat → List.In a l → List.In b l → a = b.
Proof. destruct l as [|x [|]]; simpl; [done|naive_solver|lia]. Qed.

Lemma apply_keys_get keys p k t t' :
  (length (List.filter (λ k', same_field k k' && contains_key p k') keys) ≤ 1)%nat →
  apply_keys keys p t = Ok t' → get k t' = default (get k t) (setting_in keys p k).
Proof.
  revert t. induction keys as [|k0 keys IH]; intros t Hl H; simpl in *; [by simplify_eq|].
  unfold setting_in in *. simpl. unfold contains_key at 1. unfold contains_key in Hl at 1.
  destruct (p !! k0) as [v|] eqn:Hp.
  - apply bind_Ok in H as (t1 & H1 & H). apply apply_value_get in H1 as [Hv Hother].
    destruct (same_field k k0) eqn:Hs; simpl in *.
    + rewrite (IH t1) by (done || lia). rewrite find_None_filter.
      2: { destruct (List.filter _ keys); [done|simpl in Hl; lia]. }
      simpl. rewrite Hp. simpl. rewrite Hv. simpl. by apply get_same_field.
    + rewrite (IH t1) by done. by rewrite Hother.
  - rewrite andb_false_r in *. by apply IH.
Qed.

Lemma apply_keys_values keys p t t' k v :
  apply_keys keys p t = Ok t' → k ∈ keys → p !! k = Some v → is_Some (value_of k v).
Proof.
  revert t. induction keys as [|k0 keys IH]; intros t H Hin Hp; simpl in *; [by apply not_elem_of_nil in Hin|].
  destruct (decide (k = k0)) as [->|Hne].
  - rewrite Hp in H. apply bind_Ok in H as (t1 & H1 & _). apply apply_value_get in H1 as [-> _]. eauto.
  - apply elem_of_cons in Hin as [|Hin]; [done|].
    destruct (p !! k0); [apply bind_Ok in H as (t1 & _ & H)|]; eauto.
Qed.

Lemma all_keys_complete k : k ∈ ALL_KEYS.
Proof. apply (bool_decide_unpack _). by destruct k. Qed.

Lemma alternatives_exclusive p k :
  check_alternatives p alternatives = Ok tt →
  (length (List.filter (λ k', same_field k k' && contains_key p k') ALL_KEYS) ≤ 1)%nat.
Proof.
  unfold alternatives, check_alternatives. rewrite !ensure_Ok, !negb_true_iff, !Nat.ltb_ge.
  intros (H1 & H2 & _). destruct k; simpl in *;
    repeat match goal with |- context [contains_key ?p ?k] => destruct (contains_key p k) end; simpl in *; lia.
Qed.

Lemma apply_get p t t' :
  apply p t = Ok t' →
  (∀ k, get k t' = default (get k t) (setting p k)) ∧
  (∀ k v, p !! k = Some v → ∃ f, value_of k v = Some f ∧ setting p k = Some f).
Proof.
  unfold apply. rewrite bind_unit_Ok. intros [Ha H]. split.
  - intros k. apply apply_keys_get; [by apply alternatives_exclusive|done].
  - intros k v Hp. destruct (apply_keys_values _ _ _ _ k v H (all_keys_complete k) Hp) as [f Hf].
    exists f. split; [done|]. pose proof (alternatives_exclusive p k Ha) as Hl.
    assert (Hk : List.In k (List.filter (λ k', same_field k k' && contains_key p k') ALL_KEYS)).
    { apply filter_In. split; [apply list_elem_of_In, all_keys_complete|].
      unfold same_field, contains_key. by rewrite Nat.eqb_refl, Hp. }
    unfold setting, setting_in.
    destruct (List.find _ ALL_KEYS) as [k'|] eqn:Hfind.
    + apply find_some in Hfind.
      apply (proj2 (filter_In (λ k', same_field k k' && contains_key p k') k' ALL_KEYS)) in Hfind.
      rewrite <-(singleton_In _ k k' Hl Hk Hfind). cbn [mbind option_bind]. rewrite Hp. exact Hf.
    + apply filter_In in Hk as [Hin Hk]. apply (find_none _ _ Hfind) in Hin. congruence.
Qed.

(** C36: precedence is deterministic: a configuration that loads is, field by
    field, what the command line says, otherwise what the environment says,
    otherwise what the TOML file says, otherwise the default; every setting that
    appears in a source was understood; and the result is safe. *)
Theorem load_precedence toml env cli c :
  load toml env cli = Ok c →
  ∃ pt pe pc,
    match toml with
    | None => pt = ∅
    | Some f => ∃ text, read_config_file f = Ok text ∧ parse_toml text = Ok pt
    end ∧
    parse_environment env = Ok pe ∧ parse_cli cli = Ok pc ∧
    (∀ p k v, p ∈ [pt; pe; pc] → p !! k = Some v → ∃ f, value_of k v = Some f ∧ setting p k = Some f) ∧
    (∀ k, get k c =
       default (default (default (get k ServerConfig_default) (setting pt k)) (setting pe k)) (setting pc k)) ∧
    safe_config c.
Proof.
  unfold load. rewrite bind_Ok. intros (c0 & H0 & H).
  apply bind_Ok in H as (pe & He & H). apply bind_Ok in H as (c1 & H1 & H).
  apply bind_Ok in H as (pc & Hc & H). apply bind_Ok in H as (c2 & H2 & H).
  apply bind_unit_Ok in H as [Hv [= ->]].
  assert (∃ pt, match toml with
    | None => pt = ∅
    | Some f => ∃ text, read_config_file f = Ok text ∧ parse_toml text = Ok pt
    end ∧ apply pt ServerConfig_default = Ok c0) as (pt & Hpt & Ht).
  { destruct toml as [f|].
    - apply bind_Ok in H0 as (text & Hf & H0). apply bind_Ok in H0 as (pt & Hp & H0). eauto 10.
    - exists ∅. by simplify_eq. }
  apply apply_get in Ht as [Ht Ht'], H1 as [H1 H1'], H2 as [H2 H2'].
  exists pt, pe, pc. split; [done|]. split; [done|]. split; [done|]. split_and!.
  - intros p k v Hin. rewrite !elem_of_cons in Hin. destruct Hin as [->|[->|[->|[]%not_elem_of_nil]]]; eauto.
  - intros k. by rewrite H2, H1, Ht.
  - by apply validate_iff.
Qed.

(** * Secrets and the sources *)

Lemma lookup_name_Some {A} (table : list (string * A)) s a :
  lookup_name table s = Some a → (s, a) ∈ table.
Proof.
  unfold lookup_name. destruct (List.find _ table) as [[n b]|] eqn:Hf; simpl; [|done]. intros [= ->].
  apply find_some in Hf as [Hin He]. apply String.eqb_eq in He. simpl in He. subst. by apply list_elem_of_In.
Qed.

Lemma parse_key_Some s k : parse_key s = Some k → s = ConfigKey_as_str k.
Proof.
  intros H%lookup_name_Some. apply list_elem_of_In in H. simpl in H.
  repeat destruct H as [H|H]; try done; by simplify_eq.
Qed.

(** The names of the configurable keys round-trip: a name denotes a key
    exactly when it is that key's public name, and the two internal keys have no
    name that any source could use. *)
Theorem key_names_roundtrip s k :
  parse_key s = Some k ↔ s = ConfigKey_as_str k ∧ k ≠ TomlKey ∧ k ≠ PathKey.
Proof.
  split.
  - intros H. split; [by apply parse_key_Some|].
    apply lookup_name_Some in H. split; intros ->; apply list_elem_of_In in H; simpl in H;
      repeat destruct H as [H|H]; done.
  - intros (-> & H1 & H2). destruct k; (reflexivity || done).
Qed.

Lemma cli_name_token n k :
  parse_key (cli_name n) = Some k → str_contains "token" (ConfigKey_as_str k) = true →
  credential_like_option n = true.
Proof.
  intros H%parse_key_Some Ht. unfold credential_like_option. unfold cli_name in H.
  destruct (existsb _ _) eqn:He.
  - apply existsb_exists in He as (m & Hm & ->%String.eqb_eq). simpl in Hm.
    repeat destruct Hm as [<-|Hm]; try done; destruct k; simpl in H; try discriminate H; discriminate Ht.
  - subst n. rewrite Ht. by rewrite orb_true_r.
Qed.

Lemma patch_set_lookup k v p p' k' :
  patch_set k v p = Ok p' → is_Some (p' !! k') → k' = k ∨ is_Some (p !! k').
Proof.
  unfold patch_set. destruct (p !! k) eqn:E; intros H Hk'; simplify_eq.
  destruct (decide (k' = k)) as [->|]; [by left|right]. by rewrite lookup_insert_ne in Hk' by done.
Qed.

(** No key whose name mentions a token can be given on the command line. *)
Lemma insert_cli_no_token n args p p' :
  (length args ≤ n)%nat →
  (∀ k, is_Some (p !! k) → str_contains "token" (ConfigKey_as_str k) = false) →
  insert_cli p args = Ok p' →
  ∀ k, is_Some (p' !! k) → str_contains "token" (ConfigKey_as_str k) = false.
Proof.
  revert args p. induction n as [|n IH]; intros [|a args] p Hn Hp H; simpl in Hn; try lia;
    try (simpl in H; simplify_eq; exact Hp).
  cbn [insert_cli] in H. apply bind_Ok in H as (option & _ & H).
  apply ensure_Ok in H as [Hc H]. apply negb_true_iff in Hc.
  apply bind_Ok in H as (k0 & Hk & H). apply ok_or_Ok in Hk. apply ensure_Ok in H as [_ H].
  assert (Ht : str_contains "token" (ConfigKey_as_str k0) = false).
  { destruct (str_contains _ _) eqn:E; [|done]. by rewrite (cli_name_token _ _ Hk E) in Hc. }
  assert (Hset : ∀ v p1, patch_set k0 v p = Ok p1 →
    ∀ k, is_Some (p1 !! k) → str_contains "token" (ConfigKey_as_str k) = false).
  { intros v p1 Hset k Hk1. destruct (patch_set_lookup _ _ _ _ k Hset Hk1) as [->|]; auto. }
  destruct (bool_decide _).
  - apply bind_Ok in H as (p1 & H1 & H). eapply IH; [|by eapply Hset|exact H]. lia.
  - destruct args as [|v args]; [done|]. apply bind_Ok in H as (p1 & H1 & H).
    eapply IH; [|by eapply Hset|exact H]. simpl in Hn. lia.
Qed.

Lemma parse_cli_no_token args p k :
  parse_cli args = Ok p → is_Some (p !! k) → str_contains "token" (ConfigKey_as_str k) = false.
Proof.
  intros H. eapply insert_cli_no_token; [reflexivity| |exact H]. intros k' [v Hv].
  by rewrite lookup_empty in Hv.
Qed.

(** The command line never carries a secret: whatever the arguments, an
    accepted command line sets no credential by value, only the name of a variable
    or the path of a file, and an option that looks like a credential is refused
    before its value is read. *)
Theorem cli_carries_no_secret args :
  (∀ p, parse_cli args = Ok p → p !! AuthTokenPresent = None ∧ p !! AdminAuthTokenPresent = None) ∧
  (∀ name rest, credential_like_option (str_map underscore (hd "" (str_split "=" name))) = true →
     parse_cli (("--" +:+ name) :: rest) = Err (UnknownKey FromCommandLine)).
Proof.
  split.
  - intros p H. split; apply eq_None_not_Some; intros Hs; by apply (parse_cli_no_token _ _ _ H) in Hs.
  - intros name rest Hc. unfold parse_cli. simpl. by rewrite Hc.
Qed.

(** The two token limits cannot be set on the command line: the credential
    filter refuses their options, although the option table lists them. *)
Theorem cli_token_limits_refused args :
  (∀ p, parse_cli args = Ok p → p !! MaxTokens = None ∧ p !! MaxBatchTokens = None) ∧
  parse_cli ["--max-tokens"; "5"] = Err (UnknownKey FromCommandLine) ∧
  In "max_tokens" cli_limit_names ∧ parse_key (cli_name "max_tokens") = Some MaxTokens.
Proof.
  split; [|by split; [reflexivity|split; [simpl; tauto|reflexivity]]].
  intros p H. split; apply eq_None_not_Some; intros Hs; by apply (parse_cli_no_token _ _ _ H) in Hs.
Qed.

(** Two environments that differ at most in the (non-empty) values of the two
    variables that hold credentials. *)
Definition token_variable (n : string) : Prop :=
  n = "IMPOSSIBLE_AUTH_TOKEN" ∨ n = "IMPOSSIBLE_ADMIN_AUTH_TOKEN".
Definition same_but_tokens : list (string * string) → list (string * string) → Prop :=
  Forall2 (λ a b, a.1 = b.1 ∧ (a.2 = b.2 ∨ (token_variable a.1 ∧ a.2 ≠ "" ∧ b.2 ≠ ""))).

Lemma insert_environment_tokens p e1 e2 :
  same_but_tokens e1 e2 → insert_environment p e1 = insert_environment p e2.
Proof.
  intros H. revert p. induction H as [|[n v] [n' v'] e1 e2 [Hn Hv] _ IH]; intros p; [done|].
  simpl in Hn, Hv. subst n'. cbn [insert_environment].
  destruct Hv as [->|(Ht & Hv & Hv')].
  - destruct (strip_prefix _ n) as [suffix|]; [|done].
    destruct (lookup_name env_names suffix) as [k|]; simpl; [|done].
    destruct (if is_token_key k then _ else _); simpl; [apply IH|done].
  - destruct v as [|a v]; [done|]. destruct v' as [|a' v']; [done|].
    destruct Ht as [->| ->]; simpl; destruct (patch_set _ _ p); simpl; (apply IH || done).
Qed.

(** Credentials given in the environment do not flow into the
    configuration: replacing their values by any other non-empty ones gives the
    same configuration or the same error. *)
Theorem env_tokens_private toml e1 e2 cli :
  same_but_tokens e1 e2 → load toml e1 cli = load toml e2 cli.
Proof.
  intros H. unfold load, parse_environment. by rewrite (insert_environment_tokens ∅ e1 e2 H).
Qed.

(** The configuration file is read whole and unchanged: its text is used if
    and only if the open succeeded on a regular file, not a link, of at most the
    size limit, whose length was the same before and after and is the number of
    bytes read, and the bytes are UTF-8; nothing is ever truncated. *)
Theorem config_file_exact f text :
  read_config_file f = Ok text ↔
  opened f = Ok tt ∧ utf8_valid text = true ∧ stable_read f MAX_CONFIG_FILE_BYTES text.
Proof.
  unfold read_config_file, stable_read, safe_regular_config. generalize MAX_CONFIG_FILE_BYTES. intros max. split.
  - intros H. inv_result. inv_bool. destruct (opened f) as [[]|]; simplify_eq/=.
    split; [done|]. split; [done|]. split; [by eapply take_contents|]. split; [done|]. naive_solver congruence.
  - intros (Ho & Hu & Hc & Hl & m & m' & Hm & Hm' & H1 & H2 & H3 & H4 & H5 & H6).
    rewrite Ho, Hm, Hm', (contents_take f max text Hc Hl). simpl. rewrite H1, H2, H3, H4, H5, H6, Hu. simpl.
    apply N.ltb_ge in Hl. by rewrite Hl, N.eqb_refl.
Qed.

End sources.

(** A file, an environment and a command line that load. *)
Definition sample_file : FileTrace := stable_file "offline = true".
Definition sample_env : list (string * string) :=
  [("IMPOSSIBLE_MAX_ITEMS", "5"); ("HOME", "/root"); ("IMPOSSIBLE_AUTH_TOKEN", "s3cret");
   ("IMPOSSIBLE_ALLOWED_ORIGINS", "https://app.example, http://localhost:3000")].
Definition sample_cli : list string := ["--max-items"; "7"; "--http-bind"; "0.0.0.0:80"; "--admin-api-enabled"; "0"].
Definition sample_load : result ConfigError ServerConfig :=
  load (U := SimpleUrl) (T := SimpleToml) (Some sample_file) sample_env sample_cli.

Example sample_loads :
  (match sample_load with
   | Ok c => Some (offline c, max_items (limits c), auth c, ip (http_bind c), allowed_origins c)
   | Err _ => None
   end) =
  Some (true, 7%N, Some (Environment "IMPOSSIBLE_AUTH_TOKEN"), V4 0 0 0 0,
        ["https://app.example"; "http://localhost:3000"]).
Proof. vm_compute. reflexivity. Qed.

Lemma load_precedence_witness :
  ∃ c, sample_load = Ok c ∧ safe_config (U := SimpleUrl) c ∧ get MaxItems c = FNum 7.
Proof.
  destruct sample_load as [c|e] eqn:H; [|vm_compute in H; discriminate H].
  destruct (load_precedence (U := SimpleUrl) (T := SimpleToml) (Some sample_file) sample_env sample_cli c H)
    as (_ & _ & _ & _ & _ & _ & _ & _ & Hs).
  exists c. split; [done|]. split; [exact Hs|].
  vm_compute in H. injection H as <-. reflexivity.
Defined.

Lemma env_tokens_private_witness :
  load (U := SimpleUrl) (T := SimpleToml) None [("IMPOSSIBLE_AUTH_TOKEN", "one")] [] =
  load (U := SimpleUrl) (T := SimpleToml) None [("IMPOSSIBLE_AUTH_TOKEN", "two")] [].
Proof.
  apply (env_tokens_private (U := SimpleUrl) (T := SimpleToml)). constructor; [|constructor].
  split; [reflexivity|]. right. split; [by left|done].
Defined.

(** * Paths on the file system *)

(** A path is absolute or not and has components; [join] with an absolute path replaces. *)
Record Path := mk_Path { absolute : bool; components : list string }.
Definition path_join (a b : Path) : Path := if absolute b then b else mk_Path (absolute a) (components a ++ components b).
Fixpoint is_prefix (a b : list string) : bool :=
  match a, b with
  | [], _ => true
  | x :: a, y :: b => String.eqb x y && is_prefix a b
  | _ :: _, [] => false
  end.
Definition path_starts_with (a b : Path) : bool := Bool.eqb (absolute a) (absolute b) && is_prefix (components b) (components a).

Section paths.
(** [fs::canonicalize] *)
Context (canonicalize : Path → option Path).

(** [canonical_existing_path] *)
Definition canonical_existing_path (path : Path) : result ConfigError Path :=
  ok_or (canonicalize path) (InvalidValue PathKey "path does not exist or cannot be resolved").
(** [canonical_path_within] *)
Definition canonical_path_within (root child : Path) : result ConfigError Path :=
  let? root := canonical_existing_path root in
  let? candidate := canonical_existing_path (path_join root child) in
  ensure path_starts_with candidate root else InvalidValue PathKey "path escapes configured root" in
  Ok candidate.

Lemma is_prefix_spec a : ∀ b, is_prefix a b = true ↔ ∃ c, b = a ++ c.
Proof.
  induction a as [|x a IH]; intros b; [naive_solver|]. destruct b as [|y b]; simpl; [naive_solver|].
  rewrite andb_true_iff, String.eqb_eq, IH. naive_solver.
Qed.

(** Containment is decided after resolution: the answer is what the child resolves to, and it
    is below what the root resolves to, whatever links, dots or absolute paths the child has. *)
Theorem path_contained root child path :
  canonical_path_within root child = Ok path ↔
  ∃ base below, canonicalize root = Some base ∧ canonicalize (path_join base child) = Some path ∧
    absolute path = absolute base ∧ components path = components base ++ below.
Proof.
  unfold canonical_path_within, canonical_existing_path. rewrite bind_Ok. setoid_rewrite bind_Ok. setoid_rewrite ok_or_Ok. split.
  - intros (base & Hb & candidate & Hc & H). destruct (path_starts_with candidate base) eqn:Hs; [|done]. injection H as <-.
    apply andb_true_iff in Hs as [Ha%Bool.eqb_prop (below & Hp)%is_prefix_spec]. by exists base, below.
  - intros (base & below & Hb & Hc & Ha & Hp). exists base. split; [done|]. exists path. split; [done|].
    unfold path_starts_with. by rewrite Ha, Bool.eqb_reflx, (proj2 (is_prefix_spec _ _)) by eauto.
Qed.

End paths.

End Config.
