(* ===== verification/Security.v ===== *)
(** Credentials and request origins
    ([crates/impossible-server-core/src/security.rs]). *)

From Stdlib Require Import NArith Lia Ascii.
From stdpp Require Import base strings list.
From S2P Require Import Prelude Std Config.
Import Config.

Local Open Scope string_scope.
Local Open Scope list_scope.

Module Security.

Inductive CredentialError := Unavailable | CInvalid.

(** [Display for CredentialError] *)
Definition CredentialError_display (e : CredentialError) : string :=
  match e with
  | Unavailable => "credential source is unavailable"
  | CInvalid => "credential source is invalid"
  end.

Definition MAX_CREDENTIAL_BYTES : N := 16 * 1024.

(** [struct Secret]: its bytes. *)
Record Secret := mk_Secret { secret_bytes : string }.

(** [Secret::new] *)
Definition Secret_new (value : string) : result CredentialError Secret :=
  ensure negb (str_is_empty value || (MAX_CREDENTIAL_BYTES <? str_len value)%N) else CInvalid in
  Ok (mk_Secret value).

(** [slice.get(index).copied().unwrap_or_default()] *)
Definition byte_at (l : list ascii) (i : nat) : N := match l !! i with Some c => byte_val c | None => 0 end.

(** [constant_time_eq]: every index up to the longer length is visited. *)
Definition constant_time_eq (expected candidate : list ascii) : bool :=
  let max_len := (length expected `max` length candidate)%nat in
  let difference :=
    foldl (λ d i, N.lor d (N.lxor (byte_at expected i) (byte_at candidate i)))
          (N.lxor (len expected) (len candidate)) (seq 0 max_len) in
  (difference =? 0)%N.

(** [Secret::verify] *)
Definition verify (s : Secret) (candidate : string) : bool :=
  constant_time_eq (str_bytes (secret_bytes s)) (str_bytes candidate).

(** [Debug for Secret] *)
Definition Secret_debug (_ : Secret) : string := "Secret([REDACTED])".

(** ** Reading a credential *)

Definition ELOOP : N := 40.

(** [map_open_error] (Unix) *)
Definition map_open_error (raw_os_error : option N) : CredentialError :=
  if bool_decide (raw_os_error = Some ELOOP) then CInvalid else Unavailable.

(** [is_safe_regular_file] (Unix) *)
Definition is_safe_regular_file (m : Metadata) : bool :=
  if negb (is_file m) || is_symlink m then false else true.

(** [read_secret_handle_with_hook]; the hook is what may change the file between
    the first metadata call and the read. *)
Definition read_secret_handle_with_hook (f : FileTrace) : result CredentialError string :=
  let? initial := ok_or (initial_metadata f) Unavailable in
  ensure negb (negb (is_safe_regular_file initial) || (MAX_CREDENTIAL_BYTES <? md_len initial)%N)
    else CInvalid in
  let? _ := ok_or (try_from usize_max (md_len initial)) CInvalid in
  let? bytes := ok_or (str_take (S (N.to_nat MAX_CREDENTIAL_BYTES)) <$> contents f) Unavailable in
  let? final := ok_or (final_metadata f) Unavailable in
  ensure negb (negb (is_safe_regular_file final) || (MAX_CREDENTIAL_BYTES <? str_len bytes)%N
               || negb (md_len final =? md_len initial)%N || negb (md_len final =? str_len bytes)%N)
    else CInvalid in
  Ok bytes.

(** [read_secret_file] *)
Definition read_secret_file (f : FileTrace) : result CredentialError string :=
  let? _ := map_err map_open_error (opened f) in read_secret_handle_with_hook f.

(** [if bytes.last() == Some(&c) { bytes.pop(); }] *)
Fixpoint pop_last (c : ascii) (s : string) : string :=
  match s with
  | EmptyString => EmptyString
  | String d EmptyString => if Ascii.eqb c d then EmptyString else s
  | String d s => String d (pop_last c s)
  end.

(** The process environment ([var_os(name)], converted to UTF-8) and the file
    behind each path. *)
Record Host := mk_Host { env_var : string → option string; file_at : string → FileTrace }.

Definition strip_line_end (bytes : string) : string := pop_last (byte 13) (pop_last (byte 10) bytes).

(** [load_credential] *)
Definition load_credential (h : Host) (source : CredentialSource) : result CredentialError Secret :=
  let? bytes :=
    match source with
    | Environment name => ok_or (env_var h name) Unavailable
    | File path => read_secret_file (file_at h path)
    end in
  let bytes := strip_line_end bytes in
  ensure negb (str_is_empty bytes || (MAX_CREDENTIAL_BYTES <? str_len bytes)%N) else CInvalid in
  Ok (mk_Secret bytes).

(** ** Origins and headers *)

Record OriginPolicy := mk_OriginPolicy { allowed : list string }.

(** [OriginPolicy::allows] *)
Definition allows (p : OriginPolicy) (origin : option string) : bool :=
  match origin with
  | None => true
  | Some v => existsb (λ a, constant_time_eq (str_bytes a) (str_bytes v)) (allowed p)
  end.

(** [OriginPolicy::response_origin] *)
Definition response_origin (p : OriginPolicy) (origin : option string) : option string :=
  match origin with Some v => if allows p (Some v) then Some v else None | None => None end.

(** [verify_bearer] *)
Definition verify_bearer (header : option string) (s : Secret) : bool :=
  match header with
  | None => false
  | Some value =>
    match strip_prefix "Bearer " value with
    | None => false
    | Some token => negb (str_is_empty token) && verify s token
    end
  end.

(** [verify_distinct_credentials] *)
Definition verify_distinct_credentials (public admin : Secret) : result CredentialError unit :=
  if verify public (secret_bytes admin) then Err CInvalid else Ok tt.

(** * Properties *)

Lemma fold_lor_zero f l d :
  foldl (λ d (i : nat), N.lor d (f i)) d l = 0%N ↔ d = 0%N ∧ ∀ i, i ∈ l → f i = 0%N.
Proof.
  revert d. induction l as [|i l IH]; intros d; simpl.
  - split; [intros ->; split; [done|intros i Hi; inversion Hi]|intros [-> _]; done].
  - rewrite IH, N.lor_eq_0_iff. split.
    + intros [[-> Hi] Hl]. split; [done|]. intros j [->|Hj]%elem_of_cons; auto.
    + intros [-> H]. split; [split; [done|]; apply H; by left|]. intros j Hj. apply H. by right.
Qed.

Lemma byte_val_inj a b : byte_val a = byte_val b → a = b.
Proof. intros H. rewrite <-(byte_byte_val a), <-(byte_byte_val b). by f_equal. Qed.

(** The accumulated difference is zero exactly for equal inputs. *)
Lemma constant_time_eq_spec a b : constant_time_eq a b = true ↔ a = b.
Proof.
  unfold constant_time_eq. rewrite N.eqb_eq, fold_lor_zero, N.lxor_eq_0_iff. split.
  - intros [Hl Hi]. apply list_eq_same_length with (length a); [unfold len in Hl; lia|done|].
    intros i x y Hi' Hx Hy. apply byte_val_inj.
    assert (Hin : i ∈ seq 0 (length a `max` length b)) by (apply elem_of_seq; lia).
    specialize (Hi i Hin). rewrite N.lxor_eq_0_iff in Hi. unfold byte_at in Hi. by rewrite Hx, Hy in Hi.
  - intros ->. split; [done|]. intros i _. by apply N.lxor_eq_0_iff.
Qed.

Lemma str_bytes_inj a b : str_bytes a = str_bytes b → a = b.
Proof.
  revert b. induction a as [|x a IH]; intros [|y b]; simpl; try done. intros [= -> H]. by rewrite (IH b).
Qed.

Lemma verify_spec s candidate : verify s candidate = true ↔ candidate = secret_bytes s.
Proof.
  unfold verify. rewrite constant_time_eq_spec. split; [intros H; symmetry; by apply str_bytes_inj|by intros ->].
Qed.

Lemma strip_prefix_Some p s r : strip_prefix p s = Some r ↔ s = p +:+ r.
Proof.
  revert s. induction p as [|c p IH]; intros s; simpl.
  - split; [intros [= ->]|intros ->]; done.
  - destruct s as [|d s]; [done|]. destruct (Ascii.eqb_spec c d) as [->|Hne].
    + rewrite IH. split; [intros ->|intros [= ->]]; done.
    + split; [done|]. intros [= Hcd _]. congruence.
Qed.

(** Constant-time comparison decides equality, so authentication is exact:
    a bearer header is accepted if and only if it is the scheme followed by
    exactly the secret, an origin is allowed if and only if it is absent or on the
    list verbatim, and the origin echoed to a browser is the request's own. *)
Theorem authentication_exact header secret policy origin :
  secret_bytes secret ≠ "" →
  (∀ a b, constant_time_eq a b = true ↔ a = b) ∧
  (verify_bearer header secret = true ↔ header = Some ("Bearer " +:+ secret_bytes secret)) ∧
  (allows policy origin = true ↔ ∀ o, origin = Some o → o ∈ allowed policy) ∧
  (∀ o, response_origin policy origin = Some o ↔ origin = Some o ∧ o ∈ allowed policy).
Proof.
  intros Hne.
  assert (Hall : ∀ v, existsb (λ a, constant_time_eq (str_bytes a) (str_bytes v)) (allowed policy) = true ↔
                 v ∈ allowed policy).
  { intros v. rewrite existsb_exists, list_elem_of_In. split.
    - intros (a & Ha & ->%constant_time_eq_spec%str_bytes_inj). done.
    - intros Hv. exists v. split; [done|]. by apply constant_time_eq_spec. }
  split; [apply constant_time_eq_spec|]. split; [|split].
  - unfold verify_bearer. destruct header as [value|]; [|done].
    destruct (strip_prefix "Bearer " value) as [token|] eqn:Hp.
    + apply strip_prefix_Some in Hp as ->. rewrite andb_true_iff, verify_spec. split.
      * by intros [_ ->].
      * intros Hh. injection Hh as ->. split; [|done]. apply negb_true_iff. by apply str_is_empty_false.
    + split; [done|]. intros [= ->]. by rewrite (proj2 (strip_prefix_Some _ _ (secret_bytes secret))) in Hp.
  - destruct origin as [v|]; simpl; [|by split].
    rewrite Hall. split; [by intros Hv o [= ->]|intros H; by apply H].
  - intros o. destruct origin as [v|]; simpl; [|by split; [|intros []]].
    destruct (existsb _ _) eqn:E.
    + apply Hall in E. split; [by intros [= ->]|by intros [[= ->] _]].
    + split; [done|]. intros [[= ->] Hv]. apply Hall in Hv. congruence.
Qed.

Lemma authentication_exact_witness :
  verify_bearer (Some "Bearer abc") (mk_Secret "abc") = true ∧ secret_bytes (mk_Secret "abc") ≠ "".
Proof.
  split; [|done].
  apply (authentication_exact (Some "Bearer abc") (mk_Secret "abc") (mk_OriginPolicy []) None); done.
Defined.

Lemma read_secret_spec f bytes :
  read_secret_file f = Ok bytes ↔ opened f = Ok tt ∧ stable_read f MAX_CREDENTIAL_BYTES bytes.
Proof.
  unfold read_secret_file, read_secret_handle_with_hook, stable_read, is_safe_regular_file.
  assert (Hmax : (MAX_CREDENTIAL_BYTES <= usize_max)%N) by (vm_compute; done).
  revert Hmax. generalize MAX_CREDENTIAL_BYTES. intros max Hmax. split.
  - intros H. inv_result. inv_bool. destruct (opened f) as [[]|]; simplify_eq/=.
    repeat match goal with H : (if ?b then false else true) = true |- _ =>
      destruct b eqn:?; [discriminate H|clear H] end. inv_bool.
    split; [done|]. split; [by eapply take_contents|]. split; [done|]. naive_solver congruence.
  - intros (Ho & Hc & Hl & m & m' & Hm & Hm' & H1 & H2 & H3 & H4 & H5 & H6).
    rewrite Ho, Hm, Hm', (contents_take f max bytes Hc Hl). simpl. rewrite H1, H2, H3, H4, H5, H6. simpl.
    unfold try_from. rewrite (proj2 (N.leb_le _ usize_max)) by lia. simpl.
    apply N.ltb_ge in Hl. by rewrite Hl, N.eqb_refl.
Qed.

(** A credential file is used only as a whole: what is loaded from a file is
    its content less one line end, and only when the same regular file of at most
    the limit was seen before and after the read; the secret is never empty, never
    over the limit, and a secret that verifies as public and administrative at once
    is refused. *)
Theorem credential_loading_exact h path s public admin :
  (load_credential h (File path) = Ok s ↔
     ∃ bytes, opened (file_at h path) = Ok tt ∧ stable_read (file_at h path) MAX_CREDENTIAL_BYTES bytes ∧
       secret_bytes s = strip_line_end bytes ∧ strip_line_end bytes ≠ "" ∧
       (str_len (strip_line_end bytes) <= MAX_CREDENTIAL_BYTES)%N) ∧
  (∀ source, load_credential h source = Ok s →
     secret_bytes s ≠ "" ∧ (str_len (secret_bytes s) <= MAX_CREDENTIAL_BYTES)%N) ∧
  (verify_distinct_credentials public admin = Ok tt ↔ secret_bytes public ≠ secret_bytes admin).
Proof.
  split; [|split].
  - unfold load_credential. rewrite bind_Ok. setoid_rewrite read_secret_spec. split.
    + intros (bytes & [Ho Hr] & H). apply ensure_Ok in H as [Hb [= <-]]. inv_bool.
      exists bytes. split_and!; try done. by apply str_is_empty_false.
    + intros (bytes & Ho & Hr & Hs & Hne & Hl). exists bytes. split; [done|]. apply ensure_Ok.
      apply str_is_empty_false in Hne. apply N.ltb_ge in Hl. rewrite Hne, Hl.
      split; [done|]. destruct s. simpl in Hs. by subst.
  - intros source H. unfold load_credential in H. apply bind_Ok in H as (bytes & _ & H).
    apply ensure_Ok in H as [Hb [= <-]]. inv_bool. split; [by apply str_is_empty_false|done].
  - unfold verify_distinct_credentials. destruct (verify public (secret_bytes admin)) eqn:E.
    + apply verify_spec in E. split; [done|]. congruence.
    + split; [|done]. intros _ Heq. by rewrite (proj2 (verify_spec public (secret_bytes admin))) in E.
Qed.

End Security.
