(* ===== verification/Manifest.v ===== *)
(** Model manifests ([crates/impossible-models/src/manifest.rs]) and the errors of
    the model crate ([crates/impossible-models/src/lib.rs]): the schema as data and
    every validation of it.  JSON decoding ([serde_json]) is a parameter. *)

From Stdlib Require Import NArith Lia Ascii.
From stdpp Require Import base strings list.
From S2P Require Import Prelude Std Config.

Local Open Scope string_scope.
Local Open Scope list_scope.

Module Manifest.

(** * Errors *)

Inductive HttpFailureKind := Connect | Body | Timeout | HttpRequest | Decode | Other.

(** [enum Error]; an I/O error is its kind and text, a JSON error its text. *)
Inductive Error :=
| EInvalid (message : string)
| ECancelled
| EOffline
| EInUse
| EBusy
| OriginNotAllowed (origin : string)
| SizeLimit (expected actual : N)
| HashMismatch (expected actual : string)
| Io (kind text : string)
| Http (kind : HttpFailureKind)
| Json (text : string).

#[global] Instance HttpFailureKind_eq_dec : EqDecision HttpFailureKind.
Proof. solve_decision. Defined.
#[global] Instance Error_eq_dec : EqDecision Error.
Proof. solve_decision. Defined.

(** [Display for HttpFailureKind] *)
Definition HttpFailureKind_display (k : HttpFailureKind) : string :=
  match k with
  | Connect => "connection failed"
  | Body => "response body failed"
  | Timeout => "request timed out"
  | HttpRequest | Other => "request failed"
  | Decode => "response decoding failed"
  end.

(** [Display for Error] *)
Definition Error_display (e : Error) : string :=
  match e with
  | EInvalid m => "invalid model data: " +:+ m
  | ECancelled => "operation cancelled"
  | EOffline => "network access is disabled in offline mode"
  | EInUse => "model identity is currently in use"
  | EBusy => "model identity is busy; retry later"
  | OriginNotAllowed o => "download origin is not allowed: " +:+ o
  | SizeLimit e a =>
    "artifact size limit exceeded: expected at most " +:+ decimal e +:+ " bytes, received " +:+ decimal a
  | HashMismatch e a => "artifact hash mismatch: expected " +:+ e +:+ ", received " +:+ a
  | Io _ t => "filesystem error: " +:+ t
  | Http k => "HTTP transport error: " +:+ HttpFailureKind_display k
  | Json t => "manifest JSON error: " +:+ t
  end.

(** [Debug for Error]: texts, origins and digests are replaced. *)
Definition quoted (s : string) : string := String (byte 34) (s +:+ String (byte 34) "").
Definition redacted : string := quoted "[REDACTED]".
Definition HttpFailureKind_debug (k : HttpFailureKind) : string :=
  match k with
  | Connect => "Connect" | Body => "Body" | Timeout => "Timeout" | HttpRequest => "Request" | Decode => "Decode" | Other => "Other"
  end.
Definition Error_debug (e : Error) : string :=
  match e with
  | EInvalid _ => "Invalid(" +:+ redacted +:+ ")"
  | ECancelled => "Cancelled"
  | EOffline => "Offline"
  | EInUse => "InUse"
  | EBusy => "Busy"
  | OriginNotAllowed _ => "OriginNotAllowed(" +:+ redacted +:+ ")"
  | SizeLimit e a => "SizeLimit { expected: " +:+ decimal e +:+ ", actual: " +:+ decimal a +:+ " }"
  | HashMismatch _ _ => "HashMismatch { expected: " +:+ redacted +:+ ", actual: " +:+ redacted +:+ " }"
  | Io kind _ => "Io(" +:+ kind +:+ ")"
  | Http k => "Http(" +:+ HttpFailureKind_debug k +:+ ")"
  | Json _ => "Json(" +:+ redacted +:+ ")"
  end.

(** [From<reqwest::Error> for Error], with what the client says of its error. *)
Record ReqwestError := mk_ReqwestError {
  is_connect : bool; is_body : bool; is_timeout : bool; is_request : bool; is_decode : bool; rq_text : string }.
Definition from_reqwest (e : ReqwestError) : Error :=
  Http (if is_connect e then Connect else if is_body e then Body else if is_timeout e then Timeout
        else if is_request e then HttpRequest else if is_decode e then Decode else Other).

(** [Error::is_retryable] *)
Definition is_retryable (e : Error) : bool := match e with EBusy | EInUse => true | _ => false end.

(** * The schema *)

Record License := mk_License { spdx : string; source_url : string }.
Inductive SemanticVerification := Verified (evidence : string) | Unverified (reason : string).
Record TokenizerMetadata := mk_TokenizerMetadata { kind : string; max_tokens : N; lowercase : bool }.
Inductive Pooling := Cls | Mean | LastToken.
Record Prefixes := mk_Prefixes { query : string; document : string }.
Record Dimensions := mk_Dimensions { native : N; matryoshka : list N }.
Record TensorMetadata := mk_TensorMetadata { format : string; dtype : string; architecture : string }.
Record OnnxInputNames := mk_OnnxInputNames {
  input_ids : string; attention_mask : option string; token_type_ids : option string;
}.
Inductive RuntimeMetadata :=
| CatalogOnly
| Onnx (model_file tokenizer_file : string) (inputs : OnnxInputNames) (output : string)
       (pad_token_id : N) (normalize : bool).
Record Artifact := mk_Artifact { path : string; url : string; sha256 : string; size : N }.

Record Manifest := mk_Manifest {
  schema_version : N;
  canonical_id : string;
  revision : string;
  license : License;
  semantic_verification : SemanticVerification;
  tokenizer : TokenizerMetadata;
  pooling : Pooling;
  prefixes : Prefixes;
  dimensions : Dimensions;
  tensors : TensorMetadata;
  runtime : RuntimeMetadata;
  artifacts : list Artifact;
}.

(** The derived [PartialEq] and [Eq]. *)
#[global] Instance License_eq_dec : EqDecision License.
Proof. solve_decision. Defined.
#[global] Instance SemanticVerification_eq_dec : EqDecision SemanticVerification.
Proof. solve_decision. Defined.
#[global] Instance TokenizerMetadata_eq_dec : EqDecision TokenizerMetadata.
Proof. solve_decision. Defined.
#[global] Instance Pooling_eq_dec : EqDecision Pooling.
Proof. solve_decision. Defined.
#[global] Instance Prefixes_eq_dec : EqDecision Prefixes.
Proof. solve_decision. Defined.
#[global] Instance Dimensions_eq_dec : EqDecision Dimensions.
Proof. solve_decision. Defined.
#[global] Instance TensorMetadata_eq_dec : EqDecision TensorMetadata.
Proof. solve_decision. Defined.
#[global] Instance OnnxInputNames_eq_dec : EqDecision OnnxInputNames.
Proof. solve_decision. Defined.
#[global] Instance RuntimeMetadata_eq_dec : EqDecision RuntimeMetadata.
Proof. solve_decision. Defined.
#[global] Instance Artifact_eq_dec : EqDecision Artifact.
Proof. solve_decision. Defined.
#[global] Instance Manifest_eq_dec : EqDecision Manifest.
Proof. solve_decision. Defined.

Definition SCHEMA_VERSION : N := 1.
Definition MAX_ARTIFACTS : N := 64.
Definition MAX_TOTAL_ARTIFACT_BYTES : N := 16 * 1024 * 1024 * 1024.
Definition MAX_MANIFEST_BYTES : N := 1024 * 1024.
Definition MAX_METADATA_TEXT_BYTES : N := 4 * 1024.
Definition MAX_URL_BYTES : N := 8 * 1024.
Definition MAX_TENSOR_NAME_BYTES : N := 256.
Definition MAX_MATRYOSHKA_DIMENSIONS : N := 64.

(** * Path and identifier checks *)

(** [byte.is_ascii_alphanumeric() || matches!(byte, b'-' | b'_' | b'.')] *)
Definition name_byte (c : ascii) : bool :=
  is_ascii_alphanumeric c || Ascii.eqb c "-" || Ascii.eqb c "_" || Ascii.eqb c ".".

Definition WINDOWS_DEVICES : list string :=
  ["CON"; "PRN"; "AUX"; "NUL"; "COM1"; "COM2"; "COM3"; "COM4"; "COM5"; "COM6"; "COM7"; "COM8"; "COM9";
   "LPT1"; "LPT2"; "LPT3"; "LPT4"; "LPT5"; "LPT6"; "LPT7"; "LPT8"; "LPT9"].

(** [is_windows_device_name] *)
Definition is_windows_device_name (component : string) : bool :=
  existsb (String.eqb (to_ascii_uppercase (hd "" (str_split "." component)))) WINDOWS_DEVICES.

(** [Path::components] on Unix: a leading slash is the root; empty components and
    dots vanish, except a dot at the start of a relative path. *)
Inductive Component := RootDir | CurDir | ParentDir | Normal (s : string).
Definition component_of (s : string) : Component := if String.eqb s ".." then ParentDir else Normal s.
Definition is_absolute (p : string) : bool := starts_with "/" p.
Definition components (p : string) : list Component :=
  let parts := str_split "/" p in
  let tail := component_of <$> List.filter (λ s, negb (str_is_empty s || String.eqb s ".")) parts in
  if is_absolute p then RootDir :: tail
  else if String.eqb (hd "" parts) "." then CurDir :: tail else tail.
Definition is_normal (c : Component) : bool := match c with Normal _ => true | _ => false end.

Definition bad_component (c : string) : bool :=
  str_is_empty c || (255 <? str_len c)%N
  || match str_last c with Some x => Ascii.eqb x "." || Ascii.eqb x " " | None => false end
  || negb (str_forall name_byte c) || is_windows_device_name c.

(** [validate_relative_path] *)
Definition validate_relative_path (value : string) : result Error unit :=
  ensure negb (str_is_empty value || (1024 <? str_len value)%N || has_char "\" value || is_absolute value
               || existsb (λ c, negb (is_normal c)) (components value)
               || existsb bad_component (str_split "/" value))
    else EInvalid "artifact path is unsafe" in
  Ok tt.

(** [is_path_ancestor] *)
Definition is_path_ancestor (parent child : string) : bool :=
  match strip_prefix parent child with Some suffix => starts_with "/" suffix | None => false end.

(** [validate_id] *)
Definition validate_id (value : string) : result Error unit :=
  ensure negb (str_is_empty value || (200 <? str_len value)%N || starts_with "/" value
               || match str_last value with Some c => Ascii.eqb c "/" | None => false end
               || existsb (λ part, str_is_empty part || String.eqb part "." || String.eqb part ".."
                                   || negb (str_forall name_byte part)) (str_split "/" value))
    else EInvalid "canonical_id contains unsafe characters" in
  Ok tt.

(** * Manifest validation *)

Section validation.
Context {U : UrlCrate}.

Definition is_lower_hex_of (n : N) (s : string) : bool := (str_len s =? n)%N && str_forall is_lower_hex s.

Definition loopback_host (host : string) : bool :=
  String.eqb host "127.0.0.1" || String.eqb host "::1" || String.eqb host "localhost".
Definition safe_loopback (u : Url) : bool :=
  String.eqb (url_scheme u) "http" && match url_host_str u with Some h => loopback_host h | None => false end.

(** The checks of [validate_artifacts] on one artifact that do not concern the others. *)
Definition check_artifact_source (a : Artifact) : result Error unit :=
  ensure negb (MAX_URL_BYTES <? str_len (url a))%N else EInvalid "artifact URL exceeds the supported length" in
  let? u := ok_or (url_parse (url a)) (EInvalid "artifact URL is invalid") in
  ensure negb ((negb (String.eqb (url_scheme u) "https") && negb (safe_loopback u))
               || bool_decide (url_host_str u = None) || negb (String.eqb (url_username u) "")
               || bool_decide (url_password u ≠ None))
    else EInvalid "artifact URL must use HTTPS (HTTP is allowed only for loopback tests) and contain no credentials" in
  ensure negb (negb (is_lower_hex_of 64 (sha256 a)) || (size a =? 0)%N)
    else EInvalid "artifact requires SHA-256 and non-zero size" in
  Ok tt.

(** [validate_artifacts]; [seen] is the set of portable paths so far. *)
Fixpoint validate_artifacts_from (seen : list string) (l : list Artifact) : result Error unit :=
  match l with
  | [] => Ok tt
  | a :: l =>
    let? _ := validate_relative_path (path a) in
    let portable := to_ascii_lowercase (path a) in
    ensure negb (String.eqb portable "manifest.json")
      else EInvalid "manifest.json is reserved for the installed identity record" in
    ensure negb (bool_decide (portable ∈ seen)) else EInvalid "artifact paths must be unique" in
    ensure negb (existsb (λ e, negb (String.eqb e portable) &&
                               (is_path_ancestor e portable || is_path_ancestor portable e)) (portable :: seen))
      else EInvalid "artifact paths cannot be ancestors of other artifacts" in
    let? _ := check_artifact_source a in
    validate_artifacts_from (portable :: seen) l
  end.
Definition validate_artifacts (l : list Artifact) : result Error unit := validate_artifacts_from [] l.

(** [validate_bounded_fields] *)
Definition validate_bounded_fields (m : Manifest) : result Error unit :=
  let semantic_text := match semantic_verification m with Verified e => e | Unverified r => r end in
  let metadata_fields :=
    [spdx (license m); semantic_text; kind (tokenizer m); query (prefixes m); document (prefixes m);
     format (tensors m); dtype (tensors m); architecture (tensors m)] in
  ensure negb (existsb (λ f, (MAX_METADATA_TEXT_BYTES <? str_len f)%N) metadata_fields
               || (MAX_URL_BYTES <? str_len (source_url (license m)))%N)
    else EInvalid "manifest metadata exceeds the supported length" in
  match runtime m with
  | CatalogOnly => Ok tt
  | Onnx _ _ ins output _ _ =>
    let tensor_names := [input_ids ins] ++ option_list (attention_mask ins) ++ option_list (token_type_ids ins) ++ [output] in
    ensure negb (existsb (λ n, (MAX_TENSOR_NAME_BYTES <? str_len n)%N) tensor_names)
      else EInvalid "runtime tensor name exceeds the supported length" in
    Ok tt
  end.

(** [validate_runtime] *)
Definition validate_runtime (r : RuntimeMetadata) : result Error unit :=
  match r with
  | CatalogOnly => Ok tt
  | Onnx model_file tokenizer_file ins output _ _ =>
    let? _ := validate_relative_path model_file in
    let? _ := validate_relative_path tokenizer_file in
    let declared := [input_ids ins] ++ option_list (attention_mask ins) ++ option_list (token_type_ids ins) in
    ensure negb (String.eqb model_file tokenizer_file || is_blank (input_ids ins) || is_blank output
                 || negb (length (remove_dups declared) =? length declared)%nat
                 || existsb is_blank (option_list (attention_mask ins))
                 || existsb is_blank (option_list (token_type_ids ins)))
      else EInvalid "ONNX runtime metadata is incomplete" in
    Ok tt
  end.

(** [validate_runtime_artifacts] *)
Definition validate_runtime_artifacts (r : RuntimeMetadata) (l : list Artifact) : result Error unit :=
  match r with
  | CatalogOnly => Ok tt
  | Onnx model_file tokenizer_file _ _ _ _ =>
    ensure forallb (λ required, existsb (λ a, String.eqb (path a) required) l) [model_file; tokenizer_file]
      else EInvalid "ONNX runtime file is not declared as an artifact" in
    Ok tt
  end.

Fixpoint strictly_increasing (l : list N) : bool :=
  match l with
  | a :: (b :: _) as l' => (a <? b)%N && strictly_increasing l'
  | _ => true
  end.

(** [Manifest::validate] *)
Definition validate (m : Manifest) : result Error unit :=
  ensure (schema_version m =? SCHEMA_VERSION)%N else EInvalid "unsupported schema_version" in
  let? _ := validate_id (canonical_id m) in
  let? _ := validate_bounded_fields m in
  ensure is_lower_hex_of 40 (revision m) else EInvalid "revision must be a 40-character commit hash" in
  ensure negb (is_blank (spdx (license m))
               || match url_parse (source_url (license m)) with
                  | Some u => negb (String.eqb (url_scheme u) "https")
                  | None => true
                  end)
    else EInvalid "license metadata must contain SPDX id and HTTPS source" in
  ensure negb (is_blank (kind (tokenizer m)) || (max_tokens (tokenizer m) =? 0)%N)
    else EInvalid "tokenizer metadata is incomplete" in
  ensure negb ((native (dimensions m) =? 0)%N || (MAX_MATRYOSHKA_DIMENSIONS <? len (matryoshka (dimensions m)))%N
               || existsb (λ v, (v =? 0)%N || (native (dimensions m) <=? v)%N) (matryoshka (dimensions m))
               || negb (strictly_increasing (matryoshka (dimensions m))))
    else EInvalid "invalid embedding dimensions" in
  ensure negb (is_blank (format (tensors m)) || is_blank (dtype (tensors m)) || is_blank (architecture (tensors m)))
    else EInvalid "tensor metadata is incomplete" in
  let? _ := validate_runtime (runtime m) in
  let? _ := match semantic_verification m with
            | Verified e => if is_blank e then Err (EInvalid "semantic verification evidence is empty") else Ok tt
            | Unverified r => if is_blank r then Err (EInvalid "semantic verification reason is empty") else Ok tt
            end in
  ensure negb (len (artifacts m) =? 0)%N else EInvalid "manifest has no artifacts" in
  ensure negb (MAX_ARTIFACTS <? len (artifacts m))%N else EInvalid "manifest has too many artifacts" in
  ensure match checked_sum u64_max (size <$> artifacts m) with
         | Some total => (total <=? MAX_TOTAL_ARTIFACT_BYTES)%N
         | None => false
         end else EInvalid "manifest aggregate artifact size exceeds the supported limit" in
  let? _ := validate_artifacts (artifacts m) in
  validate_runtime_artifacts (runtime m) (artifacts m).

(** [Manifest::semantics_verified] *)
Definition semantics_verified (m : Manifest) : bool :=
  match semantic_verification m with Verified _ => true | Unverified _ => false end.

(** [serde_json] on manifests. *)
Class JsonCrate := {
  json_from_slice : string → result string Manifest;
  json_to_vec_pretty : Manifest → result string string;
}.
Context {J : JsonCrate}.

(** [Manifest::from_json] *)
Definition from_json (bytes : string) : result Error Manifest :=
  ensure negb (MAX_MANIFEST_BYTES <? str_len bytes)%N else EInvalid "manifest exceeds the supported size" in
  let? m := map_err Json (json_from_slice bytes) in
  let? _ := validate m in
  Ok m.

(** [curated_manifests] of a release, whose committed files are [committed]. *)
Fixpoint curated_manifests (committed : list string) : result Error (list Manifest) :=
  match committed with
  | [] => Ok []
  | bytes :: committed =>
    let? m := from_json bytes in
    let? ms := curated_manifests committed in
    Ok (m :: ms)
  end.

(** [Manifest::to_json] *)
Definition to_json (m : Manifest) : result Error string :=
  let? _ := validate m in
  let? encoded := map_err Json (json_to_vec_pretty m) in
  ensure negb (MAX_MANIFEST_BYTES <? str_len encoded)%N else EInvalid "manifest exceeds the supported size" in
  Ok encoded.

End validation.

(** * What a valid manifest guarantees *)

(** Two portable paths can be materialised side by side on any file system. *)
Definition compatible (p q : string) : Prop :=
  p ≠ q ∧ is_path_ancestor p q = false ∧ is_path_ancestor q p = false.

(** A path that names a file strictly below any directory it is joined to. *)
Record contained (p : string) : Prop := {
  ct_components : components p = Normal <$> str_split "/" p;
  ct_relative : is_absolute p = false;
  ct_length : (1 <= str_len p <= 1024)%N;
  ct_parts : Forall (λ c, c ≠ "" ∧ c ≠ "." ∧ c ≠ ".." ∧ (str_len c <= 255)%N ∧
                          str_forall name_byte c = true ∧ is_windows_device_name c = false) (str_split "/" p);
}.

Lemma bad_component_false c :
  bad_component c = false →
  c ≠ "" ∧ c ≠ "." ∧ c ≠ ".." ∧ (str_len c <= 255)%N ∧ str_forall name_byte c = true ∧
  is_windows_device_name c = false.
Proof.
  unfold bad_component. intros H. inv_bool. split_and!; try done; by intros ->.
Qed.

Lemma components_safe p :
  is_absolute p = false → Forall (λ c, bad_component c = false) (str_split "/" p) →
  components p = Normal <$> str_split "/" p.
Proof.
  intros Ha Hp. unfold components. rewrite Ha.
  assert (Hhd : String.eqb (hd "" (str_split "/" p)) "." = false).
  { destruct Hp as [|c l Hc _]; [done|]. simpl. apply bad_component_false in Hc as (_ & H & _).
    by apply String.eqb_neq. }
  rewrite Hhd. clear Hhd Ha. induction Hp as [|c l Hc _ IH]; [done|].
  apply bad_component_false in Hc as (H1 & H2 & H3 & _).
  simpl. apply Config.str_is_empty_false in H1. apply String.eqb_neq in H2, H3.
  rewrite H1, H2. simpl. unfold component_of at 1. rewrite H3. by f_equal.
Qed.

Lemma existsb_false {A} (f : A → bool) l : existsb f l = false ↔ Forall (λ x, f x = false) l.
Proof. induction l as [|x l IH]; simpl; [by split|]. rewrite orb_false_iff, Forall_cons, IH. done. Qed.

Lemma validate_relative_path_Ok p : validate_relative_path p = Ok tt → contained p.
Proof.
  unfold validate_relative_path. intros H. apply Config.ensure_Ok in H as [H _]. inv_bool.
  match goal with H : existsb bad_component _ = false |- _ => apply existsb_false in H as Hc end.
  assert (p ≠ "") by by apply Config.str_is_empty_false.
  split; try done.
  - by apply components_safe.
  - split; [|done]. destruct p; [done|]. unfold str_len; simpl. lia.
  - eapply Forall_impl; [exact Hc|]. apply bad_component_false.
Qed.

Section guarantees.
Context {U : UrlCrate}.

Definition artifact_ok (a : Artifact) : Prop :=
  validate_relative_path (path a) = Ok tt ∧ to_ascii_lowercase (path a) ≠ "manifest.json" ∧
  check_artifact_source a = Ok tt.

Definition portable (a : Artifact) : string := to_ascii_lowercase (path a).

Lemma fresh_compatible p seen :
  (negb (bool_decide (p ∈ seen)) = true ∧
   negb (existsb (λ e, negb (String.eqb e p) && (is_path_ancestor e p || is_path_ancestor p e)) (p :: seen)) = true)
  ↔ Forall (compatible p) seen.
Proof.
  rewrite !negb_true_iff, bool_decide_eq_false. simpl. rewrite String.eqb_refl. simpl.
  rewrite existsb_false, !Forall_forall. unfold compatible. split.
  - intros [Hin Hall] e He. specialize (Hall e He).
    assert (e ≠ p) as Hne by (intros ->; done). apply String.eqb_neq in Hne as Heq. rewrite Heq in Hall.
    simpl in Hall. apply orb_false_elim in Hall as [? ?]. split_and!; done.
  - intros Hall. split.
    + intros Hin. by destruct (Hall p Hin) as [[] _].
    + intros e He. destruct (Hall e He) as (Hne & H1 & H2). by rewrite H1, H2, andb_false_r.
Qed.

(** The loop over the artifacts decides exactly: each artifact on its own, and
    every pair of portable paths. *)
Lemma validate_artifacts_from_Ok seen l :
  validate_artifacts_from seen l = Ok tt ↔
  Forall artifact_ok l ∧ Forall (λ a, Forall (compatible (portable a)) seen) l ∧
  List.ForallOrdPairs (λ a b, compatible (portable b) (portable a)) l.
Proof.
  revert seen. induction l as [|a l IH]; intros seen; cbn [validate_artifacts_from].
  { split; [intros _; split_and!; constructor|done]. }
  fold (portable a). rewrite Config.bind_unit_Ok, !Config.ensure_Ok, Config.bind_unit_Ok, IH.
  rewrite negb_true_iff, String.eqb_neq. pose proof (fresh_compatible (portable a) seen) as Hf. split.
  - intros (H1 & H2 & H3 & H4 & H5 & H6 & H7 & H8). split_and!.
    + by constructor.
    + constructor; [by apply Hf|]. eapply Forall_impl; [exact H7|]. simpl. intros b Hb. by inversion Hb.
    + constructor; [|done]. eapply Forall_impl; [exact H7|]. simpl. intros b Hb. by inversion Hb.
  - intros (H1 & H2 & H3). apply Forall_cons in H1 as [(A1 & A2 & A3) H1]. apply Forall_cons in H2 as [B1 H2].
    inversion H3; subst. apply Hf in B1 as [B1 B2]. split_and!; try done.
    rewrite !Forall_forall in *. intros b Hb. constructor; auto.
Qed.

Record safe_manifest (m : Manifest) : Prop := {
  sm_count : (1 <= len (artifacts m) <= MAX_ARTIFACTS)%N;
  sm_total : (sum_N (size <$> artifacts m) <= MAX_TOTAL_ARTIFACT_BYTES)%N;
  sm_contained : Forall (λ a, contained (path a)) (artifacts m);
  sm_digests : Forall (λ a, is_lower_hex_of 64 (sha256 a) = true ∧ (1 <= size a)%N) (artifacts m);
  sm_reserved : Forall (λ a, portable a ≠ "manifest.json") (artifacts m);
  sm_disjoint : ∀ i j a b, artifacts m !! i = Some a → artifacts m !! j = Some b → i ≠ j →
                compatible (portable a) (portable b);
  sm_runtime : ∀ mf tf ins o p n, runtime m = Onnx mf tf ins o p n →
               mf ≠ tf ∧ (∃ a, a ∈ artifacts m ∧ path a = mf) ∧ (∃ b, b ∈ artifacts m ∧ path b = tf);
}.

Lemma compatible_sym p q : compatible p q → compatible q p.
Proof. intros (H1 & H2 & H3). split_and!; [by intros ->|done|done]. Qed.

Lemma ord_pairs_lookup {A} (R : A → A → Prop) l :
  List.ForallOrdPairs R l → ∀ i j a b, l !! i = Some a → l !! j = Some b → (i < j)%nat → R a b.
Proof.
  induction 1 as [|x l Hx _ IH]; intros i j a b Hi Hj Hij; [done|].
  destruct i as [|i], j as [|j]; simplify_eq/=; try lia.
  - rewrite Forall_forall in Hx. apply Hx. by eapply list_elem_of_lookup_2.
  - eapply IH; [exact Hi|exact Hj|lia].
Qed.

Lemma existsb_path l p : existsb (λ a, String.eqb (path a) p) l = true → ∃ a, a ∈ l ∧ path a = p.
Proof.
  intros (a & Ha & He)%existsb_exists. exists a. split; [by apply list_elem_of_In|by apply String.eqb_eq].
Qed.

Lemma validate_safe m : validate m = Ok tt → safe_manifest m.
Proof.
  unfold validate. intros Hra. inv_result. inv_bool.
  repeat match goal with u : () |- _ => destruct u end.
  match goal with H : validate_artifacts _ = Ok tt |- _ =>
    apply validate_artifacts_from_Ok in H as (Hok & _ & Hpairs) end.
  match goal with H : validate_runtime _ = Ok tt |- _ => rename H into Hrt end.
  destruct (checked_sum _ _) as [total|] eqn:Hs; [|done]. apply checked_sum_Some in Hs as [-> _]. inv_bool.
  split.
  - lia.
  - done.
  - eapply Forall_impl; [exact Hok|]. intros a (Hp & _). by apply validate_relative_path_Ok.
  - eapply Forall_impl; [exact Hok|]. intros a (_ & _ & Ha). clear -Ha. unfold check_artifact_source in Ha.
    inv_result. inv_bool. split; [done|]. lia.
  - eapply Forall_impl; [exact Hok|]. by intros a (_ & Hp & _).
  - intros i j a b Hi Hj Hij. destruct (decide (i < j)%nat).
    + apply compatible_sym. by eapply (ord_pairs_lookup _ _ Hpairs i j).
    + eapply (ord_pairs_lookup _ _ Hpairs j i); [done..|lia].
  - intros mf tf ins o p n Hr. rewrite Hr in *. unfold validate_runtime, validate_runtime_artifacts in *.
    inv_result. simpl in *. inv_bool. split; [done|]. split; by apply existsb_path.
Qed.


Lemma to_json_from_json {J : JsonCrate} m bytes :
  to_json m = Ok bytes → json_from_slice bytes = Ok m → from_json bytes = Ok m.
Proof.
  unfold to_json, from_json. intros H Hj. apply Config.bind_unit_Ok in H as [Hv H].
  apply bind_Ok in H as (e & He & H). apply Config.ensure_Ok in H as [Hl [= ->]]. rewrite Hl, Hj.
  cbn [map_err result_bind]. by rewrite Hv.
Qed.


End guarantees.

(** A manifest that validates. *)
Definition sample_manifest : Manifest :=
  mk_Manifest 1 "acme/tiny" "0123456789abcdef0123456789abcdef01234567"
    (mk_License "MIT" "https://acme.example/license") (Verified "golden")
    (mk_TokenizerMetadata "bert" 16 true) Mean (mk_Prefixes "" "") (mk_Dimensions 4 [2]%N)
    (mk_TensorMetadata "onnx" "f32" "bert")
    (Onnx "onnx/model.onnx" "tokenizer.json" (mk_OnnxInputNames "input_ids" (Some "attention_mask") None)
       "last_hidden_state" 0 true)
    [mk_Artifact "onnx/model.onnx" "https://acme.example/model.onnx"
       "0123456789abcdef0123456789abcdef0123456789abcdef0123456789abcdef" 10;
     mk_Artifact "tokenizer.json" "https://acme.example/tokenizer.json"
       "1123456789abcdef0123456789abcdef0123456789abcdef0123456789abcdef" 20].


(** A JSON interface that knows one document. *)
Definition SimpleJson : JsonCrate := {|
  json_from_slice s := if String.eqb s "{tiny}" then Ok sample_manifest else Err "unexpected document";
  json_to_vec_pretty m := if decide (m = sample_manifest) then Ok "{tiny}" else Err "unsupported";
|}.


(** What was private in an error: its text, origin or digests, or the text of the I/O error. *)
Definition same_category (a b : Error) : Prop :=
  match a, b with
  | EInvalid _, EInvalid _ | ECancelled, ECancelled | EOffline, EOffline | EInUse, EInUse | EBusy, EBusy
  | OriginNotAllowed _, OriginNotAllowed _ | HashMismatch _ _, HashMismatch _ _ | Json _, Json _ => True
  | SizeLimit e a, SizeLimit e' a' => e = e' ∧ a = a'
  | Io k _, Io k' _ => k = k'
  | Http k, Http k' => k = k'
  | _, _ => False
  end.

(** The debug form of an error says its category and nothing of what it carries, and an error
    of the HTTP client keeps nothing of its text in either form. *)
Theorem model_errors_private a b c d :
  (same_category a b → Error_debug a = Error_debug b) ∧
  (is_connect c = is_connect d → is_body c = is_body d → is_timeout c = is_timeout d → is_request c = is_request d →
   is_decode c = is_decode d → from_reqwest c = from_reqwest d).
Proof. split; [destruct a, b; cbn; naive_solver|]. unfold from_reqwest. by intros -> -> -> -> ->. Qed.

(** The curated catalogue is in order and every manifest of it is valid, or there is none. *)
Theorem curated_valid {U : UrlCrate} {J : JsonCrate} committed ms :
  curated_manifests committed = Ok ms ↔ Forall2 (λ bytes m, from_json bytes = Ok m) committed ms.
Proof.
  revert ms. induction committed as [|x l IH]; intros ms; cbn [curated_manifests].
  - split; [by intros [= <-]|by inversion 1].
  - rewrite bind_Ok. setoid_rewrite bind_Ok. split.
    + intros (m & Hm & ms' & Hms & [= <-]). constructor; [done|by apply IH].
    + inversion 1; subst. eexists. split; [done|]. eexists. split; [by apply IH|done].
Qed.

End Manifest.
