(* ===== verification/Install.v ===== *)
(** Model installation ([crates/impossible-models/src/install.rs]): the commit gate,
    the network policy and the requests of a download.

    The HTTP client and the URL parser are parameters; what servers answer is part of the
    environment of a download, so the theorems hold for every server.  The transaction that
    writes to the cache is in [Installer]. *)

From Stdlib Require Import NArith Lia Ascii.
From stdpp Require Import base strings list.
From S2P Require Import Prelude Core Std Config Manifest.
Import Manifest.

Local Open Scope string_scope.
Local Open Scope list_scope.

Module Install.

(** * The commit gate *)

Inductive GateState := COMMIT_OPEN | COMMIT_CANCELLED | COMMIT_CROSSED.
Inductive CommitDecision := CancelledBeforeCommit | AlreadyCommitted.

#[global] Instance GateState_eq_dec : EqDecision GateState.
Proof. solve_decision. Defined.
#[global] Instance CommitDecision_eq_dec : EqDecision CommitDecision.
Proof. solve_decision. Defined.

(** [InstallCommitGate::new] *)
Definition InstallCommitGate_new : GateState := COMMIT_OPEN.

(** [InstallCommitGate::request_cancel]: one compare-exchange. *)
Definition request_cancel (g : GateState) : CommitDecision * GateState :=
  match g with
  | COMMIT_OPEN | COMMIT_CANCELLED => (CancelledBeforeCommit, COMMIT_CANCELLED)
  | COMMIT_CROSSED => (AlreadyCommitted, COMMIT_CROSSED)
  end.

(** [InstallCommitGate::begin_commit]: one compare-exchange. *)
Definition begin_commit (g : GateState) : bool * GateState :=
  match g with
  | COMMIT_OPEN => (true, COMMIT_CROSSED)
  | g => (false, g)
  end.

(** * Network policy *)

Section install.
Context {U : UrlCrate}.

Record InstallOptions := mk_InstallOptions {
  offline : bool;
  allowed_origins : list Url;
  max_redirects : N;
  max_artifact_bytes : N;
  max_artifacts : N;
  max_total_artifact_bytes : N;
}.

Definition DEFAULT_ORIGINS : list string :=
  ["https://huggingface.co"; "https://cas-server.xethub.hf.co"; "https://cas-server.xethub-eu.hf.co";
   "https://transfer.xethub.hf.co"; "https://transfer.xethub-eu.hf.co"; "https://us.aws.cdn.hf.co";
   "https://us.gcp.cdn.hf.co"; "https://cdn-lfs-us-1.hf.co"; "https://cdn-lfs-eu-1.hf.co"].

(** [Default for InstallOptions] *)
Definition InstallOptions_default : InstallOptions :=
  mk_InstallOptions false (omap url_parse DEFAULT_ORIGINS) 3 (2 * 1024 * 1024 * 1024) MAX_ARTIFACTS
    (8 * 1024 * 1024 * 1024).

(** One origin of [Installer::new]; an opaque origin serializes as [null]. *)
Definition unsafe_origin (o : Url) : bool :=
  let canonical := default "null" (url_origin o) +:+ "/" in
  bool_decide (url_host_str o = None) || (negb (String.eqb (url_scheme o) "https") && negb (safe_loopback o))
  || negb (String.eqb (url_username o) "") || bool_decide (url_password o ≠ None)
  || negb (String.eqb (url_path o) "/") || bool_decide (url_query o ≠ None)
  || bool_decide (url_fragment o ≠ None) || negb (String.eqb (url_as_str o) canonical).

(** The validation of [Installer::new]. *)
Definition Installer_new (o : InstallOptions) : result Error InstallOptions :=
  ensure negb ((max_artifact_bytes o =? 0) || (max_artifacts o =? 0) || (max_total_artifact_bytes o =? 0))%N
    else EInvalid "installation limits must be non-zero" in
  ensure negb (len (allowed_origins o) =? 0)%N
    else EInvalid "at least one download origin must be explicitly allowed" in
  ensure negb (existsb unsafe_origin (allowed_origins o))
    else EInvalid "allowed origins must be exact canonical HTTPS origins (HTTP is test-only for loopback)" in
  Ok o.

(** The loop of [validate_install_size]. *)
Fixpoint add_sizes (o : InstallOptions) (total : N) (l : list Artifact) : result Error N :=
  match l with
  | [] => Ok total
  | a :: l =>
    ensure negb (max_artifact_bytes o <? size a)%N else SizeLimit (max_artifact_bytes o) (size a) in
    let? total := ok_or (checked_add u64_max total (size a)) (EInvalid "aggregate artifact size overflow") in
    add_sizes o total l
  end.
(** [Installer::validate_install_size] *)
Definition validate_install_size (o : InstallOptions) (m : Manifest) : result Error unit :=
  ensure negb (max_artifacts o <? len (artifacts m))%N
    else EInvalid "manifest exceeds configured artifact count" in
  let? total := add_sizes o 0 (artifacts m) in
  ensure negb (max_total_artifact_bytes o <? total)%N else SizeLimit (max_total_artifact_bytes o) total in
  Ok tt.

Definition same_origin (o c : Url) : bool :=
  String.eqb (url_scheme o) (url_scheme c) && bool_decide (url_host_str o = url_host_str c)
  && bool_decide (url_port_or_known_default o = url_port_or_known_default c).

(** [Installer::ensure_allowed] *)
Definition ensure_allowed (o : InstallOptions) (c : Url) : result Error unit :=
  ensure existsb (λ origin, same_origin origin c) (allowed_origins o)
    else OriginNotAllowed (default "null" (url_origin c)) in
  Ok tt.

(** * Download *)

(** One piece of a response body: data, a transport error, or the observation of a
    cancellation. *)
Inductive Chunk := CData (bytes : string) | CFailed (e : Error) | CCancelled.

(** A response: its status, its [Location] ([Some None] when it is not text), its
    [Content-Length] as text, and its body. *)
Record HttpResponse := mk_HttpResponse {
  status : N;
  location : option (option string);
  content_length : option string;
  body : list Chunk;
}.

(** The environment of one download: whether cancellation is seen before the
    [n]-th request, and what the client answers to it ([None]: cancelled while
    waiting). *)
Record DownloadEnv := mk_DownloadEnv {
  cancelled_before : nat → bool;
  send : nat → Url → option (result Error HttpResponse);
}.

Definition is_redirection (s : N) : bool := ((300 <=? s) && (s <? 400))%N.

(** The request loop of [Installer::download]: the URLs requested and the final
    response; [fuel] is one more than the redirects left. *)
Fixpoint follow (o : InstallOptions) (e : DownloadEnv) (fuel n : nat) (u : Url) : list Url * result Error HttpResponse :=
  match ensure_allowed o u with
  | Err err => ([], Err err)
  | Ok _ =>
    if cancelled_before e n then ([], Err ECancelled) else
    match send e n u with
    | None => ([u], Err ECancelled)
    | Some (Err err) => ([u], Err err)
    | Some (Ok r) =>
      if is_redirection (status r) then
        match fuel with
        | O => ([u], Err (EInvalid "redirect limit exceeded"))
        | S fuel =>
          match location r with
          | None => ([u], Err (EInvalid "redirect omitted Location"))
          | Some None => ([u], Err (EInvalid "redirect Location is invalid"))
          | Some (Some l) =>
            match url_join u l with
            | None => ([u], Err (EInvalid "redirect URL is invalid"))
            | Some u' => let '(us, res) := follow o e fuel (S n) u' in (u :: us, res)
            end
          end
        end
      else if (status r =? 200)%N then ([u], Ok r)
      else ([u], Err (EInvalid ("artifact server returned HTTP " +:+ decimal (status r))))
    end
  end.

(** [validate_content_length] *)
Definition validate_content_length (r : HttpResponse) (expected : N) : result Error unit :=
  match (s ← content_length r; parse_unsigned u64_max s) with
  | Some length => ensure negb (expected <? length)%N else SizeLimit expected length in Ok tt
  | None => Ok tt
  end.

(** * Properties *)

(** Any mix of cancellation requests and commit attempts on one gate. *)
Inductive GateOp := OpCancel | OpCommit.
Inductive GateAnswer := AnsCancel (d : CommitDecision) | AnsCommit (b : bool).

Definition gate_step (g : GateState) (op : GateOp) : GateAnswer * GateState :=
  match op with
  | OpCancel => let '(d, g) := request_cancel g in (AnsCancel d, g)
  | OpCommit => let '(b, g) := begin_commit g in (AnsCommit b, g)
  end.
Fixpoint gate_run (g : GateState) (ops : list GateOp) : list GateAnswer :=
  match ops with [] => [] | op :: ops => let '(a, g) := gate_step g op in a :: gate_run g ops end.

Definition cancel_won (a : GateAnswer) : bool := match a with AnsCancel CancelledBeforeCommit => true | _ => false end.
Definition commit_won (a : GateAnswer) : bool := match a with AnsCommit true => true | _ => false end.

Lemma gate_decided ops :
  (∀ a, a ∈ gate_run COMMIT_CANCELLED ops → a = AnsCancel CancelledBeforeCommit ∨ a = AnsCommit false) ∧
  (∀ a, a ∈ gate_run COMMIT_CROSSED ops → a = AnsCancel AlreadyCommitted ∨ a = AnsCommit false).
Proof.
  induction ops as [|[] ops [IH1 IH2]]; simpl; (split; intros a Ha; [|]);
    (inversion Ha; subst; auto).
Qed.

(** Cancellation and commit exclude each other: in any interleaving of
    cancellation requests and commit attempts on a gate, cancellation is never
    reported as won when a commit was entered, a commit is entered at most once,
    and whichever transition comes first decides every later answer. *)
Theorem gate_exclusive ops :
  let answers := gate_run InstallCommitGate_new ops in
  ¬ (existsb cancel_won answers = true ∧ existsb commit_won answers = true) ∧
  (length (List.filter commit_won answers) ≤ 1)%nat ∧
  (ops ≠ [] → existsb cancel_won answers = true ∨ existsb commit_won answers = true).
Proof.
  assert (Hno : ∀ g f, (∀ a, a ∈ gate_run g (tl ops) → f a = false) → List.filter f (gate_run g (tl ops)) = []).
  { intros g f. generalize (gate_run g (tl ops)). intros l Hl. induction l as [|a l IH]; simpl; [done|].
    rewrite Hl by left. apply IH. intros b Hb. apply Hl. by right. }
  destruct ops as [|op ops]; [simpl; split_and!; [by intros []|lia|done]|]. simpl tl in Hno.
  destruct (gate_decided ops) as [Hc Hx]. destruct op; simpl.
  - assert (Hf : List.filter commit_won (gate_run COMMIT_CANCELLED ops) = []).
    { apply Hno. intros a Ha. by destruct (Hc a Ha) as [->| ->]. }
    rewrite Hf. simpl. split_and!; [|lia|by left]. intros [_ (a & Ha & Hw)%existsb_exists].
    apply list_elem_of_In in Ha. by destruct (Hc a Ha) as [->| ->].
  - assert (Hf : List.filter commit_won (gate_run COMMIT_CROSSED ops) = []).
    { apply Hno. intros a Ha. by destruct (Hx a Ha) as [->| ->]. }
    rewrite Hf. simpl. split_and!; [|lia|by right]. intros [(a & Ha & Hw)%existsb_exists _].
    apply list_elem_of_In in Ha. by destruct (Hx a Ha) as [->| ->].
Qed.

Lemma ensure_allowed_unit o u x : ensure_allowed o u = Ok x → ensure_allowed o u = Ok tt.
Proof. by destruct x. Qed.

Lemma follow_spec o e fuel n u us res :
  follow o e fuel n u = (us, res) →
  Forall (λ v, ensure_allowed o v = Ok tt) us ∧ (length us ≤ S fuel)%nat.
Proof.
  revert n u us res. induction fuel as [|fuel IH]; intros n u us res; cbn [follow];
    destruct (ensure_allowed o u) as [[]|err] eqn:Ha;
    try (intros [= <- <-]; simpl; split; [constructor|lia]);
    (destruct (cancelled_before e n); [intros [= <- <-]; simpl; split; [constructor|lia]|]);
    (destruct (send e n u) as [[r|]|]; [|intros [= <- <-]; simpl; split; [by repeat constructor|lia]..]);
    (destruct (is_redirection (status r)); [|destruct (_ =? _)%N; intros [= <- <-]; simpl; split; [by repeat constructor|lia|by repeat constructor|lia]]).
  - intros [= <- <-]. simpl. split; [by repeat constructor|lia].
  - destruct (location r) as [[l|]|]; [|intros [= <- <-]; simpl; split; [by repeat constructor|lia]..].
    destruct (url_join u l) as [u'|]; [|intros [= <- <-]; simpl; split; [by repeat constructor|lia]].
    destruct (follow o e fuel (S n) u') as [us' res'] eqn:Hf. intros [= <- <-].
    apply IH in Hf as [H1 H2]. simpl. split; [by constructor|lia].
Qed.

End install.

(** * A concrete policy and server *)

Definition sample_options : InstallOptions (U := SimpleUrl) :=
  mk_InstallOptions (U := SimpleUrl) false [("https", "acme.example", "/")] 1 100 4 100.

(** A server that redirects once and then sends the body in two chunks. *)
Definition sample_download (target : string) (chunks : list Chunk) (n : N) : DownloadEnv (U := SimpleUrl) :=
  mk_DownloadEnv (U := SimpleUrl) (λ _, false)
    (λ i _, match i with
            | O => Some (Ok (mk_HttpResponse 302 (Some (Some target)) None []))
            | _ => Some (Ok (mk_HttpResponse 200 None (Some (decimal n)) chunks))
            end).

End Install.
