(* ===== verification/Disk.v ===== *)
(** The file system under the model cache, programs over it, and a crash logic.

    A program is a tree of system calls.  A call takes effect or fails (a failed
    recursive removal may have removed part of the tree), and the machine may stop
    before any call; [Diverge] marks the end of a loop's fuel.  [run] executes a
    program under any such fate, so a statement about [run] covers every fault and
    every crash point; [exec] is the run without faults.  [wp] is the corresponding
    weakest precondition with a crash condition, the way the proofs of [Cache] reason.

    The cache root is a canonical real directory and the programs name it, its
    directories and their entries; an entry is a whole tree.  [unsynced] holds the
    directories whose entries changed since they were last flushed. *)

From Stdlib Require Import NArith Lia.
From stdpp Require Import base strings gmap list.
From S2P Require Import Prelude Manifest.

Local Open Scope string_scope.
Local Open Scope list_scope.

Module Disk.

(** * Objects *)

Inductive Kind := KFile | KDir | KSymlink | KSpecial.

(** A tree below the cache; what a symbolic link points to is outside. *)
Inductive Node :=
| File (bytes : string)
| Dir (children : list (string * Node))
| Symlink
| Special.

Definition kind (n : Node) : Kind :=
  match n with File _ => KFile | Dir _ => KDir | Symlink => KSymlink | Special => KSpecial end.

#[global] Instance Kind_eq_dec : EqDecision Kind.
Proof. solve_decision. Defined.

Fixpoint child (name : string) (cs : list (string * Node)) : option Node :=
  match cs with
  | [] => None
  | (n, c) :: cs => if String.eqb n name then Some c else child name cs
  end.

(** The node at a path below a node. *)
Fixpoint descend (n : Node) (below : list string) : option Node :=
  match below with
  | [] => Some n
  | name :: below => match n with Dir cs => child name cs ≫= λ c, descend c below | _ => None end
  end.

(** A replaced name keeps its place, a new one comes last. *)
Fixpoint set_child (name : string) (v : Node) (cs : list (string * Node)) : list (string * Node) :=
  match cs with
  | [] => [(name, v)]
  | (n, c) :: cs => if String.eqb n name then (n, v) :: cs else (n, c) :: set_child name v cs
  end.

(** The node with [v] at a path below it; its directories exist. *)
Fixpoint put (n : Node) (below : list string) (v : Node) : Node :=
  match below with
  | [] => v
  | name :: below =>
    match n with
    | Dir cs =>
      match below with
      | [] => Dir (set_child name v cs)
      | _ => match child name cs with Some c => Dir (set_child name (put c below v) cs) | None => n end
      end
    | _ => n
    end
  end.

(** A path is its components below the cache root: [[]] is the root, [[d]] one of its
    directories, [[d; n]] an entry of it, and so on. *)
Definition Path := list string.
Definition parent (p : Path) : Path := removelast p.

Record Fs := mk_Fs {
  tops : gmap string Kind;
  entries : gmap (string * string) Node;
  sequence : N;
  unsynced : gset Path;
}.

Definition set_entry (d n : string) (v : Node) (fs : Fs) : Fs :=
  mk_Fs (tops fs) (<[(d, n) := v]> (entries fs)) (sequence fs) ({[ [d] ]} ∪ unsynced fs).
Definition drop_entry (d n : string) (fs : Fs) : Fs :=
  mk_Fs (tops fs) (delete (d, n) (entries fs)) (sequence fs) ({[ [d] ]} ∪ unsynced fs).
Definition set_top (d : string) (fs : Fs) : Fs :=
  mk_Fs (<[d := KDir]> (tops fs)) (entries fs) (sequence fs) ({[ [] ]} ∪ unsynced fs).
(** Changes below an entry; the directories of the cache stay as they are. *)
Definition set_below (d n : string) (v : Node) (fs : Fs) : Fs :=
  mk_Fs (tops fs) (<[(d, n) := v]> (entries fs)) (sequence fs) (unsynced fs).
Definition flush (p : Path) (fs : Fs) : Fs :=
  mk_Fs (tops fs) (entries fs) (sequence fs) (unsynced fs ∖ {[p]}).

(** [io::Error]: its kind matters where the code asks for it. *)
Inductive IoError := NotFound | AlreadyExists | IoFault.
#[global] Instance IoError_eq_dec : EqDecision IoError.
Proof. solve_decision. Defined.

(** [From<io::Error> for Error] *)
Definition of_io (e : IoError) : Manifest.Error :=
  match e with
  | NotFound => Manifest.Io "NotFound" "entity not found"
  | AlreadyExists => Manifest.Io "AlreadyExists" "entity already exists"
  | IoFault => Manifest.Io "Other" "input/output error"
  end.

(** * System calls *)

Inductive Op : Type → Type :=
| SymlinkMetadata (p : Path) : Op Kind
| ReadDir (p : Path) : Op (list string)
| Canonicalize (p : Path) : Op (option Path)
| OpenDir (p : Path) : Op unit
| OpenFile (p : Path) : Op unit
| HandleMetadata (p : Path) : Op (Kind * N)
| ReadChunk (p : Path) (offset limit : N) : Op string
| SyncFile (p : Path) : Op unit
| SyncDir (p : Path) : Op unit
| CreateDirAll (p : Path) : Op unit
| MkDir (p : Path) : Op unit
| CreateNew (p : Path) : Op unit
| WriteAll (p : Path) (bytes : string) : Op unit
| Rename (from to : Path) : Op unit
| RemoveDirAll (p : Path) : Op unit
| RemoveFile (p : Path) : Op unit
| NextSequence : Op N
| Cancelled : Op bool.

Definition node_at (p : Path) (fs : Fs) : option Node :=
  match p with
  | d :: n :: below => entries fs !! (d, n) ≫= λ v, descend v below
  | _ => None
  end.

Definition metadata (p : Path) (fs : Fs) : option Kind :=
  match p with
  | [] => Some KDir
  | [d] => tops fs !! d
  | _ => kind <$> node_at p fs
  end.

(** The length [fstat] reports; that of a directory or a device does not matter. *)
Definition file_len (p : Path) (fs : Fs) : N :=
  match node_at p fs with Some (File bytes) => str_len bytes | _ => 0 end.

(** [rename(2)]: a directory replaces only an empty directory, anything else only
    something that is not a directory. *)
Definition replaceable (from to : Node) : bool :=
  match from, to with
  | Dir _, Dir [] => true
  | Dir _, _ => false
  | _, Dir _ => false
  | _, _ => true
  end.

(** Some directory on the way is a symbolic link, or the path itself is one. *)
Definition linked (p : Path) (fs : Fs) : bool :=
  existsb (λ i, bool_decide (metadata (take (S i) p) fs = Some KSymlink)) (seq 0 (length p)).

(** A new node at [p], in a directory that exists. *)
Definition create (p : Path) (v : Node) (fs : Fs) : result IoError unit * Fs :=
  match metadata (parent p) fs, metadata p fs with
  | None, _ => (Err NotFound, fs)
  | Some KDir, None =>
    match p with
    | [d; n] => (Ok tt, set_entry d n v fs)
    | d :: n :: below =>
      match entries fs !! (d, n) with
      | Some t => (Ok tt, set_below d n (put t below v) fs)
      | None => (Err NotFound, fs)
      end
    | _ => (Err IoFault, fs)
    end
  | Some KDir, Some _ => (Err AlreadyExists, fs)
  | Some _, _ => (Err IoFault, fs)
  end.

(** The names in one of the cache's directories, in some order. *)
Definition names_of (d : string) (fs : Fs) : list string :=
  omap (λ '((top, n), _), if String.eqb top d then Some n else None) (map_to_list (entries fs)).

Definition read_dir (p : Path) (fs : Fs) : result IoError (list string) :=
  match p, node_at p fs with
  | [d], _ =>
    match tops fs !! d with Some KDir => Ok (names_of d fs) | Some _ => Err IoFault | None => Err NotFound end
  | _, Some (Dir cs) => Ok (map fst cs)
  | _, Some _ => Err IoFault
  | _, None => Err NotFound
  end.

(** The reply of a call that is not disturbed, and the state after it. *)
Definition perform {R} (o : Op R) (fs : Fs) : result IoError R * Fs :=
  match o in Op R return result IoError R * Fs with
  | SymlinkMetadata p => (ok_or (metadata p fs) NotFound, fs)
  | ReadDir p => (read_dir p fs, fs)
  | Canonicalize p =>
    (match metadata p fs with None => Err NotFound | Some _ => Ok (if linked p fs then None else Some p) end, fs)
  | OpenDir p =>
    (match metadata p fs with Some KDir => Ok tt | Some _ => Err IoFault | None => Err NotFound end, fs)
  | OpenFile p =>
    (match metadata p fs with Some KSymlink => Err IoFault | Some _ => Ok tt | None => Err NotFound end, fs)
  | HandleMetadata p =>
    (match metadata p fs with Some k => Ok (k, file_len p fs) | None => Err NotFound end, fs)
  | ReadChunk p offset limit =>
    (match node_at p fs with
     | Some (File bytes) => Ok (String.substring (N.to_nat offset) (N.to_nat limit) bytes)
     | Some _ => Err IoFault
     | None => Err NotFound
     end, fs)
  | SyncFile p =>
    (match metadata p fs with Some KFile => Ok tt | Some _ => Err IoFault | None => Err NotFound end, fs)
  | SyncDir p =>
    match metadata p fs with Some _ => (Ok tt, flush p fs) | None => (Err NotFound, fs) end
  | CreateDirAll p =>
    match p with
    | [] => (Ok tt, fs)
    | [d] =>
      match tops fs !! d with
      | None => (Ok tt, set_top d fs)
      | Some (KDir | KSymlink) => (Ok tt, fs)
      | Some _ => (Err IoFault, fs)
      end
    | [d; n] =>
      match tops fs !! d with
      | Some (KFile | KSpecial) => (Err IoFault, fs)
      | t =>
        let fs := match t with None => set_top d fs | Some _ => fs end in
        match entries fs !! (d, n) with
        | None => (Ok tt, set_entry d n (Dir []) fs)
        | Some (Dir _) => (Ok tt, fs)
        | Some _ => (Err IoFault, fs)
        end
      end
    | _ => (Err IoFault, fs)
    end
  | MkDir p => create p (Dir []) fs
  | CreateNew p => create p (File "") fs
  | WriteAll p bytes =>
    match p with
    | d :: n :: below =>
      match entries fs !! (d, n), node_at p fs with
      | Some t, Some (File old) => (Ok tt, set_below d n (put t below (File (old +:+ bytes))) fs)
      | _, _ => (Err IoFault, fs)
      end
    | _ => (Err IoFault, fs)
    end
  | Rename from to =>
    match from, to with
    | [d; n], [d'; n'] =>
      match entries fs !! (d, n), tops fs !! d' with
      | Some v, Some _ =>
        let moved := set_entry d' n' v (drop_entry d n fs) in
        match entries fs !! (d', n') with
        | None => (Ok tt, moved)
        | Some w => if replaceable v w then (Ok tt, moved) else (Err IoFault, fs)
        end
      | _, _ => (Err NotFound, fs)
      end
    | _, _ => (Err IoFault, fs)
    end
  | RemoveDirAll p =>
    match p with
    | [d; n] =>
      match entries fs !! (d, n) with
      | None => (Err NotFound, fs)
      | Some (Dir _) => (Ok tt, drop_entry d n fs)
      | Some _ => (Err IoFault, fs)
      end
    | _ => (Err IoFault, fs)
    end
  | RemoveFile p =>
    match p with
    | [d; n] =>
      match entries fs !! (d, n) with
      | None => (Err NotFound, fs)
      | Some (Dir _) => (Err IoFault, fs)
      | Some _ => (Ok tt, drop_entry d n fs)
      end
    | _ => (Err IoFault, fs)
    end
  | NextSequence => (Ok (sequence fs), mk_Fs (tops fs) (entries fs) (wrapping_add (sequence fs) 1) (unsynced fs))
  | Cancelled => (Ok false, fs)
  end.

(** What may happen to a call.  A disturbed call fails: a recursive removal leaves any
    part [rest] of the directory, a write any prefix of the bytes; a disturbed read may
    instead return other bytes than the file held, as when it is being rewritten.
    [Cancelled] asks whether the caller has cancelled: disturbed, it has. *)
Record Disturbance := mk_Disturbance {
  rest : list (string * Node);
  written : nat;
  seen : option string;
}.
Inductive Fate := Proceeds | Disturbed (d : Disturbance).

Definition react {R} (f : Fate) (o : Op R) (fs : Fs) : result IoError R * Fs :=
  match f with
  | Proceeds => perform o fs
  | Disturbed dist =>
    match o in Op R return result IoError R * Fs with
    | NextSequence => perform NextSequence fs
    | RemoveDirAll p =>
      (Err IoFault,
       match p with
       | [d; n] => match entries fs !! (d, n) with Some (Dir _) => set_entry d n (Dir (rest dist)) fs | _ => fs end
       | _ => fs
       end)
    | WriteAll p bytes => (Err IoFault, (perform (WriteAll p (String.substring 0 (written dist) bytes)) fs).2)
    | Cancelled => (Ok true, fs)
    | ReadChunk p _ limit =>
      (match seen dist with
       | Some bytes => Ok (String.substring 0 (N.to_nat limit) bytes)
       | None => Err IoFault
       end, fs)
    | _ => (Err IoFault, fs)
    end
  end.

#[global] Arguments perform {R} !o fs : simpl nomatch.
#[global] Arguments react {R} !f !o fs : simpl nomatch.

(** * Programs *)

Inductive prog (A : Type) : Type :=
| Ret (a : A)
| Call {R : Type} (o : Op R) (k : result IoError R → prog A)
| Diverge.
Arguments Ret {A} a.
Arguments Call {A R} o k.
Arguments Diverge {A}.

Fixpoint prog_bind {A B} (p : prog A) (k : A → prog B) : prog B :=
  match p with
  | Ret a => k a
  | Call o c => Call o (λ r, prog_bind (c r) k)
  | Diverge => Diverge
  end.

(** [?] inside a program *)
Definition try {A B E} (p : prog (result E A)) (k : A → prog (result E B)) : prog (result E B) :=
  prog_bind p (λ r, match r with Ok a => k a | Err e => Ret (Err e) end).

(** A call with its [io::Result], and with its error converted. *)
Definition io {R} (o : Op R) : prog (result IoError R) := Call o Ret.
Definition lift {A} (p : prog (result IoError A)) : prog (result Manifest.Error A) :=
  prog_bind p (λ r, Ret (map_err of_io r)).
Definition call {R} (o : Op R) : prog (result Manifest.Error R) := lift (io o).

Inductive Outcome (A : Type) := Finished (a : A) | Crashed | Diverged.
Arguments Finished {A} a.
Arguments Crashed {A}.
Arguments Diverged {A}.

(** The run of a program under the given fates; the machine stops where they end. *)
Fixpoint run {A} (fates : list Fate) (p : prog A) (fs : Fs) {struct p} : Outcome A * Fs :=
  match p with
  | Ret a => (Finished a, fs)
  | Call o k =>
    match fates with
    | [] => (Crashed, fs)
    | f :: fates => let '(r, fs) := react f o fs in run fates (k r) fs
    end
  | Diverge => (Diverged, fs)
  end.

(** The undisturbed run. *)
Fixpoint exec {A} (p : prog A) (fs : Fs) : Outcome A * Fs :=
  match p with
  | Ret a => (Finished a, fs)
  | Call o k => let '(r, fs) := perform o fs in exec (k r) fs
  | Diverge => (Diverged, fs)
  end.

(** * Crash logic

    [wp b p C Q fs]: from [fs], with faults when [b] is set, [p] never diverges,
    satisfies [C] wherever it may stop and [Q] when it returns. *)

Fixpoint wp {A} (b : bool) (p : prog A) (C : Fs → Prop) (Q : A → Fs → Prop) (fs : Fs) : Prop :=
  match p with
  | Ret a => Q a fs
  | Call o k =>
    C fs ∧ wp b (k (perform o fs).1) C Q (perform o fs).2 ∧
    (b = true → ∀ d, wp b (k (react (Disturbed d) o fs).1) C Q (react (Disturbed d) o fs).2)
  | Diverge => False
  end.

Lemma wp_run {A} (p : prog A) C Q fs fates :
  wp true p C Q fs →
  match run fates p fs with
  | (Finished a, fs') => Q a fs'
  | (Crashed, fs') => C fs'
  | (Diverged, _) => False
  end.
Proof.
  revert fates fs. induction p as [a|R o k IH|]; intros fates fs H; simpl in *; [done| |done].
  destruct H as (Hc & Hp & Hf). destruct fates as [|f fates]; [done|].
  destruct f as [|d]; [|specialize (Hf eq_refl d)].
  - change (react Proceeds o fs) with (perform o fs). destruct (perform o fs) as [r fs1]. by apply IH.
  - destruct (react (Disturbed d) o fs) as [r fs1]. by apply IH.
Qed.

Lemma wp_exec {A} b (p : prog A) C Q fs :
  wp b p C Q fs → ∃ a fs', exec p fs = (Finished a, fs') ∧ Q a fs'.
Proof.
  revert fs. induction p as [a|R o k IH|]; intros fs H; simpl in *; [eauto| |done].
  destruct H as (_ & H & _). destruct (perform o fs) as [r fs1]. by apply IH.
Qed.

Lemma wp_bind {A B} b (p : prog A) (k : A → prog B) C Q fs :
  wp b p C (λ a, wp b (k a) C Q) fs → wp b (prog_bind p k) C Q fs.
Proof.
  revert fs. induction p as [a|R o c IH|]; intros fs H; simpl in *; [done| |done].
  destruct H as (Hc & Hp & Hf). split_and!; [done|by apply IH|]. intros Hb d. by apply IH, Hf.
Qed.

Lemma wp_mono {A} b (p : prog A) (C C' : Fs → Prop) (Q Q' : A → Fs → Prop) fs :
  wp b p C Q fs → (∀ s, C s → C' s) → (∀ a s, Q a s → Q' a s) → wp b p C' Q' fs.
Proof.
  intros H HC HQ. revert fs H. induction p as [a|R o k IH|]; intros fs H; simpl in *; [auto| |done].
  destruct H as (Hc & Hp & Hf). split_and!; [auto|by apply IH|]. intros Hb d. by apply IH, Hf.
Qed.

Lemma wp_try {A B E} b (p : prog (result E A)) (k : A → prog (result E B)) C Q fs :
  wp b p C (λ r s, match r with Ok a => wp b (k a) C Q s | Err e => Q (Err e) s end) fs → wp b (try p k) C Q fs.
Proof. intros H. apply wp_bind. eapply wp_mono; [exact H|done|]. by intros []. Qed.

Lemma wp_lift {A} b (p : prog (result IoError A)) C Q fs :
  wp b p C (λ r s, Q (map_err of_io r) s) fs → wp b (lift p) C Q fs.
Proof. intros H. by apply wp_bind. Qed.

(** Calls that only look. *)
Definition looks {R} (o : Op R) : bool :=
  match o with
  | SymlinkMetadata _ | ReadDir _ | Canonicalize _ | OpenDir _ | OpenFile _
  | HandleMetadata _ | SyncFile _ => true
  | _ => false
  end.

Lemma looks_same {R} (o : Op R) fs : looks o = true → (perform o fs).2 = fs.
Proof.
  intros H. by destruct o.
Qed.

Lemma looks_fails {R} (o : Op R) d fs : looks o = true → react (Disturbed d) o fs = (Err IoFault, fs).
Proof. by destruct o. Qed.

(** A looking call leaves the state; the continuation sees its reply or a fault. *)
Lemma wp_look {R} b (o : Op R) C Q fs :
  looks o = true → C fs → Q (perform o fs).1 fs → (b = true → Q (Err IoFault) fs) → wp b (io o) C Q fs.
Proof.
  intros Hl Hc Hp Hf. simpl. split_and!; [done|by rewrite looks_same|].
  intros Hb d. rewrite looks_fails by done. by apply Hf.
Qed.

(** A directory that exists can be flushed. *)
Lemma wp_sync b p k C Q fs :
  metadata p fs = Some k → C fs → Q (Ok tt) (flush p fs) → (b = true → Q (Err IoFault) fs) →
  wp b (io (SyncDir p)) C Q fs.
Proof.
  intros Hk Hc Hp Hf. cbn [wp io]. split_and!; [done| |by intros Hb d; apply Hf].
  unfold perform. by rewrite Hk.
Qed.

(** * Undisturbed runs *)

Lemma exec_bind {A B} (p : prog A) (k : A → prog B) fs :
  exec (prog_bind p k) fs =
  match exec p fs with
  | (Finished a, fs') => exec (k a) fs'
  | (Crashed, fs') => (Crashed, fs')
  | (Diverged, fs') => (Diverged, fs')
  end.
Proof.
  revert fs. induction p as [a|R o c IH|]; intros fs; simpl; [done| |done].
  destruct (perform o fs) as [r fs']. apply IH.
Qed.

Lemma exec_try_Ok {A B E} (p : prog (result E A)) (k : A → prog (result E B)) fs a fs' :
  exec p fs = (Finished (Ok a), fs') → exec (try p k) fs = exec (k a) fs'.
Proof. intros H. unfold try. by rewrite exec_bind, H. Qed.

Lemma exec_try_Err {A B E} (p : prog (result E A)) (k : A → prog (result E B)) fs e fs' :
  exec p fs = (Finished (Err e), fs') → exec (try p k) fs = (Finished (Err e), fs').
Proof. intros H. unfold try. by rewrite exec_bind, H. Qed.

Lemma exec_try_inv {A B E} (p : prog (result E A)) (k : A → prog (result E B)) fs b fs' :
  exec (try p k) fs = (Finished (Ok b), fs') →
  ∃ a fs1, exec p fs = (Finished (Ok a), fs1) ∧ exec (k a) fs1 = (Finished (Ok b), fs').
Proof.
  unfold try. rewrite exec_bind. destruct (exec p fs) as [[[a|e]| |] fs1]; simpl; [|done..]. eauto.
Qed.

Lemma exec_bind_inv {A B} (p : prog A) (k : A → prog B) fs b fs' :
  exec (prog_bind p k) fs = (Finished b, fs') →
  ∃ a fs1, exec p fs = (Finished a, fs1) ∧ exec (k a) fs1 = (Finished b, fs').
Proof. rewrite exec_bind. destruct (exec p fs) as [[a| |] fs1]; simpl; [|done..]. eauto. Qed.

Lemma exec_call {R} (o : Op R) fs : exec (call o) fs = (Finished (map_err of_io (perform o fs).1), (perform o fs).2).
Proof. unfold call, lift, io. cbn [prog_bind exec]. by destruct (perform o fs). Qed.

Lemma exec_call_Ok {R} (o : Op R) fs r fs' : perform o fs = (Ok r, fs') → exec (call o) fs = (Finished (Ok r), fs').
Proof. intros H. by rewrite exec_call, H. Qed.

Lemma exec_call_inv {R} (o : Op R) fs r fs' : exec (call o) fs = (Finished (Ok r), fs') → perform o fs = (Ok r, fs').
Proof. rewrite exec_call. destruct (perform o fs) as [[x|e] s]; simpl; congruence. Qed.

(** A finished run of a sequence is a finished run of each part. *)
Lemma run_bind_inv {A B} (p : prog A) (k : A → prog B) fates fs b fs' :
  run fates (prog_bind p k) fs = (Finished b, fs') →
  ∃ a fates' fs1, run fates p fs = (Finished a, fs1) ∧ run fates' (k a) fs1 = (Finished b, fs').
Proof.
  revert fates fs. induction p as [a|R o c IH|]; intros fates fs H; simpl in *; [by eauto 10| |done].
  destruct fates as [|f fates]; [done|]. destruct (react f o fs) as [r s]. by apply IH in H.
Qed.

Lemma run_try_inv {A B E} (p : prog (result E A)) (k : A → prog (result E B)) fates fs b fs' :
  run fates (try p k) fs = (Finished (Ok b), fs') →
  ∃ a fates' fs1, run fates p fs = (Finished (Ok a), fs1) ∧ run fates' (k a) fs1 = (Finished (Ok b), fs').
Proof.
  intros (r & fates' & fs1 & Hp & Hk)%run_bind_inv. destruct r as [a|e]; [by eauto 10|done].
Qed.

(** * Termination: no disturbance makes the program loop *)

Definition halts {A} (p : prog A) : Prop := ∀ fs, wp true p (λ _, True) (λ _ _, True) fs.

Lemma halts_ret {A} (a : A) : halts (Ret a).
Proof. by intros fs. Qed.
Lemma halts_bind {A B} (p : prog A) (k : A → prog B) : halts p → (∀ a, halts (k a)) → halts (prog_bind p k).
Proof. intros Hp Hk fs. apply wp_bind. eapply wp_mono; [apply Hp|done|]. intros a s _. apply Hk. Qed.
Lemma halts_io {R} (o : Op R) : halts (io o).
Proof. intros fs. by split_and!. Qed.
Lemma halts_lift {A} (p : prog (result IoError A)) : halts p → halts (lift p).
Proof. intros Hp. by apply halts_bind. Qed.
Lemma halts_try {A B E} (p : prog (result E A)) (k : A → prog (result E B)) :
  halts p → (∀ a, halts (k a)) → halts (try p k).
Proof. intros Hp Hk. apply halts_bind; [done|]. intros [a|e]; [apply Hk|apply halts_ret]. Qed.

Lemma halts_exec {A} (p : prog A) fs : halts p → ∃ a fs', exec p fs = (Finished a, fs').
Proof. intros Hp. destruct (wp_exec _ _ _ _ _ (Hp fs)) as (a & fs' & H & _). eauto. Qed.

Lemma halts_run {A} (p : prog A) fates fs : halts p → (run fates p fs).1 ≠ Diverged.
Proof. intros Hp. pose proof (wp_run _ _ _ _ fates (Hp fs)) as H. by destruct (run fates p fs) as [[]]. Qed.

(** * Programs that leave the disk as it is

    [observes p a fs]: on [fs] the program [p] changes nothing, and answers [a] unless it
    is disturbed. *)

Definition still {A} (p : prog A) : Prop := ∀ fs, wp true p (λ s, s = fs) (λ _ s, s = fs) fs.

Lemma still_ret {A} (a : A) : still (Ret a).
Proof. by intros fs. Qed.
Lemma still_bind {A B} (p : prog A) (k : A → prog B) : still p → (∀ a, still (k a)) → still (prog_bind p k).
Proof. intros Hp Hk fs. apply wp_bind. eapply wp_mono; [apply Hp|done|]. intros a s ->. apply Hk. Qed.
Lemma still_try {A B E} (p : prog (result E A)) (k : A → prog (result E B)) :
  still p → (∀ a, still (k a)) → still (try p k).
Proof. intros Hp Hk. apply still_bind; [done|]. intros [a|e]; [apply Hk|apply still_ret]. Qed.
Lemma still_look {R} (o : Op R) : looks o = true → still (io o).
Proof. intros Ho fs. apply wp_look; done. Qed.
Lemma still_read p off lim : still (io (ReadChunk p off lim)).
Proof. intros fs. by split_and!. Qed.

Definition observes {A} (p : prog A) (a : A) (fs : Fs) : Prop :=
  ∀ b C Q, C fs → Q a fs → (b = true → ∀ r, Q r fs) → wp b p C Q fs.

Lemma wp_here {A} b (p : prog A) s fs : wp b p (λ s, s = fs) (λ _ s, s = fs) s → s = fs.
Proof. destruct p; simpl; [done|by intros [H _]|done]. Qed.

Lemma still_observes {A} (p : prog A) fs a fs' : still p → exec p fs = (Finished a, fs') → observes p a fs.
Proof.
  intros Hs. specialize (Hs fs). intros He b C Q Hc Ha Hb. destruct b.
  - eapply wp_mono; [exact Hs|by intros ? ->|]. intros r s ->. by apply Hb.
  - clear Hb. revert Hs He. induction p as [x|R o k IH|]; cbn [exec wp]; intros Hs He; [by simplify_eq| |done].
    destruct Hs as (_ & Hp & _). pose proof (wp_here _ _ _ _ Hp) as Hsame.
    destruct (perform o fs) as [r s]. simpl in Hsame. subst s. split_and!; [done|by apply IH|done].
Qed.

(** * Trees *)

Lemma child_set_eq name v cs : child name (set_child name v cs) = Some v.
Proof.
  induction cs as [|[n c] cs IH]; simpl; [by rewrite String.eqb_refl|].
  destruct (String.eqb n name) eqn:E; simpl; by rewrite E.
Qed.

Lemma child_set_ne name name' v cs : name ≠ name' → child name' (set_child name v cs) = child name' cs.
Proof.
  intros Hne. induction cs as [|[n c] cs IH]; simpl.
  - by destruct (String.eqb_spec name name').
  - destruct (String.eqb_spec n name) as [->|]; simpl; [|by rewrite IH].
    by destruct (String.eqb_spec name name').
Qed.

Lemma descend_app n p q : descend n (p ++ q) = descend n p ≫= λ v, descend v q.
Proof.
  revert n. induction p as [|x p IH]; intros n; simpl; [done|].
  destruct n; simpl; try done. destruct (child x children); simpl; [apply IH|done].
Qed.

(** A path is put where its parent is a directory. *)
Definition can_put (t : Node) (p : list string) : Prop :=
  ∃ cs, descend t (removelast p) = Some (Dir cs).

Lemma can_put_cons t x p : p ≠ [] → can_put t (x :: p) → ∃ cs c, t = Dir cs ∧ child x cs = Some c ∧ can_put c p.
Proof.
  intros Hp [cs H]. destruct p as [|y p]; [done|]. cbn [removelast descend] in H. destruct t as [|cs0| |]; try done.
  destruct (child x cs0) as [c|] eqn:E; [|done]. exists cs0, c. split_and!; [done|done|]. by exists cs.
Qed.

Lemma descend_put_eq t p v : p ≠ [] → can_put t p → descend (put t p v) p = Some v.
Proof.
  revert t. induction p as [|x p IH]; intros t Hp Hc; [done|]. destruct p as [|y p].
  - destruct Hc as [cs [= ->]]. simpl. by rewrite child_set_eq.
  - apply can_put_cons in Hc as (cs & c & -> & Hx & Hc); [|done]. cbn [put]. rewrite Hx.
    cbn [descend]. rewrite child_set_eq. simpl mbind. by apply IH.
Qed.

(** Other places are untouched: those that are not above or below it. *)
Lemma descend_put_ne t p q v :
  can_put t p → ¬ q `prefix_of` p → ¬ p `prefix_of` q → descend (put t p v) q = descend t q.
Proof.
  revert t q. induction p as [|x p IH]; intros t q Hc Hq Hp.
  { exfalso. apply Hp. apply prefix_nil. }
  destruct q as [|z q]; [exfalso; apply Hq; apply prefix_nil|].
  destruct (decide (z = x)) as [->|Hne].
  - assert (¬ q `prefix_of` p ∧ ¬ p `prefix_of` q) as [Hq' Hp'].
    { split; intros H; [apply Hq|apply Hp]; by apply prefix_cons. }
    destruct p as [|y p]; [exfalso; apply Hp', prefix_nil|].
    apply can_put_cons in Hc as (cs & c & -> & Hx & Hc); [|done]. cbn [put]. rewrite Hx. cbn [descend].
    rewrite child_set_eq, Hx. simpl mbind. by apply IH.
  - cbn [put]. destruct t as [|cs| |]; [done| |done|done]. destruct p as [|y p].
    + cbn [descend]. by rewrite child_set_ne.
    + destruct (child x cs); [|done]. cbn [descend]. by rewrite child_set_ne.
Qed.

(** Directories above it stay directories. *)
Lemma descend_put_above t p q v :
  can_put t p → q `prefix_of` p → q ≠ p → ∃ cs, descend (put t p v) q = Some (Dir cs).
Proof.
  revert t q. induction p as [|x p IH]; intros t q Hc Hq Hne.
  { apply prefix_nil_inv in Hq. done. }
  destruct p as [|y p].
  - destruct q as [|z q]; [|exfalso; apply Hne; apply prefix_cons_inv_1 in Hq as Hz; apply prefix_cons_inv_2, prefix_nil_inv in Hq; by subst].
    destruct Hc as [cs [= ->]]. by eexists.
  - apply can_put_cons in Hc as (cs & c & -> & Hx & Hc); [|done]. cbn [put]. rewrite Hx.
    destruct q as [|z q]; [by eexists|]. apply prefix_cons_inv_1 in Hq as Hz. apply prefix_cons_inv_2 in Hq. subst z.
    cbn [descend]. rewrite child_set_eq. simpl mbind. apply IH; [done|done|congruence].
Qed.

End Disk.

Notation "'do?' x ':=' p 'in' k" := (Disk.try p (λ x, k))
  (at level 10, x name, p at level 100, k at level 200) : rust_scope.
Notation "'do?' '_' ':=' p 'in' k" := (Disk.try p (λ _, k))
  (at level 10, p at level 100, k at level 200) : rust_scope.
