(* ===== verification/Cache.v ===== *)
(** Transactions on the model cache: durable renames, repair promotion, its
    reconciliation after a crash, quarantine, staging and deletion
    ([impossible-models/src/store.rs]).

    The operations are programs over [Disk]; [key] is the key of the model's
    identity, [pid] the process id in quarantine names, and [fuel] bounds the depth of
    the staged tree and the number of quarantine names tried. *)

From Stdlib Require Import NArith Lia.
From stdpp Require Import base strings gmap sorting list.
From S2P Require Import Prelude Manifest Disk.
Import Manifest Disk.

Local Open Scope string_scope.
Local Open Scope list_scope.
Local Open Scope rust_scope.

Module Cache.

Definition is_reparse (k : Kind) : bool := bool_decide (k = KSymlink).
Definition is_dir (k : Kind) : bool := bool_decide (k = KDir).
Definition is_file (k : Kind) : bool := bool_decide (k = KFile).

(** ** Inspection *)

Definition symlink_metadata_if_exists (p : Path) : prog (result Error (option Kind)) :=
  prog_bind (io (SymlinkMetadata p)) (λ r, Ret
    match r with
    | Ok k => Ok (Some k)
    | Err NotFound => Ok None
    | Err e => Err (of_io e)
    end).

Definition verify_transaction_final (p : Path) : prog (result Error unit) :=
  do? m := symlink_metadata_if_exists p in
  Ret match m with
      | Some k => if is_dir k && negb (is_reparse k) then Ok tt
                  else Err (EInvalid "repair transaction did not restore a safe installed state")
      | None => Err (EInvalid "repair transaction did not restore a safe installed state")
      end.

(** [components] are the components of the relative path. *)
Fixpoint reject_reparse_from (current : Path) (components : list Component) : prog (result Error unit) :=
  match components with
  | [] => Ret (Ok tt)
  | Normal name :: components =>
    let current := current ++ [name] in
    prog_bind (io (SymlinkMetadata current)) (λ r,
      match r with
      | Ok k => if is_reparse k then Ret (Err (EInvalid "path contains a symlink or reparse point"))
                else reject_reparse_from current components
      | Err NotFound => Ret (Ok tt)
      | Err e => Ret (Err (of_io e))
      end)
  | _ => Ret (Err (EInvalid "path contains unsafe components"))
  end.

Definition reject_reparse_components (base : Path) (relative : list Component) : prog (result Error unit) :=
  do? k := call (SymlinkMetadata base) in
  if is_reparse k then Ret (Err (EInvalid "path contains a symlink or reparse point"))
  else reject_reparse_from base relative.

(** [canonical.starts_with(base)] for a canonical path; [None] is outside the cache. *)
Definition starts_with (canonical base : option Path) : bool :=
  match canonical, base with
  | Some p, Some q => bool_decide (take (length q) p = q)
  | _, _ => false
  end.

Definition ensure_contained_directory (base directory : Path) : prog (result Error unit) :=
  do? k := call (SymlinkMetadata directory) in
  if is_reparse k then Ret (Err (EInvalid "cache directory cannot be a symlink")) else
  do? canonical_base := call (Canonicalize base) in
  do? canonical_directory := call (Canonicalize directory) in
  if starts_with canonical_directory canonical_base then Ret (Ok tt)
  else Ret (Err (EInvalid "cache directory escaped containment")).

(** ** Durable renames *)

Definition durable_rename (from to : Path) : prog (result IoError unit) :=
  let from_parent := parent from in
  let to_parent := parent to in
  let sync_to_parent :=
    if bool_decide (from_parent ≠ to_parent) then io (SyncDir to_parent) else Ret (Ok tt) in
  do? _ := io (SyncDir from) in
  do? _ := io (SyncDir from_parent) in
  do? _ := sync_to_parent in
  do? _ := io (Rename from to) in
  do? _ := io (SyncDir to) in
  do? _ := io (SyncDir from_parent) in
  do? _ := sync_to_parent in
  Ret (Ok tt).

(** ** The staged tree *)

Fixpoint sync_staged_directory (fuel : nat) (directory : Path) : prog (result Error unit) :=
  match fuel with
  | O => Diverge
  | S fuel =>
    do? k := call (SymlinkMetadata directory) in
    if is_reparse k || negb (is_dir k)
    then Ret (Err (EInvalid "staged tree contains an unsafe directory")) else
    do? names := call (ReadDir directory) in
    do? _ := (fix each (names : list string) : prog (result Error unit) :=
      match names with
      | [] => Ret (Ok tt)
      | name :: names =>
        let path := directory ++ [name] in
        do? k := call (SymlinkMetadata path) in
        if is_reparse k then Ret (Err (EInvalid "staged tree contains a symlink or reparse point")) else
        do? _ :=
          (if is_dir k then sync_staged_directory fuel path
           else if is_file k then call (SyncFile path)
           else Ret (Err (EInvalid "staged tree contains a special filesystem entry"))) in
        each names
      end) (merge_sort String.le names) in
    call (SyncDir directory)
  end.

Section transactions.
Context (key : string) (pid : N) (fuel : nat).

Definition model_dir : Path := ["models"; key].
Definition staging_dir : Path := ["staging"; key +:+ ".partial"].
Definition repair_marker : Path := ["transactions"; key +:+ ".repair"].
Definition repair_backup : Path := ["transactions"; key +:+ ".previous"].
Definition deletion_tombstone : Path := ["transactions"; key +:+ ".deleted"].
Definition quarantine_name (sequence : N) : string :=
  key +:+ "." +:+ decimal pid +:+ "." +:+ decimal sequence +:+ ".invalid".

Definition sync_staged_tree (staging : Path) : prog (result Error unit) :=
  if bool_decide (parent staging ≠ ["staging"])
  then Ret (Err (EInvalid "staging path escaped cache layout")) else
  do? _ := ensure_contained_directory [] staging in
  do? _ := sync_staged_directory fuel staging in
  do? _ := call (SyncDir (parent staging)) in
  call (SyncDir []).

(** ** Quarantine *)

Fixpoint quarantine_candidate (attempts : nat) : prog (result Error Path) :=
  match attempts with
  | O => Diverge
  | S attempts =>
    do? sequence := call NextSequence in
    let candidate := ["quarantine"; quarantine_name sequence] in
    prog_bind (io (SymlinkMetadata candidate)) (λ r,
      match r with
      | Err NotFound => Ret (Ok candidate)
      | Ok _ => quarantine_candidate attempts
      | Err e => Ret (Err (of_io e))
      end)
  end.

Definition quarantine_backup (backup : Path) : prog (result Error unit) :=
  do? m := symlink_metadata_if_exists backup in
  match m with
  | None => Ret (Ok tt)
  | Some _ =>
    do? _ := call (CreateDirAll ["quarantine"]) in
    do? _ := ensure_contained_directory [] ["quarantine"] in
    do? _ := call (SyncDir []) in
    do? quarantine := quarantine_candidate fuel in
    lift (durable_rename backup quarantine)
  end.

(** ** Reconciliation *)

(** The end of a repair: the installed state is checked, the displaced model goes to
    quarantine and the marker is removed. *)
Definition conclude_repair : prog (result Error unit) :=
  do? _ := verify_transaction_final model_dir in
  do? _ := quarantine_backup repair_backup in
  do? _ := call (RemoveFile repair_marker) in
  do? _ := call (SyncDir ["transactions"]) in
  Ret (Ok tt).

(** The moves still to make, by what exists. *)
Definition resume_repair (final staging backup : option Kind) : prog (result Error unit) :=
  match final, staging, backup with
  | Some _, Some _, None =>
    do? _ := lift (durable_rename model_dir repair_backup) in
    lift (durable_rename staging_dir model_dir)
  | None, Some _, Some _ => lift (durable_rename staging_dir model_dir)
  | None, None, Some _ => lift (durable_rename repair_backup model_dir)
  | Some _, _, _ => Ret (Ok tt)
  | _, _, _ => Ret (Err (EInvalid "repair transaction cannot be reconciled safely"))
  end.

Definition reconcile_repair : prog (result Error unit) :=
  prog_bind (io (SymlinkMetadata repair_marker)) (λ r,
    match r with
    | Err NotFound => Ret (Ok tt)
    | Err e => Ret (Err (of_io e))
    | Ok k =>
      if is_reparse k || negb (is_file k)
      then Ret (Err (EInvalid "repair marker is not a regular file")) else
      do? final := symlink_metadata_if_exists model_dir in
      do? staging := symlink_metadata_if_exists staging_dir in
      do? backup := symlink_metadata_if_exists repair_backup in
      do? _ := resume_repair final staging backup in
      conclude_repair
    end).

(** ** Promotion *)

(** Removing the marker when the previous model is back in place. *)
Definition abandon_repair (e : Error) : prog (result Error unit) :=
  do? _ := verify_transaction_final model_dir in
  do? _ := call (RemoveFile repair_marker) in
  do? _ := call (SyncDir ["transactions"]) in
  Ret (Err e).

(** From the durable marker on. *)
Definition replace_model (staging : Path) : prog (result Error unit) :=
  prog_bind (durable_rename model_dir repair_backup) (λ r,
    match r with
    | Err e => abandon_repair (of_io e)
    | Ok _ =>
      prog_bind (durable_rename staging model_dir) (λ r,
        match r with
        | Err _ =>
          prog_bind (durable_rename repair_backup model_dir) (λ r,
            match r with
            | Err _ => Ret (Err (EInvalid "repair promotion was interrupted and requires reconciliation"))
            | Ok _ => abandon_repair (EInvalid "replacement promotion failed; the previous model was restored")
            end)
        | Ok _ => conclude_repair
        end)
    end).

Definition promote (staging : Path) : prog (result Error unit) :=
  do? _ := reconcile_repair in
  do? _ := sync_staged_tree staging in
  do? final := symlink_metadata_if_exists model_dir in
  match final with
  | None => lift (durable_rename staging model_dir)
  | Some _ =>
    do? _ := reject_reparse_components [] (map Normal model_dir) in
    do? _ := call (CreateDirAll ["transactions"]) in
    do? _ := ensure_contained_directory [] ["transactions"] in
    do? _ := call (SyncDir []) in
    do? backup := symlink_metadata_if_exists repair_backup in
    do? clean :=
      match backup with
      | Some _ => Ret (Ok false)
      | None => do? marker := symlink_metadata_if_exists repair_marker in
                Ret (Ok (bool_decide (marker = None)))
      end in
    if negb clean then Ret (Err (EInvalid "repair transaction state is not clean")) else
    do? _ := call (CreateNew repair_marker) in
    do? _ := call (SyncFile repair_marker) in
    do? _ := call (SyncDir ["transactions"]) in
    replace_model staging
  end.

(** ** Staging *)

Fixpoint prepare_directories (l : list string) : prog (result Error unit) :=
  match l with
  | [] => Ret (Ok tt)
  | d :: l =>
    do? _ := call (CreateDirAll [d]) in
    do? _ := ensure_contained_directory [] [d] in
    do? _ := call (SyncDir [d]) in
    prepare_directories l
  end.

Definition prepare_staging (staging : Path) : prog (result Error unit) :=
  do? _ := prepare_directories ["models"; "staging"; "locks"; "transactions"] in
  do? _ := call (SyncDir []) in
  do? m := symlink_metadata_if_exists staging in
  do? _ :=
    match m with
    | None => Ret (Ok tt)
    | Some k =>
      if is_reparse k || negb (is_dir k) then Ret (Err (EInvalid "unsafe staging path")) else
      do? _ := call (RemoveDirAll staging) in
      call (SyncDir (parent staging))
    end in
  do? _ := call (CreateDirAll staging) in
  do? _ := ensure_contained_directory [] staging in
  do? _ := call (SyncDir staging) in
  do? _ := call (SyncDir (parent staging)) in
  call (SyncDir []).

(** ** Deletion *)

Definition remove_deletion_tombstone (tombstone : Path) : prog (result Error unit) :=
  prog_bind (io (SymlinkMetadata tombstone)) (λ r,
    match r with
    | Err NotFound => Ret (Ok tt)
    | Err e => Ret (Err (of_io e))
    | Ok k =>
      if is_reparse k || negb (is_dir k)
      then Ret (Err (EInvalid "deletion tombstone is not a regular directory")) else
      do? _ := call (RemoveDirAll tombstone) in
      call (SyncDir ["transactions"])
    end).

(** [matches] reads the stored manifest and decides whether it is exactly the requested
    one. *)
Context (matches : prog (result Error bool)).

(** Only the exact identity that was asked for. *)
Definition delete_stored : prog (result Error bool) :=
  do? same := matches in
  if negb same then Ret (Err (EInvalid "stored manifest does not exactly match deletion request")) else
  do? _ := lift (durable_rename model_dir deletion_tombstone) in
  do? _ := remove_deletion_tombstone deletion_tombstone in
  Ret (Ok true).

(** From the point where no tombstone is left. *)
Definition delete_target (pending : bool) : prog (result Error bool) :=
  prog_bind (io (SymlinkMetadata model_dir)) (λ r,
    match r with
    | Err NotFound => Ret (Ok pending)
    | Err e => Ret (Err (of_io e))
    | Ok k =>
      if is_reparse k || negb (is_dir k)
      then Ret (Err (EInvalid "refusing to delete non-directory or symlink target")) else
      do? _ := call (CreateDirAll (parent model_dir)) in
      do? canonical_parent := call (Canonicalize (parent model_dir)) in
      do? expected := call (Canonicalize ["models"]) in
      if bool_decide (canonical_parent ≠ expected)
      then Ret (Err (EInvalid "model target escaped cache containment")) else
      delete_stored
    end).

Definition delete_locked : prog (result Error bool) :=
  do? _ := reconcile_repair in
  do? _ := call (CreateDirAll ["transactions"]) in
  do? _ := ensure_contained_directory [] ["transactions"] in
  do? _ := call (SyncDir ["transactions"]) in
  do? _ := call (SyncDir []) in
  do? tombstone := symlink_metadata_if_exists deletion_tombstone in
  let pending := bool_decide (tombstone ≠ None) in
  do? _ := (if pending then remove_deletion_tombstone deletion_tombstone else Ret (Ok tt)) in
  delete_target pending.

End transactions.

(** * Runs that change nothing

    [quiet]: the files are the same; [calm]: and nothing more is waiting to be
    flushed.  [settles b p fs a]: from [fs], [p] only looks and flushes, and returns
    [a] unless a call fails. *)

Definition quiet (fs s : Fs) : Prop :=
  tops s = tops fs ∧ entries s = entries fs ∧ (sequence fs < 2 ^ 64 → sequence s < 2 ^ 64)%N.
Definition calm (fs s : Fs) : Prop := quiet fs s ∧ unsynced s ⊆ unsynced fs.

#[global] Instance quiet_refl : Reflexive quiet.
Proof. by intros fs. Qed.
#[global] Instance quiet_trans : Transitive quiet.
Proof. intros a b c (H1 & H2 & H3) (H4 & H5 & H6). split_and!; [congruence|congruence|auto]. Qed.
#[global] Instance calm_refl : Reflexive calm.
Proof. by intros fs. Qed.
#[global] Instance calm_trans : Transitive calm.
Proof. intros a b c [H1 H2] [H3 H4]. split; [by etrans|by etrans]. Qed.

Lemma calm_flush p fs : calm fs (flush p fs).
Proof. split; [done|]. simpl. set_solver. Qed.

Lemma quiet_metadata fs s p : quiet fs s → metadata p s = metadata p fs.
Proof. intros (H1 & H2 & _). destruct p as [|d [|n below]]; simpl; congruence. Qed.

Lemma quiet_linked fs s p : quiet fs s → linked p s = linked p fs.
Proof.
  intros H. unfold linked. induction (seq 0 (length p)) as [|i l IH]; simpl; [done|].
  by rewrite IH, (quiet_metadata fs s).
Qed.

Definition settles {E A} (b : bool) (p : prog (result E A)) (fs : Fs) (a : A) : Prop :=
  ∀ C Q, (∀ s, quiet fs s → C s) → (b = true → ∀ e s, quiet fs s → Q (Err e) s) →
         (∀ s, calm fs s → Q (Ok a) s) → wp b p C Q fs.

Lemma settles_ret {E A} b (a : A) fs : settles (E := E) b (Ret (Ok a)) fs a.
Proof. intros C Q _ _ HQ. by apply HQ. Qed.

Lemma wp_settles {E A B} b (p : prog (result E A)) (k : A → prog (result E B)) a C Q fs :
  settles b p fs a → (∀ s, quiet fs s → C s) → (b = true → ∀ e s, quiet fs s → Q (Err e) s) →
  (∀ s, calm fs s → wp b (k a) C Q s) → wp b (try p k) C Q fs.
Proof. intros Hp HC HE HQ. apply wp_try, Hp; [done|by intros ? e s Hs; apply HE|done]. Qed.

Lemma settles_try {E A B} b (p : prog (result E A)) (k : A → prog (result E B)) a c fs :
  settles b p fs a → (∀ s, calm fs s → settles b (k a) s c) → settles b (try p k) fs c.
Proof.
  intros Hp Hk C Q HC HE HQ. eapply wp_settles; [exact Hp|done|done|]. intros s Hs. apply Hk; [done| | |].
  - intros s' Hs'. apply HC. etrans; [apply Hs|done].
  - intros Hb e s' Hs'. apply HE; [done|]. etrans; [apply Hs|done].
  - intros s' Hs'. apply HQ. by etrans.
Qed.

Lemma settles_look {R} b (o : Op R) fs (r : R) :
  looks o = true → (perform o fs).1 = Ok r → settles b (io o) fs r.
Proof.
  intros Hl Hr C Q HC HE HQ. apply wp_look; [done|by apply HC| |intros Hb; by apply HE].
  rewrite Hr. by apply HQ.
Qed.

Lemma settles_sync b p k fs : metadata p fs = Some k → settles b (io (SyncDir p)) fs tt.
Proof.
  intros Hk C Q HC HE HQ. eapply wp_sync; [done|by apply HC| |intros Hb; by apply HE].
  apply HQ, calm_flush.
Qed.

Lemma settles_lift {A} b (p : prog (result IoError A)) fs a : settles b p fs a → settles b (lift p) fs a.
Proof. intros H C Q HC HE HQ. apply wp_lift, H; [done|intros Hb e; by apply HE|done]. Qed.

Lemma settles_metadata_if_exists b p fs : settles b (symlink_metadata_if_exists p) fs (metadata p fs).
Proof.
  intros C Q HC HE HQ. apply wp_bind, wp_look; [done|by apply HC| |intros Hb; by apply HE].
  unfold perform. destruct (metadata p fs); by apply HQ.
Qed.

Lemma settles_verify_final b p fs : metadata p fs = Some KDir → settles b (verify_transaction_final p) fs tt.
Proof.
  intros Hp. eapply settles_try; [apply settles_metadata_if_exists|]. rewrite Hp. intros s _. apply settles_ret.
Qed.

Lemma settles_contained b p fs :
  metadata p fs = Some KDir → linked p fs = false → settles b (ensure_contained_directory [] p) fs tt.
Proof.
  intros Hp Hl. eapply settles_try; [by apply settles_lift, settles_look; [|simpl; rewrite Hp]|].
  intros s [Hs _]. eapply settles_try; [by apply settles_lift, settles_look|].
  intros s' [Hs' _]. eapply settles_try.
  { apply settles_lift, settles_look; [done|]. unfold perform.
    rewrite (quiet_metadata fs), (quiet_linked fs), Hp, Hl by by etrans. done. }
  intros s'' _. apply settles_ret.
Qed.

(** * Durable renames *)

Definition moved (d n d' n' : string) (v : Node) (fs : Fs) : Fs := set_entry d' n' v (drop_entry d n fs).

(** Flushing a list of directories, then going on. *)
Lemma wp_flush_all {B} b (l : list Path) (k : prog (result IoError B)) C Q fs :
  Forall (λ p, is_Some (metadata p fs)) l →
  (∀ s, quiet fs s → C s ∧ (b = true → ∀ e, Q (Err e) s)) →
  (∀ s, quiet fs s → unsynced s = unsynced fs ∖ list_to_set l → wp b k C Q s) →
  wp b (foldr (λ p k, do? _ := io (SyncDir p) in k) k l) C Q fs.
Proof.
  revert fs. induction l as [|p l IH]; intros fs Hl HC HQ; simpl foldr.
  { apply HQ; [done|]. set_solver. }
  apply Forall_cons in Hl as [[i Hi] Hl]. apply wp_try. eapply wp_sync; [done|by apply HC| |by intros Hb; apply HC].
  assert (quiet fs (flush p fs)) as Hq by apply calm_flush.
  apply IH.
  - eapply Forall_impl; [exact Hl|]. intros q. by rewrite (quiet_metadata fs).
  - intros s Hs. apply HC. by etrans.
  - intros s Hs Hu. apply HQ; [by etrans|]. rewrite Hu. simpl. set_solver.
Qed.

(** A rename to a free name: before the call the files are as they were, after it they
    are moved, and when it returns [Ok] both directories have been flushed. *)
Lemma durable_rename_wp b d n d' n' v C (Q : result IoError unit → Fs → Prop) fs :
  d ≠ d' → entries fs !! (d, n) = Some v → entries fs !! (d', n') = None →
  is_Some (tops fs !! d) → is_Some (tops fs !! d') →
  (∀ s, quiet fs s ∨ quiet (moved d n d' n' v fs) s → C s ∧ (b = true → ∀ e, Q (Err e) s)) →
  (∀ s, quiet (moved d n d' n' v fs) s → unsynced s ⊆ unsynced fs → Q (Ok tt) s) →
  wp b (durable_rename [d; n] [d'; n']) C Q fs.
Proof.
  intros Hd Hv Hfree Ht Ht' HC HQ. unfold durable_rename. simpl parent.
  rewrite bool_decide_eq_true_2 by (intros [= ->]; done).
  apply (wp_flush_all b [[d; n]; [d]; [d'] ]).
  { repeat constructor; simpl; rewrite ?Hv; done. }
  { intros s Hs. split; [by apply HC; left|]. intros Hb e. apply HC; [by left|done]. }
  intros s (Hs1 & Hs2 & Hs3) Hu.
  assert (perform (Rename [d; n] [d'; n']) s = (Ok tt, moved d n d' n' v s)) as Hp.
  { unfold perform. rewrite Hs2, Hs1, Hv, Hfree. by destruct Ht' as [? ->]. }
  assert (quiet (moved d n d' n' v fs) (moved d n d' n' v s)) as Hm.
  { unfold quiet, moved; simpl. by rewrite Hs1, Hs2. }
  apply wp_try. cbn [wp io]. rewrite Hp.
  split_and!; [by apply HC; left| |by intros Hb dist; apply HC; [left|] ].
  apply (wp_flush_all b [[d'; n']; [d]; [d'] ] (Ret (Ok tt))).
  { repeat constructor; simpl; rewrite ?Hs1, ?lookup_insert_eq; done. }
  { intros s' Hs'. split; [apply HC; right; by etrans|]. intros Hb e. apply HC; [right; by etrans|done]. }
  intros s' Hs' Hu'. apply HQ; [by etrans|]. rewrite Hu'. simpl. set_solver.
Qed.

(** A rename onto a name that cannot be replaced fails and changes nothing. *)
Lemma durable_rename_blocked b d n d' n' v w C (Q : result IoError unit → Fs → Prop) fs :
  d ≠ d' → entries fs !! (d, n) = Some v → entries fs !! (d', n') = Some w → replaceable v w = false →
  is_Some (tops fs !! d) → is_Some (tops fs !! d') →
  (∀ s, quiet fs s → C s ∧ ∀ e, Q (Err e) s) →
  wp b (durable_rename [d; n] [d'; n']) C Q fs.
Proof.
  intros Hd Hv Hw Hr Ht Ht' HC. unfold durable_rename. simpl parent.
  rewrite bool_decide_eq_true_2 by (intros [= ->]; done).
  apply (wp_flush_all b [[d; n]; [d]; [d'] ]).
  { repeat constructor; simpl; rewrite ?Hv; done. }
  { intros s Hs. split; [by apply HC|]. intros Hb e. by apply HC. }
  intros s (Hs1 & Hs2 & Hs3) Hu. apply wp_try. cbn [wp io]. unfold perform.
  rewrite Hs2, Hs1, Hv, Hw, Hr. destruct Ht' as [? ->].
  split_and!; [by apply HC|by apply HC|]. intros Hb dist. by apply HC.
Qed.

(** * The staged tree *)

(** Only files and directories. *)
Fixpoint plain (n : Node) : bool :=
  match n with
  | File _ => true
  | Dir cs => forallb (λ c, plain c.2) cs
  | Symlink | Special => false
  end.

Fixpoint height (n : Node) : nat :=
  match n with
  | Dir cs => S (foldr (λ c m, height c.2 `max` m)%nat 0%nat cs)
  | _ => 0
  end.

Lemma child_in name cs : name ∈ map fst cs → ∃ c, child name cs = Some c ∧ (∃ n, (n, c) ∈ cs).
Proof.
  induction cs as [|[n c] cs IH]; simpl; [by intros ?%not_elem_of_nil|].
  intros [->|H]%elem_of_cons.
  - rewrite String.eqb_refl. exists c. split; [done|]. exists n. left.
  - destruct (String.eqb n name); [exists c; split; [done|]; exists n; left|].
    destruct (IH H) as (c' & Hc & n' & Hn). exists c'. split; [done|]. exists n'. by right.
Qed.

Lemma plain_child n c cs : plain (Dir cs) = true → (n, c) ∈ cs → plain c = true.
Proof. simpl. rewrite forallb_forall. intros H Hc. by apply (H (n, c)), list_elem_of_In. Qed.

Lemma height_child n c cs : (n, c) ∈ cs → (height c < height (Dir cs))%nat.
Proof.
  simpl. induction cs as [|[n' c'] cs IH]; simpl; [by intros ?%not_elem_of_nil|].
  intros [[= -> ->]|H]%elem_of_cons; [lia|]. specialize (IH H). lia.
Qed.

Lemma descend_snoc n below name :
  descend n (below ++ [name]) = descend n below ≫= λ v, match v with Dir cs => child name cs | _ => None end.
Proof.
  revert n. induction below as [|x below IH]; intros n; simpl.
  - destruct n; simpl; try done. by destruct (child name children).
  - destruct n; simpl; try done. destruct (child x children); simpl; [apply IH|done].
Qed.

Lemma node_at_child p cs name fs :
  node_at p fs = Some (Dir cs) → node_at (p ++ [name]) fs = child name cs.
Proof.
  destruct p as [|d [|n below]]; simpl; [done|done|].
  destruct (entries fs !! (d, n)) as [v|]; simpl; [|done]. intros H. by rewrite descend_snoc, H.
Qed.

Lemma node_at_metadata p n fs : node_at p fs = Some n → metadata p fs = Some (kind n).
Proof. destruct p as [|d [|m below]]; simpl; [done|done|]. by intros ->. Qed.

Lemma quiet_node_at fs s p : quiet fs s → node_at p s = node_at p fs.
Proof. intros (_ & H & _). destruct p as [|d [|n below]]; simpl; congruence. Qed.

(** A plain tree is flushed, however deep, when the fuel exceeds its height. *)
Lemma read_dir_below p cs fs : node_at p fs = Some (Dir cs) → read_dir p fs = Ok (map fst cs).
Proof. destruct p as [|d [|n below] ]; try done. unfold read_dir. by intros ->. Qed.

Lemma settles_sync_directory b fuel p cs fs :
  node_at p fs = Some (Dir cs) → plain (Dir cs) = true → (height (Dir cs) ≤ fuel)%nat →
  settles b (sync_staged_directory fuel p) fs tt.
Proof.
  revert p cs fs. induction fuel as [|fuel IH]; intros p cs fs Hn Hp Hh; [simpl in Hh; lia|].
  cbn [sync_staged_directory]. eapply settles_try.
  { apply settles_lift, settles_look; [done|]. simpl. by rewrite (node_at_metadata _ _ _ Hn). }
  intros s [Hs _]. rewrite <-(quiet_node_at _ _ _ Hs) in Hn. simpl. eapply settles_try.
  { apply settles_lift, settles_look; [done|]. apply read_dir_below in Hn. unfold perform. by rewrite Hn. }
  intros s1 [Hs1 _]. rewrite <-(quiet_node_at _ _ _ Hs1) in Hn.
  assert (∀ name, name ∈ merge_sort String.le (map fst cs) → name ∈ map fst cs) as Hnames.
  { intros name. by rewrite merge_sort_Permutation. }
  eapply settles_try with (a := tt).
  - clear Hs Hs1. revert s1 Hn. induction (merge_sort String.le (map fst cs)) as [|name names IHn]; intros s1 Hn;
      [apply settles_ret|].
    destruct (child_in name cs) as (c & Hc & m & Hm); [by apply Hnames; left|].
    pose proof (node_at_child _ _ name _ Hn) as Hat. rewrite Hc in Hat.
    pose proof (plain_child _ _ _ Hp Hm) as Hpc. pose proof (height_child _ _ _ Hm) as Hhc.
    eapply settles_try.
    { apply settles_lift, settles_look; [done|]. simpl. by rewrite (node_at_metadata _ _ _ Hat). }
    intros s2 [Hs2 _]. rewrite <-(quiet_node_at _ _ _ Hs2) in Hat. rewrite <-(quiet_node_at _ _ _ Hs2) in Hn.
    destruct c as [bytes|cs'| |]; try done; simpl; (eapply settles_try with (a := tt); [|
      intros s3 [Hs3 _]; apply IHn; [by intros x Hx; apply Hnames; right|by rewrite (quiet_node_at _ _ _ Hs3)] ]).
    + apply settles_lift, settles_look; [done|]. unfold perform. by rewrite (node_at_metadata _ _ _ Hat).
    + eapply IH; [done|done|lia].
  - intros s2 [Hs2 _]. rewrite <-(quiet_node_at _ _ _ Hs2) in Hn.
    eapply settles_lift, settles_sync, node_at_metadata, Hn.
Qed.

(** * Names *)

Lemma decimal_inj m n : decimal m = decimal n → m = n.
Proof.
  intros H. assert (parse_unsigned (N.max m n) (decimal m) = Some m) as Hm by (apply parse_decimal; lia).
  rewrite H, parse_decimal in Hm by lia. by simplify_eq.
Qed.

Section names.
Context (key : string) (pid : N).

Lemma quarantine_name_inj i j : quarantine_name key pid i = quarantine_name key pid j → i = j.
Proof.
  unfold quarantine_name. intros H. do 4 apply str_app_inj_l in H. by apply str_app_inj_r, decimal_inj in H.
Qed.

Lemma wrapping_succ s i : wrapping_add (wrapping_add s 1) i = wrapping_add s (1 + i).
Proof. unfold wrapping_add. rewrite N.Div0.add_mod_idemp_l. f_equal. lia. Qed.

Lemma wrapping_inj s i j : (i < 2 ^ 64 → j < 2 ^ 64 → wrapping_add s i = wrapping_add s j → i = j)%N.
Proof.
  unfold wrapping_add. intros Hi Hj H.
  assert (∀ k, k < 2 ^ 64 → (s + k) mod 2 ^ 64 = if s mod 2 ^ 64 + k <? 2 ^ 64 then s mod 2 ^ 64 + k else s mod 2 ^ 64 + k - 2 ^ 64)%N as Hm.
  { intros k Hk. rewrite <-N.Div0.add_mod_idemp_l. assert (s mod 2 ^ 64 < 2 ^ 64)%N by (apply N.mod_lt; lia).
    destruct (N.ltb_spec (s mod 2 ^ 64 + k) (2 ^ 64)); [by apply N.mod_small|].
    symmetry. apply (N.mod_unique _ _ 1); lia. }
  rewrite !Hm in H by done. destruct (N.ltb_spec (s mod 2 ^ 64 + i) (2 ^ 64)), (N.ltb_spec (s mod 2 ^ 64 + j) (2 ^ 64)); lia.
Qed.

(** Some name among the first [attempts] is free when fewer are in use. *)
Lemma free_name (used : gset string) s attempts :
  (base.size used < attempts)%nat → (N.of_nat attempts <= 2 ^ 64)%N →
  ∃ i, (i < attempts)%nat ∧ quarantine_name key pid (wrapping_add s (N.of_nat i)) ∉ used.
Proof.
  intros Hsize Hmax. set (f i := quarantine_name key pid (wrapping_add s (N.of_nat i))).
  destruct (decide (Exists (λ i, f i ∉ used) (seq 0 attempts))) as [He|Hn].
  - apply Exists_exists in He as (i & Hi & Hf). apply elem_of_seq in Hi. exists i. split; [lia|done].
  - apply not_Exists_Forall in Hn; [|intros i; apply _]. exfalso.
    assert (NoDup (f <$> seq 0 attempts)) as Hnd.
    { apply NoDup_fmap_2_strong; [|apply NoDup_seq]. intros i j Hi%elem_of_seq Hj%elem_of_seq Hij.
      apply quarantine_name_inj, wrapping_inj in Hij; lia. }
    assert (list_to_set (C := gset string) (f <$> seq 0 attempts) ⊆ used) as Hsub.
    { intros x Hx. apply elem_of_list_to_set, list_elem_of_fmap in Hx as (i & -> & Hi).
      rewrite Forall_forall in Hn. specialize (Hn i Hi). simpl in Hn. destruct (decide (f i ∈ used)); done. }
    apply subseteq_size in Hsub. rewrite size_list_to_set, length_fmap, length_seq in Hsub by done. lia.
Qed.

Lemma quarantine_candidate_wp b attempts C Q fs :
  (∃ i, (i < attempts)%nat ∧
        entries fs !! ("quarantine", quarantine_name key pid (wrapping_add (sequence fs) (N.of_nat i))) = None) →
  (sequence fs < 2 ^ 64)%N →
  (∀ s, quiet fs s → C s) → (b = true → ∀ e s, quiet fs s → Q (Err e) s) →
  (∀ n s, calm fs s → entries fs !! ("quarantine", n) = None → Q (Ok ["quarantine"; n]) s) →
  wp b (quarantine_candidate key pid attempts) C Q fs.
Proof.
  revert fs. induction attempts as [|attempts IH]; intros fs (i & Hi & Hfree) Hseq HC HE HQ; [lia|].
  cbn [quarantine_candidate]. apply wp_try, wp_lift. cbn [wp io]. split; [by apply HC|].
  set (fs1 := (perform NextSequence fs).2).
  assert (calm fs fs1) as Hc1.
  { split; [|done]. split_and!; [done|done|]. intros _. simpl. unfold wrapping_add. apply N.mod_lt. lia. }
  cut (wp b (prog_bind (io (SymlinkMetadata ["quarantine"; quarantine_name key pid (sequence fs)])) (λ r,
      match r with
      | Err NotFound => Ret (Ok ["quarantine"; quarantine_name key pid (sequence fs)])
      | Ok _ => quarantine_candidate key pid attempts
      | Err e => Ret (Err (of_io e))
      end)) C Q fs1); [by intros H; split|].
  apply wp_bind, wp_look; [done|by apply HC, Hc1| |intros Hb; by apply HE; [|apply Hc1] ].
  unfold perform. simpl metadata.
  destruct (entries fs !! ("quarantine", quarantine_name key pid (sequence fs))) as [v|] eqn:Hv; simpl; [|by apply HQ].
  apply IH.
  - destruct i as [|i].
    + rewrite N.add_0_r in Hfree || idtac. unfold wrapping_add in Hfree.
      rewrite N.add_0_r, N.mod_small in Hfree by done. congruence.
    + exists i. split; [lia|]. simpl. rewrite wrapping_succ. by replace (1 + N.of_nat i)%N with (N.of_nat (S i)) by lia.
  - by apply Hc1.
  - intros s Hs. apply HC. etrans; [apply Hc1|done].
  - intros Hb e s Hs. apply HE; [done|]. etrans; [apply Hc1|done].
  - intros n s Hs Hn. apply HQ; [by etrans|done].
Qed.

End names.

(** * Views of a repair transaction

    What the four paths of a transaction hold, and what it has moved to quarantine;
    [E] is everything else.  [resolve] is the state a reconciliation settles. *)

Record View := mk_View {
  final : option Node;
  staged : option Node;
  marked : bool;
  backup : option Node;
  kept : option Node;
}.

Definition resolve (V : View) : option View :=
  if marked V then
    match final V, staged V, backup V, kept V with
    | Some old, Some new, None, None => Some (mk_View (Some new) None false None (Some old))
    | None, Some new, Some old, None => Some (mk_View (Some new) None false None (Some old))
    | None, None, Some old, k => Some (mk_View (Some old) None false None k)
    | Some new, None, Some old, None => Some (mk_View (Some new) None false None (Some old))
    | Some new, None, None, k => Some (mk_View (Some new) None false None k)
    | _, _, _, _ => None
    end
  else Some V.

Definition is_tree (n : Node) : Prop := ∃ cs, n = Dir cs.

Section views.
Context (key : string) (pid : N) (fuel : nat) (E : gmap (string * string) Node).

Definition pair_of (p : Path) : string * string := match p with [d; n] => (d, n) | _ => ("", "") end.
Definition own_paths : list (string * string) :=
  pair_of <$> [model_dir key; staging_dir key; repair_marker key; repair_backup key].

Record layout (fs : Fs) : Prop := {
  lay_models : tops fs !! "models" = Some KDir;
  lay_staging : tops fs !! "staging" = Some KDir;
  lay_transactions : tops fs !! "transactions" = Some KDir;
  lay_quarantine : tops fs !! "quarantine" = None ∨ tops fs !! "quarantine" = Some KDir;
  lay_sequence : (sequence fs < 2 ^ 64)%N;
}.

Record viewed (V : View) (fs : Fs) : Prop := {
  vw_layout : layout fs;
  vw_final : entries fs !! pair_of (model_dir key) = final V;
  vw_staged : entries fs !! pair_of (staging_dir key) = staged V;
  vw_marker : entries fs !! pair_of (repair_marker key) = if marked V then Some (File "") else None;
  vw_backup : entries fs !! pair_of (repair_backup key) = backup V;
  vw_rest :
    match kept V with
    | None => ∀ p, p ∉ own_paths → entries fs !! p = E !! p
    | Some old => ∃ n, E !! ("quarantine", n) = None ∧
        ∀ p, p ∉ own_paths → entries fs !! p = <[("quarantine", n) := old]> E !! p
    end;
  vw_trees : (∀ n, final V = Some n → is_tree n) ∧ (∀ n, staged V = Some n → is_tree n) ∧ (∀ n, backup V = Some n → is_tree n);
}.

(** There is room in quarantine within the fuel. *)
Definition room : Prop :=
  (N.of_nat fuel <= 2 ^ 64)%N ∧
  ∃ used : gset string, (∀ n, is_Some (E !! ("quarantine", n)) → n ∈ used) ∧ (base.size used < fuel)%nat.

Lemma viewed_quiet V fs s : quiet fs s → viewed V fs → viewed V s.
Proof.
  intros (H1 & H2 & H3) [[] ]. split; rewrite ?H2; try done. split; rewrite ?H1; auto.
Qed.

Definition trees (V : View) : Prop :=
  (∀ n, final V = Some n → is_tree n) ∧ (∀ n, staged V = Some n → is_tree n) ∧ (∀ n, backup V = Some n → is_tree n).

Lemma viewed_intro V V' fs fs' :
  viewed V fs → tops fs' = tops fs → sequence fs' = sequence fs → kept V' = kept V →
  entries fs' !! pair_of (model_dir key) = final V' →
  entries fs' !! pair_of (staging_dir key) = staged V' →
  entries fs' !! pair_of (repair_marker key) = (if marked V' then Some (File "") else None) →
  entries fs' !! pair_of (repair_backup key) = backup V' →
  (∀ p, p ∉ own_paths → entries fs' !! p = entries fs !! p) → trees V' → viewed V' fs'.
Proof.
  intros [] Ht Hs Hk H1 H2 H3 H4 Hp HV. split; try done.
  - destruct vw_layout0. by split; rewrite ?Ht, ?Hs.
  - rewrite Hk. destruct (kept V) as [old|].
    + destruct vw_rest0 as (n & Hn & Hr). exists n. split; [done|]. intros p Hne. by rewrite Hp, Hr.
    + intros p Hne. by rewrite Hp, vw_rest0.
Qed.

Lemma own_ne p q : p ∉ own_paths → q ∈ own_paths → q ≠ p.
Proof. by intros H1 H2 ->. Qed.

Ltac apart :=
  first
    [ by intros [=]
    | by intros [= ?%str_app_inj_l]
    | eapply own_ne; [eassumption|]; unfold own_paths; simpl; rewrite !elem_of_cons; tauto ].
Ltac look :=
  repeat first
    [ rewrite lookup_insert_eq | rewrite lookup_delete_eq
    | rewrite lookup_insert_ne by apart | rewrite lookup_delete_ne by apart ].

Lemma view_displace V fs old :
  viewed V fs → final V = Some old → backup V = None →
  viewed (mk_View None (staged V) (marked V) (Some old) (kept V))
    (moved "models" key "transactions" (key +:+ ".previous") old fs).
Proof.
  intros H Hf Hb. pose proof H as []. destruct vw_trees0 as (T1 & T2 & T3).
  eapply viewed_intro; [exact H|done|done|done|..]; simpl in *; try (intros p Hp); look; try done.
  split_and!; simpl; naive_solver.
Qed.

Lemma view_promote V fs new :
  viewed V fs → staged V = Some new → final V = None →
  viewed (mk_View (Some new) None (marked V) (backup V) (kept V))
    (moved "staging" (key +:+ ".partial") "models" key new fs).
Proof.
  intros H Hf Hb. pose proof H as []. destruct vw_trees0 as (T1 & T2 & T3).
  eapply viewed_intro; [exact H|done|done|done|..]; simpl in *; try (intros p Hp); look; try done.
  split_and!; simpl; naive_solver.
Qed.

Lemma view_restore V fs old :
  viewed V fs → backup V = Some old → final V = None →
  viewed (mk_View (Some old) (staged V) (marked V) None (kept V))
    (moved "transactions" (key +:+ ".previous") "models" key old fs).
Proof.
  intros H Hf Hb. pose proof H as []. destruct vw_trees0 as (T1 & T2 & T3).
  eapply viewed_intro; [exact H|done|done|done|..]; simpl in *; try (intros p Hp); look; try done.
  split_and!; simpl; naive_solver.
Qed.

Lemma view_unmark V fs :
  viewed V fs → viewed (mk_View (final V) (staged V) false (backup V) (kept V))
    (drop_entry "transactions" (key +:+ ".repair") fs).
Proof.
  intros H. pose proof H as []. destruct vw_trees0 as (T1 & T2 & T3).
  eapply viewed_intro; [exact H|done|done|done|..]; simpl in *; try (intros p Hp); look; try done.
Qed.

Lemma view_mark V fs :
  viewed V fs → viewed (mk_View (final V) (staged V) true (backup V) (kept V))
    (set_entry "transactions" (key +:+ ".repair") (File "") fs).
Proof.
  intros H. pose proof H as []. destruct vw_trees0 as (T1 & T2 & T3).
  eapply viewed_intro; [exact H|done|done|done|..]; simpl in *; try (intros p Hp); look; try done.
Qed.

Lemma view_top V fs :
  viewed V fs → tops fs !! "quarantine" = None → viewed V (set_top "quarantine" fs).
Proof. intros [[] ] _. by split; [split|..]; simpl; try (right; apply lookup_insert_eq); look. Qed.

(** Quarantining the displaced model under a free name. *)
Lemma view_quarantine V fs old n :
  viewed V fs → backup V = Some old → kept V = None → entries fs !! ("quarantine", n) = None →
  viewed (mk_View (final V) (staged V) (marked V) None (Some old))
    (moved "transactions" (key +:+ ".previous") "quarantine" n old fs).
Proof.
  intros [Hl] Hb Hk Hn. rewrite Hk in vw_rest0. destruct vw_trees0 as (T1 & T2 & T3).
  assert (("quarantine", n) ∉ own_paths) as Hown.
  { unfold own_paths; simpl. rewrite !elem_of_cons, elem_of_nil. naive_solver. }
  split; simpl in *; look; try done.
  - destruct Hl. by split.
  - exists n. split; [by rewrite <-vw_rest0|]. intros p Hp. destruct (decide (p = ("quarantine", n))) as [->|Hne].
    + by look.
    + rewrite !lookup_insert_ne by done. look. by apply vw_rest0.
Qed.

Lemma linked_top d k fs : tops fs !! d = Some k → k ≠ KSymlink → linked [d] fs = false.
Proof. intros H Hk. unfold linked. simpl. rewrite H. by rewrite bool_decide_eq_false_2 by congruence. Qed.

(** The quarantine directory is made, checked and its name flushed. *)
Lemma wp_quarantine_root {B} b V (k : prog (result Error B)) C Q U fs :
  viewed V fs → unsynced fs ⊆ U →
  (∀ s, viewed V s → C s ∧ (b = true → ∀ e, Q (Err e) s)) →
  (∀ s, viewed V s → tops s !! "quarantine" = Some KDir → unsynced s ⊆ U → wp b k C Q s) →
  wp b (do? _ := call (CreateDirAll ["quarantine"]) in
        do? _ := ensure_contained_directory [] ["quarantine"] in
        do? _ := call (SyncDir []) in k) C Q fs.
Proof.
  intros HV HU HC Hk.
  cut (∀ s, viewed V s → tops s !! "quarantine" = Some KDir → unsynced s ⊆ {[ [] ]} ∪ U →
    wp b (do? _ := ensure_contained_directory [] ["quarantine"] in do? _ := call (SyncDir []) in k) C Q s).
  { intros Hnext. apply wp_try, wp_lift. cbn [wp io]. split_and!; [by apply HC| |by intros Hb dist; apply HC].
    unfold perform. destruct (lay_quarantine _ (vw_layout _ _ HV)) as [Hq|Hq]; rewrite Hq.
    - apply Hnext; [by apply view_top|simpl; by rewrite lookup_insert_eq|simpl; set_solver].
    - apply Hnext; [done|done|set_solver]. }
  intros s Hs Hq HsU. eapply wp_settles; [by apply settles_contained; [|eapply linked_top]|..].
  { intros s' Hs'. by apply HC, (viewed_quiet V s). }
  { intros Hb e s' Hs'. apply HC; [by apply (viewed_quiet V s)|done]. }
  intros s1 [Hs1 Hu1]. apply wp_try, wp_lift. assert (viewed V s1) as Hv1 by by eapply viewed_quiet.
  eapply wp_sync; [done|by apply HC| |by intros Hb; apply HC].
  apply Hk; [by eapply viewed_quiet; [apply calm_flush|]| |simpl; set_solver].
  destruct Hs1 as (Ht & _). simpl. by rewrite Ht.
Qed.

Lemma quarantine_backup_wp b V old C (Q : result Error unit → Fs → Prop) U fs :
  let V' := mk_View (final V) (staged V) (marked V) None (Some old) in
  room → viewed V fs → backup V = Some old → kept V = None → unsynced fs ⊆ U →
  (∀ s, viewed V s ∨ viewed V' s → C s ∧ (b = true → ∀ e, Q (Err e) s)) →
  (∀ s, viewed V' s → unsynced s ⊆ U → Q (Ok tt) s) →
  wp b (quarantine_backup key pid fuel (repair_backup key)) C Q fs.
Proof.
  intros V' [Hfuel (used & Hused & Hsize)] HV Hb Hk HU HC HQ.
  eapply wp_settles; [apply settles_metadata_if_exists|..].
  { intros s Hs. apply HC. left. by eapply viewed_quiet. }
  { intros ? e s Hs. apply HC; [left; by eapply viewed_quiet|done]. }
  assert (metadata (repair_backup key) fs = Some (kind old)) as ->.
  { simpl. pose proof (vw_backup _ _ HV) as H. simpl in H. by rewrite H, Hb. }
  intros s [Hs Hu]. eapply wp_quarantine_root with (V := V) (U := U);
    [by eapply viewed_quiet|set_solver|by intros; apply HC; left|].
  clear s Hs Hu. intros s Hs Hq Hu. apply wp_try, quarantine_candidate_wp.
  - destruct (free_name key pid used (sequence s) fuel) as (i & Hi & Hfree); [done|done|].
    exists i. split; [done|]. pose proof (vw_rest _ _ Hs) as Hr. rewrite Hk in Hr. rewrite Hr.
    + apply eq_None_not_Some. by intros ?%Hused.
    + unfold own_paths; simpl. rewrite !elem_of_cons, elem_of_nil. naive_solver.
  - apply Hs.
  - intros s' Hs'. apply HC. left. by eapply viewed_quiet.
  - intros Hf e s' Hs'. apply HC; [left; by eapply viewed_quiet|done].
  - intros n s' [Hs' Hu'] Hn. apply wp_lift.
    assert (viewed V s') as Hv' by by eapply viewed_quiet. destruct Hs' as (Ht & He & _).
    assert (viewed V' (moved "transactions" (key +:+ ".previous") "quarantine" n old s')) as Hm
      by (apply view_quarantine; [done|done|done|by rewrite He]).
    apply (durable_rename_wp b _ _ _ _ old); [done| |by rewrite He| |by rewrite Ht, Hq| | ].
    + pose proof (vw_backup _ _ Hv') as H. simpl in H. by rewrite H.
    + by rewrite (lay_transactions _ (vw_layout _ _ Hv')).
    + intros x [Hx|Hx]; [assert (viewed V x) by by eapply viewed_quiet|assert (viewed V' x) by by eapply viewed_quiet];
        (split; [apply HC; by auto|intros Hf e; apply HC; by auto]).
    + intros x Hx Hux. apply HQ; [by eapply viewed_quiet|set_solver].
Qed.

Lemma viewed_final V fs : viewed V fs → metadata (model_dir key) fs = kind <$> final V.
Proof. intros HV. rewrite <-(vw_final _ _ HV). simpl. by destruct (entries fs !! _). Qed.
Lemma viewed_staged V fs : viewed V fs → metadata (staging_dir key) fs = kind <$> staged V.
Proof. intros HV. rewrite <-(vw_staged _ _ HV). simpl. by destruct (entries fs !! _). Qed.
Lemma viewed_backup V fs : viewed V fs → metadata (repair_backup key) fs = kind <$> backup V.
Proof. intros HV. rewrite <-(vw_backup _ _ HV). simpl. by destruct (entries fs !! _). Qed.

Lemma viewed_marker V fs : viewed V fs → metadata (repair_marker key) fs = if marked V then Some KFile else None.
Proof.
  intros HV. pose proof (vw_marker _ _ HV) as H. simpl in *. rewrite H. by destruct (marked V).
Qed.

(** The three renames of a transaction. *)
Lemma wp_rename b V W d n d' n' v C (Q : result IoError unit → Fs → Prop) U fs :
  viewed V fs → unsynced fs ⊆ U → d ≠ d' →
  entries fs !! (d, n) = Some v → entries fs !! (d', n') = None →
  d ∈ ["models"; "staging"; "transactions"] → d' ∈ ["models"; "staging"; "transactions"] →
  viewed W (moved d n d' n' v fs) →
  (∀ s, viewed V s ∨ viewed W s → C s ∧ (b = true → ∀ e, Q (Err e) s)) →
  (∀ s, viewed W s → unsynced s ⊆ U → Q (Ok tt) s) →
  wp b (durable_rename [d; n] [d'; n']) C Q fs.
Proof.
  intros HV HU Hd Hv Hfree Hin Hin' HW HC HQ.
  assert (∀ d, d ∈ ["models"; "staging"; "transactions"] → is_Some (tops fs !! d)) as Htops.
  { destruct (vw_layout _ _ HV). intros x. rewrite !elem_of_cons, elem_of_nil.
    intros [->|[->|[->|[] ] ] ]; rewrite ?lay_models0, ?lay_staging0, ?lay_transactions0; done. }
  apply (durable_rename_wp b _ _ _ _ v); [done|done|done|by apply Htops|by apply Htops| |].
  - intros s [Hs|Hs]; apply HC; [left|right]; by eapply viewed_quiet.
  - intros s Hs Hu. apply HQ; [by eapply viewed_quiet|set_solver].
Qed.

Ltac own_dirs := rewrite !elem_of_cons; tauto.

Lemma wp_displace b V old C (Q : result IoError unit → Fs → Prop) U fs :
  let W := mk_View None (staged V) (marked V) (Some old) (kept V) in
  viewed V fs → final V = Some old → backup V = None → unsynced fs ⊆ U →
  (∀ s, viewed V s ∨ viewed W s → C s ∧ (b = true → ∀ e, Q (Err e) s)) →
  (∀ s, viewed W s → unsynced s ⊆ U → Q (Ok tt) s) →
  wp b (durable_rename (model_dir key) (repair_backup key)) C Q fs.
Proof.
  intros W HV Hf Hb HU HC HQ. pose proof HV as [? Hf' _ _ Hb']. simpl in Hf', Hb'.
  eapply (wp_rename b V W); [done|done|done|by rewrite Hf'|by rewrite Hb'|own_dirs|own_dirs|by apply view_displace|done|done].
Qed.

Lemma wp_promoted b V new C (Q : result IoError unit → Fs → Prop) U fs :
  let W := mk_View (Some new) None (marked V) (backup V) (kept V) in
  viewed V fs → staged V = Some new → final V = None → unsynced fs ⊆ U →
  (∀ s, viewed V s ∨ viewed W s → C s ∧ (b = true → ∀ e, Q (Err e) s)) →
  (∀ s, viewed W s → unsynced s ⊆ U → Q (Ok tt) s) →
  wp b (durable_rename (staging_dir key) (model_dir key)) C Q fs.
Proof.
  intros W HV Hs Hf HU HC HQ. pose proof HV as [? Hf' Hs' _ _]. simpl in Hf', Hs'.
  eapply (wp_rename b V W); [done|done|done|by rewrite Hs'|by rewrite Hf'|own_dirs|own_dirs|by apply view_promote|done|done].
Qed.

Lemma wp_restored b V old C (Q : result IoError unit → Fs → Prop) U fs :
  let W := mk_View (Some old) (staged V) (marked V) None (kept V) in
  viewed V fs → backup V = Some old → final V = None → unsynced fs ⊆ U →
  (∀ s, viewed V s ∨ viewed W s → C s ∧ (b = true → ∀ e, Q (Err e) s)) →
  (∀ s, viewed W s → unsynced s ⊆ U → Q (Ok tt) s) →
  wp b (durable_rename (repair_backup key) (model_dir key)) C Q fs.
Proof.
  intros W HV Hb Hf HU HC HQ. pose proof HV as [? Hf' _ _ Hb']. simpl in Hf', Hb'.
  eapply (wp_rename b V W); [done|done|done|by rewrite Hb'|by rewrite Hf'|own_dirs|own_dirs|by apply view_restore|done|done].
Qed.

(** The marker is removed and its directory flushed. *)
Lemma wp_unmark b V C (Q : result Error unit → Fs → Prop) (r : result Error unit) U fs :
  let W := mk_View (final V) (staged V) false (backup V) (kept V) in
  viewed V fs → marked V = true → unsynced fs ⊆ U →
  (∀ s, viewed V s ∨ viewed W s → C s ∧ (b = true → ∀ e, Q (Err e) s)) →
  (∀ s, viewed W s → unsynced s ⊆ U → Q r s) →
  wp b (do? _ := call (RemoveFile (repair_marker key)) in
        do? _ := call (SyncDir ["transactions"]) in Ret r) C Q fs.
Proof.
  intros W HV Hm HU HC HQ. apply wp_try, wp_lift. cbn [wp io].
  assert (perform (RemoveFile (repair_marker key)) fs = (Ok tt, drop_entry "transactions" (key +:+ ".repair") fs)) as Hp.
  { pose proof (vw_marker _ _ HV) as H. rewrite Hm in H. simpl in H. unfold perform, repair_marker. by rewrite H. }
  rewrite Hp. split_and!; [apply HC; by left| |by intros Hb dist; apply HC; [left|] ].
  assert (viewed W (drop_entry "transactions" (key +:+ ".repair") fs)) as HW by by apply view_unmark.
  apply wp_try, wp_lift. simpl snd. eapply wp_sync; [simpl; apply HW|apply HC; by right| |by intros Hb; apply HC; [right|] ].
  apply HQ; [by eapply viewed_quiet; [apply calm_flush|]|simpl; set_solver].
Qed.

(** A state that reconciliation settles as [V']. *)
Definition settling (V' : View) (fs : Fs) : Prop := ∃ V, viewed V fs ∧ resolve V = Some V'.
Inductive settled (b : bool) (V' : View) (U : gset Path) : result Error unit → Fs → Prop :=
| settled_ok fs : viewed V' fs → unsynced fs ⊆ U → settled b V' U (Ok tt) fs
| settled_err e fs : b = true → settling V' fs → settled b V' U (Err e) fs.

Lemma settling_view V V' b U : resolve V = Some V' →
  ∀ fs, viewed V fs → settling V' fs ∧ (b = true → ∀ e, settled b V' U (Err e) fs).
Proof. intros HV fs Hfs. assert (settling V' fs) by by exists V. split; [done|]. intros. by constructor. Qed.

Lemma wp_viewed {A B} b (p : prog (result Error A)) (k : A → prog (result Error B)) a V C Q U fs :
  settles b p fs a → (∀ s, viewed V s → C s ∧ (b = true → ∀ e, Q (Err e) s)) → viewed V fs → unsynced fs ⊆ U →
  (∀ s, quiet fs s → viewed V s → unsynced s ⊆ U → wp b (k a) C Q s) →
  wp b (try p k) C Q fs.
Proof.
  intros Hp HC HV HU Hk. eapply wp_settles; [exact Hp|..].
  - intros s Hs. apply HC. by eapply viewed_quiet.
  - intros Hb e s Hs. apply HC; [by eapply viewed_quiet|done].
  - intros s [Hs Hu]. apply Hk; [done|by eapply viewed_quiet|set_solver].
Qed.

(** Finishing a transaction whose replacement (or previous model) is in place. *)
Lemma conclude_wp b V V' U fs :
  room → viewed V fs → is_Some (final V) → staged V = None → marked V = true → resolve V = Some V' →
  unsynced fs ⊆ U → wp b (conclude_repair key pid fuel) (settling V') (settled b V' U) fs.
Proof.
  intros Hroom HV [f Hf] Hs Hm Hres HU. pose proof (settling_view V V' b U Hres) as HC.
  eapply wp_viewed; [apply settles_verify_final|exact HC|done|done|].
  { pose proof (vw_final _ _ HV) as H. simpl in *. rewrite H, Hf. simpl.
    destruct (vw_trees _ _ HV) as [Ht _]. by destruct (Ht f Hf) as [cs ->]. }
  intros s _ HVs HUs. pose proof Hres as Hres0.
  unfold resolve in Hres. rewrite Hm, Hf, Hs in Hres. destruct (backup V) as [old|] eqn:Hb.
  - destruct (kept V) eqn:Hk; [done|]. simplify_eq.
    assert (∀ s, viewed (mk_View (final V) (staged V) (marked V) None (Some old)) s →
      settling (mk_View (Some f) None false None (Some old)) s ∧
      (b = true → ∀ e, settled b (mk_View (Some f) None false None (Some old)) U (Err e) s)) as HC2.
    { apply settling_view. unfold resolve. simpl. by rewrite Hm, Hf, Hs. }
    apply wp_try, (quarantine_backup_wp b V old _ _ U); [done|done|done|done|done|..].
    { intros x [Hx|Hx]; [apply HC|apply HC2]; done. }
    intros s1 Hs1 Hu1. eapply wp_unmark with (U := U); [exact Hs1|done|done|..]; simpl.
    + intros x [Hx|Hx]; [by apply HC2|]. rewrite Hf, Hs in Hx. by eapply settling_view; [|exact Hx].
    + intros x Hx Hux. rewrite Hf, Hs in Hx. by constructor.
  - simplify_eq. eapply wp_viewed with (a := tt); [|exact HC|done|done|].
    { eapply settles_try; [apply settles_metadata_if_exists|].
      pose proof (vw_backup _ _ HVs) as H. simpl in *. rewrite H, Hb. intros ? _. apply settles_ret. }
    intros s1 _ HV1 HU1. eapply wp_unmark with (U := U); [done|done|done|..]; simpl.
    + intros x [Hx|Hx]; [by apply HC|]. rewrite Hf, Hs, Hb in Hx. by eapply settling_view; [|exact Hx].
    + intros x Hx Hux. rewrite Hf, Hs, Hb in Hx. by constructor.
Qed.

(** The remaining moves put the settled model in place. *)
Lemma resume_wp b V V' U C' Q' fs :
  room → viewed V fs → resolve V = Some V' → marked V = true → unsynced fs ⊆ U →
  C' = settling V' → (∀ e s, b = true → settling V' s → Q' (Err e) s) →
  (∀ s W, viewed W s → resolve W = Some V' → is_Some (final W) → staged W = None → marked W = true →
     unsynced s ⊆ U → Q' (Ok tt) s) →
  wp b (resume_repair key (kind <$> final V) (kind <$> staged V) (kind <$> backup V)) C' Q' fs.
Proof.
  intros Hroom HV Hres Em HU -> HE HQ.
  assert (∀ W, resolve W = Some V' → ∀ s, viewed W s → settling V' s ∧ (b = true → ∀ e, Q' (Err e) s)) as HC.
  { intros W HW s Hs. assert (settling V' s) by by exists W. split; [done|]. intros. by apply HE. }
  pose proof (HC V Hres) as HCV. unfold resolve in Hres. rewrite Em in Hres.
  destruct V as [[old|] [new|] m [prev|] k]; cbn [final staged backup kept marked] in *; subst m;
    cbn [fmap option_fmap option_map resume_repair].
  - done.
  - destruct k; [done|]. simplify_eq. apply wp_try, wp_lift.
    eapply (wp_displace b _ old); [exact HV|done|done|exact HU|..]; cbn [final staged backup kept marked].
    { intros s [Hs|Hs]; (split; [by eapply HC; [|exact Hs]|intros Hb e; by eapply HC; [|exact Hs|] ]). }
    intros s Hs Hu. cbn [map_err]. apply wp_lift.
    eapply (wp_promoted b _ new); [exact Hs|done|done|exact Hu|..]; cbn [final staged backup kept marked].
    { intros s' [Hs'|Hs']; (split; [by eapply HC; [|exact Hs']|intros Hb e; by eapply HC; [|exact Hs'|] ]). }
    intros s' Hs' Hu'. by eapply HQ; [exact Hs'|..].
  - destruct k; [done|]. by eapply HQ; [exact HV|..].
  - by eapply HQ; [exact HV|..].
  - destruct k; [done|]. simplify_eq. apply wp_lift.
    eapply (wp_promoted b _ new); [exact HV|done|done|exact HU|..]; cbn [final staged backup kept marked].
    { intros s' [Hs'|Hs']; (split; [by eapply HC; [|exact Hs']|intros Hb e; by eapply HC; [|exact Hs'|] ]). }
    intros s' Hs' Hu'. by eapply HQ; [exact Hs'|..].
  - done.
  - simplify_eq. apply wp_lift.
    eapply (wp_restored b _ prev); [exact HV|done|done|exact HU|..]; cbn [final staged backup kept marked].
    { intros s' [Hs'|Hs']; (split; [by eapply HC; [|exact Hs']|intros Hb e; by eapply HC; [|exact Hs'|] ]). }
    intros s' Hs' Hu'. by eapply HQ; [exact Hs'|..].
  - done.
Qed.

(** Reconciliation settles what [resolve] says; a fault or a crash anywhere leaves a
    state that still settles as the same. *)
Lemma reconcile_wp b V V' U fs :
  room → viewed V fs → resolve V = Some V' → unsynced fs ⊆ U →
  wp b (reconcile_repair key pid fuel) (settling V') (settled b V' U) fs.
Proof.
  intros Hroom HV Hres HU. pose proof (settling_view V V' b U Hres) as HC.
  apply wp_bind, wp_look; [done|by apply HC| |by intros Hb; apply HC].
  unfold perform. rewrite (viewed_marker V fs HV). destruct (marked V) eqn:Em; cbn [fst ok_or].
  2: { unfold resolve in Hres. rewrite Em in Hres. simplify_eq. by constructor. }
  change (is_reparse KFile || negb (is_file KFile)) with false. cbv iota.
  eapply wp_viewed; [apply settles_metadata_if_exists|exact HC|done|done|]. intros s1 Hq1 HV1 HU1.
  eapply wp_viewed; [apply settles_metadata_if_exists|exact HC|done|done|]. intros s2 Hq2 HV2 HU2.
  eapply wp_viewed; [apply settles_metadata_if_exists|exact HC|done|done|]. intros s3 Hq3 HV3 HU3.
  rewrite (viewed_final V fs), (viewed_staged V s1), (viewed_backup V s2) by done.
  apply wp_try, (resume_wp b V V' U); [done|done|done|done|done|done| |].
  - intros e s Hb Hs. by constructor.
  - intros s W HW Hres' Hf Hs Hm Hu. by eapply conclude_wp.
Qed.

(** ** Promotion *)

Lemma linked_entry d n v fs :
  tops fs !! d = Some KDir → entries fs !! (d, n) = Some (Dir v) → linked [d; n] fs = false.
Proof. intros Hd Hn. unfold linked. simpl. by rewrite Hd, Hn. Qed.

Lemma settles_staged_tree b V fs cs :
  viewed V fs → staged V = Some (Dir cs) → plain (Dir cs) = true → (height (Dir cs) ≤ fuel)%nat →
  settles b (sync_staged_tree fuel (staging_dir key)) fs tt.
Proof.
  intros HV Hs Hp Hh. pose proof (vw_staged _ _ HV) as He. rewrite Hs in He. simpl in He.
  pose proof (lay_staging _ (vw_layout _ _ HV)) as Ht.
  unfold sync_staged_tree. rewrite bool_decide_eq_false_2 by (intros H; apply H; done).
  assert (node_at (staging_dir key) fs = Some (Dir cs)) as Hn by (simpl; by rewrite He).
  eapply settles_try; [apply settles_contained; [by rewrite (node_at_metadata _ _ _ Hn)|by eapply linked_entry]|].
  intros s1 [Hs1 _]. eapply settles_try.
  { eapply settles_sync_directory; [by rewrite (quiet_node_at fs)|done|done]. }
  intros s2 [Hs2 _]. eapply settles_try; [|intros s3 _; by eapply settles_lift, settles_sync].
  eapply settles_lift, settles_sync. rewrite (quiet_metadata s1), (quiet_metadata fs) by done. exact Ht.
Qed.

Lemma settles_own_path b V fs cs :
  viewed V fs → final V = Some (Dir cs) →
  settles b (reject_reparse_components [] (map Normal (model_dir key))) fs tt.
Proof.
  intros HV Hf. pose proof (vw_final _ _ HV) as He. rewrite Hf in He. simpl in He.
  pose proof (lay_models _ (vw_layout _ _ HV)) as Ht.
  eapply settles_try; [by apply settles_lift, settles_look|].
  intros s [(Ht' & He' & _) _]. cbn [is_reparse]. simpl map. intros C Q HC HE HQ.
  change (is_reparse KDir) with false. cbv iota. cbn [reject_reparse_from app].
  apply wp_bind, wp_look; [done|by apply HC| |intros Hb; by apply HE].
  unfold perform. simpl metadata. rewrite Ht', Ht. cbn [fst ok_or]. change (is_reparse KDir) with false. cbv iota.
  apply wp_bind, wp_look; [done|by apply HC| |intros Hb; by apply HE].
  unfold perform. simpl metadata. rewrite He', He. simpl. by apply HQ.
Qed.

Lemma abandon_wp b V e C (Q : result Error unit → Fs → Prop) fs :
  let W := mk_View (final V) (staged V) false (backup V) (kept V) in
  viewed V fs → marked V = true →
  (∀ s, viewed V s ∨ is_Some (final V) ∧ viewed W s → C s ∧ ∀ e, Q (Err e) s) →
  wp b (abandon_repair key e) C Q fs.
Proof.
  intros W HV Hm HC. apply wp_try, wp_try.
  assert (∀ s, quiet fs s → viewed V s) as Hq by (intros s Hs; by eapply viewed_quiet).
  apply settles_metadata_if_exists; [by intros s Hs; apply HC; left; apply Hq|by intros _ e' s Hs; apply HC; left; apply Hq|].
  intros s [Hs _]. rewrite (viewed_final V) by done. apply Hq in Hs.
  assert (final V = None ∨ ∃ v, final V = Some v) as [Hf|[v Hf] ] by (destruct (final V); eauto).
  - rewrite Hf. apply HC. by left.
  - destruct (vw_trees _ _ HV) as [Ht _]. destruct (Ht v Hf) as [cs ->]. rewrite Hf.
    cbn [fmap option_fmap option_map kind]. change (is_dir KDir && negb (is_reparse KDir)) with true. cbv iota.
    cbn [wp]. eapply (wp_unmark b V); [done|done|reflexivity|..].
    + intros x Hx. assert (viewed V x ∨ is_Some (final V) ∧ viewed W x) as Hx' by (rewrite Hf; naive_solver).
      split; [by apply HC|intros _ e'; by apply HC].
    + intros x Hx _. apply HC. right. rewrite Hf. by eauto.
Qed.

(** Replacing an installed model: the outcomes. *)
Inductive replaced (b : bool) (V0 V1 : View) (U : gset Path) : result Error unit → Fs → Prop :=
| replaced_ok fs : viewed V1 fs → unsynced fs ⊆ U → replaced b V0 V1 U (Ok tt) fs
| replaced_err e fs : b = true → settling V0 fs ∨ settling V1 fs → replaced b V0 V1 U (Err e) fs.

Lemma replaced_view b V0 V1 U W :
  resolve W = Some V0 ∨ resolve W = Some V1 → ∀ s, viewed W s →
  (settling V0 s ∨ settling V1 s) ∧ (b = true → ∀ e, replaced b V0 V1 U (Err e) s).
Proof.
  intros HW s Hs. assert (settling V0 s ∨ settling V1 s) by (destruct HW; [left|right]; by exists W).
  split; [done|]. intros. by constructor.
Qed.

(** The replacement could not be moved in: the previous model comes back, or the
    marker stays for reconciliation. *)
Lemma rollback_wp old new U fs :
  let V0 := mk_View (Some old) (Some new) false None None in
  let V1 := mk_View (Some new) None false None (Some old) in
  new ≠ Dir [] →
  viewed (mk_View None (Some new) true (Some old) None) fs ∨ viewed (mk_View (Some new) None true (Some old) None) fs →
  wp true (prog_bind (durable_rename (repair_backup key) (model_dir key)) (λ r,
            match r with
            | Err _ => Ret (Err (EInvalid "repair promotion was interrupted and requires reconciliation"))
            | Ok _ => abandon_repair key (EInvalid "replacement promotion failed; the previous model was restored")
            end)) (λ s, settling V0 s ∨ settling V1 s) (replaced true V0 V1 U) fs.
Proof.
  intros V0 V1 Hnew HV. pose proof (replaced_view true V0 V1 U) as HC. apply wp_bind. destruct HV as [HV|HV].
  - eapply (wp_restored true _ old); [exact HV|done|done|reflexivity|..]; cbn [final staged backup kept marked].
    { intros s [Hs|Hs]; (split; [eapply HC; [|exact Hs]; by auto|intros _ e; eapply HC; [|exact Hs|]; by auto]). }
    intros s Hs _. eapply abandon_wp; [exact Hs|done|]. cbn [final staged backup kept marked].
    intros x [Hx|[_ Hx] ]; (split; [eapply HC; [|exact Hx]; by auto|intros e; eapply HC; [|exact Hx|]; by auto]).
  - pose proof HV as [[] Hf _ _ Hb _ (Ht & _ & Ht')]; simpl in Hf, Hb.
    destruct (Ht new eq_refl) as [cs ->], (Ht' old eq_refl) as [cs' ->].
    eapply (durable_rename_blocked true); [done|exact Hb|exact Hf|by destruct cs| | |].
    + by rewrite lay_transactions0.
    + by rewrite lay_models0.
    + intros s Hs. pose proof (viewed_quiet _ _ _ Hs HV) as Hvs.
      split; [eapply HC; [|exact Hvs]; by auto|intros e; eapply HC; [|exact Hvs|]; by auto].
Qed.

Lemma replace_wp b old new U fs :
  let V0 := mk_View (Some old) (Some new) false None None in
  let V1 := mk_View (Some new) None false None (Some old) in
  room → viewed (mk_View (Some old) (Some new) true None None) fs → new ≠ Dir [] → unsynced fs ⊆ U →
  wp b (replace_model key pid fuel (staging_dir key)) (λ s, settling V0 s ∨ settling V1 s) (replaced b V0 V1 U) fs.
Proof.
  intros V0 V1 Hroom HV Hnew HU. pose proof (replaced_view b V0 V1 U) as HC. apply wp_bind.
  eapply (wp_displace b _ old); [exact HV|done|done|exact HU|..]; cbn [final staged backup kept marked].
  { intros s Hs. split; [destruct Hs as [Hs|Hs]; (eapply HC; [|exact Hs]; by auto)|]. intros Hb e.
    destruct Hs as [Hs|Hs]; (eapply abandon_wp; [exact Hs|done|]); cbn [final staged backup kept marked];
      (intros x [Hx|[Hf Hx] ]; (try by destruct Hf);
       (split; [eapply HC; [|exact Hx]; by auto|intros e'; eapply HC; [|exact Hx|]; by auto])). }
  intros s Hs Hu. apply wp_bind.
  eapply (wp_promoted b _ new); [exact Hs|done|done|exact Hu|..]; cbn [final staged backup kept marked].
  { intros x Hx. split; [destruct Hx as [Hx|Hx]; (eapply HC; [|exact Hx]; by auto)|].
    intros -> e. by apply rollback_wp. }
  intros s1 Hs1 Hu1. eapply wp_mono; [eapply (conclude_wp b _ V1 U); [done|exact Hs1|done|done|done|done|done]|by right|].
  intros r x []; [by constructor|constructor; by auto].
Qed.

Lemma settles_create_top b d fs : tops fs !! d = Some KDir → settles b (call (CreateDirAll [d])) fs tt.
Proof.
  intros Hd. apply settles_lift. intros C Q HC HE HQ. cbn [wp io]. unfold perform. rewrite Hd.
  split_and!; [by apply HC|by apply HQ|]. intros Hb dist. by apply HE.
Qed.

(** The marker is made durable. *)
Lemma wp_mark {B} b V (k : prog (result Error B)) C Q U fs :
  let W := mk_View (final V) (staged V) true (backup V) (kept V) in
  viewed V fs → marked V = false → unsynced fs ⊆ U →
  (∀ s, viewed V s ∨ viewed W s → C s ∧ (b = true → ∀ e, Q (Err e) s)) →
  (∀ s, viewed W s → unsynced s ⊆ U → wp b k C Q s) →
  wp b (do? _ := call (CreateNew (repair_marker key)) in
        do? _ := call (SyncFile (repair_marker key)) in
        do? _ := call (SyncDir ["transactions"]) in k) C Q fs.
Proof.
  intros W HV Hm HU HC Hk. apply wp_try, wp_lift. cbn [wp io].
  assert (perform (CreateNew (repair_marker key)) fs = (Ok tt, set_entry "transactions" (key +:+ ".repair") (File "") fs)) as ->.
  { unfold perform, create. rewrite (viewed_marker V) by done. rewrite Hm.
    simpl. by rewrite (lay_transactions _ (vw_layout _ _ HV)). }
  split_and!; [apply HC; by left| |by intros Hb dist; apply HC; [left|] ]. cbn [fst snd map_err].
  pose proof (view_mark V fs HV) as HW. fold W in HW.
  eapply wp_settles; [|by intros s Hs; apply HC; right; eapply viewed_quiet|by intros Hb e s Hs; apply HC; [right; eapply viewed_quiet|]|].
  { apply settles_lift, settles_look; [done|]. unfold perform. by rewrite (viewed_marker W _ HW). }
  intros s [Hs Hu]. assert (viewed W s) as HWs by by eapply viewed_quiet.
  apply wp_try, wp_lift. eapply wp_sync; [simpl; apply HWs|apply HC; by right| |by intros Hb; apply HC; [right|] ].
  apply Hk; [by eapply viewed_quiet; [apply calm_flush|]|]. simpl in *. set_solver.
Qed.

(** Promotion over an installed model, from a clean state: every fault and every crash
    leaves a state that settles as the old model with the staged tree still there, or
    as the new model with the old one in quarantine; [Ok] is the latter. *)
Lemma promote_wp b old new U fs :
  let V0 := mk_View (Some old) (Some new) false None None in
  let V1 := mk_View (Some new) None false None (Some old) in
  room → viewed V0 fs → plain new = true → new ≠ Dir [] → (height new ≤ fuel)%nat → unsynced fs ⊆ U →
  wp b (promote key pid fuel (staging_dir key)) (λ s, settling V0 s ∨ settling V1 s) (replaced b V0 V1 U) fs.
Proof.
  intros V0 V1 Hroom HV Hplain Hnew Hheight HU.
  assert (∀ s, viewed V0 s → (settling V0 s ∨ settling V1 s) ∧ (b = true → ∀ e, replaced b V0 V1 U (Err e) s)) as HC.
  { apply replaced_view. by left. }
  assert (is_tree old ∧ is_tree new) as [[old' ->] [new' ->] ].
  { destruct (vw_trees _ _ HV) as (H1 & H2 & _). auto. }
  apply wp_try. eapply wp_mono; [eapply (reconcile_wp b V0 V0 U); [done|done|done|done]|by left|].
  intros r s Hr. destruct Hr as [s Hs Hu|e s Hb Hs]; [|constructor; by auto]. clear fs HV HU.
  eapply wp_viewed; [by eapply settles_staged_tree|exact HC|done|done|]. intros s1 _ Hs1 Hu1.
  eapply wp_viewed; [apply settles_metadata_if_exists|exact HC|done|done|]. intros s2 _ Hs2 Hu2.
  rewrite (viewed_final V0) by done. cbn [V0 final fmap option_fmap option_map].
  eapply wp_viewed; [by eapply settles_own_path|exact HC|done|done|]. intros s3 _ Hs3 Hu3.
  eapply wp_viewed; [by apply settles_create_top, Hs3|exact HC|done|done|]. intros s4 _ Hs4 Hu4.
  eapply wp_viewed; [by apply settles_contained; [apply Hs4|eapply linked_top; [apply Hs4|] ]|exact HC|done|done|].
  intros s5 _ Hs5 Hu5. eapply wp_viewed; [by eapply settles_lift, settles_sync|exact HC|done|done|]. intros s6 _ Hs6 Hu6.
  eapply wp_viewed; [apply settles_metadata_if_exists|exact HC|done|done|]. intros s7 _ Hs7 Hu7.
  rewrite (viewed_backup V0) by done. cbn [V0 backup fmap option_fmap option_map].
  eapply wp_viewed with (a := true); [|exact HC|done|done|].
  { eapply settles_try; [apply settles_metadata_if_exists|]. rewrite (viewed_marker V0) by done. intros ? _. apply settles_ret. }
  intros s8 _ Hs8 Hu8. cbn [negb]. eapply (wp_mark b V0); [done|done|exact Hu8|..]; cbn [V0 final staged backup kept marked].
  - intros x [Hx|Hx]; [by apply HC|]. eapply (replaced_view b V0 V1 U); [|exact Hx]; by right.
  - intros x Hx Hux. by apply replace_wp.
Qed.

(** Promotion where nothing is installed. *)
Lemma promote_fresh_wp b new U fs :
  let V0 := mk_View None (Some new) false None None in
  let V1 := mk_View (Some new) None false None None in
  room → viewed V0 fs → plain new = true → (height new ≤ fuel)%nat → unsynced fs ⊆ U →
  wp b (promote key pid fuel (staging_dir key)) (λ s, settling V0 s ∨ settling V1 s) (replaced b V0 V1 U) fs.
Proof.
  intros V0 V1 Hroom HV Hplain Hheight HU. pose proof (replaced_view b V0 V1 U) as HR.
  assert (∀ s, viewed V0 s → (settling V0 s ∨ settling V1 s) ∧ (b = true → ∀ e, replaced b V0 V1 U (Err e) s)) as HC.
  { apply replaced_view. by left. }
  assert (is_tree new) as [new' ->] by (destruct (vw_trees _ _ HV) as (_ & H2 & _); auto).
  apply wp_try. eapply wp_mono; [eapply (reconcile_wp b V0 V0 U); [done|done|done|done]|by left|].
  intros r s Hr. destruct Hr as [s Hs Hu|e s Hb Hs]; [|constructor; by auto]. clear fs HV HU.
  eapply wp_viewed; [by eapply settles_staged_tree|exact HC|done|done|]. intros s1 _ Hs1 Hu1.
  eapply wp_viewed; [apply settles_metadata_if_exists|exact HC|done|done|]. intros s2 _ Hs2 Hu2.
  rewrite (viewed_final V0) by done. cbn [V0 final fmap option_fmap option_map]. apply wp_lift.
  eapply (wp_promoted b V0); [exact Hs2|done|done|exact Hu2|..]; cbn [V0 final staged backup kept marked].
  - intros x [Hx|Hx]; (split; [eapply HR; [|exact Hx]; by auto|intros Hb e; eapply HR; [|exact Hx|]; by auto]).
  - intros x Hx Hux. by constructor.
Qed.

(** ** Repeated recovery *)

(** Reconciliation attempted again and again, each attempt cut short anywhere. *)
Fixpoint recover (attempts : list (list Fate)) (fs : Fs) : Fs :=
  match attempts with
  | [] => fs
  | fates :: attempts => recover attempts (run fates (reconcile_repair key pid fuel) fs).2
  end.

Lemma resolve_idem V V' : resolve V = Some V' → resolve V' = Some V'.
Proof.
  unfold resolve. destruct V as [[old|] [new|] [] [prev|] [k|] ]; simpl; intros; by simplify_eq.
Qed.

Lemma resolve_unmarked V V' : resolve V = Some V' → marked V' = false.
Proof.
  unfold resolve. destruct V as [[old|] [new|] [] [prev|] [k|] ]; simpl; intros; by simplify_eq.
Qed.

Lemma settling_run V' fates fs :
  room → settling V' fs →
  match run fates (reconcile_repair key pid fuel) fs with
  | (Diverged, _) => False
  | (_, fs') => settling V' fs'
  end.
Proof.
  intros Hroom (V & HV & Hres). pose proof (wp_run _ _ _ _ fates (reconcile_wp true V V' (unsynced fs) fs Hroom HV Hres (reflexivity _))) as H.
  destruct (run fates _ fs) as [[r| |] fs']; [|done|done]. inversion H; subst; [|done].
  exists V'. split; [done|]. by eapply resolve_idem.
Qed.

Lemma settling_recover V' attempts fs : room → settling V' fs → settling V' (recover attempts fs).
Proof.
  intros Hroom. revert fs. induction attempts as [|fates attempts IH]; intros fs Hfs; [done|].
  cbn [recover]. apply IH. pose proof (settling_run V' fates fs Hroom Hfs) as H.
  by destruct (run fates _ fs) as [[r| |] fs'].
Qed.

Lemma settling_exec V' fs :
  room → settling V' fs → ∃ fs', exec (reconcile_repair key pid fuel) fs = (Finished (Ok tt), fs') ∧
                                 viewed V' fs' ∧ unsynced fs' ⊆ unsynced fs.
Proof.
  intros Hroom (V & HV & Hres).
  destruct (wp_exec _ _ _ _ _ (reconcile_wp false V V' (unsynced fs) fs Hroom HV Hres (reflexivity _))) as (r & fs' & He & Hs).
  inversion Hs; subst; [|done]. by exists fs'.
Qed.

(** A run of a promotion under any faults, recovered any number of times, and then once
    without disturbance. *)
Lemma replaced_run (p : prog (result Error unit)) V0 V1 fates attempts fs :
  room → wp true p (λ s, settling V0 s ∨ settling V1 s) (replaced true V0 V1 (unsynced fs)) fs →
  resolve V1 = Some V1 →
  ∃ o fs1 fs2,
    run fates p fs = (o, fs1) ∧ o ≠ Diverged ∧
    (o = Finished (Ok tt) → viewed V1 fs1 ∧ unsynced fs1 ⊆ unsynced fs) ∧
    exec (reconcile_repair key pid fuel) (recover attempts fs1) = (Finished (Ok tt), fs2) ∧
    (viewed V0 fs2 ∨ viewed V1 fs2).
Proof.
  intros Hroom Hwp HV1. pose proof (wp_run _ _ _ _ fates Hwp) as H.
  destruct (run fates p fs) as [o fs1]. exists o, fs1.
  assert (settling V0 fs1 ∨ settling V1 fs1) as Hset.
  { destruct o as [r| |]; [|done|done]. inversion H; subst; [|done]. right. by exists V1. }
  assert (∃ fs2, exec (reconcile_repair key pid fuel) (recover attempts fs1) = (Finished (Ok tt), fs2) ∧
                 (viewed V0 fs2 ∨ viewed V1 fs2)) as (fs2 & He & Hv).
  { destruct Hset as [Hs|Hs]; apply (settling_recover _ attempts) in Hs; [|done| |done];
      apply settling_exec in Hs as (fs2 & He & Hv & _); eauto. }
  exists fs2. split_and!; [done|by destruct o| |done|done].
  intros ->. by inversion H; subst.
Qed.

(** What the undisturbed promotion does. *)
Lemma replaced_exec (p : prog (result Error unit)) V0 V1 C fs :
  wp false p C (replaced false V0 V1 (unsynced fs)) fs →
  ∃ fs', exec p fs = (Finished (Ok tt), fs') ∧ viewed V1 fs' ∧ unsynced fs' ⊆ unsynced fs.
Proof. intros H. destruct (wp_exec _ _ _ _ _ H) as (r & fs' & He & Hs). inversion Hs; subst; [|done]. by exists fs'. Qed.

End views.

(** * Deletion

    The tombstone is one of the other entries: [with_tomb t E] is [E] with [t] there. *)

Section deletion.
Context (key : string) (pid : N) (fuel : nat).

Definition tomb : string * string := ("transactions", key +:+ ".deleted").
Definition with_tomb (t : option Node) (E : gmap (string * string) Node) : gmap (string * string) Node :=
  partial_alter (λ _, t) tomb E.
Definition removed (V : View) : View := mk_View None (staged V) (marked V) (backup V) (kept V).

Lemma tomb_other : tomb ∉ own_paths key.
Proof.
  unfold own_paths, tomb; simpl. rewrite !elem_of_cons, elem_of_nil.
  intros [[=]|[[=]|[[= H%str_app_inj_l]|[[= H%str_app_inj_l]|[] ] ] ] ]; done.
Qed.

Lemma with_tomb_room t E : room fuel E → room fuel (with_tomb t E).
Proof.
  intros [Hf (used & Hu & Hs)]. split; [done|]. exists used. split; [|done]. intros n.
  unfold with_tomb. rewrite lookup_partial_alter_ne by done. apply Hu.
Qed.

Lemma with_tomb_twice t u E : with_tomb t (with_tomb u E) = with_tomb t E.
Proof. unfold with_tomb. by rewrite partial_alter_partial_alter_eq. Qed.

Lemma with_tomb_same E : with_tomb (E !! tomb) E = E.
Proof. apply partial_alter_self. Qed.

Lemma viewed_tomb_at E V fs : viewed key E V fs → entries fs !! tomb = E !! tomb.
Proof.
  intros HV. pose proof (vw_rest _ _ _ _ HV) as Hr. destruct (kept V) as [old|].
  - destruct Hr as (n & Hn & Hr). rewrite Hr by apply tomb_other. by rewrite lookup_insert_ne.
  - apply Hr, tomb_other.
Qed.

(** Changing the tombstone and the transaction's own entries. *)
Lemma viewed_with_tomb E V V' t fs fs' :
  viewed key E V fs → tops fs' = tops fs → sequence fs' = sequence fs → kept V' = kept V →
  entries fs' !! pair_of (model_dir key) = final V' →
  entries fs' !! pair_of (staging_dir key) = staged V' →
  entries fs' !! pair_of (repair_marker key) = (if marked V' then Some (File "") else None) →
  entries fs' !! pair_of (repair_backup key) = backup V' →
  entries fs' !! tomb = t →
  (∀ p, p ∉ own_paths key → p ≠ tomb → entries fs' !! p = entries fs !! p) → trees V' →
  viewed key (with_tomb t E) V' fs'.
Proof.
  intros HV Ht Hs Hk H1 H2 H3 H4 Htomb Hp HV'. destruct HV. split; try done.
  - destruct vw_layout0. by split; rewrite ?Ht, ?Hs.
  - rewrite Hk. unfold with_tomb. destruct (kept V) as [old|].
    + destruct vw_rest0 as (n & Hn & Hr). exists n. split; [by rewrite lookup_partial_alter_ne|]. intros p Hne.
      destruct (decide (p = tomb)) as [->|Hpt].
      * rewrite Htomb, lookup_insert_ne by done. by rewrite lookup_partial_alter_eq.
      * rewrite Hp, Hr by done. destruct (decide (p = ("quarantine", n))) as [->|].
        -- by rewrite !lookup_insert_eq.
        -- by rewrite !lookup_insert_ne, lookup_partial_alter_ne by done.
    + intros p Hne. destruct (decide (p = tomb)) as [->|Hpt]; [by rewrite lookup_partial_alter_eq|].
      rewrite lookup_partial_alter_ne by done. by rewrite Hp, vw_rest0.
Qed.

Ltac apart :=
  first
    [ by intros [=]
    | by intros [= ?%str_app_inj_l]
    | by intros <-
    | eapply own_ne; [eassumption|]; unfold own_paths; simpl; rewrite !elem_of_cons; tauto ].
Ltac look :=
  repeat first
    [ rewrite lookup_insert_eq | rewrite lookup_delete_eq
    | rewrite lookup_insert_ne by apart | rewrite lookup_delete_ne by apart ].

Lemma view_bury E V fs v :
  viewed key E V fs → final V = Some v → viewed key (with_tomb (Some v) E) (removed V)
    (moved "models" key "transactions" (key +:+ ".deleted") v fs).
Proof.
  intros H Hf. pose proof H as []. destruct vw_trees0 as (T1 & T2 & T3).
  eapply viewed_with_tomb; [exact H|done|done|done|..]; simpl in *; try (intros p Hp Ht); unfold tomb in *; look; try done.
Qed.

Lemma view_tomb_set E V fs cs :
  viewed key E V fs → viewed key (with_tomb (Some (Dir cs)) E) V (set_entry "transactions" (key +:+ ".deleted") (Dir cs) fs).
Proof.
  intros H. pose proof H as [].
  eapply viewed_with_tomb; [exact H|done|done|done|..]; simpl in *; try (intros p Hp Ht); unfold tomb in *; look; try done.
Qed.

Lemma view_tomb_drop E V fs :
  viewed key E V fs → viewed key (with_tomb None E) V (drop_entry "transactions" (key +:+ ".deleted") fs).
Proof.
  intros H. pose proof H as [].
  eapply viewed_with_tomb; [exact H|done|done|done|..]; simpl in *; try (intros p Hp Ht); unfold tomb in *; look; try done.
Qed.

Definition tomb_ok (t : option Node) : Prop := t = None ∨ ∃ cs, t = Some (Dir cs).

Lemma viewed_tomb E V fs : viewed key E V fs → metadata (deletion_tombstone key) fs = kind <$> E !! tomb.
Proof. intros HV. rewrite <-(viewed_tomb_at E V fs HV). simpl. by destruct (entries fs !! _). Qed.

Lemma remove_tombstone_wp b E V C (Q : result Error unit → Fs → Prop) U fs :
  viewed key E V fs → tomb_ok (E !! tomb) → unsynced fs ⊆ U →
  (∀ t s, tomb_ok t → viewed key (with_tomb t E) V s → C s ∧ (b = true → ∀ e, Q (Err e) s)) →
  (∀ s, viewed key (with_tomb None E) V s → unsynced s ⊆ U → Q (Ok tt) s) →
  wp b (remove_deletion_tombstone (deletion_tombstone key)) C Q fs.
Proof.
  intros HV Ht HU HC HQ.
  assert (C fs ∧ (b = true → ∀ e, Q (Err e) fs)) as [HCf HEf]
    by (apply (HC (E !! tomb)); [done|by rewrite with_tomb_same]).
  apply wp_bind, wp_look; [done|done| |by intros Hb; apply HEf].
  unfold perform. rewrite (viewed_tomb E V fs HV). pose proof (viewed_tomb_at E V fs HV) as Hat.
  destruct Ht as [Ht|[cs Ht] ]; rewrite Ht in *; cbn [fmap option_fmap option_map ok_or fst kind].
  { apply HQ; [|done]. rewrite <-Ht. by rewrite with_tomb_same. }
  change (is_reparse KDir || negb (is_dir KDir)) with false. cbv iota.
  apply wp_try, wp_lift. cbn [wp io].
  assert (perform (RemoveDirAll (deletion_tombstone key)) fs = (Ok tt, drop_entry "transactions" (key +:+ ".deleted") fs)) as ->.
  { unfold perform, deletion_tombstone. unfold tomb in Hat. by rewrite Hat. }
  pose proof (view_tomb_drop E V fs HV) as Hdrop. split_and!; [done| |].
  - cbn [fst snd map_err]. apply wp_lift. eapply wp_sync; [simpl; apply Hdrop|by eapply HC; [left|exact Hdrop]| |].
    + apply HQ; [by eapply viewed_quiet; [apply calm_flush|]|]. simpl. set_solver.
    + intros Hb. eapply HC; [by left|exact Hdrop|done].
  - intros Hb dist. cbn [react fst snd map_err]. eapply HC; [right; by exists (rest dist)| |done].
    unfold deletion_tombstone. unfold tomb in Hat. rewrite Hat. by apply view_tomb_set.
Qed.

(** While an identity is being deleted it is wholly installed or gone. *)
Definition deleting (E : gmap (string * string) Node) (V : View) (fs : Fs) : Prop :=
  ∃ t, tomb_ok t ∧ (settling key (with_tomb t E) V fs ∨ settling key (with_tomb t E) (removed V) fs).

Inductive deleted (b : bool) (E : gmap (string * string) Node) (V : View) (U : gset Path) (found : bool) : result Error bool → Fs → Prop :=
| deleted_ok fs : viewed key (with_tomb None E) (removed V) fs → unsynced fs ⊆ U → deleted b E V U found (Ok found) fs
| deleted_err e fs : b = true → deleting E V fs → deleted b E V U found (Err e) fs.

Lemma deleting_view b E V U found t W :
  tomb_ok t → resolve W = Some V ∨ resolve W = Some (removed V) → ∀ s, viewed key (with_tomb t E) W s →
  deleting E V s ∧ (b = true → ∀ e, deleted b E V U found (Err e) s).
Proof.
  intros Ht HW s Hs. assert (deleting E V s).
  { exists t. split; [done|]. destruct HW; [left|right]; by exists W. }
  split; [done|]. intros. by constructor.
Qed.

Context (matches : prog (result Error bool)).

(** What reading the installed model answers. *)
Definition answers (old : Node) (r : result Error bool) : Prop :=
  ∀ s, entries s !! ("models", key) = Some old → tops s !! "models" = Some KDir → observes matches r s.

(** The checks on an installed target up to its identity. *)
Lemma delete_checks_wp b E V cs pending C Q U fs :
  viewed key E V fs → final V = Some (Dir cs) → unsynced fs ⊆ U →
  (∀ s, viewed key E V s → C s ∧ (b = true → ∀ e, Q (Err e) s)) →
  (∀ s, viewed key E V s → unsynced s ⊆ U → wp b (delete_stored key matches) C Q s) →
  wp b (delete_target key matches pending) C Q fs.
Proof.
  intros HV Hf HU HC Hk. apply wp_bind, wp_look; [done|by apply HC| |by intros Hb; apply HC]. unfold perform.
  rewrite (viewed_final _ _ V fs HV), Hf. cbn [fmap option_fmap option_map ok_or fst kind].
  change (is_reparse KDir || negb (is_dir KDir)) with false. cbv iota.
  eapply (wp_viewed _ _ b); [apply settles_create_top, HV|exact HC|done|done|]. intros s1 _ Hs1 Hu1.
  assert (∀ s, viewed key E V s → (perform (Canonicalize ["models"]) s).1 = Ok (Some ["models"])) as Hcan.
  { intros s Hs. unfold perform, linked. simpl. by rewrite (lay_models _ (vw_layout _ _ _ _ Hs)). }
  eapply (wp_viewed _ _ b); [by apply settles_lift, settles_look; [|apply Hcan]|exact HC|done|done|]. intros s2 _ Hs2 Hu2.
  eapply (wp_viewed _ _ b); [by apply settles_lift, settles_look; [|apply Hcan]|exact HC|done|done|]. intros s3 _ Hs3 Hu3.
  rewrite bool_decide_eq_false_2 by (intros H; by apply H). by apply Hk.
Qed.

(** The identity matches: the model goes to the tombstone and is removed. *)
Lemma delete_stored_wp b E V cs found U fs :
  viewed key (with_tomb None E) V fs → final V = Some (Dir cs) → marked V = false → answers (Dir cs) (Ok true) →
  unsynced fs ⊆ U → found = true →
  wp b (delete_stored key matches) (deleting E V) (deleted b E V U found) fs.
Proof.
  intros HV Hf Hm Hmatch HU ->. pose proof (deleting_view b E V U true) as HD.
  assert (resolve V = Some V) as Hres by (unfold resolve; by rewrite Hm).
  assert (resolve (removed V) = Some (removed V)) as Hres' by (unfold resolve; simpl; by rewrite Hm).
    pose proof (vw_final _ _ _ _ HV) as Hfin. rewrite Hf in Hfin. pose proof (viewed_tomb_at _ _ _ HV) as Htomb.
  unfold with_tomb in Htomb. rewrite lookup_partial_alter_eq in Htomb.
  pose proof (view_bury _ _ _ _ HV Hf) as Hbury. rewrite with_tomb_twice in Hbury.
  assert (∀ t s, tomb_ok t → viewed key (with_tomb t E) (removed V) s →
    deleting E V s ∧ (b = true → ∀ e, deleted b E V U true (Err e) s)) as HC'.
  { intros t s Ht' Hs. by eapply HD; [exact Ht'|right|]. }
  assert (tomb_ok None) as Hnone by by left.
  assert (deleting E V fs) as Hnow by by eapply HD; [|left|exact HV].
  cut (wp b (do? _ := lift (durable_rename (model_dir key) (deletion_tombstone key)) in
             do? _ := remove_deletion_tombstone (deletion_tombstone key) in Ret (Ok true)) (deleting E V) (deleted b E V U true) fs).
  { intros Hgo. apply wp_try, (Hmatch fs); [done|apply HV|done|exact Hgo|].
    intros -> [[]|e]; [exact Hgo|constructor; done|constructor; done]. }
  apply wp_try, wp_lift. apply (durable_rename_wp b _ _ _ _ (Dir cs)); [done|exact Hfin|exact Htomb|by rewrite (lay_models _ (vw_layout _ _ _ _ HV))|
    by rewrite (lay_transactions _ (vw_layout _ _ _ _ HV))| |].
  { intros s [Hs|Hs].
    - assert (viewed key (with_tomb None E) V s) as Hvs by by eapply viewed_quiet.
      assert (tomb_ok None) by by left. split; [by eapply HD; [|left|exact Hvs]|intros Hb e; by eapply HD; [|left|exact Hvs|] ].
    - assert (viewed key (with_tomb (Some (Dir cs)) E) (removed V) s) as Hvs by by eapply viewed_quiet.
      assert (tomb_ok (Some (Dir cs))) by (right; by eauto).
      split; [by eapply HC'|intros Hb e; by eapply HC']. }
  intros s Hs Hus. assert (viewed key (with_tomb (Some (Dir cs)) E) (removed V) s) as Hvs by by eapply viewed_quiet.
  cbn [map_err]. apply wp_try. eapply (remove_tombstone_wp b _ _ _ _ U); [exact Hvs| |set_solver|..].
  - unfold with_tomb. rewrite lookup_partial_alter_eq. right. by eauto.
  - intros t x Ht' Hx. rewrite with_tomb_twice in Hx. by eapply HC'.
  - intros x Hx Hux. rewrite with_tomb_twice in Hx. by constructor.
Qed.

Lemma delete_target_wp b E V pending U fs :
  let found := pending || bool_decide (is_Some (final V)) in
  viewed key (with_tomb None E) V fs → marked V = false → (∀ old, final V = Some old → answers old (Ok true)) →
  unsynced fs ⊆ U →
  wp b (delete_target key matches pending) (deleting E V) (deleted b E V U found) fs.
Proof.
  intros found HV Hm Hmatch HU.
  assert (resolve V = Some V) as Hres by (unfold resolve; by rewrite Hm).
  assert (∀ s, viewed key (with_tomb None E) V s → deleting E V s ∧ (b = true → ∀ e, deleted b E V U found (Err e) s)) as HC.
  { apply deleting_view; [by left|by left]. }
  destruct (final V) as [old|] eqn:Hf.
  - destruct (vw_trees _ _ _ _ HV) as [Ht _]. destruct (Ht old Hf) as [cs ->].
    eapply (delete_checks_wp b _ V cs); [done|done|done|exact HC|]. intros s Hs Hu.
    apply (delete_stored_wp b E V cs); [done|done|done|by apply Hmatch|done|]. unfold found.
    by rewrite bool_decide_eq_true_2, orb_true_r by done.
  - apply wp_bind, wp_look; [done|by apply HC| |by intros Hb; apply HC]. unfold perform.
    rewrite (viewed_final _ _ V fs HV), Hf. cbn [fmap option_fmap option_map ok_or fst].
    unfold found. rewrite bool_decide_eq_false_2, orb_false_r by by intros [].
    constructor; [|done]. unfold removed. destruct V; simpl in *; by subst.
Qed.

(** Reconciliation, and the end of a deletion that was interrupted. *)
Lemma delete_prefix_wp b E V V' C Q U fs :
  let pending := bool_decide (is_Some (E !! tomb)) in
  room fuel E → viewed key E V fs → resolve V = Some V' → tomb_ok (E !! tomb) → unsynced fs ⊆ U →
  (∀ t s, tomb_ok t → settling key (with_tomb t E) V' s → C s ∧ (b = true → ∀ e, Q (Err e) s)) →
  (∀ s, viewed key (with_tomb None E) V' s → unsynced s ⊆ U → wp b (delete_target key matches pending) C Q s) →
  wp b (delete_locked key pid fuel matches) C Q fs.
Proof.
  intros pending Hroom HV Hres Ht HU HS Hk.
  assert (resolve V' = Some V') as Hres' by by eapply resolve_idem.
  assert (∀ s, settling key E V' s → C s ∧ (b = true → ∀ e, Q (Err e) s)) as HS0.
  { intros s Hs. apply (HS (E !! tomb)); [done|]. by rewrite with_tomb_same. }
  assert (∀ s, viewed key E V' s → C s ∧ (b = true → ∀ e, Q (Err e) s)) as HC.
  { intros s Hs. apply HS0. by exists V'. }
  apply wp_try. eapply wp_mono; [by eapply (reconcile_wp key pid fuel E b V V' U)|intros; by apply HS0|].
  intros r s Hr. destruct Hr as [s Hs Hu|e s Hb Hs]; [|by apply HS0].
  eapply (wp_viewed _ _ b); [by apply settles_create_top, Hs|exact HC|done|done|]. intros s1 _ Hs1 Hu1.
  eapply (wp_viewed _ _ b); [by apply settles_contained; [apply Hs1|eapply linked_top; [apply Hs1|] ]|exact HC|done|done|].
  intros s2 _ Hs2 Hu2.
  eapply (wp_viewed _ _ b); [by eapply settles_lift, settles_sync, (vw_layout _ _ _ _ Hs2)|exact HC|done|done|]. intros s3 _ Hs3 Hu3.
  eapply (wp_viewed _ _ b); [by eapply settles_lift, settles_sync|exact HC|done|done|]. intros s4 _ Hs4 Hu4.
  eapply (wp_viewed _ _ b); [apply settles_metadata_if_exists|exact HC|done|done|]. intros s5 _ Hs5 Hu5.
  rewrite (viewed_tomb E V' s4 Hs4). cbv zeta.
  assert (bool_decide (kind <$> E !! tomb ≠ None) = pending) as ->.
  { unfold pending. apply bool_decide_ext. destruct (E !! tomb); simpl; split; (done || by intros []). }
  apply wp_try. destruct pending eqn:Hp.
  - eapply (remove_tombstone_wp b E V' _ _ U); [done|done|done| |exact Hk].
    intros t x Ht' Hx. apply (HS t); [done|]. by exists V'.
  - apply Hk; [|done]. destruct (E !! tomb) eqn:Et; [by apply bool_decide_eq_false_1 in Hp; destruct Hp|].
    rewrite <-Et. by rewrite with_tomb_same.
Qed.

Lemma delete_wp b E V V' U fs :
  let found := bool_decide (is_Some (E !! tomb)) || bool_decide (is_Some (final V')) in
  room fuel E → viewed key E V fs → resolve V = Some V' → tomb_ok (E !! tomb) →
  (∀ old, final V' = Some old → answers old (Ok true)) → unsynced fs ⊆ U →
  wp b (delete_locked key pid fuel matches) (deleting E V') (deleted b E V' U found) fs.
Proof.
  intros found Hroom HV Hres Ht Hmatch HU. eapply delete_prefix_wp; [done|done|exact Hres|done|done|..].
  - intros t s Ht' Hs. assert (deleting E V' s) by (exists t; by auto). split; [done|]. intros. by constructor.
  - intros s Hs Hu. apply delete_target_wp; [done| |done|done]. by eapply resolve_unmarked.
Qed.

(** Another identity is stored: nothing is deleted. *)
Lemma delete_refused_wp E V V' cs r fs :
  room fuel E → viewed key E V fs → resolve V = Some V' → tomb_ok (E !! tomb) →
  final V' = Some (Dir cs) → answers (Dir cs) r → r ≠ Ok true →
  wp false (delete_locked key pid fuel matches) (λ _, True)
    (λ r s, (∃ e, r = Err e) ∧ viewed key (with_tomb None E) V' s) fs.
Proof.
  intros Hroom HV Hres Ht Hf Hmatch Hr.
  eapply delete_prefix_wp; [done|done|exact Hres|done|reflexivity|done|]. intros s Hs _.
  eapply (delete_checks_wp false _ V' cs); [done|done|reflexivity|done|]. intros x Hx _.
  pose proof (vw_final _ _ _ _ Hx) as Hfin. rewrite Hf in Hfin.
  apply wp_try, (Hmatch x); [done|apply Hx|done| |done]. destruct r as [[]|e]; [done|by split; [eexists|]..].
Qed.

End deletion.

(** * What transactions guarantee *)

(** C12: recovery is convergent.  From any state of an interrupted repair that
    reconciliation can settle, reconciliation attempted any number of times, each
    attempt stopped or failed at any call, and then once without disturbance returns
    [Ok] and leaves exactly the settled state: the replacement installed and the
    displaced model in quarantine, or the previous model restored; no other entry of
    the cache changes. *)
Theorem recovery_converges key pid fuel E V V' attempts fs :
  room fuel E → viewed key E V fs → resolve V = Some V' →
  ∃ fs', exec (reconcile_repair key pid fuel) (recover key pid fuel attempts fs) = (Finished (Ok tt), fs') ∧
         viewed key E V' fs'.
Proof.
  intros Hroom HV Hres.
  assert (settling key E V' (recover key pid fuel attempts fs)) as Hs by (apply settling_recover; [done|by exists V]).
  apply (settling_exec key pid fuel) in Hs as (fs' & He & Hv & _); eauto.
Qed.


(** Installing where nothing was: the staged tree is moved in as a whole or stays
    staged, under every fault and crash, and [Ok] means it is installed and flushed. *)
Theorem installation_is_atomic key pid fuel E new fates attempts fs :
  room fuel E → viewed key E (mk_View None (Some new) false None None) fs →
  plain new = true → (height new ≤ fuel)%nat →
  (∃ o fs1 fs2,
    run fates (promote key pid fuel (staging_dir key)) fs = (o, fs1) ∧ o ≠ Diverged ∧
    (o = Finished (Ok tt) →
       viewed key E (mk_View (Some new) None false None None) fs1 ∧ unsynced fs1 ⊆ unsynced fs) ∧
    exec (reconcile_repair key pid fuel) (recover key pid fuel attempts fs1) = (Finished (Ok tt), fs2) ∧
    (viewed key E (mk_View None (Some new) false None None) fs2 ∨
     viewed key E (mk_View (Some new) None false None None) fs2)) ∧
  ∃ fs', exec (promote key pid fuel (staging_dir key)) fs = (Finished (Ok tt), fs') ∧
         viewed key E (mk_View (Some new) None false None None) fs' ∧ unsynced fs' ⊆ unsynced fs.
Proof.
  intros Hroom HV Hp Hh. split.
  - apply replaced_run; [done| |done]. by apply promote_fresh_wp.
  - eapply replaced_exec. by apply promote_fresh_wp.
Qed.

Lemma settling_gone key E V fs : settling key E V fs → final V = None → viewed key E V fs.
Proof.
  intros (W & HW & Hres) Hf. enough (W = V) as -> by done. revert Hres Hf. unfold resolve.
  destruct W as [[old|] [new|] [] [prev|] [k|] ]; simpl; intros; simplify_eq/=; done.
Qed.

Lemma delete_exec key pid fuel matches E V V' fs :
  room fuel E → viewed key E V fs → resolve V = Some V' → tomb_ok (E !! tomb key) →
  (∀ old, final V' = Some old → answers key matches old (Ok true)) →
  ∃ fs2, exec (delete_locked key pid fuel matches) fs =
         (Finished (Ok (bool_decide (is_Some (E !! tomb key)) || bool_decide (is_Some (final V')))), fs2) ∧
         viewed key (with_tomb key None E) (removed V') fs2.
Proof.
  intros Hroom HV Hres Ht Hm.
  destruct (wp_exec _ _ _ _ _ (delete_wp key pid fuel matches false E V V' _ fs Hroom HV Hres Ht Hm (reflexivity _)))
    as (r & fs2 & He & Hd).
  inversion Hd; subst; [by eauto|done].
Qed.

(** C22: deletion is exact, atomic and permanent.  Under every fault and wherever it stops,
    a deletion of an identity whose manifest matches leaves the model wholly installed or
    gone, nothing else of the cache changed; [Ok] says whether there was anything to
    delete and means the model and its tombstone are gone and flushed; no later recovery
    brings it back, and a deletion retried after an interruption completes. *)
Theorem deletion_is_permanent key pid fuel matches E V V' fates attempts fs :
  room fuel E → viewed key E V fs → resolve V = Some V' → tomb_ok (E !! tomb key) →
  (∀ old, final V' = Some old → answers key matches old (Ok true)) →
  ∃ o fs1,
    run fates (delete_locked key pid fuel matches) fs = (o, fs1) ∧ o ≠ Diverged ∧ deleting key E V' fs1 ∧
    (∀ found, o = Finished (Ok found) →
       found = bool_decide (is_Some (E !! tomb key)) || bool_decide (is_Some (final V')) ∧
       unsynced fs1 ⊆ unsynced fs ∧
       viewed key (with_tomb key None E) (removed V') (recover key pid fuel attempts fs1)) ∧
    ∃ found fs2, exec (delete_locked key pid fuel matches) fs1 = (Finished (Ok found), fs2) ∧
                 viewed key (with_tomb key None E) (removed V') fs2.
Proof.
  intros Hroom HV Hres Ht Hmatch.
  pose proof (wp_run _ _ _ _ fates (delete_wp key pid fuel matches true E V V' _ fs Hroom HV Hres Ht Hmatch (reflexivity _))) as H.
  destruct (run fates _ fs) as [o fs1]. exists o, fs1.
  assert (resolve (removed V') = Some (removed V')) as Hrem.
  { unfold resolve. simpl. by rewrite (resolve_unmarked _ _ Hres). }
  assert (deleting key E V' fs1) as (t & Ht' & Hset).
  { destruct o as [r| |]; [|done|done]. inversion H; subst; [|done].
    exists None. split; [by left|]. right. by exists (removed V'). }
  split_and!; [done|by destruct o|by exists t| |].
  - intros found ->. inversion H; subst. split_and!; [done|done|].
    apply settling_gone; [|done]. apply settling_recover; [by apply with_tomb_room|]. by exists (removed V').
  - assert (room fuel (with_tomb key t E)) as Hroom' by by apply with_tomb_room.
    assert (tomb_ok (with_tomb key t E !! tomb key)) as Htt by (unfold with_tomb; by rewrite lookup_partial_alter_eq).
    rewrite <-(with_tomb_twice key None t E).
    destruct Hset as [(W & HW & HresW)|(W & HW & HresW)].
    + destruct (delete_exec key pid fuel matches _ _ _ _ Hroom' HW HresW Htt Hmatch) as (fs2 & He & Hv). by eexists _, fs2.
    + destruct (delete_exec key pid fuel matches _ _ (removed V') _ Hroom' HW HresW Htt) as (fs2 & He & Hv); [done|]. by eexists _, fs2.
Qed.

(** A deletion request whose manifest is not the stored one is refused: it returns an
    error and the stored model stays exactly as it is, as does everything else but a
    tombstone left by an earlier deletion. *)
Lemma delete_refused_exec key pid fuel matches E V V' cs r fs :
  room fuel E → viewed key E V fs → resolve V = Some V' → tomb_ok (E !! tomb key) →
  final V' = Some (Dir cs) → answers key matches (Dir cs) r → r ≠ Ok true →
  ∃ e fs', exec (delete_locked key pid fuel matches) fs = (Finished (Err e), fs') ∧
           viewed key (with_tomb key None E) V' fs'.
Proof.
  intros Hroom HV Hres Ht Hf Hm Hr.
  destruct (wp_exec _ _ _ _ _ (delete_refused_wp key pid fuel matches E V V' cs r fs Hroom HV Hres Ht Hf Hm Hr))
    as (x & fs' & He & [e ->] & Hv). eauto.
Qed.

(** * Concrete runs *)

Definition sample_old : Node := Dir [("manifest.json", File "old")].
Definition sample_new : Node := Dir [("manifest.json", File "new"); ("onnx", Dir [("model.onnx", File "weights")])].
Definition sample_rest : gmap (string * string) Node :=
  {[("models", "other") := sample_old; ("quarantine", "k.7.0.invalid") := sample_old]}.
Definition sample_tops : gmap string Kind :=
  {["models" := KDir; "staging" := KDir; "transactions" := KDir; "quarantine" := KDir]}.
Definition sample_fs (f s : option Node) : Fs :=
  mk_Fs sample_tops
    (partial_alter (λ _, f) ("models", "k") (partial_alter (λ _, s) ("staging", "k.partial") sample_rest)) 0 ∅.

Lemma sample_room : room 3 sample_rest.
Proof.
  split; [done|]. exists {["k.7.0.invalid"]}. split; [|vm_compute; lia]. intros n [v Hv]. unfold sample_rest in Hv.
  apply lookup_insert_Some in Hv as [[[=] _]|[_ Hv] ]. apply lookup_singleton_Some in Hv as [[= <-] _]. set_solver.
Defined.

Lemma sample_viewed f s :
  trees (mk_View f s false None None) → viewed "k" sample_rest (mk_View f s false None None) (sample_fs f s).
Proof.
  intros Ht. split; [by split; [| | |right|]|..]; try done.
  - simpl. by rewrite lookup_partial_alter_eq.
  - simpl. by rewrite lookup_partial_alter_ne, lookup_partial_alter_eq.
  - simpl. by rewrite !lookup_partial_alter_ne.
  - simpl. by rewrite !lookup_partial_alter_ne.
  - simpl. intros p Hp. rewrite !lookup_partial_alter_ne; [done| |].
    + intros <-. apply Hp. right. left.
    + intros <-. apply Hp. left.
Defined.

Lemma recovery_converges_witness :
  let fs := set_entry "transactions" "k.repair" (File "") (sample_fs (Some sample_old) (Some sample_new)) in
  ∃ fs', exec (reconcile_repair "k" 7 3) (recover "k" 7 3 [ [Proceeds; Proceeds; Disturbed (mk_Disturbance [] 0 None)]; [] ] fs) = (Finished (Ok tt), fs') ∧
         viewed "k" sample_rest (mk_View (Some sample_new) None false None (Some sample_old)) fs'.
Proof.
  apply (recovery_converges "k" 7 3 sample_rest (mk_View (Some sample_old) (Some sample_new) true None None)).
  - exact sample_room.
  - apply (view_mark "k" sample_rest (mk_View (Some sample_old) (Some sample_new) false None None)), sample_viewed.
    repeat split; intros ? [= <-]; by eexists.
  - reflexivity.
Defined.


Lemma installation_is_atomic_witness :
  ∃ fs', exec (promote "k" 7 3 (staging_dir "k")) (sample_fs None (Some sample_new)) = (Finished (Ok tt), fs') ∧
         viewed "k" sample_rest (mk_View (Some sample_new) None false None None) fs' ∧ unsynced fs' ⊆ ∅.
Proof.
  apply (installation_is_atomic "k" 7 3 sample_rest sample_new [] []).
  - exact sample_room.
  - apply sample_viewed. repeat split; intros ? [= <-]; by eexists.
  - reflexivity.
  - vm_compute. lia.
Defined.

Lemma deletion_is_permanent_witness :
  ∃ o fs1, run [] (delete_locked "k" 7 3 (Ret (Ok true))) (sample_fs (Some sample_old) None) = (o, fs1) ∧ o ≠ Diverged.
Proof.
  edestruct (deletion_is_permanent "k" 7 3 (Ret (Ok true)) sample_rest (mk_View (Some sample_old) None false None None)
    (mk_View (Some sample_old) None false None None) [] [] (sample_fs (Some sample_old) None)) as (o & fs1 & H1 & H2 & _).
  - exact sample_room.
  - apply sample_viewed. repeat split; intros ? [= <-]; by eexists.
  - reflexivity.
  - by left.
  - intros old _ s _ _ b C Q _ HQ _. exact HQ.
  - by exists o, fs1.
Defined.

End Cache.
