(* ===== verification/Identity.v ===== *)
(** Identities of models ([impossible-models/src/store.rs]): the fingerprints of a
    manifest, the trust root that decides whether its semantics may be relied on, and
    the cache keys.

    SHA-256 and the JSON encoder of the inference contract are parameters. *)

From Stdlib Require Import NArith Lia Ascii.
From stdpp Require Import base strings gmap sorting list.
From S2P Require Import Prelude Std Config Manifest.
Import Manifest.

Local Open Scope string_scope.
Local Open Scope list_scope.

Module Identity.

(** * Canonical order of artifacts *)

(** [left.path.cmp(&right.path).then(sha256).then(size)] *)
Definition artifact_cmp (a b : Artifact) : comparison :=
  match String.compare (path a) (path b) with
  | Eq => match String.compare (sha256 a) (sha256 b) with
          | Eq => N.compare (size a) (size b)
          | c => c
          end
  | c => c
  end.
Definition artifact_le (a b : Artifact) : Prop := artifact_cmp a b ≠ Gt.
#[global] Instance artifact_le_dec : RelDecision artifact_le.
Proof. intros a b. unfold artifact_le. apply _. Defined.

Definition sorted_artifacts (m : Manifest) : list Artifact := merge_sort artifact_le (artifacts m).

(** * The inference contract *)

Record SemanticArtifact := mk_SemanticArtifact { sa_path : string; sa_sha256 : string; sa_size : N }.
Definition SemanticArtifact_from (a : Artifact) : SemanticArtifact :=
  mk_SemanticArtifact (path a) (sha256 a) (size a).

Record SemanticContract := mk_SemanticContract {
  sc_schema_version : N;
  sc_canonical_id : string;
  sc_revision : string;
  sc_tokenizer : TokenizerMetadata;
  sc_pooling : Pooling;
  sc_prefixes : Prefixes;
  sc_dimensions : Dimensions;
  sc_tensors : TensorMetadata;
  sc_runtime : RuntimeMetadata;
  sc_artifacts : list SemanticArtifact;
}.

#[global] Instance SemanticArtifact_eq_dec : EqDecision SemanticArtifact.
Proof. solve_decision. Defined.
#[global] Instance SemanticContract_eq_dec : EqDecision SemanticContract.
Proof. solve_decision. Defined.

Definition contract_of (m : Manifest) : SemanticContract :=
  mk_SemanticContract (schema_version m) (canonical_id m) (revision m) (tokenizer m) (pooling m) (prefixes m)
    (dimensions m) (tensors m) (runtime m) (SemanticArtifact_from <$> sorted_artifacts m).

(** [u64::to_le_bytes] *)
Fixpoint le_bytes (n : nat) (v : N) : string :=
  match n with O => EmptyString | S n => String (byte (v mod 256)) (le_bytes n (v / 256)) end.

Definition nul : string := String (byte 0) EmptyString.

(** What [artifact_fingerprint] feeds to the digest. *)
Definition artifact_record (a : Artifact) : string :=
  nul +:+ path a +:+ nul +:+ sha256 a +:+ nul +:+ le_bytes 8 (size a).
Definition artifact_input (m : Manifest) : string :=
  canonical_id m +:+ nul +:+ revision m +:+
  foldr (λ a rest, artifact_record a +:+ rest) "" (sorted_artifacts m).

(** * Fingerprints and trust *)

Section identity.
Context {U : UrlCrate}.
(** [Sha256::digest] in lower-case hexadecimal and [serde_json::to_vec]. *)
Context (sha256_hex : string → string) (to_vec : SemanticContract → result string string).

Definition artifact_fingerprint (m : Manifest) : string := "sha256:" +:+ sha256_hex (artifact_input m).

Definition semantic_fingerprint (m : Manifest) : result Error string :=
  let? _ := validate m in
  let? encoded := map_err Json (to_vec (contract_of m)) in
  Ok ("sha256:" +:+ sha256_hex encoded).

(** [str::trim_start_matches("sha256:")]: the prefix as often as it occurs. *)
Fixpoint trim_start_matches_fuel (fuel : nat) (p s : string) : string :=
  match fuel with
  | O => s
  | S fuel => match strip_prefix p s with Some r => trim_start_matches_fuel fuel p r | None => s end
  end.
Definition trim_start_matches (p s : string) : string := trim_start_matches_fuel (String.length s) p s.

(** [CacheLayout::key] *)
Definition key (m : Manifest) : result Error string :=
  let? f := semantic_fingerprint m in
  Ok (trim_start_matches "sha256:" f).

Record TrustedSemanticEvidence := mk_TrustedSemanticEvidence {
  manifest_fingerprint : string;
  evidence : string;
}.

(** [SemanticTrustRoot] *)
Definition TrustRoot := gset string.

Fixpoint insert_curated (root : TrustRoot) (l : list Manifest) : result Error TrustRoot :=
  match l with
  | [] => Ok root
  | m :: l =>
    if semantics_verified m
    then let? f := semantic_fingerprint m in insert_curated ({[f]} ∪ root) l
    else insert_curated root l
  end.

(** The embedded catalog is read by [curated_manifests]. *)
Definition curated (curated_manifests : result Error (list Manifest)) : result Error TrustRoot :=
  let? l := curated_manifests in insert_curated ∅ l.

Fixpoint str_drop (n : nat) (s : string) : string :=
  match n, s with
  | O, _ => s
  | S n, String _ s => str_drop n s
  | S _, EmptyString => EmptyString
  end.

Definition malformed (r : TrustedSemanticEvidence) : bool :=
  is_blank (evidence r) || negb (str_len (manifest_fingerprint r) =? 71)%N
  || negb (Prelude.starts_with "sha256:" (manifest_fingerprint r))
  || negb (str_forall (λ c, (is_ascii_digit c || in_range 97 102 c || in_range 65 70 c) && negb (is_ascii_uppercase c))
             (str_drop 7 (manifest_fingerprint r))).

Fixpoint insert_evidence (root : TrustRoot) (l : list TrustedSemanticEvidence) : result Error TrustRoot :=
  match l with
  | [] => Ok root
  | r :: l =>
    ensure negb (malformed r) else EInvalid "semantic trust evidence is malformed" in
    insert_evidence ({[manifest_fingerprint r]} ∪ root) l
  end.
Definition from_evidence (l : list TrustedSemanticEvidence) : result Error TrustRoot := insert_evidence ∅ l.

Definition trusts (root : TrustRoot) (m : Manifest) : result Error bool :=
  if semantics_verified m
  then let? f := semantic_fingerprint m in Ok (bool_decide (f ∈ root))
  else Ok false.

End identity.

(** * The canonical order is a total order on the contract's view of an artifact *)

Definition str_lt (a b : string) : Prop := String.compare a b = Lt.

Lemma str_lt_spec a b : str_lt a b ↔ String.le a b ∧ a ≠ b.
Proof.
  unfold str_lt, String.le, String.leb. split.
  - intros H. rewrite H. split; [done|]. intros ->.
    pose proof (String.compare_antisym b b) as Hs. rewrite H in Hs. done.
  - intros [H Hne]. destruct (String.compare a b) eqn:E; [|done|done].
    by apply String.compare_eq_iff in E.
Qed.

Lemma str_compare_eq a b : String.compare a b = Eq ↔ a = b.
Proof.
  split; [apply String.compare_eq_iff|intros ->].
  pose proof (String.compare_antisym b b) as H. by destruct (String.compare b b).
Qed.

Lemma str_lt_trans a b c : str_lt a b → str_lt b c → str_lt a c.
Proof.
  rewrite !str_lt_spec. intros [H1 H2] [H3 H4]. split; [by etrans|]. intros ->.
  apply H2. by apply (anti_symm String.le).
Qed.

Lemma str_lt_irrefl a : ¬ str_lt a a.
Proof. rewrite str_lt_spec. by intros [_ []]. Qed.

Definition semantic_le (a b : SemanticArtifact) : Prop :=
  str_lt (sa_path a) (sa_path b) ∨
  sa_path a = sa_path b ∧
    (str_lt (sa_sha256 a) (sa_sha256 b) ∨ sa_sha256 a = sa_sha256 b ∧ (sa_size a <= sa_size b)%N).

Lemma artifact_le_semantic a b :
  artifact_le a b ↔ semantic_le (SemanticArtifact_from a) (SemanticArtifact_from b).
Proof.
  unfold artifact_le, artifact_cmp, semantic_le, str_lt. simpl.
  destruct (String.compare (path a) (path b)) eqn:E1.
  - apply str_compare_eq in E1. destruct (String.compare (sha256 a) (sha256 b)) eqn:E2.
    + apply str_compare_eq in E2. rewrite N.compare_gt_iff. naive_solver lia.
    + naive_solver.
    + assert (sha256 a ≠ sha256 b) by (intros H%str_compare_eq; congruence). naive_solver.
  - naive_solver.
  - assert (path a ≠ path b) by (intros H%str_compare_eq; congruence). naive_solver.
Qed.

#[global] Instance semantic_le_trans : Transitive semantic_le.
Proof.
  intros [p1 s1 n1] [p2 s2 n2] [p3 s3 n3]. unfold semantic_le. simpl.
  intros [H1|(<- & [H1|(<- & H1)])] [H2|(<- & [H2|(<- & H2)])];
    try (left; done || by eapply str_lt_trans).
  - right. split; [done|]. left. by eapply str_lt_trans.
  - right. split; [done|]. by left.
  - right. split; [done|]. by left.
  - right. split; [done|]. right. split; [done|]. lia.
Qed.

#[global] Instance semantic_le_antisymm : AntiSymm (=) semantic_le.
Proof.
  intros [p1 s1 n1] [p2 s2 n2]. unfold semantic_le. simpl.
  intros [H1|(-> & [H1|(-> & H1)])] [H2|(? & [H2|(? & H2)])]; subst;
    try (exfalso; eapply str_lt_irrefl; (eassumption || by eapply str_lt_trans)).
  f_equal. lia.
Qed.

#[global] Instance artifact_le_total : Total artifact_le.
Proof.
  intros a b. unfold artifact_le, artifact_cmp.
  rewrite (String.compare_antisym (path a)), (String.compare_antisym (sha256 a)), (N.compare_antisym (size b)).
  destruct (String.compare (path b) (path a)), (String.compare (sha256 b) (sha256 a)),
    (size b ?= size a)%N; simpl; (by left) || (by right).
Qed.

(** The canonical artifacts depend on the artifacts as a multiset. *)
Lemma canonical_artifacts_unique m m' :
  SemanticArtifact_from <$> artifacts m ≡ₚ SemanticArtifact_from <$> artifacts m' →
  SemanticArtifact_from <$> sorted_artifacts m = SemanticArtifact_from <$> sorted_artifacts m'.
Proof.
  intros Hp.
  assert (∀ m, Sorted semantic_le (SemanticArtifact_from <$> sorted_artifacts m)) as Hs.
  { intros x. eapply Sorted_fmap; [|apply Sorted_merge_sort, _]. intros a b. apply artifact_le_semantic. }
  apply (Sorted_unique semantic_le); [apply Hs|apply Hs|].
  unfold sorted_artifacts. by rewrite !merge_sort_Permutation.
Qed.

(** * Encodings *)

Definition nul_free (s : string) : bool := str_forall (λ c, negb (Ascii.eqb c (byte 0))) s.

Lemma str_forall_impl (P Q : ascii → bool) s : (∀ c, P c = true → Q c = true) → str_forall P s = true → str_forall Q s = true.
Proof. unfold str_forall. rewrite !forallb_forall. auto. Qed.

Lemma str_forall_split P sep s :
  P sep = true → Forall (λ c, str_forall P c = true) (str_split sep s) → str_forall P s = true.
Proof.
  intros Hsep. induction s as [|c s IH]; simpl; [done|]. destruct (Ascii.eqb_spec c sep) as [->|Hc].
  - intros [_ H]%Forall_cons. unfold str_forall in *. simpl. rewrite Hsep. simpl. by apply IH.
  - destruct (str_split sep s) as [|p ps] eqn:E; [by destruct s; simpl in E; repeat case_match|].
    intros [Hp H]%Forall_cons. unfold str_forall in *. simpl in *. apply andb_prop in Hp as [Hp1 Hp2].
    rewrite Hp1. simpl. apply IH. by constructor.
Qed.

Lemma nul_split a b x y : nul_free a = true → nul_free b = true → a +:+ nul +:+ x = b +:+ nul +:+ y → a = b ∧ x = y.
Proof.
  unfold nul_free, str_forall. revert b. induction a as [|c a IH]; intros [|d b]; simpl; intros Ha Hb He; simplify_eq.
  - done.
  - apply andb_prop in Ha as [_ Ha], Hb as [_ Hb]. destruct (IH b Ha Hb) as [-> ->]; [|done].
    match goal with H : String.append a _ = String.append b _ |- _ => exact H end.
Qed.

Lemma fixed_split (a b x y : string) : String.length a = String.length b → a +:+ x = b +:+ y → a = b ∧ x = y.
Proof.
  revert b. induction a as [|c a IH]; intros [|d b]; simpl; intros Hl He; simplify_eq; [done|].
  destruct (IH b) as [-> ->]; [lia|done|done].
Qed.

Lemma le_bytes_length n v : String.length (le_bytes n v) = n.
Proof. revert v. induction n as [|n IH]; intros v; simpl; [done|]. by rewrite IH. Qed.

Lemma le_bytes_inj n v w : (v < 256 ^ N.of_nat n)%N → (w < 256 ^ N.of_nat n)%N → le_bytes n v = le_bytes n w → v = w.
Proof.
  revert v w. induction n as [|n IH]; intros v w Hv Hw He; [simpl in *; lia|].
  cbn [le_bytes] in He. injection He as Hb He.
  assert (256 ^ N.of_nat (S n) = 256 * 256 ^ N.of_nat n)%N as Hpow by (rewrite Nat2N.inj_succ; apply N.pow_succ_r').
  apply IH in He; [|apply N.Div0.div_lt_upper_bound; lia..].
  apply (f_equal byte_val) in Hb. rewrite !byte_val_byte in Hb by (apply N.mod_lt; lia).
  rewrite (N.div_mod v 256), (N.div_mod w 256) by lia. lia.
Qed.

(** The identity fields of a valid manifest contain no NUL. *)
Record printable (m : Manifest) : Prop := {
  pr_id : nul_free (canonical_id m) = true;
  pr_revision : str_len (revision m) = 40%N;
  pr_artifacts : Forall (λ a, nul_free (path a) = true ∧ str_len (sha256 a) = 64%N ∧ (size a < 2 ^ 64)%N) (artifacts m);
}.

Lemma name_byte_nul c : name_byte c = true → negb (Ascii.eqb c (byte 0)) = true.
Proof. destruct c as [[] [] [] [] [] [] [] []]; vm_compute; auto. Qed.

Lemma parts_nul_free s :
  Forall (λ c, str_forall name_byte c = true) (str_split "/" s) → nul_free s = true.
Proof.
  intros H. apply (str_forall_split _ "/"); [done|]. eapply Forall_impl; [exact H|].
  intros c. apply str_forall_impl, name_byte_nul.
Qed.

Lemma validate_id_nul s : validate_id s = Ok tt → nul_free s = true.
Proof.
  unfold validate_id. intros H. inv_result. inv_bool. apply parts_nul_free.
  match goal with H : existsb _ _ = false |- _ => apply existsb_false in H; rename H into Hp end.
  eapply Forall_impl; [exact Hp|]. simpl. intros c Hc. inv_bool. done.
Qed.

Lemma artifact_size_le l a : a ∈ l → (size a <= sum_N (size <$> l))%N.
Proof.
  induction l as [|b l IH]; [by intros ?%not_elem_of_nil|]. csimpl.
  intros [->|H]%elem_of_cons; [lia|]. specialize (IH H). lia.
Qed.

Lemma validate_printable {U : UrlCrate} m : validate m = Ok tt → printable m.
Proof.
  intros H. pose proof (validate_safe m H) as Hs. unfold validate in H. inv_result.
  repeat match goal with u : () |- _ => destruct u end. split.
  - by apply validate_id_nul.
  - match goal with H : is_lower_hex_of 40 _ = true |- _ => unfold is_lower_hex_of in H; apply andb_prop in H as [Hl _] end.
    by apply N.eqb_eq.
  - destruct Hs as [_ Ht Hc Hd _ _ _]. apply Forall_forall. intros a Ha. rewrite Forall_forall in Hc, Hd. split_and!.
    + apply parts_nul_free. destruct (Hc a Ha) as [_ _ _ Hp]. eapply Forall_impl; [exact Hp|]. naive_solver.
    + destruct (Hd a Ha) as [Hx _]. unfold is_lower_hex_of in Hx. apply andb_prop in Hx as [Hx _]. by apply N.eqb_eq.
    + pose proof (artifact_size_le _ _ Ha). unfold MAX_TOTAL_ARTIFACT_BYTES in Ht. lia.
Qed.

Definition record_ok (a : Artifact) : Prop :=
  nul_free (path a) = true ∧ str_len (sha256 a) = 64%N ∧ (size a < 2 ^ 64)%N.

Lemma records_inj l l' :
  Forall record_ok l → Forall record_ok l' →
  foldr (λ a rest, artifact_record a +:+ rest) "" l = foldr (λ a rest, artifact_record a +:+ rest) "" l' →
  SemanticArtifact_from <$> l = SemanticArtifact_from <$> l'.
Proof.
  revert l'. induction l as [|a l IH]; intros [|b l'] Hl Hl' He; [done|done|done|].
  apply Forall_cons in Hl as [(Ha1 & Ha2 & Ha3) Hl], Hl' as [(Hb1 & Hb2 & Hb3) Hl'].
  cbn [foldr] in He. unfold artifact_record in He. rewrite !str_app_assoc in He.
  apply (str_app_inj_l nul), nul_split in He as [Hp He]; [|done..].
  apply fixed_split in He as [Hsha He]; [|unfold str_len in *; lia].
  apply (str_app_inj_l nul), fixed_split in He as [Hsize He]; [|by rewrite !le_bytes_length].
  apply le_bytes_inj in Hsize; [|done..]. csimpl. f_equal; [|by apply IH].
  unfold SemanticArtifact_from. congruence.
Qed.

Lemma sorted_forall (P : Artifact → Prop) m : Forall P (artifacts m) → Forall P (sorted_artifacts m).
Proof. intros H. unfold sorted_artifacts. by rewrite merge_sort_Permutation. Qed.

Lemma artifact_input_inj m m' :
  printable m → printable m' → artifact_input m = artifact_input m' →
  canonical_id m = canonical_id m' ∧ revision m = revision m' ∧
  SemanticArtifact_from <$> sorted_artifacts m = SemanticArtifact_from <$> sorted_artifacts m'.
Proof.
  intros [I1 R1 A1] [I2 R2 A2] He. unfold artifact_input in He.
  apply nul_split in He as [Hid He]; [|done..].
  apply fixed_split in He as [Hrev He]; [|unfold str_len in *; lia].
  split_and!; [done|done|]. apply records_inj; [by apply sorted_forall..|done].
Qed.

Lemma foldr_records l l' :
  SemanticArtifact_from <$> l = SemanticArtifact_from <$> l' →
  foldr (λ a rest, artifact_record a +:+ rest) "" l = foldr (λ a rest, artifact_record a +:+ rest) "" l'.
Proof.
  revert l'. induction l as [|a l IH]; intros [|b l'] He; [done|done|done|]. csimpl in He.
  injection He as Hp Hs Hz He. cbn [foldr]. rewrite (IH l' He). unfold artifact_record. by rewrite Hp, Hs, Hz.
Qed.

(** * What the identities guarantee *)

Section guarantees.
Context {U : UrlCrate}.
Context (sha256_hex : string → string) (to_vec : SemanticContract → result string string).

(** Two manifests with the same inference contract, artifacts in any order. *)
Record same_contract (m m' : Manifest) : Prop := {
  same_fields :
    (schema_version m, canonical_id m, revision m, tokenizer m, pooling m, prefixes m, dimensions m, tensors m, runtime m) =
    (schema_version m', canonical_id m', revision m', tokenizer m', pooling m', prefixes m', dimensions m', tensors m', runtime m');
  same_artifacts : SemanticArtifact_from <$> artifacts m ≡ₚ SemanticArtifact_from <$> artifacts m';
}.

Lemma same_contract_of m m' : same_contract m m' → contract_of m = contract_of m'.
Proof.
  intros [Hf Ha]. simplify_eq. unfold contract_of. rewrite (canonical_artifacts_unique m m' Ha). congruence.
Qed.

(** Fingerprints are canonical.  Two valid manifests that state the same inference
    contract, whatever the order of their artifacts, their download URLs, licences or
    self-declared verification, have the same semantic fingerprint and the same cache
    key, and the same artifact fingerprint. *)
Theorem fingerprint_canonical m m' :
  validate m = Ok tt → validate m' = Ok tt → same_contract m m' →
  semantic_fingerprint sha256_hex to_vec m = semantic_fingerprint sha256_hex to_vec m' ∧
  key sha256_hex to_vec m = key sha256_hex to_vec m' ∧
  artifact_fingerprint sha256_hex m = artifact_fingerprint sha256_hex m'.
Proof.
  intros Hv Hv' Hs. pose proof (same_contract_of m m' Hs) as Hc.
  assert (semantic_fingerprint sha256_hex to_vec m = semantic_fingerprint sha256_hex to_vec m') as Hf.
  { unfold semantic_fingerprint. by rewrite Hv, Hv', Hc. }
  split_and!; [done|unfold key; by rewrite Hf|].
  unfold artifact_fingerprint, artifact_input. injection Hc as _ -> -> _ _ _ _ _ _ Ha. by rewrite (foldr_records _ _ Ha).
Qed.

(** A pair of inputs with one digest. *)
Definition collision : Prop := ∃ x y, x ≠ y ∧ sha256_hex x = sha256_hex y.

Lemma digest_eq x y : "sha256:" +:+ sha256_hex x = "sha256:" +:+ sha256_hex y → x = y ∨ collision.
Proof.
  intros H%str_app_inj_l. destruct (decide (x = y)); [by left|]. right. by exists x, y.
Qed.

(** Fingerprints are binding.  Manifests with the same semantic fingerprint have the
    same inference contract, and valid manifests with the same artifact fingerprint the
    same identity, revision and pinned artifacts, unless SHA-256 collides. *)
Theorem fingerprint_binding m m' f :
  (∀ c c' b, to_vec c = Ok b → to_vec c' = Ok b → c = c') →
  (semantic_fingerprint sha256_hex to_vec m = Ok f → semantic_fingerprint sha256_hex to_vec m' = Ok f →
   contract_of m = contract_of m' ∨ collision) ∧
  (validate m = Ok tt → validate m' = Ok tt → artifact_fingerprint sha256_hex m = artifact_fingerprint sha256_hex m' →
   (canonical_id m = canonical_id m' ∧ revision m = revision m' ∧
    SemanticArtifact_from <$> artifacts m ≡ₚ SemanticArtifact_from <$> artifacts m') ∨ collision).
Proof.
  intros Hjson. split.
  - unfold semantic_fingerprint. intros H1 H2. apply Config.bind_unit_Ok in H1 as [_ H1], H2 as [_ H2].
    apply bind_Ok in H1 as (x & Hx & [= <-]), H2 as (y & Hy & H2).
    destruct (to_vec (contract_of m)) as [b|] eqn:E1, (to_vec (contract_of m')) as [b'|] eqn:E2; simplify_eq/=.
    destruct (decide (x = y)) as [->|Hne]; [left; by eapply Hjson|]. right. by exists x, y.
  - intros Hv Hv' [Hi|]%digest_eq; [|by right]. left.
    apply artifact_input_inj in Hi as (H1 & H2 & H3); [|by apply validate_printable..].
    split_and!; [done|done|]. rewrite <-(merge_sort_Permutation artifact_le (artifacts m)).
    rewrite <-(merge_sort_Permutation artifact_le (artifacts m')). unfold sorted_artifacts in H3. by rewrite H3.
Qed.

Lemma insert_evidence_Ok root l root' :
  insert_evidence root l = Ok root' ↔
  Forall (λ r, malformed r = false) l ∧ root' = list_to_set (manifest_fingerprint <$> l) ∪ root.
Proof.
  revert root. induction l as [|r l IH]; intros root; cbn [insert_evidence].
  - csimpl. split; [intros [= ->]|intros [_ ->]]; [split; [done|set_solver]|f_equal; set_solver].
  - rewrite Config.ensure_Ok, negb_true_iff, IH, Forall_cons. csimpl. split.
    + intros (H1 & H2 & ->). split_and!; [done|done|set_solver].
    + intros ((H1 & H2) & ->). split_and!; [done|done|set_solver].
Qed.

(** Trust needs independent evidence.  A trust root built from records contains exactly
    their fingerprints and is refused if any record is malformed; it trusts a manifest
    iff the manifest declares itself verified and some record carries its fingerprint,
    so a manifest cannot vouch for itself. *)
Theorem trust_needs_evidence l root m :
  from_evidence l = Ok root →
  Forall (λ r, malformed r = false) l ∧
  ∀ f, semantic_fingerprint sha256_hex to_vec m = Ok f →
    (trusts sha256_hex to_vec root m = Ok true ↔
     semantics_verified m = true ∧ ∃ r, r ∈ l ∧ manifest_fingerprint r = f).
Proof.
  unfold from_evidence. intros [Hl ->]%insert_evidence_Ok. split; [done|]. intros f Hf. unfold trusts. rewrite Hf. simpl.
  destruct (semantics_verified m); [|naive_solver]. split.
  - intros [= Hb%bool_decide_eq_true]. split; [done|]. rewrite union_empty_r_L, elem_of_list_to_set in Hb.
    apply list_elem_of_fmap in Hb as (r & -> & Hr). eauto.
  - intros [_ (r & Hr & <-)]. f_equal. apply bool_decide_eq_true. rewrite union_empty_r_L, elem_of_list_to_set.
    by apply list_elem_of_fmap_2.
Qed.

End guarantees.

(** * Concrete identities *)

(** The same artifacts in the other order, from another mirror. *)
Definition mirrored_manifest : Manifest :=
  let m := sample_manifest in
  mk_Manifest (schema_version m) (canonical_id m) (revision m) (mk_License "Apache-2.0" "https://mirror.example/license")
    (Unverified "mirror") (tokenizer m) (pooling m) (prefixes m) (dimensions m) (tensors m) (runtime m)
    (reverse ((λ a, mk_Artifact (path a) ("https://mirror.example/" +:+ path a) (sha256 a) (size a)) <$> artifacts m)).

(** An encoder that knows one contract, and a digest for small inputs. *)
Definition simple_to_vec (c : SemanticContract) : result string string :=
  if decide (c = contract_of sample_manifest) then Ok "{contract}" else Err "unsupported".
Definition simple_sha (s : string) : string :=
  "0123456789abcdef0123456789abcdef0123456789abcdef0123456789abcde" +:+ (if (str_len s <? 16)%N then "0" else "1").

Lemma fingerprint_canonical_witness :
  key (U := SimpleUrl) simple_sha simple_to_vec sample_manifest = key (U := SimpleUrl) simple_sha simple_to_vec mirrored_manifest ∧
  key (U := SimpleUrl) simple_sha simple_to_vec sample_manifest = Ok (simple_sha "{contract}").
Proof.
  split; [|vm_compute; reflexivity].
  apply (fingerprint_canonical (U := SimpleUrl) simple_sha simple_to_vec sample_manifest mirrored_manifest).
  - vm_compute. reflexivity.
  - vm_compute. reflexivity.
  - split; [reflexivity|]. change (SemanticArtifact_from <$> artifacts mirrored_manifest)
      with (reverse (SemanticArtifact_from <$> artifacts sample_manifest)). by rewrite reverse_Permutation.
Defined.

Lemma fingerprint_binding_witness :
  contract_of sample_manifest = contract_of mirrored_manifest ∨ collision simple_sha.
Proof.
  apply (fingerprint_binding (U := SimpleUrl) simple_sha simple_to_vec sample_manifest mirrored_manifest
    ("sha256:" +:+ simple_sha "{contract}")).
  - intros c c' b. unfold simple_to_vec. intros H1 H2. repeat case_decide; congruence.
  - vm_compute. reflexivity.
  - vm_compute. reflexivity.
Defined.

Lemma trust_needs_evidence_witness :
  ∃ root, trusts (U := SimpleUrl) simple_sha simple_to_vec root sample_manifest = Ok true ∧
          trusts (U := SimpleUrl) simple_sha simple_to_vec root mirrored_manifest = Ok false.
Proof.
  set (r := mk_TrustedSemanticEvidence ("sha256:" +:+ simple_sha "{contract}") "review 17").
  assert (from_evidence [r] = Ok {["sha256:" +:+ simple_sha "{contract}"]}) as Hr by (vm_compute; reflexivity).
  exists {["sha256:" +:+ simple_sha "{contract}"]}. split; [|reflexivity].
  destruct (trust_needs_evidence (U := SimpleUrl) simple_sha simple_to_vec [r] _ sample_manifest Hr) as [_ H].
  apply (H ("sha256:" +:+ simple_sha "{contract}")); [vm_compute; reflexivity|].
  split; [reflexivity|]. exists r. split; [left|reflexivity].
Defined.

End Identity.
