(* ===== verification/Files.v ===== *)
(** Files below a trusted base directory ([impossible-models/src/store.rs]): creating
    and opening them component by component without following links, reading and
    hashing them, and copying an artifact into staging.

    A relative path is its list of components; a handle is the path it was opened at.
    What a disturbed read returns is arbitrary ([Disk.seen]), so statements about [run]
    cover files that change while they are read. *)

From Stdlib Require Import NArith Lia Ascii.
From stdpp Require Import base strings gmap list.
From S2P Require Import Prelude Std Config Manifest Disk Cache.
Import Manifest Disk Cache.

Local Open Scope string_scope.
Local Open Scope list_scope.
Local Open Scope rust_scope.

Module Files.

Definition MANIFEST_FILE : string := "manifest.json".
Definition BUFFER : N := 64 * 1024.

(** A call whose error is replaced. *)
Definition call_or {R} (o : Op R) (e : Error) : prog (result Error R) :=
  prog_bind (io o) (λ r, Ret (map_err (λ _, e) r)).
(** [result.map_err(f)] where [f] may look at the disk. *)
Definition map_err_prog {A} (p : prog (result Error A)) (f : Error → prog Error) : prog (result Error A) :=
  prog_bind p (λ r, match r with Ok a => Ret (Ok a) | Err e => prog_bind (f e) (λ e, Ret (Err e)) end).

(** * Paths *)

(** [Path::parent().unwrap_or("")] and [Path::file_name]; a relative path is a list of
    components. *)
Definition parent_of (relative : list Component) : list Component := removelast relative.
Definition file_name (relative : list Component) : option string :=
  match last relative with Some (Normal name) => Some name | _ => None end.
Definition join (base : Path) (relative : list Component) : Path :=
  base ++ omap (λ c, match c with Normal name => Some name | _ => None end) relative.

Definition validate_relative_path (relative : list Component) : result Error unit :=
  if existsb (λ c, negb (is_normal c)) relative && negb (bool_decide (relative = []))
  then Err (EInvalid "path contains unsafe components") else Ok tt.

Definition canonical_directory (directory : Path) : prog (result Error (option Path)) :=
  do? k := call (SymlinkMetadata directory) in
  if is_reparse k || negb (is_dir k)
  then Ret (Err (EInvalid "cache directory cannot be a symlink or reparse point"))
  else call (Canonicalize directory).

Definition revalidate_contained_directory (base : Path) (relative : list Component) : prog (result Error unit) :=
  do? _ := Ret (validate_relative_path relative) in
  do? _ := reject_reparse_components base relative in
  do? canonical_base := canonical_directory base in
  let directory := join base relative in
  do? k := call (SymlinkMetadata directory) in
  if is_reparse k || negb (is_dir k)
  then Ret (Err (EInvalid "cache directory cannot be a symlink or reparse point")) else
  do? canonical := call (Canonicalize directory) in
  if starts_with canonical canonical_base then Ret (Ok tt)
  else Ret (Err (EInvalid "cache directory escaped containment")).

Definition revalidate_contained_path (base : Path) (relative : list Component) : prog (result Error unit) :=
  do? _ := Ret (validate_relative_path relative) in
  do? _ := reject_reparse_components base relative in
  do? canonical_base := canonical_directory base in
  let path := join base relative in
  do? k := call (SymlinkMetadata path) in
  if is_reparse k || negb (is_file k)
  then Ret (Err (EInvalid "cache leaf is not a regular non-reparse file")) else
  do? canonical := call (Canonicalize path) in
  if starts_with canonical canonical_base then Ret (Ok tt)
  else Ret (Err (EInvalid "cache file escaped containment")).

(** * Opening without following links (Unix) *)

(** [mkdirat] each component (it may exist already), then [openat] it as a directory. *)
Fixpoint descend_handles (directory : Path) (relative : list Component) : prog (result Error Path) :=
  match relative with
  | [] => Ret (Ok directory)
  | Normal name :: relative =>
    let next := directory ++ [name] in
    prog_bind (io (MkDir next)) (λ r,
      match r with
      | Ok _ | Err AlreadyExists =>
        do? _ := call (OpenDir next) in
        descend_handles next relative
      | Err e => Ret (Err (of_io e))
      end)
  | _ => Ret (Err (EInvalid "path contains unsafe components"))
  end.

Definition securely_open_unix_parent (base : Path) (relative : list Component) : prog (result Error Path) :=
  do? _ := call (OpenDir base) in
  do? m := call (HandleMetadata base) in
  do? unsafe :=
    (if is_reparse m.1 then Ret (Ok true)
     else do? m := call (HandleMetadata base) in Ret (Ok (negb (is_dir m.1)))) in
  if unsafe : bool then Ret (Err (EInvalid "cache directory cannot be a symlink")) else
  descend_handles base relative.

Definition securely_create_parent_directories (base : Path) (relative : list Component) : prog (result Error unit) :=
  do? _ := securely_open_unix_parent base relative in
  Ret (Ok tt).

Definition leaf (relative : list Component) : result Error string :=
  ok_or (file_name relative) (EInvalid "file path has no leaf").

Definition securely_create_new_file (base : Path) (relative : list Component) : prog (result Error Path) :=
  do? directory := securely_open_unix_parent base (parent_of relative) in
  do? name := Ret (leaf relative) in
  do? _ := call (CreateNew (directory ++ [name])) in
  Ret (Ok (directory ++ [name])).

Definition securely_open_existing_file (base : Path) (relative : list Component) : prog (result Error Path) :=
  do? directory := securely_open_unix_parent base (parent_of relative) in
  do? name := Ret (leaf relative) in
  do? _ := call (OpenFile (directory ++ [name])) in
  Ret (Ok (directory ++ [name])).

(** * Creating below a base *)

Definition create_contained_parent_directories (base : Path) (relative_file : list Component) : prog (result Error unit) :=
  let parent := parent_of relative_file in
  do? _ := Ret (validate_relative_path parent) in
  do? _ := securely_create_parent_directories base parent in
  revalidate_contained_directory base parent.

Definition create_new_contained_file (base : Path) (relative : list Component) : prog (result Error Path) :=
  do? _ := Ret (validate_relative_path relative) in
  if bool_decide (relative = []) then Ret (Err (EInvalid "file path cannot be empty")) else
  do? file := securely_create_new_file base relative in
  do? m := call (HandleMetadata file) in
  if is_reparse m.1 || negb (is_file m.1)
  then Ret (Err (EInvalid "cache leaf is not a regular non-reparse file")) else
  do? _ := revalidate_contained_path base relative in
  Ret (Ok file).

Definition stable_import_destination_error (base : Path) (relative : list Component) (error : Error) : prog Error :=
  prog_bind (reject_reparse_components base relative) (λ r, Ret
    match r with
    | Err (EInvalid _) => EInvalid "import staging destination became unsafe"
    | _ => error
    end).

Definition open_contained_regular_file (base : Path) (relative : list Component) (expected_size : N)
    : prog (result Error Path) :=
  do? _ := Ret (validate_relative_path relative) in
  do? _ := reject_reparse_components base relative in
  do? file := securely_open_existing_file base relative in
  do? m := call (HandleMetadata file) in
  if is_reparse m.1 || negb (is_file m.1) || negb (m.2 =? expected_size)%N
  then Ret (Err (EInvalid "artifact changed after verification"))
  else Ret (Ok file).

(** * Reading *)

Section reading.
Context (sha256_hex : string → string).

(** The loop of [verify_contained_artifact]: [None] when the file is too long, otherwise
    what was read.  Every read returns at least one byte, so [fuel] of one more than
    the declared size and the end of file is enough. *)
Fixpoint hash_chunks (fuel : nat) (cancelled : prog (result Error bool)) (file : Path) (size read_limit : N)
    (read_total : N) (read : string) : prog (result Error (option (N * string))) :=
  match fuel with
  | O => Diverge
  | S fuel =>
    do? stop := cancelled in
    if stop : bool then Ret (Err ECancelled) else
    let remaining := saturating_sub read_limit read_total in
    if (remaining =? 0)%N then Ret (Ok None) else
    let limit := N.min remaining BUFFER in
    do? chunk := call (ReadChunk file read_total limit) in
    if str_is_empty chunk then Ret (Ok (Some (read_total, read))) else
    do? total := Ret (ok_or (checked_add u64_max read_total (str_len chunk)) (EInvalid "artifact length overflow")) in
    if (size <? total)%N then Ret (Ok None) else
    hash_chunks fuel cancelled file size read_limit total (read +:+ chunk)
  end.

Definition is_not_found (e : Error) : bool := match e with Io k _ => String.eqb k "NotFound" | _ => false end.
Definition is_invalid (e : Error) : bool := match e with EInvalid _ => true | _ => false end.

Definition verify_contained_artifact (cancelled : prog (result Error bool)) (base : Path) (a : Artifact)
    : prog (result Error bool) :=
  prog_bind (open_contained_regular_file base (components (path a)) (size a)) (λ r,
    match r with
    | Err e => Ret (if is_not_found e || is_invalid e then Ok false else Err e)
    | Ok file =>
      do? read_limit := Ret (ok_or (checked_add u64_max (size a) 1) (EInvalid "artifact length overflow")) in
      do? read := hash_chunks (N.to_nat (size a) + 2) cancelled file (size a) read_limit 0 "" in
      match read with
      | None => Ret (Ok false)
      | Some (read_total, bytes) =>
        do? m := call (HandleMetadata file) in
        Ret (Ok (negb (is_reparse m.1 || negb (is_file m.1) || negb (m.2 =? size a)%N
                       || negb (read_total =? size a)%N || negb (String.eqb (sha256_hex bytes) (sha256 a)))))
      end
    end).

(** [VerifiedModel::artifact_path] and [VerifiedModel::artifact_bytes] for the manifest
    and root of the capability. *)
Definition artifact_path (m : Manifest) (root : Path) (relative : string) : prog (result Error (option Path)) :=
  if negb (existsb (λ a, String.eqb (path a) relative) (artifacts m))
  then Ret (Err (EInvalid "runtime requested an undeclared artifact")) else
  do? _ := reject_reparse_components root (components relative) in
  do? canonical := call (Canonicalize (join root (components relative))) in
  do? canonical_root := call (Canonicalize root) in
  if starts_with canonical canonical_root then Ret (Ok canonical)
  else Ret (Err (EInvalid "artifact escaped verified model root")).

Definition artifact_bytes (m : Manifest) (root : Path) (relative : string) : prog (result Error string) :=
  do? a := Ret (ok_or (List.find (λ a, String.eqb (path a) relative) (artifacts m))
                  (EInvalid "runtime requested an undeclared artifact")) in
  do? file := open_contained_regular_file root (components relative) (size a) in
  do? capacity := Ret (ok_or (try_from usize_max (size a)) (EInvalid "artifact is too large for this platform")) in
  do? read_limit := Ret (ok_or (checked_add u64_max (size a) 1) (EInvalid "artifact length overflow")) in
  do? bytes := call (ReadChunk file 0 read_limit) in
  do? final := call (HandleMetadata file) in
  if negb (str_len bytes =? capacity)%N || is_reparse final.1 || negb (is_file final.1)
     || negb (final.2 =? size a)%N || negb (String.eqb (sha256_hex bytes) (sha256 a))
  then Ret (Err (EInvalid "artifact changed after verification"))
  else Ret (Ok bytes).

End reading.

Section manifests.
Context {U : UrlCrate} {J : JsonCrate}.

Definition read_contained_manifest (directory : Path) : prog (result Error Manifest) :=
  let unavailable := EInvalid "manifest directory is unavailable" in
  let missing := EInvalid "manifest is unavailable" in
  do? k := call_or (SymlinkMetadata directory) unavailable in
  if is_reparse k || negb (is_dir k)
  then Ret (Err (EInvalid "manifest directory cannot be a symlink or reparse point")) else
  do? canonical_directory := call_or (Canonicalize directory) unavailable in
  let path := directory ++ [MANIFEST_FILE] in
  do? _ := call_or (OpenFile path) missing in
  do? initial := call_or (HandleMetadata path) missing in
  if is_reparse initial.1 || negb (is_file initial.1) || (MAX_MANIFEST_BYTES <? initial.2)%N
  then Ret (Err (EInvalid "manifest must be a bounded regular non-reparse file")) else
  do? initial_len := Ret (ok_or (try_from usize_max initial.2) (EInvalid "manifest exceeds the supported size")) in
  do? bytes := call_or (ReadChunk path 0 (MAX_MANIFEST_BYTES + 1)) missing in
  do? final := call_or (HandleMetadata path) missing in
  if is_reparse final.1 || negb (is_file final.1) || (MAX_MANIFEST_BYTES <? str_len bytes)%N
     || negb (final.2 =? initial.2)%N || negb (final.2 =? str_len bytes)%N
  then Ret (Err (EInvalid "manifest changed while it was being read")) else
  do? again := call_or (Canonicalize directory) unavailable in
  if bool_decide (again ≠ canonical_directory)
  then Ret (Err (EInvalid "manifest directory changed while it was being read"))
  else Ret (from_json bytes).

(** [read_contained_manifest] on a whole tree: what a quiet read of it gives. *)
Definition stored_manifest (tree : Node) : result Error Manifest :=
  match tree with
  | Dir cs =>
    match child MANIFEST_FILE cs with
    | Some (File bytes) =>
      ensure negb (MAX_MANIFEST_BYTES <? str_len bytes)%N
        else EInvalid "manifest must be a bounded regular non-reparse file" in
      from_json bytes
    | Some (Dir _) | Some Special => Err (EInvalid "manifest must be a bounded regular non-reparse file")
    | Some Symlink | None => Err (EInvalid "manifest is unavailable")
    end
  | _ => Err (EInvalid "manifest directory cannot be a symlink or reparse point")
  end.

End manifests.

(** * Copying an artifact into staging

    The source is outside the cache: what its handle reports and the chunks its reads
    return, an empty chunk being the end of the file. *)

Record SourceFile := mk_SourceFile {
  sf_open : result Error unit;
  sf_metadata : result Error (Kind * N);
  sf_reads : list (result Error string);
}.

Section copying.
Context (sha256_hex : string → string).

(** The copy loop: the number of bytes and the bytes copied. *)
Fixpoint copy_chunks (target : Path) (size copied : N) (acc : string) (reads : list (result Error string))
    : prog (result Error (N * string)) :=
  match reads with
  | [] => Ret (Ok (copied, acc))
  | Err e :: _ => Ret (Err e)
  | Ok chunk :: reads =>
    if str_is_empty chunk then Ret (Ok (copied, acc)) else
    do? copied := Ret (ok_or (checked_add u64_max copied (str_len chunk)) (EInvalid "artifact length overflow")) in
    if (size <? copied)%N then Ret (Err (SizeLimit size copied)) else
    do? _ := call (WriteAll target chunk) in
    copy_chunks target size copied (acc +:+ chunk) reads
  end.

(** The loop that reads the staged file back. *)
Fixpoint staged_chunks (fuel : nat) (file : Path) (size staged : N) (acc : string) : prog (result Error (N * string)) :=
  match fuel with
  | O => Diverge
  | S fuel =>
    do? chunk := call (ReadChunk file staged BUFFER) in
    if str_is_empty chunk then Ret (Ok (staged, acc)) else
    do? staged := Ret (ok_or (checked_add u64_max staged (str_len chunk)) (EInvalid "artifact length overflow")) in
    if (size <? staged)%N then Ret (Err (SizeLimit size staged)) else
    staged_chunks fuel file size staged (acc +:+ chunk)
  end.

(** The check of the bytes at the staging path once the copy is durable. *)
Definition verify_staged (staging : Path) (relative : list Component) (a : Artifact) : prog (result Error unit) :=
  do? staged_file := map_err_prog (securely_open_existing_file staging relative)
                       (stable_import_destination_error staging relative) in
  do? m := call (HandleMetadata staged_file) in
  if negb (is_file m.1) || negb (m.2 =? size a)%N
  then Ret (Err (EInvalid "staged artifact changed during import")) else
  do? staged := staged_chunks (N.to_nat (size a) + 2) staged_file (size a) 0 "" in
  if negb (staged.1 =? size a)%N || negb (String.eqb (sha256_hex staged.2) (sha256 a))
  then Ret (Err (HashMismatch (sha256 a) (sha256_hex staged.2)))
  else Ret (Ok tt).

Definition copy_import_artifact (source : SourceFile) (staging : Path) (relative : list Component) (a : Artifact)
    : prog (result Error unit) :=
  do? _ := Ret (sf_open source) in
  do? m := Ret (sf_metadata source) in
  if negb (is_file m.1) then Ret (Err (EInvalid ("artifact is not a regular file: " +:+ path a))) else
  if negb (m.2 =? size a)%N then Ret (Err (SizeLimit (size a) m.2)) else
  do? target := map_err_prog (create_new_contained_file staging relative)
                  (stable_import_destination_error staging relative) in
  do? copied := copy_chunks target (size a) 0 "" (sf_reads source) in
  do? _ := call (SyncFile target) in
  if negb (copied.1 =? size a)%N then Ret (Err (SizeLimit (size a) copied.1)) else
  let actual := sha256_hex copied.2 in
  if negb (String.eqb actual (sha256 a)) then Ret (Err (HashMismatch (sha256 a) actual)) else
  verify_staged staging relative a.

End copying.

(** * Every file operation terminates, whatever the disk does *)

Create HintDb halts.
#[export] Hint Resolve halts_ret halts_io : halts.

Ltac halting :=
  repeat first
    [ progress intros
    | solve [eauto with halts]
    | apply halts_lift
    | apply halts_bind
    | apply halts_try
    | progress cbv zeta
    | match goal with |- halts (match ?x with _ => _ end) => destruct x end ].

Lemma halts_reject_from current rel : halts (reject_reparse_from current rel).
Proof. revert current. induction rel as [|[] rel IH]; intros current; cbn [reject_reparse_from]; halting. Qed.
#[export] Hint Resolve halts_reject_from : halts.
Lemma halts_reject base rel : halts (reject_reparse_components base rel).
Proof. unfold reject_reparse_components. halting. Qed.
#[export] Hint Resolve halts_reject : halts.
Lemma halts_descend base rel : halts (descend_handles base rel).
Proof. revert base. induction rel as [|[] rel IH]; intros base; cbn [descend_handles]; halting. Qed.
#[export] Hint Resolve halts_descend : halts.

Lemma halts_open_parent base rel : halts (securely_open_unix_parent base rel).
Proof. unfold securely_open_unix_parent. halting. Qed.
#[export] Hint Resolve halts_open_parent : halts.
Lemma halts_open_contained base rel size : halts (open_contained_regular_file base rel size).
Proof. unfold open_contained_regular_file, securely_open_existing_file. halting. Qed.
#[export] Hint Resolve halts_open_contained : halts.

Lemma str_is_empty_len s : str_is_empty s = false → (0 < str_len s)%N.
Proof. destruct s; [done|]. unfold str_len. simpl. lia. Qed.

(** Each read that returns bytes makes progress towards the declared size. *)
Lemma halts_hash_chunks fuel cancelled file size limit total acc :
  halts cancelled → (total <= size)%N → (N.to_nat (size - total) + 2 ≤ fuel)%nat →
  halts (hash_chunks fuel cancelled file size limit total acc).
Proof.
  intros Hc. revert total acc. induction fuel as [|fuel IH]; intros total acc Ht Hf; [lia|].
  cbn [hash_chunks]. apply halts_try; [done|]. intros []; [halting|].
  destruct (_ =? 0)%N; [halting|]. apply halts_try; [halting|]. intros chunk.
  destruct (str_is_empty chunk) eqn:He; [halting|]. apply str_is_empty_len in He.
  destruct (checked_add u64_max total (str_len chunk)) as [total'|] eqn:Ha; [|apply halts_ret].
  apply checked_add_Some in Ha as [-> _]. change (halts (if (size <? total + str_len chunk)%N then Ret (Ok None)
    else hash_chunks fuel cancelled file size limit (total + str_len chunk) (acc +:+ chunk))).
  destruct (N.ltb_spec size (total + str_len chunk)); [halting|]. apply IH; lia.
Qed.

Lemma halts_verify sha cancelled base a : halts cancelled → halts (verify_contained_artifact sha cancelled base a).
Proof.
  intros Hc. unfold verify_contained_artifact. apply halts_bind; [halting|]. intros [file|e]; [|halting].
  apply halts_try; [halting|]. intros limit. apply halts_try; [apply halts_hash_chunks; [done|lia..]|]. halting.
Qed.

Lemma halts_read_manifest {U : UrlCrate} {J : JsonCrate} directory : halts (read_contained_manifest directory).
Proof. unfold read_contained_manifest, call_or. halting. Qed.
#[export] Hint Resolve halts_verify halts_read_manifest : halts.

(** Reading the identity record changes nothing. *)
Lemma still_read_manifest {U : UrlCrate} {J : JsonCrate} directory : still (read_contained_manifest directory).
Proof.
  unfold read_contained_manifest, call_or.
  repeat first
    [ progress intros | apply still_ret | apply still_look; reflexivity | apply still_read
    | apply still_bind | apply still_try | progress cbv zeta
    | match goal with |- still (match ?x with _ => _ end) => destruct x end ].
Qed.

(** * Substrings *)

Lemma substring_length k m s : String.length (String.substring k m s) = (m `min` (String.length s - k))%nat.
Proof.
  revert k m. induction s as [|c s IH]; intros k m; simpl.
  - destruct k, m; simpl; lia.
  - destruct k as [|k]; simpl; [destruct m as [|m]; simpl; [done|]|rewrite IH; lia]. rewrite IH. lia.
Qed.

Lemma substring_all m s : (String.length s ≤ m)%nat → String.substring 0 m s = s.
Proof.
  revert m. induction s as [|c s IH]; intros m Hm; simpl in *; [by destruct m|].
  destruct m as [|m]; [lia|]. by rewrite IH by lia.
Qed.

Lemma substring_app k m s : String.substring 0 k s +:+ String.substring k m s = String.substring 0 (k + m) s.
Proof.
  revert k m. induction s as [|c s IH]; intros k m; simpl.
  - by destruct k, m.
  - destruct k as [|k]; simpl; [done|]. by rewrite IH.
Qed.

Lemma substring_0 s : String.substring 0 0 s = "".
Proof. by destruct s. Qed.

(** * Below one entry of the cache

    [at_tree t fs]: the entry [d/n] holds the tree [t]; paths below it are lists of names. *)

Section below.
Context (d n : string).

Definition at_tree (t : Node) (fs : Fs) : Prop := entries fs !! (d, n) = Some t.
Definition with_tree (t : Node) (fs : Fs) : Fs := set_below d n t fs.

Lemma with_tree_same t fs : at_tree t fs → with_tree t fs = fs.
Proof. intros H. unfold with_tree, set_below. rewrite insert_id by done. by destruct fs. Qed.

Lemma with_tree_twice t t' fs : with_tree t' (with_tree t fs) = with_tree t' fs.
Proof. unfold with_tree, set_below. simpl. by rewrite insert_insert_eq. Qed.

Lemma at_with_tree t fs : at_tree t (with_tree t fs).
Proof. apply lookup_insert_eq. Qed.

Lemma node_at_below t p fs : at_tree t fs → node_at (d :: n :: p) fs = descend t p.
Proof. unfold at_tree. simpl. by intros ->. Qed.

Lemma metadata_below t p fs : at_tree t fs → metadata (d :: n :: p) fs = kind <$> descend t p.
Proof. intros H. simpl. rewrite H. done. Qed.

Lemma parent_below p : p ≠ [] → parent (d :: n :: p) = d :: n :: removelast p.
Proof. by destruct p. Qed.

Lemma create_below t p v fs :
  at_tree t fs → p ≠ [] →
  create (d :: n :: p) v fs =
  match kind <$> descend t (removelast p), kind <$> descend t p with
  | None, _ => (Err NotFound, fs)
  | Some KDir, None => (Ok tt, with_tree (put t p v) fs)
  | Some KDir, Some _ => (Err AlreadyExists, fs)
  | Some _, _ => (Err IoFault, fs)
  end.
Proof.
  intros Ht Hp. unfold create. rewrite parent_below by done. rewrite !(metadata_below t) by done.
  destruct (kind <$> descend t (removelast p)) as [[]|]; try done.
  destruct (kind <$> descend t p); [done|]. destruct p as [|x p]; [done|]. by rewrite Ht.
Qed.

Lemma removelast_snoc {A} (l : list A) x : removelast (l ++ [x]) = l.
Proof. apply removelast_last. Qed.

(** What [mkdirat]/[openat] per component leave. *)
Fixpoint mkdirs (t : Node) (pre names : list string) : Node :=
  match names with
  | [] => t
  | x :: names =>
    let p := pre ++ [x] in
    mkdirs (match descend t p with None => put t p (Dir []) | Some _ => t end) p names
  end.

Definition dir_or_none (o : option Node) : Prop := o = None ∨ ∃ cs, o = Some (Dir cs).

Lemma prefix_snoc_len (pre : list string) x q : pre ++ [x] `prefix_of` q → ¬ q `prefix_of` pre.
Proof. intros H1%prefix_length H2%prefix_length. rewrite length_app in H1. simpl in H1. lia. Qed.

(** The parents are walked, and made where they are missing. *)
Lemma descend_handles_exec t pre names fs :
  at_tree t fs → (∃ cs, descend t pre = Some (Dir cs)) →
  (∀ i, dir_or_none (descend t (pre ++ take i names))) →
  exec (descend_handles (d :: n :: pre) (Normal <$> names)) fs =
  (Finished (Ok (d :: n :: pre ++ names)), with_tree (mkdirs t pre names) fs).
Proof.
  revert t pre fs. induction names as [|x names IH]; intros t pre fs Ht Hpre Hnames.
  { simpl. rewrite app_nil_r. by rewrite with_tree_same. }
  change (Normal <$> x :: names) with (Normal x :: (Normal <$> names)). cbn [descend_handles].
  rewrite exec_bind. unfold io. cbn [exec app]. change (perform (MkDir ?p) fs) with (create p (Dir []) fs).
  rewrite (create_below t) by (done || by destruct pre). rewrite removelast_snoc.
  destruct Hpre as [cs Hpre]. rewrite Hpre. cbn [fmap option_fmap option_map kind].
  pose proof (Hnames 1%nat) as H1. rewrite firstn_cons, take_0 in H1.
  destruct H1 as [Hx|[cs' Hx] ]; rewrite Hx; cbn [fmap option_fmap option_map kind].
  - assert (can_put t (pre ++ [x])) as Hput by (exists cs; by rewrite removelast_snoc).
    pose proof (descend_put_eq t (pre ++ [x]) (Dir []) ltac:(by destruct pre) Hput) as Hnew.
    assert (at_tree (put t (pre ++ [x]) (Dir [])) (with_tree (put t (pre ++ [x]) (Dir [])) fs)) as Hat by apply at_with_tree.
    erewrite exec_try_Ok. 2: { apply exec_call_Ok. unfold perform. by rewrite (metadata_below _ _ _ Hat), Hnew. }
    change (d :: n :: pre ++ [x]) with (d :: n :: (pre ++ [x])). rewrite (IH (put t (pre ++ [x]) (Dir []))).
    + rewrite with_tree_twice, <-app_assoc. cbn [mkdirs app]. by rewrite Hx.
    + done.
    + by eexists.
    + intros i. destruct (take i names) as [|y l] eqn:Ei; [rewrite app_nil_r; right; by eexists|].
      left. rewrite descend_app, Hnew. done.
  - erewrite exec_try_Ok. 2: { apply exec_call_Ok. unfold perform. by rewrite (metadata_below _ _ _ Ht), Hx. }
    rewrite (IH t); [cbn [mkdirs]; by rewrite Hx, <-app_assoc|done|by eexists|].
    intros i. specialize (Hnames (S i)). rewrite firstn_cons in Hnames. by rewrite <-app_assoc.
Qed.

(** When the walk succeeds, the directory was there, or it is a new empty one. *)
Lemma descend_handles_inv t pre names fs x fs' :
  at_tree t fs →
  exec (descend_handles (d :: n :: pre) (Normal <$> names)) fs = (Finished (Ok x), fs') →
  x = d :: n :: pre ++ names ∧
  (fs' = fs ∧ (names = [] ∨ ∃ cs, descend t (pre ++ names) = Some (Dir cs)) ∨
   ∃ t', at_tree t' fs' ∧ descend t' (pre ++ names) = Some (Dir [])).
Proof.
  revert t pre fs. induction names as [|y names IH]; intros t pre fs Ht He.
  { simpl in He. simplify_eq. rewrite app_nil_r. auto. }
  change (Normal <$> y :: names) with (Normal y :: (Normal <$> names)) in He. cbn [descend_handles app] in He.
  apply exec_bind_inv in He as (r & fs1 & He1 & He).
  unfold io in He1. cbn [exec app] in He1. change (perform (MkDir ?p) fs) with (create p (Dir []) fs) in He1.
  rewrite (create_below t) in He1 by (done || by destruct pre). rewrite removelast_snoc in He1.
  destruct (descend t pre) as [v|] eqn:Hpre; cbn [fmap option_fmap option_map] in He1; [|by simplify_eq/=].
  destruct v as [|cs| |]; cbn [kind] in He1; [by simplify_eq/=| |by simplify_eq/=..].
  destruct (descend t (pre ++ [y])) as [w|] eqn:Hy; cbn [fmap option_fmap option_map] in He1; simplify_eq.
  - apply exec_try_inv in He as ([] & fs2 & Hd & He). apply exec_call_inv in Hd. unfold perform in Hd.
    rewrite (metadata_below _ (pre ++ [y]) _ Ht), Hy in Hd. cbn [fmap option_fmap option_map] in Hd.
    destruct w as [|cs'| |]; cbn [kind] in Hd; simplify_eq. eapply IH in He as [-> He]; [|exact Ht].
    rewrite <-!app_assoc in *. split; [done|]. destruct He as [(-> & H)|H]; [left|by right].
    split; [done|]. right. destruct H as [->|H]; [|done]. by eexists.
  - assert (can_put t (pre ++ [y])) as Hput by (exists cs; by rewrite removelast_snoc).
    pose proof (descend_put_eq t (pre ++ [y]) (Dir []) ltac:(by destruct pre) Hput) as Hnew.
    apply exec_try_inv in He as ([] & fs2 & Hd & He). apply exec_call_inv in Hd. unfold perform in Hd.
    pose proof (at_with_tree (put t (pre ++ [y]) (Dir [])) fs) as Hat.
    rewrite (metadata_below _ (pre ++ [y]) _ Hat), Hnew in Hd. cbn [fmap option_fmap option_map kind] in Hd. simplify_eq.
    eapply IH in He as [-> He]; [|exact Hat]. rewrite <-!app_assoc in *. split; [done|]. right.
    destruct He as [(-> & H)|H]; [|done]. eexists. split; [exact Hat|].
    destruct H as [->|[cs' H] ]; [done|]. destruct names as [|z names]; [done|].
    change (pre ++ [y] ++ z :: names) with (pre ++ [y] ++ (z :: names)) in H.
    rewrite app_assoc, descend_app, Hnew in H. done.
Qed.

Lemma parent_of_names names : parent_of (Normal <$> names) = Normal <$> removelast names.
Proof.
  unfold parent_of. induction names as [|x names IH]; [done|]. destruct names as [|y names]; [done|].
  csimpl in *. by rewrite IH.
Qed.

Lemma file_name_snoc names x : file_name (Normal <$> names ++ [x]) = Some x.
Proof. unfold file_name. rewrite fmap_app. csimpl. by rewrite last_snoc. Qed.

Lemma names_valid names : validate_relative_path (Normal <$> names) = Ok tt.
Proof.
  unfold validate_relative_path. assert (existsb (λ c, negb (is_normal c)) (Normal <$> names) = false) as ->; [|done].
  by induction names.
Qed.

Lemma join_names base names : join base (Normal <$> names) = base ++ names.
Proof. unfold join. f_equal. induction names as [|x names IH]; [done|]. csimpl. by rewrite IH. Qed.

Lemma descend_above t p q v : descend t (p ++ q) = Some v → q ≠ [] → ∃ cs, descend t p = Some (Dir cs).
Proof.
  rewrite descend_app. destruct (descend t p) as [w|]; [|done]. intros H Hq. simpl in H.
  destruct q as [|x q]; [done|]. destruct w as [|cs| |]; try done. by eexists.
Qed.

(** Checking for links only looks. *)
Lemma reject_from_same current rel fs : ∃ r, exec (reject_reparse_from current rel) fs = (Finished r, fs).
Proof.
  revert current. induction rel as [|c rel IH]; intros current; [by eexists|].
  destruct c as [| | |name]; try by eexists. cbn [reject_reparse_from]. rewrite exec_bind. unfold io.
  cbn [exec]. unfold perform. destruct (metadata (current ++ [name]) fs) as [k|]; cbn [ok_or]; [|by eexists].
  destruct (is_reparse k); [by eexists|]. apply IH.
Qed.

Lemma reject_same base rel fs : ∃ r, exec (reject_reparse_components base rel) fs = (Finished r, fs).
Proof.
  unfold reject_reparse_components. destruct (metadata base fs) as [k|] eqn:E.
  - erewrite exec_try_Ok; [|apply exec_call_Ok; unfold perform; by rewrite E].
    destruct (is_reparse k); [by eexists|apply reject_from_same].
  - erewrite exec_try_Err; [by eexists|]. rewrite exec_call. unfold perform. by rewrite E.
Qed.

Lemma reject_from_Ok t pre names fs :
  at_tree t fs → (∀ i v, descend t (pre ++ take i names) = Some v → kind v ≠ KSymlink) →
  exec (reject_reparse_from (d :: n :: pre) (Normal <$> names)) fs = (Finished (Ok tt), fs).
Proof.
  intros Ht. revert pre. induction names as [|x names IH]; intros pre Hn; [done|].
  change (Normal <$> x :: names) with (Normal x :: (Normal <$> names)). cbn [reject_reparse_from app].
  rewrite exec_bind. unfold io. cbn [exec]. unfold perform. rewrite (metadata_below _ (pre ++ [x]) _ Ht).
  pose proof (Hn 1%nat) as H1. rewrite firstn_cons, take_0 in H1.
  destruct (descend t (pre ++ [x])) as [v|]; cbn [fmap option_fmap option_map ok_or]; [|done].
  unfold is_reparse. rewrite bool_decide_eq_false_2 by by apply H1. apply IH.
  intros i w Hw. apply (Hn (S i)). by rewrite firstn_cons, <-app_assoc in *.
Qed.

Lemma reject_Ok t names fs :
  at_tree t fs → (∀ i v, descend t (take i names) = Some v → kind v ≠ KSymlink) →
  exec (reject_reparse_components [d; n] (Normal <$> names)) fs = (Finished (Ok tt), fs).
Proof.
  intros Ht Hn. unfold reject_reparse_components.
  erewrite exec_try_Ok; [|apply exec_call_Ok; unfold perform; by rewrite (metadata_below t [] fs Ht)].
  cbn [descend kind fmap option_fmap option_map]. unfold is_reparse.
  rewrite bool_decide_eq_false_2 by (apply (Hn 0%nat); done). by apply (reject_from_Ok t []).
Qed.

Lemma file_path_links t names b : descend t names = Some (File b) → ∀ i v, descend t (take i names) = Some v → kind v ≠ KSymlink.
Proof.
  intros H i v Hv. rewrite <-(take_drop i names) in H. destruct (drop i names) as [|x r] eqn:E.
  - rewrite app_nil_r in H. by simplify_eq/=.
  - apply descend_above in H as [cs Hc]; [|done]. by simplify_eq/=.
Qed.

(** ** Opening the parent *)

Lemma open_parent_exec cs0 names fs :
  let t := Dir cs0 in
  at_tree t fs → (∀ i, dir_or_none (descend t (take i names))) →
  exec (securely_open_unix_parent [d; n] (Normal <$> names)) fs =
  (Finished (Ok (d :: n :: names)), with_tree (mkdirs t [] names) fs).
Proof.
  intros t Ht Hn. unfold securely_open_unix_parent.
  assert (perform (OpenDir [d; n]) fs = (Ok tt, fs)) as H1 by (unfold perform; by rewrite (metadata_below t [] fs Ht)).
  assert (perform (HandleMetadata [d; n]) fs = (Ok (KDir, file_len [d; n] fs), fs)) as H2
    by (unfold perform; by rewrite (metadata_below t [] fs Ht)).
  rewrite (exec_try_Ok _ _ _ _ _ (exec_call_Ok _ _ _ _ H1)), (exec_try_Ok _ _ _ _ _ (exec_call_Ok _ _ _ _ H2)).
  cbn [fst]. change (is_reparse KDir) with false. cbv iota.
  erewrite exec_try_Ok; [|rewrite (exec_try_Ok _ _ _ _ _ (exec_call_Ok _ _ _ _ H2)); reflexivity].
  cbn [fst]. change (negb (is_dir KDir)) with false. cbv iota.
  apply (descend_handles_exec t []); [done|by eexists|done].
Qed.

Lemma open_parent_inv t names fs x fs' :
  at_tree t fs → exec (securely_open_unix_parent [d; n] (Normal <$> names)) fs = (Finished (Ok x), fs') →
  x = d :: n :: names ∧
  (fs' = fs ∧ (names = [] ∨ ∃ cs, descend t names = Some (Dir cs)) ∨
   ∃ t', at_tree t' fs' ∧ descend t' names = Some (Dir [])).
Proof.
  intros Ht He. unfold securely_open_unix_parent in He.
  apply exec_try_inv in He as ([] & fs1 & H1 & He). apply exec_call_inv in H1. unfold perform in H1.
  injection H1 as _ <-.
  apply exec_try_inv in He as (m & fs1 & H1 & He). apply exec_call_inv in H1. unfold perform in H1. injection H1 as _ <-.
  apply exec_try_inv in He as (u & fs1 & H1 & He).
  assert (fs1 = fs) as ->.
  { destruct (is_reparse m.1); [by simplify_eq/=|].
    apply exec_try_inv in H1 as (m' & fs2 & H2 & H1). apply exec_call_inv in H2. unfold perform in H2.
    injection H2 as _ <-. by simplify_eq/=. }
  destruct u; [done|]. by apply (descend_handles_inv t []) in He.
Qed.

Lemma mkdirs_same t pre names :
  (∀ i, is_Some (descend t (pre ++ take i names))) → mkdirs t pre names = t.
Proof.
  revert pre. induction names as [|x names IH]; intros pre Hn; [done|]. cbn [mkdirs].
  pose proof (Hn 1%nat) as [v Hv]. rewrite firstn_cons, take_0 in Hv. rewrite Hv. apply IH.
  intros i. specialize (Hn (S i)). by rewrite firstn_cons, <-app_assoc in *.
Qed.

(** ** Opening a file *)

Lemma open_existing_Ok t names x b fs :
  at_tree t fs → descend t (names ++ [x]) = Some (File b) →
  exec (securely_open_existing_file [d; n] (Normal <$> names ++ [x])) fs = (Finished (Ok (d :: n :: names ++ [x])), fs).
Proof.
  intros Ht Hf. assert (∀ i, ∃ cs, descend t (take i names) = Some (Dir cs)) as Hdirs.
  { intros i. apply (descend_above t (take i names) (drop i names ++ [x]) (File b)); [|by destruct (drop i names)].
    by rewrite app_assoc, take_drop. }
  destruct (Hdirs 0%nat) as [cs0 Hroot]. rewrite take_0 in Hroot. cbn [descend] in Hroot. injection Hroot as ->.
  unfold securely_open_existing_file. rewrite parent_of_names, removelast_snoc.
  erewrite exec_try_Ok; [|apply (open_parent_exec cs0); [done|intros i; right; apply Hdirs] ].
  rewrite mkdirs_same, with_tree_same by (done || (intros i; cbn [app]; destruct (Hdirs i) as [? ->]; done)).
  unfold leaf. rewrite file_name_snoc. erewrite exec_try_Ok; [|done]. cbn [app].
  erewrite exec_try_Ok; [done|]. apply exec_call_Ok. unfold perform. by rewrite (metadata_below _ (names ++ [x]) _ Ht), Hf.
Qed.

Lemma open_existing_inv t names x fs f fs' :
  at_tree t fs → exec (securely_open_existing_file [d; n] (Normal <$> names ++ [x])) fs = (Finished (Ok f), fs') →
  f = d :: n :: names ++ [x] ∧ fs' = fs ∧ ∃ v, descend t (names ++ [x]) = Some v.
Proof.
  intros Ht He. unfold securely_open_existing_file in He. rewrite parent_of_names, removelast_snoc in He.
  apply exec_try_inv in He as (dir & fs1 & H1 & He). apply (open_parent_inv t) in H1 as [-> Hdir]; [|done].
  unfold leaf in He. rewrite file_name_snoc in He. erewrite exec_try_Ok in He; [|done]. cbn [app] in He.
  apply exec_try_inv in He as ([] & fs2 & H2 & He). apply exec_call_inv in H2. unfold perform in H2.
  destruct (metadata (d :: n :: names ++ [x]) fs1) as [k|] eqn:Hm; [|done].
  assert (fs2 = fs1) as -> by (destruct k; by simplify_eq). cbn [exec] in He. simplify_eq. split; [done|].
  destruct Hdir as [[-> _]|(t' & Ht' & Hd)].
  - split; [done|]. rewrite (metadata_below _ (names ++ [x]) _ Ht) in Hm. destruct (descend t (names ++ [x])); [by eexists|done].
  - rewrite (metadata_below _ (names ++ [x]) _ Ht'), descend_app, Hd in Hm. done.
Qed.

Lemma handle_metadata_exec t p v fs :
  at_tree t fs → descend t p = Some v →
  perform (HandleMetadata (d :: n :: p)) fs =
  (Ok (kind v, match v with File b => str_len b | _ => 0%N end), fs).
Proof.
  intros Ht Hv. unfold perform. rewrite (metadata_below _ _ _ Ht), Hv. unfold file_len.
  rewrite (node_at_below _ _ _ Ht), Hv. done.
Qed.

Lemma open_contained_Ok t names x b size fs :
  at_tree t fs → descend t (names ++ [x]) = Some (File b) → str_len b = size →
  exec (open_contained_regular_file [d; n] (Normal <$> names ++ [x]) size) fs = (Finished (Ok (d :: n :: names ++ [x])), fs).
Proof.
  intros Ht Hf Hs. unfold open_contained_regular_file. rewrite names_valid.
  erewrite exec_try_Ok; [|done]. erewrite exec_try_Ok; [|by eapply reject_Ok, file_path_links].
  erewrite exec_try_Ok; [|by eapply open_existing_Ok].
  erewrite exec_try_Ok; [|apply exec_call_Ok, (handle_metadata_exec t (names ++ [x])); done].
  cbn [fst snd kind]. rewrite Hs, N.eqb_refl. done.
Qed.

Lemma open_contained_inv t names x size fs f fs' :
  at_tree t fs → exec (open_contained_regular_file [d; n] (Normal <$> names ++ [x]) size) fs = (Finished (Ok f), fs') →
  f = d :: n :: names ++ [x] ∧ fs' = fs ∧ ∃ b, descend t (names ++ [x]) = Some (File b) ∧ str_len b = size.
Proof.
  intros Ht He. unfold open_contained_regular_file in He. rewrite names_valid in He.
  erewrite exec_try_Ok in He; [|done]. apply exec_try_inv in He as ([] & fs1 & H1 & He).
  destruct (reject_same [d; n] (Normal <$> names ++ [x]) fs) as [r Hr]. rewrite Hr in H1. simplify_eq.
  apply exec_try_inv in He as (f' & fs2 & H2 & He). apply (open_existing_inv t) in H2 as (-> & -> & v & Hv); [|done].
  erewrite exec_try_Ok in He; [|apply exec_call_Ok, (handle_metadata_exec t (names ++ [x])); done].
  destruct v as [b|cs| |]; cbn [fst snd kind] in He; try by simplify_eq/=.
  change (is_reparse KFile || negb (is_file KFile)) with false in He. cbn [orb] in He.
  destruct (N.eqb_spec (str_len b) size); simplify_eq/=. eauto.
Qed.

(** ** Reading it *)

Lemma read_chunk_exec t p b off lim fs :
  at_tree t fs → descend t p = Some (File b) →
  perform (ReadChunk (d :: n :: p) off lim) fs = (Ok (String.substring (N.to_nat off) (N.to_nat lim) b), fs).
Proof. intros Ht Hp. unfold perform. by rewrite (node_at_below _ _ _ Ht), Hp. Qed.

(** A quiet file of the declared length is read to its end, chunk by chunk. *)
Lemma hash_chunks_exec fuel cancelled t p b total fs :
  (∀ fs, exec cancelled fs = (Finished (Ok false), fs)) →
  at_tree t fs → descend t p = Some (File b) → (str_len b < u64_max)%N → (total <= str_len b)%N →
  (N.to_nat (str_len b - total) + 2 ≤ fuel)%nat →
  exec (hash_chunks fuel cancelled (d :: n :: p) (str_len b) (str_len b + 1) total (String.substring 0 (N.to_nat total) b)) fs =
  (Finished (Ok (Some (str_len b, b))), fs).
Proof.
  intros Hc Ht Hp Hmax. revert total. induction fuel as [|fuel IH]; intros total Htot Hf; [lia|].
  cbn [hash_chunks]. erewrite exec_try_Ok; [|apply Hc]. cbv iota. unfold saturating_sub.
  destruct (N.eqb_spec (str_len b + 1 - total) 0); [lia|].
  set (lim := N.min (str_len b + 1 - total) BUFFER). assert (0 < lim)%N as Hlim by (unfold lim, BUFFER; lia).
  erewrite exec_try_Ok; [|by apply exec_call_Ok, (read_chunk_exec t p b)].
  set (chunk := String.substring (N.to_nat total) (N.to_nat lim) b).
  assert (str_len chunk = N.min lim (str_len b - total)) as Hlen.
  { unfold chunk, str_len. rewrite substring_length. unfold str_len in *. lia. }
  destruct (str_is_empty chunk) eqn:He.
  - assert (total = str_len b) as ->.
    { destruct chunk; [|done]. unfold str_len in Hlen at 1. simpl in Hlen. lia. }
    unfold str_len at 2. rewrite Nat2N.id, substring_all by done. done.
  - apply str_is_empty_len in He. unfold checked_add.
    destruct (N.leb_spec (total + str_len chunk) u64_max); [|lia]. cbn [ok_or].
    erewrite exec_try_Ok; [|done]. destruct (N.ltb_spec (str_len b) (total + str_len chunk)); [lia|].
    assert (String.substring 0 (N.to_nat total) b +:+ chunk = String.substring 0 (N.to_nat (total + str_len chunk)) b) as ->.
    { unfold chunk at 1. rewrite substring_app. destruct (decide (lim <= str_len b - total)%N).
      - f_equal. lia.
      - rewrite !substring_all; [done|unfold str_len in *; lia..]. }
    apply IH; lia.
Qed.

(** What [verify_contained_artifact] decides. *)
Definition file_ok (sha : string → string) (t : Node) (a : Artifact) : Prop :=
  ∃ b, descend t (str_split "/" (path a)) = Some (File b) ∧ str_len b = size a ∧ sha b = sha256 a.

Lemma str_split_snoc c s : ∃ names x, str_split c s = names ++ [x].
Proof.
  destruct (str_split c s) as [|y l] eqn:E.
  - destruct s; simpl in E; [done|]. destruct (Ascii.eqb _ _); [done|]. by destruct (str_split c s).
  - destruct (exists_last (l := y :: l)) as (names & x & ->); [done|]. eauto.
Qed.

Lemma verify_exec sha cancelled t a fs :
  (∀ fs, exec cancelled fs = (Finished (Ok false), fs)) → halts cancelled →
  at_tree t fs → contained (path a) → (size a < u64_max)%N →
  ∃ r fs', exec (verify_contained_artifact sha cancelled [d; n] a) fs = (Finished r, fs') ∧
           (r = Ok true ↔ file_ok sha t a) ∧ (r = Ok true → fs' = fs).
Proof.
  intros Hc Hh Ht [Hcomp _ _ _] Hsize.
  destruct (halts_exec _ fs (halts_verify sha cancelled [d; n] a Hh)) as (r & fs' & He). exists r, fs'. split; [done|].
  unfold verify_contained_artifact in He. rewrite Hcomp in He.
  destruct (str_split_snoc "/" (path a)) as (names & x & Hnames). rewrite Hnames in He.
  rewrite exec_bind in He. unfold file_ok. rewrite Hnames.
  destruct (exec (open_contained_regular_file _ _ _) fs) as [[[f|e]| |] fs1] eqn:Ho; [| |done|done].
  - apply (open_contained_inv t) in Ho as (-> & -> & b & Hb & Hlen); [|done].
    unfold checked_add in He. destruct (N.leb_spec (size a + 1) u64_max); [|lia]. cbn [ok_or] in He.
    rewrite <-Hlen in He. cbv beta iota in He. erewrite exec_try_Ok in He; [|done].
    erewrite exec_try_Ok in He; [|rewrite <-(substring_0 b); apply (hash_chunks_exec _ _ t _ b 0); [done|done|done|lia|lia|lia] ].
    cbv iota in He. erewrite exec_try_Ok in He; [|apply exec_call_Ok, (handle_metadata_exec t (names ++ [x])); done].
    cbn [fst snd kind exec] in He. change (is_reparse KFile || negb (is_file KFile)) with false in He.
    rewrite !N.eqb_refl in He. cbn [orb negb] in He. simplify_eq. rewrite negb_involutive. split; [|done].
    split; [intros [= Heq%String.eqb_eq]; eauto|]. intros (b' & Hb' & _ & Hs). simplify_eq. f_equal. by apply String.eqb_eq.
  - cbn [exec] in He. simplify_eq. split.
    + split; [by destruct (is_not_found e || is_invalid e)|]. intros (b & Hb & Hl & _).
      rewrite (open_contained_Ok t names x b (size a) fs Ht Hb Hl) in Ho. done.
    + by destruct (is_not_found e || is_invalid e).
Qed.

(** ** The identity record *)

Lemma read_manifest_exec {U : UrlCrate} {J : JsonCrate} t fs :
  tops fs !! d = Some KDir → at_tree t fs →
  exec (read_contained_manifest [d; n]) fs = (Finished (stored_manifest t), fs).
Proof.
  intros Hd Ht. unfold read_contained_manifest, call_or.
  assert (∀ R (o : Op R) (e : Error) r (k : R → prog (result Error Manifest)), perform o fs = (r, fs) →
    exec (try (prog_bind (io o) (λ r, Ret (map_err (λ _, e) r))) k) fs =
    match r with Ok a => exec (k a) fs | Err _ => (Finished (Err e), fs) end) as Hcall.
  { intros R o e r k Hp. unfold try. rewrite !exec_bind. unfold io. cbn [exec]. rewrite Hp. by destruct r. }
  rewrite (Hcall _ _ _ (Ok (kind t))) by (unfold perform; by rewrite (metadata_below t [] _ Ht)).
  destruct t as [b0|cs| |]; try done. cbn [kind]. change (is_reparse KDir || negb (is_dir KDir)) with false. cbv iota.
  assert (perform (Canonicalize [d; n]) fs = (Ok (Some [d; n]), fs)) as Hcan.
  { unfold perform. rewrite (metadata_below _ [] _ Ht). cbn [descend fmap option_fmap option_map kind].
    by rewrite (linked_entry d n cs). }
  rewrite (Hcall _ _ _ _ _ Hcan). cbn [app].
  pose proof (metadata_below _ [MANIFEST_FILE] _ Ht) as Hm. cbn [descend] in Hm. unfold stored_manifest.
  destruct (child MANIFEST_FILE cs) as [v|] eqn:Hch; cbn [mbind option_bind fmap option_fmap option_map] in Hm.
  2: { erewrite Hcall by (unfold perform; by rewrite Hm). done. }
  assert (descend (Dir cs) [MANIFEST_FILE] = Some v) as Hv by (cbn [descend]; by rewrite Hch).
  destruct v as [b|cs'| |]; cbn [kind] in Hm.
  4, 3, 2: erewrite Hcall by (unfold perform; by rewrite Hm); try done;
    rewrite (Hcall _ _ _ _ _ (handle_metadata_exec _ _ _ _ Ht Hv)); done.
  erewrite Hcall by (unfold perform; by rewrite Hm).
  rewrite (Hcall _ _ _ _ _ (handle_metadata_exec _ _ _ _ Ht Hv)). cbn [fst snd kind].
  change (is_reparse KFile || negb (is_file KFile)) with false. cbn [orb].
  destruct (N.ltb_spec MAX_MANIFEST_BYTES (str_len b)) as [|Hlen]; [done|]. cbn [negb].
  unfold try_from. destruct (N.leb_spec (str_len b) usize_max) as [|Hbig].
  2: { unfold MAX_MANIFEST_BYTES, usize_max, u64_max in *. lia. }
  cbn [ok_or]. erewrite exec_try_Ok; [|done]. rewrite (Hcall _ _ _ _ _ (read_chunk_exec _ _ _ _ _ _ Ht Hv)).
  rewrite substring_all by (unfold str_len in *; lia).
  rewrite (Hcall _ _ _ _ _ (handle_metadata_exec _ _ _ _ Ht Hv)). cbn [fst snd kind].
  change (is_reparse KFile || negb (is_file KFile)) with false. cbn [orb].
  destruct (N.ltb_spec MAX_MANIFEST_BYTES (str_len b)); [lia|]. rewrite !N.eqb_refl. cbn [orb negb].
  rewrite (Hcall _ _ _ _ _ Hcan). rewrite bool_decide_eq_false_2 by (intros H'; by apply H'). done.
Qed.

End below.

Lemma artifact_bytes_run sha m root relative fates fs bytes fs' :
  run fates (artifact_bytes sha m root relative) fs = (Finished (Ok bytes), fs') →
  ∃ a, a ∈ artifacts m ∧ path a = relative ∧ str_len bytes = size a ∧ sha bytes = sha256 a.
Proof.
  intros Hrun. assert (∀ fs, wp true (artifact_bytes sha m root relative) (λ _, True) (λ r _, ∀ b, r = Ok b →
    ∃ a, a ∈ artifacts m ∧ path a = relative ∧ str_len b = size a ∧ sha b = sha256 a) fs) as Hwp.
  { clear. intros fs. unfold artifact_bytes. destruct (List.find _ _) as [a|] eqn:Hf; [|by intros b]. cbn [ok_or].
    apply List.find_some in Hf as [Ha%list_elem_of_In Hp%String.eqb_eq].
    apply wp_try. cbn [wp]. apply wp_try. eapply wp_mono; [apply halts_open_contained|done|].
    intros [file|e] s _; [|by intros b]. unfold try_from. destruct (_ <=? _)%N; [|by intros b].
    apply wp_try. cbn [ok_or wp]. apply wp_try. destruct (checked_add _ _ _) as [lim|]; [|by intros b]. cbn [ok_or wp].
    apply wp_try. eapply wp_mono; [apply halts_lift, halts_io|done|]. intros [b|e] s1 _; [|by intros b].
    apply wp_try. eapply wp_mono; [apply halts_lift, halts_io|done|]. intros [final|e] s2 _; [|by intros b'].
    destruct (_ || _) eqn:Hc; intros b' [= <-]. exists a. inv_bool. done. }
  pose proof (wp_run _ _ _ _ fates (Hwp fs)) as H. rewrite Hrun in H. by apply H.
Qed.

(** Verified bytes are authentic.  Whatever happens to the files while they are read,
    if [artifact_bytes] returns, it returns an artifact the manifest declares, of exactly
    the declared length and digest. *)
Theorem artifact_bytes_authentic sha m root relative fates fs bytes fs' :
  run fates (artifact_bytes sha m root relative) fs = (Finished (Ok bytes), fs') →
  ∃ a, a ∈ artifacts m ∧ path a = relative ∧ str_len bytes = size a ∧ sha bytes = sha256 a.
Proof. apply artifact_bytes_run. Qed.

End Files.
