(* ===== verification/Store.v ===== *)
(** The model store ([impossible-models/src/store.rs]): status, verified capabilities,
    import, discovery and deletion, and the locks that serialize them.

    The operations are programs over [Disk] composed of the transactions of [Cache] and
    the file operations of [Files]; the manifest's key comes from [Identity]. *)

From Stdlib Require Import NArith Lia Ascii.
From stdpp Require Import base strings gmap list.
From S2P Require Import Prelude Core Std Config Manifest Disk Cache Identity Files.
Import Manifest Disk Cache Files.

Local Open Scope string_scope.
Local Open Scope list_scope.
Local Open Scope rust_scope.

Module Store.

Definition LOCK_WAIT_LIMIT : N := 1000.
Definition MAX_DISCOVERY_ROOTS : N := 64.
Definition MAX_DISCOVERY_ENTRIES : N := 1024.

(** * Locks

    A lock attempt is observed: it is granted, contended, or fails; [clock] is the time
    (in milliseconds) each [Instant::now()] of the loop reads, [cancels] what the
    caller's cancellation answers.  The attempts of one call, in order. *)

Inductive LockReply := Granted | Contended | LockFails (e : Error).

Record LockObs := mk_LockObs {
  lock_parent : result Error unit;    (* create_dir_all(parent), reject_reparse_components *)
  lock_metadata : result Error (option Kind);
  parent_metadata : result Error Kind;
  attempts : list LockReply;
  cancels : list bool;
  start : N;
  clock : list N;
}.

Fixpoint lock_attempts (deadline : N) (replies : list LockReply) (cancels : list bool) (clock : list N)
    : option (result Error unit) :=
  match replies with
  | [] => None
  | reply :: replies =>
    if hd false cancels then Some (Err ECancelled) else
    match reply with
    | Granted => Some (Ok tt)
    | LockFails e => Some (Err e)
    | Contended =>
      match clock with
      | [] => None
      | now :: clock =>
        if (deadline <=? now)%N then Some (Err EBusy) else lock_attempts deadline replies (tl cancels) clock
      end
    end
  end.

Definition acquire_store_lock_with_cancel (o : LockObs) : option (result Error unit) :=
  match (let? _ := lock_parent o in let? m := lock_metadata o in let? p := parent_metadata o in Ok (m, p)) with
  | Err e => Some (Err e)
  | Ok (m, p) =>
    if is_reparse p || (match m with Some k => is_reparse k | None => false end)
    then Some (Err (EInvalid "model lock path cannot be a symlink"))
    else lock_attempts (start o + LOCK_WAIT_LIMIT) (attempts o) (cancels o) (clock o)
  end.

(** The lock of an installation ([acquire_lock] of [install.rs]).  An attempt opens the file
    and tries the lock, with the same answer to contention of either; unlike above, the
    caller's cancellation is looked at only when an attempt was contended. *)
Fixpoint install_attempts (deadline : N) (replies : list LockReply) (cancels : list bool) (clock : list N)
    : option (result Error unit) :=
  match replies with
  | [] => None
  | Granted :: _ => Some (Ok tt)
  | LockFails e :: _ => Some (Err e)
  | Contended :: replies =>
    if hd false cancels then Some (Err ECancelled) else
    match clock with
    | [] => None
    | now :: clock =>
      if (deadline <=? now)%N then Some (Err EBusy) else install_attempts deadline replies (tl cancels) clock
    end
  end.

Definition acquire_lock (o : LockObs) : option (result Error unit) :=
  match (let? _ := lock_parent o in lock_metadata o) with
  | Err e => Some (Err e)
  | Ok m =>
    if match m with Some k => is_reparse k | None => false end
    then Some (Err (EInvalid "lock file cannot be a symlink or reparse point"))
    else install_attempts (start o + LOCK_WAIT_LIMIT) (attempts o) (cancels o) (clock o)
  end.

(** The shared lease of a runtime: the file is opened once, then the lock is tried. *)
Fixpoint shared_attempts (deadline : N) (replies : list LockReply) (clock : list N) : option (result Error unit) :=
  match replies with
  | [] => None
  | Granted :: _ => Some (Ok tt)
  | LockFails e :: _ => Some (Err e)
  | Contended :: replies =>
    match clock with
    | [] => None
    | now :: clock => if (now <? deadline)%N then shared_attempts deadline replies clock else Some (Err EBusy)
    end
  end.

Definition acquire_shared_store_lock (o : LockObs) (opened : result Error unit) : option (result Error unit) :=
  match (let? _ := lock_parent o in lock_metadata o) with
  | Err e => Some (Err e)
  | Ok m =>
    if match m with Some k => is_reparse k | None => false end
    then Some (Err (EInvalid "model lock path cannot be a reparse point")) else
    match opened with
    | Err e => Some (Err e)
    | Ok _ => shared_attempts (start o + LOCK_WAIT_LIMIT) (attempts o) (clock o)
    end
  end.

(** Deletion does not wait. *)
Definition acquire_delete_lock (o : LockObs) (opened : result Error unit) (reply : LockReply) : result Error unit :=
  let? _ := lock_parent o in
  let? m := lock_metadata o in
  ensure negb (match m with Some k => is_reparse k | None => false end)
    else EInvalid "model lock path cannot be a reparse point" in
  let? _ := opened in
  match reply with
  | Granted => Ok tt
  | Contended => Err EInUse
  | LockFails e => Err e
  end.

(** * Operations *)

Section store.
Context {U : UrlCrate} {J : JsonCrate}.
Context (sha256_hex : string → string) (to_vec : Identity.SemanticContract → result string string).
Context (trust_root : Identity.TrustRoot) (pid : N) (fuel : nat).

Definition key := Identity.key sha256_hex to_vec.
Definition never : prog (result Error bool) := Ret (Ok false).

(** A shared or exclusive lock is held by the returned guard until it is dropped; the
    argument of an operation is what acquiring it answered. *)
Definition Lock := result Error unit.

Fixpoint verify_artifacts (cancelled : prog (result Error bool)) (directory : Path) (l : list Artifact)
    : prog (result Error bool) :=
  match l with
  | [] => Ret (Ok true)
  | a :: l =>
    do? ok := verify_contained_artifact sha256_hex cancelled directory a in
    if ok : bool then verify_artifacts cancelled directory l else Ret (Ok false)
  end.

Definition status_inner (m : Manifest) (cancelled : prog (result Error bool)) : prog (result Error ModelVerificationStatus) :=
  do? k := Ret (key m) in
  let directory := model_dir k in
  prog_bind (reject_reparse_components [] (map Normal directory)) (λ r,
    match r with
    | Err _ => Ret (Ok Invalid)
    | Ok _ =>
      prog_bind (io (SymlinkMetadata directory)) (λ r,
        match r with
        | Err NotFound => Ret (Ok Missing)
        | Err e => Ret (Err (of_io e))
        | Ok kind =>
          if is_reparse kind || negb (is_dir kind) then Ret (Ok Invalid) else
          prog_bind (read_contained_manifest directory) (λ r,
            match r with
            | Ok stored =>
              if bool_decide (stored = m) then
                do? intact := verify_artifacts cancelled directory (artifacts stored) in
                if intact : bool then
                  do? trusted := Ret (Identity.trusts sha256_hex to_vec trust_root stored) in
                  Ret (Ok (if trusted : bool then Loadable else IntegrityVerified))
                else Ret (Ok Invalid)
              else Ret (Ok Invalid)
            | Err _ => Ret (Ok Invalid)
            end)
        end)
    end).

Definition status_with_cancel (m : Manifest) (cancelled : prog (result Error bool)) (lock : Lock)
    : prog (result Error ModelVerificationStatus) :=
  do? _ := Ret (validate m) in
  do? stop := cancelled in
  if stop : bool then Ret (Err ECancelled) else
  do? k := Ret (key m) in
  do? _ := prog_bind (io (SymlinkMetadata (repair_marker k))) (λ r,
    match r with
    | Ok _ => do? _ := Ret lock in reconcile_repair k pid fuel
    | Err NotFound => Ret (Ok tt)
    | Err e => Ret (Err (of_io e))
    end) in
  status_inner m cancelled.

Definition status (m : Manifest) (lock : Lock) : prog (result Error ModelVerificationStatus) :=
  status_with_cancel m never lock.
Definition verify (m : Manifest) (lock : Lock) : prog (result Error ModelVerificationStatus) := status m lock.

(** The capability: the manifest and the directory it was verified in. *)
Record VerifiedModel := mk_VerifiedModel { vm_manifest : Manifest; vm_root : Path }.

Definition status_name (s : ModelVerificationStatus) : string :=
  match s with
  | Missing => "Missing" | Invalid => "Invalid" | IntegrityVerified => "IntegrityVerified" | Loadable => "Loadable"
  end.

(** One round per pair of locks: the repair lock and the shared lease. *)
Fixpoint verified_rounds (m : Manifest) (k : string) (rounds : list (Lock * Lock)) : prog (result Error VerifiedModel) :=
  match rounds with
  | [] => Diverge
  | (repair_lock, lease) :: rounds =>
    do? _ := prog_bind (io (SymlinkMetadata (repair_marker k))) (λ r,
      match r with
      | Ok _ => do? _ := Ret repair_lock in reconcile_repair k pid fuel
      | Err NotFound => Ret (Ok tt)
      | Err e => Ret (Err (of_io e))
      end) in
    do? _ := Ret lease in
    prog_bind (io (SymlinkMetadata (repair_marker k))) (λ r,
      match r with
      | Ok _ => verified_rounds m k rounds
      | Err NotFound =>
        do? s := status_inner m never in
        Ret (if bool_decide (s = Loadable) then Ok (mk_VerifiedModel m (model_dir k))
             else Err (EInvalid ("model is not loadable after verification: " +:+ status_name s)))
      | Err e => Ret (Err (of_io e))
      end)
  end.

Definition verified_model (m : Manifest) (rounds : list (Lock * Lock)) : prog (result Error VerifiedModel) :=
  do? _ := Ret (validate m) in
  do? k := Ret (key m) in
  verified_rounds m k rounds.

(** [VerifiedModel::revalidate_integrity] *)
Fixpoint revalidate_artifacts (root : Path) (l : list Artifact) : prog (result Error unit) :=
  match l with
  | [] => Ret (Ok tt)
  | a :: l =>
    do? ok := verify_contained_artifact sha256_hex never root a in
    if ok : bool then revalidate_artifacts root l else Ret (Err (EInvalid "artifact changed after verification"))
  end.
Definition revalidate_integrity (v : VerifiedModel) : prog (result Error unit) :=
  do? stored := read_contained_manifest (vm_root v) in
  if bool_decide (stored ≠ vm_manifest v) then Ret (Err (EInvalid "stored manifest changed after verification"))
  else revalidate_artifacts (vm_root v) (artifacts stored).

(** ** Import *)

Definition installed (s : ModelVerificationStatus) : bool :=
  match s with IntegrityVerified | Loadable => true | _ => false end.

(** The import source: the checked directory, and for each artifact the checks of its path
    (no links, canonical path below the source) and its handle. *)
Record Source := mk_Source {
  source_checked : result Error unit;
  source_artifact : Artifact → result Error unit * SourceFile;
}.

Fixpoint copy_artifacts (src : Source) (staging : Path) (l : list Artifact) : prog (result Error unit) :=
  match l with
  | [] => Ret (Ok tt)
  | a :: l =>
    let '(checked, file) := source_artifact src a in
    let relative := components (path a) in
    do? _ := Ret checked in
    do? _ := map_err_prog (create_contained_parent_directories staging relative)
               (stable_import_destination_error staging relative) in
    do? _ := copy_import_artifact sha256_hex file staging relative a in
    copy_artifacts src staging l
  end.

Definition write_manifest (m : Manifest) (staging : Path) : prog (result Error unit) :=
  let relative := [Normal MANIFEST_FILE] in
  do? _ := map_err_prog (create_contained_parent_directories staging relative)
             (stable_import_destination_error staging relative) in
  do? file := map_err_prog (create_new_contained_file staging relative)
                (stable_import_destination_error staging relative) in
  do? json := Ret (to_json m) in
  do? _ := call (WriteAll file json) in
  call (SyncFile file).

(** The closure whose failure removes the staging directory. *)
Definition stage_and_promote (m : Manifest) (k : string) (src : Source) : prog (result Error unit) :=
  do? _ := copy_artifacts src (staging_dir k) (artifacts m) in
  do? _ := write_manifest m (staging_dir k) in
  promote k pid fuel (staging_dir k).

(** The locks of an import: for its first status, its own, and for its last status. *)
Definition import (m : Manifest) (src : Source) (locks : Lock * Lock * Lock) : prog (result Error ModelVerificationStatus) :=
  let '(first_lock, lock, last_lock) := locks in
  do? _ := Ret (validate m) in
  do? existing := status m first_lock in
  if installed existing then Ret (Ok existing) else
  do? _ := Ret lock in
  do? k := Ret (key m) in
  do? _ := reconcile_repair k pid fuel in
  do? existing := status_inner m never in
  if installed existing then Ret (Ok existing) else
  do? _ := Ret (source_checked src) in
  do? _ := prepare_staging (staging_dir k) in
  prog_bind (stage_and_promote m k src) (λ r,
    match r with
    | Err e => prog_bind (io (RemoveDirAll (staging_dir k))) (λ _, Ret (Err e))
    | Ok _ => status m last_lock
    end).

(** ** Deletion *)

Definition matches_request (m : Manifest) (target : Path) : prog (result Error bool) :=
  do? stored := read_contained_manifest target in
  Ret (Ok (bool_decide (stored = m) &&
           String.eqb (Identity.artifact_fingerprint sha256_hex stored) (Identity.artifact_fingerprint sha256_hex m))).

Definition delete (m : Manifest) (lock : Lock) : prog (result Error bool) :=
  do? _ := Ret (validate m) in
  do? _ := Ret lock in
  do? k := Ret (key m) in
  delete_locked k pid fuel (matches_request m (model_dir k)).

End store.

(** * What the status means *)

Section meaning.
Context {U : UrlCrate} {J : JsonCrate}.
Context (sha256_hex : string → string) (to_vec : Identity.SemanticContract → result string string).
Context (trust_root : Identity.TrustRoot) (pid : N) (fuel : nat).

(** The stored tree is the manifest's: its identity record reads back as it, and every
    artifact is a regular file with the declared length and digest. *)
Record intact (m : Manifest) (t : Node) : Prop := {
  in_manifest : stored_manifest t = Ok m;
  in_artifacts : Forall (file_ok sha256_hex t) (artifacts m);
}.

(** A poll that never disturbs: no cancellation, or one that has not happened. *)
Definition idle (cancelled : prog (result Error bool)) : Prop :=
  (∀ fs, exec cancelled fs = (Finished (Ok false), fs)) ∧ halts cancelled.

Lemma never_idle : idle never.
Proof. split; [done|]. intros fs. done. Qed.
Lemma poll_idle : idle (call Disk.Cancelled).
Proof. split; [done|]. intros fs. by split_and!. Qed.

Lemma verify_artifacts_exec cancelled k t l fs :
  idle cancelled → at_tree "models" k t fs →
  Forall (λ a, contained (path a) ∧ (size a < u64_max)%N) l →
  ∃ r fs', exec (verify_artifacts sha256_hex cancelled (model_dir k) l) fs = (Finished r, fs') ∧
           (r = Ok true ↔ Forall (file_ok sha256_hex t) l) ∧ (r = Ok true → fs' = fs).
Proof.
  intros [Hc Hh] Ht. induction l as [|a l IH]; intros Hl.
  { exists (Ok true), fs. split; [done|]. split; [|done]. split; [constructor|done]. }
  apply Forall_cons in Hl as [[Ha Hs] Hl]. specialize (IH Hl) as (r & fs' & He & Hr & Hf).
  destruct (verify_exec "models" k sha256_hex cancelled t a fs Hc Hh Ht Ha Hs) as (v & fs1 & Hv & Hok & Hsame).
  cbn [verify_artifacts]. unfold model_dir in *. destruct v as [[]|e].
  - erewrite exec_try_Ok by exact Hv. rewrite Hsame by done. exists r, fs'. split; [done|]. split; [|done].
    rewrite Forall_cons, <-Hr. split; [intros Ho; split; [by apply Hok|done]|by intros [_ ?]].
  - erewrite exec_try_Ok by exact Hv. exists (Ok false), fs1. split; [done|]. split; [|done].
    split; [done|]. intros [Ho _]%Forall_cons. by apply Hok in Ho.
  - erewrite exec_try_Err by exact Hv. exists (Err e), fs1. split; [done|]. split; [|done].
    split; [done|]. intros [Ho _]%Forall_cons. by apply Hok in Ho.
Qed.

Lemma valid_artifacts m : validate m = Ok tt → Forall (λ a, contained (path a) ∧ (size a < u64_max)%N) (artifacts m).
Proof.
  intros Hv. destruct (validate_safe m Hv) as [_ Ht Hc _ _ _ _]. rewrite Forall_forall in *. intros a Ha.
  split; [by apply Hc|]. pose proof (Identity.artifact_size_le _ _ Ha). unfold MAX_TOTAL_ARTIFACT_BYTES in Ht.
  unfold u64_max. lia.
Qed.

Lemma reject_model_dir k v fs :
  tops fs !! "models" = Some KDir → entries fs !! ("models", k) = v →
  exec (reject_reparse_components [] (map Normal (model_dir k))) fs =
  (Finished (match v with Some Symlink => Err (EInvalid "path contains a symlink or reparse point") | _ => Ok tt end), fs).
Proof.
  intros Hd Hv. unfold reject_reparse_components. erewrite exec_try_Ok; [|by apply exec_call_Ok].
  change (is_reparse KDir) with false. cbv iota. cbn [map model_dir reject_reparse_from app]. rewrite exec_bind. unfold io.
  cbn [exec]. unfold perform at 1. cbn [metadata]. rewrite Hd. cbn [ok_or]. change (is_reparse KDir) with false. cbv iota.
  rewrite exec_bind. cbn [exec]. unfold perform. simpl metadata. rewrite Hv. by destruct v as [[]|].
Qed.

Lemma trusts_of_key m k : key sha256_hex to_vec m = Ok k → ∃ b, Identity.trusts sha256_hex to_vec trust_root m = Ok b.
Proof.
  unfold key, Identity.key, Identity.trusts. destruct (semantics_verified m); [|by eexists].
  destruct (Identity.semantic_fingerprint sha256_hex to_vec m); [by eexists|done].
Qed.

Lemma status_inner_exec m k cancelled fs :
  idle cancelled → validate m = Ok tt → key sha256_hex to_vec m = Ok k → tops fs !! "models" = Some KDir →
  ∃ r fs', exec (status_inner sha256_hex to_vec trust_root m cancelled) fs = (Finished r, fs') ∧
    match entries fs !! ("models", k) with
    | None => r = Ok Missing ∧ fs' = fs
    | Some t => ((∃ s, r = Ok s ∧ installed s = true) ↔ intact m t) ∧
                (intact m t → fs' = fs ∧ ∃ b, Identity.trusts sha256_hex to_vec trust_root m = Ok b ∧
                                              r = Ok (if b : bool then Loadable else IntegrityVerified))
    end.
Proof.
  intros Hidle Hvalid Hkey Hd. unfold status_inner. rewrite Hkey. erewrite exec_try_Ok; [|done]. cbv zeta.
  rewrite exec_bind, (reject_model_dir k _ fs Hd eq_refl). destruct (entries fs !! ("models", k)) as [t|] eqn:He.
  2: { eexists (Ok Missing), fs. rewrite exec_bind. unfold io. cbn [exec]. unfold perform. simpl metadata. by rewrite He. }
  assert (stored_manifest t ≠ Ok m → ((∃ s, Ok (E := Error) Invalid = Ok s ∧ installed s = true) ↔ intact m t) ∧
    (intact m t → fs = fs ∧ ∃ b, Identity.trusts sha256_hex to_vec trust_root m = Ok b ∧
       Ok (E := Error) Invalid = Ok (if b : bool then Loadable else IntegrityVerified))) as Hno.
  { intros Hn. split; [|by intros [Hm _]]. split; [by intros (s & [= <-] & ?)|by intros [Hm _]]. }
  assert (perform (SymlinkMetadata (model_dir k)) fs = (Ok (kind t), fs)) as Hm.
  { unfold perform. simpl metadata. by rewrite He. }
  destruct t as [b0|cs| |]; try (exists (Ok Invalid), fs; split; [|by apply Hno]; done ||
    (rewrite exec_bind; unfold io; cbn [exec]; by rewrite Hm)).
  rewrite exec_bind. unfold io. cbn [exec]. rewrite Hm. cbv beta iota. cbn [kind].
  change (is_reparse KDir || negb (is_dir KDir)) with false. cbv iota.
  rewrite exec_bind, (read_manifest_exec "models" k (Dir cs)) by done.
  destruct (stored_manifest (Dir cs)) as [stored|e] eqn:Hst; [|exists (Ok Invalid), fs; split; [done|by apply Hno]].
  destruct (decide (stored = m)) as [->|Hne].
  2: { rewrite bool_decide_eq_false_2 by done. exists (Ok Invalid), fs. split; [done|]. apply Hno. congruence. }
  rewrite bool_decide_eq_true_2 by done.
  destruct (verify_artifacts_exec cancelled k (Dir cs) (artifacts m) fs Hidle He (valid_artifacts m Hvalid))
    as (r & fs' & Hex & Hr & Hsame).
  destruct (trusts_of_key m k Hkey) as [tr Htr]. destruct r as [[]|e].
  - erewrite exec_try_Ok by exact Hex. cbv iota. rewrite Htr. erewrite exec_try_Ok; [|done].
    exists (Ok (if tr then Loadable else IntegrityVerified)), fs'. split; [done|]. split.
    + split; [|intros _; exists (if tr then Loadable else IntegrityVerified); by destruct tr].
      intros _. split; [done|by apply Hr].
    + intros _. split; [by apply Hsame|]. by exists tr.
  - erewrite exec_try_Ok by exact Hex. exists (Ok Invalid), fs'. split; [done|]. split.
    + split; [by intros (s & [= <-] & ?)|]. intros [_ Hf]. by apply Hr in Hf.
    + intros [_ Hf]. by apply Hr in Hf.
  - erewrite exec_try_Err by exact Hex. exists (Err e), fs'. split; [done|]. split.
    + split; [by intros (s & ? & ?)|]. intros [_ Hf]. by apply Hr in Hf.
    + intros [_ Hf]. by apply Hr in Hf.
Qed.

(** Reconciliation before the status: what the marker's presence decides. *)
Lemma reconciled_exec {B} k E V V' (rest : prog (result Error B)) fs :
  room fuel E → viewed k E V fs → resolve V = Some V' →
  ∃ fs', viewed k E V' fs' ∧ (marked V = false → fs' = fs) ∧
    exec (do? _ := prog_bind (io (SymlinkMetadata (repair_marker k))) (λ r,
      match r with
      | Ok _ => do? _ := Ret (Ok tt) in reconcile_repair k pid fuel
      | Err NotFound => Ret (Ok tt)
      | Err e => Ret (Err (of_io e))
      end) in rest) fs = exec rest fs'.
Proof.
  intros Hroom HV Hres. destruct (settling_exec k pid fuel E V' fs Hroom) as (fs1 & He & Hv & _); [by exists V|].
  assert (perform (SymlinkMetadata (repair_marker k)) fs = (ok_or (if marked V then Some KFile else None) NotFound, fs)) as Hm.
  { unfold perform. by rewrite (viewed_marker k E V fs HV). }
  destruct (marked V) eqn:Em.
  - exists fs1. split_and!; [done|done|]. erewrite exec_try_Ok; [reflexivity|]. rewrite exec_bind. unfold io. cbn [exec]. rewrite Hm. exact He.
  - unfold resolve in Hres. rewrite Em in Hres. simplify_eq. exists fs. split_and!; [done|done|].
    erewrite exec_try_Ok; [reflexivity|]. rewrite exec_bind. unfold io. cbn [exec]. by rewrite Hm.
Qed.

(** Nothing installed and nothing to settle: the disk is left alone. *)
Lemma status_missing m k E V cancelled fs :
  idle cancelled → validate m = Ok tt → key sha256_hex to_vec m = Ok k → room fuel E → viewed k E V fs →
  marked V = false → final V = None →
  exec (status_with_cancel sha256_hex to_vec trust_root pid fuel m cancelled (Ok tt)) fs = (Finished (Ok Missing), fs) ∧
  exec (status_inner sha256_hex to_vec trust_root m cancelled) fs = (Finished (Ok Missing), fs).
Proof.
  intros Hidle Hvalid Hkey Hroom HV Hm Hf.
  assert (exec (status_inner sha256_hex to_vec trust_root m cancelled) fs = (Finished (Ok Missing), fs)) as Hi.
  { destruct (status_inner_exec m k cancelled fs Hidle Hvalid Hkey) as (r & fs' & He & Hr); [apply HV|].
    pose proof (vw_final _ _ _ _ HV) as Hfin. simpl in Hfin. rewrite Hfin, Hf in Hr. destruct Hr as [-> ->]. done. }
  split; [|done]. unfold status_with_cancel. rewrite Hvalid, Hkey.
  erewrite exec_try_Ok; [|done]. erewrite exec_try_Ok; [|apply Hidle]. cbv iota. erewrite exec_try_Ok; [|done]. cbv beta. unfold Lock.
  destruct (reconciled_exec k E V V (status_inner sha256_hex to_vec trust_root m cancelled) fs Hroom HV) as (fs1 & Hv1 & Hsame & ->).
  { unfold resolve. by rewrite Hm. }
  by rewrite Hsame.
Qed.

(** [status], settling first. *)
Lemma status_exec m k E V V' fs :
  validate m = Ok tt → key sha256_hex to_vec m = Ok k →
  room fuel E → viewed k E V fs → resolve V = Some V' →
  ∃ r fs', exec (status sha256_hex to_vec trust_root pid fuel m (Ok tt)) fs = (Finished r, fs') ∧
    match final V' with
    | None => r = Ok Missing
    | Some t => ((∃ s, r = Ok s ∧ installed s = true) ↔ intact m t) ∧
                (intact m t → viewed k E V' fs' ∧
                   ∃ b, Identity.trusts sha256_hex to_vec trust_root m = Ok b ∧
                        r = Ok (if b : bool then Loadable else IntegrityVerified))
    end.
Proof.
  intros Hvalid Hkey Hroom HV Hres. unfold status, status_with_cancel. rewrite Hvalid, Hkey.
  erewrite exec_try_Ok; [|done]. erewrite exec_try_Ok; [|done]. cbv iota. erewrite exec_try_Ok; [|done]. cbv beta. unfold Lock.
  destruct (reconciled_exec k E V V' (status_inner sha256_hex to_vec trust_root m never) fs Hroom HV Hres) as (fs1 & Hv1 & _ & ->).
  destruct (status_inner_exec m k never fs1 never_idle Hvalid Hkey) as (r & fs' & He & Hr).
  { apply Hv1. }
  exists r, fs'. split; [done|]. pose proof (vw_final _ _ _ _ Hv1) as Hf. simpl in Hf. rewrite Hf in Hr.
  destruct (final V') as [t|]; [|by destruct Hr]. destruct Hr as [H1 H2]. split; [done|]. intros Hi.
  destruct (H2 Hi) as [-> Hb]. done.
Qed.


(** Even with the disk disturbed, [Loadable] is only said of a trusted manifest. *)
Lemma status_inner_trusted m cancelled fates fs fs' :
  run fates (status_inner sha256_hex to_vec trust_root m cancelled) fs = (Finished (Ok Loadable), fs') →
  Identity.trusts sha256_hex to_vec trust_root m = Ok true.
Proof.
  unfold status_inner. intros H. apply run_try_inv in H as (k & f1 & s1 & _ & H).
  apply run_bind_inv in H as ([[]|e] & f2 & s2 & _ & H); [|done].
  apply run_bind_inv in H as ([kd|[]] & f3 & s3 & _ & H); [|done..].
  destruct (is_reparse kd || negb (is_dir kd)); [done|].
  apply run_bind_inv in H as ([stored|e] & f4 & s4 & _ & H); [|done].
  destruct (decide (stored = m)) as [->|]; [|by rewrite bool_decide_eq_false_2 in H].
  rewrite bool_decide_eq_true_2 in H by done. apply run_try_inv in H as ([] & f5 & s5 & _ & H); [|done].
  apply run_try_inv in H as (tr & f6 & s6 & Ht & H). simpl in Ht. simplify_eq/=. by destruct tr.
Qed.

Lemma verified_rounds_trusted m k rounds fates fs v fs' :
  run fates (verified_rounds sha256_hex to_vec trust_root pid fuel m k rounds) fs = (Finished (Ok v), fs') →
  Identity.trusts sha256_hex to_vec trust_root m = Ok true ∧ v = mk_VerifiedModel m (model_dir k) ∧
  ∃ lock lease, (lock, lease) ∈ rounds ∧ lease = Ok tt.
Proof.
  revert fates fs. induction rounds as [|[lock lease] rounds IH]; intros fates fs H; [done|].
  cbn [verified_rounds] in H. apply run_try_inv in H as ([] & f1 & s1 & _ & H).
  apply run_try_inv in H as ([] & f2 & s2 & Hl & H). simpl in Hl. simplify_eq.
  apply run_bind_inv in H as ([kd|[]] & f3 & s3 & _ & H); [| |done..].
  - apply IH in H as (H1 & H2 & l & e & H3 & H4). split_and!; [done|done|]. exists l, e. split; [by right|done].
  - apply run_try_inv in H as (s & f4 & s4 & Hs & H). simpl in H.
    destruct (decide (s = Loadable)) as [->|]; [|by rewrite bool_decide_eq_false_2 in H].
    simpl in H. simplify_eq. split_and!; [by eapply status_inner_trusted|done|]. exists lock, (Ok tt). split; [left|done].
Qed.

(** A capability to load a model is only given for a trusted manifest, under a granted
    lease, whatever happens to the disk while it is verified; and its root is the
    directory of that identity. *)
Theorem verified_model_guarded m rounds fates fs v fs' :
  run fates (verified_model sha256_hex to_vec trust_root pid fuel m rounds) fs = (Finished (Ok v), fs') →
  validate m = Ok tt ∧ Identity.trusts sha256_hex to_vec trust_root m = Ok true ∧
  (∃ k, key sha256_hex to_vec m = Ok k ∧ v = mk_VerifiedModel m (model_dir k)) ∧
  ∃ lock lease, (lock, lease) ∈ rounds ∧ lease = Ok tt.
Proof.
  unfold verified_model. intros H. apply run_try_inv in H as ([] & f1 & s1 & Hv & H). simpl in Hv. simplify_eq.
  apply run_try_inv in H as (k & f2 & s2 & Hk & H). simpl in Hk. simplify_eq.
  apply verified_rounds_trusted in H as (Htr & -> & Hl). split_and!; [done|done|by exists k|done].
Qed.

(** What reading the stored manifest for a deletion answers. *)
Lemma matches_answers m k t :
  answers k (matches_request sha256_hex m (model_dir k)) t
    (let? stored := stored_manifest t in
     Ok (bool_decide (stored = m) &&
         String.eqb (Identity.artifact_fingerprint sha256_hex stored) (Identity.artifact_fingerprint sha256_hex m))).
Proof.
  intros fs Ht Hd. eapply still_observes.
  - apply still_try; [apply still_read_manifest|]. intros stored. apply still_ret.
  - unfold matches_request, try. rewrite exec_bind.
    change (model_dir k) with ["models"; k]. rewrite (read_manifest_exec "models" k t fs Hd Ht).
    by destruct (stored_manifest t).
Qed.

(** Deletion follows identity.  On a cache whose repair state can be settled, with
    nothing disturbing it, [delete] removes the installed model iff the identity record
    stored with it reads back as exactly the requested manifest; it refuses any other,
    leaving it as it is, and answers whether there was anything to delete. *)
Theorem delete_exact m k E V V' fs :
  validate m = Ok tt → key sha256_hex to_vec m = Ok k →
  room fuel E → viewed k E V fs → resolve V = Some V' → tomb_ok (E !! tomb k) →
  ∃ r fs', exec (delete sha256_hex to_vec pid fuel m (Ok tt)) fs = (Finished r, fs') ∧
    match final V' with
    | None => r = Ok (bool_decide (is_Some (E !! tomb k))) ∧ viewed k (with_tomb k None E) V' fs'
    | Some t => (stored_manifest t = Ok m → r = Ok true ∧ viewed k (with_tomb k None E) (removed V') fs') ∧
                (stored_manifest t ≠ Ok m → (∃ e, r = Err e) ∧ viewed k (with_tomb k None E) V' fs')
    end.
Proof.
  intros Hvalid Hkey Hroom HV Hres Ht. unfold delete. rewrite Hvalid, Hkey.
  do 3 (erewrite exec_try_Ok; [|done]). cbv beta. set (mt := matches_request sha256_hex m (model_dir k)).
  destruct (final V') as [t|] eqn:Hf.
  - pose proof (matches_answers m k t) as Hans. fold mt in Hans.
    destruct (decide (stored_manifest t = Ok m)) as [Hs|Hs].
    + rewrite Hs in Hans. cbn [result_bind] in Hans. rewrite bool_decide_eq_true_2, String.eqb_refl in Hans by done.
      destruct (delete_exec k pid fuel mt E V V' fs Hroom HV Hres Ht) as (fs2 & He & Hv).
      { intros old. rewrite Hf. by intros [= <-]. }
      rewrite Hf in He. rewrite (bool_decide_eq_true_2 (is_Some (Some t))), orb_true_r in He by done.
      exists (Ok true), fs2. split; [done|]. split; [done|done].
    + assert (is_tree t) as [cs ->].
      { destruct (settling_exec k pid fuel E V' fs Hroom) as (s & _ & Hvs & _); [by exists V|].
        destruct (vw_trees _ _ _ _ Hvs) as [Htree _]. by apply Htree. }
      destruct (delete_refused_exec k pid fuel mt E V V' cs _ fs Hroom HV Hres Ht Hf Hans) as (e & fs' & He & Hv).
      { destruct (stored_manifest (Dir cs)) as [stored|]; [|done]. cbn [result_bind].
        by rewrite bool_decide_eq_false_2 by congruence. }
      exists (Err e), fs'. split; [done|]. split; [done|]. intros _. by eauto.
  - destruct (delete_exec k pid fuel mt E V V' fs Hroom HV Hres Ht) as (fs2 & He & Hv); [by rewrite Hf|].
    rewrite Hf in He. rewrite (bool_decide_eq_false_2 (is_Some None)), orb_false_r in He by by intros [].
    exists (Ok (bool_decide (is_Some (E !! tomb k)))), fs2. split; [done|]. split; [done|].
    unfold removed in Hv. destruct V'; simpl in *; by subst.
Qed.

End meaning.

(** * How long a lock is waited for *)

Lemma lock_attempts_bounded deadline replies cancels clock n :
  (n < length replies)%nat → (n < length clock)%nat →
  (∀ now, clock !! n = Some now → deadline <= now)%N →
  ∃ r, lock_attempts deadline replies cancels clock = Some r ∧
       match r with
       | Ok _ => ∃ i, (i ≤ n)%nat ∧ replies !! i = Some Granted ∧ ∀ j, (j < i)%nat → replies !! j = Some Contended
       | Err EBusy => (∃ i now, clock !! i = Some now ∧ deadline <= now ∧ replies !! i = Some Contended)%N ∨
                      LockFails EBusy ∈ replies
       | _ => True
       end.
Proof.
  revert replies cancels clock. induction n as [|n IH]; intros [|reply replies] cancels [|now clock] Hr Hc Hd; simpl in Hr, Hc; try lia.
  all: cbn [lock_attempts]; destruct (hd false cancels); [by eexists|]; destruct reply as [| |e];
    [exists (Ok tt); split; [done|]; exists 0%nat; split_and!; [lia|done|lia]| |
     exists (Err e); split; [done|]; destruct e; try done; right; left].
  - specialize (Hd now eq_refl). rewrite (proj2 (N.leb_le _ _)) by lia. exists (Err EBusy). split; [done|].
    left. by exists 0%nat, now.
  - destruct (N.leb_spec deadline now) as [Hle|Hgt].
    { exists (Err EBusy). split; [done|]. left. by exists 0%nat, now. }
    destruct (IH replies (tl cancels) clock ltac:(lia) ltac:(lia) Hd) as (r & Hr' & Hs). exists r. split; [done|].
    destruct r as [[]|[]]; try done.
    + destruct Hs as (i & Hi & Hg & Hj). exists (S i). split_and!; [lia|done|]. intros [|j] Hlt; [done|]. apply Hj. lia.
    + destruct Hs as [(i & t & H)|H]; [left; by exists (S i), t|right; by right].
Qed.

(** A store lock is never waited for forever.  The loop sleeps 20 ms between attempts,
    so the [i]-th reading of the clock is at least [20 i] ms after the first; then at most 51
    attempts are made and the call answers: granted only if an attempt was granted after
    contended ones only, and busy only if the one-second deadline had passed at a contended
    attempt. *)
Theorem store_lock_bounded o k :
  lock_parent o = Ok tt → lock_metadata o = Ok None → parent_metadata o = Ok k → k ≠ KSymlink →
  (51 ≤ length (attempts o))%nat → (51 ≤ length (clock o))%nat →
  (∀ i now, clock o !! i = Some now → start o + 20 * N.of_nat i <= now)%N →
  (LockFails EBusy ∉ attempts o) →
  ∃ r, acquire_store_lock_with_cancel o = Some r ∧
       match r with
       | Ok _ => ∃ i, (i ≤ 50)%nat ∧ attempts o !! i = Some Granted ∧ ∀ j, (j < i)%nat → attempts o !! j = Some Contended
       | Err EBusy => ∃ i now, clock o !! i = Some now ∧ (start o + LOCK_WAIT_LIMIT <= now)%N ∧ attempts o !! i = Some Contended
       | _ => True
       end.
Proof.
  intros Hp Hm Hk Hne Ha Hc Hclock Hbusy. unfold acquire_store_lock_with_cancel. rewrite Hp, Hm, Hk. cbn [result_bind].
  unfold is_reparse. rewrite bool_decide_eq_false_2 by done. cbn [orb].
  destruct (lock_attempts_bounded (start o + LOCK_WAIT_LIMIT) (attempts o) (cancels o) (clock o) 50 ltac:(lia) ltac:(lia))
    as (r & Hr & Hs).
  { intros now Hnow. specialize (Hclock _ _ Hnow). unfold LOCK_WAIT_LIMIT. lia. }
  exists r. split; [done|]. destruct r as [[]|[]]; try done. by destruct Hs.
Qed.

(** How attempt [i] of the installation's lock ends the wait, if it does. *)
Definition lock_end (o : LockObs) (i : nat) : option (result Error unit) :=
  match attempts o !! i with
  | Some Granted => Some (Ok tt)
  | Some (LockFails e) => Some (Err e)
  | Some Contended =>
    if default false (cancels o !! i) then Some (Err ECancelled)
    else if (start o + LOCK_WAIT_LIMIT <=? default 0 (clock o !! i))%N then Some (Err EBusy) else None
  | None => None
  end.

Lemma install_attempts_first n : ∀ replies cancels clock s l m p,
  let o := mk_LockObs l m p replies cancels s clock in
  (n < length replies)%nat → (n < length clock)%nat →
  (∀ now, clock !! n = Some now → s + LOCK_WAIT_LIMIT <= now)%N →
  ∃ i r, (i ≤ n)%nat ∧ install_attempts (s + LOCK_WAIT_LIMIT) replies cancels clock = Some r ∧
         lock_end o i = Some r ∧ ∀ j, (j < i)%nat → lock_end o j = None.
Proof.
  induction n as [|n IH]; intros [|reply replies] cancels [|now clock] s l m p o Hr Hc Hd; simpl in Hr, Hc; try lia;
    (destruct reply as [| |e]; [exists 0%nat, (Ok tt); split_and!; [lia|done|done|lia]| |exists 0%nat, (Err e); split_and!; [lia|done|done|lia]]);
    cbn [install_attempts];
    (destruct cancels as [|[] cancels]; cbn [hd tl];
      [|exists 0%nat, (Err ECancelled); split_and!; [lia|done|done|lia]|]);
    (destruct (N.leb_spec (s + LOCK_WAIT_LIMIT) now) as [Hle|Hgt];
      [exists 0%nat, (Err EBusy); split_and!; [lia|done|unfold lock_end, o; simpl; by rewrite (proj2 (N.leb_le _ _)) by lia|lia]|]);
    try (specialize (Hd now eq_refl); lia).
  - destruct (IH replies [] clock s l m p ltac:(lia) ltac:(lia) Hd) as (i & r & Hi & He & Hl & Hj).
    exists (S i), r. split_and!; [lia|done|by unfold lock_end, o in *; simpl in *|].
    intros [|j] Hlt; unfold lock_end, o in *; simpl in *; [by rewrite (proj2 (N.leb_gt _ _)) by lia|]. apply (Hj j). lia.
  - destruct (IH replies cancels clock s l m p ltac:(lia) ltac:(lia) Hd) as (i & r & Hi & He & Hl & Hj).
    exists (S i), r. split_and!; [lia|done|by unfold lock_end, o in *; simpl in *|].
    intros [|j] Hlt; unfold lock_end, o in *; simpl in *; [by rewrite (proj2 (N.leb_gt _ _)) by lia|]. apply (Hj j). lia.
Qed.

(** The lock of an installation is never waited for forever: within 51 attempts the wait ends
    at the first attempt that was granted or failed, or that was contended with the caller
    cancelled or the one-second deadline passed, with that attempt's answer. *)
Theorem install_lock_bounded o :
  lock_parent o = Ok tt → lock_metadata o = Ok None →
  (51 ≤ length (attempts o))%nat → (51 ≤ length (clock o))%nat →
  (∀ i now, clock o !! i = Some now → start o + 20 * N.of_nat i <= now)%N →
  ∃ i r, (i ≤ 50)%nat ∧ acquire_lock o = Some r ∧ lock_end o i = Some r ∧ ∀ j, (j < i)%nat → lock_end o j = None.
Proof.
  intros Hp Hm Ha Hc Hclock. unfold acquire_lock. rewrite Hp, Hm. cbn [result_bind]. destruct o as [l m p replies cs s clk]. cbn in *.
  apply (install_attempts_first 50); [lia..|]. intros now Hnow. specialize (Hclock _ _ Hnow). unfold LOCK_WAIT_LIMIT. lia.
Qed.

Definition contended_lock : LockObs :=
  mk_LockObs (Ok tt) (Ok None) (Ok KDir) (replicate 51 Contended) [] 7 ((λ i, 7 + 20 * N.of_nat i)%N <$> seq 0 51).

Lemma store_lock_bounded_witness : acquire_store_lock_with_cancel contended_lock = Some (Err EBusy).
Proof.
  destruct (store_lock_bounded contended_lock KDir) as (r & Hr & _).
  - reflexivity.
  - reflexivity.
  - reflexivity.
  - discriminate.
  - vm_compute. lia.
  - vm_compute. lia.
  - intros i now Hi. cbn [contended_lock clock] in Hi. apply list_lookup_fmap_Some in Hi as (j & -> & [-> _]%lookup_seq).
    cbn [contended_lock start]. lia.
  - intros H%elem_of_replicate. by destruct H.
  - rewrite Hr. vm_compute in Hr. congruence.
Defined.

End Store.
