(* ===== verification/Confine.v ===== *)
(** Programs over [Disk] whose calls stay within a set of operations, and programs whose
    success means that no call was disturbed.

    [within P Φ p]: whatever the replies, [p] ends, makes only calls in [P], and what it
    returns satisfies [Φ].  An invariant that the operations of [P] keep, done or disturbed,
    then holds wherever [p] stops.  [faithful p]: if [p] succeeds under any fates, its
    undisturbed run succeeds with the same answer and the same disk. *)

From Stdlib Require Import NArith Lia Ascii.
From stdpp Require Import base strings gmap list.
From S2P Require Import Prelude Core Std Config Manifest Disk Cache Identity Files Store.
Import Manifest Disk Cache Files Store.

Local Open Scope string_scope.
Local Open Scope list_scope.
Local Open Scope rust_scope.

Module Confine.

(** * Calls within a set *)

Definition Ops : Type := ∀ R, Op R → Prop.

Inductive within {A} (P : Ops) (Φ : A → Prop) : prog A → Prop :=
| within_ret a : Φ a → within P Φ (Ret a)
| within_call R (o : Op R) k : P R o → (∀ r, within P Φ (k r)) → within P Φ (Call o k).

Lemma within_bind {A B} P Φ Ψ (p : prog A) (k : A → prog B) :
  within P Φ p → (∀ a, Φ a → within P Ψ (k a)) → within P Ψ (prog_bind p k).
Proof. intros Hp Hk. induction Hp as [a Ha|R o c Ho Hc IH]; simpl; [by apply Hk|]. by constructor. Qed.

(** What a fallible program returns when it succeeds. *)
Definition oks {E A} (Φ : A → Prop) (r : result E A) : Prop := ∀ a, r = Ok a → Φ a.

Lemma within_try {A B E} P Φ Ψ (p : prog (result E A)) (k : A → prog (result E B)) :
  within P (oks Φ) p → (∀ a, Φ a → within P (oks Ψ) (k a)) → within P (oks Ψ) (try p k).
Proof. intros Hp Hk. eapply within_bind; [exact Hp|]. intros [a|e] Ha; [by apply Hk, Ha|]. by constructor. Qed.

Lemma within_mono {A} P (Φ Ψ : A → Prop) p : within P Φ p → (∀ a, Φ a → Ψ a) → within P Ψ p.
Proof. intros Hp HΦ. induction Hp; constructor; auto. Qed.

Lemma within_weaken {A} P Q (Φ : A → Prop) p : within P Φ p → (∀ R (o : Op R), P R o → Q R o) → within Q Φ p.
Proof. intros Hp HP. induction Hp; constructor; auto. Qed.

Definition any {A} (_ : A) : Prop := True.
Lemma within_any {A} P (Φ : A → Prop) p : within P Φ p → within P any p.
Proof. intros H. by eapply within_mono. Qed.

Lemma within_oks {A E} P (Φ : A → Prop) (p : prog (result E A)) : within P (oks Φ) p → within P (oks any) p.
Proof. intros H. by eapply within_mono. Qed.

Lemma within_io {R} P (o : Op R) : P R o → within P any (io o).
Proof. intros Ho. constructor; [done|]. intros r. by constructor. Qed.
Lemma within_op {R} (P : Ops) (o : Op R) : P R o → within P (oks any) (call o).
Proof. intros Ho. eapply within_bind; [by apply within_io|]. intros r _. by constructor. Qed.

(** What every disturbance of an operation in [P] keeps holds along the program. *)
Definition kept_by (P : Ops) (I : Fs → Prop) : Prop :=
  ∀ R (o : Op R) s, P R o → I s → I (perform o s).2 ∧ ∀ d, I (react (Disturbed d) o s).2.

Lemma wp_within {A} b P Φ (p : prog A) I fs : kept_by P I → within P Φ p → I fs → wp b p I (λ a s, Φ a ∧ I s) fs.
Proof.
  intros HI Hp. revert fs. induction Hp as [a Ha|R o k Ho Hk IH]; intros fs Hfs; [done|]. destruct (HI R o fs Ho Hfs) as [H1 H2].
  cbn [wp]. split_and!; [done|by apply IH|]. intros _ d. apply IH, H2.
Qed.

(** * The operations of reading and of staging *)

(** Calls that change no file. *)
Definition harmless {R} (o : Op R) : Prop :=
  match o with
  | SymlinkMetadata _ | ReadDir _ | Canonicalize _ | OpenDir _ | OpenFile _ | HandleMetadata _ | ReadChunk _ _ _
  | SyncFile _ | SyncDir _ | Cancelled => True
  | _ => False
  end.

Definition inside (base p : Path) : Prop := ∃ x below, p = base ++ x :: below.

(** Reading below a directory may create directories in it ([securely_open_unix_parent]);
    staging also creates and writes files. *)
Definition reading (base : Path) : Ops := λ R o, match o with MkDir p => inside base p | _ => harmless o end.
Definition staging (base : Path) : Ops := λ R o,
  match o with MkDir p | CreateNew p | WriteAll p _ => inside base p | _ => harmless o end.

Lemma reading_harmless base R (o : Op R) : harmless o → reading base R o.
Proof. by destruct o. Qed.
Lemma reading_staging base R (o : Op R) : reading base R o → staging base R o.
Proof. by destruct o. Qed.

(** A path at or below a directory. *)
Definition under (base p : Path) : Prop := ∃ l, p = base ++ l.
Lemma under_refl base : under base base.
Proof. exists []. by rewrite app_nil_r. Qed.
Lemma under_snoc base p x : under base p → inside base (p ++ [x]).
Proof. intros [l ->]. destruct l as [|y l]; [exists x, []; by rewrite app_nil_r|]. exists y, (l ++ [x]). by rewrite <-!app_assoc. Qed.
Lemma inside_under base p : inside base p → under base p.
Proof. intros (x & l & ->). by exists (x :: l). Qed.

#[local] Hint Resolve reading_harmless within_any under_refl under_snoc inside_under : core.
#[local] Hint Unfold any oks : core.

Create HintDb within.
#[local] Hint Resolve within_oks : within.

(** Goes through a program, branch by branch. *)
Ltac confine :=
  repeat first
    [ progress intros
    | progress cbv zeta
    | solve [eauto with within]
    | apply within_ret; solve [done|by intros ?]
    | apply within_op; apply reading_harmless; exact I
    | apply within_io; apply reading_harmless; exact I
    | apply (within_try _ any); [|intros ? ?]
    | apply (within_bind _ any); [|intros ? ?]
    | match goal with |- within _ _ (match ?x with _ => _ end) => destruct x end
    | match goal with |- within _ _ (if ?x then _ else _) => destruct x end ].

Section reads.
Context (base : Path).
Abbreviation R := (reading base).

Lemma within_reject_from current rel : within R (oks any) (reject_reparse_from current rel).
Proof. revert current. induction rel as [|[] rel IH]; intros current; cbn [reject_reparse_from]; confine. Qed.
Hint Resolve within_reject_from : within.
Lemma within_reject p rel : within R (oks any) (reject_reparse_components p rel).
Proof. unfold reject_reparse_components. confine. Qed.
Hint Resolve within_reject : within.

Lemma within_canonical p : within R (oks any) (canonical_directory p).
Proof. unfold canonical_directory. confine. Qed.
Hint Resolve within_canonical : within.
Lemma within_revalidate_directory p rel : within R (oks any) (revalidate_contained_directory p rel).
Proof. unfold revalidate_contained_directory. confine. Qed.
Lemma within_revalidate_path p rel : within R (oks any) (revalidate_contained_path p rel).
Proof. unfold revalidate_contained_path. confine. Qed.
Hint Resolve within_revalidate_directory within_revalidate_path : within.

(** Descending creates directories at and below where it starts. *)
Lemma within_descend p rel : under base p → within R (oks (under base)) (descend_handles p rel).
Proof.
  revert p. induction rel as [|c rel IH]; intros p Hp; cbn [descend_handles]; [constructor; by intros ? [= <-]|].
  destruct c as [| | |name]; try (by constructor). cbv zeta.
  assert (under base (p ++ [name])) as Hnext by auto.
  apply (within_bind R any); [by apply within_io, under_snoc|]. intros [[]|e] _.
  - eapply (within_try R any); [by apply within_op|]. intros _ _. by apply IH.
  - destruct e; try (by constructor). eapply (within_try R any); [by apply within_op|]. intros _ _. by apply IH.
Qed.

Lemma within_open_parent rel : within R (oks (under base)) (securely_open_unix_parent base rel).
Proof.
  unfold securely_open_unix_parent. eapply (within_try R any); [by apply within_op|]. intros _ _.
  eapply (within_try R any); [by apply within_op|]. intros m _.
  eapply (within_try R any); [destruct (is_reparse m.1); confine|]. intros [] _; [by constructor|]. by apply within_descend.
Qed.

Lemma within_open_existing rel : within R (oks (under base)) (securely_open_existing_file base rel).
Proof.
  unfold securely_open_existing_file. eapply within_try; [apply within_open_parent|]. intros directory Hd.
  eapply (within_try R any); [by constructor|]. intros name _. eapply (within_try R any); [by apply within_op|]. intros _ _.
  constructor. intros ? [= <-]. auto.
Qed.
Hint Resolve within_open_existing : within.

Lemma within_open_contained rel size : within R (oks any) (open_contained_regular_file base rel size).
Proof. unfold open_contained_regular_file. confine. Qed.
Hint Resolve within_open_contained : within.

Lemma within_hash_chunks fuel cancelled file size limit total acc :
  within R (oks any) cancelled → (total <= size)%N → (N.to_nat (size - total) + 2 ≤ fuel)%nat →
  within R (oks any) (hash_chunks fuel cancelled file size limit total acc).
Proof.
  intros Hc. revert total acc. induction fuel as [|fuel IH]; intros total acc Ht Hf; [lia|].
  cbn [hash_chunks]. eapply within_try; [exact Hc|]. intros [] _; [by constructor|]. cbv zeta.
  destruct (_ =? 0)%N; [by constructor|]. eapply (within_try R any); [by apply within_op|]. intros chunk _.
  destruct (str_is_empty chunk) eqn:He; [by constructor|]. apply str_is_empty_len in He.
  destruct (checked_add u64_max total (str_len chunk)) as [total'|] eqn:Ha; [|by constructor].
  apply checked_add_Some in Ha as [-> _]. change (within R (oks any) (if (size <? total + str_len chunk)%N then Ret (Ok None)
    else hash_chunks fuel cancelled file size limit (total + str_len chunk) (acc +:+ chunk))).
  destruct (N.ltb_spec size (total + str_len chunk)); [by constructor|]. apply IH; lia.
Qed.

Lemma within_verify sha cancelled a : within R (oks any) cancelled → within R (oks any) (verify_contained_artifact sha cancelled base a).
Proof.
  intros Hc. unfold verify_contained_artifact. eapply within_bind; [apply within_open_contained|]. intros [file|e] _; [|by constructor].
  eapply (within_try R any); [by constructor|]. intros limit _.
  eapply within_try; [apply within_hash_chunks; [done|lia..]|]. confine.
Qed.

Lemma within_verify_artifacts sha cancelled l :
  within R (oks any) cancelled → within R (oks any) (verify_artifacts sha cancelled base l).
Proof.
  intros Hc. induction l as [|a l IH]; cbn [verify_artifacts]; [by constructor|].
  eapply within_try; [by apply within_verify|]. intros [] _; [done|by constructor].
Qed.

Lemma within_read_manifest {U : UrlCrate} {J : JsonCrate} p : within R (oks any) (read_contained_manifest p).
Proof. unfold read_contained_manifest, call_or. confine. Qed.

(** * Staging *)

Abbreviation S := (staging base).
Lemma read_stage {A} Φ (p : prog A) : within R Φ p → within S Φ p.
Proof. intros H. eapply within_weaken; [exact H|apply reading_staging]. Qed.

Lemma within_parents rel : within S (oks any) (create_contained_parent_directories base rel).
Proof.
  apply read_stage. unfold create_contained_parent_directories, securely_create_parent_directories.
  eapply (within_try R any); [by constructor|]. intros _ _. eapply (within_try R any); [|confine].
  eapply within_try; [apply within_open_parent|]. intros _ _. by constructor.
Qed.

Lemma within_create_new rel : within S (oks (inside base)) (create_new_contained_file base rel).
Proof.
  unfold create_new_contained_file. eapply (within_try S any); [by constructor|]. intros _ _.
  destruct (bool_decide _); [by constructor|]. eapply (within_try S (inside base)).
  - unfold securely_create_new_file. eapply within_try; [apply read_stage, within_open_parent|]. intros directory Hd.
    eapply (within_try S any); [by constructor|]. intros name _. eapply (within_try S any); [by apply within_op, under_snoc|].
    intros _ _. constructor. intros ? [= <-]. auto.
  - intros file Hfile. eapply (within_try S any); [by apply within_op|]. intros md _. destruct (_ || _); [by constructor|].
    eapply (within_try S any); [apply read_stage, within_revalidate_path|]. intros _ _. constructor. by intros ? [= <-].
Qed.

End reads.

Section status.
Context {U : UrlCrate} {J : JsonCrate} (sha256_hex : string → string) (to_vec : Identity.SemanticContract → result string string).
Context (trust_root : Identity.TrustRoot).

Lemma within_status m k cancelled :
  key sha256_hex to_vec m = Ok k → within (reading (model_dir k)) (oks any) cancelled →
  within (reading (model_dir k)) (oks any) (status_inner sha256_hex to_vec trust_root m cancelled).
Proof.
  intros Hk Hc. unfold status_inner. rewrite Hk. eapply (within_try _ (λ x, x = k)); [constructor; by intros ? [= <-]|].
  intros ? ->. cbv zeta. eapply within_bind; [apply within_reject|]. intros [[]|e] _; [|by constructor].
  eapply (within_bind _ any); [by apply within_io|]. intros [kd|[]] _; try (by constructor).
  destruct (_ || _); [by constructor|]. eapply within_bind; [apply within_read_manifest|]. intros [stored|e] _; [|by constructor].
  destruct (bool_decide _); [|by constructor]. eapply within_try; [by apply within_verify_artifacts|]. intros [] _; [|by constructor].
  eapply (within_try _ any); [by constructor|]. intros trusted _. by constructor.
Qed.

End status.

(** * Success without disturbance *)

Definition faithful {A E} (p : prog (result E A)) : Prop :=
  ∀ fates fs a fs', run fates p fs = (Finished (Ok a), fs') → exec p fs = (Finished (Ok a), fs').

(** The crash logic is complete for the runs: what every run satisfies is provable. *)
Lemma wp_runs {A} (p : prog A) C Q fs :
  (∀ fates, match run fates p fs with (Finished a, s) => Q a s | (Crashed, s) => C s | (Diverged, _) => False end) →
  wp true p C Q fs.
Proof.
  revert fs. induction p as [a|R o k IH|]; intros fs H; cbn [wp]; [exact (H [])| |exact (H [])]. split; [exact (H [])|].
  split; [|intros _ d]; apply IH; intros fates; [specialize (H (Proceeds :: fates))|specialize (H (Disturbed d :: fates))]; cbn [run] in H.
  - change (react Proceeds o fs) with (perform o fs) in H. by destruct (perform o fs).
  - by destruct (react (Disturbed d) o fs).
Qed.

(** A faithful program's success is its undisturbed success. *)
Lemma wp_faithful {A E} (p : prog (result E A)) C Q fs :
  faithful p → wp true p C Q fs → wp true p C (λ r s, Q r s ∧ ∀ a, r = Ok a → exec p fs = (Finished (Ok a), s)) fs.
Proof.
  intros Hp Hwp. apply wp_runs. intros fates. pose proof (wp_run _ _ _ _ fates Hwp) as H.
  destruct (run fates p fs) as [[r| |] s] eqn:Hr; [|done|done]. split; [done|]. intros a ->. by eapply Hp.
Qed.

(** Calls that fail when they are disturbed. *)
Definition strict {R} (o : Op R) : bool := match o with ReadChunk _ _ _ | Cancelled | NextSequence => false | _ => true end.
Lemma strict_fails {R} (o : Op R) d s : strict o = true → (react (Disturbed d) o s).1 = Err IoFault.
Proof. by destruct o. Qed.

Lemma faithful_ret {A E} (r : result E A) : faithful (Ret r).
Proof. by intros fates fs a fs'. Qed.

Lemma faithful_try {A B E} (p : prog (result E A)) (k : A → prog (result E B)) :
  faithful p → (∀ a, faithful (k a)) → faithful (try p k).
Proof.
  intros Hp Hk fates fs b fs' (a & fates' & fs1 & H1 & H2)%run_try_inv. apply Hp in H1. apply Hk in H2. by erewrite exec_try_Ok.
Qed.

Lemma faithful_io {R A E} (o : Op R) (k : result IoError R → prog (result E A)) e :
  strict o = true → k (Err IoFault) = Ret (Err e) → (∀ r, faithful (k r)) → faithful (prog_bind (io o) k).
Proof.
  intros Ho He Hk fates fs a fs' H. cbn [prog_bind io run] in H. destruct fates as [|[|d] fates]; [done|..].
  - change (react Proceeds o fs) with (perform o fs) in H. cbn [prog_bind io exec]. destruct (perform o fs) as [r s]. by eapply Hk.
  - pose proof (strict_fails o d fs Ho) as Hf. destruct (react (Disturbed d) o fs) as [r s]. simpl in Hf. subst r. by rewrite He in H.
Qed.

Lemma faithful_call {R} (o : Op R) : strict o = true → faithful (call o).
Proof. intros Ho. by eapply faithful_io; [|reflexivity|intros r; apply faithful_ret]. Qed.

Create HintDb faithful.
#[export] Hint Resolve faithful_ret : faithful.
Ltac faithfully :=
  repeat first
    [ progress intros
    | progress cbv zeta
    | solve [eauto with faithful]
    | apply faithful_call; reflexivity
    | eapply faithful_io; [reflexivity|reflexivity|]
    | apply faithful_try
    | match goal with |- faithful (match ?x with _ => _ end) => destruct x end ].

Lemma faithful_reject_from current rel : faithful (reject_reparse_from current rel).
Proof. revert current. induction rel as [|[] rel IH]; intros current; cbn [reject_reparse_from]; faithfully. Qed.
#[export] Hint Resolve faithful_reject_from : faithful.
Lemma faithful_reject base rel : faithful (reject_reparse_components base rel).
Proof. unfold reject_reparse_components. faithfully. Qed.
#[export] Hint Resolve faithful_reject : faithful.
Lemma faithful_canonical p : faithful (canonical_directory p).
Proof. unfold canonical_directory. faithfully. Qed.
#[export] Hint Resolve faithful_canonical : faithful.
Lemma faithful_revalidate_directory p rel : faithful (revalidate_contained_directory p rel).
Proof. unfold revalidate_contained_directory. faithfully. Qed.
Lemma faithful_revalidate_path p rel : faithful (revalidate_contained_path p rel).
Proof. unfold revalidate_contained_path. faithfully. Qed.
Lemma faithful_descend p rel : faithful (descend_handles p rel).
Proof. revert p. induction rel as [|[] rel IH]; intros p; cbn [descend_handles]; faithfully. Qed.
#[export] Hint Resolve faithful_revalidate_directory faithful_revalidate_path faithful_descend : faithful.
Lemma faithful_open_parent p rel : faithful (securely_open_unix_parent p rel).
Proof. unfold securely_open_unix_parent. faithfully. Qed.
#[export] Hint Resolve faithful_open_parent : faithful.
Lemma faithful_parents p rel : faithful (create_contained_parent_directories p rel).
Proof. unfold create_contained_parent_directories, securely_create_parent_directories. faithfully. Qed.
Lemma faithful_create_new p rel : faithful (create_new_contained_file p rel).
Proof. unfold create_new_contained_file, securely_create_new_file. faithfully. Qed.
#[export] Hint Resolve faithful_parents faithful_create_new : faithful.

(** * What the operations do to a transaction's view *)

(** A tree with directories added where nothing was. *)
Inductive grown (t : Node) : Node → Prop :=
| grown_refl : grown t t
| grown_step u p : grown t u → p ≠ [] → can_put u p → descend u p = None → grown t (put u p (Dir [])).

(** Nothing installed stays nothing, and an installed tree may have grown. *)
Definition kin (f t : option Node) : Prop :=
  match f, t with None, None => True | Some a, Some b => grown a b | _, _ => False end.
Lemma kin_refl f : kin f f.
Proof. destruct f; [constructor|done]. Qed.

(** Files stay where they are in a grown tree. *)
Lemma grown_file t t' q b : grown t t' → descend t q = Some (File b) → descend t' q = Some (File b).
Proof.
  intros H Hq. induction H as [|u p Hu IH Hne [cs Hput] Hnone]; [done|]. rewrite descend_put_ne; [done|by exists cs|..].
  - intros [r ->]. destruct r as [|y r] using rev_ind; [rewrite app_nil_r in Hnone; congruence|].
    rewrite app_assoc, removelast_snoc in Hput. rewrite descend_app, IH in Hput. simpl in Hput. by destruct r.
  - intros [r ->]. by rewrite descend_app, Hnone in IH.
Qed.

Lemma grown_intact {U : UrlCrate} {J : JsonCrate} sha m t t' : grown t t' → intact sha m t → is_tree t' → intact sha m t'.
Proof.
  intros Hg [Hm Hf] [cs' ->]. split.
  - unfold stored_manifest in Hm. destruct t as [|cs| |]; try done. destruct (child MANIFEST_FILE cs) as [[b| | |]|] eqn:E; try done.
    pose proof (grown_file (Dir cs) (Dir cs') [MANIFEST_FILE] b Hg) as Hb. simpl in Hb. rewrite E in Hb.
    specialize (Hb eq_refl). unfold stored_manifest. destruct (child MANIFEST_FILE cs') as [v|]; simplify_eq/=. done.
  - eapply Forall_impl; [exact Hf|]. intros a (b & Hb & Hsz). exists b. split; [by eapply grown_file|done].
Qed.

Lemma put_tree t x p v : is_tree t → is_tree (put t (x :: p) v).
Proof. intros [cs ->]. cbn [put]. destruct p; [by eexists|]. destruct (child x cs); by eexists. Qed.

(** Creating below an entry either does nothing or puts the node where nothing was. *)
Lemma create_inside d n x below v s :
  (create (d :: n :: x :: below) v s).2 = s ∨
  ∃ t, at_tree d n t s ∧ can_put t (x :: below) ∧ descend t (x :: below) = None ∧
       (create (d :: n :: x :: below) v s).2 = with_tree d n (put t (x :: below) v) s.
Proof.
  destruct (entries s !! (d, n)) as [t|] eqn:Ht.
  - rewrite (create_below d n t) by done. destruct (descend t (removelast (x :: below))) as [u|] eqn:Hu; [|by left].
    destruct u as [|cs| |]; cbn [fmap option_fmap option_map kind]; try (by left).
    destruct (descend t (x :: below)) as [w|] eqn:Hw; [by left|]. right. exists t. split_and!; [done|by exists cs|done|done].
  - left. unfold create. rewrite parent_below by done.
    assert (metadata (d :: n :: removelast (x :: below)) s = None) as ->; [|done]. cbn [metadata node_at]. by rewrite Ht.
Qed.

Lemma write_inside d n below b s :
  (perform (WriteAll (d :: n :: below) b) s).2 = s ∨
  ∃ t old, at_tree d n t s ∧ descend t below = Some (File old) ∧
           (perform (WriteAll (d :: n :: below) b) s).2 = with_tree d n (put t below (File (old +:+ b))) s.
Proof.
  unfold perform. destruct (entries s !! (d, n)) as [t|] eqn:Ht; [|by left]. rewrite (node_at_below d n t) by done.
  destruct (descend t below) as [[old| | |]|] eqn:Hd; try (by left). right. by exists t, old.
Qed.

Lemma harmless_quiet {R} (o : Op R) s : harmless o → quiet s (perform o s).2 ∧ ∀ d, quiet s (react (Disturbed d) o s).2.
Proof.
  intros Ho. destruct o; try done; try (split; [|intros d]; reflexivity).
  split; [|intros d]; [|reflexivity]. unfold perform. destruct (metadata p s); [apply calm_flush|reflexivity].
Qed.

Section views.
Context (k : string) (E : gmap (string * string) Node).

Lemma view_changed V t' fs :
  viewed k E V fs → is_tree t' →
  viewed k E (mk_View (Some t') (staged V) (marked V) (backup V) (kept V)) (set_below "models" k t' fs).
Proof.
  intros H Ht. pose proof H as [? H1 H2 H3 H4 _ (T1 & T2 & T3)]. simpl in H1, H2, H3, H4.
  eapply viewed_intro; [exact H|done|done|done|..]; simpl.
  - by rewrite lookup_insert_eq.
  - by rewrite lookup_insert_ne.
  - rewrite lookup_insert_ne; [done|by intros [=]].
  - rewrite lookup_insert_ne; [done|by intros [=]].
  - intros p Hp. rewrite lookup_insert_ne; [done|]. intros <-. apply Hp. left.
  - split_and!; simpl; [by intros ? [= <-]|done|done].
Qed.

Lemma view_staged V t' fs :
  viewed k E V fs → is_tree t' →
  viewed k E (mk_View (final V) (Some t') (marked V) (backup V) (kept V)) (set_below "staging" (k +:+ ".partial") t' fs).
Proof.
  intros H Ht. pose proof H as [? H1 H2 H3 H4 _ (T1 & T2 & T3)]. simpl in H1, H2, H3, H4.
  eapply viewed_intro; [exact H|done|done|done|..]; simpl.
  - by rewrite lookup_insert_ne.
  - by rewrite lookup_insert_eq.
  - rewrite lookup_insert_ne; [done|by intros [=]].
  - rewrite lookup_insert_ne; [done|by intros [=]].
  - intros p Hp. rewrite lookup_insert_ne; [done|]. intros <-. apply Hp. right. left.
  - split_and!; simpl; [done|by intros ? [= <-]|done].
Qed.

(** Reading below the installed tree at most adds directories to it. *)
Lemma reading_keeps f st mk bk kp :
  kept_by (reading (model_dir k)) (λ s, ∃ t, kin f t ∧ viewed k E (mk_View t st mk bk kp) s).
Proof.
  intros R o s Ho (t & Ht & HV).
  assert (harmless o → (∃ t, kin f t ∧ viewed k E (mk_View t st mk bk kp) (perform o s).2) ∧
    ∀ d, ∃ t, kin f t ∧ viewed k E (mk_View t st mk bk kp) (react (Disturbed d) o s).2) as Hq.
  { intros Hh. destruct (harmless_quiet o s Hh) as [H1 H2]. split; [|intros d]; exists t; (split; [done|]); eapply viewed_quiet; eauto. }
  destruct o; try (by apply Hq). destruct Ho as (x & below & ->). split; [|intros d; by exists t].
  cbn [model_dir app]. change (perform (MkDir ("models" :: k :: x :: below)) s) with (create ("models" :: k :: x :: below) (Dir []) s).
  destruct (create_inside "models" k x below (Dir []) s) as [->|(u & Hu & Hput & Hnone & ->)]; [by exists t|].
  pose proof (vw_final _ _ _ _ HV) as Hf. simpl in Hf. unfold at_tree in Hu. rewrite Hu in Hf. subst t.
  destruct f as [f|]; [|done]. exists (Some (put u (x :: below) (Dir []))). split; [by constructor|].
  apply (view_changed (mk_View (Some u) st mk bk kp)); [done|]. apply put_tree. destruct (vw_trees _ _ _ _ HV) as (T & _). by apply T.
Qed.

(** Staging changes the staged tree and nothing else. *)
Lemma staging_keeps f :
  kept_by (staging (staging_dir k)) (λ s, ∃ st, viewed k E (mk_View f st false None None) s).
Proof.
  intros R o s Ho (st & HV).
  assert (∀ s', s' = s ∨ (∃ t v x p, at_tree "staging" (k +:+ ".partial") t s ∧ s' = with_tree "staging" (k +:+ ".partial") (put t (x :: p) v) s) →
    ∃ st, viewed k E (mk_View f st false None None) s') as Hput.
  { intros s' [->|(t & v & x & p & Ht & ->)]; [by eexists|]. exists (Some (put t (x :: p) v)).
    apply (view_staged (mk_View f st false None None)); [done|]. apply put_tree.
    pose proof (vw_staged _ _ _ _ HV) as Hst. simpl in Hst. unfold at_tree in Ht. rewrite Ht in Hst. subst st.
    destruct (vw_trees _ _ _ _ HV) as (_ & T & _). by apply T. }
  assert (harmless o → (∃ st, viewed k E (mk_View f st false None None) (perform o s).2) ∧
    ∀ d, ∃ st, viewed k E (mk_View f st false None None) (react (Disturbed d) o s).2) as Hq.
  { intros Hh. destruct (harmless_quiet o s Hh) as [H1 H2]. split; [|intros d]; exists st; eapply viewed_quiet; eauto. }
  assert (∀ x below v, ∃ st, viewed k E (mk_View f st false None None) (create (staging_dir k ++ x :: below) v s).2) as Hcreate.
  { intros x below v. apply Hput. destruct (create_inside "staging" (k +:+ ".partial") x below v s) as [H|(u & Hu & _ & _ & H)];
      [by left|]. right. by exists u, v, x, below. }
  assert (∀ x below b, ∃ st, viewed k E (mk_View f st false None None) (perform (WriteAll (staging_dir k ++ x :: below) b) s).2) as Hwrite.
  { intros x below b. apply Hput. destruct (write_inside "staging" (k +:+ ".partial") (x :: below) b s) as [H|(u & old & Hu & _ & H)];
      [by left|]. right. by exists u, (File (old +:+ b)), x, below. }
  destruct o; try (by apply Hq); destruct Ho as (x & below & ->).
  - split; [apply Hcreate|intros d; by exists st].
  - split; [apply Hcreate|intros d; by exists st].
  - split; [apply Hwrite|intros d; apply Hwrite].
Qed.

End views.

End Confine.
