(* ===== verification/Staging.v ===== *)
(** Import end to end: the tree that copying the artifacts builds in staging, and the
    composition of status, staging, copy, promotion and final status. *)

From Stdlib Require Import NArith Lia Ascii.
From stdpp Require Import base strings gmap list.
From S2P Require Import Prelude Core Std Config Manifest Disk Cache Identity Files Store Confine.
Import Manifest Disk Cache Files Store Confine.

Local Open Scope string_scope.
Local Open Scope list_scope.
Local Open Scope rust_scope.

Module Staging.

(** * Growing a tree *)

Lemma put_cons cs x y p v :
  put (Dir cs) (x :: y :: p) v =
  match child x cs with Some c => Dir (set_child x (put c (y :: p) v) cs) | None => Dir cs end.
Proof. done. Qed.

Lemma set_child_twice x a b cs : set_child x a (set_child x b cs) = set_child x a cs.
Proof.
  induction cs as [|[n c] cs IH]; simpl; [by rewrite String.eqb_refl|].
  destruct (String.eqb n x) eqn:E; simpl; rewrite E; [done|]. by rewrite IH.
Qed.

Lemma put_put t p v w : can_put t p → p ≠ [] → put (put t p v) p w = put t p w.
Proof.
  revert t. induction p as [|x p IH]; intros t Hc Hp; [done|]. destruct p as [|y p].
  - destruct Hc as [cs [= ->]]. cbn [put]. by rewrite set_child_twice.
  - apply can_put_cons in Hc as (cs & c & -> & Hx & Hc); [|done]. rewrite !put_cons, Hx, put_cons, child_set_eq.
    by rewrite (IH c Hc), set_child_twice by done.
Qed.

(** Putting back what is there. *)
Lemma set_child_same x c cs : child x cs = Some c → set_child x c cs = cs.
Proof.
  induction cs as [|[m c'] cs IH]; simpl; [done|]. intros E. destruct (String.eqb m x); [by simplify_eq|]. by rewrite IH.
Qed.
Lemma put_same t p v : p ≠ [] → descend t p = Some v → put t p v = t.
Proof.
  revert t. induction p as [|x q IH]; intros t Hne Hp; [done|]. destruct t as [|cs| |]; try done. cbn [descend] in Hp.
  destruct (child x cs) as [c|] eqn:E; [|done]. simpl mbind in Hp. destruct q as [|y q].
  - simplify_eq/=. by rewrite set_child_same.
  - by rewrite put_cons, E, (IH c), set_child_same.
Qed.
Lemma can_put_put t p v : p ≠ [] → can_put t p → can_put (put t p v) p.
Proof.
  intros Hne Hput. destruct (exists_last Hne) as (q & z & ->).
  destruct (descend_put_above t (q ++ [z]) q v Hput) as [c Hc]; [by apply prefix_app_r| |exists c; by rewrite removelast_snoc].
  intros H%(f_equal length). rewrite length_app in H. simpl in H. lia.
Qed.

Lemma plain_set_child name v cs : plain (Dir cs) = true → plain v = true → plain (Dir (set_child name v cs)) = true.
Proof.
  intros Hc Hv. induction cs as [|[n c] cs IH]; simpl in *; [by rewrite Hv|].
  apply andb_prop in Hc as [Hc Hcs]. destruct (String.eqb n name); simpl; [by rewrite Hv, Hcs|]. by rewrite Hc, IH.
Qed.

Lemma plain_descend t p v : plain t = true → descend t p = Some v → plain v = true.
Proof.
  revert t. induction p as [|x p IH]; intros t Ht Hd; [by simplify_eq/=|]. cbn [descend] in Hd.
  destruct t as [|cs| |]; try done. destruct (child x cs) as [c|] eqn:E; [|done]. eapply IH; [|exact Hd].
  clear IH Hd. induction cs as [|[n c'] cs IH]; simpl in *; [done|]. apply andb_prop in Ht as [Hc Hcs].
  destruct (String.eqb n x); [by simplify_eq|by apply IH].
Qed.

Lemma plain_put t p v : plain t = true → plain v = true → plain (put t p v) = true.
Proof.
  revert t. induction p as [|x p IH]; intros t Ht Hv; [done|]. cbn [put]. destruct t as [|cs| |]; try done.
  destruct p as [|y p]; [by apply plain_set_child|]. destruct (child x cs) as [c|] eqn:E; [|done].
  apply plain_set_child; [done|]. apply IH; [|done]. apply (plain_descend (Dir cs) [x]); [done|]. simpl. by rewrite E.
Qed.

Lemma height_set_child name v cs : (height (Dir (set_child name v cs)) ≤ height (Dir cs) `max` S (height v))%nat.
Proof.
  induction cs as [|[n c] cs IH]; simpl in *; [lia|]. destruct (String.eqb n name); simpl; lia.
Qed.

Lemma height_put t p v : (height (put t p v) ≤ height t `max` (length p + height v))%nat.
Proof.
  revert t. induction p as [|x p IH]; intros t; [simpl; lia|]. cbn [put]. destruct t as [|cs| |]; try lia.
  destruct p as [|y p]; [pose proof (height_set_child x v cs); simpl length in *; lia|].
  destruct (child x cs) as [c|] eqn:E; [|lia].
  pose proof (height_set_child x (put c (y :: p) v) cs). specialize (IH c).
  assert (height c < height (Dir cs))%nat.
  { clear -E. induction cs as [|[n c'] cs IH]; simpl in *; [done|]. destruct (String.eqb n x); [simplify_eq; lia|].
    specialize (IH E). lia. }
  simpl length in *. lia.
Qed.

Lemma mkdirs_plain t pre names : plain t = true → plain (mkdirs t pre names) = true.
Proof.
  revert t pre. induction names as [|x names IH]; intros t pre Ht; [done|]. cbn [mkdirs]. apply IH.
  destruct (descend t (pre ++ [x])); [done|]. by apply plain_put.
Qed.

Lemma mkdirs_height t pre names : (height (mkdirs t pre names) ≤ height t `max` S (length pre + length names))%nat.
Proof.
  revert t pre. induction names as [|x names IH]; intros t pre; [simpl; lia|]. cbn [mkdirs].
  etrans; [apply IH|]. rewrite length_app. simpl length.
  destruct (descend t (pre ++ [x])); [lia|]. pose proof (height_put t (pre ++ [x]) (Dir [])) as Hp.
  rewrite length_app in Hp. simpl in Hp. lia.
Qed.

(** Making directories leaves every other path as it was. *)
Lemma mkdirs_other t pre names q :
  (∃ cs, descend t pre = Some (Dir cs)) → (∀ i, dir_or_none (descend t (pre ++ take i names))) →
  ¬ q `prefix_of` (pre ++ names) → descend (mkdirs t pre names) q = descend t q.
Proof.
  revert t pre. induction names as [|x names IH]; intros t pre [cs Hpre] Hn Hq; [done|]. cbn [mkdirs].
  pose proof (Hn 1%nat) as H1. rewrite firstn_cons, take_0 in H1.
  replace (pre ++ x :: names) with ((pre ++ [x]) ++ names) in Hq by by rewrite <-app_assoc.
  assert (∀ i, pre ++ take (S i) (x :: names) = (pre ++ [x]) ++ take i names) as Hshift
    by (intros i; by rewrite firstn_cons, <-app_assoc).
  destruct H1 as [Hx|[cs' Hx] ]; rewrite Hx.
  - assert (can_put t (pre ++ [x])) as Hput by (exists cs; by rewrite removelast_snoc).
    pose proof (descend_put_eq t (pre ++ [x]) (Dir []) ltac:(by destruct pre) Hput) as Hnew. rewrite IH.
    + destruct (decide ((pre ++ [x]) `prefix_of` q)) as [[r ->]|Hnp].
      * rewrite (descend_app _ (pre ++ [x]) r), (descend_app t (pre ++ [x]) r), Hnew, Hx. destruct r as [|y r]; [|done].
        exfalso. apply Hq. rewrite app_nil_r. by apply prefix_app_r.
      * apply descend_put_ne; [done| |done]. intros Hp. apply Hq. by apply prefix_app_r.
    + by eexists.
    + intros i. destruct (take i names) as [|y l] eqn:Ei; [rewrite app_nil_r; right; by eexists|].
      left. by rewrite descend_app, Hnew.
    + done.
  - apply IH; [by eexists| |done]. intros i. specialize (Hn (S i)). by rewrite Hshift in Hn.
Qed.

(** The state in which the next component is visited. *)
Lemma mkdirs_step t pre x names :
  (∃ cs, descend t pre = Some (Dir cs)) → (∀ i, dir_or_none (descend t (pre ++ take i (x :: names)))) →
  let t' := match descend t (pre ++ [x]) with None => put t (pre ++ [x]) (Dir []) | Some _ => t end in
  (∃ cs, descend t' (pre ++ [x]) = Some (Dir cs)) ∧ (∀ i, dir_or_none (descend t' ((pre ++ [x]) ++ take i names))) ∧
  (∀ q cs, q `prefix_of` pre → descend t q = Some (Dir cs) → ∃ cs', descend t' q = Some (Dir cs')).
Proof.
  intros [cs Hpre] Hn. pose proof (Hn 1%nat) as H1. rewrite firstn_cons, take_0 in H1.
  destruct H1 as [Hx|[cs' Hx] ]; rewrite Hx; cbv zeta.
  - assert (can_put t (pre ++ [x])) as Hput by (exists cs; by rewrite removelast_snoc).
    pose proof (descend_put_eq t (pre ++ [x]) (Dir []) ltac:(by destruct pre) Hput) as Hnew. split_and!.
    + by eexists.
    + intros i. destruct (take i names) as [|y l] eqn:Ei; [rewrite app_nil_r; right; by eexists|].
      left. by rewrite (descend_app _ (pre ++ [x])), Hnew.
    + intros q c Hq Hd. apply descend_put_above; [done|by apply prefix_app_r|]. intros ->.
      apply prefix_length in Hq. rewrite length_app in Hq. simpl in Hq. lia.
  - split_and!; [by eexists| |by eauto]. intros i. specialize (Hn (S i)). by rewrite firstn_cons, <-app_assoc in *.
Qed.

(** The directories are there afterwards. *)
Lemma mkdirs_dirs t pre names i :
  (∃ cs, descend t pre = Some (Dir cs)) → (∀ i, dir_or_none (descend t (pre ++ take i names))) →
  ∃ cs, descend (mkdirs t pre names) (pre ++ take i names) = Some (Dir cs).
Proof.
  assert (∀ names t pre q, (∃ cs, descend t pre = Some (Dir cs)) → (∀ i, dir_or_none (descend t (pre ++ take i names))) →
    q `prefix_of` pre → (∃ cs, descend t q = Some (Dir cs)) → ∃ cs, descend (mkdirs t pre names) q = Some (Dir cs)) as Hkeep.
  { clear. induction names as [|x names IH]; intros t pre q Hpre Hn Hq [cs Hd]; [by eexists|]. cbn [mkdirs].
    destruct (mkdirs_step t pre x names Hpre Hn) as (H1 & H2 & H3). apply IH; [done|done| |by eapply H3].
    by apply prefix_app_r. }
  revert t pre i. induction names as [|x names IH]; intros t pre i Hpre Hn.
  { rewrite take_nil, app_nil_r. done. }
  destruct i as [|i]; [rewrite take_0, app_nil_r; by apply Hkeep|]. cbn [mkdirs].
  destruct (mkdirs_step t pre x names Hpre Hn) as (H1 & H2 & H3).
  destruct (IH _ (pre ++ [x]) i H1 H2) as [cs Hc]. exists cs. by rewrite firstn_cons, <-app_assoc in *.
Qed.

(** * One artifact *)

Section artifact.
Context (d n : string).

Lemma canonical_exec t names v fs :
  tops fs !! d = Some KDir → at_tree d n t fs → descend t names = Some v →
  (∀ i w, descend t (take i names) = Some w → kind w ≠ KSymlink) →
  perform (Canonicalize (d :: n :: names)) fs = (Ok (Some (d :: n :: names)), fs).
Proof.
  intros Hd Ht Hv Hl. unfold perform. rewrite (metadata_below d n t names fs Ht), Hv.
  cbn [fmap option_fmap option_map]. assert (linked (d :: n :: names) fs = false) as ->; [|done].
  unfold linked. apply existsb_false, Forall_forall. intros i _. apply bool_decide_eq_false_2.
  destruct i as [|i]; cbn [take].
  - cbn [metadata]. rewrite Hd. congruence.
  - rewrite (metadata_below d n t (take i names) fs Ht). destruct (descend t (take i names)) as [w|] eqn:E; [|done].
    cbn [fmap option_fmap option_map]. intros [= Hk]. by apply (Hl i w).
Qed.

Lemma base_canonical cs fs :
  tops fs !! d = Some KDir → at_tree d n (Dir cs) fs →
  exec (canonical_directory [d; n]) fs = (Finished (Ok (Some [d; n])), fs).
Proof.
  intros Hd Ht. unfold canonical_directory.
  erewrite exec_try_Ok; [|apply exec_call_Ok; unfold perform; by rewrite (metadata_below d n _ [] fs Ht)].
  cbn [kind descend fmap option_fmap option_map]. change (is_reparse KDir || negb (is_dir KDir)) with false. cbv iota.
  apply exec_call_Ok, (canonical_exec (Dir cs) [] (Dir cs)); [done|done|done|]. intros i w. rewrite take_nil. by intros [= <-].
Qed.

(** A path whose parents are directories and that is itself [v]. *)
Lemma revalidate_exec {A} cs names v (check : Kind → bool) (bad outside : Error) (done_ : A) fs :
  tops fs !! d = Some KDir → at_tree d n (Dir cs) fs → descend (Dir cs) names = Some v → kind v ≠ KSymlink →
  check (kind v) = false →
  exec (do? _ := Ret (Files.validate_relative_path (Normal <$> names)) in
        do? _ := reject_reparse_components [d; n] (Normal <$> names) in
        do? canonical_base := canonical_directory [d; n] in
        do? k := call (SymlinkMetadata (join [d; n] (Normal <$> names))) in
        if check k then Ret (Err bad) else
        do? canonical := call (Canonicalize (join [d; n] (Normal <$> names))) in
        if starts_with canonical canonical_base then Ret (Ok done_) else Ret (Err outside)) fs =
  (Finished (Ok done_), fs).
Proof.
  intros Hd Ht Hv Hk Hc.
  assert (∀ i w, descend (Dir cs) (take i names) = Some w → kind w ≠ KSymlink) as Hl.
  { intros i w Hw. destruct (drop i names) as [|y r] eqn:E.
    - assert (take i names = names) as Htk by (rewrite <-(take_drop i names) at 2; by rewrite E, app_nil_r).
      rewrite Htk in Hw. by simplify_eq.
    - destruct (descend_above (Dir cs) (take i names) (y :: r) v) as [c Hc']; [by rewrite <-E, take_drop|done|]. by simplify_eq/=. }
  rewrite names_valid, join_names. erewrite exec_try_Ok; [|done]. erewrite exec_try_Ok; [|by eapply reject_Ok].
  erewrite exec_try_Ok; [|by eapply base_canonical]. cbn [app].
  erewrite exec_try_Ok; [|apply exec_call_Ok; unfold perform; by rewrite (metadata_below d n _ _ fs Ht), Hv].
  cbn [fmap option_fmap option_map]. rewrite Hc.
  erewrite exec_try_Ok; [|by apply exec_call_Ok, (canonical_exec (Dir cs) names v)].
  unfold starts_with. by rewrite bool_decide_eq_true_2.
Qed.

(** ** Parent directories *)

Lemma create_parents_exec cs names x fs :
  tops fs !! d = Some KDir → at_tree d n (Dir cs) fs → (∀ i, dir_or_none (descend (Dir cs) (take i names))) →
  exec (create_contained_parent_directories [d; n] (Normal <$> names ++ [x])) fs =
  (Finished (Ok tt), with_tree d n (mkdirs (Dir cs) [] names) fs).
Proof.
  intros Hd Ht Hn. unfold create_contained_parent_directories. rewrite parent_of_names, removelast_snoc, names_valid. cbv zeta.
  erewrite exec_try_Ok; [|done]. unfold securely_create_parent_directories.
  erewrite exec_try_Ok; [|erewrite exec_try_Ok; [reflexivity|by apply (open_parent_exec d n cs)] ].
  assert (∀ i, ∃ c, descend (mkdirs (Dir cs) [] names) (take i names) = Some (Dir c)) as Hdirs.
  { intros i. apply (mkdirs_dirs (Dir cs) [] names i); [by eexists|done]. }
  destruct (Hdirs 0%nat) as [c0 H0]. rewrite take_0 in H0. cbn [descend] in H0. injection H0 as H0.
  destruct (Hdirs (length names)) as [cl Hl]. rewrite take_ge in Hl by lia.
  unfold revalidate_contained_directory. rewrite H0 in *.
  apply (revalidate_exec c0 names (Dir cl) (λ k, is_reparse k || negb (is_dir k))); [done|apply at_with_tree|done|done|done].
Qed.

(** ** A new file *)

Lemma create_new_exec cs names x fs :
  tops fs !! d = Some KDir → at_tree d n (Dir cs) fs →
  (∀ i, ∃ c, descend (Dir cs) (take i names) = Some (Dir c)) → descend (Dir cs) (names ++ [x]) = None →
  exec (create_new_contained_file [d; n] (Normal <$> names ++ [x])) fs =
  (Finished (Ok (d :: n :: names ++ [x])), with_tree d n (put (Dir cs) (names ++ [x]) (File "")) fs).
Proof.
  intros Hd Ht Hn Hx. unfold create_new_contained_file. rewrite names_valid. erewrite exec_try_Ok; [|done].
  rewrite bool_decide_eq_false_2 by (by destruct names). unfold securely_create_new_file.
  rewrite parent_of_names, removelast_snoc.
  destruct (Hn (length names)) as [cl Hl]. rewrite take_ge in Hl by lia.
  assert (can_put (Dir cs) (names ++ [x])) as Hput by (exists cl; by rewrite removelast_snoc).
  set (t' := put (Dir cs) (names ++ [x]) (File "")).
  assert (descend t' (names ++ [x]) = Some (File "")) as Hnew by (apply descend_put_eq; [by destruct names|done]).
  assert (∃ c, t' = Dir c) as [c' Ht'].
  { destruct (descend_put_above (Dir cs) (names ++ [x]) [] (File "") Hput) as [c Hc];
      [apply prefix_nil|by destruct names|]. exists c. by injection Hc. }
  erewrite exec_try_Ok.
  2: { erewrite exec_try_Ok; [|apply (open_parent_exec d n cs); [done|intros i; right; apply Hn] ].
       rewrite mkdirs_same by (intros i; cbn [app]; destruct (Hn i) as [? ->]; done). rewrite with_tree_same by done.
       unfold leaf. rewrite file_name_snoc. erewrite exec_try_Ok; [|done]. cbn [app].
       erewrite exec_try_Ok; [reflexivity|]. apply exec_call_Ok.
       change (perform (CreateNew (d :: n :: names ++ [x])) fs) with (create (d :: n :: names ++ [x]) (File "") fs).
       rewrite (create_below d n (Dir cs)) by (done || by destruct names). by rewrite removelast_snoc, Hl, Hx. }
  fold t'. erewrite exec_try_Ok; [|apply exec_call_Ok, (handle_metadata_exec d n t' (names ++ [x]) (File "")); [apply at_with_tree|done] ].
  cbn [fst kind]. change (is_reparse KFile || negb (is_file KFile)) with false. cbv iota.
  erewrite exec_try_Ok; [reflexivity|]. unfold revalidate_contained_path. rewrite Ht' in *.
  apply (revalidate_exec c' (names ++ [x]) (File "") (λ k, is_reparse k || negb (is_file k))); [done|apply at_with_tree|done|done|done].
Qed.

(** ** The copy *)

(** A source that delivers [bytes] in non-empty chunks and then ends. *)
Inductive delivers : list (result Error string) → string → Prop :=
| delivers_end : delivers [] ""
| delivers_eof l : delivers (Ok "" :: l) ""
| delivers_chunk chunk l bytes : chunk ≠ "" → delivers l bytes → delivers (Ok chunk :: l) (chunk +:+ bytes).

Lemma write_exec t p old bytes fs :
  at_tree d n t fs → descend t p = Some (File old) →
  perform (WriteAll (d :: n :: p) bytes) fs = (Ok tt, with_tree d n (put t p (File (old +:+ bytes))) fs).
Proof. intros Ht Hp. unfold perform. rewrite (node_at_below d n _ _ _ Ht), Ht, Hp. done. Qed.

Lemma copy_chunks_exec t p size copied old acc reads bytes fs :
  at_tree d n t fs → p ≠ [] → can_put t p → descend t p = Some (File old) → delivers reads bytes →
  (copied + str_len bytes <= size)%N → (size <= u64_max)%N →
  exec (copy_chunks (d :: n :: p) size copied acc reads) fs =
  (Finished (Ok (copied + str_len bytes, acc +:+ bytes)%N), with_tree d n (put t p (File (old +:+ bytes))) fs).
Proof.
  intros Ht Hne Hput Hp Hd. revert t old copied acc fs Ht Hput Hp.
  assert (∀ t old fs, at_tree d n t fs → can_put t p → descend t p = Some (File old) →
    fs = with_tree d n (put t p (File (old +:+ ""))) fs) as Hsame.
  { intros t old fs Ht Hput Hp. by rewrite str_app_nil_r, put_same, with_tree_same. }
  induction Hd as [|l|chunk l bytes Hc Hd IH]; intros t old copied acc fs Ht Hput Hp Hs Hm; cbn [copy_chunks].
  - unfold str_len. cbn [String.length N.of_nat]. rewrite N.add_0_r, str_app_nil_r. cbn [exec]. f_equal. by apply Hsame.
  - unfold str_len. cbn [str_is_empty String.length N.of_nat]. rewrite N.add_0_r, str_app_nil_r. cbn [exec]. f_equal. by apply Hsame.
  - rewrite str_len_app in *. destruct (str_is_empty chunk) eqn:He; [by destruct chunk|].
    unfold checked_add. destruct (N.leb_spec (copied + str_len chunk) u64_max); [|lia]. cbn [ok_or].
    erewrite exec_try_Ok; [|done]. destruct (N.ltb_spec size (copied + str_len chunk)); [lia|].
    erewrite exec_try_Ok; [|by apply exec_call_Ok, write_exec].
    erewrite IH; [|apply at_with_tree|..].
    + rewrite with_tree_twice, put_put by assumption. rewrite (str_app_assoc acc), (str_app_assoc old), N.add_assoc. reflexivity.
    + by apply can_put_put.
    + by apply descend_put_eq.
    + lia.
    + done.
Qed.

Lemma staged_chunks_exec fuel t p b total fs :
  at_tree d n t fs → descend t p = Some (File b) → (str_len b < u64_max)%N → (total <= str_len b)%N →
  (N.to_nat (str_len b - total) + 2 ≤ fuel)%nat →
  exec (staged_chunks fuel (d :: n :: p) (str_len b) total (String.substring 0 (N.to_nat total) b)) fs =
  (Finished (Ok (str_len b, b)), fs).
Proof.
  intros Ht Hp Hmax. revert total. induction fuel as [|fuel IH]; intros total Htot Hf; [lia|].
  cbn [staged_chunks]. erewrite exec_try_Ok; [|by apply exec_call_Ok, (read_chunk_exec d n t p b)].
  set (chunk := String.substring (N.to_nat total) (N.to_nat BUFFER) b).
  assert (str_len chunk = N.min BUFFER (str_len b - total)) as Hlen.
  { unfold chunk, str_len. rewrite substring_length. unfold str_len in *. lia. }
  destruct (str_is_empty chunk) eqn:He.
  - assert (total = str_len b) as ->.
    { destruct chunk; [|done]. unfold str_len in Hlen at 1. simpl in Hlen. unfold BUFFER in Hlen. lia. }
    unfold str_len at 2. rewrite Nat2N.id, substring_all by done. done.
  - apply str_is_empty_len in He. unfold checked_add.
    destruct (N.leb_spec (total + str_len chunk) u64_max); [|lia]. cbn [ok_or].
    erewrite exec_try_Ok; [|done]. destruct (N.ltb_spec (str_len b) (total + str_len chunk)); [lia|].
    assert (String.substring 0 (N.to_nat total) b +:+ chunk = String.substring 0 (N.to_nat (total + str_len chunk)) b) as ->.
    { unfold chunk at 1. rewrite substring_app. destruct (decide (BUFFER <= str_len b - total)%N).
      - f_equal. lia.
      - rewrite !substring_all; [done|unfold str_len in *; lia..]. }
    apply IH; lia.
Qed.

(** A good source for an artifact. *)
Record supplies (sha : string → string) (a : Artifact) (f : SourceFile) (bytes : string) : Prop := {
  sup_open : sf_open f = Ok tt;
  sup_metadata : sf_metadata f = Ok (KFile, size a);
  sup_reads : delivers (sf_reads f) bytes;
  sup_size : str_len bytes = size a;
  sup_hash : sha bytes = sha256 a;
}.

Lemma map_err_prog_exec {A} (p : prog (result Error A)) g fs a fs' :
  exec p fs = (Finished (Ok a), fs') → exec (map_err_prog p g) fs = (Finished (Ok a), fs').
Proof. intros H. unfold map_err_prog. by rewrite exec_bind, H. Qed.

Lemma verify_staged_exec sha t names x bytes a fs :
  at_tree d n t fs → descend t (names ++ [x]) = Some (File bytes) → str_len bytes = size a → sha bytes = sha256 a →
  (size a < u64_max)%N →
  exec (verify_staged sha [d; n] (Normal <$> names ++ [x]) a) fs = (Finished (Ok tt), fs).
Proof.
  intros Ht Hb Hsize Hsha Hmax. unfold verify_staged.
  erewrite exec_try_Ok; [|eapply map_err_prog_exec, open_existing_Ok; done].
  erewrite exec_try_Ok; [|apply exec_call_Ok, (handle_metadata_exec d n t (names ++ [x])); done].
  cbn [fst snd kind]. change (negb (is_file KFile)) with false. rewrite Hsize, N.eqb_refl. cbn [orb negb].
  erewrite exec_try_Ok.
  2: { rewrite <-Hsize. rewrite <-(substring_0 bytes). apply (staged_chunks_exec _ t _ bytes 0); [done|done|lia..]. }
  cbn [fst snd]. rewrite Hsize, N.eqb_refl, Hsha, String.eqb_refl. done.
Qed.

Lemma copy_exec sha a f bytes cs names x fs :
  supplies sha a f bytes → (size a < u64_max)%N → tops fs !! d = Some KDir → at_tree d n (Dir cs) fs →
  (∀ i, ∃ c, descend (Dir cs) (take i names) = Some (Dir c)) → descend (Dir cs) (names ++ [x]) = None →
  exec (copy_import_artifact sha f [d; n] (Normal <$> names ++ [x]) a) fs =
  (Finished (Ok tt), with_tree d n (put (Dir cs) (names ++ [x]) (File bytes)) fs).
Proof.
  intros [Ho Hmd Hr Hsize Hsha] Hmax Hd Ht Hn Hx. unfold copy_import_artifact. rewrite Ho, Hmd.
  erewrite exec_try_Ok; [|done]. erewrite exec_try_Ok; [|done]. cbn [fst snd]. change (negb (is_file KFile)) with false.
  rewrite N.eqb_refl. cbn [negb]. erewrite exec_try_Ok; [|by eapply map_err_prog_exec, create_new_exec].
  destruct (Hn (length names)) as [cl Hl]. rewrite take_ge in Hl by lia. assert (names ++ [x] ≠ []) as Hne by by destruct names.
  assert (can_put (Dir cs) (names ++ [x])) as Hput by (exists cl; by rewrite removelast_snoc).
  set (t' := put (Dir cs) (names ++ [x]) (File "")).
  assert (descend t' (names ++ [x]) = Some (File "")) as Hnew by by apply descend_put_eq.
  assert (can_put t' (names ++ [x])) as Hput' by by apply can_put_put.
  erewrite exec_try_Ok.
  2: { apply (copy_chunks_exec t' (names ++ [x]) (size a) 0 "" "" (sf_reads f) bytes); try done; [apply at_with_tree|lia..]. }
  rewrite with_tree_twice. unfold t'. rewrite put_put by done. change ("" +:+ bytes) with bytes.
  set (t'' := put (Dir cs) (names ++ [x]) (File bytes)).
  assert (descend t'' (names ++ [x]) = Some (File bytes)) as Hfile by by apply descend_put_eq.
  pose proof (at_with_tree d n t'' fs) as Hat.
  erewrite exec_try_Ok.
  2: { apply exec_call_Ok. unfold perform. rewrite (metadata_below d n t'' (names ++ [x]) _ Hat), Hfile. reflexivity. }
  cbn [fst snd]. rewrite N.add_0_l, Hsize, N.eqb_refl. cbn [negb]. cbv zeta. rewrite Hsha, String.eqb_refl. cbn [negb].
  by apply (verify_staged_exec sha t'' names x bytes).
Qed.

End artifact.

(** * All artifacts

    [holds t files]: the tree has exactly these files; every path in it is above one of
    them. *)

Record holds (t : Node) (files : list (list string * string)) : Prop := {
  ho_files : ∀ p b, (p, b) ∈ files → descend t p = Some (File b);
  ho_only : ∀ q v, descend t q = Some v → q = [] ∨ ∃ p b, (p, b) ∈ files ∧ q `prefix_of` p;
  ho_dir : ∃ cs, t = Dir cs;
  ho_plain : plain t = true;
}.

Lemma holds_empty : holds (Dir []) [].
Proof. split; [by intros ? ? ?%elem_of_nil| |by eexists|done]. intros [|x q] v Hq; [by left|done]. Qed.

Definition apart_from (p : list string) (files : list (list string * string)) : Prop :=
  ∀ q b, (q, b) ∈ files → ¬ p `prefix_of` q ∧ ¬ q `prefix_of` p.

(** Adding one file where no other is above or below. *)
Definition grow (t : Node) (names : list string) (x : string) (bytes : string) : Node :=
  put (mkdirs t [] names) (names ++ [x]) (File bytes).

Lemma holds_dirs t files names x :
  holds t files → apart_from (names ++ [x]) files →
  (∀ i, dir_or_none (descend t (take i names))) ∧ descend t (names ++ [x]) = None.
Proof.
  intros [Hf Ho [cs ->] _] Ha. split.
  - intros i. destruct (descend (Dir cs) (take i names)) as [v|] eqn:E; [|by left].
    right. destruct (Ho _ _ E) as [Hnil|(p & b & Hp & [r Hr])].
    + rewrite Hnil in E. simplify_eq/=. by eexists.
    + destruct r as [|y r].
      * exfalso. rewrite app_nil_r in Hr. destruct (Ha p b Hp) as [_ Hn]. apply Hn. rewrite Hr.
        apply prefix_app_r. exists (drop i names). by rewrite take_drop.
      * pose proof (Hf p b Hp) as Hd. rewrite Hr in Hd. apply descend_above in Hd as [c Hc]; [|done].
        simplify_eq. by eexists.
  - destruct (descend (Dir cs) (names ++ [x])) as [v|] eqn:E; [|done]. exfalso.
    destruct (Ho _ _ E) as [Hnil|(p & b & Hp & Hpre)]; [by destruct names|]. by destruct (Ha p b Hp).
Qed.

Lemma holds_grow t files names x bytes :
  holds t files → apart_from (names ++ [x]) files → holds (grow t names x bytes) ((names ++ [x], bytes) :: files).
Proof.
  intros Hh Ha. destruct (holds_dirs t files names x Hh Ha) as [Hdirs Hnone]. destruct Hh as [Hf Ho [cs ->] Hpl].
  set (t1 := mkdirs (Dir cs) [] names).
  assert (∀ i, ∃ c, descend t1 (take i names) = Some (Dir c)) as Hd1.
  { intros i. apply (mkdirs_dirs (Dir cs) [] names i); [by eexists|done]. }
  destruct (Hd1 (length names)) as [cl Hl]. rewrite take_ge in Hl by lia. assert (names ++ [x] ≠ []) as Hne by by destruct names.
  assert (can_put t1 (names ++ [x])) as Hput by (exists cl; by rewrite removelast_snoc).
  assert (∀ q, ¬ q `prefix_of` names → descend t1 q = descend (Dir cs) q) as Hother.
  { intros q Hq. apply mkdirs_other; [by eexists|done|done]. }
  assert (∀ q, ¬ q `prefix_of` names ++ [x] → ¬ names ++ [x] `prefix_of` q → descend (grow (Dir cs) names x bytes) q = descend (Dir cs) q) as Hrest.
  { intros q Hq1 Hq2. unfold grow. rewrite descend_put_ne by done. apply Hother. intros Hp. apply Hq1. by apply prefix_app_r. }
  split.
  - intros p b [[= -> ->]|Hp]%elem_of_cons; [by apply descend_put_eq|].
    destruct (Ha p b Hp) as [H1 H2]. rewrite Hrest by done. by apply Hf.
  - intros q v Hq. destruct (decide (q `prefix_of` names ++ [x])) as [Hp|Hp].
    { right. exists (names ++ [x]), bytes. split; [left|done]. }
    destruct (decide (names ++ [x] `prefix_of` q)) as [[r ->]|Hp2].
    + rewrite descend_app in Hq. unfold grow in Hq. rewrite descend_put_eq in Hq by done. simpl in Hq.
      destruct r as [|y r]; [|done]. exfalso. apply Hp. by rewrite app_nil_r.
    + rewrite Hrest in Hq by done. destruct (Ho q v Hq) as [->|(p & b & Hin & Hpre)]; [by left|].
      right. exists p, b. split; [by right|done].
  - destruct (descend_put_above t1 (names ++ [x]) [] (File bytes) Hput) as [c Hc]; [apply prefix_nil|done|].
    exists c. by injection Hc.
  - apply plain_put; [|done]. by apply mkdirs_plain.
Qed.

Lemma grow_height t names x bytes : (height (grow t names x bytes) ≤ height t `max` S (length names))%nat.
Proof.
  unfold grow. etrans; [apply height_put|]. pose proof (mkdirs_height t [] names). rewrite length_app. simpl in *. lia.
Qed.

(** ** Compatible paths are apart *)

Lemma str_split_cons c s : ∃ h l, str_split c s = h :: l.
Proof.
  destruct (str_split_snoc c s) as (names & x & ->). destruct names as [|y names]; simpl; eauto.
Qed.

Lemma split_prefix c p q : str_split c p `prefix_of` str_split c q → p = q ∨ ∃ r, q = p +:+ String c r.
Proof.
  revert q. induction p as [|a p IH]; intros q Hp.
  - destruct q as [|b q]; [by left|]. right. simpl in Hp. destruct (Ascii.eqb_spec b c) as [->|]; [by exists q|].
    destruct (str_split_cons c q) as (h & l & E). rewrite E in Hp. by apply prefix_cons_inv_1 in Hp.
  - cbn [str_split] in Hp. destruct (Ascii.eqb_spec a c) as [->|Ha].
    + destruct q as [|b q].
      { apply prefix_cons_inv_2, prefix_nil_inv in Hp. destruct (str_split_cons c p) as (h & l & E). congruence. }
      cbn [str_split] in Hp. destruct (Ascii.eqb_spec b c) as [->|Hb].
      * apply prefix_cons_inv_2 in Hp. destruct (IH q Hp) as [->|[r ->]]; [by left|]. right. by exists r.
      * destruct (str_split_cons c q) as (h & l & E). rewrite E in Hp. by apply prefix_cons_inv_1 in Hp.
    + destruct (str_split_cons c p) as (h & l & E). rewrite E in Hp. destruct q as [|b q].
      { by apply prefix_cons_inv_1 in Hp. }
      cbn [str_split] in Hp. destruct (Ascii.eqb_spec b c) as [->|Hb]; [by apply prefix_cons_inv_1 in Hp|].
      destruct (str_split_cons c q) as (h' & l' & E'). rewrite E' in Hp.
      apply prefix_cons_inv_1 in Hp as Hh. apply prefix_cons_inv_2 in Hp. injection Hh as <- <-.
      destruct (IH q) as [->|[r ->]]; [rewrite E, E'; by apply prefix_cons|by left|]. right. by exists r.
Qed.

Lemma lowercase_app p r : to_ascii_lowercase (p +:+ r) = to_ascii_lowercase p +:+ to_ascii_lowercase r.
Proof. unfold to_ascii_lowercase. induction p as [|c p IH]; simpl; [done|]. by rewrite IH. Qed.

Lemma compatible_apart p q :
  compatible (to_ascii_lowercase p) (to_ascii_lowercase q) → ¬ str_split "/" p `prefix_of` str_split "/" q.
Proof.
  intros (Hne & Ha & _) [->|[r ->]]%split_prefix; [done|].
  rewrite lowercase_app in Ha. unfold is_path_ancestor in Ha. by rewrite strip_prefix_app in Ha.
Qed.

(** ** The loop *)

(** The place of the next artifact in a tree that holds [files]. *)
Lemma slot_for t files a :
  holds t files → contained (path a) → apart_from (str_split "/" (path a)) files → (height t ≤ 1025)%nat →
  ∃ names x cs c1, str_split "/" (path a) = names ++ [x] ∧ components (path a) = Normal <$> names ++ [x] ∧ t = Dir cs ∧
    (∀ i, dir_or_none (descend (Dir cs) (take i names))) ∧ mkdirs (Dir cs) [] names = Dir c1 ∧
    (∀ i, ∃ c, descend (Dir c1) (take i names) = Some (Dir c)) ∧ descend (Dir c1) (names ++ [x]) = None ∧
    ∀ b, holds (put (Dir c1) (names ++ [x]) (File b)) ((names ++ [x], b) :: files) ∧
         (height (put (Dir c1) (names ++ [x]) (File b)) ≤ 1025)%nat.
Proof.
  intros Hh Hc Ha Hheight. destruct (str_split_snoc "/" (path a)) as (names & x & Hnames). rewrite Hnames in Ha.
  destruct (holds_dirs t files names x Hh Ha) as [Hdirs Hnone]. destruct (ho_dir _ _ Hh) as [cs ->].
  assert (∀ i, ∃ c, descend (mkdirs (Dir cs) [] names) (take i names) = Some (Dir c)) as Hd1.
  { intros i. apply (mkdirs_dirs (Dir cs) [] names i); [by eexists|done]. }
  destruct (Hd1 0%nat) as [c1 H1]. rewrite take_0 in H1. cbn [descend] in H1. injection H1 as H1.
  assert (length names < 1025)%nat as Hlen.
  { assert (length (str_split "/" (path a)) ≤ S (String.length (path a)))%nat as Hs.
    { clear. generalize (path a). intros s. induction s as [|c s IH]; simpl; [lia|].
      destruct (Ascii.eqb _ _); simpl; [lia|]. destruct (str_split "/" s); simpl in *; lia. }
    destruct (ct_length _ Hc) as [_ Hb]. unfold str_len in Hb. rewrite Hnames, length_app in Hs. simpl in Hs. lia. }
  exists names, x, cs, c1. rewrite <-H1. split_and!; try done.
  - by rewrite (ct_components _ Hc), Hnames.
  - rewrite mkdirs_other; [done|by eexists|done|]. intros Hp%prefix_length. rewrite length_app in Hp. simpl in Hp. lia.
  - intros b. split; [by apply holds_grow|]. change (height (grow (Dir cs) names x b) ≤ 1025)%nat. etrans; [apply grow_height|]. lia.
Qed.

(** Artifacts that are apart stay apart from what has been placed. *)
Definition all_apart (l : list Artifact) : Prop :=
  List.ForallOrdPairs (λ a b, ¬ str_split "/" (path a) `prefix_of` str_split "/" (path b) ∧
                              ¬ str_split "/" (path b) `prefix_of` str_split "/" (path a)) l.
Lemma next_apart a l b files :
  all_apart (a :: l) → Forall (λ a, apart_from (str_split "/" (path a)) files) l →
  Forall (λ a', apart_from (str_split "/" (path a')) ((str_split "/" (path a), b) :: files)) l.
Proof.
  intros Hpairs Hap. inversion Hpairs as [|a' l' Hfirst Hrest]; subst. rewrite Forall_forall in *.
  intros c Hc q y [[= -> ->]|Hq]%elem_of_cons; [|by eapply Hap]. specialize (Hfirst c Hc). naive_solver.
Qed.

Section loop.
Context (sha : string → string) (src : Source) (content : Artifact → string) (d n : string).

Definition file_of (a : Artifact) : list string * string := (str_split "/" (path a), content a).

Definition supplied (a : Artifact) : Prop :=
  ∃ f, source_artifact src a = (Ok tt, f) ∧ supplies sha a f (content a).

Lemma copy_artifacts_exec l files t fs :
  tops fs !! d = Some KDir → at_tree d n t fs → holds t files →
  Forall (λ a, contained (path a) ∧ (size a < u64_max)%N ∧ supplied a) l →
  Forall (λ a, apart_from (str_split "/" (path a)) files) l → all_apart l →
  (height t ≤ 1025)%nat →
  ∃ t', exec (copy_artifacts sha src [d; n] l) fs = (Finished (Ok tt), with_tree d n t' fs) ∧
        holds t' (reverse (file_of <$> l) ++ files) ∧ (height t' ≤ 1025)%nat.
Proof.
  intros Hd. revert files t fs Hd. induction l as [|a l IH]; intros files t fs Hd Ht Hh Hl Hap Hpairs Hheight.
  { exists t. cbn [copy_artifacts exec]. rewrite with_tree_same by done. done. }
  apply Forall_cons in Hl as [(Hc & Hmax & f & Hsrc & Hsup) Hl]. apply Forall_cons in Hap as [Ha Hap].
  destruct (slot_for t files a Hh Hc Ha Hheight) as (names & x & cs & c1 & Hnames & Hcomp & -> & Hdirs & H1 & Hd1 & Hnone & Hput).
  cbn [copy_artifacts]. rewrite Hsrc. cbv zeta. rewrite Hcomp.
  erewrite exec_try_Ok; [|done]. erewrite exec_try_Ok; [|by eapply map_err_prog_exec, create_parents_exec]. rewrite H1.
  erewrite exec_try_Ok; [|apply (copy_exec d n sha a f (content a) c1 names x); try done; apply at_with_tree].
  rewrite with_tree_twice. destruct (Hput (content a)) as [Hh1 Hheight1]. rewrite <-Hnames in Hh1 at 2.
  destruct (IH _ _ (with_tree d n (put (Dir c1) (names ++ [x]) (File (content a))) fs) Hd (at_with_tree _ _ _ _) Hh1 Hl)
    as (t' & He & Hh' & Hht); [by apply next_apart|by inversion Hpairs|done|].
  exists t'. rewrite with_tree_twice in He. split; [exact He|]. split; [|done].
  by rewrite fmap_cons, reverse_cons, <-app_assoc.
Qed.

End loop.

(** * Preparing the staging directory *)

Section prepare.
Context (k : string) (E : gmap (string * string) Node).

Lemma view_set_top V d fs : viewed k E V fs → tops fs !! d = None → viewed k E V (set_top d fs).
Proof.
  intros [[L1 L2 L3 L4 L5] ] Hd. split; try done. split; simpl; try done.
  1-3: rewrite lookup_insert_ne; [done|]; intros ->; congruence.
  destruct (decide (d = "quarantine")) as [->|]; [right; apply lookup_insert_eq|by rewrite lookup_insert_ne].
Qed.

Lemma view_unstage V fs :
  viewed k E V fs →
  viewed k E (mk_View (final V) None (marked V) (backup V) (kept V)) (drop_entry "staging" (k +:+ ".partial") fs).
Proof.
  intros H. pose proof H as [? H1 H2 H3 H4 _ (T1 & T2 & T3)]. simpl in H1, H2, H3, H4.
  eapply viewed_intro; [exact H|done|done|done|..]; simpl.
  - by rewrite lookup_delete_ne.
  - by rewrite lookup_delete_eq.
  - rewrite lookup_delete_ne; [done|by intros [=]].
  - rewrite lookup_delete_ne; [done|by intros [=]].
  - intros p Hp. rewrite lookup_delete_ne; [done|]. intros <-. apply Hp. right. left.
  - split_and!; simpl; [done|done|done].
Qed.

Definition free_top (d : string) (fs : Fs) : Prop := tops fs !! d = None ∨ tops fs !! d = Some KDir.

(** Everything here happens to a cache with [f] installed and something staged: that holds
    wherever it stops, and a failure says no more. *)
Definition with_staged (f st : option Node) : View := mk_View f st false None None.
Definition safe_point (b : bool) (f : option Node) (C : Fs → Prop) (Q : result Error unit → Fs → Prop) : Prop :=
  ∀ st s, viewed k E (with_staged f st) s → C s ∧ (b = true → ∀ e, Q (Err e) s).

Lemma wp_quiet {A} b (p : prog (result Error A)) (c : A → prog (result Error unit)) a f st C Q fs :
  safe_point b f C Q → settles b p fs a → viewed k E (with_staged f st) fs →
  (∀ s, quiet fs s → viewed k E (with_staged f st) s → wp b (c a) C Q s) → wp b (try p c) C Q fs.
Proof.
  intros HS Hp HV Hk. eapply (wp_viewed k E b); [exact Hp|by apply HS|exact HV|reflexivity|]. intros s Hs Hv _. by apply Hk.
Qed.

(** A call that leaves a view, done or disturbed. *)
Lemma wp_change {R} b (o : Op R) r (c : R → prog (result Error unit)) f st st' C Q fs :
  safe_point b f C Q → viewed k E (with_staged f st) fs →
  perform o fs = (Ok r, (perform o fs).2) → viewed k E (with_staged f st') (perform o fs).2 →
  (∀ d, ∃ e st'', (react (Disturbed d) o fs).1 = Err e ∧ viewed k E (with_staged f st'') (react (Disturbed d) o fs).2) →
  wp b (c r) C Q (perform o fs).2 → wp b (try (call o) c) C Q fs.
Proof.
  intros HS HV Hp Hv Hd Hk. apply wp_try, wp_lift. cbn [wp io]. split_and!; [by eapply HS| |].
  - rewrite Hp. cbn [fst snd map_err]. done.
  - intros Hb d. destruct (Hd d) as (e & st'' & -> & Hv''). cbn [map_err]. by eapply HS.
Qed.

Lemma prepare_directories_wp b l f st C Q fs :
  safe_point b f C Q → viewed k E (with_staged f st) fs → Forall (λ d, free_top d fs) l →
  (∀ s, viewed k E (with_staged f st) s → Q (Ok tt) s) →
  wp b (prepare_directories l) C Q fs.
Proof.
  intros HS. revert fs. induction l as [|d l IH]; intros fs HV Hl HQ; [by apply HQ|].
  apply Forall_cons in Hl as [Hd Hl]. cbn [prepare_directories].
  assert (perform (CreateDirAll [d]) fs = (Ok tt, (perform (CreateDirAll [d]) fs).2) ∧
    let s := (perform (CreateDirAll [d]) fs).2 in
    viewed k E (with_staged f st) s ∧ tops s !! d = Some KDir ∧ Forall (λ d, free_top d s) l) as (Hp & Hv & Hds & Hls).
  { unfold perform. destruct Hd as [Hd|Hd]; rewrite Hd; cbn [snd]; split_and!; try done.
    - by apply view_set_top.
    - apply lookup_insert_eq.
    - eapply Forall_impl; [exact Hl|]. intros e He. unfold free_top. simpl.
      destruct (decide (d = e)) as [->|]; [right; apply lookup_insert_eq|by rewrite lookup_insert_ne]. }
  eapply (wp_change b _ tt); [done|exact HV|exact Hp|exact Hv|intros x; by exists IoFault, st|].
  set (s := (perform (CreateDirAll [d]) fs).2) in *. clearbody s.
  eapply wp_quiet; [done|by apply settles_contained; [|eapply linked_top]|exact Hv|]. intros s1 Hq1 Hs1.
  eapply wp_quiet; [done|eapply settles_lift, settles_sync|exact Hs1|].
  { destruct Hq1 as (Ht & _). simpl. by rewrite Ht. }
  intros s2 Hq2 Hs2. apply IH; [done| |done]. destruct Hq1 as (Ht1 & _), Hq2 as (Ht2 & _).
  eapply Forall_impl; [exact Hls|]. intros e He. unfold free_top in *. by rewrite Ht2, Ht1.
Qed.

(** From an empty place on. *)
Lemma create_staging_wp b f C Q fs :
  safe_point b f C Q → viewed k E (with_staged f None) fs →
  (∀ s, viewed k E (with_staged f (Some (Dir []))) s → Q (Ok tt) s) →
  wp b (do? _ := call (CreateDirAll (staging_dir k)) in
        do? _ := ensure_contained_directory [] (staging_dir k) in
        do? _ := call (SyncDir (staging_dir k)) in
        do? _ := call (SyncDir (parent (staging_dir k))) in
        call (SyncDir [])) C Q fs.
Proof.
  intros HS HV HQ.
  assert (perform (CreateDirAll (staging_dir k)) fs = (Ok tt, set_entry "staging" (k +:+ ".partial") (Dir []) fs)) as Hp.
  { unfold perform, staging_dir. rewrite (lay_staging _ (vw_layout _ _ _ _ HV)). pose proof (vw_staged _ _ _ _ HV) as H. simpl in H. by rewrite H. }
  assert (viewed k E (with_staged f (Some (Dir []))) (set_entry "staging" (k +:+ ".partial") (Dir []) fs)) as Hv.
  { eapply (viewed_quiet k E _ (set_below "staging" (k +:+ ".partial") (Dir []) fs)); [done|].
    apply (view_staged k E _ (Dir []) fs HV). by eexists. }
  eapply (wp_change b _ tt); [done|exact HV|by rewrite Hp|rewrite Hp; exact Hv|intros x; by exists IoFault, None|]. rewrite Hp. cbn [snd].
  pose proof (vw_staged _ _ _ _ Hv) as Hst. simpl in Hst.
  eapply wp_quiet; [done|apply settles_contained|exact Hv|].
  { simpl. by rewrite Hst. }
  { eapply linked_entry; [apply Hv|exact Hst]. }
  intros s1 Hq1 Hs1. eapply wp_quiet; [done|eapply settles_lift, settles_sync; by rewrite (viewed_staged k E _ s1 Hs1)|exact Hs1|].
  intros s2 _ Hs2. eapply wp_quiet; [done|eapply settles_lift, settles_sync; simpl; apply Hs2|exact Hs2|].
  intros s3 _ Hs3. apply wp_lift. eapply wp_sync; [done|by eapply HS| |intros Hb; by eapply HS]. apply HQ.
  eapply viewed_quiet; [apply calm_flush|done].
Qed.

Lemma prepare_staging_wp b f st C Q fs :
  safe_point b f C Q → viewed k E (with_staged f st) fs → free_top "locks" fs →
  (∀ s, viewed k E (with_staged f (Some (Dir []))) s → Q (Ok tt) s) →
  wp b (prepare_staging (staging_dir k)) C Q fs.
Proof.
  intros HS HV Hl HQ. unfold prepare_staging. apply wp_try. eapply prepare_directories_wp; [|done| |].
  { intros st' s Hs. destruct (HS st' s Hs) as [H1 H2]. done. }
  { destruct (vw_layout _ _ _ _ HV). rewrite !Forall_cons. unfold free_top in *. split_and!; auto. }
  intros s Hs. eapply wp_quiet; [done|by eapply settles_lift, settles_sync|exact Hs|]. intros s1 _ Hs1.
  eapply wp_quiet; [done|apply settles_metadata_if_exists|exact Hs1|]. intros s2 _ Hs2.
  rewrite (viewed_staged k E _ s1 Hs1). cbn [staged with_staged].
  destruct st as [t|]; cbn [fmap option_fmap option_map]; [|apply wp_try; by apply (create_staging_wp b f)].
  destruct (vw_trees _ _ _ _ Hs2) as (_ & Ht & _). destruct (Ht t eq_refl) as [cs ->]. cbn [kind].
  change (is_reparse KDir || negb (is_dir KDir)) with false. cbv iota. apply wp_try.
  pose proof (vw_staged _ _ _ _ Hs2) as Hst. simpl in Hst.
  assert (perform (RemoveDirAll (staging_dir k)) s2 = (Ok tt, drop_entry "staging" (k +:+ ".partial") s2)) as Hp.
  { unfold perform, staging_dir. by rewrite Hst. }
  pose proof (view_unstage _ s2 Hs2) as Hv. cbn [final marked backup kept with_staged] in Hv.
  eapply (wp_change b _ tt); [|exact Hs2|by rewrite Hp|rewrite Hp; exact Hv| |].
  { intros st' x Hx. destruct (HS st' x Hx) as [H1 H2]. done. }
  { intros x. eexists IoFault, (Some (Dir (rest x))). split; [done|]. cbn [react staging_dir]. rewrite Hst. cbn [snd].
    eapply (viewed_quiet k E _ (set_below "staging" (k +:+ ".partial") (Dir (rest x)) s2)); [done|].
    apply (view_staged k E _ (Dir (rest x)) s2 Hs2). by eexists. }
  rewrite Hp. cbn [snd]. apply wp_lift. eapply wp_sync; [simpl; apply Hv|by eapply HS| |intros Hb; by eapply HS].
  cbn [map_err]. apply (create_staging_wp b f); [done| |done]. eapply viewed_quiet; [apply calm_flush|done].
Qed.

End prepare.

(** * Import end to end *)

Section import.
Context {U : UrlCrate} {J : JsonCrate}.
Context (sha256_hex : string → string) (to_vec : Identity.SemanticContract → result string string).
Context (trust_root : Identity.TrustRoot) (pid : N) (fuel : nat).

Lemma reconcile_unmarked k E V fs :
  viewed k E V fs → marked V = false → exec (reconcile_repair k pid fuel) fs = (Finished (Ok tt), fs).
Proof.
  intros HV Hm. unfold reconcile_repair. rewrite exec_bind. unfold io. cbn [exec]. unfold perform.
  by rewrite (viewed_marker k E V fs HV), Hm.
Qed.

Lemma pairs_of_lookup {A} (R : A → A → Prop) l :
  (∀ i j a b, l !! i = Some a → l !! j = Some b → i ≠ j → R a b) → List.ForallOrdPairs R l.
Proof.
  induction l as [|x l IH]; intros H; constructor.
  - apply Forall_forall. intros y Hy. apply list_elem_of_lookup in Hy as [j Hj]. by apply (H 0%nat (S j)).
  - apply IH. intros i j a b Hi Hj Hij. apply (H (S i) (S j)); [done|done|lia].
Qed.

Lemma safe_apart m :
  safe_manifest m → all_apart (artifacts m).
Proof.
  intros Hs. apply pairs_of_lookup. intros i j a b Hi Hj Hij. pose proof (sm_disjoint m Hs i j a b Hi Hj Hij) as Hc.
  split; [by apply compatible_apart|by apply compatible_apart, compatible_sym].
Qed.

Lemma write_manifest_exec m json d n t files fs :
  to_json m = Ok json → tops fs !! d = Some KDir → at_tree d n t fs → holds t files → apart_from [MANIFEST_FILE] files →
  exec (write_manifest m [d; n]) fs = (Finished (Ok tt), with_tree d n (grow t [] MANIFEST_FILE json) fs).
Proof.
  intros Hj Hd Ht Hh Ha. destruct (holds_dirs t files [] MANIFEST_FILE Hh Ha) as [Hdirs Hnone].
  destruct (ho_dir _ _ Hh) as [cs ->]. unfold write_manifest.
  change [Normal MANIFEST_FILE] with (Normal <$> [] ++ [MANIFEST_FILE]). cbv zeta.
  erewrite exec_try_Ok; [|by eapply map_err_prog_exec, create_parents_exec]. cbn [mkdirs]. rewrite with_tree_same by done.
  erewrite exec_try_Ok; [|eapply map_err_prog_exec, create_new_exec; [done|done| |done]; intros i; rewrite take_nil; by eexists].
  rewrite Hj. erewrite exec_try_Ok; [|done].
  assert (can_put (Dir cs) ([] ++ [MANIFEST_FILE])) as Hput by by exists cs.
  assert (descend (put (Dir cs) ([] ++ [MANIFEST_FILE]) (File "")) ([] ++ [MANIFEST_FILE]) = Some (File "")) as Hnew
    by by apply descend_put_eq.
  erewrite exec_try_Ok; [|apply exec_call_Ok, (write_exec d n (put (Dir cs) ([] ++ [MANIFEST_FILE]) (File "")) ([] ++ [MANIFEST_FILE]) "" json); [apply at_with_tree|done] ].
  rewrite with_tree_twice, put_put by done. apply exec_call_Ok. unfold perform.
  set (t2 := put (Dir cs) ([] ++ [MANIFEST_FILE]) (File ("" +:+ json))).
  rewrite (metadata_below d n t2 ([] ++ [MANIFEST_FILE]) _ (at_with_tree d n t2 fs)). unfold t2. by rewrite descend_put_eq.
Qed.

Lemma holds_manifest t files json m :
  holds t files → ([MANIFEST_FILE], json) ∈ files → to_json m = Ok json → json_from_slice json = Ok m → stored_manifest t = Ok m.
Proof.
  intros Hh Hin Hj Hp. pose proof (ho_files _ _ Hh _ _ Hin) as Hd. destruct (ho_dir _ _ Hh) as [cs ->]. cbn [descend] in Hd.
  unfold stored_manifest. destruct (child MANIFEST_FILE cs) as [v|]; simplify_eq/=.
  pose proof (to_json_from_json m json Hj Hp) as Hf. unfold to_json in Hj. inv_result. inv_bool.
  destruct (N.ltb_spec MAX_MANIFEST_BYTES (str_len json)); [lia|done].
Qed.

(** What the staged files are. *)
Definition staged_files (content : Artifact → string) (m : Manifest) (json : string) : list (list string * string) :=
  ([MANIFEST_FILE], json) :: reverse (file_of content <$> artifacts m).

Lemma staged_intact content src m json t :
  validate m = Ok tt → to_json m = Ok json → json_from_slice json = Ok m →
  Forall (supplied sha256_hex src content) (artifacts m) → holds t (staged_files content m json) →
  intact sha256_hex m t.
Proof.
  intros Hv Hj Hp Hs Hh. split; [by eapply holds_manifest; [exact Hh|left|..]|].
  pose proof (valid_artifacts m Hv) as Hc. rewrite Forall_forall in *. intros a Ha.
  destruct (Hs a Ha) as (f & _ & [_ _ _ H1 H2]). destruct (Hc a Ha) as [Hct _].
  exists (content a). split_and!; [|done|done]. apply (ho_files _ _ Hh). right. apply elem_of_reverse.
  apply list_elem_of_fmap. by exists a.
Qed.

(** No artifact lies below the identity record's name. *)
Definition beside_manifest (m : Manifest) : Prop :=
  Forall (λ a, head (str_split "/" (path a)) ≠ Some MANIFEST_FILE) (artifacts m).

Lemma beside_apart content m : beside_manifest m → apart_from [MANIFEST_FILE] (reverse (file_of content <$> artifacts m)).
Proof.
  unfold beside_manifest. rewrite Forall_forall. intros H q b Hq.
  apply elem_of_reverse, list_elem_of_fmap in Hq as (a & [= -> ->] & Ha). specialize (H a Ha).
  destruct (str_split_cons "/" (path a)) as (h & l & E). rewrite E in *. simpl in H.
  split; intros [=]%prefix_cons_inv_1; congruence.
Qed.

(** Copying and writing the identity record, on the prepared staging directory. *)
Lemma stage_exec content src m json d n fs :
  validate m = Ok tt → to_json m = Ok json → beside_manifest m → Forall (supplied sha256_hex src content) (artifacts m) →
  tops fs !! d = Some KDir → at_tree d n (Dir []) fs →
  ∃ t fs1, exec (copy_artifacts sha256_hex src [d; n] (artifacts m)) fs = (Finished (Ok tt), fs1) ∧
           exec (write_manifest m [d; n]) fs1 = (Finished (Ok tt), with_tree d n t fs) ∧
           holds t (staged_files content m json) ∧ (height t ≤ 1025)%nat.
Proof.
  intros Hv Hj Hb Hs Hd Ht.
  destruct (copy_artifacts_exec sha256_hex src content d n (artifacts m) [] (Dir []) fs) as (t1 & He & Hh & Hht); try done.
  - apply holds_empty.
  - pose proof (valid_artifacts m Hv) as Hc. rewrite Forall_forall in *. naive_solver.
  - apply Forall_forall. by intros a _ q b ?%elem_of_nil.
  - apply safe_apart. by apply validate_safe.
  - simpl. lia.
  - rewrite app_nil_r in Hh. exists (grow t1 [] MANIFEST_FILE json), (with_tree d n t1 fs). split; [done|].
    assert (apart_from [MANIFEST_FILE] (reverse (file_of content <$> artifacts m))) as Ha by by apply beside_apart.
    split; [|split].
    + erewrite write_manifest_exec; [by rewrite with_tree_twice|done|done|apply at_with_tree|done|done].
    + by apply (holds_grow t1 _ [] MANIFEST_FILE json).
    + etrans; [apply grow_height|]. simpl. lia.
Qed.

Lemma import_exec content src m k json E st fs :
  validate m = Ok tt → key sha256_hex to_vec m = Ok k → to_json m = Ok json → json_from_slice json = Ok m →
  beside_manifest m → source_checked src = Ok tt → Forall (supplied sha256_hex src content) (artifacts m) →
  room fuel E → (1025 ≤ fuel)%nat → viewed k E (mk_View None st false None None) fs → free_top "locks" fs →
  ∃ s t fs', exec (import sha256_hex to_vec trust_root pid fuel m src (Ok tt, Ok tt, Ok tt)) fs = (Finished (Ok s), fs') ∧
    installed s = true ∧ holds t (staged_files content m json) ∧ intact sha256_hex m t ∧
    viewed k E (mk_View (Some t) None false None None) fs'.
Proof.
  intros Hv Hk Hj Hp Hb Hsrc Hs Hroom Hfuel HV Hlocks. unfold import. cbv iota. rewrite Hv. erewrite exec_try_Ok; [|done].
  destruct (status_missing sha256_hex to_vec trust_root pid fuel m k E _ never fs never_idle Hv Hk Hroom HV eq_refl eq_refl) as [Hs1 Hs2].
  erewrite exec_try_Ok; [|exact Hs1]. change (installed Missing) with false. cbv iota.
  erewrite exec_try_Ok; [|done]. rewrite Hk. erewrite exec_try_Ok; [|done]. cbv beta.
  erewrite exec_try_Ok; [|by eapply reconcile_unmarked]. erewrite exec_try_Ok; [|exact Hs2]. change (installed Missing) with false.
  cbv iota. rewrite Hsrc. erewrite exec_try_Ok; [|done].
  destruct (wp_exec false (prepare_staging (staging_dir k)) (λ _, True)
    (λ r s, r = Ok tt ∧ viewed k E (mk_View None (Some (Dir [])) false None None) s) fs) as (r & fs1 & He1 & -> & Hv1).
  { by eapply prepare_staging_wp. }
  erewrite exec_try_Ok; [|exact He1]. pose proof (vw_staged _ _ _ _ Hv1) as Hst. simpl in Hst.
  destruct (stage_exec content src m json "staging" (k +:+ ".partial") fs1) as (t & fs2 & Hc & Hw & Hh & Hht); try done.
  { apply Hv1. }
  set (fs3 := with_tree "staging" (k +:+ ".partial") t fs1) in *.
  assert (viewed k E (mk_View None (Some t) false None None) fs3) as Hv3.
  { apply (view_staged k E _ t fs1 Hv1). by apply (ho_dir _ _ Hh). }
  destruct (replaced_exec k E (promote k pid fuel (staging_dir k)) _ _ _ fs3
    (promote_fresh_wp k pid fuel E false t (unsynced fs3) fs3 Hroom Hv3 (ho_plain _ _ Hh) ltac:(lia) ltac:(done)))
    as (fs4 & Hpr & Hv4 & _).
  rewrite exec_bind. unfold stage_and_promote at 1. erewrite exec_try_Ok; [|exact Hc]. erewrite exec_try_Ok; [|exact Hw].
  rewrite Hpr. cbv beta iota.
  assert (intact sha256_hex m t) as Hint by by eapply staged_intact.
  destruct (status_exec sha256_hex to_vec trust_root pid fuel m k E _ _ fs4 Hv Hk Hroom Hv4 eq_refl) as (r & fs' & He & Hr & Hi).
  destruct (Hi Hint) as (Hv' & b & _ & ->). exists (if b then Loadable else IntegrityVerified), t, fs'.
  split_and!; [done|by destruct b|done|done|done].
Qed.


End import.

(** * Concrete runs *)

Definition sample_store (k : string) (f : option Node) : Fs :=
  mk_Fs sample_tops (partial_alter (λ _, f) ("models", k) ∅) 0 ∅.

Lemma empty_room : room 1025 ∅.
Proof. split; [vm_compute; discriminate|]. exists ∅. split; [by intros n [v Hv]|]. vm_compute. lia. Defined.

Lemma sample_store_viewed k f :
  trees (mk_View f None false None None) → viewed k ∅ (mk_View f None false None None) (sample_store k f).
Proof.
  intros Ht. split; [by split; [| | |right|]|..]; try done.
  - simpl. by rewrite lookup_partial_alter_eq.
  - simpl. by rewrite !lookup_partial_alter_ne.
  - simpl. by rewrite !lookup_partial_alter_ne.
  - simpl. by rewrite !lookup_partial_alter_ne.
  - simpl. intros p Hp. rewrite !lookup_partial_alter_ne; [done|]. intros <-. apply Hp. left.
Defined.

(** The digest of the sample artifacts, told apart by their lengths. *)
Definition sample_sha (s : string) : string :=
  (if (str_len s =? 20)%N then "1" else "0") +:+ "123456789abcdef0123456789abcdef0123456789abcdef0123456789abcdef".
Definition sample_content (a : Artifact) : string :=
  if (size a =? 20)%N then "abcdefghijabcdefghij" else "abcdefghij".
Definition sample_key : string := sample_sha "{contract}".
Definition sample_source : Source :=
  mk_Source (Ok tt) (λ a, (Ok tt, mk_SourceFile (Ok tt) (Ok (KFile, size a)) [Ok (sample_content a); Ok ""])).
Definition sample_tree : Node :=
  Dir [("onnx", Dir [("model.onnx", File "abcdefghij")]); ("tokenizer.json", File "abcdefghijabcdefghij"); ("manifest.json", File "{tiny}")].

Lemma sample_intact : intact (U := SimpleUrl) (J := SimpleJson) sample_sha sample_manifest sample_tree.
Proof.
  split; [vm_compute; reflexivity|]. constructor; [|constructor; [|constructor] ].
  - exists "abcdefghij". by split_and!.
  - exists "abcdefghijabcdefghij". by split_and!.
Defined.

Lemma sample_delivers a : sample_content a ≠ "" → delivers [Ok (sample_content a); Ok ""] (sample_content a).
Proof.
  intros H. pose proof (delivers_chunk (sample_content a) [Ok ""] "" H (delivers_eof [])) as D.
  unfold sample_content in *. by destruct (size a =? 20)%N.
Defined.



Lemma delete_exact_witness :
  ∃ r fs', exec (delete (U := SimpleUrl) (J := SimpleJson) sample_sha Identity.simple_to_vec 7 1025 sample_manifest (Ok tt))
             (sample_store sample_key (Some sample_tree)) = (Finished r, fs') ∧ r = Ok true.
Proof.
  destruct (delete_exact (U := SimpleUrl) (J := SimpleJson) sample_sha Identity.simple_to_vec 7 1025 sample_manifest sample_key ∅
    (mk_View (Some sample_tree) None false None None) (mk_View (Some sample_tree) None false None None)
    (sample_store sample_key (Some sample_tree))) as (r & fs' & He & Hi & _).
  - vm_compute. reflexivity.
  - vm_compute. reflexivity.
  - exact empty_room.
  - apply sample_store_viewed. repeat split; intros ? [= <-]; by eexists.
  - reflexivity.
  - by left.
  - exists r, fs'. split; [exact He|]. apply Hi, sample_intact.
Defined.

Definition sample_root : Identity.TrustRoot := {["sha256:" +:+ sample_key]}.

Lemma verified_model_guarded_witness :
  Identity.trusts (U := SimpleUrl) sample_sha Identity.simple_to_vec sample_root sample_manifest = Ok true.
Proof.
  destruct (verified_model_guarded (U := SimpleUrl) (J := SimpleJson) sample_sha Identity.simple_to_vec sample_root 7 1025
    sample_manifest [(Ok tt, Ok tt)] (replicate 99 Proceeds) (sample_store sample_key (Some sample_tree)) (mk_VerifiedModel sample_manifest (model_dir sample_key))
    (sample_store sample_key (Some sample_tree))) as (_ & Ht & _).
  - vm_compute. reflexivity.
  - exact Ht.
Defined.

Lemma artifact_bytes_authentic_witness :
  ∃ a, a ∈ artifacts sample_manifest ∧ path a = "tokenizer.json" ∧ str_len "abcdefghijabcdefghij" = size a ∧
       sample_sha "abcdefghijabcdefghij" = sha256 a.
Proof.
  apply (artifact_bytes_authentic sample_sha sample_manifest (model_dir sample_key) "tokenizer.json" (replicate 99 Proceeds)
    (sample_store sample_key (Some sample_tree)) "abcdefghijabcdefghij" (sample_store sample_key (Some sample_tree))).
  vm_compute. reflexivity.
Defined.

(** A valid manifest that no import can install: an artifact below [manifest.json]. *)
Definition nested_manifest : Manifest :=
  let m := sample_manifest in
  mk_Manifest (schema_version m) (canonical_id m) (revision m) (license m) (semantic_verification m) (tokenizer m)
    (pooling m) (prefixes m) (dimensions m) (tensors m)
    (Onnx "manifest.json/model.onnx" "tokenizer.json" (mk_OnnxInputNames "input_ids" (Some "attention_mask") None)
       "last_hidden_state" 0 true)
    [mk_Artifact "manifest.json/model.onnx" "https://acme.example/model.onnx" (sample_sha "abcdefghij") 10;
     mk_Artifact "tokenizer.json" "https://acme.example/tokenizer.json" (sample_sha "abcdefghijabcdefghij") 20].
Definition nested_json : JsonCrate := {|
  json_from_slice _ := Ok nested_manifest;
  json_to_vec_pretty _ := Ok "{nested}";
|}.

Lemma nested_manifest_not_importable :
  validate (U := SimpleUrl) nested_manifest = Ok tt ∧
  ∃ e, fst (exec (import (U := SimpleUrl) (J := nested_json) sample_sha (λ _, Ok "{contract}") ∅ 7 1025 nested_manifest
              sample_source (Ok tt, Ok tt, Ok tt)) (sample_store sample_key None)) = Finished (Err e).
Proof. split; [vm_compute; reflexivity|]. eexists. vm_compute. reflexivity. Qed.

End Staging.
