(* ===== verification/Installer.v ===== *)
(** The installation transaction ([impossible-models/src/install.rs]) on the disk: download
    into staging, the identity record, promotion and the final status, as one program over
    [Disk], under every server, every fault and every crash.

    The requests of a download and the policy are in [Install]; what a server answers is an
    argument.  [fetched] is the abstract download: the bytes a server delivers within the
    policy that have the declared length and digest. *)

From Stdlib Require Import NArith Lia Ascii.
From stdpp Require Import base strings gmap list.
From S2P Require Import Prelude Core Std Config Manifest Install Disk Cache Identity Files Store Confine Staging.
Import Manifest Disk Cache Files Store Confine Staging.

Local Open Scope string_scope.
Local Open Scope list_scope.
Local Open Scope rust_scope.

Module Installer.

Section installer.
Context {U : UrlCrate} {J : JsonCrate}.
Context (sha256_hex : string → string) (to_vec : Identity.SemanticContract → result string string).
Context (trust_root : Identity.TrustRoot) (pid : N) (fuel : nat).

(** * The program *)

(** [cancel.is_cancelled()] *)
Definition asks : prog (result Error bool) := call Cancelled.

(** The body loop of [Installer::download]: each chunk is counted, hashed ([digest] is what
    has been hashed) and written. *)
Fixpoint receive (o : Install.InstallOptions) (file : Path) (expected received : N) (digest : string)
    (chunks : list Install.Chunk) : prog (result Error (N * string)) :=
  match chunks with
  | [] => Ret (Ok (received, digest))
  | Install.CCancelled :: _ => Ret (Err ECancelled)
  | Install.CFailed e :: _ => Ret (Err e)
  | Install.CData bytes :: chunks =>
    do? received := Ret (ok_or (checked_add u64_max received (str_len bytes)) (EInvalid "artifact length overflow")) in
    if ((expected <? received) || (Install.max_artifact_bytes o <? received))%N
    then Ret (Err (SizeLimit (N.min expected (Install.max_artifact_bytes o)) received)) else
    do? _ := call (WriteAll file bytes) in
    receive o file expected received (digest +:+ bytes) chunks
  end.

(** [Installer::download] *)
Definition download (o : Install.InstallOptions) (e : Install.DownloadEnv) (staging : Path) (relative : list Component)
    (a : Artifact) : prog (result Error unit) :=
  do? u := Ret (ok_or (url_parse (url a)) (EInvalid "invalid artifact URL")) in
  do? response := Ret (Install.follow o e (N.to_nat (Install.max_redirects o)) 0 u).2 in
  do? _ := Ret (Install.validate_content_length response (size a)) in
  do? file := create_new_contained_file staging relative in
  do? got := receive o file (size a) 0 "" (Install.body response) in
  do? _ := call (SyncFile file) in
  do? md := call (HandleMetadata file) in
  if negb (fst got =? size a)%N then Ret (Err (SizeLimit (size a) (fst got))) else
  let actual := sha256_hex (snd got) in
  if negb (String.eqb actual (sha256 a)) then Ret (Err (HashMismatch (sha256 a) actual)) else
  if negb (is_file (fst md)) || negb (snd md =? size a)%N
  then Ret (Err (EInvalid "staged artifact changed while writing")) else
  revalidate_contained_path staging relative.

(** The artifact loop; every artifact meets its own server. *)
Fixpoint download_all (o : Install.InstallOptions) (net : Artifact → Install.DownloadEnv) (staging : Path)
    (l : list Artifact) : prog (result Error unit) :=
  match l with
  | [] => Ret (Ok tt)
  | a :: l =>
    let relative := components (path a) in
    do? _ := create_contained_parent_directories staging relative in
    do? _ := download o (net a) staging relative a in
    download_all o net staging l
  end.

(** The identity record. *)
Definition write_identity (m : Manifest) (staging : Path) : prog (result Error unit) :=
  do? manifest_bytes := Ret (to_json m) in
  do? file := create_new_contained_file staging [Normal MANIFEST_FILE] in
  do? _ := call (WriteAll file manifest_bytes) in
  do? _ := call (SyncFile file) in
  do? md := call (HandleMetadata file) in
  if negb (is_file (fst md)) || negb (snd md =? str_len manifest_bytes)%N
  then Ret (Err (EInvalid "staged manifest changed while writing")) else
  revalidate_contained_path staging [Normal MANIFEST_FILE].

(** What the transaction meets besides the disk: the servers, the commit gate when it is
    reached, and what acquiring its locks answers (of the three statuses, and its own). *)
Record Surroundings := mk_Surroundings {
  net : Artifact → Install.DownloadEnv;
  gate : Install.GateState;
  first_lock : Lock;
  own_lock : Lock;
  second_lock : Lock;
  last_lock : Lock;
}.

(** The part after the second status: staging, the gate and the durable phase. *)
Definition stage_and_commit (o : Install.InstallOptions) (w : Surroundings) (m : Manifest) (k : string)
    : prog (result Error ModelVerificationStatus) :=
  do? _ := prepare_staging (staging_dir k) in
  do? _ := download_all o (net w) (staging_dir k) (artifacts m) in
  do? stop := asks in
  if stop : bool then Ret (Err ECancelled) else
  if negb (fst (Install.begin_commit (gate w))) then Ret (Err ECancelled) else
  do? _ := write_identity m (staging_dir k) in
  do? _ := promote k pid fuel (staging_dir k) in
  status sha256_hex to_vec trust_root pid fuel m (last_lock w).

(** [Installer::install_transaction] *)
Definition install_transaction (o : Install.InstallOptions) (w : Surroundings) (m : Manifest)
    : prog (result Error ModelVerificationStatus) :=
  do? _ := Ret (validate m) in
  do? _ := Ret (Install.validate_install_size o m) in
  do? existing := status_with_cancel sha256_hex to_vec trust_root pid fuel m asks (first_lock w) in
  if installed existing then Ret (Ok existing) else
  if Install.offline o then Ret (Err EOffline) else
  do? stop := asks in
  if stop : bool then Ret (Err ECancelled) else
  do? k := Ret (key sha256_hex to_vec m) in
  do? _ := Ret (own_lock w) in
  do? _ := reconcile_repair k pid fuel in
  do? existing := status_with_cancel sha256_hex to_vec trust_root pid fuel m asks (second_lock w) in
  if installed existing then Ret (Ok existing) else
  stage_and_commit o w m k.

(** [Installer::install]: with a gate that nobody else has. *)
Definition install (o : Install.InstallOptions) (w : Surroundings) (m : Manifest)
    : prog (result Error ModelVerificationStatus) :=
  install_transaction o (mk_Surroundings (net w) Install.InstallCommitGate_new (first_lock w) (own_lock w) (second_lock w)
    (last_lock w)) m.

(** * The abstract download *)

(** A body that arrives as data to its end. *)
Fixpoint body_bytes (chunks : list Install.Chunk) : option string :=
  match chunks with
  | [] => Some ""
  | Install.CData bytes :: chunks => rest ← body_bytes chunks; Some (bytes +:+ rest)
  | _ => None
  end.

Definition to_option {E A} (r : result E A) : option A := match r with Ok a => Some a | Err _ => None end.

(** The bytes a server delivers for an artifact, if the policy allows every request and they
    are what the manifest declares. *)
Definition fetched (o : Install.InstallOptions) (e : Install.DownloadEnv) (a : Artifact) : option string :=
  u ← url_parse (url a);
  response ← to_option (Install.follow o e (N.to_nat (Install.max_redirects o)) 0 u).2;
  _ ← to_option (Install.validate_content_length response (size a));
  b ← body_bytes (Install.body response);
  if (str_len b =? size a)%N && (str_len b <=? Install.max_artifact_bytes o)%N && String.eqb (sha256_hex b) (sha256 a)
  then Some b else None.

(** * One download *)

Section download.
Context (o : Install.InstallOptions) (d n : string).

Definition limit (expected : N) : N := N.min expected (Install.max_artifact_bytes o).

(** What the body loop promises: it writes [bytes], never beyond the limit, and succeeds
    exactly on a body that arrives whole within it. *)
Definition receipt (expected received : N) (digest : string) (chunks : list Install.Chunk) (r : result Error (N * string))
    (bytes : string) : Prop :=
  (received + str_len bytes <= limit expected)%N ∧
  match body_bytes chunks with
  | Some b => if (received + str_len b <=? limit expected)%N
              then r = Ok (received + str_len b, digest +:+ b)%N ∧ bytes = b else ∃ e, r = Err e
  | None => ∃ e, r = Err e
  end.

Lemma receipt_stop expected received digest chunks e :
  (received <= limit expected)%N → (∀ b, body_bytes chunks = Some b → limit expected < received + str_len b)%N →
  receipt expected received digest chunks (Err e) "".
Proof.
  intros Hr Hb. split; [change (str_len "") with 0%N; lia|]. destruct (body_bytes chunks) as [b|]; [|by eexists].
  specialize (Hb b eq_refl). apply N.leb_gt in Hb. rewrite Hb. by eexists.
Qed.

Lemma receive_exec t p expected received digest old chunks fs :
  at_tree d n t fs → p ≠ [] → can_put t p → descend t p = Some (File old) → (expected <= u64_max)%N →
  (received <= limit expected)%N →
  ∃ r bytes,
    exec (receive o (d :: n :: p) expected received digest chunks) fs =
      (Finished r, with_tree d n (put t p (File (old +:+ bytes))) fs) ∧ receipt expected received digest chunks r bytes.
Proof.
  intros Ht Hne Hput Hp Hmax. revert t received digest old fs Ht Hput Hp.
  assert (∀ t old fs, at_tree d n t fs → descend t p = Some (File old) →
    fs = with_tree d n (put t p (File (old +:+ ""))) fs) as Hsame.
  { intros t old fs Ht Hp. by rewrite str_app_nil_r, put_same, with_tree_same. }
  induction chunks as [|[bytes|e|] chunks IH]; intros t received digest old fs Ht Hput Hp Hr; cbn [receive].
  - exists (Ok (received, digest)), "". split; [cbn [exec]; f_equal; by apply Hsame|]. unfold receipt. cbn [body_bytes].
    change (str_len "") with 0%N. rewrite N.add_0_r, str_app_nil_r, (proj2 (N.leb_le _ _)) by done. done.
  - assert (∀ e : Error, (limit expected < received + str_len bytes)%N → ∃ r w,
      exec (Ret (Err e)) fs = (Finished r, with_tree d n (put t p (File (old +:+ w))) fs) ∧
      receipt expected received digest (Install.CData bytes :: chunks) r w) as Hstop.
    { intros e Hl. exists (Err e), "". split; [cbn [exec]; f_equal; by apply Hsame|]. apply receipt_stop; [done|].
      cbn [body_bytes]. destruct (body_bytes chunks); [|done]. intros b [= <-]. rewrite str_len_app. lia. }
    unfold checked_add. destruct (N.leb_spec (received + str_len bytes) u64_max) as [Hov|Hov]; cbn [ok_or].
    2: { apply Hstop. unfold limit in *. lia. }
    erewrite exec_try_Ok; [|done]. destruct (_ || _) eqn:Hc; [apply Hstop; apply orb_prop in Hc as [?%N.ltb_lt|?%N.ltb_lt]; unfold limit; lia|].
    inv_bool. erewrite exec_try_Ok; [|by apply exec_call_Ok, write_exec].
    destruct (IH (put t p (File (old +:+ bytes))) (received + str_len bytes)%N (digest +:+ bytes) (old +:+ bytes)
      (with_tree d n (put t p (File (old +:+ bytes))) fs)) as (r & rest & He & Hl & Hb).
    { apply at_with_tree. } { by apply can_put_put. } { by apply descend_put_eq. } { unfold limit. lia. }
    exists r, (bytes +:+ rest). rewrite He, with_tree_twice, put_put, (str_app_assoc old) by done. split; [done|].
    split; [rewrite str_len_app; lia|]. cbn [body_bytes]. destruct (body_bytes chunks) as [b|]; simpl; [|done].
    rewrite str_len_app, N.add_assoc. destruct (_ <=? _)%N; [|done]. destruct Hb as [-> ->]. by rewrite str_app_assoc.
  - exists (Err e), "". split; [cbn [exec]; f_equal; by apply Hsame|]. by apply receipt_stop.
  - exists (Err ECancelled), "". split; [cbn [exec]; f_equal; by apply Hsame|]. by apply receipt_stop.
Qed.

(** After the body: the file is checked where it lies. *)
Lemma checked_exec cs names x bytes (a : Artifact) (got : N * string) fs :
  tops fs !! d = Some KDir → at_tree d n (Dir cs) fs → descend (Dir cs) (names ++ [x]) = Some (File bytes) →
  exec (do? _ := call (SyncFile (d :: n :: names ++ [x])) in
        do? md := call (HandleMetadata (d :: n :: names ++ [x])) in
        if negb (fst got =? size a)%N then Ret (Err (SizeLimit (size a) (fst got))) else
        let actual := sha256_hex (snd got) in
        if negb (String.eqb actual (sha256 a)) then Ret (Err (HashMismatch (sha256 a) actual)) else
        if negb (is_file (fst md)) || negb (snd md =? size a)%N
        then Ret (Err (EInvalid "staged artifact changed while writing")) else
        revalidate_contained_path [d; n] (Normal <$> names ++ [x])) fs =
  (Finished (if negb (fst got =? size a)%N then Err (SizeLimit (size a) (fst got)) else
             if negb (String.eqb (sha256_hex (snd got)) (sha256 a))
             then Err (HashMismatch (sha256 a) (sha256_hex (snd got))) else
             if negb (str_len bytes =? size a)%N then Err (EInvalid "staged artifact changed while writing") else Ok tt), fs).
Proof.
  intros Hd Ht Hb.
  erewrite exec_try_Ok; [|apply exec_call_Ok; unfold perform; by rewrite (metadata_below d n (Dir cs)), Hb].
  erewrite exec_try_Ok; [|by apply exec_call_Ok, (handle_metadata_exec d n (Dir cs) (names ++ [x]) (File bytes))].
  destruct (negb (fst got =? size a)%N); [done|]. cbv zeta. destruct (negb (String.eqb _ _)); [done|].
  cbn [fst snd kind]. change (negb (is_file KFile)) with false. cbn [orb].
  destruct (negb (str_len bytes =? size a)%N); [done|].
  apply (revalidate_exec d n cs (names ++ [x]) (File bytes) (λ k, is_reparse k || negb (is_file k))); done.
Qed.

(** The download is exact: undisturbed, it puts exactly the fetched bytes in a new file, and
    where there is nothing to fetch it fails, having written no more than the limit. *)
Lemma download_exec e a cs names x fs :
  tops fs !! d = Some KDir → at_tree d n (Dir cs) fs → (size a <= u64_max)%N →
  (∀ i, ∃ c, descend (Dir cs) (take i names) = Some (Dir c)) → descend (Dir cs) (names ++ [x]) = None →
  ∃ r t', exec (download o e [d; n] (Normal <$> names ++ [x]) a) fs = (Finished r, with_tree d n t' fs) ∧
    (t' = Dir cs ∨ ∃ b, t' = put (Dir cs) (names ++ [x]) (File b) ∧ (str_len b <= limit (size a))%N) ∧
    match fetched o e a with
    | Some b => r = Ok tt ∧ t' = put (Dir cs) (names ++ [x]) (File b)
    | None => ∃ err, r = Err err
    end.
Proof.
  intros Hd Ht Hmax Hn Hx. unfold download, fetched.
  assert (∀ err : Error, ∃ r t', exec (Ret (Err err)) fs = (Finished (A := result Error unit) r, with_tree d n t' fs) ∧
    (t' = Dir cs ∨ ∃ b, t' = put (Dir cs) (names ++ [x]) (File b) ∧ (str_len b <= limit (size a))%N) ∧ ∃ err, r = Err err) as Hstop.
  { intros err. exists (Err err), (Dir cs). rewrite with_tree_same by done. by eauto. }
  destruct (url_parse (url a)) as [u|]; cbn [ok_or]; [|apply Hstop]. erewrite exec_try_Ok; [|done]. cbn [mbind option_bind].
  destruct (Install.follow o e _ 0 u).2 as [response|err]; [|apply Hstop]. erewrite exec_try_Ok; [|done]. cbn [to_option mbind option_bind].
  destruct (Install.validate_content_length response (size a)) as [[]|err]; [|apply Hstop]. erewrite exec_try_Ok; [|done].
  cbn [to_option mbind option_bind]. erewrite exec_try_Ok; [|by apply create_new_exec].
  destruct (Hn (length names)) as [cl Hl]. rewrite take_ge in Hl by lia. assert (names ++ [x] ≠ []) as Hne by by destruct names.
  assert (can_put (Dir cs) (names ++ [x])) as Hput by (exists cl; by rewrite removelast_snoc).
  set (t1 := put (Dir cs) (names ++ [x]) (File "")).
  destruct (receive_exec t1 (names ++ [x]) (size a) 0 "" "" (Install.body response) (with_tree d n t1 fs)) as (r & bytes & He & Hlim & Hb).
  { apply at_with_tree. } { done. } { by apply can_put_put. } { by apply descend_put_eq. } { done. } { apply N.le_0_l. }
  rewrite N.add_0_l in Hlim. rewrite with_tree_twice in He. unfold t1 in He. rewrite put_put in He by done. change ("" +:+ bytes) with bytes in He.
  set (t2 := put (Dir cs) (names ++ [x]) (File bytes)) in *.
  assert (∃ c2, t2 = Dir c2) as [c2 Ht2].
  { destruct (descend_put_above (Dir cs) (names ++ [x]) [] (File bytes) Hput) as [c Hc]; [apply prefix_nil|done|].
    exists c. by injection Hc. }
  assert (descend (Dir c2) (names ++ [x]) = Some (File bytes)) as Hfile by (rewrite <-Ht2; by apply descend_put_eq).
  destruct r as [got|err].
  - erewrite exec_try_Ok by exact He. destruct (body_bytes (Install.body response)) as [b|]; [|by destruct Hb].
    destruct (N.leb_spec (0 + str_len b) (limit (size a))) as [Hle|]; [|by destruct Hb]. destruct Hb as [[= ->] ->].
    rewrite N.add_0_l in *. rewrite Ht2. erewrite (checked_exec c2 names x b); [|done|apply at_with_tree|done]. cbn [fst snd mbind option_bind].
    change ("" +:+ b) with b. eexists _, (Dir c2). split; [done|]. split; [right; exists b; by rewrite <-Ht2|].
    unfold limit in Hle. rewrite (proj2 (N.leb_le (str_len b) _)) by lia. destruct (str_len b =? size a)%N; cbn [negb andb]; [|by eauto].
    destruct (String.eqb (sha256_hex b) (sha256 a)); cbn [negb andb]; by eauto.
  - erewrite exec_try_Err by exact He. exists (Err err), t2. split; [done|]. split; [right; by exists bytes|].
    destruct (body_bytes (Install.body response)) as [b|]; simpl; [|by eexists].
    destruct (N.leb_spec (0 + str_len b) (limit (size a))) as [|Hgt]; [by destruct Hb|]. unfold limit in Hgt.
    destruct (N.eqb_spec (str_len b) (size a)); [|by eexists].
    destruct (N.leb_spec (str_len b) (Install.max_artifact_bytes o)); [lia|by eexists].
Qed.

(** ** All artifacts *)

Section servers.
Context (servers : Artifact → Install.DownloadEnv).

Definition content (a : Artifact) : string := default "" (fetched o (servers a) a).
Definition fetchable (a : Artifact) : Prop := is_Some (fetched o (servers a) a).

Lemma download_all_exec l files t fs :
  tops fs !! d = Some KDir → at_tree d n t fs → holds t files →
  Forall (λ a, contained (path a) ∧ (size a < u64_max)%N) l →
  Forall (λ a, apart_from (str_split "/" (path a)) files) l → all_apart l → (height t ≤ 1025)%nat →
  ∃ r t', exec (download_all o servers [d; n] l) fs = (Finished r, with_tree d n t' fs) ∧
    (r = Ok tt ↔ Forall fetchable l) ∧
    (r = Ok tt → holds t' (reverse (file_of content <$> l) ++ files) ∧ (height t' ≤ 1025)%nat).
Proof.
  intros Hd. revert files t fs Hd. induction l as [|a l IH]; intros files t fs Hd Ht Hh Hl Hap Hpairs Hheight.
  { exists (Ok tt), t. cbn [download_all exec]. rewrite with_tree_same by done. by split_and!. }
  apply Forall_cons in Hl as [[Hc Hmax] Hl]. apply Forall_cons in Hap as [Ha Hap].
  destruct (slot_for t files a Hh Hc Ha Hheight) as (names & x & cs & c1 & Hnames & Hcomp & -> & Hdirs & H1 & Hd1 & Hnone & Hput).
  cbn [download_all]. cbv zeta. rewrite Hcomp. erewrite exec_try_Ok; [|by eapply create_parents_exec]. rewrite H1.
  destruct (download_exec (servers a) a c1 names x (with_tree d n (Dir c1) fs)) as (r & t1 & He & _ & Hr);
    [done|apply at_with_tree|lia|done|done|]. rewrite with_tree_twice in He.
  destruct (fetched o (servers a) a) as [b|] eqn:Hf.
  2: { destruct Hr as [err ->]. erewrite exec_try_Err by exact He. exists (Err err), t1. split; [done|].
       split; [|done]. split; [done|]. intros [[b Hb] _]%Forall_cons. unfold fetchable in Hb. congruence. }
  destruct Hr as [-> ->]. erewrite exec_try_Ok by exact He. destruct (Hput b) as [Hh1 Hheight1].
  assert (b = content a) as -> by (unfold content; by rewrite Hf). rewrite <-Hnames in Hh1 at 2.
  destruct (IH _ _ (with_tree d n (put (Dir c1) (names ++ [x]) (File (content a))) fs) Hd (at_with_tree _ _ _ _) Hh1 Hl)
    as (r & t' & He' & Hiff & Hok); [by apply next_apart|by inversion Hpairs|done|].
  exists r, t'. rewrite with_tree_twice in He'. split; [exact He'|]. split.
  - rewrite Forall_cons, Hiff. unfold fetchable at 2. rewrite Hf. split; [by split; [eexists|]|by intros [_ ?]].
  - intros Hrt. destruct (Hok Hrt). split; [|done]. by rewrite fmap_cons, reverse_cons, <-app_assoc.
Qed.

End servers.

(** ** The identity record *)

Lemma apart_from_manifest t files :
  holds t files → (descend t [MANIFEST_FILE] = None ↔ apart_from [MANIFEST_FILE] files).
Proof.
  intros Hh. split; [|by intros Ha; apply (holds_dirs t files [] MANIFEST_FILE Hh Ha)].
  intros Hnone q b Hq. pose proof (ho_files _ _ Hh q b Hq) as Hf. split; intros [r Hr].
  - rewrite Hr, descend_app, Hnone in Hf. done.
  - destruct q as [|y q]; [|injection Hr as <- ?; by destruct q, r; simplify_eq/=].
    destruct (ho_dir _ _ Hh) as [cs ->]. done.
Qed.

(** A name that is taken cannot be created. *)
Lemma create_taken cs x v fs :
  at_tree d n (Dir cs) fs → descend (Dir cs) [x] = Some v →
  ∃ e, exec (create_new_contained_file [d; n] [Normal x]) fs = (Finished (Err e), fs).
Proof.
  intros Ht Hx. change [Normal x] with (Normal <$> [] ++ [x]). unfold create_new_contained_file. rewrite names_valid.
  erewrite exec_try_Ok; [|done]. rewrite bool_decide_eq_false_2 by done. unfold securely_create_new_file.
  rewrite parent_of_names, removelast_snoc. eexists. eapply exec_try_Err.
  erewrite exec_try_Ok; [|apply (open_parent_exec d n cs); [done|intros i; rewrite take_nil; right; by eexists] ].
  cbn [mkdirs]. rewrite with_tree_same by done. unfold leaf. rewrite file_name_snoc. erewrite exec_try_Ok; [|done]. cbn [app].
  eapply exec_try_Err. rewrite exec_call.
  change (perform (CreateNew [d; n; x]) fs) with (create (d :: n :: [x]) (File "") fs).
  rewrite (create_below d n (Dir cs)) by done. cbn [removelast]. rewrite Hx. reflexivity.
Qed.

Lemma write_identity_exec m t files fs :
  tops fs !! d = Some KDir → at_tree d n t fs → holds t files →
  ∃ r t', exec (write_identity m [d; n]) fs = (Finished r, with_tree d n t' fs) ∧
    (r = Ok tt ↔ apart_from [MANIFEST_FILE] files ∧ ∃ json, to_json m = Ok json) ∧
    (∀ json, r = Ok tt → to_json m = Ok json → t' = grow t [] MANIFEST_FILE json).
Proof.
  intros Hd Ht Hh. destruct (ho_dir _ _ Hh) as [cs ->]. unfold write_identity.
  destruct (to_json m) as [json|e] eqn:Hj.
  2: { eexists (Err e), (Dir cs). split; [by rewrite with_tree_same by done|]. split; [|done]. split; [done|]. by intros [_ [? ?]]. }
  erewrite exec_try_Ok; [|done]. setoid_rewrite <-(apart_from_manifest _ _ Hh).
  destruct (descend (Dir cs) [MANIFEST_FILE]) as [v|] eqn:Hv.
  { destruct (create_taken cs MANIFEST_FILE v fs Ht Hv) as [e He]. exists (Err e), (Dir cs). rewrite with_tree_same by done.
    split; [by erewrite exec_try_Err by exact He|]. split; [|done]. split; [done|]. by intros [? _]. }
  change [Normal MANIFEST_FILE] with (Normal <$> [] ++ [MANIFEST_FILE]).
  erewrite exec_try_Ok; [|apply create_new_exec; [done|done| |done]; intros i; rewrite take_nil; by eexists].
  assert (can_put (Dir cs) ([] ++ [MANIFEST_FILE])) as Hput by by exists cs.
  erewrite exec_try_Ok; [|apply exec_call_Ok, (write_exec d n (put (Dir cs) ([] ++ [MANIFEST_FILE]) (File "")) ([] ++ [MANIFEST_FILE]) "" json);
    [apply at_with_tree|by apply descend_put_eq] ].
  rewrite with_tree_twice, put_put by done. change ("" +:+ json) with json.
  set (t2 := put (Dir cs) ([] ++ [MANIFEST_FILE]) (File json)).
  assert (∃ c2, t2 = Dir c2) as [c2 Ht2] by by eexists.
  assert (descend t2 ([] ++ [MANIFEST_FILE]) = Some (File json)) as Hfile by by apply descend_put_eq.
  exists (Ok tt), t2. split; [|split; [split; [intros _; split; [done|by exists json]|done]|by intros ? _ [= <-] ] ].
  erewrite exec_try_Ok; [|apply exec_call_Ok; unfold perform; by rewrite (metadata_below d n t2 _ _ (at_with_tree _ _ _ _)), Hfile].
  erewrite exec_try_Ok; [|by apply exec_call_Ok, (handle_metadata_exec d n t2 _ (File json) _ (at_with_tree _ _ _ _))].
  cbn [fst snd kind]. rewrite N.eqb_refl. change (negb (is_file KFile) || negb true) with false. cbv iota. rewrite Ht2 in *.
  apply (revalidate_exec d n c2 ([] ++ [MANIFEST_FILE]) (File json) (λ k, is_reparse k || negb (is_file k))); [done|apply at_with_tree|done|done|done].
Qed.

End download.

(** * Confinement *)

Lemma within_receive base o file expected received digest chunks :
  inside base file → within (staging base) (oks any) (receive o file expected received digest chunks).
Proof.
  intros Hfile. revert received digest. induction chunks as [|[bytes|e|] chunks IH]; intros received digest; cbn [receive];
    try (by constructor). eapply (within_try _ any); [by constructor|]. intros total _. destruct (_ || _); [by constructor|].
  eapply (within_try _ any); [by apply within_op|]. intros _ _. apply IH.
Qed.

Lemma within_download base o e relative a : within (staging base) (oks any) (download o e base relative a).
Proof.
  unfold download. do 3 (eapply (within_try _ any); [by constructor|]; intros ? _).
  eapply within_try; [apply within_create_new|]. intros file Hfile. eapply within_try; [by apply within_receive|]. intros got _.
  do 2 (eapply (within_try _ any); [by apply within_op|]; intros ? _). cbv zeta.
  repeat (match goal with |- within _ _ (if ?b then _ else _) => destruct b end; [by constructor|]).
  apply read_stage, within_revalidate_path.
Qed.

Lemma within_download_all base o servers l : within (staging base) (oks any) (download_all o servers base l).
Proof.
  induction l as [|a l IH]; cbn [download_all]; [by constructor|]. cbv zeta.
  eapply within_try; [apply within_parents|]. intros _ _. eapply within_try; [apply within_download|]. by intros _ _.
Qed.

Lemma within_write_identity base m : within (staging base) (oks any) (write_identity m base).
Proof.
  unfold write_identity. eapply (within_try _ any); [by constructor|]. intros json _.
  eapply within_try; [apply within_create_new|]. intros file Hfile.
  do 3 (eapply (within_try _ any); [by apply within_op|]; intros ? _). destruct (_ || _); [by constructor|].
  apply read_stage, within_revalidate_path.
Qed.

Lemma within_asks base : within (reading base) (oks any) asks.
Proof. by apply within_op. Qed.

(** Success says that nothing was disturbed. *)
Lemma faithful_receive o file expected received digest chunks : faithful (receive o file expected received digest chunks).
Proof.
  revert received digest. induction chunks as [|[bytes|e|] chunks IH]; intros received digest; cbn [receive]; faithfully.
Qed.
#[local] Hint Resolve faithful_receive : faithful.
Lemma faithful_download o e base relative a : faithful (download o e base relative a).
Proof. unfold download. faithfully. Qed.
#[local] Hint Resolve faithful_download : faithful.
Lemma faithful_download_all o servers base l : faithful (download_all o servers base l).
Proof. induction l as [|a l IH]; cbn [download_all]; faithfully. Qed.
Lemma faithful_write_identity m base : faithful (write_identity m base).
Proof. unfold write_identity. faithfully. Qed.

(** * The transaction under faults *)

(** ** On the staging directory of a model *)

Lemma downloaded_exec o servers m k E t s :
  validate m = Ok tt → viewed k E (with_staged t (Some (Dir []))) s →
  ∃ r t1 s1, exec (download_all o servers (staging_dir k) (artifacts m)) s = (Finished r, s1) ∧
    (r = Ok tt ↔ Forall (fetchable o servers) (artifacts m)) ∧
    (r = Ok tt → viewed k E (with_staged t (Some t1)) s1 ∧ (height t1 ≤ 1025)%nat ∧
                 holds t1 (reverse (file_of (content o servers) <$> artifacts m))).
Proof.
  intros Hvalid Hs.
  destruct (download_all_exec o "staging" (k +:+ ".partial") servers (artifacts m) [] (Dir []) s) as (r & t1 & He & Hiff & Hok).
  { apply Hs. } { exact (vw_staged _ _ _ _ Hs). } { apply holds_empty. } { by apply valid_artifacts. }
  { apply Forall_forall. by intros a _ q b ?%elem_of_nil. } { by apply safe_apart, validate_safe. } { simpl. lia. }
  exists r, t1, (with_tree "staging" (k +:+ ".partial") t1 s). split; [exact He|]. split; [done|]. intros Hr.
  destruct (Hok Hr) as [Hh Hht]. rewrite app_nil_r in Hh. split_and!; [|done|done].
  exact (view_staged k E _ t1 s Hs (ho_dir _ _ Hh)).
Qed.

Lemma identified_exec o servers m k E t t1 s :
  viewed k E (with_staged t (Some t1)) s → (height t1 ≤ 1025)%nat →
  holds t1 (reverse (file_of (content o servers) <$> artifacts m)) →
  ∃ r t2 s2, exec (write_identity m (staging_dir k)) s = (Finished r, s2) ∧
    (∀ json, beside_manifest m → to_json m = Ok json → r = Ok tt) ∧
    (r = Ok tt → viewed k E (with_staged t (Some t2)) s2 ∧ (height t2 ≤ 1025)%nat ∧
                 ∃ json, to_json m = Ok json ∧ holds t2 (staged_files (content o servers) m json)).
Proof.
  intros Hs Hheight Hh.
  destruct (write_identity_exec "staging" (k +:+ ".partial") m t1 (reverse (file_of (content o servers) <$> artifacts m)) s)
    as (r & t2 & He & Hiff & Ht2); [apply Hs|exact (vw_staged _ _ _ _ Hs)|exact Hh|].
  exists r, t2, (with_tree "staging" (k +:+ ".partial") t2 s). split; [exact He|]. split.
  - intros json Hb Hj. apply Hiff. split; [by apply beside_apart|by exists json].
  - intros Hr. destruct (proj1 Hiff Hr) as (Hap & json & Hj). rewrite (Ht2 json Hr Hj).
    pose proof (holds_grow t1 _ [] MANIFEST_FILE json Hh Hap) as Hh2. split_and!; [|etrans; [apply grow_height|simpl; lia]|by exists json].
    exact (view_staged k E _ _ s Hs (ho_dir _ _ Hh2)).
Qed.

Section crash.
Context (o : Install.InstallOptions) (w : Surroundings) (m : Manifest) (k : string) (E : gmap (string * string) Node).
Context (f : option Node).

(** What must have been so when a new tree is installed: the policy and the gate let it
    through, the servers delivered every artifact, and the tree is exactly the fetched bytes
    and the identity record. *)
Record installs (new : Node) : Prop := {
  is_valid : validate m = Ok tt;
  is_sized : Install.validate_install_size o m = Ok tt;
  is_online : Install.offline o = false;
  is_open : gate w = Install.COMMIT_OPEN;
  is_fetched : Forall (fetchable o (net w)) (artifacts m);
  is_tree_of : ∃ json, to_json m = Ok json ∧ holds new (staged_files (content o (net w)) m json);
}.

(** The states a transaction may leave, once settled: what was installed is still there, or
    the new tree is, verifies, and what was there is in quarantine. *)
Inductive outcome : View → Prop :=
| outcome_before t st : kin f t → outcome (mk_View t st false None None)
| outcome_after new t old :
    installs new → grown new t → intact sha256_hex m t → kin f old → outcome (mk_View (Some t) None false None old).

Definition recoverable (s : Fs) : Prop := ∃ V, outcome V ∧ settling k E V s.

Lemma before_recoverable t st s : kin f t → viewed k E (mk_View t st false None None) s → recoverable s.
Proof. intros Ht Hs. eexists. split; [by apply outcome_before|]. by eexists. Qed.

(** Where nothing is being repaired, looking for the marker finds none. *)
Lemma unmarked_wp {A} V (c : result IoError Kind → prog A) C Q s :
  viewed k E V s → marked V = false → C s → wp true (c (Err NotFound)) C Q s → wp true (c (Err IoFault)) C Q s →
  wp true (prog_bind (io (SymlinkMetadata (repair_marker k))) c) C Q s.
Proof.
  intros HV Hm HC H1 H2. apply wp_bind, wp_look; [done|done| |done].
  unfold perform. rewrite (viewed_marker k E V s HV), Hm. done.
Qed.

(** A status keeps what reading keeps. *)
Lemma status_wp (I : Fs → Prop) cancelled lock s :
  key sha256_hex to_vec m = Ok k → within (reading (model_dir k)) (oks any) cancelled → kept_by (reading (model_dir k)) I →
  (∀ s, I s → ∃ V, viewed k E V s ∧ marked V = false) → I s →
  wp true (status_with_cancel sha256_hex to_vec trust_root pid fuel m cancelled lock) I (λ _, I) s.
Proof.
  intros Hk Hc HI HV Hs. unfold status_with_cancel. apply wp_try. destruct (validate m) as [[]|e]; [|done]. cbn [wp].
  apply wp_try. eapply wp_mono; [by eapply wp_within|done|]. intros [[]|e] s1 [_ Hs1]; [done| |done].
  rewrite Hk. apply wp_try. cbn [wp]. apply wp_try. destruct (HV s1 Hs1) as (V & Hv & Hm).
  eapply unmarked_wp; [exact Hv|done|done| |done]. cbn [wp].
  eapply wp_mono; [eapply wp_within; [exact HI|by apply within_status|done]|done|]. by intros r s2 [_ ?].
Qed.

(** The state between the steps of the transaction: no repair, something like [f] installed. *)
Definition resting (st : option Node) (s : Fs) : Prop :=
  free_top "locks" s ∧ ∃ t, kin f t ∧ viewed k E (mk_View t st false None None) s.

Lemma resting_kept st : kept_by (reading (model_dir k)) (resting st).
Proof.
  intros R op s Ho [Hl Ht]. destruct (reading_keeps k E f st false None None R op s Ho Ht) as [H1 H2].
  assert (tops (perform op s).2 = tops s ∧ ∀ d, tops (react (Disturbed d) op s).2 = tops s) as [T1 T2].
  { assert (harmless op → tops (perform op s).2 = tops s ∧ ∀ d, tops (react (Disturbed d) op s).2 = tops s) as Hq.
    { intros Hh. destruct (harmless_quiet op s Hh) as [(Q1 & _) Q2]. split; [done|]. intros d. by destruct (Q2 d). }
    destruct op; try (by apply Hq). destruct Ho as (x & below & ->). split; [|done].
    change (perform (MkDir (model_dir k ++ x :: below)) s) with (create ("models" :: k :: x :: below) (Dir []) s).
    destruct (create_inside "models" k x below (Dir []) s) as [->|(u & _ & _ & _ & ->)]; done. }
  unfold resting, free_top in *. split; [by rewrite T1|]. intros d. by rewrite T2.
Qed.

Lemma resting_viewed st s : resting st s → ∃ V, viewed k E V s ∧ marked V = false.
Proof. intros (_ & t & _ & Hv). by eexists. Qed.
Lemma resting_recoverable st s : resting st s → recoverable s.
Proof. intros (_ & t & Ht & Hv). by eapply before_recoverable. Qed.

Hypothesis Hkey : key sha256_hex to_vec m = Ok k.
Hypothesis Hroom : room fuel E.
Hypothesis Hfuel : (1025 ≤ fuel)%nat.
Hypothesis Hround : ∀ json, to_json m = Ok json → json_from_slice json = Ok m.

(** A confined and faithful program on the staged tree: it may stop with anything staged, and
    its success is its undisturbed one. *)
Lemma staging_wp (p : prog (result Error unit)) t st s :
  kin f t → viewed k E (with_staged t st) s → within (staging (staging_dir k)) (oks any) p → faithful p →
  wp true p recoverable (λ r s', recoverable s' ∧ ∀ a, r = Ok a → exec p s = (Finished (Ok a), s')) s.
Proof.
  intros Ht Hv Hp Hf. apply wp_faithful; [done|].
  eapply wp_mono; [eapply wp_within; [apply (staging_keeps k E t)|exact Hp|by exists st]|..].
  - intros s1 (st1 & Hs1). by eapply before_recoverable.
  - intros r s1 [_ (st1 & Hs1)]. by eapply before_recoverable.
Qed.

Lemma fetched_spec e a b : fetched o e a = Some b → str_len b = size a ∧ sha256_hex b = sha256 a.
Proof.
  unfold fetched. intros H. repeat (match type of H with (?x ≫= _) = _ => destruct x; [simpl in H|done] end).
  case_match eqn:Hc; [|done]. simplify_eq. by apply andb_prop in Hc as [[?%N.eqb_eq _]%andb_prop ?%String.eqb_eq].
Qed.

(** What is staged when everything has been fetched verifies. *)
Lemma installs_intact new : installs new → intact sha256_hex m new.
Proof.
  intros [Hv _ _ _ Hf (json & Hj & Hh)]. split; [by eapply holds_manifest; [exact Hh|left|done|by apply Hround]|].
  apply Forall_forall. intros a Ha. rewrite Forall_forall in Hf. destruct (Hf a Ha) as [b Hb].
  destruct (fetched_spec _ _ _ Hb) as [H1 H2]. exists b. split_and!; [|done|done].
  apply (ho_files _ _ Hh). right. apply elem_of_reverse, list_elem_of_fmap. exists a. split; [|done].
  unfold file_of, content. by rewrite Hb.
Qed.

(** Promotion and the final status. *)
Lemma commit_wp t new lock s :
  kin f t → viewed k E (with_staged t (Some new)) s → installs new → (height new ≤ 1025)%nat →
  wp true (do? _ := promote k pid fuel (staging_dir k) in status sha256_hex to_vec trust_root pid fuel m lock)
    recoverable (λ _, recoverable) s.
Proof.
  intros Ht Hv Hnew Hheight. destruct (is_tree_of _ Hnew) as (json & Hj & Hh).
  assert (new ≠ Dir []) as Hne.
  { intros ->. by specialize (ho_files _ _ Hh [MANIFEST_FILE] json ltac:(left)). }
  assert (outcome (mk_View (Some new) None false None t)) as Hafter.
  { eapply outcome_after; [exact Hnew|constructor|by apply installs_intact|done]. }
  assert (∀ s, settling k E (with_staged t (Some new)) s ∨ settling k E (mk_View (Some new) None false None t) s → recoverable s) as Hrec.
  { intros s1 [H|H]; eexists; (split; [|exact H]); [by constructor|done]. }
  apply wp_try. eapply wp_mono with (C := λ s, settling k E (with_staged t (Some new)) s ∨ settling k E (mk_View (Some new) None false None t) s)
    (Q := replaced k E true (with_staged t (Some new)) (mk_View (Some new) None false None t) (unsynced s)).
  { destruct t as [old|]; [apply promote_wp|apply promote_fresh_wp]; try done; try apply (ho_plain _ _ Hh); lia. }
  { apply Hrec. }
  intros r s1 Hr. destruct Hr as [s1 Hs1 _|e s1 _ Hs1]; [|by apply Hrec].
  assert (∀ s, (∃ t', kin (Some new) t' ∧ viewed k E (mk_View t' None false None t) s) → recoverable s) as Hgrown.
  { intros s2 ([t'|] & Hg & Hv2); [|done]. eexists. split; [|by eexists].
    eapply outcome_after; [exact Hnew|exact Hg| |done]. eapply grown_intact; [exact Hg|by apply installs_intact|].
    destruct (vw_trees _ _ _ _ Hv2) as [T _]. by apply T. }
  eapply wp_mono; [apply (status_wp (λ s, ∃ t', kin (Some new) t' ∧ viewed k E (mk_View t' None false None t) s))|exact Hgrown|intros ? s2; apply Hgrown].
  - done.
  - by constructor.
  - apply reading_keeps.
  - intros s2 (t' & _ & Hv2). by eexists.
  - exists (Some new). split; [constructor|done].
Qed.

Lemma stage_and_commit_wp st s :
  validate m = Ok tt → Install.validate_install_size o m = Ok tt → Install.offline o = false → resting st s →
  wp true (stage_and_commit o w m k) recoverable (λ _, recoverable) s.
Proof.
  intros Hvalid Hsize Honline (Hl & t & Ht & Hv). unfold stage_and_commit. apply wp_try.
  eapply (prepare_staging_wp k E true t st); [|exact Hv|done|].
  { intros st1 s1 Hs1. assert (recoverable s1) by by eapply before_recoverable. done. }
  clear s st Hv Hl. intros s Hs. apply wp_try.
  eapply wp_mono; [eapply staging_wp; [done|exact Hs|apply within_download_all|apply faithful_download_all]|done|].
  intros [[]|e] s1 [Hrec Hexec]; [|done]. specialize (Hexec tt eq_refl). clear Hrec.
  destruct (downloaded_exec o (net w) m k E t s Hvalid Hs) as (r & t1 & s1' & He & Hiff & Hok). rewrite Hexec in He. simplify_eq.
  destruct (Hok eq_refl) as (Hs1 & Hheight & Hh). clear Hok Hexec. rename s1' into s1.
  assert (recoverable s1) as Hrec by by eapply before_recoverable.
  apply wp_try, wp_lift. cbn [wp io]. split_and!; [done| |done].
  cbn [perform fst snd map_err]. destruct (gate w) eqn:Hgate; [|done..]. cbn [Install.begin_commit fst negb]. apply wp_try.
  eapply wp_mono; [eapply staging_wp; [done|exact Hs1|apply within_write_identity|apply faithful_write_identity]|done|].
  intros [[]|e] s2 [Hrec2 Hexec]; [|done]. specialize (Hexec tt eq_refl).
  destruct (identified_exec o (net w) m k E t t1 s1 Hs1 Hheight Hh) as (r & t2 & s2' & He & _ & Hok). rewrite Hexec in He. simplify_eq.
  destruct (Hok eq_refl) as (Hs2 & Hht & json & Hj & Hh2).
  apply (commit_wp t t2); [done|done| |done]. split; try done; [by apply Hiff|by exists json].
Qed.

Lemma install_wp st s : resting st s → wp true (install_transaction o w m) recoverable (λ _, recoverable) s.
Proof.
  intros Hs. assert (∀ s, resting st s → recoverable s) as Hrec by by apply resting_recoverable.
  assert (∀ lock s, resting st s → wp true (status_with_cancel sha256_hex to_vec trust_root pid fuel m asks lock)
    recoverable (λ _, resting st) s) as Hstatus.
  { intros lock s1 Hs1. eapply wp_mono; [apply (status_wp (resting st)); [done|apply within_asks|apply resting_kept|apply resting_viewed|done]|done|done]. }
  unfold install_transaction. apply wp_try. destruct (validate m) as [[]|e] eqn:Hvalid; [|by apply Hrec]. cbn [wp].
  apply wp_try. destruct (Install.validate_install_size o m) as [[]|e] eqn:Hsize; [|by apply Hrec]. cbn [wp].
  apply wp_try. eapply wp_mono; [by apply Hstatus|done|]. clear s Hs. intros [existing|e] s Hs; [|by apply Hrec].
  destruct (installed existing); [by apply Hrec|]. destruct (Install.offline o) eqn:Honline; [by apply Hrec|].
  apply wp_try, wp_lift. cbn [wp io]. split_and!; [by apply Hrec| |intros _ d; by apply Hrec]. cbn [perform fst snd map_err].
  rewrite Hkey. apply wp_try. cbn [wp]. apply wp_try. destruct (own_lock w) as [[]|e]; [|by apply Hrec]. cbn [wp].
  apply wp_try. destruct (resting_viewed st s Hs) as (V & HV & Hm). unfold reconcile_repair.
  eapply unmarked_wp; [exact HV|done|by apply Hrec| |by apply Hrec]. cbn [wp].
  apply wp_try. eapply wp_mono; [by apply Hstatus|done|]. clear s Hs V HV Hm. intros [again|e] s Hs; [|by apply Hrec].
  destruct (installed again); [by apply Hrec|]. by eapply stage_and_commit_wp.
Qed.

End crash.

(** C9: installation is safe under crashes.  Whatever the servers answer, however the locks
    and the commit gate decide, whatever call to the disk fails and wherever the machine
    stops, the transaction returns or stops, and recovery (any number of interrupted attempts,
    then one that is not) settles the cache of which no repair was pending either with what
    was installed before still in place, or with the new model: only of a valid manifest
    within the configured limits, online, with the gate crossed and every artifact fetched
    with its declared length and digest; its tree is the fetched bytes and the identity
    record (status may have added empty directories), it verifies, and what was installed
    before is in quarantine.  No other entry of the cache changes. *)
Theorem install_crash_safe o w m k E f st fates attempts fs :
  key sha256_hex to_vec m = Ok k → (∀ json, to_json m = Ok json → json_from_slice json = Ok m) →
  room fuel E → (1025 ≤ fuel)%nat → viewed k E (mk_View f st false None None) fs → free_top "locks" fs →
  ∃ out fs1 fs2 V,
    run fates (install_transaction o w m) fs = (out, fs1) ∧ out ≠ Diverged ∧
    exec (reconcile_repair k pid fuel) (recover k pid fuel attempts fs1) = (Finished (Ok tt), fs2) ∧
    outcome o w m f V ∧ viewed k E V fs2.
Proof.
  intros Hk Hround Hroom Hfuel HV Hl. pose proof (wp_run _ _ _ _ fates (install_wp o w m k E f Hk Hroom Hfuel Hround st fs
    ltac:(split; [done|]; exists f; split; [apply kin_refl|done]))) as H.
  destruct (run fates _ fs) as [out fs1]. assert (out ≠ Diverged ∧ recoverable o w m k E f fs1) as (Hd & V & Hout & Hset) by by destruct out.
  apply (settling_recover k pid fuel E V attempts) in Hset; [|done].
  apply (settling_exec k pid fuel) in Hset as (fs2 & He & Hv & _); [|done]. by exists out, fs1, fs2, V.
Qed.

(** * An undisturbed installation *)

Lemma install_exec o w m k json E st fs :
  validate m = Ok tt → Install.validate_install_size o m = Ok tt → Install.offline o = false → gate w = Install.COMMIT_OPEN →
  first_lock w = Ok tt → own_lock w = Ok tt → second_lock w = Ok tt → last_lock w = Ok tt →
  key sha256_hex to_vec m = Ok k → to_json m = Ok json → json_from_slice json = Ok m → beside_manifest m →
  Forall (fetchable o (net w)) (artifacts m) →
  room fuel E → (1025 ≤ fuel)%nat → viewed k E (mk_View None st false None None) fs → free_top "locks" fs →
  ∃ b t fs', Identity.trusts sha256_hex to_vec trust_root m = Ok b ∧
    exec (install_transaction o w m) fs = (Finished (Ok (if b : bool then Loadable else IntegrityVerified)), fs') ∧
    holds t (staged_files (content o (net w)) m json) ∧ intact sha256_hex m t ∧
    viewed k E (mk_View (Some t) None false None None) fs'.
Proof.
  intros Hv Hz Hon Hg L1 L2 L3 L4 Hk Hj Hp Hb Hf Hroom Hfuel HV Hl. unfold install_transaction. rewrite Hv, Hz, L1, L2, L3.
  do 2 (erewrite exec_try_Ok; [|done]).
  destruct (status_missing sha256_hex to_vec trust_root pid fuel m k E _ asks fs poll_idle Hv Hk Hroom HV eq_refl eq_refl) as [Hs1 _].
  erewrite exec_try_Ok; [|exact Hs1]. change (installed Missing) with false. cbv iota. rewrite Hon.
  erewrite exec_try_Ok; [|by apply exec_call_Ok]. cbv iota. rewrite Hk. do 2 (erewrite exec_try_Ok; [|done]). cbv beta.
  erewrite exec_try_Ok; [|by eapply reconcile_unmarked]. erewrite exec_try_Ok; [|exact Hs1]. change (installed Missing) with false.
  cbv iota. unfold stage_and_commit.
  destruct (wp_exec false (prepare_staging (staging_dir k)) (λ _, True)
    (λ r s, r = Ok tt ∧ viewed k E (mk_View None (Some (Dir [])) false None None) s) fs) as (r & fs1 & He1 & -> & Hv1).
  { by eapply prepare_staging_wp. }
  erewrite exec_try_Ok; [|exact He1].
  destruct (downloaded_exec o (net w) m k E None fs1 Hv Hv1) as (r & t1 & fs2 & He & Hiff & Hok).
  assert (r = Ok tt) as -> by by apply Hiff. destruct (Hok eq_refl) as (Hv2 & Hheight & Hh).
  erewrite exec_try_Ok; [|exact He]. erewrite exec_try_Ok; [|by apply exec_call_Ok]. cbv iota. rewrite Hg.
  cbn [Install.begin_commit fst negb].
  destruct (identified_exec o (net w) m k E None t1 fs2 Hv2 Hheight Hh) as (r & t2 & fs3 & He3 & Hr & Hok3).
  assert (r = Ok tt) as -> by by eapply Hr. destruct (Hok3 eq_refl) as (Hv3 & Hht & json' & Hj' & Hh2).
  assert (json' = json) as -> by congruence.
  erewrite exec_try_Ok; [|exact He3].
  destruct (replaced_exec k E (promote k pid fuel (staging_dir k)) _ _ _ fs3
    (promote_fresh_wp k pid fuel E false t2 (unsynced fs3) fs3 Hroom Hv3 (ho_plain _ _ Hh2) ltac:(lia) ltac:(done)))
    as (fs4 & Hpr & Hv4 & _).
  erewrite exec_try_Ok; [|exact Hpr]. rewrite L4.
  assert (intact sha256_hex m t2) as Hint.
  { apply (installs_intact o w); [congruence|]. split; try done. by eexists. }
  destruct (status_exec sha256_hex to_vec trust_root pid fuel m k E _ _ fs4 Hv Hk Hroom Hv4 eq_refl) as (r & fs' & He4 & _ & Hi).
  destruct (Hi Hint) as (Hv' & b & Hb' & ->). by exists b, t2, fs'.
Qed.

(** C25: a download is exactly its abstract counterpart.  Into a new place of a directory:
    whatever the server does, only allowed origins are contacted, at most once more than the
    redirect limit; undisturbed, the download returns, and succeeds iff there is something
    [fetched], which is then exactly what the new file holds; otherwise it fails, and the file
    holds no more than the declared and the configured size.  Under any faults its success is
    the undisturbed one. *)
Theorem download_exact o e a d n cs names x fs :
  tops fs !! d = Some KDir → at_tree d n (Dir cs) fs → (size a <= u64_max)%N →
  (∀ i, ∃ c, descend (Dir cs) (take i names) = Some (Dir c)) → descend (Dir cs) (names ++ [x]) = None →
  (∀ u, url_parse (url a) = Some u →
     let requested := (Install.follow o e (N.to_nat (Install.max_redirects o)) 0 u).1 in
     Forall (λ v, Install.ensure_allowed o v = Ok tt) requested ∧
     (length requested ≤ N.to_nat (Install.max_redirects o) + 1)%nat) ∧
  ∃ r t', exec (download o e [d; n] (Normal <$> names ++ [x]) a) fs = (Finished r, with_tree d n t' fs) ∧
    (t' = Dir cs ∨ ∃ b, t' = put (Dir cs) (names ++ [x]) (File b) ∧ (str_len b <= limit o (size a))%N) ∧
    match fetched o e a with
    | Some b => r = Ok tt ∧ t' = put (Dir cs) (names ++ [x]) (File b)
    | None => ∃ err, r = Err err
    end ∧
    ∀ fates s, run fates (download o e [d; n] (Normal <$> names ++ [x]) a) fs = (Finished (Ok tt), s) →
               r = Ok tt ∧ s = with_tree d n t' fs.
Proof.
  intros Hd Ht Hmax Hn Hx. split.
  - intros u _ requested. destruct (Install.follow o e (N.to_nat (Install.max_redirects o)) 0 u) as [us res] eqn:Hf.
    destruct (Install.follow_spec _ _ _ _ _ _ _ Hf) as [H1 H2]. subst requested. cbn [fst]. split; [done|lia].
  - destruct (download_exec o d n e a cs names x fs Hd Ht Hmax Hn Hx) as (r & t' & He & Hb & Hf). exists r, t'. split_and!; [done..|].
    intros fates s Hr%faithful_download. rewrite Hr in He. by simplify_eq.
Qed.

End installer.

(** * Concrete runs *)

Definition sample_servers (a : Artifact) : Install.DownloadEnv (U := SimpleUrl) :=
  Install.sample_download "https://acme.example/cdn/file" [Install.CData "abcdefghij"; Install.CData (String.substring 10 10 (sample_content a))] (size a).
Definition sample_surroundings : Surroundings (U := SimpleUrl) :=
  mk_Surroundings (U := SimpleUrl) sample_servers Install.COMMIT_OPEN (Ok tt) (Ok tt) (Ok tt) (Ok tt).

Lemma sample_fetchable :
  Forall (fetchable (U := SimpleUrl) sample_sha Install.sample_options sample_servers) (artifacts sample_manifest).
Proof. repeat constructor; vm_compute; by eexists. Defined.

(** A run that is cut short while the first artifact is being written, over a damaged model. *)
Lemma install_crash_safe_witness :
  ∃ out fs1 fs2 V,
    run (replicate 60 Proceeds) (install_transaction (U := SimpleUrl) (J := SimpleJson) sample_sha Identity.simple_to_vec ∅ 7 1025
      Install.sample_options sample_surroundings sample_manifest) (sample_store sample_key (Some (Dir []))) = (out, fs1) ∧
    out ≠ Diverged ∧
    exec (reconcile_repair sample_key 7 1025) (recover sample_key 7 1025 [] fs1) = (Finished (Ok tt), fs2) ∧
    outcome (U := SimpleUrl) (J := SimpleJson) sample_sha Install.sample_options sample_surroundings sample_manifest (Some (Dir [])) V ∧
    viewed sample_key ∅ V fs2.
Proof.
  apply (install_crash_safe (U := SimpleUrl) (J := SimpleJson) sample_sha Identity.simple_to_vec ∅ 7 1025 Install.sample_options
    sample_surroundings sample_manifest sample_key ∅ (Some (Dir [])) None (replicate 60 Proceeds) []).
  - vm_compute. reflexivity.
  - intros json Hj. vm_compute in Hj. injection Hj as <-. reflexivity.
  - exact empty_room.
  - lia.
  - apply sample_store_viewed. repeat split; intros ? [= <-]; by eexists.
  - by left.
Defined.

Definition sample_artifact : Artifact :=
  mk_Artifact "tokenizer.json" "https://acme.example/tokenizer.json" (sample_sha "abcdefghijabcdefghij") 20.

Lemma download_exact_witness :
  (exec (download (U := SimpleUrl) sample_sha Install.sample_options (sample_servers sample_artifact) (model_dir sample_key)
     [Normal "tokenizer.json"] sample_artifact) (sample_store sample_key (Some (Dir [])))).1 = Finished (Ok tt).
Proof.
  destruct (download_exact (U := SimpleUrl) sample_sha Install.sample_options (sample_servers sample_artifact) sample_artifact
    "models" sample_key [] [] "tokenizer.json" (sample_store sample_key (Some (Dir [])))) as (_ & r & t' & He & _ & Hr & _).
  - reflexivity.
  - reflexivity.
  - vm_compute. discriminate.
  - intros i. exists []. by rewrite take_nil.
  - reflexivity.
  - change [Normal "tokenizer.json"] with (Normal <$> [] ++ ["tokenizer.json"]). unfold model_dir. rewrite He.
    vm_compute in Hr. by destruct Hr as [-> _].
Defined.

End Installer.
