(* ===== verification/Discovery.v ===== *)
(** Discovery ([impossible-models/src/store.rs]): the bounded scan of the configured roots
    and the checks of an import source's path. *)

From Stdlib Require Import NArith Lia Ascii.
From stdpp Require Import base strings gmap list.
From S2P Require Import Prelude Core Std Config Manifest Disk Cache Identity Files Store.
Import Manifest Disk Cache Files Store.

Local Open Scope string_scope.
Local Open Scope list_scope.
Local Open Scope rust_scope.

Module Discovery.

(** * Discovery *)

Section discovery.
Context {U : UrlCrate} {J : JsonCrate}.

(** The entries of one root: how many were inspected so far, and the manifests found. *)
Fixpoint discover_entries (root : Path) (canonical_root : option Path) (names : list string)
    (inspected_entries : N) (found : list Manifest) : prog (result Error (N * list Manifest)) :=
  match names with
  | [] => Ret (Ok (inspected_entries, found))
  | name :: names =>
    do? inspected_entries := Ret (ok_or (checked_add u64_max inspected_entries 1)
                                        (EInvalid "model discovery entry limit exceeded")) in
    if (MAX_DISCOVERY_ENTRIES <? inspected_entries)%N then Ret (Err (EInvalid "model discovery entry limit exceeded")) else
    let directory := root ++ [name] in
    do? kind := call_or (SymlinkMetadata directory) (EInvalid "model discovery entry is unavailable") in
    if is_reparse kind || negb (is_dir kind) then discover_entries root canonical_root names inspected_entries found else
    prog_bind (io (Canonicalize directory)) (λ r,
      match r with
      | Err _ => discover_entries root canonical_root names inspected_entries found
      | Ok canonical_directory =>
        if negb (starts_with canonical_directory canonical_root)
        then discover_entries root canonical_root names inspected_entries found else
        prog_bind (read_contained_manifest directory) (λ r,
          discover_entries root canonical_root names inspected_entries
            (match r with Ok manifest => found ++ [manifest] | Err _ => found end))
      end)
  end.

Fixpoint discover_roots (roots : list Path) (inspected_entries : N) (found : list Manifest) : prog (result Error (list Manifest)) :=
  match roots with
  | [] => Ret (Ok found)
  | root :: roots =>
    let unavailable := EInvalid "model discovery root is unavailable" in
    prog_bind (io (SymlinkMetadata root)) (λ r,
      match r with
      | Err NotFound => discover_roots roots inspected_entries found
      | Err _ => Ret (Err unavailable)
      | Ok kind =>
        if is_reparse kind || negb (is_dir kind) then discover_roots roots inspected_entries found else
        do? canonical_root := call_or (Canonicalize root) unavailable in
        do? names := call_or (ReadDir root) unavailable in
        do? r := discover_entries root canonical_root names inspected_entries found in
        discover_roots roots (fst r) (snd r)
      end)
  end.

Definition discover (roots : list Path) : prog (result Error (list Manifest)) :=
  if (MAX_DISCOVERY_ROOTS <? N.of_nat (length roots))%N
  then Ret (Err (EInvalid "model discovery root limit exceeded"))
  else discover_roots roots 0 [].

(** ** The reference: what a root holds *)

Definition identity_at (fs : Fs) (d n : string) : option Manifest :=
  match entries fs !! (d, n) with
  | Some (Dir cs) => match stored_manifest (Dir cs) with Ok m => Some m | Err _ => None end
  | _ => None
  end.

Definition root_names (fs : Fs) (d : string) : list string :=
  match tops fs !! d with Some KDir => names_of d fs | _ => [] end.
Definition root_manifests (fs : Fs) (d : string) : list Manifest := omap (identity_at fs d) (root_names fs d).
Definition all_names (fs : Fs) (ds : list string) : N := sum_N ((λ d, N.of_nat (length (root_names fs d))) <$> ds).

Lemma names_of_present d n fs : n ∈ names_of d fs → is_Some (entries fs !! (d, n)).
Proof.
  unfold names_of. rewrite list_elem_of_omap. intros ([[top x] v] & Hin & Hx). destruct (String.eqb_spec top d) as [->|]; [|done].
  injection Hx as ->. apply elem_of_map_to_list in Hin. by eexists.
Qed.

Lemma entries_step d n v fs :
  tops fs !! d = Some KDir → entries fs !! (d, n) = Some v →
  ∀ names k found, (k + 1 <= MAX_DISCOVERY_ENTRIES)%N →
  exec (discover_entries [d] (Some [d]) (n :: names) k found) fs =
  exec (discover_entries [d] (Some [d]) names (k + 1) (found ++ option_list (identity_at fs d n))) fs.
Proof.
  intros Hd Hn names k found Hk. unfold identity_at. rewrite Hn. cbn [discover_entries].
  assert (checked_add u64_max k 1 = Some (k + 1)%N) as ->.
  { apply checked_add_Some. split; [done|]. unfold u64_max, MAX_DISCOVERY_ENTRIES in *. lia. }
  erewrite exec_try_Ok; [|done]. rewrite (proj2 (N.ltb_ge _ _)) by lia. cbv zeta. unfold call_or.
  erewrite exec_try_Ok; [|rewrite exec_bind; unfold io; cbn [exec]; unfold perform; simpl metadata; rewrite Hn; done].
  destruct v as [b|cs| |]; cbn [kind]; try (by rewrite app_nil_r).
  change (is_reparse KDir || negb (is_dir KDir)) with false. cbv iota.
  change ([d] ++ [n]) with [d; n].
  rewrite exec_bind. unfold io. cbn [exec]. unfold perform at 1. simpl metadata. rewrite Hn.
  rewrite (linked_entry d n cs fs Hd Hn). cbn [mbind option_bind fmap option_fmap option_map]. change (starts_with (Some [d; n]) (Some [d])) with (bool_decide ([d] = [d])).
  rewrite bool_decide_eq_true_2 by done. cbn [negb]. cbv iota beta.
  rewrite exec_bind, (read_manifest_exec d n (Dir cs) fs Hd Hn).
  destruct (stored_manifest (Dir cs)); cbn [option_list]; by rewrite ?app_nil_r.
Qed.

Definition entry_limit : Error := EInvalid "model discovery entry limit exceeded".

Lemma entries_exec d fs :
  tops fs !! d = Some KDir →
  ∀ names k found, Forall (λ n, is_Some (entries fs !! (d, n))) names → (k <= MAX_DISCOVERY_ENTRIES)%N →
  exec (discover_entries [d] (Some [d]) names k found) fs =
  (Finished (if (MAX_DISCOVERY_ENTRIES <? k + N.of_nat (length names))%N then Err entry_limit
             else Ok ((k + N.of_nat (length names))%N, found ++ omap (identity_at fs d) names)), fs).
Proof.
  intros Hd names. induction names as [|n names IH]; intros k found Hn Hk.
  { cbn [discover_entries exec length omap list_omap]. rewrite N.add_0_r, app_nil_r, (proj2 (N.ltb_ge _ _)) by lia. done. }
  apply Forall_cons in Hn as [[v Hv] Hn]. destruct (decide (k + 1 <= MAX_DISCOVERY_ENTRIES)%N) as [Hle|Hgt].
  - rewrite (entries_step d n v fs Hd Hv) by done. rewrite IH by done. cbn [length omap list_omap].
    replace (k + 1 + N.of_nat (length names))%N with (k + N.of_nat (S (length names)))%N by lia.
    destruct (_ <? _)%N; [done|]. rewrite <-app_assoc. by destruct (identity_at fs d n).
  - cbn [discover_entries]. assert (checked_add u64_max k 1 = Some (k + 1)%N) as ->.
    { apply checked_add_Some. split; [done|]. unfold u64_max, MAX_DISCOVERY_ENTRIES in *. lia. }
    erewrite exec_try_Ok; [|done]. rewrite (proj2 (N.ltb_lt _ _)) by lia. cbn [length].
    rewrite (proj2 (N.ltb_lt _ _)) by lia. done.
Qed.

Lemma roots_exec fs ds :
  ∀ k found, (k <= MAX_DISCOVERY_ENTRIES)%N →
  exec (discover_roots ((λ d, [d]) <$> ds) k found) fs =
  (Finished (if (MAX_DISCOVERY_ENTRIES <? k + all_names fs ds)%N then Err entry_limit
             else Ok (found ++ concat (root_manifests fs <$> ds))), fs).
Proof.
  induction ds as [|d ds IH]; intros k found Hk.
  { cbn [fmap list_fmap discover_roots exec concat]. change (all_names fs []) with 0%N.
    rewrite N.add_0_r, app_nil_r, (proj2 (N.ltb_ge _ _)) by lia. done. }
  unfold all_names. rewrite !fmap_cons. cbn [discover_roots concat sum_N foldr]. fold (sum_N ((λ d, N.of_nat (length (root_names fs d))) <$> ds)).
  fold (all_names fs ds). cbv zeta. rewrite exec_bind. unfold io. cbn [exec]. unfold perform at 1. cbn [metadata].
  unfold root_manifests at 1, root_names. destruct (tops fs !! d) as [k0|] eqn:Hd; cbn [ok_or].
  2: { cbn [length omap list_omap app]. by rewrite IH, N.add_0_l. }
  destruct k0; try (cbn [length omap list_omap app]; change (is_reparse _ || negb (is_dir _)) with true; cbv iota;
    by rewrite IH, N.add_0_l).
  change (is_reparse KDir || negb (is_dir KDir)) with false. cbv iota. unfold call_or, io.
  erewrite exec_try_Ok.
  2: { rewrite exec_bind. cbn [exec]. unfold perform. cbn [metadata]. rewrite Hd, (linked_top d KDir fs Hd) by done. done. }
  erewrite exec_try_Ok.
  2: { rewrite exec_bind. cbn [exec]. unfold perform, read_dir. rewrite Hd. done. }
  assert (Forall (λ n, is_Some (entries fs !! (d, n))) (names_of d fs)) as Hall.
  { apply Forall_forall. intros n. apply names_of_present. }
  pose proof (entries_exec d fs Hd (names_of d fs) k found Hall Hk) as He.
  destruct (N.ltb_spec MAX_DISCOVERY_ENTRIES (k + N.of_nat (length (names_of d fs)))) as [Hlt|Hge].
  - erewrite exec_try_Err; [|exact He]. rewrite (proj2 (N.ltb_lt _ _)) by lia. done.
  - erewrite exec_try_Ok; [|exact He]. cbn [fst snd]. rewrite IH by done. rewrite N.add_assoc, <-app_assoc. done.
Qed.

(** Discovery is the bounded scan.  On a quiescent disk [discover] answers, without
    changing anything, exactly the manifests that read back validly from the plain
    directories directly below the configured roots, in order, skipping missing and linked
    roots, other entries and unreadable records; more than 64 roots, or more than 1024
    entries in all of them together, is an error instead of a partial answer. *)
Theorem discovery_exact fs ds :
  exec (discover ((λ d, [d]) <$> ds)) fs =
  (Finished (if (MAX_DISCOVERY_ROOTS <? N.of_nat (length ds))%N then Err (EInvalid "model discovery root limit exceeded")
             else if (MAX_DISCOVERY_ENTRIES <? all_names fs ds)%N then Err entry_limit
             else Ok (concat (root_manifests fs <$> ds))), fs).
Proof.
  unfold discover. rewrite length_fmap. destruct (_ <? _)%N; [done|]. by rewrite (roots_exec fs ds 0 []) by done.
Qed.

End discovery.

(** * The path of an import source

    [metadata] is what [symlink_metadata] answers for a spelling of the path, [canonical]
    what [canonicalize] answers for all of it. *)

Definition is_dot (c : Component) : bool := match c with CurDir | ParentDir => true | _ => false end.

Fixpoint source_components (metadata : list Component → result Error Kind) (current rest : list Component) : result Error unit :=
  match rest with
  | [] => Ok tt
  | c :: rest =>
    let current := current ++ [c] in
    let? k := metadata current in
    ensure negb (is_reparse k) else EInvalid "import source contains a symlink or reparse point" in
    source_components metadata current rest
  end.

Definition validate_import_source {A} (source : list Component) (metadata : list Component → result Error Kind)
    (canonical : result Error A) : result Error A :=
  ensure negb (existsb is_dot source) else EInvalid "import source contains unsafe components" in
  let? k := metadata source in
  ensure negb (is_reparse k || negb (is_dir k)) else EInvalid "import source must be a real non-reparse directory" in
  let? _ := source_components metadata [] source in
  canonical.

Lemma source_components_Ok metadata rest : ∀ current,
  source_components metadata current rest = Ok tt →
  ∀ i, (i < length rest)%nat → ∃ k, metadata (current ++ take (S i) rest) = Ok k ∧ k ≠ KSymlink.
Proof.
  induction rest as [|c rest IH]; intros current H i Hi; simpl in Hi; [lia|]. cbn [source_components] in H. cbv zeta in H.
  apply bind_Ok in H as (k & Hk & H). apply Config.ensure_Ok in H as [Hr H]. destruct i as [|i].
  - exists k. split; [done|]. intros ->. done.
  - destruct (IH _ H i) as (k' & Hk' & Hne); [lia|]. exists k'. split; [|done]. rewrite <-app_assoc in Hk'. done.
Qed.

(** An accepted source has no dot components and no link on any spelling of its path, and is
    a directory. *)
Lemma import_source_checked {A} source metadata (canonical : result Error A) a :
  validate_import_source source metadata canonical = Ok a →
  canonical = Ok a ∧ metadata source = Ok KDir ∧ (∀ c, c ∈ source → c ≠ CurDir ∧ c ≠ ParentDir) ∧
  ∀ i, (i < length source)%nat → ∃ k, metadata (take (S i) source) = Ok k ∧ k ≠ KSymlink.
Proof.
  unfold validate_import_source. intros H. apply Config.ensure_Ok in H as [Hdot H]. apply bind_Ok in H as (k & Hk & H).
  apply Config.ensure_Ok in H as [Hd H]. apply bind_Ok in H as ([] & Hc & H). split_and!; [done| | |].
  - destruct k; try done.
  - intros c Hc'. split; intros ->; apply negb_true_iff, not_true_iff_false in Hdot; apply Hdot, existsb_exists;
      eexists; (split; [by apply list_elem_of_In|done]).
  - apply (source_components_Ok metadata source [] Hc).
Qed.

End Discovery.
