(* ===== verification/Float.v ===== *)
(** Single-precision arithmetic on bit patterns: [f32] of the language, as IEEE-754 binary32
    with round to nearest even (the Standard Library's [SpecFloat] at 24 bits of precision),
    and the magnitudes that show when an operation stays finite. *)

From Stdlib Require Import NArith ZArith Lia SpecFloat Ascii.
From stdpp Require Import base list strings.
From S2P Require Import Prelude Core Std.

Local Open Scope Z_scope.

Module Float.

(** * Bit patterns *)

Definition f_prec : Z := 24.
Definition f_emax : Z := 128.

Definition decode (bits : f32) : spec_float :=
  let s := N.testbit bits 31 in
  let ex := N.land (N.shiftr bits 23) 255 in
  let m := N.land bits 8388607 in
  if (ex =? 255)%N then (if (m =? 0)%N then S754_infinity s else S754_nan)
  else if (ex =? 0)%N then match m with N0 => S754_zero s | Npos p => S754_finite s p (-149) end
  else S754_finite s (N.succ_pos (m + 8388607)) (Z.of_N ex - 150).

(** The sign, the exponent field and the mantissa field; the language does not say which
    NaN an operation gives, here the quiet one. *)
Definition fields (s : bool) (ex m : N) : f32 :=
  ((if s then 2147483648 else 0) + ex * 8388608 + m)%N.

Definition encode (x : spec_float) : f32 :=
  match x with
  | S754_zero s => fields s 0 0
  | S754_infinity s => fields s 255 0
  | S754_nan => fields false 255 4194304
  | S754_finite s m e =>
    let f := N.land (Npos m) 8388607 in
    if Zpos (digits2_pos m) =? f_prec then fields s (Z.to_N (e + 150)) f else fields s 0 f
  end.

Definition f32_add (a b : f32) : f32 := encode (SFadd f_prec f_emax (decode a) (decode b)).
Definition f32_mul (a b : f32) : f32 := encode (SFmul f_prec f_emax (decode a) (decode b)).
Definition f32_div (a b : f32) : f32 := encode (SFdiv f_prec f_emax (decode a) (decode b)).
Definition f32_sqrt (a : f32) : f32 := encode (SFsqrt f_prec f_emax (decode a)).
(** [a <= b], false when one is NaN. *)
Definition f32_le (a b : f32) : bool := SFleb (decode a) (decode b).

(** [a < b], false when one is NaN. *)
Definition f32_lt (a b : f32) : bool := SFltb (decode a) (decode b).

(** * Decimal text *)

(** The digits, the optional point and the optional exponent of a decimal number: its
    integer mantissa and power of ten. *)
Definition parse_number (s : string) : option (N * Z) :=
  let '(m, whole, r) := read_digits 10 0 0 s in
  let '(m, frac, r) := match r with
                       | String "." r' => read_digits 10 m 0 r'
                       | _ => (m, 0%nat, r)
                       end in
  if (whole + frac =? 0)%nat then None else
  match r with
  | EmptyString => Some (m, - Z.of_nat frac)
  | String c r =>
    if negb (Ascii.eqb (ascii_lower c) "e") then None else
    let '(negative, r) := match r with
                          | String "-" r' => (true, r')
                          | String "+" r' => (false, r')
                          | _ => (false, r)
                          end in
    let '(e, count, r) := read_digits 10 0 0 r in
    if (count =? 0)%nat || negb (str_is_empty r) then None else
    Some (m, (if negative then - Z.of_N e else Z.of_N e) - Z.of_nat frac)
  end.

(** [m * 10 ^ e], correctly rounded. *)
Definition of_decimal (negative : bool) (m : N) (e : Z) : spec_float :=
  match m with
  | N0 => S754_zero negative
  | Npos p =>
    if 0 <=? e then binary_round f_prec f_emax negative (p * Z.to_pos (10 ^ e)) 0
    else let '(q, ex, l) := SFdiv_core_binary f_prec f_emax (Zpos p) 0 (10 ^ (- e)) 0 in
         binary_round_aux f_prec f_emax negative q ex l
  end.

(** [str::parse::<f32>] *)
Definition f32_from_str (s : string) : option f32 :=
  let '(negative, r) := match s with
                        | String "-" r => (true, r)
                        | String "+" r => (false, r)
                        | _ => (false, s)
                        end in
  match parse_number r with
  | Some (m, e) => Some (encode (of_decimal negative m e))
  | None =>
    let name := to_ascii_lowercase r in
    if String.eqb name "inf" || String.eqb name "infinity" then Some (encode (S754_infinity negative))
    else if String.eqb name "nan" then Some (encode S754_nan) else None
  end.

Example parse_tenth : f32_from_str "0.1" = Some 1036831949%N ∧ f32_from_str "-1e-60" = Some 2147483648%N ∧
  f32_from_str ".5E+0" = Some 1056964608%N ∧ f32_from_str "e1" = None ∧ f32_from_str "1.0.0" = None.
Proof. vm_compute. done. Qed.

(** * Binary64 *)

(** [f64::from(x)] of a finite value: every one is a normal number of binary64, or zero. *)
Definition widen (x : f32) : N :=
  match decode x with
  | S754_finite s m e =>
    let d := Zpos (digits2_pos m) in
    let m' := Z.to_N (Z.shiftl (Zpos m) (53 - d)) in
    ((if s then 2 ^ 63 else 0) + Z.to_N (e + d + 1022) * 2 ^ 52 + (m' - 2 ^ 52))%N
  | S754_zero s => (if s then 2 ^ 63 else 0)%N
  | S754_infinity s => ((if s then 2 ^ 63 else 0) + 2047 * 2 ^ 52)%N
  | S754_nan => (2047 * 2 ^ 52 + 2 ^ 51)%N
  end.

Example widen_samples : widen 1065353216 = 4607182418800017408%N ∧ widen 1 = 3936146074321813504%N.
Proof. vm_compute. done. Qed.

Definition f32_zero : f32 := 0.
Definition f32_neg_zero : f32 := 2147483648.
Definition f32_one : f32 := 1065353216.
(** [f32::EPSILON], 2^-23 *)
Definition f32_epsilon : f32 := 872415232.

Example three_four_five :
  f32_sqrt (f32_add (f32_mul 1077936128 1077936128) (f32_mul 1082130432 1082130432)) = 1084227584%N ∧
  f32_div 1077936128 1084227584 = 1058642330%N.
Proof. split; vm_compute; reflexivity. Qed.

(** ** The fields *)

Lemma land_mask n k : N.land n (N.ones k) = (n mod 2 ^ k)%N.
Proof. apply N.land_ones. Qed.

Lemma fields_parts s ex m :
  (ex < 256)%N → (m < 8388608)%N →
  N.land (N.shiftr (fields s ex m) 23) 255 = ex ∧ N.land (fields s ex m) 8388607 = m ∧ N.testbit (fields s ex m) 31 = s.
Proof.
  intros He Hm. change 255%N with (N.ones 8). change 8388607%N with (N.ones 23). rewrite !land_mask, N.shiftr_div_pow2.
  change (2 ^ 23)%N with 8388608%N. change (2 ^ 8)%N with 256%N. unfold fields.
  assert (∀ b, ((b * 256 * 8388608 + ex * 8388608 + m) / 8388608 = b * 256 + ex)%N) as Hd.
  { intros b. symmetry. apply (N.div_unique _ _ _ m); lia. }
  assert (∀ b, ((b * 256 * 8388608 + ex * 8388608 + m) mod 8388608 = m)%N) as Hmod.
  { intros b. symmetry. apply (N.mod_unique _ _ (b * 256 + ex)); lia. }
  replace ((if s then 2147483648 else 0) + ex * 8388608 + m)%N with ((if s then 1 else 0) * 256 * 8388608 + ex * 8388608 + m)%N
    by (destruct s; lia).
  rewrite Hd, Hmod. split_and!; [|done|].
  - symmetry. apply (N.mod_unique _ _ (if s then 1 else 0)); destruct s; lia.
  - rewrite N.testbit_eqb. change (2 ^ 31)%N with 2147483648%N. destruct s.
    + replace (_ / 2147483648)%N with 1%N; [done|]. apply (N.div_unique _ _ _ (ex * 8388608 + m)); lia.
    + rewrite N.div_small by lia. done.
Qed.

(** Finite, by class. *)
Definition sf_finite (x : spec_float) : bool :=
  match x with S754_zero _ | S754_finite _ _ _ => true | _ => false end.

Lemma finite_decode b : f32_is_finite b = sf_finite (decode b).
Proof.
  unfold f32_is_finite, decode. destruct (N.land (N.shiftr b 23) 255 =? 255)%N; [by destruct (_ =? 0)%N|].
  destruct (_ =? 0)%N; [|done]. by destruct (N.land b 8388607).
Qed.

Lemma mask_bound n : (N.land n 8388607 < 8388608)%N.
Proof. change 8388607%N with (N.ones 23). rewrite land_mask. by apply N.mod_lt. Qed.

Lemma encode_finite x :
  f32_is_finite (encode x) = true → sf_finite x = true.
Proof. by destruct x as [s|[]| |]. Qed.

(** Finite, with an exponent in the range of the format. *)
Definition ranged (x : spec_float) : Prop :=
  match x with S754_zero _ => True | S754_finite _ _ e => -149 <= e <= 104 | _ => False end.

Lemma finite_encode x : ranged x → f32_is_finite (encode x) = true.
Proof.
  destruct x as [[]|s| |s m e]; try done. cbn [ranged]. intros He. unfold encode, f32_is_finite.
  pose proof (mask_bound (Npos m)) as Hm. cbv zeta. destruct (_ =? f_prec).
  - destruct (fields_parts s (Z.to_N (e + 150)) (N.land (Npos m) 8388607)) as [-> _]; [lia|done|].
    apply negb_true_iff, N.eqb_neq. lia.
  - by destruct (fields_parts s 0 (N.land (Npos m) 8388607)) as [-> _].
Qed.

(** A number with a full mantissa is its bit pattern. *)
Lemma decode_encode s m e :
  Zpos (digits2_pos m) = 24 → (8388608 <= Npos m < 16777216)%N → -149 <= e <= 104 →
  decode (encode (S754_finite s m e)) = S754_finite s m e.
Proof.
  intros Hd Hm He. unfold encode. rewrite Hd. change (24 =? f_prec) with true. cbv iota zeta.
  destruct (fields_parts s (Z.to_N (e + 150)) (N.land (Npos m) 8388607)) as (H1 & H2 & H3); [lia|apply mask_bound|].
  unfold decode. rewrite H1, H2, H3. cbv zeta. rewrite (proj2 (N.eqb_neq _ 255)), (proj2 (N.eqb_neq _ 0)) by lia.
  f_equal; [|lia]. assert (N.land (Npos m) 8388607 = Npos m - 8388608)%N as ->.
  { change 8388607%N with (N.ones 23). rewrite land_mask. symmetry. apply (N.mod_unique _ _ 1); [change (2 ^ 23)%N with 8388608%N; lia|].
    change (2 ^ 23)%N with 8388608%N. lia. }
  enough (Npos (N.succ_pos (Npos m - 8388608 + 8388607)) = Npos m) by congruence. rewrite N.succ_pos_spec. lia.
Qed.

(** * Magnitudes *)

Lemma digits_bounds p : 2 ^ (Zpos (digits2_pos p) - 1) <= Zpos p < 2 ^ Zpos (digits2_pos p).
Proof.
  assert (∀ q, 2 ^ Zpos (Pos.succ q) = 2 * 2 ^ Zpos q) as Hs.
  { intros q. rewrite Pos2Z.inj_succ, Z.pow_succ_r; lia. }
  induction p as [p IH|p IH|]; cbn [digits2_pos]; [| |done]; rewrite Hs;
    replace (Zpos (Pos.succ (digits2_pos p)) - 1) with (Z.succ (Zpos (digits2_pos p) - 1)) by lia;
    rewrite Z.pow_succ_r by lia; lia.
Qed.

Lemma digits_unique p d : 2 ^ (d - 1) <= Zpos p < 2 ^ d → Zpos (digits2_pos p) = d.
Proof.
  intros [H1 H2]. pose proof (digits_bounds p) as [H3 H4].
  assert (0 < d) by (destruct (Z.lt_ge_cases 0 d); [done|]; exfalso; destruct (Z.eq_dec d 0) as [->|]; [simpl in H2; lia|];
    rewrite Z.pow_neg_r in H2; lia).
  assert (Zpos (digits2_pos p) - 1 < d) by (apply (Z.pow_lt_mono_r_iff 2); lia).
  assert (d - 1 < Zpos (digits2_pos p)) by (apply (Z.pow_lt_mono_r_iff 2); lia). lia.
Qed.

Lemma digits_le p d : 0 <= d → Zpos p < 2 ^ d → Zpos (digits2_pos p) <= d.
Proof.
  intros Hd H. pose proof (digits_bounds p) as [H3 _]. enough (Zpos (digits2_pos p) - 1 < d) by lia.
  apply (Z.pow_lt_mono_r_iff 2); lia.
Qed.

Lemma digits_ge p d : 2 ^ d <= Zpos p → d < Zpos (digits2_pos p).
Proof. intros H. pose proof (digits_bounds p) as [_ H4]. apply (Z.pow_lt_mono_r_iff 2); lia. Qed.

(** ** Shifting right *)

Lemma iter_pos_nat {A} (f : A → A) p x : SpecFloat.iter_pos f p x = Nat.iter (Pos.to_nat p) f x.
Proof.
  assert (∀ n m (y : A), Nat.iter n f (Nat.iter m f y) = Nat.iter (n + m) f y) as Hadd.
  { intros n m y. induction n; simpl; congruence. }
  revert x. induction p as [p IH|p IH|]; intros x; cbn [SpecFloat.iter_pos]; rewrite ?IH, ?Hadd.
  - change (f x) with (Nat.iter 1 f x). rewrite Hadd. f_equal. lia.
  - f_equal. lia.
  - done.
Qed.

Lemma shr_1_m r : 0 <= shr_m r → shr_m (shr_1 r) = shr_m r / 2.
Proof. destruct r as [[|[p|p|]|p] ? ?]; simpl; intros H; [done| | |done|lia]; Z.to_euclidean_division_equations; lia. Qed.

Lemma shr_iter_m n r : 0 <= shr_m r → shr_m (Nat.iter n shr_1 r) = shr_m r / 2 ^ Z.of_nat n.
Proof.
  intros H. induction n as [|n IH]; [simpl; by rewrite Z.div_1_r|].
  rewrite Nat2Z.inj_succ, Z.pow_succ_r by lia. cbn [Nat.iter nat_rect]. fold (Nat.iter n shr_1 r).
  rewrite shr_1_m, IH, Z.div_div, Z.mul_comm; [done|lia|lia|]. rewrite IH. apply Z.div_pos; lia.
Qed.

Lemma shr_spec r e n :
  0 <= shr_m r → shr_m (fst (shr r e n)) = shr_m r / 2 ^ Z.max 0 n ∧ snd (shr r e n) = e + Z.max 0 n.
Proof.
  intros H. destruct n as [|p|p]; simpl; [rewrite Z.div_1_r; lia| |rewrite Z.div_1_r; lia].
  rewrite iter_pos_nat, shr_iter_m, positive_nat_Z by done. done.
Qed.

Definition f_fexp := fexp f_prec f_emax.
Lemma f_fexp_eq e : f_fexp e = Z.max (e - 24) (-149).
Proof. done. Qed.

Lemma shr_m_of_loc m l : shr_m (shr_record_of_loc m l) = m.
Proof. by destruct l as [|[]]. Qed.

(** The mantissa and exponent after fitting to the precision. *)
Lemma shr_fexp_spec m e l :
  0 <= m →
  let k := Z.max 0 (f_fexp (Zdigits2 m + e) - e) in
  shr_m (fst (shr_fexp f_prec f_emax m e l)) = m / 2 ^ k ∧ snd (shr_fexp f_prec f_emax m e l) = e + k.
Proof.
  intros H. unfold shr_fexp. rewrite <-(shr_m_of_loc m l) in H.
  destruct (shr_spec _ e (f_fexp (Zdigits2 m + e) - e) H) as [H1 H2]. rewrite shr_m_of_loc in H1. done.
Qed.

Lemma round_step m l : round_nearest_even m l = m ∨ round_nearest_even m l = m + 1.
Proof. destruct l as [|[]]; simpl; auto. destruct (Z.even m); auto. Qed.

(** Rounding as two fits with at most one unit added between them. *)
Lemma round_aux_spec s m e l :
  0 <= m →
  let k1 := Z.max 0 (f_fexp (Zdigits2 m + e) - e) in
  ∃ m1, (m1 = m / 2 ^ k1 ∨ m1 = m / 2 ^ k1 + 1) ∧
    let k2 := Z.max 0 (f_fexp (Zdigits2 m1 + (e + k1)) - (e + k1)) in
    binary_round_aux f_prec f_emax s m e l =
    match m1 / 2 ^ k2 with
    | Z0 => S754_zero s
    | Zpos m2 => if e + k1 + k2 <=? 104 then S754_finite s m2 (e + k1 + k2) else S754_infinity s
    | Zneg _ => S754_nan
    end.
Proof.
  intros Hm k1. unfold binary_round_aux. destruct (shr_fexp_spec m e l Hm) as [H1 H2]. fold k1 in H1, H2.
  destruct (shr_fexp f_prec f_emax m e l) as [r1 e1]. cbn [fst snd] in H1, H2. subst e1.
  set (m1 := round_nearest_even (shr_m r1) (loc_of_shr_record r1)).
  assert (m1 = m / 2 ^ k1 ∨ m1 = m / 2 ^ k1 + 1) as Hm1 by (rewrite <-H1; apply round_step).
  assert (0 <= m / 2 ^ k1) by (apply Z.div_pos; [done|apply Z.pow_pos_nonneg; lia]).
  exists m1. split; [done|]. cbv zeta. set (k2 := Z.max 0 (f_fexp (Zdigits2 m1 + (e + k1)) - (e + k1))). destruct (shr_fexp_spec m1 (e + k1) loc_Exact ltac:(lia)) as [H3 H4].
  fold k2 in H3, H4. destruct (shr_fexp f_prec f_emax m1 (e + k1) loc_Exact) as [r2 e2]. cbn [fst snd] in H3, H4.
  by rewrite H3, H4.
Qed.

Lemma Zdigits_upper m : 0 <= m → m < 2 ^ Zdigits2 m ∧ 0 <= Zdigits2 m.
Proof. destruct m as [|p|p]; simpl; intros H; [done| |lia]. pose proof (digits_bounds p). lia. Qed.

Lemma Zdigits_le m d : 0 <= m → 0 <= d → m < 2 ^ d → Zdigits2 m <= d.
Proof. destruct m as [|p|p]; simpl; intros; [done| |lia]. by apply digits_le. Qed.

Lemma div_pow2_upper m d k : 0 <= m → 0 <= k → m < 2 ^ d → m / 2 ^ k < 2 ^ Z.max 0 (d - k).
Proof.
  intros Hm Hk Hd. assert (0 < 2 ^ k) by (apply Z.pow_pos_nonneg; lia). apply Z.div_lt_upper_bound; [done|].
  eapply Z.lt_le_trans; [exact Hd|]. rewrite <-Z.pow_add_r by lia. apply Z.pow_le_mono_r; lia.
Qed.

(** Small enough magnitudes do not overflow. *)
Lemma round_no_overflow s m e l :
  0 <= m → Zdigits2 m + e <= 126 → e <= 100 →
  ranged (binary_round_aux f_prec f_emax s m e l).
Proof.
  intros Hm Hmag He. destruct (round_aux_spec s m e l Hm) as (m1 & Hm1 & ->). cbv zeta.
  remember (Z.max 0 (f_fexp (Zdigits2 m + e) - e)) as k1 eqn:E1. rewrite f_fexp_eq in *.
  remember (Z.max 0 (Z.max (Zdigits2 m1 + (e + k1) - 24) (-149) - (e + k1))) as k2 eqn:E2.
  destruct (Zdigits_upper m Hm) as [Hu H0]. assert (0 <= k1) as Hk1 by lia.
  pose proof (div_pow2_upper m _ k1 Hm Hk1 Hu) as Hd. set (D := Z.max 0 (Zdigits2 m - k1)) in *.
  assert (0 <= m / 2 ^ k1) by (apply Z.div_pos; [done|apply Z.pow_pos_nonneg; lia]).
  assert (2 ^ (D + 1) = 2 * 2 ^ D) as Hp by (rewrite Z.pow_add_r by lia; lia).
  assert (Zdigits2 m1 <= D + 1) as Hd1 by (apply Zdigits_le; lia).
  assert (0 <= m1 / 2 ^ k2) by (apply Z.div_pos; [lia|apply Z.pow_pos_nonneg; lia]).
  assert (-149 <= e + k1 + k2 <= 104) as Hb by lia.
  destruct (m1 / 2 ^ k2) as [|m2|m2]; [done| |lia]. rewrite (proj2 (Z.leb_le _ _)) by lia. done.
Qed.

(** Above the subnormal range a fit keeps a full mantissa. *)
Lemma fit_full p e :
  e <= Zpos (digits2_pos p) + e - 24 → -149 <= Zpos (digits2_pos p) + e - 24 →
  let k := Z.max 0 (f_fexp (Zpos (digits2_pos p) + e) - e) in
  e + k = Zpos (digits2_pos p) + e - 24 ∧ 2 ^ 23 <= Zpos p / 2 ^ k < 2 ^ 24.
Proof.
  intros H1 H2 k. assert (k = Zpos (digits2_pos p) - 24) as Hk by (unfold k; rewrite f_fexp_eq; lia).
  destruct (digits_bounds p) as [H3 H4]. assert (0 < 2 ^ k) by (apply Z.pow_pos_nonneg; lia). split; [lia|]. split.
  - apply Z.div_le_lower_bound; [done|]. rewrite <-Z.pow_add_r by lia. replace (k + 23) with (Zpos (digits2_pos p) - 1) by lia. done.
  - apply Z.div_lt_upper_bound; [done|]. rewrite <-Z.pow_add_r by lia. replace (k + 24) with (Zpos (digits2_pos p)) by lia. done.
Qed.

Lemma round_full s p e l :
  e <= Zpos (digits2_pos p) + e - 24 → -149 <= Zpos (digits2_pos p) + e - 24 →
  binary_round_aux f_prec f_emax s (Zpos p) e l = S754_infinity s ∨
  ∃ m2 e2, binary_round_aux f_prec f_emax s (Zpos p) e l = S754_finite s m2 e2 ∧
    2 ^ 23 <= Zpos m2 < 2 ^ 24 ∧ Zpos (digits2_pos p) + e - 24 <= e2 <= 104.
Proof.
  intros H1 H2. destruct (round_aux_spec s (Zpos p) e l ltac:(lia)) as (m1 & Hm1 & ->). cbv zeta in *. cbn [Zdigits2] in *.
  destruct (fit_full p e H1 H2) as [He Hb]. cbv zeta in He, Hb. rewrite He. clear He.
  set (e1 := Zpos (digits2_pos p) + e - 24) in *. set (k1 := Z.max 0 (f_fexp _ - e)) in *.
  assert (2 ^ 23 <= m1 <= 2 ^ 24) as Hr by lia. destruct m1 as [|q|q]; try lia. cbn [Zdigits2].
  destruct (Z.eq_dec (Zpos q) (2 ^ 24)) as [Hq|Hq].
  - assert (Zpos (digits2_pos q) = 25) as -> by (apply digits_unique; rewrite Hq; lia). rewrite f_fexp_eq.
    replace (Z.max 0 (Z.max (25 + e1 - 24) (-149) - e1)) with 1 by lia. rewrite Hq. change (2 ^ 24 / 2 ^ 1) with (2 ^ 23).
    change (2 ^ 23) with (Zpos 8388608). cbv iota. destruct (Z.leb_spec (e1 + 1) 104); [|by left].
    right. exists 8388608%positive, (e1 + 1). split; [done|]. lia.
  - assert (Zpos (digits2_pos q) = 24) as -> by (apply digits_unique; lia). rewrite f_fexp_eq.
    replace (Z.max 0 (Z.max (24 + e1 - 24) (-149) - e1)) with 0 by lia. rewrite Z.div_1_r. cbv iota. rewrite Z.add_0_r.
    destruct (Z.leb_spec e1 104); [|by left]. right. exists q, e1. split; [done|]. lia.
Qed.

(** A finite result had a magnitude within the range. *)
Lemma round_finite_bound s p e l :
  sf_finite (binary_round_aux f_prec f_emax s (Zpos p) e l) = true → Zpos (digits2_pos p) + e <= 128.
Proof.
  intros Hf. destruct (Z.le_gt_cases (Zpos (digits2_pos p) + e) 128) as [|Hgt]; [done|exfalso].
  destruct (round_aux_spec s (Zpos p) e l ltac:(lia)) as (m1 & Hm1 & Heq). rewrite Heq in Hf. clear Heq. cbv zeta in *. cbn [Zdigits2] in *.
  remember (Z.max 0 (f_fexp (Zpos (digits2_pos p) + e) - e)) as k1 eqn:E1. rewrite f_fexp_eq in *.
  remember (Z.max 0 (Z.max (Zdigits2 m1 + (e + k1) - 24) (-149) - (e + k1))) as k2 eqn:E2.
  assert (105 <= e + k1) by lia. assert (k1 < Zpos (digits2_pos p)) by lia.
  assert (0 < Zpos p / 2 ^ k1) as Hpos.
  { apply Z.div_str_pos. split; [apply Z.pow_pos_nonneg; lia|]. destruct (digits_bounds p) as [H3 _].
    etrans; [|exact H3]. apply Z.pow_le_mono_r; lia. }
  destruct m1 as [|q|q]; try lia. cbn [Zdigits2] in *.
  assert (0 < Zpos q / 2 ^ k2) as Hpos2.
  { apply Z.div_str_pos. split; [apply Z.pow_pos_nonneg; lia|]. destruct (digits_bounds q) as [H3 _].
    etrans; [|exact H3]. apply Z.pow_le_mono_r; lia. }
  destruct (Zpos q / 2 ^ k2) as [|m2|m2]; try lia. rewrite (proj2 (Z.leb_gt _ _)) in Hf by lia. done.
Qed.

(** * Operations *)

Lemma add_absorbs a b : f32_is_finite (f32_add a b) = true → f32_is_finite a = true ∧ f32_is_finite b = true.
Proof.
  rewrite !(finite_decode a), !(finite_decode b). unfold f32_add. intros H%encode_finite.
  destruct (decode a) as [sa|[]| |sa ma ea], (decode b) as [sb|[]| |sb mb eb]; done.
Qed.

(** A square that is finite is of a number below 2^64. *)
Definition below_64 (x : spec_float) : Prop :=
  match x with S754_zero _ => True | S754_finite _ m e => Zpos (digits2_pos m) + e <= 64 | _ => False end.

Lemma square_finite a : f32_is_finite (f32_mul a a) = true → below_64 (decode a).
Proof.
  unfold f32_mul. intros H%encode_finite. destruct (decode a) as [s|[]| |s m e]; try done. cbn [SFmul] in H.
  apply round_finite_bound in H. destruct (digits_bounds m) as [Hm _].
  assert (2 * (Zpos (digits2_pos m) - 1) < Zpos (digits2_pos (m * m))) as Hd.
  { apply digits_ge. rewrite Pos2Z.inj_mul, Z.mul_comm, Z.pow_mul_r, Z.pow_2_r by lia. apply Z.mul_le_mono_nonneg; lia. }
  cbn [below_64]. lia.
Qed.

Lemma above_epsilon n :
  f32_is_finite n = true → f32_le n f32_epsilon = false → ∃ m e, decode n = S754_finite false m e ∧ -46 <= e.
Proof.
  rewrite finite_decode. unfold f32_le. replace (decode f32_epsilon) with (S754_finite false 8388608 (-46)) by (vm_compute; reflexivity).
  destruct (decode n) as [s|s| |[] m e]; try done. intros _. unfold SFleb. cbn [SFcompare].
  destruct (Z.compare_spec e (-46)) as [->|He|He]; [|done|]; intros _; exists m; eexists; (split; [done|lia]).
Qed.

Lemma shifted m s :
  0 <= s → match s with Z0 => m | Zpos _ => Z.shiftl m s | Zneg _ => 0 end = m * 2 ^ s.
Proof. intros H. destruct s as [|p|p]; [lia| |lia]. apply Z.shiftl_mul_pow2. lia. Qed.

(** The square root of such a number is infinite or has a full mantissa. *)
Lemma sqrt_full m e :
  -46 <= e →
  SFsqrt f_prec f_emax (S754_finite false m e) = S754_infinity false ∨
  ∃ m2 e2, SFsqrt f_prec f_emax (S754_finite false m e) = S754_finite false m2 e2 ∧
    2 ^ 23 <= Zpos m2 < 2 ^ 24 ∧ -47 <= e2 <= 104.
Proof.
  intros He. cbn [SFsqrt]. unfold SFsqrt_core_binary. cbn [Zdigits2]. set (d := Zpos (digits2_pos m)).
  set (h := Z.div2 (d + e + 1)). assert (2 * h <= d + e + 1 <= 2 * h + 1) as Hh.
  { unfold h. pose proof (Z.div2_odd (d + e + 1)). destruct (Z.odd _); simpl in *; lia. }
  assert (2 * Z.div2 e <= e <= 2 * Z.div2 e + 1) as Hd2.
  { pose proof (Z.div2_odd e). destruct (Z.odd e); simpl in *; lia. }
  change (fexp f_prec f_emax h) with (f_fexp h). rewrite f_fexp_eq. remember (Z.min (Z.max (h - 24) (-149)) (Z.div2 e)) as e' eqn:Ee.
  rewrite shifted by lia. pose proof (Z.sqrtrem_spec (Zpos m * 2 ^ (e - 2 * e'))) as Hs.
  destruct (digits_bounds m) as [Hm _]. fold d in Hm.
  assert (2 ^ (d - 1 + (e - 2 * e')) <= Zpos m * 2 ^ (e - 2 * e')) as Hlow.
  { rewrite Z.pow_add_r by lia. apply Z.mul_le_mono_nonneg_r; [apply Z.pow_nonneg; lia|done]. }
  destruct (Z.sqrtrem _) as [q r]. destruct Hs as [Hq Hr]; [lia|].
  assert (2 ^ (h - e' - 1) <= q) as Hq1.
  { destruct (Z.le_gt_cases (2 ^ (h - e' - 1)) q) as [|Hlt]; [done|exfalso].
    assert ((q + 1) * (q + 1) <= 2 ^ (d - 1 + (e - 2 * e'))) as Hc.
    { etrans; [apply Z.mul_le_mono_nonneg; [lia| |lia|]; apply Z.le_succ_l in Hlt; exact Hlt|].
      rewrite <-Z.pow_add_r by lia. apply Z.pow_le_mono_r; lia. }
    lia. }
  destruct q as [|q|q]; [|..|lia].
  { assert (0 < 2 ^ (h - e' - 1)) by (apply Z.pow_pos_nonneg; lia). lia. }
  apply digits_ge in Hq1. set (l := if r =? 0 then loc_Exact else _).
  destruct (round_full false q e' l) as [Hi|(m2 & e2 & Hf & Hm2 & He2)]; [lia|lia|by left|]. right. exists m2, e2. split; [done|]. lia.
Qed.

Lemma div_finite s1 m1 e1 s2 m2 e2 :
  Zpos (digits2_pos m1) + e1 <= 64 → -23 <= Zpos (digits2_pos m2) + e2 →
  ranged (SFdiv f_prec f_emax (S754_finite s1 m1 e1) (S754_finite s2 m2 e2)).
Proof.
  intros H1 H2. cbn [SFdiv]. unfold SFdiv_core_binary. cbn [Zdigits2].
  set (d1 := Zpos (digits2_pos m1)) in *. set (d2 := Zpos (digits2_pos m2)) in *.
  change (fexp f_prec f_emax (d1 + e1 - (d2 + e2))) with (f_fexp (d1 + e1 - (d2 + e2))). rewrite f_fexp_eq.
  remember (Z.min (Z.max (d1 + e1 - (d2 + e2) - 24) (-149)) (e1 - e2)) as e' eqn:Ee. remember (e1 - e2 - e') as s eqn:Es.
  rewrite shifted by lia. pose proof (Z_div_mod (Zpos m1 * 2 ^ s) (Zpos m2) ltac:(lia)) as Hdm.
  destruct (Z.div_eucl _ _) as [q r]. destruct Hdm as [Hq Hr].
  destruct (digits_bounds m1) as [_ Hm1]. destruct (digits_bounds m2) as [Hm2 _]. fold d1 in Hm1. fold d2 in Hm2.
  assert (0 < 2 ^ s) as Hs by (apply Z.pow_pos_nonneg; lia). assert (0 <= q) as Hq0 by nia.
  apply round_no_overflow; [done| |lia].
  enough (Zdigits2 q <= Z.max 0 (d1 + s - (d2 - 1))) by lia. apply Zdigits_le; [done|lia|].
  destruct (Z.lt_ge_cases q (2 ^ Z.max 0 (d1 + s - (d2 - 1)))) as [|Hge]; [done|exfalso].
  assert (2 ^ (d1 + s) <= q * Zpos m2) as Hc.
  { etrans; [|apply Z.mul_le_mono_nonneg; [|exact Hge| |exact Hm2]; apply Z.pow_nonneg; lia].
    rewrite <-Z.pow_add_r by lia. apply Z.pow_le_mono_r; lia. }
  rewrite Z.pow_add_r in Hc by lia. nia.
Qed.

(** The step of a normalization: dividing by the root of a sum of squares above
    [EPSILON], when the component's own square is finite. *)
Lemma normalized_finite v n :
  f32_is_finite (f32_mul v v) = true → f32_is_finite n = true → f32_le n f32_epsilon = false →
  f32_is_finite (f32_div v (f32_sqrt n)) = true.
Proof.
  intros Hv Hn He. apply square_finite in Hv. destruct (above_epsilon n Hn He) as (m & e & Hd & Hle).
  unfold f32_div. apply finite_encode. unfold f32_sqrt. rewrite Hd.
  destruct (sqrt_full m e Hle) as [->|(m2 & e2 & -> & Hm2 & He2)].
  - change (decode (encode (S754_infinity false))) with (S754_infinity false). by destruct (decode v) as [s|[]| |s m1 e1].
  - assert (Zpos (digits2_pos m2) = 24) as Hd2 by (apply digits_unique; lia).
    change (2 ^ 23) with 8388608 in Hm2. change (2 ^ 24) with 16777216 in Hm2.
    rewrite decode_encode; [|exact Hd2|lia|lia]. destruct (decode v) as [s|s| |s m1 e1]; [done|done|done|].
    apply div_finite; [exact Hv|lia].
Qed.

End Float.
