(* ===== verification/Probe.v ===== *)
(** What the ONNX engine checks before it runs a model
    ([impossible-embedding-onnx/src/lib.rs]): the graph declares exactly the contract's
    inputs and output, and no tensor of it, at any depth, refers to data outside the
    file. *)

From Stdlib Require Import NArith ZArith Lia.
From stdpp Require Import base strings gmap list.
From S2P Require Import Prelude Core Std Config Manifest.

Local Open Scope string_scope.
Local Open Scope list_scope.
Local Open Scope rust_scope.

Module Probe.

(** * External data *)

Record OnnxStringPairProbe := mk_OnnxStringPairProbe { pair_key : option string; pair_value : option string }.
Record OnnxTensorProbe := mk_OnnxTensorProbe {
  external_data : list OnnxStringPairProbe; data_location : option Z;
}.
Record OnnxSparseTensorProbe := mk_OnnxSparseTensorProbe {
  values : option OnnxTensorProbe; indices : option OnnxTensorProbe;
}.
Inductive OnnxGraphProbe := mk_OnnxGraphProbe (nodes : list OnnxNodeProbe) (initializers : list OnnxTensorProbe)
    (sparse_initializers : list OnnxSparseTensorProbe)
with OnnxNodeProbe := mk_OnnxNodeProbe (attributes : list OnnxAttributeProbe)
with OnnxAttributeProbe := mk_OnnxAttributeProbe (tensor : option OnnxTensorProbe) (graph : option OnnxGraphProbe)
    (tensors : list OnnxTensorProbe) (graphs : list OnnxGraphProbe)
    (sparse_tensor : option OnnxSparseTensorProbe) (sparse_tensors : list OnnxSparseTensorProbe).
Record OnnxTrainingProbe := mk_OnnxTrainingProbe {
  initialization : option OnnxGraphProbe; algorithm : option OnnxGraphProbe;
}.
Record OnnxFunctionProbe := mk_OnnxFunctionProbe {
  fn_nodes : list OnnxNodeProbe; fn_attributes : list OnnxAttributeProbe;
}.
Record OnnxModelProbe := mk_OnnxModelProbe {
  model_graph : option OnnxGraphProbe; training_info : list OnnxTrainingProbe; functions : list OnnxFunctionProbe;
}.

Definition is_some_and {A} (f : A → bool) (o : option A) : bool := match o with Some a => f a | None => false end.

Definition tensor_uses_external_data (t : OnnxTensorProbe) : bool :=
  bool_decide (data_location t = Some 1%Z) || negb (len (external_data t) =? 0)%N.
Definition tensors_use_external_data (l : list OnnxTensorProbe) : bool := existsb tensor_uses_external_data l.
Definition sparse_uses_external_data (t : OnnxSparseTensorProbe) : bool :=
  is_some_and tensor_uses_external_data (values t) || is_some_and tensor_uses_external_data (indices t).

(** The vector of graphs is kept with its last element first: [extend] pushes, [pop] takes
    the head.  [any] stops at the first hit. *)
Definition extend {A} (pushed stack : list A) : list A := reverse pushed ++ stack.

Fixpoint attributes_use_external_data (l : list OnnxAttributeProbe) (stack : list OnnxGraphProbe) : bool * list OnnxGraphProbe :=
  match l with
  | [] => (false, stack)
  | mk_OnnxAttributeProbe tensor graph tensors graphs sparse_tensor sparse_tensors :: l =>
    let stack := extend (option_list graph) stack in
    let stack := extend graphs stack in
    if is_some_and tensor_uses_external_data tensor || tensors_use_external_data tensors
       || is_some_and sparse_uses_external_data sparse_tensor || existsb sparse_uses_external_data sparse_tensors
    then (true, stack) else attributes_use_external_data l stack
  end.

Fixpoint nodes_use_external_data (l : list OnnxNodeProbe) (stack : list OnnxGraphProbe) : bool * list OnnxGraphProbe :=
  match l with
  | [] => (false, stack)
  | mk_OnnxNodeProbe attributes :: l =>
    let '(hit, stack) := attributes_use_external_data attributes stack in
    if hit then (true, stack) else nodes_use_external_data l stack
  end.

(** [while let Some(graph) = graphs.pop()]; [None] is out of fuel. *)
Fixpoint scan_graphs (fuel : nat) (stack : list OnnxGraphProbe) : option (result EngineFailure unit) :=
  match fuel with
  | O => None
  | S fuel =>
    match stack with
    | [] => Some (Ok tt)
    | mk_OnnxGraphProbe nodes initializers sparse_initializers :: stack =>
      if tensors_use_external_data initializers || existsb sparse_uses_external_data sparse_initializers
      then Some (Err (public InvalidRequest)) else
      let '(hit, stack) := nodes_use_external_data nodes stack in
      if hit then Some (Err (public InvalidRequest)) else scan_graphs fuel stack
    end
  end.

Fixpoint scan_functions (l : list OnnxFunctionProbe) (stack : list OnnxGraphProbe) : bool * list OnnxGraphProbe :=
  match l with
  | [] => (false, stack)
  | f :: l =>
    let '(hit, stack) := nodes_use_external_data (fn_nodes f) stack in
    if hit then (true, stack) else
    let '(hit, stack) := attributes_use_external_data (fn_attributes f) stack in
    if hit then (true, stack) else scan_functions l stack
  end.

Fixpoint scan_training (l : list OnnxTrainingProbe) (stack : list OnnxGraphProbe) : list OnnxGraphProbe :=
  match l with
  | [] => stack
  | t :: l => scan_training l (extend (option_list (algorithm t)) (extend (option_list (initialization t)) stack))
  end.

(** The decoded model; [OnnxModelProbe::decode] is [prost]'s. *)
Definition reject_external_data_graph (fuel : nat) (decoded : result string OnnxModelProbe) : option (result EngineFailure unit) :=
  match decoded with
  | Err error => Some (Err (with_source ModelUnavailable ("ONNX inspection failed: " +:+ error)))
  | Ok model =>
    let stack := option_list (model_graph model) in
    let stack := scan_training (training_info model) stack in
    let '(hit, stack) := scan_functions (functions model) stack in
    if hit then Some (Err (public InvalidRequest)) else scan_graphs fuel stack
  end.

(** ** The reference: some tensor anywhere *)

Fixpoint graph_external (g : OnnxGraphProbe) : bool :=
  match g with
  | mk_OnnxGraphProbe nodes initializers sparse_initializers =>
    existsb tensor_uses_external_data initializers || existsb sparse_uses_external_data sparse_initializers
    || existsb node_external nodes
  end
with node_external (n : OnnxNodeProbe) : bool :=
  match n with mk_OnnxNodeProbe attributes => existsb attribute_external attributes end
with attribute_external (a : OnnxAttributeProbe) : bool :=
  match a with
  | mk_OnnxAttributeProbe tensor graph tensors graphs sparse_tensor sparse_tensors =>
    is_some_and tensor_uses_external_data tensor || existsb tensor_uses_external_data tensors
    || is_some_and sparse_uses_external_data sparse_tensor || existsb sparse_uses_external_data sparse_tensors
    || match graph with Some g => graph_external g | None => false end || existsb graph_external graphs
  end.

Definition model_external (m : OnnxModelProbe) : bool :=
  is_some_and graph_external (model_graph m)
  || existsb (λ t, is_some_and graph_external (initialization t) || is_some_and graph_external (algorithm t)) (training_info m)
  || existsb (λ f, existsb node_external (fn_nodes f) || existsb attribute_external (fn_attributes f)) (functions m).

(** How many graphs there are, nested ones included: the fuel the scan needs. *)
Fixpoint graph_count (g : OnnxGraphProbe) : nat :=
  match g with mk_OnnxGraphProbe nodes _ _ => S (sum_list_with node_count nodes) end
with node_count (n : OnnxNodeProbe) : nat :=
  match n with mk_OnnxNodeProbe attributes => sum_list_with attribute_count attributes end
with attribute_count (a : OnnxAttributeProbe) : nat :=
  match a with
  | mk_OnnxAttributeProbe _ graph _ graphs _ _ =>
    (match graph with Some g => graph_count g | None => 0 end + sum_list_with graph_count graphs)%nat
  end.

Definition stack_external (stack : list OnnxGraphProbe) : bool := existsb graph_external stack.
Definition stack_count (stack : list OnnxGraphProbe) : nat := sum_list_with graph_count stack.

Lemma extend_external pushed stack : stack_external (extend pushed stack) = existsb graph_external pushed || stack_external stack.
Proof.
  unfold stack_external, extend. rewrite existsb_app. f_equal. induction pushed as [|g l IH]; [done|].
  rewrite reverse_cons, existsb_app, IH. simpl. rewrite orb_false_r. apply orb_comm.
Qed.

Lemma extend_count pushed stack : stack_count (extend pushed stack) = (sum_list_with graph_count pushed + stack_count stack)%nat.
Proof.
  unfold stack_count, extend. rewrite sum_list_with_app. f_equal. apply sum_list_with_reverse.
Qed.

Lemma attributes_spec l stack :
  let r := attributes_use_external_data l stack in
  fst r || stack_external (snd r) = existsb attribute_external l || stack_external stack ∧
  (stack_count (snd r) ≤ sum_list_with attribute_count l + stack_count stack)%nat.
Proof.
  revert stack. induction l as [|[t g ts gs sp sps] l IH]; intros stack; [done|].
  cbn [attributes_use_external_data existsb attribute_external sum_list_with attribute_count]. cbv zeta.
  set (stack' := extend gs (extend (option_list g) stack)).
  assert (stack_external stack' = match g with Some g => graph_external g | None => false end || existsb graph_external gs || stack_external stack) as He.
  { unfold stack'. rewrite !extend_external. destruct g; simpl; rewrite ?orb_false_r; by destruct (existsb graph_external gs), (graph_external _) || destruct (existsb graph_external gs). }
  assert (stack_count stack' = match g with Some g => graph_count g | None => 0 end + sum_list_with graph_count gs + stack_count stack)%nat as Hc.
  { unfold stack'. rewrite !extend_count. destruct g; simpl; lia. }
  fold (tensors_use_external_data ts). destruct (_ || _ || _ || _) eqn:Hd; cbn [fst snd].
  - split; [done|]. lia.
  - destruct (IH stack') as [H1 H2]. rewrite H1, He. split; [|lia].
    by destruct (existsb attribute_external l), (stack_external stack), (existsb graph_external gs), g as [g|]; simpl; rewrite ?orb_true_r, ?orb_false_r.
Qed.

Lemma nodes_spec l stack :
  let r := nodes_use_external_data l stack in
  fst r || stack_external (snd r) = existsb node_external l || stack_external stack ∧
  (stack_count (snd r) ≤ sum_list_with node_count l + stack_count stack)%nat.
Proof.
  revert stack. induction l as [|[attrs] l IH]; intros stack; [done|]. cbn [nodes_use_external_data existsb node_external sum_list_with node_count].
  destruct (attributes_spec attrs stack) as [H1 H2]. destruct (attributes_use_external_data attrs stack) as [[] stack']; cbn [fst snd orb] in *.
  - split; [|lia]. by rewrite <-orb_assoc, (orb_comm (existsb node_external l)), orb_assoc, <-H1.
  - destruct (IH stack') as [H3 H4]. split; [|lia]. rewrite H3, H1. by destruct (existsb node_external l), (existsb attribute_external attrs).
Qed.

Lemma scan_graphs_spec fuel stack :
  (stack_count stack < fuel)%nat →
  scan_graphs fuel stack = Some (if stack_external stack then Err (public InvalidRequest) else Ok tt).
Proof.
  revert stack. induction fuel as [|fuel IH]; intros stack Hf; [lia|]. destruct stack as [|[ns ini sps] stack]; [done|].
  cbn [scan_graphs]. unfold stack_count in Hf. cbn [sum_list_with graph_count] in Hf. fold (stack_count stack) in Hf.
  change (stack_external (mk_OnnxGraphProbe ns ini sps :: stack)) with
    (tensors_use_external_data ini || existsb sparse_uses_external_data sps || existsb node_external ns || stack_external stack).
  destruct (tensors_use_external_data ini || existsb sparse_uses_external_data sps); [done|]. cbn [orb].
  destruct (nodes_spec ns stack) as [H1 H2]. destruct (nodes_use_external_data ns stack) as [[] stack']; cbn [fst snd orb] in *.
  - by rewrite <-H1.
  - rewrite IH by lia. by rewrite H1.
Qed.

Lemma functions_spec l stack :
  let r := scan_functions l stack in
  fst r || stack_external (snd r) =
    existsb (λ f, existsb node_external (fn_nodes f) || existsb attribute_external (fn_attributes f)) l || stack_external stack ∧
  (stack_count (snd r) ≤ sum_list_with (λ f, sum_list_with node_count (fn_nodes f) + sum_list_with attribute_count (fn_attributes f)) l
                          + stack_count stack)%nat.
Proof.
  revert stack. induction l as [|f l IH]; intros stack; [done|]. cbn [scan_functions existsb sum_list_with].
  destruct (nodes_spec (fn_nodes f) stack) as [H1 H2]. destruct (nodes_use_external_data _ stack) as [[] st1]; cbn [fst snd orb] in *.
  - split; [|lia]. destruct (existsb node_external (fn_nodes f)); [done|]. simpl in H1. by rewrite <-H1, orb_true_r.
  - destruct (attributes_spec (fn_attributes f) st1) as [H3 H4].
    destruct (attributes_use_external_data _ st1) as [[] st2]; cbn [fst snd orb] in *.
    + split; [|lia]. rewrite H1 in H3. by destruct (existsb attribute_external _), (existsb node_external _), (existsb _ l), (stack_external stack).
    + destruct (IH st2) as [H5 H6]. split; [|lia]. rewrite H5, H3, H1.
      by destruct (existsb attribute_external _), (existsb node_external _), (existsb _ l), (stack_external stack).
Qed.

Lemma training_spec l stack :
  stack_external (scan_training l stack) =
    existsb (λ t, is_some_and graph_external (initialization t) || is_some_and graph_external (algorithm t)) l || stack_external stack ∧
  stack_count (scan_training l stack) =
    (sum_list_with (λ t, sum_list_with graph_count (option_list (initialization t)) + sum_list_with graph_count (option_list (algorithm t))) l
     + stack_count stack)%nat.
Proof.
  revert stack. induction l as [|t l IH]; intros stack; [done|]. cbn [scan_training existsb sum_list_with].
  destruct (IH (extend (option_list (algorithm t)) (extend (option_list (initialization t)) stack))) as [-> ->].
  rewrite !extend_external, !extend_count. split; [|lia].
  assert (∀ o, existsb graph_external (option_list o) = is_some_and graph_external o) as Ho.
  { intros [g|]; simpl; [apply orb_false_r|done]. }
  rewrite !Ho. by destruct (existsb _ l), (is_some_and _ (algorithm t)), (is_some_and _ (initialization t)).
Qed.

(** How many graphs a model holds. *)
Definition model_count (m : OnnxModelProbe) : nat :=
  (sum_list_with graph_count (option_list (model_graph m))
   + sum_list_with (λ t, sum_list_with graph_count (option_list (initialization t)) + sum_list_with graph_count (option_list (algorithm t))) (training_info m)
   + sum_list_with (λ f, sum_list_with node_count (fn_nodes f) + sum_list_with attribute_count (fn_attributes f)) (functions m))%nat.

Lemma reject_external_exact model fuel :
  (model_count model < fuel)%nat →
  reject_external_data_graph fuel (Ok model) = Some (if model_external model then Err (public InvalidRequest) else Ok tt).
Proof.
  intros Hf. unfold reject_external_data_graph, model_external. cbv zeta.
  destruct (training_spec (training_info model) (option_list (model_graph model))) as [H1 H2].
  set (st := scan_training _ _) in *. destruct (functions_spec (functions model) st) as [H3 H4].
  assert (stack_external (option_list (model_graph model)) = is_some_and graph_external (model_graph model)) as H0.
  { destruct (model_graph model); [apply orb_false_r|done]. }
  rewrite H0 in H1. unfold model_count in Hf. unfold stack_count at 2 in H2.
  destruct (scan_functions (functions model) st) as [[] st']; cbn [fst snd orb] in *.
  - rewrite H1 in H3. by destruct (is_some_and _ _), (existsb _ (training_info model)), (existsb _ (functions model)).
  - rewrite scan_graphs_spec by lia. rewrite H3, H1.
    by destruct (is_some_and _ _), (existsb _ (training_info model)), (existsb _ (functions model)).
Qed.

(** No external data, at any depth.  With fuel for the graphs of the model the scan
    ends, and it accepts a decoded model iff no tensor of it refers to external data:
    initializers, sparse ones, and the attributes of nodes, in the main graph, the training
    graphs, the functions and every graph nested in an attribute. *)
Theorem external_data_rejected model fuel :
  (model_count model < fuel)%nat →
  reject_external_data_graph fuel (Ok model) = Some (if model_external model then Err (public InvalidRequest) else Ok tt).
Proof. apply reject_external_exact. Qed.

Definition nested_external : OnnxModelProbe :=
  mk_OnnxModelProbe
    (Some (mk_OnnxGraphProbe [mk_OnnxNodeProbe [mk_OnnxAttributeProbe None
       (Some (mk_OnnxGraphProbe [] [mk_OnnxTensorProbe [] (Some 1%Z)] [])) [] [] None [] ] ] [] [])) [] [].

Lemma external_data_rejected_witness : reject_external_data_graph 3 (Ok nested_external) = Some (Err (public InvalidRequest)).
Proof. rewrite (external_data_rejected nested_external 3); [reflexivity|vm_compute; lia]. Defined.

(** * The graph contract *)

Inductive TensorElementType := Int64 | Float32 | OtherElement.
#[global] Instance TensorElementType_eq_dec : EqDecision TensorElementType.
Proof. solve_decision. Defined.
Inductive ValueType := Tensor (ty : TensorElementType) (shape : list Z) | OtherValue.

(** What a session says of its graph: names and types. *)
Record GraphIo := mk_GraphIo { graph_inputs : list (string * ValueType); graph_outputs : list (string * ValueType) }.

Record OnnxContract := mk_OnnxContract {
  c_inputs : Manifest.OnnxInputNames; c_output : string; c_pad_token_id : N; c_normalize : bool;
}.

Definition required_inputs (c : OnnxContract) : list string :=
  Manifest.input_ids (c_inputs c)
    :: option_list (Manifest.attention_mask (c_inputs c)) ++ option_list (Manifest.token_type_ids (c_inputs c)).

(** [u32::try_from(hidden).ok() == Some(native)] *)
Definition is_u32 (hidden : Z) (n : N) : bool :=
  (0 <=? hidden)%Z && (hidden <=? Z.of_N u32_max)%Z && (Z.to_N hidden =? n)%N.

Definition valid_input (i : string * ValueType) : bool :=
  match snd i with Tensor Int64 shape => (len shape =? 2)%N | _ => false end.
Definition valid_output (native : N) (o : string * ValueType) : bool :=
  match snd o with
  | Tensor Float32 shape =>
    ((len shape =? 2) || (len shape =? 3))%N &&
    match last shape with Some hidden => (hidden <? 0)%Z || is_u32 hidden native | None => false end
  | _ => false
  end.

Definition validate_graph_contract (c : OnnxContract) (g : GraphIo) (native_dimensions : N) : result EngineFailure unit :=
  let available_inputs : gset string := list_to_set (fst <$> graph_inputs g) in
  let required : gset string := list_to_set (required_inputs c) in
  let has_exact_inputs := (base.size available_inputs =? length (graph_inputs g))%nat
                          && (base.size required =? length (graph_inputs g))%nat
                          && bool_decide (available_inputs = required) in
  let valid_inputs := has_exact_inputs && forallb valid_input (graph_inputs g) in
  let named := λ o : string * ValueType, String.eqb (fst o) (c_output c) in
  let output_count := length (List.filter named (graph_outputs g)) in
  let output := List.find named (graph_outputs g) in
  let valid := (output_count =? 1)%nat && is_some_and (valid_output native_dimensions) output in
  ensure valid_inputs && valid else public InvalidRequest in Ok tt.

Lemma size_NoDup (l : list string) : base.size (list_to_set l : gset string) = length l ↔ NoDup l.
Proof.
  split; [|intros H; by apply size_list_to_set].
  induction l as [|x l IH]; intros H; [constructor|]. simpl in H.
  assert (base.size (list_to_set l : gset string) ≤ length l)%nat as Hle.
  { clear. induction l as [|y l IH]; [done|]. simpl. rewrite size_union_alt, size_singleton.
    pose proof (subseteq_size (list_to_set l ∖ {[y]} : gset string) (list_to_set l) ltac:(set_solver)). lia. }
  destruct (decide (x ∈ l)) as [Hx|Hx].
  - exfalso. assert ({[x]} ∪ list_to_set l = (list_to_set l : gset string)) as Heq by set_solver. rewrite Heq in H. lia.
  - constructor; [done|]. apply IH. rewrite size_union, size_singleton in H by set_solver. lia.
Qed.

Lemma find_unique {A} (f : A → bool) l :
  length (List.filter f l) = 1%nat ↔ ∃ x, List.filter f l = [x] ∧ List.find f l = Some x.
Proof.
  split; [|by intros (x & -> & _)]. intros H. induction l as [|a l IH]; simpl in *; [done|].
  destruct (f a) eqn:E; [|by apply IH]. exists a. simpl in H. by destruct (List.filter f l).
Qed.

(** A graph is accepted iff it is the contract's: its input names are pairwise distinct
    and are exactly the contract's names, every input is a rank-2 [int64] tensor, and
    exactly one output has the contract's name, a [float32] tensor of rank 2 or 3 whose
    last dimension is free or the declared native width. *)
Theorem graph_contract_exact c g native :
  validate_graph_contract c g native = Ok tt ↔
  NoDup (fst <$> graph_inputs g) ∧ (∀ n, n ∈ fst <$> graph_inputs g ↔ n ∈ required_inputs c) ∧
  Forall (λ i, valid_input i = true) (graph_inputs g) ∧
  ∃ o, List.filter (λ o, String.eqb (fst o) (c_output c)) (graph_outputs g) = [o] ∧ valid_output native o = true.
Proof.
  unfold validate_graph_contract. cbv zeta. rewrite <-(length_fmap fst (graph_inputs g)).
  set (names := fst <$> graph_inputs g). set (named := λ o : string * ValueType, String.eqb (fst o) (c_output c)).
  assert (list_to_set names = (list_to_set (required_inputs c) : gset string) ↔ ∀ n, n ∈ names ↔ n ∈ required_inputs c) as Hset.
  { rewrite set_eq. by setoid_rewrite elem_of_list_to_set. }
  split.
  - destruct (_ && _) eqn:H; [intros _|done]. apply andb_prop in H as [H Hout]. apply andb_prop in H as [H Hin].
    apply andb_prop in H as [H Heq]. apply andb_prop in H as [H1 H2]. apply Nat.eqb_eq in H1. apply bool_decide_eq_true in Heq.
    apply andb_prop in Hout as [Hc Ho]. apply Nat.eqb_eq, find_unique in Hc as (o & Hf & Hfind). rewrite Hfind in Ho.
    split_and!; [by apply size_NoDup|by apply Hset| |by exists o].
    apply Forall_forall. intros i Hi. rewrite forallb_forall in Hin. by apply Hin, list_elem_of_In.
  - intros (Hn & Hnames & Hin & o & Hf & Ho). apply size_NoDup in Hn. apply Hset in Hnames.
    destruct (proj1 (find_unique named (graph_outputs g))) as (o' & Hf' & Hfind); [by rewrite Hf|].
    rewrite Hf in Hf'. injection Hf' as <-. rewrite <-Hnames, Hn, Hf, Hfind, Nat.eqb_refl, bool_decide_eq_true_2 by done. cbn [andb].
    replace (forallb valid_input (graph_inputs g)) with true.
    2: { symmetry. apply forallb_forall. intros i Hi. rewrite Forall_forall in Hin. by apply Hin, list_elem_of_In. }
    cbn [is_some_and length Nat.eqb andb]. by rewrite Ho.
Qed.

End Probe.
