(* ===== verification/Scheduler.v ===== *)
(** The per-model scheduler of [crates/impossible-server/src/runtime.rs]: the
    engine interface, resource policy, admission checks, dynamic batching, native
    execution and the publication of results.

    Time passes and flags change between the calls the code makes, so every
    operation takes the views it observes: the cancellation store, the clock and
    the model's [accepting] flag, one view per request it visits.  Theorems hold for
    all views, hence for every interleaving with cancellation, deadlines and
    shutdown. *)

From Stdlib Require Import NArith Lia Ascii.
From stdpp Require Import base strings sorting list.
From S2P Require Import Prelude Core Cancellation Config.

Local Open Scope string_scope.
Local Open Scope list_scope.

Module Scheduler.

(** * Contracts and policy *)

(** [struct RuntimeModelContract] *)
Record RuntimeModelContract := mk_RuntimeModelContract {
  identity : ResolvedModelIdentity;
  native_dimensions : N;
}.

(** [identity_is_complete] *)
Definition identity_is_complete (i : ResolvedModelIdentity) : bool :=
  forallb (λ v, negb (is_blank v)) (identity_fields i).

(** [RuntimeModelContract::new] *)
Definition RuntimeModelContract_new (i : ResolvedModelIdentity) (native : N)
    : result EngineFailure RuntimeModelContract :=
  ensure negb ((native =? 0)%N || negb (identity_is_complete i)) else public Internal in
  Ok (mk_RuntimeModelContract i native).

(** [validate_runtime_contract] *)
Definition validate_runtime_contract (requested : RequestedModel) (c : RuntimeModelContract)
    : result EngineFailure unit :=
  ensure negb ((native_dimensions c =? 0)%N || negb (String.eqb (canonical_id (identity c)) (rm_str requested))
               || negb (identity_is_complete (identity c))) else public InferenceFailed in
  Ok tt.

(** [trait RuntimeEngine]; [None] is a call that panicked. *)
Class RuntimeEngine := {
  model_contract : RequestedModel → option (result EngineFailure RuntimeModelContract);
  preflight : RequestedModel → EmbeddingBatch → EmbedOptions → option (result EngineFailure EmbeddingBatchCost);
  embed : RequestedModel → EmbeddingBatch → ExecutionControl → EmbedOptions →
          option (result EngineFailure EmbeddingOutput);
}.

(** The loop of the default [RuntimeEngine::preflight]. *)
Fixpoint default_cost (toks m : N) (ins : list string) : result EngineFailure (N * N) :=
  match ins with
  | [] => Ok (toks, m)
  | i :: ins =>
    let? l := ok_or (checked_add usize_max (str_len i) 2) (public InvalidRequest) in
    let l := N.max l 1 in
    let? toks := ok_or (checked_add usize_max toks l) (public InvalidRequest) in
    default_cost toks (N.max m l) ins
  end.
(** The default [RuntimeEngine::preflight]. *)
Definition default_preflight (b : EmbeddingBatch) : result EngineFailure EmbeddingBatchCost :=
  let? '(toks, m) := default_cost 0 0 (inputs b) in
  EmbeddingBatchCost_new (len (inputs b)) toks m.

(** [struct BatchPolicy] *)
Record BatchPolicy := mk_BatchPolicy {
  queue_depth : N;
  max_items : N;
  max_input_bytes : N;
  max_request_bytes : N;
  max_tokens : N;
  max_batch_items : N;
  max_batch_tokens : N;
  max_batch_wait : N;
  blocking_concurrency : N;
  request_timeout : N;
}.

(** [Default for BatchPolicy] *)
Definition BatchPolicy_default : BatchPolicy :=
  mk_BatchPolicy 256 128 (256 * 1024) (1024 * 1024) 32768 128 32768 (from_millis 4) 4 (from_secs 30).

Inductive LifecycleError :=
| InvalidPolicy | InitializationFailed | ShuttingDown | NotFound | AlreadyLoaded
| InUse | LoadFailed | InstallFailed | DeleteFailed.

#[global] Instance LifecycleError_eq_dec : EqDecision LifecycleError.
Proof. solve_decision. Defined.

(** [Display for LifecycleError] *)
Definition LifecycleError_display (e : LifecycleError) : string :=
  match e with
  | InvalidPolicy => "runtime policy is invalid"
  | InitializationFailed => "runtime initialization failed"
  | ShuttingDown => "the service is shutting down"
  | NotFound => "the model is not registered"
  | AlreadyLoaded => "the model is already loaded"
  | InUse => "the model is in use"
  | LoadFailed => "model loading failed"
  | InstallFailed => "model installation failed"
  | DeleteFailed => "model deletion failed"
  end.

(** [BatchPolicy::validate] *)
Definition policy_validate (p : BatchPolicy) : result LifecycleError BatchPolicy :=
  ensure negb ((queue_depth p =? 0) || (max_items p =? 0) || (max_input_bytes p =? 0)
               || (max_request_bytes p =? 0) || (max_tokens p =? 0) || (max_batch_items p =? 0)
               || (max_batch_tokens p =? 0) || (blocking_concurrency p =? 0) || (request_timeout p =? 0)
               || (max_batch_items p <? max_items p) || (max_request_bytes p <? max_input_bytes p)
               || (max_batch_tokens p <? max_tokens p))%N
    else InvalidPolicy in
  Ok p.

(** [BatchPolicy::from_limits] *)
Definition from_limits (l : Config.Limits) (wait : N) : BatchPolicy :=
  mk_BatchPolicy (Config.max_queue_depth l) (Config.max_items l) (Config.max_input_bytes l)
    (Config.max_request_bytes l) (Config.max_tokens l) (Config.max_batch_items l)
    (Config.max_batch_tokens l) wait (Config.max_concurrency l)
    (from_millis (Config.request_timeout l)).

(** The loop of [validate_raw_inputs]. *)
Fixpoint validate_raw_from (max_input max_request total : N) (ins : list string) : result EngineFailure unit :=
  match ins with
  | [] => Ok tt
  | i :: ins =>
    ensure negb (max_input <? str_len i)%N else public InvalidRequest in
    let? total := ok_or (checked_add usize_max total (str_len i)) (public InvalidRequest) in
    ensure negb (max_request <? total)%N else public InvalidRequest in
    validate_raw_from max_input max_request total ins
  end.
(** [validate_raw_inputs] *)
Definition validate_raw_inputs (ins : list string) (max_input max_request : N) : result EngineFailure unit :=
  validate_raw_from max_input max_request 0 ins.

(** * Requests and views *)

(** What one visit to a request observes. *)
Record View := mk_View { v_store : Store; v_now : N; v_accepting : bool }.

(** [struct Request]; [rid] names its response channel.  The lease and the queue
    permit it owns are accounted for in [Runtime]. *)
Record Request := mk_Request {
  rid : nat;
  sequence : N;
  r_inputs : list string;
  cost : EmbeddingBatchCost;
  contract : RuntimeModelContract;
  options : EmbedOptions;
  control : ExecutionControl;
}.

Definition active (v : View) (r : Request) : result EngineFailure unit :=
  ensure_active (v_store v) (v_now v) (control r).

(** A message sent on a response channel. *)
Definition Response : Type := nat * result EngineFailure EmbeddingOutput.

(** * Preflight *)

Record PreflightPlan := mk_PreflightPlan {
  p_sequence : N;
  p_inputs : list string;
  p_options : EmbedOptions;
  p_control : ExecutionControl;
  p_model : RequestedModel;
  p_max_tokens : N;
  p_max_batch_tokens : N;
}.

Section engine.
Context {E : RuntimeEngine}.

(** [catch_unwind(..).unwrap_or_else(|_| Err(..))] *)
Definition caught {A} (k : option (result EngineFailure A)) : result EngineFailure A :=
  match k with Some r => r | None => Err (public InferenceFailed) end.

(** The blocking job of [execute_preflight]; [before] and [after] are the views
    of its two liveness checks.  A panic anywhere becomes a stable failure. *)
Definition preflight_job (before after : View) (p : PreflightPlan)
    : result EngineFailure (EmbeddingBatchCost * RuntimeModelContract) :=
  let? _ := ensure_active (v_store before) (v_now before) (p_control p) in
  let? c := caught (model_contract (p_model p)) in
  let? _ := validate_runtime_contract (p_model p) c in
  let? batch := EmbeddingBatch_new (p_inputs p) in
  let? co := caught (preflight (p_model p) batch (p_options p)) in
  let? _ := ensure_active (v_store after) (v_now after) (p_control p) in
  ensure (items co =? len (p_inputs p))%N else public InvalidRequest in
  ensure negb (p_max_tokens p <? tokens co)%N else public InvalidRequest in
  let? padded := padded_tokens co in
  ensure negb (p_max_batch_tokens p <? padded)%N else public InvalidRequest in
  Ok (co, c).

(** * Batch formation *)

(** The scan over the other pending requests: [its] and [m] describe the batch so
    far, [rotated] the candidates pushed back behind the queue. *)
Fixpoint scan (p : BatchPolicy) (key : EmbedOptions) (its m : N) (batch pending rotated : list Request)
    : list Request * list Request :=
  match pending with
  | [] => (batch, rotated)
  | c :: pending =>
    match checked_add usize_max its (len (r_inputs c)) with
    | None => scan p key its m batch pending (rotated ++ [c])
    | Some combined_items =>
      let combined_sequence := N.max m (max_sequence_length (cost c)) in
      let compatible :=
        bool_decide (options c = key) && (combined_items <=? max_batch_items p)%N
        && match checked_mul usize_max combined_items combined_sequence with
           | Some work => (work <=? max_batch_tokens p)%N
           | None => false
           end in
      if compatible then scan p key combined_items combined_sequence (batch ++ [c]) pending rotated
      else scan p key its m batch pending (rotated ++ [c])
    end
  end.

Definition form_batch (p : BatchPolicy) (first : Request) (pending : list Request)
    : list Request * list Request :=
  scan p (options first) (len (r_inputs first)) (max_sequence_length (cost first)) [first] pending [].

(** One iteration of the drain loop: an answer to a dead request, or a batch. *)
Inductive Action :=
| Reply (r : Request) (e : EngineFailure)
| Dispatch (batch : list Request).

Definition action_requests (a : Action) : list Request :=
  match a with Reply r _ => [r] | Dispatch b => b end.

(** [while !pending.is_empty()]; each iteration removes at least the front, so
    the length of the queue is enough fuel.  [views n] is the view of the
    iteration with [n] units of fuel left. *)
Fixpoint drain (fuel : nat) (p : BatchPolicy) (views : nat → View) (pending : list Request) : list Action :=
  match fuel, pending with
  | S fuel, first :: pending =>
    match active (views fuel) first with
    | Err e => Reply first e :: drain fuel p views pending
    | Ok _ =>
      let '(batch, rest) := form_batch p first pending in
      Dispatch batch :: drain fuel p views rest
    end
  | _, _ => []
  end.

(** [sort_by_key(|request| request.sequence)], a stable sort: an element goes in
    front of the first one that is not smaller. *)
Fixpoint insert_by_sequence (r : Request) (rs : list Request) : list Request :=
  match rs with
  | [] => [r]
  | r' :: rs' => if (sequence r <=? sequence r')%N then r :: rs else r' :: insert_by_sequence r rs'
  end.
Definition sort_by_sequence (rs : list Request) : list Request := foldr insert_by_sequence [] rs.

(** One round of [run_scheduler] after it collected [pending]. *)
Definition round (p : BatchPolicy) (views : nat → View) (pending : list Request) : list Action :=
  let sorted := sort_by_sequence pending in drain (length sorted) p views sorted.

(** * Execution *)

(** [fail_requests]: a request that is itself cancelled or late is told so. *)
Fixpoint fail_requests (views : nat → View) (code : ErrorCode) (rs : list Request) : list Response :=
  match rs with
  | [] => []
  | r :: rs =>
    (rid r, Err match active (views (length rs)) r with Err e => e | Ok _ => public code end)
    :: fail_requests views code rs
  end.

(** The first loop of [execute_batch]: who is still live, and the answers to the
    others. *)
Fixpoint split_active (views : nat → View) (rs : list Request) : list Request * list Response :=
  match rs with
  | [] => ([], [])
  | r :: rs =>
    let v := views (length rs) in
    let '(live, out) := split_active views rs in
    if negb (v_accepting v) then (live, (rid r, Err (public ModelUnavailable)) :: out)
    else match active v r with
         | Err e => (live, (rid r, Err e) :: out)
         | Ok _ => (r :: live, out)
         end
  end.

(** The loop of [valid_engine_output]: [slice.get(offset..end)] is [None] past
    the end. *)
Definition get_range {A} (l : list A) (start stop : N) : option (list A) :=
  if (stop <=? len l)%N then Some (take (N.to_nat (stop - start)) (drop (N.to_nat start) l)) else None.

Fixpoint valid_slices (out : EmbeddingOutput) (rs : list Request) (sizes : list N) (offset : N) : option N :=
  match rs, sizes with
  | r :: rs, size :: sizes =>
    if negb (bool_decide (identity (contract r) = out_model out)) then None else
    let expected_dimensions := default (native_dimensions (contract r)) (dimensions (options r)) in
    stop ← checked_add usize_max offset size;
    vs ← get_range (vectors out) offset stop;
    ts ← get_range (input_tokens (usage out)) offset stop;
    expected_tokens ← try_from u64_max (tokens (cost r));
    actual_tokens ← checked_sum u64_max ts;
    if negb (actual_tokens =? expected_tokens)%N then None else
    if existsb (λ v, negb (len v =? expected_dimensions)%N || negb (forallb f32_is_finite v)) vs then None else
    valid_slices out rs sizes stop
  | _, _ => Some offset
  end.

(** [valid_engine_output] *)
Definition valid_engine_output (out : EmbeddingOutput) (rs : list Request) (sizes : list N) : bool :=
  match checked_sum usize_max sizes with
  | None => false
  | Some total =>
    if negb (len (vectors out) =? total)%N || negb (len (input_tokens (usage out)) =? total)%N
       || negb (identity_is_complete (out_model out)) then false
    else match valid_slices out rs sizes 0 with Some offset => (offset =? total)%N | None => false end
  end.

(** [publish_results]; [vs] and [ts] are what the two iterators have left. *)
Fixpoint publish_results (views : nat → View) (model : ResolvedModelIdentity)
    (rs : list Request) (sizes : list N) (vs : list (list f32)) (ts : list N) : list Response :=
  match rs, sizes with
  | r :: rs, size :: sizes =>
    let v := views (length rs) in
    let n := N.to_nat size in
    let answer :=
      if negb (v_accepting v) then Err (public ModelUnavailable) else
      match active v r with
      | Err e => Err e
      | Ok _ => match EmbeddingUsage_new (take n ts) with
                | Err _ => Err (public InferenceFailed)
                | Ok u => Ok (mk_EmbeddingOutput (take n vs) model u)
                end
      end in
    (rid r, answer) :: publish_results views model rs sizes (drop n vs) (drop n ts)
  | _, _ => []
  end.

(** The views of one native batch: at its start, at the engine call, and when
    its results are published or it fails. *)
Record BatchViews := mk_BatchViews {
  at_start : nat → View; at_call : View; at_end : nat → View;
}.

(** [execute_batch] *)
Definition execute_batch (w : BatchViews) (model_id : string) (rs : list Request) : list Response :=
  let '(live, refused) := split_active (at_start w) rs in
  refused ++
  match live with
  | [] => []
  | first :: _ =>
    let sizes := (λ r, len (r_inputs r)) <$> live in
    let ins := live ≫= r_inputs in
    match EmbeddingBatch_new ins with
    | Err _ => fail_requests (at_end w) InvalidRequest live
    | Ok batch =>
      match RequestedModel_new model_id with
      | Err _ => fail_requests (at_end w) ModelUnavailable live
      | Ok model =>
        let batch_control := (composite (control <$> live) (v_store (at_call w))).1 in
        match embed model batch batch_control (options first) with
        | Some (Ok out) =>
          if valid_engine_output out live sizes
          then publish_results (at_end w) (out_model out) live sizes (vectors out) (input_tokens (usage out))
          else fail_requests (at_end w) InferenceFailed live
        | None => fail_requests (at_end w) InferenceFailed live
        | Some (Err e) => fail_requests (at_end w) (failure_code e) live
        end
      end
    end
  end.

(** [dispatch_batch]: the bounded native queue takes the job or every request
    fails without inference. *)
Definition dispatch_batch (queue_has_room : bool) (w : BatchViews) (model_id : string) (rs : list Request)
    : list Response :=
  if queue_has_room then execute_batch w model_id rs else fail_requests (at_end w) QueueFull rs.

(** The answers of one action, given the native queue and the views it meets. *)
Definition run_action (room : bool) (w : BatchViews) (model_id : string) (a : Action) : list Response :=
  match a with
  | Reply r e => [(rid r, Err e)]
  | Dispatch b => dispatch_batch room w model_id b
  end.

End engine.

(** * Properties of batch formation *)

Definition batch_items (rs : list Request) : N := sum_N ((λ r, len (r_inputs r)) <$> rs).
Definition batch_sequence (rs : list Request) : N := foldr N.max 0%N ((λ r, max_sequence_length (cost r)) <$> rs).

(** A native call within the resource policy. *)
Definition within_policy (p : BatchPolicy) (rs : list Request) : Prop :=
  (batch_items rs <= max_batch_items p)%N ∧ (batch_items rs * batch_sequence rs <= max_batch_tokens p)%N.

(** The bounds of a policy are [usize] values. *)
Definition policy_sized (p : BatchPolicy) : Prop :=
  (max_batch_items p <= usize_max)%N ∧ (max_batch_tokens p <= usize_max)%N.

Lemma batch_items_app a b : batch_items (a ++ b) = (batch_items a + batch_items b)%N.
Proof. unfold batch_items. by rewrite fmap_app, sum_N_app. Qed.

Lemma batch_sequence_app a b : batch_sequence (a ++ b) = N.max (batch_sequence a) (batch_sequence b).
Proof.
  unfold batch_sequence. rewrite fmap_app.
  induction ((λ r, max_sequence_length (cost r)) <$> a) as [|x l IH]; cbn [app foldr]; lia.
Qed.

Lemma batch_items_one r : batch_items [r] = len (r_inputs r).
Proof. unfold batch_items; simpl. lia. Qed.

Lemma batch_sequence_one r : batch_sequence [r] = max_sequence_length (cost r).
Proof. unfold batch_sequence; simpl. lia. Qed.

(** Adding to a batch only makes it larger, so what did not fit still does not. *)
Lemma within_policy_mono p a b c : within_policy p ((a ++ b) ++ c) → within_policy p (a ++ c).
Proof.
  unfold within_policy. rewrite !batch_items_app, !batch_sequence_app. intros [H1 H2]. split; [lia|].
  etransitivity; [|exact H2]. apply N.mul_le_mono; lia.
Qed.

(** The condition the scan evaluates is exactly that the extended batch stays
    within the policy. *)
Lemma scan_fits p key batch c :
  policy_sized p →
  (match checked_add usize_max (batch_items batch) (len (r_inputs c)) with
   | None => false
   | Some combined_items =>
     bool_decide (options c = key) && (combined_items <=? max_batch_items p)%N
     && match checked_mul usize_max combined_items (N.max (batch_sequence batch) (max_sequence_length (cost c))) with
        | Some work => (work <=? max_batch_tokens p)%N
        | None => false
        end
   end = true) ↔ options c = key ∧ within_policy p (batch ++ [c]).
Proof.
  intros [Hi Ht]. unfold within_policy.
  rewrite batch_items_app, batch_sequence_app, batch_items_one, batch_sequence_one.
  unfold checked_add, checked_mul.
  destruct (N.leb_spec (batch_items batch + len (r_inputs c)) usize_max) as [H1|H1].
  - rewrite !andb_true_iff, bool_decide_eq_true, N.leb_le.
    destruct (N.leb_spec ((batch_items batch + len (r_inputs c)) *
      N.max (batch_sequence batch) (max_sequence_length (cost c))) usize_max).
    + rewrite N.leb_le. tauto.
    + split; [by intros [_ ?]|]. intros (_ & _ & ?). lia.
  - split; [done|]. intros (_ & ? & _). lia.
Qed.

Record scan_result (p : BatchPolicy) (key : EmbedOptions) (batch pending taken skipped : list Request) : Prop := {
  sr_perm : pending ≡ₚ taken ++ skipped;
  sr_taken : taken `sublist_of` pending;
  sr_skipped : skipped `sublist_of` pending;
  sr_key : Forall (λ r, options r = key) taken;
  sr_within : within_policy p batch → within_policy p (batch ++ taken);
  sr_position : ∀ i r, pending !! i = Some r → r ∈ taken ∨ ∃ j, (j ≤ i)%nat ∧ skipped !! j = Some r;
  sr_maximal : Forall (λ r, options r = key → ¬ within_policy p ((batch ++ taken) ++ [r])) skipped;
}.

Lemma scan_skip p key its m batch c pending rotated :
  its = batch_items batch → m = batch_sequence batch → policy_sized p →
  ¬ (options c = key ∧ within_policy p (batch ++ [c])) →
  scan p key its m batch (c :: pending) rotated = scan p key its m batch pending (rotated ++ [c]).
Proof.
  intros -> -> Hp Hn. cbn [scan]. rewrite <-(scan_fits p key batch c Hp) in Hn.
  destruct (checked_add _ _ _) as [ci|]; [|done]. destruct (_ && _ && _); done.
Qed.

Lemma scan_take p key its m batch c pending rotated :
  its = batch_items batch → m = batch_sequence batch → policy_sized p →
  options c = key ∧ within_policy p (batch ++ [c]) →
  scan p key its m batch (c :: pending) rotated =
  scan p key (batch_items (batch ++ [c])) (batch_sequence (batch ++ [c])) (batch ++ [c]) pending rotated.
Proof.
  intros -> -> Hp Hn. cbn [scan]. apply (scan_fits p key batch c Hp) in Hn as Hb.
  destruct (checked_add _ _ _) as [ci|] eqn:Ha; [|done]. rewrite Hb.
  apply checked_add_Some in Ha as [-> _].
  by rewrite batch_items_app, batch_sequence_app, batch_items_one, batch_sequence_one.
Qed.

Lemma scan_spec p key its m batch pending rotated :
  its = batch_items batch → m = batch_sequence batch → policy_sized p →
  ∃ taken skipped, scan p key its m batch pending rotated = (batch ++ taken, rotated ++ skipped) ∧
    scan_result p key batch pending taken skipped.
Proof.
  intros -> -> Hp. revert batch rotated. induction pending as [|c pending IH]; intros batch rotated.
  - exists [], []. rewrite !app_nil_r. split; [done|]. split; rewrite ?app_nil_r; try done; constructor.
  - destruct (decide (options c = key)) as [Hk|Hk];
      [destruct (decide (batch_items (batch ++ [c]) <= max_batch_items p ∧
         batch_items (batch ++ [c]) * batch_sequence (batch ++ [c]) <= max_batch_tokens p)%N) as [Hw|Hw]|].
    + destruct (IH (batch ++ [c]) rotated) as (taken & skipped & Hs & []).
      exists (c :: taken), skipped. rewrite scan_take by done. split.
      { by rewrite Hs, <-app_assoc. }
      split.
      * simpl. by constructor.
      * by constructor.
      * by constructor.
      * by constructor.
      * intros _. rewrite cons_middle, app_assoc. by apply sr_within0.
      * intros [|i] r Hi; simplify_eq/=; [left; by left|].
        destruct (sr_position0 i r Hi) as [|(j & ? & ?)]; [left; by right|right; exists j; split; [lia|done]].
      * by rewrite cons_middle, app_assoc.
    + destruct (IH batch (rotated ++ [c])) as (taken & skipped & Hs & []).
      exists taken, (c :: skipped). rewrite scan_skip by (done || by intros [_ ?]). split; [by rewrite Hs, <-app_assoc|].
      split; try done.
      * rewrite sr_perm0. by apply Permutation_middle.
      * by constructor.
      * by constructor.
      * intros [|i] r Hi; simplify_eq/=; [right; by exists 0%nat|].
        destruct (sr_position0 i r Hi) as [|(j & ? & ?)]; [by left|right; exists (S j); split; [lia|done]].
      * constructor; [|done]. intros _ Hn. by apply Hw, (within_policy_mono p batch taken [c]).
    + destruct (IH batch (rotated ++ [c])) as (taken & skipped & Hs & []).
      exists taken, (c :: skipped). rewrite scan_skip by (done || by intros [? _]). split; [by rewrite Hs, <-app_assoc|].
      split; try done.
      * rewrite sr_perm0. by apply Permutation_middle.
      * by constructor.
      * by constructor.
      * intros [|i] r Hi; simplify_eq/=; [right; by exists 0%nat|].
        destruct (sr_position0 i r Hi) as [|(j & ? & ?)]; [by left|right; exists (S j); split; [lia|done]].
      * by constructor.
Qed.

Lemma form_batch_spec p first pending :
  policy_sized p →
  ∃ taken skipped, form_batch p first pending = (first :: taken, skipped) ∧
    scan_result p (options first) [first] pending taken skipped.
Proof.
  intros Hp. unfold form_batch.
  destruct (scan_spec p (options first) (len (r_inputs first)) (max_sequence_length (cost first)) [first] pending [])
    as (taken & skipped & Hs & Hr); [by rewrite batch_items_one|by rewrite batch_sequence_one|done|].
  exists taken, skipped. by rewrite Hs.
Qed.

(** Batch formation respects the policy and is greedy and fair.  The batch
    starts with the oldest request, holds only requests with exactly its options,
    stays within the item and padded-token bounds of one native call, and takes the
    compatible requests in queue order; every request left behind with the same
    options could not be added; nothing is lost or duplicated and those left behind
    keep their order. *)
Theorem batch_formation p first pending batch rest :
  policy_sized p → within_policy p [first] → form_batch p first pending = (batch, rest) →
  within_policy p batch ∧
  Forall (λ r, options r = options first) batch ∧
  (∃ taken, batch = first :: taken ∧ taken `sublist_of` pending) ∧ rest `sublist_of` pending ∧
  first :: pending ≡ₚ batch ++ rest ∧
  Forall (λ r, options r = options first → ¬ within_policy p (batch ++ [r])) rest.
Proof.
  intros Hp Hw Hf. destruct (form_batch_spec p first pending Hp) as (taken & skipped & Hs & []).
  rewrite Hs in Hf. injection Hf as <- <-. split_and!; try done.
  - by apply sr_within0.
  - by constructor.
  - by exists taken.
  - simpl. by rewrite sr_perm0.
Qed.

(** What one action of the drain loop may be. *)
Definition action_ok (p : BatchPolicy) (a : Action) : Prop :=
  match a with
  | Reply r e => ∃ v, active v r = Err e
  | Dispatch b => within_policy p b ∧ ∃ first rest, b = first :: rest ∧ Forall (λ r, options r = options first) rest
  end.

Lemma drain_spec p views fuel pending :
  policy_sized p → Forall (λ r, within_policy p [r]) pending → (length pending ≤ fuel)%nat →
  let actions := drain fuel p views pending in
  actions ≫= action_requests ≡ₚ pending ∧ Forall (action_ok p) actions ∧
  (∀ i r, pending !! i = Some r → ∃ j a, (j ≤ i)%nat ∧ actions !! j = Some a ∧ r ∈ action_requests a).
Proof.
  intros Hp. revert pending. induction fuel as [|fuel IH]; intros [|first pending] Hw Hf; simpl in Hf; try lia;
    try (split_and!; simpl; [done|constructor|done]).
  apply Forall_cons in Hw as [Hw1 Hw]. cbn [drain]. destruct (active (views fuel) first) as [[]|e] eqn:Ha.
  - destruct (form_batch_spec p first pending Hp) as (taken & skipped & -> & []).
    assert (Hws : Forall (λ r, within_policy p [r]) skipped).
    { apply Forall_forall. intros r Hr. rewrite Forall_forall in Hw. apply Hw.
      by eapply elem_of_sublist. }
    assert (length skipped ≤ fuel)%nat as Hl.
    { apply sublist_length in sr_skipped0. lia. }
    destruct (IH skipped Hws Hl) as (IH1 & IH2 & IH3). split_and!.
    + simpl. rewrite IH1. by rewrite sr_perm0.
    + constructor; [|done]. split; [by apply sr_within0|]. by exists first, taken.
    + intros [|i] r Hi; simpl in Hi.
      { simplify_eq. exists 0%nat, (Dispatch (r :: taken)). split_and!; [lia|done|by left]. }
      destruct (sr_position0 i r Hi) as [Ht|(j & Hj & Hs)].
      * exists 0%nat, (Dispatch (first :: taken)). split_and!; [lia|done|by right].
      * destruct (IH3 j r Hs) as (j' & a & Hj' & Hja & Hr). exists (S j'), a. split_and!; [lia|done|done].
  - destruct (IH pending Hw) as (IH1 & IH2 & IH3); [lia|]. split_and!.
    + simpl. by rewrite IH1.
    + constructor; [|done]. by exists (views fuel).
    + intros [|i] r Hi; simpl in Hi.
      { simplify_eq. exists 0%nat, (Reply r e). split_and!; [lia|done|by left]. }
      destruct (IH3 i r Hi) as (j & a & Hj & Hja & Hr). exists (S j), a. split_and!; [lia|done|done].
Qed.

Lemma insert_by_sequence_perm r rs : insert_by_sequence r rs ≡ₚ r :: rs.
Proof.
  induction rs as [|r' rs IH]; simpl; [done|]. destruct (_ <=? _)%N; [done|]. rewrite IH. by constructor.
Qed.

Lemma sort_by_sequence_perm rs : sort_by_sequence rs ≡ₚ rs.
Proof. unfold sort_by_sequence. induction rs as [|r rs IH]; simpl; [done|]. by rewrite insert_by_sequence_perm, IH. Qed.

Definition by_sequence (a b : Request) : Prop := (sequence a <= sequence b)%N.

Lemma insert_by_sequence_sorted r rs :
  StronglySorted by_sequence rs → StronglySorted by_sequence (insert_by_sequence r rs).
Proof.
  induction 1 as [|r' rs Hs IH Hr]; simpl; [repeat constructor|].
  destruct (N.leb_spec (sequence r) (sequence r')).
  - constructor; [by constructor|]. constructor; [done|]. eapply Forall_impl; [exact Hr|].
    unfold by_sequence. simpl. intros. lia.
  - constructor; [done|]. rewrite insert_by_sequence_perm. constructor; [unfold by_sequence; lia|done].
Qed.

Lemma sort_by_sequence_sorted rs : StronglySorted by_sequence (sort_by_sequence rs).
Proof. induction rs as [|r rs IH]; simpl; [constructor|]. by apply insert_by_sequence_sorted. Qed.

(** A scheduling round serves everyone: every pending request is answered
    or dispatched in exactly one native call, every native call is within the
    policy and has one set of options, and the request that is the [i]-th oldest is
    served by one of the first [i + 1] actions, whatever the mix of options. *)
Theorem round_serves_all p views pending :
  policy_sized p → Forall (λ r, within_policy p [r]) pending →
  round p views pending ≫= action_requests ≡ₚ pending ∧
  Forall (action_ok p) (round p views pending) ∧
  StronglySorted by_sequence (sort_by_sequence pending) ∧
  (∀ i r, sort_by_sequence pending !! i = Some r →
     ∃ j a, (j ≤ i)%nat ∧ round p views pending !! j = Some a ∧ r ∈ action_requests a).
Proof.
  intros Hp Hw. unfold round.
  destruct (drain_spec p views (length (sort_by_sequence pending)) (sort_by_sequence pending)) as (H1 & H2 & H3);
    [done|by rewrite sort_by_sequence_perm|done|].
  split_and!; try done; [by rewrite H1, sort_by_sequence_perm|apply sort_by_sequence_sorted].
Qed.

(** * Properties of execution *)

Section execution.
Context {E : RuntimeEngine}.

Definition sizes_of (rs : list Request) : list N := (λ r, len (r_inputs r)) <$> rs.

Lemma fail_requests_rids views code rs : fst <$> fail_requests views code rs = rid <$> rs.
Proof. induction rs as [|r rs IH]; [done|]. cbn [fail_requests fmap list_fmap fst]. by f_equal. Qed.

Lemma publish_results_rids views m rs vs ts :
  fst <$> publish_results views m rs (sizes_of rs) vs ts = rid <$> rs.
Proof.
  revert vs ts. induction rs as [|r rs IH]; intros vs ts; [done|].
  cbn [sizes_of publish_results fmap list_fmap fst]. f_equal. apply IH.
Qed.

Lemma split_active_spec views rs live refused :
  split_active views rs = (live, refused) →
  live `sublist_of` rs ∧ rid <$> rs ≡ₚ (fst <$> refused) ++ (rid <$> live) ∧
  Forall (λ x, ∃ e, x.2 = Err e) refused ∧
  Forall (λ r, ∃ v, v_accepting v = true ∧ active v r = Ok tt) live.
Proof.
  revert live refused. induction rs as [|r rs IH]; intros live refused; simpl.
  - intros [= <- <-]. split_and!; constructor.
  - destruct (split_active views rs) as [live' refused'].
    destruct (IH live' refused' eq_refl) as (H1 & H2 & H3 & H4).
    assert (Hbad : ∀ e, live = live' → refused = (rid r, Err e) :: refused' →
      live `sublist_of` r :: rs ∧ rid <$> r :: rs ≡ₚ (fst <$> refused) ++ (rid <$> live) ∧
      Forall (λ x : Response, ∃ e, x.2 = Err e) refused ∧
      Forall (λ r, ∃ v, v_accepting v = true ∧ active v r = Ok tt) live).
    { intros e -> ->. split_and!; [by constructor|csimpl; by rewrite H2| |done]. constructor; [by eexists|done]. }
    destruct (v_accepting (views (length rs))) eqn:Hacc; simpl; [|intros [= <- <-]; by eapply Hbad].
    destruct (active (views (length rs)) r) as [[]|e] eqn:Ha; [|intros [= <- <-]; by eapply Hbad].
    intros [= <- <-]. split_and!; [by constructor| |done|].
    + csimpl. rewrite H2. by apply Permutation_middle.
    + constructor; [by eexists|done].
Qed.

Lemma dispatch_rids room w model_id rs : fst <$> dispatch_batch room w model_id rs ≡ₚ rid <$> rs.
Proof.
  unfold dispatch_batch. destruct room; [|by rewrite fail_requests_rids].
  unfold execute_batch. destruct (split_active (at_start w) rs) as [live refused] eqn:Hs.
  apply split_active_spec in Hs as (_ & Hperm & _). rewrite fmap_app, Hperm. f_equiv.
  destruct live as [|first rest]; [done|]. fold (sizes_of (first :: rest)).
  repeat case_match; by rewrite ?fail_requests_rids, ?publish_results_rids.
Qed.

(** Every request of a dispatched batch receives exactly one answer,
    whatever the engine does (succeed, fail, return a malformed output, panic),
    whatever is cancelled or expires meanwhile, and also when the native queue is
    full or the model stops accepting. *)
Theorem one_answer_each room w model_id rs :
  fst <$> dispatch_batch room w model_id rs ≡ₚ rid <$> rs.
Proof. apply dispatch_rids. Qed.

(** The promise of a successful answer to one request. *)
Record answer_ok (r : Request) (out : EmbeddingOutput) : Prop := {
  ao_model : out_model out = identity (contract r) ∧ identity_is_complete (out_model out) = true;
  ao_count : length (vectors out) = length (r_inputs r) ∧ length (input_tokens (usage out)) = length (r_inputs r);
  ao_vectors : Forall (λ v, len v = default (native_dimensions (contract r)) (dimensions (options r)) ∧
                            forallb f32_is_finite v = true) (vectors out);
  ao_tokens : sum_N (input_tokens (usage out)) = tokens (cost r) ∧ total_tokens (usage out) = tokens (cost r);
}.

Definition slice {A} (pre : list Request) (r : Request) (l : list A) : list A :=
  take (length (r_inputs r)) (drop (N.to_nat (batch_items pre)) l).

Lemma batch_items_cons r rs : batch_items (r :: rs) = (len (r_inputs r) + batch_items rs)%N.
Proof. done. Qed.

Lemma get_range_Some {A} (l k : list A) start size :
  get_range l start (start + size) = Some k →
  k = take (N.to_nat size) (drop (N.to_nat start) l) ∧ length k = N.to_nat size.
Proof.
  unfold get_range. destruct (N.leb_spec (start + size) (len l)) as [Hle|]; [|done].
  replace (start + size - start)%N with size by lia. intros [= <-]. split; [done|].
  rewrite length_take, length_drop. unfold len in Hle. lia.
Qed.

Lemma existsb_bad_vector dims vs :
  existsb (λ v, negb (len v =? dims)%N || negb (forallb f32_is_finite v)) vs = false →
  Forall (λ v : list f32, len v = dims ∧ forallb f32_is_finite v = true) vs.
Proof.
  induction vs as [|v vs IH]; simpl; [constructor|]. intros [H Hvs]%orb_false_elim. inv_bool.
  constructor; auto.
Qed.

(** What the validator checked about the slice of one request. *)
Lemma valid_slices_spec out rs offset stop pre r post :
  valid_slices out rs (sizes_of rs) offset = Some stop → rs = pre ++ r :: post →
  let off := N.to_nat (offset + batch_items pre) in
  let vs := take (length (r_inputs r)) (drop off (vectors out)) in
  let ts := take (length (r_inputs r)) (drop off (input_tokens (usage out))) in
  identity (contract r) = out_model out ∧
  length vs = length (r_inputs r) ∧ length ts = length (r_inputs r) ∧
  sum_N ts = tokens (cost r) ∧
  Forall (λ v, len v = default (native_dimensions (contract r)) (dimensions (options r)) ∧
               forallb f32_is_finite v = true) vs.
Proof.
  revert rs offset. induction pre as [|r0 pre IH]; intros rs offset H ->; cbn [app sizes_of fmap list_fmap] in H;
    cbn [valid_slices] in H; destruct (bool_decide _) eqn:Hid; try done; simpl negb in H; cbv iota in H;
    apply bind_Some in H as (e & He & H); apply checked_add_Some in He as [-> _];
    apply bind_Some in H as (vs & Hvs & H); apply bind_Some in H as (ts & Hts & H);
    apply bind_Some in H as (et & Het & H); apply bind_Some in H as (at_ & Hat & H);
    destruct (N.eqb_spec at_ et); try done; simpl negb in H; cbv iota in H; destruct (existsb _ _) eqn:Hv; try done.
  - apply get_range_Some in Hvs as [-> Hl], Hts as [-> Hl']. unfold len in Hl, Hl', Hv, Hat.
    rewrite Nnat.Nat2N.id in *. cbn [batch_items fmap list_fmap sum_N foldr]. rewrite N.add_0_r.
    unfold try_from in Het. destruct (_ <=? _)%N; [|done]. injection Het as ->.
    apply checked_sum_Some in Hat as [-> _].
    split_and!; try done; [by eapply bool_decide_eq_true_1|by apply existsb_bad_vector].
  - specialize (IH (pre ++ r :: post) (offset + len (r_inputs r0))%N H eq_refl).
    rewrite batch_items_cons. by rewrite N.add_assoc.
Qed.

Lemma publish_results_In views m rs vs ts i out :
  (i, Ok out) ∈ publish_results views m rs (sizes_of rs) vs ts →
  ∃ pre r post v u, rs = pre ++ r :: post ∧ rid r = i ∧ v_accepting v = true ∧ active v r = Ok tt ∧
    EmbeddingUsage_new (slice pre r ts) = Ok u ∧ out = mk_EmbeddingOutput (slice pre r vs) m u.
Proof.
  revert vs ts. induction rs as [|r rs IH]; intros vs ts; cbn [sizes_of fmap list_fmap publish_results].
  { intros H. inversion H. }
  unfold len. rewrite Nnat.Nat2N.id. intros [Heq|Hin]%elem_of_cons.
  - injection Heq as -> Heq. destruct (v_accepting _) eqn:Hacc; [|done]. simpl in Heq.
    destruct (active _ r) as [[]|] eqn:Ha; [|done].
    destruct (EmbeddingUsage_new _) as [u|] eqn:Hu; [|done]. injection Heq as ->.
    exists [], r, rs. eexists _, u. split_and!; done.
  - apply IH in Hin as (pre & r' & post & v & u & -> & Hr & Hv & Ha & Hu & Ho).
    exists (r :: pre), r', post, v, u. unfold slice in *. rewrite batch_items_cons. unfold len.
    replace (N.to_nat (N.of_nat (length (r_inputs r)) + batch_items pre))%nat
      with (length (r_inputs r) + N.to_nat (batch_items pre))%nat by lia.
    rewrite <-!drop_drop. split_and!; done.
Qed.

Lemma fail_requests_Err views code rs i out : (i, Ok out) ∉ fail_requests views code rs.
Proof.
  induction rs as [|r rs IH]; simpl; [apply not_elem_of_nil|]. rewrite not_elem_of_cons. by split.
Qed.

Lemma execute_batch_Ok w model_id rs i out :
  (i, Ok out) ∈ execute_batch w model_id rs →
  ∃ live pre r post eng ctl opts v,
    live `sublist_of` rs ∧ live = pre ++ r :: post ∧ rid r = i ∧
    embed (mk_RequestedModel model_id) (mk_EmbeddingBatch (live ≫= r_inputs)) ctl opts = Some (Ok eng) ∧
    vectors out = slice pre r (vectors eng) ∧
    input_tokens (usage out) = slice pre r (input_tokens (usage eng)) ∧
    answer_ok r out ∧ v_accepting v = true ∧ active v r = Ok tt.
Proof.
  unfold execute_batch. destruct (split_active (at_start w) rs) as [live refused] eqn:Hs.
  apply split_active_spec in Hs as (Hsub & _ & Href & _).
  intros [Hin|Hin]%elem_of_app.
  { rewrite Forall_forall in Href. by destruct (Href _ Hin). }
  destruct live as [|first rest]; [by apply not_elem_of_nil in Hin|].
  remember (first :: rest) as live. fold (sizes_of live) in Hin.
  destruct (EmbeddingBatch_new _) as [b|] eqn:Hb; [|by apply fail_requests_Err in Hin].
  apply EmbeddingBatch_new_Ok in Hb as [_ ->].
  destruct (RequestedModel_new model_id) as [m|] eqn:Hm; [|by apply fail_requests_Err in Hin].
  apply RequestedModel_new_Ok in Hm as [_ ->].
  destruct (embed _ _ _ _) as [[eng|e]|] eqn:He; [|by apply fail_requests_Err in Hin..].
  destruct (valid_engine_output eng live (sizes_of live)) eqn:Hv; [|by apply fail_requests_Err in Hin].
  apply publish_results_In in Hin as (pre & r & post & v & u & Hl & Hr & Hacc & Ha & Hu & ->).
  unfold valid_engine_output in Hv. destruct (checked_sum _ _) as [total|]; [|done].
  destruct (_ || _ || _) eqn:Hc; [done|]. inv_bool.
  destruct (valid_slices eng live (sizes_of live) 0) as [stop|] eqn:Hvs; [|done].
  destruct (valid_slices_spec _ _ _ _ pre r post Hvs Hl) as (Hs1 & Hs2 & Hs3 & Hs4 & Hs5).
  rewrite N.add_0_l in *. apply EmbeddingUsage_new_Ok in Hu as (_ & -> & _).
  exists live, pre, r, post, eng. do 2 eexists. exists v. split_and!; done.
Qed.


End execution.

(** * Transparency of batching *)

Section transparency.
Context {E : RuntimeEngine}.
Context (ident : ResolvedModelIdentity).
Context (f : EmbedOptions → string → list f32) (g : EmbedOptions → string → N).

(** An engine that treats the inputs of a batch independently. *)
Definition pointwise : Prop :=
  ∀ m b ctl o u, EmbeddingUsage_new (g o <$> inputs b) = Ok u →
    embed m b ctl o = Some (Ok (mk_EmbeddingOutput (f o <$> inputs b) ident u)).

(** A request that was preflighted exactly by such an engine. *)
Record honest (o : EmbedOptions) (r : Request) : Prop := {
  h_options : options r = o;
  h_inputs : r_inputs r ≠ [];
  h_identity : identity (contract r) = ident;
  h_tokens : tokens (cost r) = sum_N (g o <$> r_inputs r);
  h_vectors : Forall (λ s, len (f o s) = default (native_dimensions (contract r)) (dimensions o) ∧
                           forallb f32_is_finite (f o s) = true) (r_inputs r);
}.

(** What the engine answers to the request alone. *)
Definition reference (r : Request) : EmbeddingOutput :=
  mk_EmbeddingOutput (f (options r) <$> r_inputs r) ident
    (mk_EmbeddingUsage (g (options r) <$> r_inputs r) (sum_N (g (options r) <$> r_inputs r))).

Definition all_live (views : nat → View) (rs : list Request) : Prop :=
  ∀ n r, r ∈ rs → v_accepting (views n) = true ∧ active (views n) r = Ok tt.

Lemma split_active_live views rs : all_live views rs → split_active views rs = (rs, []).
Proof.
  induction rs as [|r rs IH]; intros H; simpl; [done|].
  rewrite IH by (intros n r' Hr'; apply H; by right).
  destruct (H (length rs) r) as [-> ->]; [by left|]. done.
Qed.

Lemma sum_bind o rs : sum_N (g o <$> (rs ≫= r_inputs)) = sum_N ((λ r, sum_N (g o <$> r_inputs r)) <$> rs).
Proof.
  induction rs as [|r rs IH]; [done|].
  change ((r :: rs) ≫= r_inputs) with (r_inputs r ++ (rs ≫= r_inputs)). by rewrite fmap_app, sum_N_app, IH.
Qed.

Lemma len_bind rs : len (rs ≫= r_inputs) = batch_items rs.
Proof. induction rs as [|r rs IH]; [done|]. rewrite batch_items_cons, <-IH. apply len_app. Qed.

Lemma sum_N_elem x l : x ∈ l → (x <= sum_N l)%N.
Proof. induction 1 as [|x y l _ IH]; unfold sum_N in *; simpl; lia. Qed.

Lemma get_range_mid {A} (a b c : list A) :
  get_range (a ++ b ++ c) (len a) (len a + len b) = Some b.
Proof.
  unfold get_range. rewrite !len_app. destruct (N.leb_spec (len a + len b) (len a + (len b + len c))); [|lia].
  f_equal. unfold len. rewrite Nnat.Nat2N.id.
  replace (N.to_nat (N.of_nat (length a) + N.of_nat (length b) - N.of_nat (length a))) with (length b) by lia.
  by rewrite drop_app_length, take_app_length.
Qed.

Lemma len_fmap {A B} (h : A → B) l : len (h <$> l) = len l.
Proof. unfold len. by rewrite length_fmap. Qed.

(** The validator accepts what a pointwise engine returns for honest requests. *)
Lemma valid_slices_honest o u before rs :
  Forall (honest o) rs → (batch_items before + batch_items rs <= usize_max)%N →
  (sum_N (g o <$> (rs ≫= r_inputs)) <= u64_max)%N →
  input_tokens u = g o <$> ((before ++ rs) ≫= r_inputs) →
  valid_slices (mk_EmbeddingOutput (f o <$> ((before ++ rs) ≫= r_inputs)) ident u) rs (sizes_of rs)
    (batch_items before) = Some (batch_items (before ++ rs)).
Proof.
  intros Hh Hsz Htok Hu. revert before Hsz Hu. induction Hh as [|r rs [] _ IH]; intros before Hsz Hu.
  { by rewrite app_nil_r. }
  rewrite batch_items_cons in Hsz. cbn [sizes_of fmap list_fmap valid_slices].
  rewrite bool_decide_eq_true_2 by done. simpl negb. cbv iota.
  assert (Hadd : checked_add usize_max (batch_items before) (len (r_inputs r)) =
    Some (batch_items before + len (r_inputs r))%N) by (apply checked_add_Some; lia).
  rewrite Hadd. cbn [mbind option_bind vectors usage input_tokens].
  rewrite Hu, bind_app. cbn [mbind list_bind]. rewrite !fmap_app.
  rewrite <-!(len_bind before), <-(len_fmap (f o) (before ≫= r_inputs)), <-(len_fmap (f o) (r_inputs r)).
  rewrite get_range_mid. cbn [mbind option_bind].
  rewrite (len_fmap (f o) (before ≫= r_inputs)), (len_fmap (f o) (r_inputs r)).
  rewrite <-(len_fmap (g o) (before ≫= r_inputs)), <-(len_fmap (g o) (r_inputs r)).
  rewrite get_range_mid. cbn [mbind option_bind].
  rewrite (len_fmap (g o) (before ≫= r_inputs)), (len_fmap (g o) (r_inputs r)).
  cbn [mbind list_bind] in Htok. rewrite fmap_app, sum_N_app in Htok.
  rewrite h_tokens0. unfold try_from. destruct (N.leb_spec (sum_N (g o <$> r_inputs r)) u64_max); [|lia].
  cbn [mbind option_bind]. assert (Hs : checked_sum u64_max (g o <$> r_inputs r) = Some (sum_N (g o <$> r_inputs r)))
    by by apply checked_sum_Some.
  rewrite Hs. cbn [mbind option_bind]. rewrite N.eqb_refl. simpl negb. cbv iota.
  assert (Hex : existsb (λ v, negb (len v =? default (native_dimensions (contract r)) (dimensions (options r)))%N
      || negb (forallb f32_is_finite v)) (f o <$> r_inputs r) = false).
  { rewrite h_options0. clear -h_vectors0. induction h_vectors0 as [|s l [Hl Hf] _ IH]; [done|].
    simpl. rewrite Hl, Hf, N.eqb_refl. simpl. exact IH. }
  rewrite Hex. specialize (IH ltac:(lia) (before ++ [r])).
  rewrite batch_items_app, batch_items_one in IH. rewrite len_bind.
  rewrite <-app_assoc in IH. simpl in IH. rewrite <-!fmap_app.
  change (r_inputs r ++ (rs ≫= r_inputs)) with ((r :: rs) ≫= r_inputs). rewrite <-bind_app.
  apply IH; [lia|done].
Qed.

Lemma publish_results_honest views o rs rest_v rest_t :
  Forall (honest o) rs → all_live views rs → (sum_N (g o <$> (rs ≫= r_inputs)) <= u64_max)%N →
  publish_results views ident rs (sizes_of rs) ((f o <$> (rs ≫= r_inputs)) ++ rest_v)
    ((g o <$> (rs ≫= r_inputs)) ++ rest_t) = (λ r, (rid r, Ok (reference r))) <$> rs.
Proof.
  intros Hh. induction Hh as [|r rs [] _ IH]; intros Hl Ht; [done|].
  cbn [sizes_of fmap list_fmap publish_results]. cbn [mbind list_bind] in Ht |- *.
  rewrite !fmap_app in *. rewrite sum_N_app in Ht. rewrite <-!app_assoc.
  unfold len. rewrite Nnat.Nat2N.id.
  rewrite !take_app_length', !drop_app_length' by (by rewrite length_fmap).
  destruct (Hl (length rs) r) as [-> ->]; [by left|]. simpl negb. cbv iota.
  assert (EmbeddingUsage_new (g o <$> r_inputs r) =
    Ok (mk_EmbeddingUsage (g o <$> r_inputs r) (sum_N (g o <$> r_inputs r)))) as ->.
  { apply EmbeddingUsage_new_Ok. split_and!; [|done|lia]. by intros ?%fmap_nil_inv. }
  f_equal; [by unfold reference; rewrite h_options0|]. apply IH; [|lia].
  intros n r' Hr'. apply Hl. by right.
Qed.

(** C3: batching is transparent: for an engine that treats inputs
    independently, running any mix of preflighted live requests as one native batch
    gives each of them exactly the answer the engine gives to that request alone,
    in order, with its own vectors, token counts and total. *)
Theorem batching_transparent w model_id o rs :
  pointwise → identity_is_complete ident = true → is_blank model_id = false →
  Forall (honest o) rs → rs ≠ [] →
  all_live (at_start w) rs → all_live (at_end w) rs →
  (batch_items rs <= usize_max)%N → (sum_N (g o <$> (rs ≫= r_inputs)) <= u64_max)%N →
  execute_batch w model_id rs = (λ r, (rid r, Ok (reference r))) <$> rs ∧
  (∀ r ctl, r ∈ rs → embed (mk_RequestedModel model_id) (mk_EmbeddingBatch (r_inputs r)) ctl o =
                     Some (Ok (reference r))).
Proof.
  intros Hpw Hid Hm Hh Hne Hls Hle Hsz Htok. split.
  - unfold execute_batch. rewrite split_active_live by done. simpl app.
    destruct rs as [|r0 rest] eqn:Hrs; [done|]. rewrite <-Hrs in *. fold (sizes_of rs).
    assert (options r0 = o) as -> by (rewrite Hrs in Hh; by apply Forall_cons in Hh as [[] _]).
    assert (Hins : rs ≫= r_inputs ≠ []).
    { rewrite Hrs in *. apply Forall_cons in Hh as [[] _]. simpl. intros [? _]%app_eq_nil. done. }
    assert (EmbeddingBatch_new (rs ≫= r_inputs) = Ok (mk_EmbeddingBatch (rs ≫= r_inputs))) as ->
      by by apply EmbeddingBatch_new_Ok.
    unfold RequestedModel_new. rewrite Hm.
    erewrite (Hpw _ (mk_EmbeddingBatch (rs ≫= r_inputs))).
    2: { apply EmbeddingUsage_new_Ok. split_and!; [|done|done]. by intros ?%fmap_nil_inv. }
    cbn [inputs].
    assert (valid_engine_output (mk_EmbeddingOutput (f o <$> (rs ≫= r_inputs)) ident
      (mk_EmbeddingUsage (g o <$> (rs ≫= r_inputs)) (sum_N (g o <$> (rs ≫= r_inputs))))) rs (sizes_of rs) = true) as ->.
    { unfold valid_engine_output.
      assert (checked_sum usize_max (sizes_of rs) = Some (batch_items rs)) as -> by by apply checked_sum_Some.
      cbn [vectors usage input_tokens out_model]. rewrite !len_fmap, len_bind, N.eqb_refl, Hid. simpl.
      pose proof (valid_slices_honest o (mk_EmbeddingUsage (g o <$> (rs ≫= r_inputs))
        (sum_N (g o <$> (rs ≫= r_inputs)))) [] rs Hh Hsz Htok eq_refl) as Hv.
      simpl in Hv. change (batch_items []) with 0%N in Hv. rewrite Hv. apply N.eqb_refl. }
    cbn [vectors usage input_tokens out_model].
    rewrite <-(app_nil_r (f o <$> _)), <-(app_nil_r (g o <$> _)). by apply publish_results_honest.
  - intros r ctl Hr. rewrite Forall_forall in Hh. destruct (Hh r Hr) as [].
    unfold reference. rewrite h_options0. rewrite <-h_options0 in *. apply Hpw. cbn [inputs].
    apply EmbeddingUsage_new_Ok. split_and!; [by intros ?%fmap_nil_inv|done|].
    etransitivity; [|exact Htok]. rewrite sum_bind. apply sum_N_elem. apply list_elem_of_fmap. by exists r.
Qed.

End transparency.

(** * The scheduler task *)

Section task.
Context {E : RuntimeEngine}.

(** [pending] and whether the loop still runs. *)
Record Task := mk_Task { pending : list Request; running : bool }.

(** What the task observes next: a request from its channel, the end of the
    batching wait (or a full or closed channel with work pending), a stop signal,
    or a closed channel with nothing pending.  A drain meets views, a native queue
    per action, and afterwards the [accepting] flag and an empty channel or not. *)
Inductive Event :=
| Received (r : Request)
| BatchDue (views : nat → View) (native : nat → bool * BatchViews) (accepting channel_empty : bool)
| StopSignalled (views : nat → View)
| ChannelClosed.

Fixpoint run_actions (native : nat → bool * BatchViews) (model_id : string) (actions : list Action) : list Response :=
  match actions with
  | [] => []
  | a :: actions =>
    let '(room, w) := native (length actions) in
    run_action room w model_id a ++ run_actions native model_id actions
  end.

(** One turn of the loop of [run_scheduler]. *)
Definition task_step (p : BatchPolicy) (model_id : string) (t : Task) (e : Event) : Task * list Response :=
  if negb (running t) then (t, []) else
  match e with
  | Received r => (mk_Task (pending t ++ [r]) true, [])
  | BatchDue views native accepting channel_empty =>
    (mk_Task [] (negb (negb accepting && channel_empty)),
     run_actions native model_id (round p views (pending t)))
  | StopSignalled views => (mk_Task [] false, fail_requests views ModelUnavailable (pending t))
  | ChannelClosed =>
    match pending t with [] => (mk_Task [] false, []) | _ => (t, []) end
  end.

Fixpoint task_run (p : BatchPolicy) (model_id : string) (t : Task) (es : list Event) : Task * list Response :=
  match es with
  | [] => (t, [])
  | e :: es =>
    let '(t1, out1) := task_step p model_id t e in
    let '(t2, out2) := task_run p model_id t1 es in (t2, out1 ++ out2)
  end.

(** [run_scheduler]: the loop, then [receiver.close()] and the answers to what the
    channel still holds. *)
Definition run_scheduler (p : BatchPolicy) (model_id : string) (es : list Event)
    (closing : nat → View) (channel : list Request) : Task * list Response :=
  let '(t, out) := task_run p model_id (mk_Task [] true) es in
  (t, out ++ fail_requests closing ModelUnavailable channel).

(** The requests the task took from its channel while it ran. *)
Fixpoint taken (p : BatchPolicy) (model_id : string) (t : Task) (es : list Event) : list Request :=
  match es with
  | [] => []
  | e :: es =>
    match e with Received r => if running t then [r] else [] | _ => [] end
    ++ taken p model_id (task_step p model_id t e).1 es
  end.

Lemma run_action_rids room w model_id a :
  fst <$> run_action room w model_id a ≡ₚ rid <$> action_requests a.
Proof. destruct a; [done|]. apply dispatch_rids. Qed.

Lemma run_actions_rids native model_id actions :
  fst <$> run_actions native model_id actions ≡ₚ rid <$> (actions ≫= action_requests).
Proof.
  induction actions as [|a actions IH]; [done|]. cbn [run_actions].
  destruct (native (length actions)) as [room w].
  change ((a :: actions) ≫= action_requests) with (action_requests a ++ (actions ≫= action_requests)).
  by rewrite !fmap_app, IH, run_action_rids.
Qed.

Lemma task_step_rids p model_id t e t' out :
  policy_sized p → Forall (λ r, within_policy p [r]) (pending t) →
  task_step p model_id t e = (t', out) →
  (rid <$> pending t) ++ (rid <$> taken p model_id t [e]) ≡ₚ (fst <$> out) ++ (rid <$> pending t') ∧
  (Forall (λ r, within_policy p [r]) (taken p model_id t [e]) → Forall (λ r, within_policy p [r]) (pending t')).
Proof.
  intros Hp Hw. unfold task_step. cbn [taken]. destruct (running t); simpl negb; cbv iota.
  - destruct e as [r|views native acc ce|views|]; rewrite ?app_nil_r.
    + intros [= <- <-]. cbn [pending]. rewrite fmap_app. split; [done|]. intros Hr. by apply Forall_app.
    + intros [= <- <-]. split; [|constructor]. cbn [pending fmap list_fmap]. rewrite !app_nil_r, run_actions_rids.
      destruct (drain_spec p views (length (sort_by_sequence (pending t))) (sort_by_sequence (pending t))) as (H1 & _);
        [done|by rewrite sort_by_sequence_perm|done|].
      unfold round. by rewrite H1, sort_by_sequence_perm.
    + intros [= <- <-]. split; [|constructor]. cbn [pending fmap list_fmap].
      by rewrite !app_nil_r, fail_requests_rids.
    + destruct (pending t) eqn:E1; intros [= <- <-]; cbn [pending]; rewrite ?E1; split; (done || by rewrite <-E1 in Hw).
  - intros [= <- <-]. split; [|done]. by destruct e; cbn [fmap list_fmap]; rewrite ?app_nil_r.
Qed.

Lemma task_run_rids p model_id es : ∀ t t' out,
  policy_sized p → Forall (λ r, within_policy p [r]) (pending t) →
  Forall (λ r, within_policy p [r]) (taken p model_id t es) →
  task_run p model_id t es = (t', out) →
  (rid <$> pending t) ++ (rid <$> taken p model_id t es) ≡ₚ (fst <$> out) ++ (rid <$> pending t').
Proof.
  induction es as [|e es IH]; intros t t' out Hp Hw Ht; cbn [task_run].
  { intros [= <- <-]. by rewrite app_nil_r. }
  destruct (task_step p model_id t e) as [t1 out1] eqn:Hs.
  destruct (task_run p model_id t1 es) as [t2 out2] eqn:Hr. intros [= <- <-].
  assert (Hte : taken p model_id t (e :: es) = taken p model_id t [e] ++ taken p model_id t1 es).
  { cbn [taken]. rewrite Hs. cbn [fst]. by rewrite app_nil_r. }
  rewrite Hte in *. apply Forall_app in Ht as [Ht1 Ht2].
  destruct (task_step_rids p model_id t e t1 out1 Hp Hw Hs) as [H1 H2].
  specialize (IH t1 t2 out2 Hp (H2 Ht1) Ht2 Hr).
  rewrite !fmap_app, app_assoc, H1, <-!app_assoc. by rewrite <-IH.
Qed.

(** No request is ever dropped: over any history of the scheduler task
    (arrivals, batching rounds, a stop signal at any moment, a closed channel), each
    request it took has exactly one answer or is still pending; once the task has
    ended, everything it took and everything left in its channel has been
    answered exactly once. *)
Theorem scheduler_answers_everyone p model_id es closing channel t out :
  policy_sized p → Forall (λ r, within_policy p [r]) (taken p model_id (mk_Task [] true) es) →
  run_scheduler p model_id es closing channel = (t, out) →
  (fst <$> out) ++ (rid <$> pending t) ≡ₚ (rid <$> taken p model_id (mk_Task [] true) es) ++ (rid <$> channel) ∧
  (running t = false → fst <$> out ≡ₚ (rid <$> taken p model_id (mk_Task [] true) es) ++ (rid <$> channel)).
Proof.
  intros Hp Ht. unfold run_scheduler. destruct (task_run _ _ _ _) as [t1 out1] eqn:Hr. intros [= <- <-].
  pose proof (task_run_rids p model_id es (mk_Task [] true) _ _ Hp (Forall_nil_2 _) Ht Hr) as H. simpl app in H.
  assert (Hall : (fst <$> out1 ++ fail_requests closing ModelUnavailable channel) ++ (rid <$> pending t1) ≡ₚ
    (rid <$> taken p model_id (mk_Task [] true) es) ++ (rid <$> channel)).
  { cbn [pending fmap list_fmap app] in H. rewrite H, fmap_app, fail_requests_rids.
    rewrite <-!app_assoc. f_equiv. apply Permutation_app_comm. }
  split; [done|]. intros Hstop. rewrite <-Hall.
  assert (pending t1 = []) as ->; [|by rewrite app_nil_r]. clear -Hr Hstop.
  assert (Hgen : ∀ es t t' o, (running t = false → pending t = []) → task_run p model_id t es = (t', o) →
    running t' = false → pending t' = []).
  { clear. induction es as [|e es IH]; intros t t' o Hi; cbn [task_run]; [by intros [= <- _]|].
    destruct (task_step p model_id t e) as [t1 o1] eqn:Hs. destruct (task_run _ _ t1 es) as [t2 o2] eqn:Hr.
    intros [= <- _]. eapply IH; [|exact Hr]. clear -Hi Hs. unfold task_step in Hs.
    destruct (running t) eqn:Hrun; simpl in Hs; [|by simplify_eq; auto].
    destruct e; simplify_eq/=; try done. by destruct (pending t); simplify_eq/=; rewrite ?Hrun. }
  by eapply Hgen in Hr.
Qed.

End task.

(** * Admission *)

Lemma validate_raw_from_Ok mi mr total ins :
  (mr <= usize_max)%N →
  validate_raw_from mi mr total ins = Ok tt ↔
  Forall (λ i, (str_len i <= mi)%N) ins ∧ (ins = [] ∨ (total + sum_N (str_len <$> ins) <= mr)%N).
Proof.
  intros Hmr. revert total. induction ins as [|i ins IH]; intros total; cbn [validate_raw_from].
  { split; [intros _; split; [constructor|by left]|done]. }
  rewrite Config.ensure_Ok, bind_Ok, Forall_cons. cbn [fmap list_fmap]. setoid_rewrite ok_or_Ok.
  setoid_rewrite checked_add_Some. setoid_rewrite Config.ensure_Ok. setoid_rewrite IH.
  rewrite negb_true_iff, N.ltb_ge. change (sum_N (str_len i :: (str_len <$> ins)))
    with (str_len i + sum_N (str_len <$> ins))%N. split.
  - intros (H1 & t & [-> H2] & H3 & H4 & H5). inv_bool. split; [done|]. right.
    destruct H5 as [->|H5]; [cbn; lia|lia].
  - intros ([H1 H2] & [|H3]); [done|]. split; [done|]. eexists. split; [split; [done|lia]|].
    split; [apply negb_true_iff, N.ltb_ge; lia|]. split; [done|]. right. lia.
Qed.

Section admission.
Context {E : RuntimeEngine}.

Lemma preflight_job_Ok before after plan co c :
  preflight_job before after plan = Ok (co, c) →
  p_inputs plan ≠ [] ∧ items co = len (p_inputs plan) ∧ (tokens co <= p_max_tokens plan)%N ∧
  (items co * max_sequence_length co <= p_max_batch_tokens plan)%N ∧
  native_dimensions c ≠ 0%N ∧ canonical_id (identity c) = rm_str (p_model plan) ∧
  identity_is_complete (identity c) = true ∧
  ensure_active (v_store after) (v_now after) (p_control plan) = Ok tt.
Proof.
  unfold preflight_job, validate_runtime_contract. intros H. inv_result. simplify_eq. inv_bool.
  match goal with H : padded_tokens _ = Ok _ |- _ => unfold padded_tokens in H end. inv_result.
  match goal with H : checked_mul _ _ _ = Some _ |- _ => apply checked_mul_Some in H as [-> _] end.
  match goal with H : EmbeddingBatch_new _ = Ok _ |- _ => apply EmbeddingBatch_new_Ok in H as [? _] end.
  match goal with H : ensure_active (v_store after) _ _ = Ok ?u |- _ => destruct u end.
  split_and!; done.
Qed.

(** Admission guarantees what the scheduler assumes: the raw input check is
    exactly the per-input and aggregate byte bounds, and a request that passes it
    and preflight under a validated policy fits a native call on its own, within
    the item, token and padded-token limits, and is bound to the complete identity
    of the model it named. *)
Theorem admission_is_sufficient p plan before after co c r :
  policy_validate p = Ok p → (max_request_bytes p <= usize_max)%N →
  (len (p_inputs plan) <= max_items p)%N →
  validate_raw_inputs (p_inputs plan) (max_input_bytes p) (max_request_bytes p) = Ok tt →
  p_max_tokens plan = max_tokens p → p_max_batch_tokens plan = max_batch_tokens p →
  preflight_job before after plan = Ok (co, c) →
  r_inputs r = p_inputs plan → cost r = co → contract r = c →
  Forall (λ i, (str_len i <= max_input_bytes p)%N) (r_inputs r) ∧
  (sum_N (str_len <$> r_inputs r) <= max_request_bytes p)%N ∧
  r_inputs r ≠ [] ∧ (tokens (cost r) <= max_tokens p)%N ∧ within_policy p [r] ∧
  canonical_id (identity (contract r)) = rm_str (p_model plan) ∧
  identity_is_complete (identity (contract r)) = true.
Proof.
  intros Hv Hmr Hlen Hraw Ht Hbt Hpre Hi <- <-.
  unfold validate_raw_inputs in Hraw. apply validate_raw_from_Ok in Hraw as [Hraw1 Hraw2]; [|done].
  apply preflight_job_Ok in Hpre as (Hne & H1 & H2 & H3 & H4 & H5 & H6 & _).
  unfold policy_validate in Hv. inv_result. inv_bool. rewrite Hi. split_and!; try done.
  - by destruct Hraw2.
  - lia.
  - unfold within_policy. rewrite batch_items_one, batch_sequence_one, Hi, <-H1. lia.
Qed.

End admission.

(** A configuration that validates always yields a runtime policy that
    validates, with every bound a machine-sized value, so a validated server never
    fails to construct its scheduler. *)
Theorem config_yields_policy l wait :
  Config.validate_bounds l = Ok tt →
  policy_validate (from_limits l wait) = Ok (from_limits l wait) ∧ policy_sized (from_limits l wait) ∧
  (max_request_bytes (from_limits l wait) <= usize_max)%N.
Proof.
  intros []%Config.validate_bounds_Ok. unfold Config.MIB, policy_validate, policy_sized, usize_max, u64_max, from_limits, from_millis in *.
  cbn [queue_depth max_items max_input_bytes max_request_bytes max_tokens max_batch_items
    max_batch_tokens blocking_concurrency request_timeout].
  split; [|lia]. apply Config.ensure_Ok. split; [|done]. apply negb_true_iff.
  rewrite !orb_false_iff, !N.eqb_neq, !N.ltb_ge. lia.
Qed.

(** * Witnesses *)

(** A deterministic engine with vectors of width two. *)
Definition sample_f (_ : EmbedOptions) (s : string) : list f32 := [1065353216; str_len s]%N.
Definition sample_g (_ : EmbedOptions) (s : string) : N := (str_len s + 2)%N.
Definition sample_engine : RuntimeEngine := {|
  model_contract _ := Some (RuntimeModelContract_new sample_identity 2);
  preflight _ b _ := Some (default_preflight b);
  embed _ b _ o := Some (let? u := EmbeddingUsage_new (sample_g o <$> inputs b) in
                         Ok (mk_EmbeddingOutput (sample_f o <$> inputs b) sample_identity u));
|}.
Definition sample_control : ExecutionControl := ExecutionControl_new 0 None.
Definition sample_view : View := mk_View (token_default empty_store).2 0 true.
Definition sample_views : BatchViews := mk_BatchViews (λ _, sample_view) sample_view (λ _, sample_view).
Definition sample_request (i : nat) (s : string) : Request :=
  mk_Request i (N.of_nat i) [s] (mk_EmbeddingBatchCost 1 (str_len s + 2) (str_len s + 2))
    (mk_RuntimeModelContract sample_identity 2) EmbedOptions_default sample_control.
Definition sample_policy : BatchPolicy := mk_BatchPolicy 8 2 64 64 16 2 16 4 1 1000.
Definition sample_queue : list Request :=
  [sample_request 2 "c"; sample_request 1 "bbbbbbb"; sample_request 3 "d"].

Lemma sample_sized : policy_sized sample_policy.
Proof. split; vm_compute; done. Qed.

Lemma sample_fits : Forall (λ r, within_policy sample_policy [r]) sample_queue.
Proof. repeat constructor; vm_compute; done. Qed.

Lemma batch_formation_witness :
  form_batch sample_policy (sample_request 1 "bbbbbbb") [sample_request 2 "c"; sample_request 3 "d"] =
    ([sample_request 1 "bbbbbbb"], [sample_request 2 "c"; sample_request 3 "d"]) ∧
  ¬ within_policy sample_policy ([sample_request 1 "bbbbbbb"] ++ [sample_request 2 "c"]).
Proof.
  split; [reflexivity|].
  destruct (batch_formation sample_policy (sample_request 1 "bbbbbbb") [sample_request 2 "c"; sample_request 3 "d"]
    [sample_request 1 "bbbbbbb"] [sample_request 2 "c"; sample_request 3 "d"] sample_sized)
    as (_ & _ & _ & _ & _ & Hmax); [split; vm_compute; done|reflexivity|].
  apply (Forall_inv Hmax). reflexivity.
Defined.

Lemma round_serves_all_witness :
  round sample_policy (λ _, sample_view) sample_queue ≫= action_requests ≡ₚ sample_queue ∧
  round sample_policy (λ _, sample_view) sample_queue =
    [Dispatch [sample_request 1 "bbbbbbb"]; Dispatch [sample_request 2 "c"; sample_request 3 "d"]].
Proof.
  split; [|vm_compute; reflexivity].
  apply (round_serves_all sample_policy (λ _, sample_view) sample_queue sample_sized sample_fits).
Defined.


Lemma batching_transparent_witness :
  execute_batch (E := sample_engine) sample_views "m" [sample_request 1 "ab"; sample_request 2 "c"] =
  [(1%nat, Ok (reference sample_identity sample_f sample_g (sample_request 1 "ab")));
   (2%nat, Ok (reference sample_identity sample_f sample_g (sample_request 2 "c")))].
Proof.
  refine (proj1 (batching_transparent (E := sample_engine) sample_identity sample_f sample_g
    sample_views "m" EmbedOptions_default [sample_request 1 "ab"; sample_request 2 "c"] _ _ _ _ _ _ _ _ _)).
  - intros m b ctl o u Hu. unfold embed, sample_engine. by rewrite Hu.
  - reflexivity.
  - reflexivity.
  - repeat constructor; done.
  - done.
  - intros n r Hr. split; [done|]. by repeat (apply elem_of_cons in Hr as [->|Hr]; [reflexivity|]); inversion Hr.
  - intros n r Hr. split; [done|]. by repeat (apply elem_of_cons in Hr as [->|Hr]; [reflexivity|]); inversion Hr.
  - vm_compute. done.
  - vm_compute. done.
Defined.

Lemma scheduler_answers_everyone_witness :
  let es := (Received <$> sample_queue) ++
            [BatchDue (λ _, sample_view) (λ _, (true, sample_views)) true false;
             Received (sample_request 4 "e"); StopSignalled (λ _, sample_view)] in
  let '(t, out) := run_scheduler (E := sample_engine) sample_policy "m" es (λ _, sample_view) [sample_request 5 "f"] in
  fst <$> out ≡ₚ [2; 1; 3; 4; 5]%nat ∧ running t = false.
Proof.
  intros es.
  destruct (run_scheduler (E := sample_engine) sample_policy "m" es (λ _, sample_view) [sample_request 5 "f"])
    as [t out] eqn:Hr.
  assert (Hrun : running t = false) by (vm_compute in Hr; injection Hr as <- _; reflexivity).
  split; [|done].
  apply (scheduler_answers_everyone (E := sample_engine) sample_policy "m" es (λ _, sample_view)
    [sample_request 5 "f"] t out sample_sized); [|exact Hr|exact Hrun].
  vm_compute. repeat constructor; done.
Defined.

Lemma admission_is_sufficient_witness :
  let plan := mk_PreflightPlan 0 ["ab"] EmbedOptions_default sample_control
                (mk_RequestedModel (canonical_id sample_identity)) 16 16 in
  preflight_job (E := sample_engine) sample_view sample_view plan =
    Ok (cost (sample_request 1 "ab"), contract (sample_request 1 "ab")) ∧
  within_policy sample_policy [sample_request 1 "ab"].
Proof.
  intros plan. split; [reflexivity|].
  apply (admission_is_sufficient (E := sample_engine) sample_policy plan sample_view sample_view
    (cost (sample_request 1 "ab")) (contract (sample_request 1 "ab")) (sample_request 1 "ab"));
    first [reflexivity | vm_compute; done].
Defined.

Lemma config_yields_policy_witness :
  policy_validate (from_limits Config.Limits_default 4000000) = Ok (from_limits Config.Limits_default 4000000).
Proof. apply (config_yields_policy Config.Limits_default 4000000). reflexivity. Defined.

End Scheduler.
