(* ===== verification/Pool.v ===== *)
(** The blocking worker pool ([crates/impossible-server/src/runtime.rs], [BlockingPool] and
    [run_blocking_worker]): a bounded channel whose receiver the workers share behind a
    mutex.  A worker takes the mutex, receives while it holds it, releases it, and runs the
    job with its panics caught.  No other code runs while the mutex is held, so it is never
    poisoned.

    The channel is modelled for the positive capacities the policy allows.  Which threads run
    when is a sequence of events; what was accepted, started and finished is recorded. *)

From Stdlib Require Import NArith Lia.
From stdpp Require Import base list sets.
From S2P Require Import Prelude Scheduler.

Local Open Scope list_scope.
Local Open Scope rust_scope.

Module Pool.
Section pool.
Context {Job : Type}.

(** Where a worker is: before the lock, receiving with the lock, running a job, or gone. *)
Inductive Worker := Idle | Receiving | Busy (j : Job) | Exited.

Record BlockingPool := mk_BlockingPool {
  depth : nat;
  buffer : list Job;
  workers : list Worker;
  senders : nat;
  accepted : list Job;
  started : list Job;
  finished : list (Job * bool);
}.

Definition is_exited (w : Worker) : bool := match w with Exited => true | _ => false end.
Definition is_receiving (w : Worker) : bool := match w with Receiving => true | _ => false end.

(** The loop of [BlockingPool::new_with_spawner]: the workers that were spawned, and whether
    all were. *)
Fixpoint spawn_workers (spawned : nat → bool) (index remaining : nat) : nat * bool :=
  match remaining with
  | O => (0, true)
  | S remaining =>
    if spawned index then let '(n, ok) := spawn_workers spawned (S index) remaining in (S n, ok) else (0, false)
  end.

(** [BlockingPool::new_with_spawner], [BlockingPool::new]: a failure drops the sender. *)
Definition new_with_spawner (size queue_depth : nat) (spawned : nat → bool) : result Scheduler.LifecycleError unit * BlockingPool :=
  let '(n, ok) := spawn_workers spawned 0 size in
  (if ok then Ok tt else Err Scheduler.InitializationFailed,
   mk_BlockingPool queue_depth [] (replicate n Idle) (if ok then 1 else 0) [] [] []).

(** [BlockingPool::try_execute]: the job comes back when the channel is full, or disconnected
    because every worker has dropped its receiver. *)
Definition try_execute (job : Job) (p : BlockingPool) : result Job unit * BlockingPool :=
  if forallb is_exited (workers p) || (depth p <=? length (buffer p))%nat then (Err job, p)
  else (Ok tt, mk_BlockingPool (depth p) (buffer p ++ [job]) (workers p) (senders p) (accepted p ++ [job]) (started p) (finished p)).

Definition with_worker (w : nat) (x : Worker) (p : BlockingPool) : BlockingPool :=
  mk_BlockingPool (depth p) (buffer p) (<[w := x]> (workers p)) (senders p) (accepted p) (started p) (finished p).

(** [run_blocking_worker], one step of worker [w]: [lock]; [recv], which waits while the
    channel is empty and connected and ends the loop when it is disconnected; the job under
    [catch_unwind], after which the loop goes on whether it panicked or not. *)
Definition worker_step (w : nat) (panics : bool) (p : BlockingPool) : option BlockingPool :=
  match workers p !! w with
  | Some Idle => if existsb is_receiving (workers p) then None else Some (with_worker w Receiving p)
  | Some Receiving =>
    match buffer p with
    | job :: rest =>
      Some (mk_BlockingPool (depth p) rest (<[w := Busy job]> (workers p)) (senders p) (accepted p) (started p ++ [job]) (finished p))
    | [] => if bool_decide (senders p = 0) then Some (with_worker w Exited p) else None
    end
  | Some (Busy job) =>
    Some (mk_BlockingPool (depth p) (buffer p) (<[w := Idle]> (workers p)) (senders p) (accepted p) (started p) (finished p ++ [(job, panics)]))
  | Some Exited | None => None
  end.

(** What happens to a pool; only a holder of a sender submits, clones or drops. *)
Inductive Event := Submit (job : Job) | CloneSender | DropSender | WorkerRuns (w : nat) (panics : bool).
Definition with_senders (n : nat) (p : BlockingPool) : BlockingPool :=
  mk_BlockingPool (depth p) (buffer p) (workers p) n (accepted p) (started p) (finished p).
Definition step (e : Event) (p : BlockingPool) : option BlockingPool :=
  match e with
  | WorkerRuns w panics => worker_step w panics p
  | _ =>
    if bool_decide (senders p = 0) then None else
    match e with
    | Submit job => Some (try_execute job p).2
    | CloneSender => Some (with_senders (S (senders p)) p)
    | _ => Some (with_senders (pred (senders p)) p)
    end
  end.
Fixpoint history (es : list Event) (p : BlockingPool) : option BlockingPool :=
  match es with
  | [] => Some p
  | e :: es => match step e p with Some p => history es p | None => None end
  end.

(** * The invariant *)

Definition busy (w : Worker) : option Job := match w with Busy j => Some j | _ => None end.
Definition receiving (ws : list Worker) : list Worker := filter (λ w, is_receiving w = true) ws.

Record pool_ok (size queue_depth : nat) (p : BlockingPool) : Prop := {
  po_depth : depth p = queue_depth;
  po_size : length (workers p) = size;
  po_fifo : accepted p = started p ++ buffer p;
  po_ran : started p ≡ₚ omap busy (workers p) ++ (finished p).*1;
  po_bound : (length (buffer p) ≤ queue_depth)%nat;
  po_lock : (length (receiving (workers p)) ≤ 1)%nat;
  po_exit : Exited ∈ workers p → senders p = 0 ∧ buffer p = [];
  po_none : size = 0 → buffer p = [];
}.

Lemma omap_insert_perm (ws : list Worker) w old new :
  ws !! w = Some old → option_list (busy new) ++ omap busy ws ≡ₚ option_list (busy old) ++ omap busy (<[w := new]> ws).
Proof.
  intros Hw. rewrite <-(take_drop_middle ws w old Hw) at 1. rewrite insert_take_drop by (by eapply lookup_lt_Some).
  rewrite !omap_app. cbn. destruct (busy new), (busy old); cbn; solve_Permutation.
Qed.

Lemma receiving_insert (ws : list Worker) w old new :
  ws !! w = Some old →
  length (receiving (<[w := new]> ws)) + (if is_receiving old then 1 else 0) =
  length (receiving ws) + (if is_receiving new then 1 else 0).
Proof.
  intros Hw. rewrite <-(take_drop_middle ws w old Hw) at 2. rewrite insert_take_drop by (by eapply lookup_lt_Some).
  unfold receiving. rewrite !filter_app, !length_app, !filter_cons. destruct old, new; simpl; lia.
Qed.

Lemma new_ok size queue_depth spawned :
  let '(r, p) := new_with_spawner size queue_depth spawned in pool_ok (length (workers p)) queue_depth p.
Proof.
  unfold new_with_spawner. destruct (spawn_workers spawned 0 size) as [n ok]. split; cbn; try done.
  - induction n; cbn; [done|]. done.
  - lia.
  - unfold receiving. assert (filter (λ w, is_receiving w = true) (replicate n Idle) = []) as ->; [|simpl; lia].
    induction n; simpl; done.
  - intros ?%elem_of_replicate_inv. done.
Qed.

Lemma exited_insert (ws : list Worker) w x : x ≠ Exited → Exited ∈ <[w := x]> ws → Exited ∈ ws.
Proof.
  intros Hx [i Hi]%list_elem_of_lookup. apply list_elem_of_lookup. destruct (decide (i = w)) as [->|Hne].
  - apply list_lookup_insert_Some in Hi as [(_ & ? & _)|[]]; [done|done].
  - rewrite list_lookup_insert_ne in Hi by done. eauto.
Qed.

Lemma worker_step_ok size queue_depth w panics p p' :
  pool_ok size queue_depth p → worker_step w panics p = Some p' → pool_ok size queue_depth p'.
Proof.
  intros Hp Hs.
  unfold worker_step in Hs. destruct (workers p !! w) as [old|] eqn:Hw; [|done].
  pose proof (λ new, omap_insert_perm (workers p) w old new Hw) as Hbusy.
  pose proof (λ new, receiving_insert (workers p) w old new Hw) as Hrec.
  destruct old as [| |job|]; [| | |done].
  - destruct (existsb _ _) eqn:Hn; [done|]. injection Hs as <-. specialize (Hrec Receiving). specialize (Hbusy Receiving). simpl in *.
    assert (receiving (workers p) = []) as Hnone.
    { unfold receiving. clear -Hn. induction (workers p) as [|x ws IH]; [done|]. simpl in Hn. apply orb_false_iff in Hn as [Hx Hn].
      rewrite filter_cons, decide_False by congruence. auto. }
    destruct Hp. split; simpl; try done; try by rewrite length_insert.
    + by rewrite <-Hbusy.
    + rewrite Hnone in Hrec. simpl in Hrec. lia.
    + intros Hx. by apply exited_insert in Hx; auto.
  - destruct (buffer p) as [|job rest] eqn:Hbuf.
    + case_bool_decide as Hsend; [|done]. injection Hs as <-. specialize (Hrec Exited). specialize (Hbusy Exited). simpl in *.
      destruct Hp. split; simpl; try done; try by rewrite length_insert.
      * by rewrite <-Hbusy.
      * lia.
    + injection Hs as <-. specialize (Hrec (Busy job)). specialize (Hbusy (Busy job)). simpl in *.
      destruct Hp as [Hd Hz Hf Hr Hb Hl Hx Hn]. rewrite Hbuf in *. split; simpl in *; try done; try by rewrite length_insert.
      * by rewrite <-app_assoc.
      * rewrite Hr, <-Hbusy. solve_Permutation.
      * lia.
      * lia.
      * intros Hx'%exited_insert; [|done]. destruct (Hx Hx'); done.
      * intros Hz'. by specialize (Hn Hz').
  - injection Hs as <-. specialize (Hrec Idle). specialize (Hbusy Idle). simpl in *.
    destruct Hp as [Hd Hz Hf Hr Hb Hl Hx Hn]. split; simpl in *; try done; try by rewrite length_insert.
    * rewrite fmap_app, Hr, Hbusy. simpl. solve_Permutation.
    * lia.
    * intros Hx'%exited_insert; [|done]. auto.
Qed.

Lemma step_ok size queue_depth e p p' : pool_ok size queue_depth p → step e p = Some p' → pool_ok size queue_depth p'.
Proof.
  intros Hp Hs. destruct e as [job| | |w panics]; cbn [step] in Hs; [..|by eapply worker_step_ok].
  all: case_bool_decide as Hsend; [done|]; injection Hs as <-; destruct Hp as [Hd Hz Hf Hr Hb Hl Hx Hn].
  - unfold try_execute. destruct (forallb _ _) eqn:Hall; [by split|]. destruct (Nat.leb_spec (depth p) (length (buffer p))); cbn [orb snd]; [by split|].
    split; cbn; try done.
    + by rewrite Hf, app_assoc.
    + rewrite length_app. simpl. lia.
    + intros He. by destruct (Hx He).
    + intros ->. apply nil_length_inv in Hz. by rewrite Hz in Hall.
  - split; cbn; try done. intros He. by destruct (Hx He).
  - split; cbn; try done. intros He. by destruct (Hx He).
Qed.

Lemma history_ok size queue_depth es : ∀ p p',
  pool_ok size queue_depth p → history es p = Some p' → pool_ok size queue_depth p'.
Proof.
  induction es as [|e es IH]; intros p p' Hp Hh; cbn in Hh; [by injection Hh as <-|].
  destruct (step e p) as [q|] eqn:Hs; [|done]. eauto using step_ok.
Qed.

Lemma new_senders size queue_depth spawned r p :
  new_with_spawner size queue_depth spawned = (r, p) → (r = Ok tt → length (workers p) = size) ∧ (is_ok r = false → senders p = 0).
Proof.
  unfold new_with_spawner. destruct (spawn_workers spawned 0 size) as [n ok] eqn:Hs. intros [= <- <-]. cbn.
  split; [|by destruct ok]. destruct ok; [|done]. intros _. rewrite length_replicate. revert n Hs. generalize 0.
  induction size as [|size IH]; intros i n; cbn; [by intros [= <-]|]. destruct (spawned i); [|done].
  destruct (spawn_workers spawned (S i) size) as [k ok] eqn:Hk. intros [= <- ->]. f_equal. by eapply IH.
Qed.

(** C19: The blocking pool loses, repeats and reorders nothing, and never loses a worker.  After
    any history of submissions, workers and panicking jobs, the jobs that were started are in
    order of acceptance and the others are exactly the buffer; a started job is running in one
    worker or has finished once; the buffer is within the queue depth.  While the pool is held
    no worker has exited, and a submission is refused exactly when the buffer is full. *)
Theorem pool_accounts size queue_depth spawned es r p0 p :
  new_with_spawner size queue_depth spawned = (r, p0) → history es p0 = Some p →
  accepted p = started p ++ buffer p ∧ (started p ≡ₚ omap busy (workers p) ++ (finished p).*1) ∧
  (length (buffer p) ≤ queue_depth)%nat ∧ length (workers p) = length (workers p0) ∧ (r = Ok tt → length (workers p) = size) ∧
  (senders p ≠ 0 → (Exited ∉ workers p) ∧
     (∀ job, 1 ≤ size → r = Ok tt → (try_execute job p).1 = if bool_decide (length (buffer p) < queue_depth)%nat then Ok tt else Err job)).
Proof.
  intros Hn Hh. pose proof (new_ok size queue_depth spawned) as H0. pose proof (new_senders _ _ _ _ _ Hn) as [Hr _]. rewrite Hn in H0.
  pose proof (history_ok _ _ _ _ _ H0 Hh) as [Hd Hz Hf Hran Hb Hl Hx Hnone]. split_and!; try done; [by intros H; rewrite Hz; auto|].
  intros Hs. assert (Exited ∉ workers p) as Hne by (intros H; by destruct (Hx H)). split; [done|]. intros job Hsize Hok.
  unfold try_execute. rewrite Hd. assert (forallb is_exited (workers p) = false) as ->.
  { destruct (workers p) as [|w ws] eqn:Hw; [simpl in Hz; rewrite Hr in Hz by done; lia|]. destruct w; try done. set_solver. }
  cbn [orb]. destruct (Nat.leb_spec queue_depth (length (buffer p))); case_bool_decide; (done || lia).
Qed.

(** * Quiescence *)

Definition weight (w : Worker) : nat := match w with Idle => 2 | Receiving => 1 | Busy _ => 3 | Exited => 0 end.
Definition work (p : BlockingPool) : nat := 3 * length (buffer p) + sum_list_with weight (workers p).

Lemma worker_progress w panics p p' : worker_step w panics p = Some p' → work p' < work p.
Proof.
  unfold worker_step, work. destruct (workers p !! w) as [old|] eqn:Hw; [|done].
  pose proof (λ new, sum_insert weight (workers p) w old new Hw) as Hwt. destruct old as [| |job|]; [| | |done].
  - case_match; [done|]. intros [= <-]. specialize (Hwt Receiving). simpl in *. lia.
  - destruct (buffer p) as [|job rest] eqn:Hb; [case_bool_decide; [|done]|]; intros [= <-].
    + specialize (Hwt Exited). simpl in *. rewrite Hb. simpl. lia.
    + specialize (Hwt (Busy job)). simpl in *. lia.
  - intros [= <-]. specialize (Hwt Idle). simpl in *. lia.
Qed.

Definition worker_event (e : Event) : bool := match e with WorkerRuns _ _ => true | _ => false end.
Definition at_rest (p : BlockingPool) : Prop := ∀ w panics, worker_step w panics p = None.

Lemma rest_worker p x : at_rest p → x ∈ workers p →
  match x with
  | Busy _ => False
  | Receiving => buffer p = [] ∧ senders p ≠ 0
  | Idle => existsb is_receiving (workers p) = true
  | Exited => True
  end.
Proof.
  intros Hr [w Hw]%list_elem_of_lookup. specialize (Hr w true). unfold worker_step in Hr. rewrite Hw in Hr. destruct x; try done.
  - by destruct (existsb _ _).
  - destruct (buffer p); [|done]. by case_bool_decide.
Qed.

Lemma receiving_elem (ws : list Worker) : existsb is_receiving ws = true → Receiving ∈ ws.
Proof. intros (x & Hx & Hr)%existsb_exists. apply list_elem_of_In. by destruct x. Qed.

Lemma rest_done size queue_depth p : pool_ok size queue_depth p → at_rest p →
  buffer p = [] ∧ omap busy (workers p) = [] ∧ (senders p = 0 → ∀ x, x ∈ workers p → x = Exited).
Proof.
  intros [Hd Hz Hf Hran Hb Hl Hx Hnone] Hr. pose proof (λ x, rest_worker p x Hr) as Hw.
  assert (∀ x, x ∈ workers p → x = Exited ∨ buffer p = [] ∧ senders p ≠ 0) as Hall.
  { intros x Hin. pose proof (Hw x Hin) as H. destruct x; [right|right; done|done|by left].
    apply receiving_elem, Hw in H. done. }
  split; [|split].
  - destruct (workers p) as [|x ws] eqn:Hws; [apply Hnone; by rewrite <-Hz|]. destruct (Hall x) as [->|[? _]]; [by left| |done]. by apply Hx; left.
  - assert (∀ ws, (∀ x, x ∈ ws → busy x = None) → omap busy ws = []) as Homap.
    { induction ws as [|x ws IH]; intros H; [done|]. simpl. rewrite (H x) by by left. apply IH. intros y Hy. apply H. by right. }
    apply Homap. intros x Hin. pose proof (Hw x Hin). by destruct x.
  - intros Hs x Hin. by destruct (Hall x Hin) as [|[_ ?]].
Qed.

Lemma step_closed e p p' : step e p = Some p' → senders p = 0 → worker_event e = true.
Proof. destruct e; cbn; [..|done]; by case_bool_decide. Qed.

Lemma worker_keeps w panics p p' :
  worker_step w panics p = Some p' → senders p' = senders p ∧ accepted p' = accepted p ∧ length (workers p') = length (workers p).
Proof. unfold worker_step. intros H. repeat case_match; simplify_eq; cbn; by rewrite ?length_insert. Qed.

Lemma workers_history ws : ∀ p q,
  forallb worker_event ws = true → history ws p = Some q →
  length ws + work q ≤ work p ∧ senders q = senders p ∧ accepted q = accepted p.
Proof.
  induction ws as [|e ws IH]; intros p q Hw Hh; cbn [history forallb length] in *; [by injection Hh as <-|]. apply andb_true_iff in Hw as [He Hw].
  destruct (step e p) as [p'|] eqn:Hs; [|done]. destruct e as [| | |w panics]; try done.
  destruct (worker_keeps _ _ _ _ Hs) as (<- & <- & _). apply worker_progress in Hs. destruct (IH p' q Hw Hh) as (? & ? & ?). split_and!; [lia|done..].
Qed.

Lemma closed_history es : ∀ p q, history es p = Some q → senders p = 0 → senders q = 0.
Proof.
  induction es as [|e es IH]; intros p q Hh Hz; cbn in Hh; [by injection Hh as <-|]. destruct (step e p) as [p'|] eqn:Hs; [|done].
  pose proof (step_closed _ _ _ Hs Hz). destruct e; try done. apply worker_keeps in Hs as (Hk & _). apply (IH p'); congruence.
Qed.

Lemma work_bound p : work p ≤ 3 * (length (buffer p) + length (workers p)).
Proof. unfold work. induction (workers p) as [|x ws IH]; simpl; [lia|]. destruct x; simpl in *; lia. Qed.

(** C20: The workers always get through.  From any state a pool can be in, the workers can take
    only as many steps as the buffer and they leave work for, and when none can take another
    one, every accepted job has finished; if nobody holds the pool any more, or a worker could
    not be spawned, every worker has then exited. *)
Theorem pool_quiesces size queue_depth spawned es r p0 p ws q :
  new_with_spawner size queue_depth spawned = (r, p0) → history es p0 = Some p →
  forallb worker_event ws = true → history ws p = Some q →
  (length ws ≤ 3 * (length (buffer p) + length (workers p)))%nat ∧
  (at_rest q → accepted q = accepted p ∧ (finished q).*1 ≡ₚ accepted p ∧
     (senders p = 0 → ∀ x, x ∈ workers q → x = Exited) ∧ (is_ok r = false → ∀ x, x ∈ workers q → x = Exited)).
Proof.
  intros Hn Hh Hw Hq. pose proof (new_ok size queue_depth spawned) as H0. pose proof (new_senders _ _ _ _ _ Hn) as [_ Hr]. rewrite Hn in H0.
  pose proof (history_ok _ _ _ _ _ (history_ok _ _ _ _ _ H0 Hh) Hq) as Hok.
  destruct (workers_history _ _ _ Hw Hq) as (Hlen & Hs & Ha). pose proof (work_bound p). split; [lia|]. intros Hrest.
  destruct (rest_done _ _ _ Hok Hrest) as (Hb & Hbusy & Hex). rewrite <-Ha, <-Hs. split_and!; try done.
  - rewrite (po_fifo _ _ _ Hok), Hb, app_nil_r, (po_ran _ _ _ Hok), Hbusy. done.
  - intros Herr. apply Hex. rewrite Hs. eapply closed_history; [exact Hh|auto].
Qed.

End pool.

(** Two workers, three jobs of which the first panics, a full buffer, and the end. *)
Definition sample_events : list (@Event nat) :=
  [WorkerRuns 1 false; Submit 7; WorkerRuns 1 false; Submit 8; Submit 9; WorkerRuns 1 true; WorkerRuns 0 false].
Definition sample_rest : list (@Event nat) :=
  [WorkerRuns 0 false; WorkerRuns 0 false; WorkerRuns 1 false; WorkerRuns 1 false; WorkerRuns 0 false; WorkerRuns 0 false].
Lemma pool_accounts_witness :
  match history sample_events (new_with_spawner 2 1 (λ _, true)).2 with
  | Some p => accepted p = [7; 8] ∧ started p = [7] ∧ buffer p = [8] ∧ finished p = [(7, true)] ∧ length (workers p) = 2 ∧
              (try_execute 9 p).1 = Err 9
  | None => False
  end.
Proof.
  destruct (history _ _) as [p|] eqn:Hh; [|vm_compute in Hh; discriminate Hh].
  destruct (pool_accounts 2 1 (λ _, true) sample_events (Ok tt) _ p eq_refl Hh) as (_ & _ & _ & _ & Hlen & Hheld).
  vm_compute in Hh. injection Hh as <-. do 4 (split; [reflexivity|]). split; [by apply Hlen|].
  apply (proj2 (Hheld ltac:(done)) 9 ltac:(lia) eq_refl).
Defined.

Lemma pool_quiesces_witness :
  match history (sample_events ++ [DropSender]) (new_with_spawner 2 1 (λ _, true)).2 with
  | Some p => match history sample_rest p with
              | Some q => at_rest q ∧ (finished q).*1 ≡ₚ [7; 8] ∧ ∀ x, x ∈ workers q → x = Exited
              | None => False
              end
  | None => False
  end.
Proof.
  destruct (history (_ ++ [DropSender]) _) as [p|] eqn:Hh; [|vm_compute in Hh; discriminate Hh].
  destruct (history sample_rest p) as [q|] eqn:Hq; [|vm_compute in Hh; injection Hh as <-; vm_compute in Hq; discriminate Hq].
  destruct (pool_quiesces 2 1 (λ _, true) _ (Ok tt) _ p sample_rest q eq_refl Hh eq_refl Hq) as (_ & Hrest).
  vm_compute in Hh. injection Hh as <-. vm_compute in Hq. injection Hq as <-.
  assert (at_rest (mk_BlockingPool 1 [] [Exited; Exited] 0 [7; 8] [7; 8] [(7, true); (8, false)])) as Hr.
  { by intros [|[|w]] panics. }
  destruct (Hrest Hr) as (_ & Hfin & Hex & _). split; [exact Hr|]. split; [exact Hfin|exact (Hex eq_refl)].
Defined.

End Pool.
