(* ===== verification/Serving.v ===== *)
(** Serving ([impossible-server/src/runtime.rs]): the scheduler tasks of all models and the
    blocking pool they share, as one system.

    [Scheduler] answers a dispatched batch on the spot and [Pool] runs jobs that mean nothing;
    here a task gives its batches to the pool, which may refuse them, and a worker answers
    them when it has run them.  A task takes one step per iteration of its loops, so that
    workers, arrivals, stop signals and other holders of the pool come in between. *)

From Stdlib Require Import NArith Lia.
From stdpp Require Import base strings list sets.
From S2P Require Import Prelude Core Cancellation Scheduler Pool.
Import Scheduler.

Local Open Scope string_scope.
Local Open Scope list_scope.
Local Open Scope nat_scope.
Local Open Scope rust_scope.

Module Serving.

(** Where a scheduler task is: collecting requests, in the loop over its pending requests, or
    returned. *)
Inductive Phase := Collecting | Draining | Ended.
Record Task := mk_Task { pending : list Request; phase : Phase }.

(** What the pool is given: a batch of the task of a model, or other work (preflights,
    loading). *)
Inductive Job := Batch (i : nat) (rs : list Request) | Other.
Definition job_requests (j : Job) : list Request := match j with Batch _ rs => rs | Other => [] end.

Record System := mk_System {
  pool : @Pool.BlockingPool Job;
  tasks : list Task;
  received : list Request;
  answers : list Response;
}.

Definition is_ended (t : Task) : bool := match phase t with Ended => true | _ => false end.
Definition holding (t : Task) : nat := if is_ended t then 0 else 1.
(** The tasks that still hold their clone of the pool. *)
Definition live (ts : list Task) : nat := sum_list_with holding ts.

Section system.
Context (engine : nat → RuntimeEngine) (model_id : nat → string) (policy : BatchPolicy).

(** What happens, with the views it meets. *)
Inductive Event :=
| Spawns
| Receives (i : nat) (r : Request)
| Due (i : nat)
| Acts (i : nat) (view : View) (views : nat → View)
| Rests (i : nat) (accepting channel_empty : bool) (views : nat → View) (channel : list Request)
| Stops (i : nat) (views : nat → View) (channel : list Request)
| Closes (i : nat)
| Submits
| Clones
| Drops
| Runs (w : nat) (panics : bool) (views : BatchViews).

Definition with_pool (p : Pool.BlockingPool) (s : System) : System := mk_System p (tasks s) (received s) (answers s).
Definition with_task (i : nat) (t : Task) (s : System) : System := mk_System (pool s) (<[i := t]> (tasks s)) (received s) (answers s).
Definition answer (rs : list Response) (s : System) : System := mk_System (pool s) (tasks s) (received s) (answers s ++ rs).
Definition receive (rs : list Request) (s : System) : System := mk_System (pool s) (tasks s) (received s ++ rs) (answers s).

(** For when there is nothing to look at. *)
Definition no_view : View := mk_View empty_store 0 false.

(** Someone besides the tasks holds the pool. *)
Definition held_elsewhere (s : System) : bool := (live (tasks s) <? Pool.senders (pool s))%nat.

(** [dispatch_batch]: the pool takes the job, or gives it back and its requests fail. *)
Definition dispatch_batch (i : nat) (views : nat → View) (requests : list Request) (s : System) : System :=
  match Pool.try_execute (Batch i requests) (pool s) with
  | (Ok _, p) => with_pool p s
  | (Err _, _) => answer (fail_requests views QueueFull requests) s
  end.

(** The end of [run_scheduler]: what is pending and what the closed channel still holds
    fails, and the task's clone of the pool is dropped. *)
Definition finish (i : nat) (q : list Request) (views : nat → View) (channel : list Request) (s : System) : System :=
  let s := with_task i (mk_Task [] Ended) (receive channel s) in
  with_pool (Pool.with_senders (pred (Pool.senders (pool s))) (pool s))
    (answer (fail_requests views ModelUnavailable q ++ fail_requests views ModelUnavailable channel) s).

(** One iteration of [while !pending.is_empty()] of [run_scheduler]. *)
Definition drain_step (i : nat) (first : Request) (q : list Request) (view : View) (views : nat → View) (s : System) : System :=
  match active view first with
  | Err e => answer [(rid first, Err e)] (with_task i (mk_Task q Draining) s)
  | Ok _ =>
    let '(requests, rest) := form_batch policy first q in
    dispatch_batch i views requests (with_task i (mk_Task rest Draining) s)
  end.

(** The job a worker is about to end, and its answers. *)
Definition running_job (w : nat) (s : System) : option Job :=
  match Pool.workers (pool s) !! w with Some (Pool.Busy j) => Some j | _ => None end.
Definition job_answers (views : BatchViews) (j : Job) : list Response :=
  match j with Batch i rs => execute_batch (E := engine i) views (model_id i) rs | Other => [] end.

Definition step (e : Event) (s : System) : option System :=
  match e with
  | Spawns =>
    if held_elsewhere s
    then Some (mk_System (Pool.with_senders (S (Pool.senders (pool s))) (pool s)) (tasks s ++ [mk_Task [] Collecting]) (received s) (answers s))
    else None
  | Receives i r =>
    match tasks s !! i with
    | Some (mk_Task q Collecting) => Some (with_task i (mk_Task (q ++ [r]) Collecting) (receive [r] s))
    | _ => None
    end
  | Due i =>
    match tasks s !! i with
    | Some (mk_Task q Collecting) => Some (with_task i (mk_Task (sort_by_sequence q) Draining) s)
    | _ => None
    end
  | Acts i view views =>
    match tasks s !! i with
    | Some (mk_Task (first :: q) Draining) => Some (drain_step i first q view views s)
    | _ => None
    end
  | Rests i accepting channel_empty views channel =>
    match tasks s !! i with
    | Some (mk_Task [] Draining) =>
      Some (if negb accepting && channel_empty then finish i [] views channel s else with_task i (mk_Task [] Collecting) s)
    | _ => None
    end
  | Stops i views channel =>
    match tasks s !! i with
    | Some (mk_Task q Collecting) => Some (finish i q views channel s)
    | _ => None
    end
  | Closes i =>
    match tasks s !! i with
    | Some (mk_Task [] Collecting) => Some (finish i [] (λ _, no_view) [] s)
    | _ => None
    end
  | Submits => if held_elsewhere s then Some (with_pool (Pool.try_execute Other (pool s)).2 s) else None
  | Clones => if held_elsewhere s then Some (with_pool (Pool.with_senders (S (Pool.senders (pool s))) (pool s)) s) else None
  | Drops => if held_elsewhere s then Some (with_pool (Pool.with_senders (pred (Pool.senders (pool s))) (pool s)) s) else None
  | Runs w panics views =>
    match Pool.worker_step w panics (pool s) with
    | Some p => Some (answer (from_option (job_answers views) [] (running_job w s)) (with_pool p s))
    | None => None
    end
  end.

Fixpoint history (es : list Event) (s : System) : option System :=
  match es with
  | [] => Some s
  | e :: es => match step e s with Some s => history es s | None => None end
  end.

(** * The invariant *)

(** The jobs the pool has not ended yet, and their requests. *)
Definition unfinished (p : @Pool.BlockingPool Job) : list Job := Pool.buffer p ++ omap Pool.busy (Pool.workers p).
Definition in_pool (p : @Pool.BlockingPool Job) : list Request := unfinished p ≫= job_requests.
Definition waiting (s : System) : list Request := (tasks s ≫= pending) ++ in_pool (pool s).

(** The answers are one for each request that was received and does not wait, and every success
    is contractual. *)
Record accounted (rs : list Request) (out : list Response) (wait : list Request) : Prop := {
  ac_once : ∃ done, rs ≡ₚ done ++ wait ∧ fst <$> out ≡ₚ rid <$> done;
  ac_true : ∀ i o, (i, Ok o) ∈ out → ∃ r, r ∈ rs ∧ rid r = i ∧ answer_ok r o;
}.

#[global] Instance accounted_proper rs out : Proper ((≡ₚ) ==> iff) (accounted rs out).
Proof. intros w w' Hw. split; intros [(dn & H1 & H2) Ht]; (split; [|done]); exists dn; by rewrite H1, Hw. Qed.

Record system_ok (s : System) : Prop := {
  so_pool : ∃ size depth, Pool.pool_ok size depth (pool s);
  so_held : (live (tasks s) ≤ Pool.senders (pool s))%nat;
  so_ended : Forall (λ t, is_ended t = true → pending t = []) (tasks s);
  so_accounts : accounted (received s) (answers s) (waiting s);
}.

Lemma accounted_answer rs out now wait more :
  accounted rs out (now ++ wait) → fst <$> more ≡ₚ rid <$> now →
  (∀ i o, (i, Ok o) ∈ more → ∃ r, r ∈ now ∧ rid r = i ∧ answer_ok r o) → accounted rs (out ++ more) wait.
Proof.
  intros [(dn & H1 & H2) Ht] Hm Hmt. split.
  - exists (dn ++ now). rewrite <-app_assoc, H1, !fmap_app, H2, Hm. done.
  - intros i o [Ho|Ho]%elem_of_app; [by apply Ht|]. destruct (Hmt i o Ho) as (r & Hr & H). exists r. split; [|done].
    rewrite H1. set_solver.
Qed.
Lemma accounted_refusal rs out now wait views code :
  accounted rs out (now ++ wait) → accounted rs (out ++ fail_requests views code now) wait.
Proof. intros H. eapply accounted_answer; [exact H|by rewrite fail_requests_rids|]. by intros i o ?%fail_requests_Err. Qed.
Lemma accounted_receive rs out wait more : accounted rs out wait → accounted (rs ++ more) out (more ++ wait).
Proof.
  intros [(dn & H1 & H2) Ht]. split.
  - exists dn. split; [|done]. rewrite H1. solve_Permutation.
  - intros i o Ho. destruct (Ht i o Ho) as (r & Hr & H). exists r. split; [set_solver|done].
Qed.

(** A worker moves a job from the buffer to itself, and ends the one it runs. *)
Lemma worker_unfinished w panics p p' :
  Pool.worker_step w panics p = Some p' →
  unfinished p ≡ₚ option_list (Pool.workers p !! w ≫= Pool.busy) ++ unfinished p'.
Proof.
  unfold Pool.worker_step, unfinished. intros H. destruct (Pool.workers p !! w) as [old|] eqn:Hw; [|done].
  pose proof (λ new, Pool.omap_insert_perm (Pool.workers p) w old new Hw) as Hb.
  destruct old as [| |job|]; simpl; [| | |done].
  - case_match; [done|]. simplify_eq/=. by rewrite <-(Hb Pool.Receiving).
  - destruct (Pool.buffer p) as [|job rest] eqn:Hbuf; [case_bool_decide; [|done]|]; simplify_eq/=.
    + by rewrite Hbuf, <-(Hb Pool.Exited).
    + rewrite <-(Hb (Pool.Busy job)). simpl. by rewrite Permutation_middle.
  - simplify_eq/=. rewrite (Hb Pool.Idle). simpl. by rewrite Permutation_middle.
Qed.

Lemma job_answers_rids views j : fst <$> job_answers views j ≡ₚ rid <$> job_requests j.
Proof. destruct j as [i rs|]; [|done]. apply (dispatch_rids true). Qed.

Lemma job_answers_true views j i out : (i, Ok out) ∈ job_answers views j → ∃ r, r ∈ job_requests j ∧ rid r = i ∧ answer_ok r out.
Proof.
  destruct j as [k rs|]; [|by intros ?%elem_of_nil]. simpl. intros H.
  apply execute_batch_Ok in H as (live & pre & r & post & eng & ctl & opts & v & Hsub & -> & Hr & _ & _ & _ & Hok & _).
  exists r. split_and!; [|done|done]. eapply elem_of_sublist; [|exact Hsub]. set_solver.
Qed.

(** ** The parts of a step *)

Lemma task_accounts i old new s :
  tasks s !! i = Some old →
  pending old ++ waiting (with_task i new s) ≡ₚ pending new ++ waiting s.
Proof. intros Hi. unfold waiting. simpl. by rewrite !app_assoc, (bind_insert pending _ _ _ _ Hi). Qed.

Lemma live_insert i old new ts :
  ts !! i = Some old → live (<[i := new]> ts) + holding old = live ts + holding new.
Proof. apply sum_insert. Qed.

Lemma ended_insert i new ts :
  Forall (λ t, is_ended t = true → pending t = []) ts → (is_ended new = true → pending new = []) →
  Forall (λ t, is_ended t = true → pending t = []) (<[i := new]> ts).
Proof. intros H Hn. by apply Forall_insert. Qed.

(** Giving a job to the pool, on a pool that someone holds. *)
Lemma pool_submits j p size depth :
  Pool.pool_ok size depth p → Pool.senders p ≠ 0 →
  Pool.pool_ok size depth (Pool.try_execute j p).2 ∧ Pool.senders (Pool.try_execute j p).2 = Pool.senders p ∧
  in_pool (Pool.try_execute j p).2 ≡ₚ (if is_ok (Pool.try_execute j p).1 then job_requests j else []) ++ in_pool p.
Proof.
  intros Hp Hs. split_and!.
  - apply (Pool.step_ok size depth (Pool.Submit j) p); [done|]. simpl. by case_bool_decide.
  - unfold Pool.try_execute. by destruct (_ || _).
  - unfold Pool.try_execute, in_pool, unfinished. destruct (_ || _); simpl; [done|]. rewrite !bind_app. cbn. rewrite app_nil_r. solve_Permutation.
Qed.

Lemma pool_senders n (p : @Pool.BlockingPool Job) size depth :
  Pool.pool_ok size depth p → Pool.senders p ≠ 0 → Pool.pool_ok size depth (Pool.with_senders n p).
Proof. intros [] Hs. split; simpl; try done. intros He. by destruct (po_exit He). Qed.

Lemma dispatch_ok i views rs s :
  Pool.senders (pool s) ≠ 0 → (∃ size depth, Pool.pool_ok size depth (pool s)) → (live (tasks s) ≤ Pool.senders (pool s))%nat →
  Forall (λ t, is_ended t = true → pending t = []) (tasks s) →
  accounted (received s) (answers s) (rs ++ waiting s) → system_ok (dispatch_batch i views rs s).
Proof.
  intros Hs (size & depth & Hp) Hl He Ha. unfold dispatch_batch. destruct (pool_submits (Batch i rs) _ _ _ Hp Hs) as (Hp' & Hs' & Hin).
  destruct (Pool.try_execute (Batch i rs) (pool s)) as [[[]|j] p'] eqn:Ht; simpl in *.
  - split; simpl; [by eauto|by rewrite Hs'|done|]. unfold waiting in *. simpl. rewrite Hin.
    by rewrite (Permutation_app_comm rs), <-!app_assoc, (Permutation_app_comm (in_pool (pool s))) in Ha.
  - split; simpl; [by eauto|done|done|]. by apply accounted_refusal.
Qed.

Lemma finish_ok i q ph views channel s :
  system_ok s → tasks s !! i = Some (mk_Task q ph) → ph ≠ Ended → system_ok (finish i q views channel s).
Proof.
  intros [(size & depth & Hp) Hl He Ha] Hi Hph. pose proof (live_insert i _ (mk_Task [] Ended) _ Hi) as Hlive.
  assert (holding (mk_Task q ph) = 1) as Hold by by destruct ph. rewrite Hold in Hlive. change (holding (mk_Task [] Ended)) with 0 in Hlive.
  unfold finish. split; simpl.
  - exists size, depth. apply pool_senders; [done|lia].
  - lia.
  - by apply ended_insert.
  - rewrite app_assoc. apply accounted_refusal, accounted_refusal. rewrite Permutation_app_swap_app. apply accounted_receive.
    pose proof (task_accounts i _ (mk_Task [] Ended) s Hi) as Hw. unfold waiting in *. simpl in Hw. by rewrite Hw.
Qed.

(** Moving a request between a task and nowhere else. *)
Lemma retask_ok i old new s :
  system_ok s → tasks s !! i = Some old → is_ended old = false → is_ended new = false →
  pending new ≡ₚ pending old → system_ok (with_task i new s).
Proof.
  intros [Hp Hl He Ha] Hi Ho Hn Hq. pose proof (live_insert i old new _ Hi) as Hlive. unfold holding in Hlive. rewrite Ho, Hn in Hlive.
  split; simpl; [done|lia|by apply ended_insert; [|congruence]|].
  pose proof (task_accounts i old new s Hi) as Hw. rewrite Hq in Hw. apply Permutation_app_inv_l in Hw. by rewrite Hw.
Qed.

Lemma drain_step_ok i first q view views s :
  policy_sized policy → system_ok s → tasks s !! i = Some (mk_Task (first :: q) Draining) →
  system_ok (drain_step i first q view views s).
Proof.
  intros Hsized [Hp Hl He Ha] Hi. unfold drain_step.
  assert (∀ rest, live (<[i := mk_Task rest Draining]> (tasks s)) = live (tasks s)) as Hlive.
  { intros rest. pose proof (live_insert i _ (mk_Task rest Draining) _ Hi). simpl in *. unfold holding in *. simpl in *. lia. }
  assert (∀ rest, Forall (λ t, is_ended t = true → pending t = []) (<[i := mk_Task rest Draining]> (tasks s))) as Hend.
  { intros rest. by apply ended_insert. }
  assert (Pool.senders (pool s) ≠ 0) as Hs.
  { pose proof (live_insert i _ (mk_Task [] Ended) _ Hi) as H. unfold holding in H. simpl in H. lia. }
  assert (∀ now rest, first :: q ≡ₚ now ++ rest →
    accounted (received s) (answers s) (now ++ waiting (with_task i (mk_Task rest Draining) s))) as Hnow.
  { intros now rest Hperm. pose proof (task_accounts i _ (mk_Task rest Draining) s Hi) as Hw. simpl in Hw.
    change (first :: q ++ waiting (with_task i (mk_Task rest Draining) s)) with
      ((first :: q) ++ waiting (with_task i (mk_Task rest Draining) s)) in Hw.
    rewrite Hperm, (Permutation_app_comm now rest), <-app_assoc in Hw. apply Permutation_app_inv_l in Hw. by rewrite Hw. }
  destruct (active view first) as [[]|e].
  - destruct (form_batch_spec policy first q Hsized) as (taken & skipped & -> & []).
    apply dispatch_ok; simpl; [done|done|by rewrite Hlive|done|]. apply (Hnow (first :: taken) skipped). simpl. by rewrite sr_perm0.
  - split; simpl; [done|by rewrite Hlive|done|]. eapply accounted_answer; [by apply (Hnow [first] q)|done|].
    by intros j o ?%list_elem_of_singleton.
Qed.

Lemma system_step_ok e s s' : policy_sized policy → system_ok s → step e s = Some s' → system_ok s'.
Proof.
  intros Hsized Hok Hs. pose proof Hok as [(size & depth & Hp) Hl He Ha].
  assert (held_elsewhere s = true → live (tasks s) < Pool.senders (pool s)) as Hheld by by intros ?%Nat.ltb_lt.
  destruct e as [|i r|i|i view views|i acc ce views channel|i views channel|i| | | |w panics views]; cbn [step] in Hs.
  - destruct (held_elsewhere s); [|done]. specialize (Hheld eq_refl). simplify_eq. split; simpl.
    + exists size, depth. apply pool_senders; [done|lia].
    + unfold live in *. rewrite sum_list_with_app. simpl. lia.
    + apply Forall_app. split; [done|]. by constructor.
    + unfold waiting in *. simpl. rewrite bind_app. cbn. by rewrite app_nil_r.
  - destruct (tasks s !! i) as [[q []]|] eqn:Hi; simplify_eq.
    pose proof (live_insert i _ (mk_Task (q ++ [r]) Collecting) _ Hi) as Hlive. unfold holding in Hlive. simpl in Hlive.
    split; simpl; [by eauto|lia|by apply ended_insert|]. pose proof (task_accounts i _ (mk_Task (q ++ [r]) Collecting) s Hi) as Hw.
    simpl in Hw. rewrite <-app_assoc in Hw. apply Permutation_app_inv_l in Hw. unfold waiting in *. simpl in *. rewrite Hw.
    by apply (accounted_receive _ _ _ [r]).
  - destruct (tasks s !! i) as [[q []]|] eqn:Hi; simplify_eq. eapply retask_ok; [done|exact Hi|done|done|]. apply sort_by_sequence_perm.
  - destruct (tasks s !! i) as [[[|first q] []]|] eqn:Hi; simplify_eq. by apply drain_step_ok.
  - destruct (tasks s !! i) as [[[|first q] []]|] eqn:Hi; simplify_eq. destruct (_ && _); [by eapply finish_ok|].
    by eapply retask_ok.
  - destruct (tasks s !! i) as [[q []]|] eqn:Hi; simplify_eq. by eapply finish_ok.
  - destruct (tasks s !! i) as [[[|first q] []]|] eqn:Hi; simplify_eq. by eapply finish_ok.
  - destruct (held_elsewhere s); [|done]. specialize (Hheld eq_refl). simplify_eq.
    destruct (pool_submits Other _ _ _ Hp) as (Hp' & Hs' & Hin); [lia|]. split; simpl; [by eauto|lia|done|].
    unfold waiting in *. simpl. rewrite Hin. by destruct (is_ok _).
  - destruct (held_elsewhere s); [|done]. specialize (Hheld eq_refl). simplify_eq. split; simpl; [|lia|done|done].
    exists size, depth. apply pool_senders; [done|lia].
  - destruct (held_elsewhere s); [|done]. specialize (Hheld eq_refl). simplify_eq. split; simpl; [|lia|done|done].
    exists size, depth. apply pool_senders; [done|lia].
  - destruct (Pool.worker_step w panics (pool s)) as [p'|] eqn:Hw; simplify_eq. pose proof (worker_unfinished _ _ _ _ Hw) as Hun.
    split; simpl; [exists size, depth; by eapply Pool.worker_step_ok|by apply Pool.worker_keeps in Hw as (-> & _)|done|].
    assert (running_job w s = Pool.workers (pool s) !! w ≫= Pool.busy) as Hrun.
    { unfold running_job. by destruct (Pool.workers (pool s) !! w) as [[]|]. }
    rewrite Hrun. unfold waiting in *. simpl. unfold in_pool in *. rewrite Hun, bind_app in Ha.
    destruct (Pool.workers (pool s) !! w ≫= Pool.busy) as [j|]; simpl in *; [|by rewrite app_nil_r].
    rewrite app_nil_r in Ha. eapply (accounted_answer _ _ (job_requests j)); [by rewrite Permutation_app_swap_app|apply job_answers_rids|apply job_answers_true].
Qed.

Lemma system_history_ok es : ∀ s s', policy_sized policy → system_ok s → history es s = Some s' → system_ok s'.
Proof.
  induction es as [|e es IH]; intros s s' Hsized Hok Hh; cbn [history] in Hh; [by simplify_eq|].
  destruct (step e s) as [s1|] eqn:Hs; [|done]. eauto using system_step_ok.
Qed.

(** * Coming to rest *)

Definition settled (s : System) : Prop := Forall (λ t, is_ended t = true) (tasks s) ∧ Pool.at_rest (pool s).

Lemma settled_waiting s : system_ok s → settled s → waiting s = [].
Proof.
  intros [(size & depth & Hp) _ He _] [Ht Hr]. destruct (Pool.rest_done _ _ _ Hp Hr) as (Hb & Hw & _).
  unfold waiting, in_pool, unfinished. rewrite Hb, Hw, app_nil_r. clear Hr Hb Hw Hp.
  induction Ht as [|t ts Ht Hts IH]; [done|]. apply Forall_cons in He as [He1 He]. cbn. rewrite (He1 Ht). by apply IH.
Qed.

Lemma history_app es1 es2 s : history (es1 ++ es2) s = history es1 s ≫= history es2.
Proof. revert s. induction es1 as [|e es IH]; intros s; [done|]. cbn [app history]. by destruct (step e s). Qed.

(** [s'] comes after [s] without anything new being received. *)
Definition winds_down (s s' : System) : Prop := (∃ es, history es s = Some s') ∧ received s' = received s.
Lemma winds_refl s : winds_down s s.
Proof. split; [by exists []|done]. Qed.
Lemma winds_trans s1 s2 s3 : winds_down s1 s2 → winds_down s2 s3 → winds_down s1 s3.
Proof.
  intros [[es1 H1] R1] [[es2 H2] R2]. split; [|congruence]. exists (es1 ++ es2). by rewrite history_app, H1.
Qed.
Lemma winds_step e s s' : step e s = Some s' → received s' = received s → winds_down s s'.
Proof. intros Hs Hr. split; [|done]. exists [e]. cbn [history]. by rewrite Hs. Qed.

(** A task in its drain loop gets through it. *)
Lemma drains i q : ∀ s, policy_sized policy → tasks s !! i = Some (mk_Task q Draining) →
  ∃ s', winds_down s s' ∧ tasks s' = <[i := mk_Task [] Draining]> (tasks s).
Proof.
  induction q as [q IH] using (induction_ltof1 _ (@length Request)). intros s Hsized Hi.
  destruct q as [|first q]; [exists s; split; [apply winds_refl|by rewrite list_insert_id]|].
  assert (∃ rest, length rest ≤ length q ∧ let s1 := drain_step i first q no_view (λ _, no_view) s in
    tasks s1 = <[i := mk_Task rest Draining]> (tasks s) ∧ received s1 = received s) as (rest & Hlen & Ht & Hr).
  { unfold drain_step. destruct (active no_view first) as [[]|e]; [|by exists q].
    destruct (form_batch_spec policy first q Hsized) as (taken & skipped & -> & []). exists skipped.
    split; [by apply sublist_length|]. unfold dispatch_batch. by destruct (Pool.try_execute _ _) as [[[]|] ?]. }
  destruct (IH rest) with (s := drain_step i first q no_view (λ _, no_view) s) as (s' & Hw & Hs').
  - unfold ltof. simpl. lia.
  - done.
  - rewrite Ht. apply list_lookup_insert_eq. by eapply lookup_lt_Some.
  - exists s'. split; [|by rewrite Hs', Ht, list_insert_insert_eq].
    eapply winds_trans; [|exact Hw]. apply (winds_step (Acts i no_view (λ _, no_view))); [|done]. cbn [step]. by rewrite Hi.
Qed.

Lemma task_ends i t s : policy_sized policy → system_ok s → tasks s !! i = Some t →
  ∃ s', winds_down s s' ∧ tasks s' = <[i := mk_Task [] Ended]> (tasks s).
Proof.
  intros Hsized Hok Hi. destruct t as [q []].
  - exists (finish i q (λ _, no_view) [] s). split; [|done]. apply (winds_step (Stops i (λ _, no_view) [])); [cbn [step]; by rewrite Hi|].
    simpl. apply app_nil_r.
  - destruct (drains i q s Hsized Hi) as (s1 & Hw & Ht). exists (finish i [] (λ _, no_view) [] s1).
    assert (tasks s1 !! i = Some (mk_Task [] Draining)) as Hi1.
    { rewrite Ht. apply list_lookup_insert_eq. by eapply lookup_lt_Some. }
    split; [|simpl; by rewrite Ht, list_insert_insert_eq]. eapply winds_trans; [exact Hw|].
    apply (winds_step (Rests i false true (λ _, no_view) [])); [cbn [step]; by rewrite Hi1|]. simpl. apply app_nil_r.
  - exists s. split; [apply winds_refl|]. pose proof (so_ended _ Hok) as He. rewrite Forall_lookup in He. specialize (He i _ Hi eq_refl).
    simpl in He. subst q. by rewrite list_insert_id.
Qed.

Lemma winds_ok s s' : policy_sized policy → system_ok s → winds_down s s' → system_ok s'.
Proof. intros Hsized Hok [[es He] _]. by eapply system_history_ok. Qed.

Lemma tasks_end s : policy_sized policy → system_ok s →
  ∃ s', winds_down s s' ∧ Forall (λ t, is_ended t = true) (tasks s').
Proof.
  intros Hsized Hok.
  assert (∀ n, n ≤ length (tasks s) → ∃ s', winds_down s s' ∧ length (tasks s') = length (tasks s) ∧
    ∀ i t, i < n → tasks s' !! i = Some t → is_ended t = true) as Hn.
  { induction n as [|n IH]; intros Hle; [exists s; split_and!; [apply winds_refl|done|lia]|].
    destruct IH as (s1 & Hw & Hlen & He); [lia|]. destruct (lookup_lt_is_Some_2 (tasks s1) n) as [t Ht]; [lia|].
    destruct (task_ends n t s1 Hsized (winds_ok _ _ Hsized Hok Hw) Ht) as (s2 & Hw2 & Ht2). exists s2.
    split_and!; [by eapply winds_trans|by rewrite Ht2, length_insert|]. intros i u Hi Hu. rewrite Ht2 in Hu.
    destruct (decide (i = n)) as [->|]; [|rewrite list_lookup_insert_ne in Hu by done; apply (He i); [lia|done]].
    rewrite list_lookup_insert_eq in Hu by by eapply lookup_lt_Some. by simplify_eq. }
  destruct (Hn (length (tasks s))) as (s' & Hw & Hlen & He); [done|]. exists s'. split; [done|].
  apply Forall_lookup. intros i t Hi. apply (He i); [|done]. rewrite <-Hlen. by eapply lookup_lt_Some.
Qed.

Lemma workers_rest s : ∃ s', winds_down s s' ∧ tasks s' = tasks s ∧ Pool.at_rest (pool s').
Proof.
  remember (Pool.work (pool s)) as n eqn:Hn. revert s Hn. induction (lt_wf n) as [n _ IH]. intros s ->.
  destruct (existsb (λ w, bool_decide (is_Some (Pool.worker_step w true (pool s)))) (seq 0 (length (Pool.workers (pool s))))) eqn:He.
  - apply existsb_exists in He as (w & _ & Hw). destruct (Pool.worker_step w true (pool s)) as [p'|] eqn:Hs; [|done].
    set (s1 := answer (from_option (job_answers (mk_BatchViews (λ _, no_view) no_view (λ _, no_view))) [] (running_job w s)) (with_pool p' s)).
    destruct (IH (Pool.work p')) with (s := s1) as (s' & Hwd & Ht & Hr); [by eapply Pool.worker_progress|done|].
    exists s'. split_and!; [|done|done]. eapply winds_trans; [|exact Hwd].
    apply (winds_step (Runs w true (mk_BatchViews (λ _, no_view) no_view (λ _, no_view)))); [cbn [step]; by rewrite Hs|done].
  - exists s. split_and!; [apply winds_refl|done|]. intros w panics.
    destruct (decide (w < length (Pool.workers (pool s)))) as [Hw|Hw].
    + destruct (Pool.worker_step w true (pool s)) as [p'|] eqn:Hs.
      * rewrite <-not_true_iff_false, existsb_exists in He. destruct He. exists w. rewrite Hs. split; [|done].
        apply list_elem_of_In, elem_of_seq. lia.
      * unfold Pool.worker_step in *. by destruct (Pool.workers (pool s) !! w) as [[]|].
    + unfold Pool.worker_step. by rewrite lookup_ge_None_2 by lia.
Qed.

Lemma initial_ok size depth spawned p0 :
  Pool.new_with_spawner size depth spawned = (Ok tt, p0) → system_ok (mk_System p0 [] [] []).
Proof.
  intros Hn. pose proof (Pool.new_ok (Job := Job) size depth spawned) as Hp. rewrite Hn in Hp.
  split; simpl; [by eauto|lia|done|]. split; [|by intros ? ? ?%elem_of_nil]. exists []. split; [|done].
  unfold waiting, in_pool, unfinished. simpl. unfold Pool.new_with_spawner in Hn. destruct (Pool.spawn_workers spawned 0 size) as [n ok].
  injection Hn as _ <-. simpl. clear. induction n as [|n IH]; [done|exact IH].
Qed.


End system.

(** Two models on one worker whose queue holds one job: the first model's batch is queued, the
    second's is refused, the worker answers the first, and both stop. *)
Definition sample_events : list Event :=
  [Spawns; Spawns; Receives 0 (sample_request 1 "a"); Receives 0 (sample_request 2 "b"); Receives 1 (sample_request 3 "c"); Due 0; Due 1;
   Acts 0 sample_view (λ _, sample_view); Acts 1 sample_view (λ _, sample_view);
   Rests 1 true true (λ _, sample_view) []; Receives 1 (sample_request 4 "d");
   Runs 0 false sample_views; Runs 0 false sample_views; Runs 0 false sample_views;
   Stops 1 (λ _, sample_view) []].


End Serving.
