(* ===== verification/Onnx.v ===== *)
(** The ONNX engine ([impossible-embedding-onnx/src/lib.rs]): loading a verified model under
    lifecycle epochs, prefixes, tokenization, padding, pooling, truncation, normalization,
    preflight costs, and the engine's instance of the scheduler's interface
    ([impossible-server/src/runtime.rs]).

    The tokenizer and the inference session are other crates: they are the classes
    [TokenizerCrate] and [OrtCrate].  A computation that can panic gives an [option], [None]
    for a panic. *)

From Stdlib Require Import NArith ZArith Lia Ascii.
From stdpp Require Import base strings gmap list.
From S2P Require Import Prelude Core Cancellation Std Config Manifest Disk Cache Identity Files Store Staging Float Probe Scheduler.
Import Disk Float Probe.

Local Open Scope string_scope.
Local Open Scope list_scope.
Local Open Scope rust_scope.

Module Onnx.

(** * The crates *)

Record Encoding := mk_Encoding { get_ids : list N; get_attention_mask : list N; get_type_ids : list N }.
Definition encoding_len (e : Encoding) : N := len (get_ids e).

Class TokenizerCrate := {
  Tokenizer : Type;
  tokenizer_from_bytes : string → result string Tokenizer;
  added_tokens : Tokenizer → N;
  with_truncation : N → Tokenizer → result string Tokenizer;
  tokenizer_encode : Tokenizer → string → result string Encoding;
}.

(** [ndarray]'s views: row-major, every index checked against its dimension. *)
Record Array := mk_Array { a_shape : list N; a_data : list f32 }.
Record I64Tensor := mk_I64Tensor { t_shape : list N; t_data : list Z }.

Class OrtCrate := {
  Session : Type;
  commit_from_memory : string → result string Session;
  session_io : Session → GraphIo;
  from_array : list N → list Z → result string I64Tensor;
  session_run : Session → list (string * I64Tensor) → result string (list (string * result string Array));
  prost_decode : string → result string OnnxModelProbe;
}.

(** ** Panics *)

Definition panic_bind {A B} (x : option (result EngineFailure A)) (k : A → option (result EngineFailure B))
    : option (result EngineFailure B) :=
  match x with None => None | Some (Err e) => Some (Err e) | Some (Ok a) => k a end.
Notation "'let!' x ':=' e 'in' k" := (panic_bind e (λ x, k)) (at level 10, x name, e at level 100, k at level 200).
Definition pure {A} (r : result EngineFailure A) : option (result EngineFailure A) := Some r.
(** An operation that panics where it has no value. *)
Definition expect {A} (o : option A) : option (result EngineFailure A) := Ok <$> o.

(** * Failures, prefixes, dimensions *)

Definition ENGINE_NAME : string := "onnx-runtime".

Definition private_error (code : ErrorCode) (operation error : string) : EngineFailure :=
  with_source code (operation +:+ " failed: " +:+ error).
Definition inference_error (error : string) : EngineFailure := private_error InferenceFailed "ONNX inference" error.

Definition apply_prefix (input : string) (prefix : option string) : string :=
  match prefix with
  | None => input
  | Some p => if starts_with p input then input else p +:+ input
  end.

Definition prefix_for (m : Manifest.Manifest) (t : EmbeddingTask) : option string :=
  let p := match t with Query => Manifest.query (Manifest.prefixes m) | Document => Manifest.document (Manifest.prefixes m) end in
  if String.eqb p "" then None else Some p.

Definition validate_dimensions (m : Manifest.Manifest) (requested : option N) : result EngineFailure unit :=
  if is_some_and (λ dimension,
       let requested := default u32_max (try_from u32_max dimension) in
       negb (requested =? Manifest.native (Manifest.dimensions m))%N
       && negb (existsb (N.eqb requested) (Manifest.matryoshka (Manifest.dimensions m)))) requested
  then Err (public InvalidRequest) else Ok tt.

Definition onnx_contract (m : Manifest.Manifest) : result EngineFailure (string * string * OnnxContract) :=
  match Manifest.runtime m with
  | Manifest.Onnx model_file tokenizer_file inputs output pad_token_id normalize =>
    Ok (model_file, tokenizer_file, mk_OnnxContract inputs output pad_token_id normalize)
  | Manifest.CatalogOnly => Err (public ModelUnavailable)
  end.

(** * Vectors *)

(** [output[[row, token, d]]] and [output[[row, d]]] *)
Definition index3 (a : Array) (r t d : N) : option f32 :=
  match a_shape a with
  | [rows; tokens; hidden] =>
    if ((r <? rows) && (t <? tokens) && (d <? hidden))%N then a_data a !! N.to_nat ((r * tokens + t) * hidden + d) else None
  | _ => None
  end.
Definition index2 (a : Array) (r d : N) : option f32 :=
  match a_shape a with
  | [rows; hidden] => if ((r <? rows) && (d <? hidden))%N then a_data a !! N.to_nat (r * hidden + d) else None
  | _ => None
  end.

(** [0..n] *)
Definition range (n : N) : list N := N.of_nat <$> seq 0 (N.to_nat n).

(** [mask.iter().enumerate().filter_map(..)] *)
Fixpoint mask_indices (i : N) (mask : list Z) : list N :=
  match mask with
  | [] => []
  | v :: mask => (if (v =? 0)%Z then [] else [i]) ++ mask_indices (i + 1) mask
  end.

Definition mean_at (output : Array) (row d : N) (indices : list N) : option f32 :=
  '(sum, count) ← foldl (λ acc t, '(sum, count) ← acc; x ← index3 output row t d; Some (f32_add sum x, f32_add count f32_one))
                    (Some (f32_zero, f32_zero)) indices;
  Some (f32_div sum count).

Definition pool_tokens (output : Array) (row hidden : N) (mask : list Z) (pooling : Manifest.Pooling)
    : option (result EngineFailure (list f32)) :=
  let indices := mask_indices 0 mask in
  match indices with
  | [] => Some (Err (public InferenceFailed))
  | first :: _ =>
    expect (match pooling with
            | Manifest.Cls => mapM (λ d, index3 output row first d) (range hidden)
            | Manifest.LastToken => token ← last indices; mapM (λ d, index3 output row token d) (range hidden)
            | Manifest.Mean => mapM (λ d, mean_at output row d indices) (range hidden)
            end)
  end.

(** [iter().sum::<f32>()] starts at negative zero. *)
Definition sum_of_squares (v : list f32) : f32 := foldl f32_add f32_neg_zero ((λ x, f32_mul x x) <$> v).

Definition l2_normalize (v : list f32) : result EngineFailure (list f32) :=
  let n := sum_of_squares v in
  ensure negb (negb (f32_is_finite n) || f32_le n f32_epsilon) else public InferenceFailed in
  Ok ((λ x, f32_div x (f32_sqrt n)) <$> v).

Definition valid_runtime_output_shape (shape : list N) (batch sequence native : N) : bool :=
  match shape with
  | [rows; hidden] => (rows =? batch) && (hidden =? native)
  | [rows; tokens; hidden] => (rows =? batch) && (tokens =? sequence) && (hidden =? native)
  | _ => false
  end%N.

(** The last loop of [run], on one vector. *)
Definition finish_vector (dims : option N) (normalize : bool) (v : list f32) : result EngineFailure (list f32) :=
  ensure forallb f32_is_finite v else public InferenceFailed in
  let? v := match dims with
            | Some d => if (len v <? d)%N then Err (public InferenceFailed) else Ok (take (N.to_nat d) v)
            | None => Ok v
            end in
  if normalize then l2_normalize v else Ok v.

(** * Padding *)

Definition set_at {A} (l : list A) (i : nat) (v : A) : option (list A) :=
  if (i <? length l)%nat then Some (<[i := v]> l) else None.

Record Buffers := mk_Buffers { b_ids : list Z; b_masks : list Z; b_types : list Z }.

(** The inner loop: [column] and the ids from it on. *)
Fixpoint fill_row (row sequence : nat) (e : Encoding) (column : nat) (ids : list N) (b : Buffers) : option Buffers :=
  match ids with
  | [] => Some b
  | id :: ids =>
    let i := (row * sequence + column)%nat in
    b1 ← set_at (b_ids b) i (Z.of_N id);
    m ← get_attention_mask e !! column; b2 ← set_at (b_masks b) i (Z.of_N m);
    t ← get_type_ids e !! column; b3 ← set_at (b_types b) i (Z.of_N t);
    fill_row row sequence e (S column) ids (mk_Buffers b1 b2 b3)
  end.

Fixpoint fill (row sequence : nat) (encodings : list Encoding) (b : Buffers) : option Buffers :=
  match encodings with
  | [] => Some b
  | e :: encodings => b ← fill_row row sequence e 0 (get_ids e) b; fill (S row) sequence encodings b
  end.

(** The three parts of an encoding have one length. *)
Record aligned (e : Encoding) : Prop := {
  al_mask : length (get_attention_mask e) = length (get_ids e);
  al_types : length (get_type_ids e) = length (get_ids e);
}.

(** The reference: rows padded on the right. *)
Definition padded (sequence : nat) (pad : Z) (l : list N) : list Z := (Z.of_N <$> l) ++ replicate (sequence - length l) pad.

Lemma set_at_app {A} (l : list A) x post v i : i = length l → set_at (l ++ x :: post) i v = Some (l ++ v :: post).
Proof.
  intros ->. unfold set_at. rewrite length_app. simpl. destruct (Nat.ltb_spec (length l) (length l + S (length post))); [|lia].
  rewrite insert_app_r_alt by lia. by rewrite Nat.sub_diag.
Qed.

Lemma fill_row_spec row sequence e ids pre A B C pad k :
  aligned e → get_ids e = pre ++ ids →
  length A = (row * sequence + length pre)%nat → length B = length A → length C = length A →
  fill_row row sequence e (length pre) ids
    (mk_Buffers (A ++ replicate (length ids + k) pad) (B ++ replicate (length ids + k) 0%Z) (C ++ replicate (length ids + k) 0%Z)) =
  Some (mk_Buffers (A ++ (Z.of_N <$> ids) ++ replicate k pad)
          (B ++ (Z.of_N <$> drop (length pre) (get_attention_mask e)) ++ replicate k 0%Z)
          (C ++ (Z.of_N <$> drop (length pre) (get_type_ids e)) ++ replicate k 0%Z)).
Proof.
  intros [Hm Ht]. revert pre A B C. induction ids as [|id ids IH]; intros pre A B C He HA HB HC.
  { rewrite app_nil_r in He. subst pre. rewrite !drop_ge by lia. done. }
  assert (length (get_ids e) = length pre + S (length ids))%nat as Hl by (rewrite He, length_app; done).
  destruct (lookup_lt_is_Some_2 (get_attention_mask e) (length pre)) as [m Hmask]; [lia|].
  destruct (lookup_lt_is_Some_2 (get_type_ids e) (length pre)) as [t Htype]; [lia|].
  cbn [fill_row b_ids b_masks b_types length Nat.add replicate]. cbv zeta. rewrite set_at_app by done. cbn [mbind option_bind].
  rewrite Hmask. cbn [mbind option_bind]. rewrite set_at_app by lia. cbn [mbind option_bind]. rewrite Htype. cbn [mbind option_bind].
  rewrite set_at_app by lia. cbn [mbind option_bind].
  rewrite (drop_S _ _ _ Hmask), (drop_S _ _ _ Htype), !fmap_cons.
  specialize (IH (pre ++ [id]) (A ++ [Z.of_N id]) (B ++ [Z.of_N m]) (C ++ [Z.of_N t])).
  assert (length (pre ++ [id]) = S (length pre)) as Hlen by (rewrite length_app; simpl; lia).
  rewrite !Hlen in IH. rewrite <-!app_assoc in IH. cbn [app] in IH |- *.
  apply IH; rewrite ?length_app; simpl; [done|lia|lia|lia].
Qed.

Lemma fill_spec sequence pad encodings row A B C :
  Forall (λ e, aligned e ∧ (length (get_ids e) ≤ sequence)%nat) encodings →
  length A = (row * sequence)%nat → length B = length A → length C = length A →
  fill row sequence encodings
    (mk_Buffers (A ++ replicate (length encodings * sequence) pad) (B ++ replicate (length encodings * sequence) 0%Z)
                (C ++ replicate (length encodings * sequence) 0%Z)) =
  Some (mk_Buffers (A ++ concat ((λ e, padded sequence pad (get_ids e)) <$> encodings))
          (B ++ concat ((λ e, padded sequence 0 (get_attention_mask e)) <$> encodings))
          (C ++ concat ((λ e, padded sequence 0 (get_type_ids e)) <$> encodings))).
Proof.
  revert row A B C. induction encodings as [|e encodings IH]; intros row A B C He HA HB HC; [by rewrite !app_nil_r|].
  apply Forall_cons in He as [[Ha Hle] He]. cbn [fill length Nat.mul]. set (k := (sequence - length (get_ids e))%nat).
  replace (sequence + length encodings * sequence)%nat with (length (get_ids e) + (k + length encodings * sequence))%nat by lia.
  pose proof (fill_row_spec row sequence e (get_ids e) [] A B C pad (k + length encodings * sequence) Ha eq_refl) as Hrow.
  rewrite Nat.add_0_r in Hrow. cbn [length] in Hrow. rewrite (Hrow HA HB HC). cbn [mbind option_bind]. clear Hrow.
  rewrite !drop_0, !replicate_add.
  rewrite !(app_assoc _ (replicate k _)), !(app_assoc A), !(app_assoc B), !(app_assoc C). destruct Ha as [Hm Ht].
  rewrite IH.
  - rewrite <-!app_assoc, !fmap_cons. cbn [concat]. unfold padded. rewrite Hm, Ht. fold k. by rewrite <-!app_assoc.
  - done.
  - rewrite !length_app, length_fmap, length_replicate. lia.
  - rewrite !length_app, !length_fmap, !length_replicate. lia.
  - rewrite !length_app, !length_fmap, !length_replicate. lia.
Qed.

Section engine.
Context {T : TokenizerCrate} {O : OrtCrate}.

(** * A loaded model *)

Record LoadedModel := mk_LoadedModel {
  lm_manifest : Manifest.Manifest;
  lm_contract : OnnxContract;
  lm_tokenizer : Tokenizer;
  lm_truncating_tokenizer : Tokenizer;
  lm_session : Session;
  lm_identity : ResolvedModelIdentity;
}.

Definition max_tokens (m : LoadedModel) : result EngineFailure N :=
  ok_or (try_from usize_max (Manifest.max_tokens (Manifest.tokenizer (lm_manifest m)))) (with_source Internal "out of range").

Definition encode (m : LoadedModel) (text : string) (t : Truncation) : result EngineFailure Encoding :=
  let tokenizer := match t with Reject => lm_tokenizer m | Truncate => lm_truncating_tokenizer m end in
  let? encoding := map_err (private_error InvalidRequest "tokenization") (tokenizer_encode tokenizer text) in
  let? max_tokens := max_tokens m in
  ensure negb (max_tokens <? encoding_len encoding)%N else public InvalidRequest in
  Ok encoding.

Definition sequence_of (encodings : list Encoding) : N := N.max (foldr N.max 0%N (encoding_len <$> encodings)) 1.

(** The inputs of one native call, in the contract's names. *)
Definition session_inputs (c : OnnxContract) (ids masks types : I64Tensor) : list (string * I64Tensor) :=
  (Manifest.input_ids (c_inputs c), ids)
    :: (match Manifest.attention_mask (c_inputs c) with Some name => [(name, masks)] | None => [] end)
    ++ (match Manifest.token_type_ids (c_inputs c) with Some name => [(name, types)] | None => [] end).

(** The rows of the output: as they are, or pooled over their tokens. *)
Definition read_vectors (m : LoadedModel) (output : Array) (batch sequence : N) (masks : list Z)
    : option (result EngineFailure (list (list f32))) :=
  match a_shape output with
  | [rows; hidden] =>
    if (rows =? batch)%N then expect (mapM (λ r, mapM (λ c, index2 output r c) (range hidden)) (range batch))
    else pure (Err (public InferenceFailed))
  | [rows; tokens; hidden] =>
    if ((rows =? batch) && (tokens =? sequence))%N then
      foldr (λ r acc,
        let! v := pool_tokens output r hidden
                    (take (N.to_nat sequence) (drop (N.to_nat (r * sequence)) masks)) (Manifest.pooling (lm_manifest m)) in
        let! vs := acc in pure (Ok (v :: vs))) (pure (Ok [])) (range batch)
    else pure (Err (public InferenceFailed))
  | _ => pure (Err (public InferenceFailed))
  end.

(** [poisoned]: an earlier run panicked while it held the session. *)
Definition run (m : LoadedModel) (poisoned : bool) (encodings : list Encoding) (dims : option N) (normalize : bool)
    : option (result EngineFailure (list (list f32))) :=
  let batch := len encodings in
  let sequence := sequence_of encodings in
  let! capacity := pure (ok_or (checked_mul usize_max batch sequence) (public InvalidRequest)) in
  let n := N.to_nat capacity in
  let! b := expect (fill 0 (N.to_nat sequence) encodings
              (mk_Buffers (replicate n (Z.of_N (c_pad_token_id (lm_contract m)))) (replicate n 0%Z) (replicate n 0%Z))) in
  let shape := [batch; sequence] in
  let! ids := pure (map_err inference_error (from_array shape (b_ids b))) in
  let! masks := pure (map_err inference_error (from_array shape (b_masks b))) in
  let! types := pure (map_err inference_error (from_array shape (b_types b))) in
  let inputs := session_inputs (lm_contract m) ids masks types in
  if poisoned then pure (Err (with_source InferenceFailed "inference session lock is poisoned")) else
  let! outputs := pure (map_err inference_error (session_run (lm_session m) inputs)) in
  let! output := pure (ok_or (snd <$> List.find (λ o, String.eqb (fst o) (c_output (lm_contract m))) outputs) (public InferenceFailed)) in
  let! output := pure (map_err inference_error output) in
  let! native := pure (ok_or (try_from usize_max (Manifest.native (Manifest.dimensions (lm_manifest m)))) (public InferenceFailed)) in
  if negb (valid_runtime_output_shape (a_shape output) batch sequence native) then pure (Err (public InferenceFailed)) else
  let! vectors := read_vectors m output batch sequence (b_masks b) in
  pure (result_map (finish_vector dims normalize) vectors).

(** * The engine *)

Record EngineState := mk_EngineState { epoch : N; loaded : option LoadedModel }.

Definition reserve_transition (s : EngineState) : N * EngineState :=
  let epoch := wrapping_add (epoch s) 1 in (epoch, mk_EngineState epoch (loaded s)).
Definition accepts (s : EngineState) (e : N) : bool := (epoch s =? e)%N.

(** What [self.state()?] gives: the state, or a failure when the lock is poisoned. *)
Definition StateLock := result EngineFailure EngineState.

Definition loaded_model (s : StateLock) : result EngineFailure LoadedModel :=
  let? s := s in ok_or (loaded s) (public ModelUnavailable).

Definition resolved_model_contract (s : StateLock) (requested : RequestedModel) : result EngineFailure (ResolvedModelIdentity * N) :=
  let? m := loaded_model s in
  ensure String.eqb (rm_str requested) (Manifest.canonical_id (lm_manifest m)) else public ModelUnavailable in
  let? d := ok_or (try_from usize_max (Manifest.native (Manifest.dimensions (lm_manifest m)))) (with_source Internal "out of range") in
  ensure negb (d =? 0)%N else public Internal in
  Ok (lm_identity m, d).

(** The loop of [preflight_with_options]. *)
Fixpoint preflight_inputs (m : LoadedModel) (options : EmbedOptions) (max_manifest_tokens : N) (ins : list string)
    (tokens max_sequence_length : N) : result EngineFailure (N * N) :=
  match ins with
  | [] => Ok (tokens, max_sequence_length)
  | text :: ins =>
    let prepared := apply_prefix text (prefix_for (lm_manifest m) (task options)) in
    let? encoding := encode m prepared (truncation options) in
    let length := N.max (encoding_len encoding) 1 in
    ensure negb (max_manifest_tokens <? length)%N else public InvalidRequest in
    let? tokens := ok_or (checked_add usize_max tokens length) (public InvalidRequest) in
    preflight_inputs m options max_manifest_tokens ins tokens (N.max max_sequence_length length)
  end.

Definition preflight_with_options (s : StateLock) (requested : RequestedModel) (batch : EmbeddingBatch) (options : EmbedOptions)
    : result EngineFailure EmbeddingBatchCost :=
  let? m := loaded_model s in
  ensure String.eqb (rm_str requested) (Manifest.canonical_id (lm_manifest m)) else public ModelUnavailable in
  let? _ := validate_dimensions (lm_manifest m) (dimensions options) in
  let? max_manifest_tokens := max_tokens m in
  let? '(tokens, max_sequence_length) := preflight_inputs m options max_manifest_tokens (inputs batch) 0 0 in
  EmbeddingBatchCost_new (len (inputs batch)) tokens max_sequence_length.

(** [active i] is what the [i]-th [control.ensure_active()] answers. *)
Definition embed_with_options (s : StateLock) (poisoned : bool) (requested : RequestedModel) (batch : EmbeddingBatch)
    (active : nat → result EngineFailure unit) (options : EmbedOptions) : option (result EngineFailure EmbeddingOutput) :=
  let! _ := pure (active 0%nat) in
  let! m := pure (loaded_model s) in
  if negb (String.eqb (rm_str requested) (Manifest.canonical_id (lm_manifest m))) then pure (Err (public ModelUnavailable)) else
  let! _ := pure (validate_dimensions (lm_manifest m) (dimensions options)) in
  let! encodings := pure (result_map (λ text,
    encode m (apply_prefix text (prefix_for (lm_manifest m) (task options))) (truncation options)) (inputs batch)) in
  let! usage := pure (EmbeddingUsage_new (encoding_len <$> encodings)) in
  let! _ := pure (active 1%nat) in
  let normalize := default (c_normalize (lm_contract m)) (normalize options) in
  let! vectors := run m poisoned encodings (dimensions options) normalize in
  let! _ := pure (active 2%nat) in
  pure (Ok (mk_EmbeddingOutput vectors (lm_identity m) usage)).

Definition warm (s : StateLock) (poisoned : bool) : option (result EngineFailure unit) :=
  let! m := pure (loaded_model s) in
  let input := default "warmup" (prefix_for (lm_manifest m) Document) in
  let! encoding := pure (encode m input Truncate) in
  let! _ := run m poisoned [encoding] None (c_normalize (lm_contract m)) in
  pure (Ok tt).

End engine.

(** * What a returned vector is *)

Lemma panic_bind_Ok {A B} (x : option (result EngineFailure A)) (k : A → option (result EngineFailure B)) b :
  panic_bind x k = Some (Ok b) ↔ ∃ a, x = Some (Ok a) ∧ k a = Some (Ok b).
Proof. destruct x as [[]|]; naive_solver. Qed.

Lemma pure_Ok {A} (r : result EngineFailure A) a : pure r = Some (Ok a) → r = Ok a.
Proof. unfold pure. naive_solver. Qed.

Lemma expect_Ok {A} (o : option A) a : expect o = Some (Ok a) → o = Some a.
Proof. unfold expect. destruct o; naive_solver. Qed.

(** Taking a successful computation apart. *)
Ltac inv_panic :=
  repeat match goal with
  | H : panic_bind _ _ = Some (Ok _) |- _ => let a := fresh "a" in let Ha := fresh "Ha" in apply panic_bind_Ok in H as (a & Ha & H)
  | H : pure (Err _) = Some (Ok _) |- _ => discriminate H
  | H : pure _ = Some (Ok _) |- _ => apply pure_Ok in H
  | H : expect _ = Some (Ok _) |- _ => apply expect_Ok in H
  | H : ok_or _ _ = Ok _ |- _ => apply ok_or_Ok in H
  end.

Lemma foldl_finite l acc :
  f32_is_finite (foldl f32_add acc l) = true → f32_is_finite acc = true ∧ Forall (λ x, f32_is_finite x = true) l.
Proof.
  revert acc. induction l as [|x l IH]; intros acc H; [done|]. apply IH in H as [H Hl].
  apply add_absorbs in H as [? ?]. by split; [|constructor].
Qed.

(** Normalization keeps vectors finite, though their finiteness is only tested before. *)
Lemma l2_normalize_Ok v w : l2_normalize v = Ok w → len w = len v ∧ forallb f32_is_finite w = true.
Proof.
  unfold l2_normalize. cbv zeta. intros H. apply Config.ensure_Ok in H as [Hn [= <-]]. apply negb_true_iff in Hn.
  apply orb_false_elim in Hn as [Hf Hle]. apply negb_false_iff in Hf. unfold len. rewrite length_fmap. split; [done|].
  apply foldl_finite in Hf as Hall. destruct Hall as [_ Hall]. rewrite Forall_fmap, Forall_forall in Hall.
  apply forallb_forall. intros y Hy. apply list_elem_of_In, list_elem_of_fmap in Hy as (x & -> & Hx).
  apply normalized_finite; [by apply Hall|done|done].
Qed.

Lemma take_finite n v : forallb f32_is_finite v = true → forallb f32_is_finite (take n v) = true.
Proof.
  rewrite <-(take_drop n v) at 1. rewrite forallb_app. by intros [? _]%andb_prop.
Qed.

Lemma finish_vector_Ok dims normalize v w :
  finish_vector dims normalize v = Ok w → len w = default (len v) dims ∧ forallb f32_is_finite w = true.
Proof.
  unfold finish_vector. intros H. apply Config.ensure_Ok in H as [Hf H]. apply bind_Ok in H as (u & Hu & H).
  assert (len u = default (len v) dims ∧ forallb f32_is_finite u = true) as [Hl Hfu].
  { destruct dims as [d|]; simpl; [|by injection Hu as <-]. destruct (N.ltb_spec (len v) d); [done|]. injection Hu as <-.
    split; [|by apply take_finite]. unfold len in *. rewrite length_take. lia. }
  destruct normalize; [|by injection H as <-]. apply l2_normalize_Ok in H as [-> ?]. done.
Qed.

Lemma length_range n : length (range n) = N.to_nat n.
Proof. unfold range. by rewrite length_fmap, length_seq. Qed.

Lemma mapM_len {A B} (f : A → option B) l k : mapM f l = Some k → length k = length l.
Proof. intros H%mapM_Some. by apply Forall2_length in H. Qed.

Lemma pool_tokens_Ok output row hidden mask pooling v :
  pool_tokens output row hidden mask pooling = Some (Ok v) → len v = hidden.
Proof.
  unfold pool_tokens. cbv zeta. destruct (mask_indices 0 mask) as [|i is_]; [done|]. intros H%expect_Ok. unfold len.
  assert (length v = length (range hidden)) as ->; [|rewrite length_range; lia].
  destruct pooling; [exact (mapM_len _ _ _ H)|exact (mapM_len _ _ _ H)|].
  apply bind_Some in H as (t & _ & H). exact (mapM_len _ _ _ H).
Qed.

Section output.
Context {T : TokenizerCrate} {O : OrtCrate}.

Lemma pool_rows_Ok (f : N → option (result EngineFailure (list f32))) l vs :
  foldr (λ r acc, let! v := f r in let! vs := acc in pure (Ok (v :: vs))) (pure (Ok [])) l = Some (Ok vs) →
  Forall2 (λ r v, f r = Some (Ok v)) l vs.
Proof.
  revert vs. induction l as [|r l IH]; intros vs H; simpl in H; inv_panic; [by injection H as <-|].
  injection H as <-. constructor; [done|by apply IH].
Qed.

Lemma read_vectors_Ok m output batch sequence masks native vs :
  valid_runtime_output_shape (a_shape output) batch sequence native = true →
  read_vectors m output batch sequence masks = Some (Ok vs) →
  length vs = N.to_nat batch ∧ Forall (λ v, len v = native) vs.
Proof.
  unfold valid_runtime_output_shape, read_vectors. destruct (a_shape output) as [|rows [|x [|y [|]]]]; try done.
  - intros [-> ->%N.eqb_eq]%andb_prop H%expect_Ok. split; [by rewrite (mapM_len _ _ _ H), length_range|].
    apply mapM_Some in H. clear -H. induction H as [|r v l vs Hv _ IH]; constructor; [|done].
    unfold len. rewrite (mapM_len _ _ _ Hv), length_range. lia.
  - intros [[-> ->]%andb_prop ->%N.eqb_eq]%andb_prop H. cbn [andb] in H. apply pool_rows_Ok in H.
    split; [apply Forall2_length in H; by rewrite <-H, length_range|].
    clear -H. induction H as [|r v l vs Hv _ IH]; constructor; [by apply pool_tokens_Ok in Hv|done].
Qed.

Lemma run_Ok m poisoned encodings dims normalize vs :
  run m poisoned encodings dims normalize = Some (Ok vs) →
  length vs = length encodings ∧
  Forall (λ v, len v = default (Manifest.native (Manifest.dimensions (lm_manifest m))) dims ∧ forallb f32_is_finite v = true) vs.
Proof.
  unfold run. intros H. inv_panic. destruct poisoned; [done|]. inv_panic.
  destruct (negb _) eqn:Hs; [done|]. apply negb_false_iff in Hs. inv_panic.
  match goal with H : try_from _ _ = Some ?n |- _ => assert (n = Manifest.native (Manifest.dimensions (lm_manifest m))) as ->
    by (unfold try_from in H; destruct (_ <=? _)%N; congruence) end.
  match goal with H : read_vectors _ _ _ _ _ = Some (Ok ?raw) |- _ => destruct (read_vectors_Ok _ _ _ _ _ _ _ Hs H) as [Hl Hw] end.
  apply result_map_Ok in H. split; [apply Forall2_length in H; rewrite <-H, Hl; unfold len; lia|].
  clear -H Hw. induction H as [|v w l k Hv _ IH]; constructor; apply Forall_cons in Hw as [H1 H2]; [|by apply IH].
  rewrite <-H1. by eapply finish_vector_Ok.
Qed.

(** How a text is tokenized under the request's options. *)
Definition encode_input (m : LoadedModel) (o : EmbedOptions) (text : string) : result EngineFailure Encoding :=
  encode m (apply_prefix text (prefix_for (lm_manifest m) (task o))) (truncation o).

Record produced (m : LoadedModel) (o : EmbedOptions) (ins : list string) (out : EmbeddingOutput) : Prop := {
  pr_tokens : ∃ encodings, Forall2 (λ text e, encode_input m o text = Ok e) ins encodings ∧
                EmbeddingUsage_new (encoding_len <$> encodings) = Ok (usage out);
  pr_model : out_model out = lm_identity m;
  pr_count : length (vectors out) = length ins;
  pr_vectors : Forall (λ v, len v = default (Manifest.native (Manifest.dimensions (lm_manifest m))) (dimensions o) ∧
                            forallb f32_is_finite v = true) (vectors out);
}.

Lemma embed_Ok s poisoned rq b act o out :
  embed_with_options s poisoned rq b act o = Some (Ok out) →
  ∃ m, loaded_model s = Ok m ∧ rm_str rq = Manifest.canonical_id (lm_manifest m) ∧ produced m o (inputs b) out ∧
       ∀ i, (i < 3)%nat → act i = Ok tt.
Proof.
  unfold embed_with_options. intros H. apply panic_bind_Ok in H as ([] & Ha0 & H). apply panic_bind_Ok in H as (m & Hm & H).
  destruct (negb _) eqn:Hrq; [done|]. apply negb_false_iff, String.eqb_eq in Hrq.
  apply panic_bind_Ok in H as ([] & _ & H). apply panic_bind_Ok in H as (encs & He & H). apply panic_bind_Ok in H as (u & Hu & H).
  apply panic_bind_Ok in H as ([] & Ha1 & H). cbv zeta in H. apply panic_bind_Ok in H as (vs & Hv & H).
  apply panic_bind_Ok in H as ([] & Ha2 & H). inv_panic. injection H as <-. apply result_map_Ok in He.
  apply run_Ok in Hv as [Hl Hf]. exists m. split_and!; [done|done| |].
  - split; [by exists encs|done| |done]. simpl. rewrite Hl. by apply Forall2_length in He.
  - intros [|[|[|i]]] Hi; [done|done|done|lia].
Qed.

(** C27: what the ONNX engine returns is what was asked.  A successful embedding is of the
    loaded model of that name and carries its identity; it has one vector per input, each
    of the requested width, or of the native width when none was requested, and finite
    even after normalization; and the token counts are those of the inputs, prefixed and
    tokenized under the request's options.  The control was active at all three checks. *)
Theorem onnx_output_contract s poisoned rq b act o out :
  embed_with_options s poisoned rq b act o = Some (Ok out) →
  ∃ m, loaded_model s = Ok m ∧ rm_str rq = Manifest.canonical_id (lm_manifest m) ∧ produced m o (inputs b) out ∧
       ∀ i, (i < 3)%nat → act i = Ok tt.
Proof. apply embed_Ok. Qed.

(** ** Preflight *)

Lemma preflight_inputs_Ok m o limit ins : ∀ toks len0 toks' len',
  preflight_inputs m o limit ins toks len0 = Ok (toks', len') →
  ∃ encodings, Forall2 (λ text e, encode_input m o text = Ok e) ins encodings ∧
    toks' = (toks + sum_N ((λ e, N.max (encoding_len e) 1) <$> encodings))%N ∧
    len' = N.max len0 (foldr N.max 0%N ((λ e, N.max (encoding_len e) 1) <$> encodings)) ∧
    Forall (λ e, (N.max (encoding_len e) 1 <= limit)%N) encodings.
Proof.
  induction ins as [|text ins IH]; intros toks len0 toks' len' H; cbn [preflight_inputs] in H.
  { injection H as <- <-. exists []. split_and!; [constructor|simpl; unfold sum_N; simpl; lia|simpl; lia|constructor]. }
  cbv zeta in H. apply bind_Ok in H as (e & He & H). apply Config.ensure_Ok in H as [Hl H]. inv_bool. apply bind_Ok in H as (t & Ht & H).
  apply ok_or_Ok, checked_add_Some in Ht as [-> _]. apply IH in H as (encs & Hf & -> & -> & Hall).
  exists (e :: encs). split_and!; [by constructor| | |by constructor].
  - rewrite fmap_cons. unfold sum_N. simpl. lia.
  - rewrite fmap_cons. simpl. lia.
Qed.

Lemma preflight_Ok s rq b o c :
  preflight_with_options s rq b o = Ok c →
  ∃ m encodings, loaded_model s = Ok m ∧ rm_str rq = Manifest.canonical_id (lm_manifest m) ∧
    Forall2 (λ text e, encode_input m o text = Ok e) (inputs b) encodings ∧
    c = mk_EmbeddingBatchCost (len (inputs b)) (sum_N ((λ e, N.max (encoding_len e) 1) <$> encodings)) (sequence_of encodings) ∧ cost_wf c.
Proof.
  unfold preflight_with_options. intros H. apply bind_Ok in H as (m & Hm & H). apply Config.ensure_Ok in H as [Hrq H].
  apply bind_Ok in H as ([] & _ & H). apply bind_Ok in H as (limit & _ & H). apply bind_Ok in H as ([toks l] & Hp & H).
  apply preflight_inputs_Ok in Hp as (encs & Hf & -> & -> & _). apply EmbeddingBatchCost_new_Ok in H as [-> Hwf].
  exists m, encs. split_and!; [done|by apply String.eqb_eq|done| |done]. rewrite N.add_0_l. f_equal. rewrite N.max_0_l.
  destruct Hwf as (Hi & Hm1 & _). simpl in Hi, Hm1. rewrite N.max_0_l in Hm1. unfold sequence_of.
  clear -Hm1. assert (∀ l : list Encoding, foldr N.max 0%N ((λ e, N.max (encoding_len e) 1) <$> l) =
    match l with [] => 0%N | _ => N.max (foldr N.max 0%N (encoding_len <$> l)) 1 end) as Hmax.
  { intros l. induction l as [|e l IH]; [done|]. rewrite !fmap_cons. cbn [foldr]. rewrite IH. destruct l; [simpl; lia|lia]. }
  rewrite Hmax in *. destruct encs; [lia|done].
Qed.

(** * Under the scheduler *)

Import Scheduler.

(** The validator accepts slices that are what the requests were told. *)
Lemma valid_slices_complete (g : string → N) dims out rs : ∀ bv bt vs,
  vectors out = bv ++ vs → input_tokens (usage out) = bt ++ (g <$> (rs ≫= r_inputs)) → len bt = len bv →
  len vs = batch_items rs → Forall (λ v, len v = dims ∧ forallb f32_is_finite v = true) vs →
  Forall (λ r, identity (contract r) = out_model out ∧ default (native_dimensions (contract r)) (dimensions (options r)) = dims ∧
               tokens (cost r) = sum_N (g <$> r_inputs r)) rs →
  (len bv + batch_items rs <= usize_max)%N → (sum_N (g <$> (rs ≫= r_inputs)) <= u64_max)%N →
  valid_slices out rs (sizes_of rs) (len bv) = Some (len bv + batch_items rs)%N.
Proof.
  induction rs as [|r rs IH]; intros bv bt vs Hv Ht Hbt Hvs Hgood Hrs Hsz Hsum.
  { change (batch_items []) with 0%N. by rewrite N.add_0_r. }
  apply Forall_cons in Hrs as [(Hid & Hd & Htok) Hrs]. rewrite batch_items_cons in Hvs, Hsz.
  change ((r :: rs) ≫= r_inputs) with (r_inputs r ++ (rs ≫= r_inputs)) in Ht, Hsum. rewrite fmap_app in Ht, Hsum. rewrite sum_N_app in Hsum.
  set (n := length (r_inputs r)). assert (len (take n vs) = len (r_inputs r)) as Hn.
  { unfold len in *. rewrite length_take. unfold n. lia. }
  rewrite <-(take_drop n vs) in Hv, Hgood, Hvs. rewrite len_app in Hvs. apply Forall_app in Hgood as [Hg1 Hg2].
  set (v1 := take n vs) in *. set (v2 := drop n vs) in *.
  cbn [sizes_of fmap list_fmap valid_slices]. rewrite bool_decide_eq_true_2 by done. cbn [negb].
  assert (checked_add usize_max (len bv) (len (r_inputs r)) = Some (len bv + len (r_inputs r))%N) as -> by (apply checked_add_Some; lia).
  cbn [mbind option_bind]. rewrite Hv, <-Hn, get_range_mid. cbn [mbind option_bind].
  rewrite Ht, Hn, <-Hbt, <-(len_fmap g (r_inputs r)), get_range_mid. cbn [mbind option_bind]. rewrite Hbt, len_fmap.
  unfold try_from. rewrite Htok, (proj2 (N.leb_le _ _)) by lia. cbn [mbind option_bind].
  assert (checked_sum u64_max (g <$> r_inputs r) = Some (sum_N (g <$> r_inputs r))) as -> by (apply checked_sum_Some; split; [done|lia]).
  cbn [mbind option_bind]. rewrite N.eqb_refl. cbn [negb].
  assert (existsb (λ v, negb (len v =? default (native_dimensions (contract r)) (dimensions (options r)))%N
      || negb (forallb f32_is_finite v)) v1 = false) as ->.
  { rewrite Hd. clear -Hg1. induction Hg1 as [|v l [Hl Hf] _ IH]; [done|]. simpl. by rewrite Hl, Hf, N.eqb_refl. }
  rewrite app_assoc in Hv. rewrite app_assoc in Ht.
  specialize (IH (bv ++ v1) (bt ++ (g <$> r_inputs r)) v2 Hv Ht). rewrite !len_app, len_fmap, Hn in IH.
  rewrite batch_items_cons, N.add_assoc. apply IH; [lia|lia|done|done|lia|lia].
Qed.

(** A request the engine admitted: its contract and its cost are the engine's. *)
Record admitted_by (s : StateLock) (rq : RequestedModel) (o : EmbedOptions) (r : Request) : Prop := {
  ad_options : options r = o;
  ad_contract : resolved_model_contract s rq = Ok (identity (contract r), native_dimensions (contract r));
  ad_cost : preflight_with_options s rq (mk_EmbeddingBatch (r_inputs r)) o = Ok (cost r);
}.

(** The token count of an input. *)
Definition count_of (m : LoadedModel) (o : EmbedOptions) (text : string) : N :=
  match encode_input m o text with Ok e => encoding_len e | Err _ => 0%N end.

Lemma counts_of m o ins encodings :
  Forall2 (λ text e, encode_input m o text = Ok e) ins encodings → encoding_len <$> encodings = count_of m o <$> ins.
Proof. induction 1 as [|t e l k H _ IH]; [done|]. rewrite !fmap_cons, IH. unfold count_of. by rewrite H. Qed.

Lemma contract_Ok s rq i d m :
  loaded_model s = Ok m → resolved_model_contract s rq = Ok (i, d) →
  i = lm_identity m ∧ d = Manifest.native (Manifest.dimensions (lm_manifest m)).
Proof.
  unfold resolved_model_contract. intros ->. cbn [result_bind]. intros H. apply Config.ensure_Ok in H as [_ H].
  apply bind_Ok in H as (n & Hn & H). apply Config.ensure_Ok in H as [_ [= <- <-]]. apply ok_or_Ok in Hn. unfold try_from in Hn.
  destruct (_ <=? _)%N; [|done]. by injection Hn as <-.
Qed.

(** C21: the engine keeps its promises to the scheduler.  Requests admitted on the engine's
    own contract and preflight, whose inputs all have at least one token, run as one native
    batch: if the engine answers at all, the scheduler's validation of the answer against
    every request succeeds, so no caller's result is dropped for disagreeing with what the
    engine had announced. *)
Theorem onnx_output_accepted s poisoned rq act o rs out m :
  loaded_model s = Ok m → identity_is_complete (lm_identity m) = true →
  Forall (admitted_by s rq o) rs → Forall (λ text, count_of m o text ≠ 0%N) (rs ≫= r_inputs) →
  (batch_items rs <= usize_max)%N →
  embed_with_options s poisoned rq (mk_EmbeddingBatch (rs ≫= r_inputs)) act o = Some (Ok out) →
  valid_engine_output out rs (sizes_of rs) = true.
Proof.
  intros Hm Hid Hrs Hne Hsz Hout. apply embed_Ok in Hout as (m' & Hm' & _ & [(encs & Hencs & Hu) Hmod Hcount Hvec] & _).
  rewrite Hm in Hm'. injection Hm' as <-. cbn [inputs] in *. rewrite (counts_of m o _ _ Hencs) in Hu.
  apply EmbeddingUsage_new_Ok in Hu as (_ & Hu & Hsum). unfold valid_engine_output.
  assert (checked_sum usize_max (sizes_of rs) = Some (batch_items rs)) as -> by by apply checked_sum_Some.
  assert (len (vectors out) = batch_items rs) as Hlen.
  { rewrite <-len_bind. unfold len. by rewrite Hcount. }
  rewrite Hlen, Hu. cbn [input_tokens]. rewrite len_fmap, len_bind, N.eqb_refl, Hmod, Hid. cbn [negb orb].
  pose proof (valid_slices_complete (count_of m o) (default (Manifest.native (Manifest.dimensions (lm_manifest m))) (dimensions o))
    out rs [] [] (vectors out)) as Hv. change (len []) with 0%N in Hv. rewrite N.add_0_l in Hv.
  rewrite Hv; [apply N.eqb_refl|done|by rewrite Hu|done|done|done| |done|done].
  clear Hv. rewrite Forall_forall in *. intros r Hr. destruct (Hrs r Hr) as [Ho Hc Hp].
  destruct (contract_Ok _ _ _ _ _ Hm Hc) as [Hi Hn]. rewrite Hi, Hn, Ho, Hmod. split_and!; [done|done|].
  destruct (preflight_Ok _ _ _ _ _ Hp) as (m' & encs' & Hm' & _ & Hencs' & -> & _). rewrite Hm in Hm'. injection Hm' as <-.
  cbn [tokens inputs] in *. rewrite <-(counts_of m o _ _ Hencs'). f_equal.
  assert (Forall (λ text, count_of m o text ≠ 0%N) (r_inputs r)) as Hr0.
  { apply Forall_forall. intros t Ht. rewrite Forall_forall in Hne. apply Hne, list_elem_of_bind. by exists r. }
  clear -Hencs' Hr0. induction Hencs' as [|t e l k He _ IH]; [done|]. apply Forall_cons in Hr0 as [H1 H2].
  rewrite !fmap_cons, IH by done. f_equal. unfold count_of in H1. rewrite He in H1. lia.
Qed.

End output.

(** * No panics *)

Lemma encoding_le_sequence encodings :
  Forall (λ e, (length (get_ids e) ≤ N.to_nat (sequence_of encodings))%nat) encodings.
Proof.
  apply Forall_forall. intros e He. assert (encoding_len e <= foldr N.max 0%N (encoding_len <$> encodings))%N as Hle.
  { induction He as [e l|e e' l _ IH]; rewrite fmap_cons; simpl; lia. }
  unfold sequence_of. unfold encoding_len at 1, len in Hle. lia.
Qed.

(** Padding is exact.  For encodings whose three parts have one length, the loops that
    write the batch tensors never index out of range, and what they leave is every row
    padded on the right to the longest one: ids with the pad token, masks and types with
    zero. *)
Theorem padding_exact encodings pad :
  Forall aligned encodings →
  let sequence := N.to_nat (sequence_of encodings) in
  let n := (length encodings * sequence)%nat in
  fill 0 sequence encodings (mk_Buffers (replicate n pad) (replicate n 0%Z) (replicate n 0%Z)) =
  Some (mk_Buffers (concat ((λ e, padded sequence pad (get_ids e)) <$> encodings))
          (concat ((λ e, padded sequence 0 (get_attention_mask e)) <$> encodings))
          (concat ((λ e, padded sequence 0 (get_type_ids e)) <$> encodings))).
Proof.
  intros Ha. cbv zeta. apply (fill_spec _ pad encodings 0 [] [] []); [|done|done|done].
  pose proof (encoding_le_sequence encodings) as Hl. rewrite Forall_forall in *. auto.
Qed.

Lemma padding_exact_witness :
  fill 0 2 [mk_Encoding [7; 8] [1; 1] [0; 0]; mk_Encoding [9] [1] [0] ]%N
    (mk_Buffers (replicate 4 5%Z) (replicate 4 0%Z) (replicate 4 0%Z)) = Some (mk_Buffers [7; 8; 9; 5] [1; 1; 1; 0] [0; 0; 0; 0])%Z.
Proof.
  apply (padding_exact [mk_Encoding [7; 8] [1; 1] [0; 0]; mk_Encoding [9] [1] [0] ]%N 5). repeat constructor.
Defined.

Definition product (l : list N) : N := foldr N.mul 1%N l.
(** An array has as many elements as its shape says. *)
Definition well_shaped (a : Array) : Prop := len (a_data a) = product (a_shape a).

Lemma index3_Some a r t d rows tokens hidden :
  well_shaped a → a_shape a = [rows; tokens; hidden] → (r < rows)%N → (t < tokens)%N → (d < hidden)%N → is_Some (index3 a r t d).
Proof.
  intros Hw Hs Hr Ht Hd. unfold index3. rewrite Hs, !(proj2 (N.ltb_lt _ _)) by done. cbn [andb]. apply lookup_lt_is_Some_2.
  unfold well_shaped, len in Hw. rewrite Hs in Hw. simpl in Hw.
  assert (r * tokens + t < rows * tokens)%N as H1 by nia. generalize dependent (r * tokens + t)%N. intros x Hx.
  assert (x * hidden + d < rows * (tokens * (hidden * 1)))%N as Hlt by (rewrite N.mul_1_r, N.mul_assoc; nia). rewrite <-Hw in Hlt. clear -Hlt. lia.
Qed.

Lemma index2_Some a r d rows hidden :
  well_shaped a → a_shape a = [rows; hidden] → (r < rows)%N → (d < hidden)%N → is_Some (index2 a r d).
Proof.
  intros Hw Hs Hr Hd. unfold index2. rewrite Hs, !(proj2 (N.ltb_lt _ _)) by done. cbn [andb]. apply lookup_lt_is_Some_2.
  unfold well_shaped, len in Hw. rewrite Hs in Hw. simpl in Hw. assert (r * hidden + d < rows * (hidden * 1))%N as Hlt by nia.
  rewrite <-Hw in Hlt. clear -Hlt. lia.
Qed.

Lemma mapM_total {A B} (f : A → option B) l : (∀ x, x ∈ l → is_Some (f x)) → is_Some (mapM f l).
Proof. intros H. apply mapM_is_Some. by apply Forall_forall. Qed.

Lemma elem_of_range i n : i ∈ range n → (i < n)%N.
Proof. unfold range. intros (k & -> & Hk)%list_elem_of_fmap. apply elem_of_seq in Hk. lia. Qed.

Lemma mask_indices_bound i mask : ∀ j, j ∈ mask_indices i mask → (j < i + len mask)%N.
Proof.
  revert i. induction mask as [|v mask IH]; intros i j Hj; [by apply elem_of_nil in Hj|]. cbn [mask_indices] in Hj.
  rewrite len_cons. apply elem_of_app in Hj as [Hj|Hj]; [|specialize (IH _ _ Hj); lia].
  destruct (v =? 0)%Z; [by apply elem_of_nil in Hj|]. apply list_elem_of_singleton in Hj as ->. lia.
Qed.

Lemma expect_total {A} (o : option A) : is_Some o → is_Some (expect o).
Proof. intros [a ->]. by eexists. Qed.

Lemma mean_total a row d indices :
  (∀ t, t ∈ indices → is_Some (index3 a row t d)) → is_Some (mean_at a row d indices).
Proof.
  intros H. unfold mean_at.
  assert (∀ s c, is_Some (foldl (λ acc t, '(sum, count) ← acc; x ← index3 a row t d; Some (f32_add sum x, f32_add count f32_one))
    (Some (s, c)) indices)) as Hf.
  { induction indices as [|t l IH]; intros s c; [by eexists|]. cbn [foldl mbind option_bind].
    destruct (H t) as [x ->]; [left|]. cbn [mbind option_bind]. apply IH. intros u Hu. apply H. by right. }
  destruct (Hf f32_zero f32_zero) as [[s c] ->]. by eexists.
Qed.

Lemma pool_total a row mask pooling rows tokens hidden :
  well_shaped a → a_shape a = [rows; tokens; hidden] → (row < rows)%N → (len mask <= tokens)%N →
  is_Some (pool_tokens a row hidden mask pooling).
Proof.
  intros Hw Hs Hr Hm. unfold pool_tokens. cbv zeta. destruct (mask_indices 0 mask) as [|i l] eqn:E; [by eexists|].
  assert (∀ t d, t ∈ i :: l → d ∈ range hidden → is_Some (index3 a row t d)) as Hi.
  { intros t d Ht Hd. eapply index3_Some; [done|done|done| |by apply elem_of_range].
    rewrite <-E in Ht. apply mask_indices_bound in Ht. lia. }
  apply expect_total. destruct pooling.
  - apply mapM_total. intros d Hd. apply Hi; [left|done].
  - apply mapM_total. intros d Hd. apply mean_total. intros t Ht. by apply Hi.
  - destruct (last (i :: l)) as [t|] eqn:El; [|by apply last_None in El]. cbn [mbind option_bind].
    apply mapM_total. intros d Hd. apply Hi; [|done]. apply last_Some in El as [l' ->]. apply elem_of_app. right. left.
Qed.

Lemma panic_bind_total {A B} (x : option (result EngineFailure A)) (k : A → option (result EngineFailure B)) :
  is_Some x → (∀ a, x = Some (Ok a) → is_Some (k a)) → is_Some (panic_bind x k).
Proof. intros [[a|e] ->] H; [by apply H|by eexists]. Qed.

Lemma pure_total {A} (r : result EngineFailure A) : is_Some (pure r).
Proof. by eexists. Qed.

Section total.
Context {T : TokenizerCrate} {O : OrtCrate}.

(** Documented of the crates: the parts of an encoding have one length, and an extracted
    array has the elements of its shape. *)
Context (encodings_aligned : ∀ t text e, tokenizer_encode t text = Ok e → aligned e).
Context (arrays_shaped : ∀ se ins outs n a, session_run se ins = Ok outs → (n, Ok a) ∈ outs → well_shaped a).

Lemma read_vectors_total m a batch sequence masks native :
  well_shaped a → valid_runtime_output_shape (a_shape a) batch sequence native = true →
  is_Some (read_vectors m a batch sequence masks).
Proof.
  intros Hw Hs. unfold read_vectors, valid_runtime_output_shape in *. destruct (a_shape a) as [|rows [|x [|y [|]]]] eqn:Es; try done.
  - apply andb_prop in Hs as [->%N.eqb_eq _]. rewrite N.eqb_refl. apply expect_total, mapM_total. intros r Hr.
    apply mapM_total. intros c Hc. eapply index2_Some; [done|done|by apply elem_of_range|by apply elem_of_range].
  - apply andb_prop in Hs as [[->%N.eqb_eq ->%N.eqb_eq]%andb_prop _]. rewrite !N.eqb_refl. cbn [andb].
    assert (Forall (λ r, (r < batch)%N) (range batch)) as Hr by (apply Forall_forall; intros r; apply elem_of_range).
    induction Hr as [|r l Hr _ IH]; cbn [foldr]; [by eexists|]. apply panic_bind_total.
    + eapply pool_total; [done|done|done|]. unfold len. rewrite length_take. lia.
    + intros v _. apply panic_bind_total; [done|]. intros vs _. apply pure_total.
Qed.

Lemma run_total m poisoned encodings dims normalize :
  Forall aligned encodings → is_Some (run m poisoned encodings dims normalize).
Proof.
  intros Ha. unfold run. cbv zeta. apply panic_bind_total; [apply pure_total|]. intros capacity Hc.
  apply pure_Ok, ok_or_Ok, checked_mul_Some in Hc as [-> _]. apply panic_bind_total.
  { apply expect_total. replace (N.to_nat (len encodings * sequence_of encodings)) with (length encodings * N.to_nat (sequence_of encodings))%nat
      by (unfold len; lia).
    eexists. apply (fill_spec _ _ encodings 0 [] [] []); [|done|done|done].
    pose proof (encoding_le_sequence encodings) as Hl. rewrite Forall_forall in *. auto. }
  intros b _. do 3 (apply panic_bind_total; [apply pure_total|intros ? _]). destruct poisoned; [apply pure_total|].
  apply panic_bind_total; [apply pure_total|]. intros outs Ho. apply panic_bind_total; [apply pure_total|]. intros out Hout.
  apply panic_bind_total; [apply pure_total|]. intros arr Harr. apply panic_bind_total; [apply pure_total|]. intros native Hn.
  destruct (negb _) eqn:Hs; [apply pure_total|]. apply negb_false_iff in Hs. apply panic_bind_total; [|intros; apply pure_total].
  eapply read_vectors_total; [|exact Hs]. apply pure_Ok in Ho, Hout, Harr. apply ok_or_Ok in Hout.
  destruct (session_run _ _) as [outs'|] eqn:Hr; [|done]. injection Ho as ->.
  destruct (List.find _ _) as [[name r]|] eqn:Hf; [|done]. cbn in Hout. injection Hout as ->. destruct out as [a'|]; [|done]. injection Harr as ->.
  apply List.find_some in Hf as [Hin _]. eapply arrays_shaped; [exact Hr|]. by apply list_elem_of_In.
Qed.

Lemma encode_aligned m text t e : encode m text t = Ok e → aligned e.
Proof.
  unfold encode. cbv zeta. intros H. apply bind_Ok in H as (e' & He & H). apply bind_Ok in H as (n & _ & H).
  apply Config.ensure_Ok in H as [_ [= ->]]. destruct (tokenizer_encode _ text) as [e'|] eqn:E; [|done]. injection He as ->.
  by eapply encodings_aligned.
Qed.

(** The ONNX engine does not panic.  With encodings whose parts have one length and
    arrays that match their shape, which the tokenizer and the array crates promise, every
    embedding and every warm-up returns: a result or a stable failure, never a panic from
    an index into a tensor, a mask or an output. *)
Theorem onnx_never_panics s poisoned rq b act o :
  is_Some (embed_with_options s poisoned rq b act o) ∧ is_Some (warm s poisoned).
Proof.
  split.
  - unfold embed_with_options. apply panic_bind_total; [apply pure_total|]. intros _ _.
    apply panic_bind_total; [apply pure_total|]. intros m _. destruct (negb _); [apply pure_total|].
    apply panic_bind_total; [apply pure_total|]. intros _ _. apply panic_bind_total; [apply pure_total|]. intros encs He.
    apply panic_bind_total; [apply pure_total|]. intros u _. apply panic_bind_total; [apply pure_total|]. intros _ _. cbv zeta.
    apply panic_bind_total; [|intros; apply panic_bind_total; [apply pure_total|intros; apply pure_total] ].
    apply run_total. apply pure_Ok, result_map_Ok in He. clear -He encodings_aligned.
    induction He as [|t e l k H _ IH]; constructor; [by eapply encode_aligned|done].
  - unfold warm. apply panic_bind_total; [apply pure_total|]. intros m _. cbv zeta.
    apply panic_bind_total; [apply pure_total|]. intros e He. apply panic_bind_total; [|intros; apply pure_total].
    apply run_total. constructor; [|constructor]. apply pure_Ok in He. by eapply encode_aligned.
Qed.

End total.

(** * Loading *)

(** [Path::extension]: what follows the last dot of the file name, if something precedes
    it. *)
Definition extension (relative : string) : option string :=
  match last (Manifest.components relative) with
  | Some (Manifest.Normal name) =>
    match str_split "." name with
    | [] | [_] | [""; _] => None
    | parts => last parts
    end
  | _ => None
  end.

Definition map_failure {A} (f : Manifest.Error → EngineFailure) (p : prog (result Manifest.Error A)) : prog (result EngineFailure A) :=
  prog_bind p (λ r, Ret (map_err f r)).
Definition unavailable (e : Manifest.Error) : EngineFailure := with_source ModelUnavailable (Manifest.Error_display e).

(** Enough for the graphs of the model, see [external_data_rejected]. *)
Definition probe_fuel (decoded : result string OnnxModelProbe) : nat :=
  match decoded with Ok m => S (model_count m) | Err _ => 0 end.

Section loading.
Context {U : UrlCrate} {J : Manifest.JsonCrate} {T : TokenizerCrate} {O : OrtCrate}.
Context (sha256_hex : string → string) (to_vec : Identity.SemanticContract → result string string).
(** [env!("CARGO_PKG_VERSION")] *)
Context (version : string).

Definition safe_artifact_bytes (v : Store.VerifiedModel) (relative ext : string) : prog (result EngineFailure string) :=
  if negb (bool_decide (extension relative = Some ext)) then Ret (Err (public InvalidRequest)) else
  map_failure unavailable (Files.artifact_bytes sha256_hex (Store.vm_manifest v) (Store.vm_root v) relative).

Definition reject_external (bytes : string) : prog (result EngineFailure unit) :=
  let decoded := prost_decode bytes in
  match reject_external_data_graph (probe_fuel decoded) decoded with Some r => Ret r | None => Diverge end.

Definition load_candidate (v : Store.VerifiedModel) : prog (result EngineFailure LoadedModel) :=
  do? _ := map_failure unavailable (Store.revalidate_integrity sha256_hex v) in
  let manifest := Store.vm_manifest v in
  do? files := Ret (onnx_contract manifest) in
  let '(model_file, tokenizer_file, contract) := files in
  do? model_bytes := safe_artifact_bytes v model_file "onnx" in
  do? _ := reject_external model_bytes in
  do? tokenizer_bytes := safe_artifact_bytes v tokenizer_file "json" in
  do? tokenizer := Ret (map_err (private_error ModelUnavailable "tokenizer parse") (tokenizer_from_bytes tokenizer_bytes)) in
  do? max_tokens := Ret (ok_or (try_from usize_max (Manifest.max_tokens (Manifest.tokenizer manifest))) (with_source Internal "out of range")) in
  if (max_tokens <? added_tokens tokenizer)%N then Ret (Err (public InvalidRequest)) else
  do? truncating := Ret (map_err (private_error ModelUnavailable "tokenizer truncation") (with_truncation max_tokens tokenizer)) in
  do? session := Ret (map_err (private_error ModelUnavailable "ONNX load") (commit_from_memory model_bytes)) in
  do? _ := Ret (validate_graph_contract contract (session_io session) (Manifest.native (Manifest.dimensions manifest))) in
  do? _ := map_failure unavailable (Store.revalidate_integrity sha256_hex v) in
  do? semantic := Ret (map_err (λ e, with_source Internal (Manifest.Error_display e)) (Identity.semantic_fingerprint sha256_hex to_vec manifest)) in
  do? identity := Ret (ResolvedModelIdentity_new (Manifest.canonical_id manifest) (Manifest.revision manifest)
                         (ENGINE_NAME +:+ "@" +:+ version) (Identity.artifact_fingerprint sha256_hex manifest) semantic) in
  Ret (Ok (mk_LoadedModel manifest contract tokenizer truncating session identity)).

(** What a candidate was built from. *)
Record authentic (v : Store.VerifiedModel) (m : LoadedModel) : Prop := {
  au_manifest : lm_manifest m = Store.vm_manifest v;
  au_bytes : ∃ model_bytes tokenizer_bytes a b,
    a ∈ Manifest.artifacts (Store.vm_manifest v) ∧ b ∈ Manifest.artifacts (Store.vm_manifest v) ∧
    str_len model_bytes = Manifest.size a ∧ sha256_hex model_bytes = Manifest.sha256 a ∧
    str_len tokenizer_bytes = Manifest.size b ∧ sha256_hex tokenizer_bytes = Manifest.sha256 b ∧
    commit_from_memory model_bytes = Ok (lm_session m) ∧ tokenizer_from_bytes tokenizer_bytes = Ok (lm_tokenizer m) ∧
    ∃ probe, prost_decode model_bytes = Ok probe ∧ model_external probe = false;
  au_graph : validate_graph_contract (lm_contract m) (session_io (lm_session m)) (Manifest.native (Manifest.dimensions (lm_manifest m))) = Ok tt;
  au_identity : canonical_id (lm_identity m) = Manifest.canonical_id (Store.vm_manifest v) ∧
                artifact_fingerprint (lm_identity m) = Identity.artifact_fingerprint sha256_hex (Store.vm_manifest v) ∧
                Scheduler.identity_is_complete (lm_identity m) = true;
}.

Lemma run_map_failure {A} f (p : prog (result Manifest.Error A)) fates fs a fs' :
  Disk.run fates (map_failure f p) fs = (Finished (Ok a), fs') → Disk.run fates p fs = (Finished (Ok a), fs').
Proof.
  unfold map_failure. intros H. revert fates fs H. induction p as [r|R o c IH|]; intros fates fs H; simpl in *; [|..|done].
  - by destruct r; simplify_eq/=.
  - destruct fates as [|x fates]; [done|]. destruct (react x o fs) as [r s]. by apply IH.
Qed.

Lemma run_ret {A} fates (r : A) fs (a : A) fs' : Disk.run fates (Ret r) fs = (Finished a, fs') → r = a ∧ fs = fs'.
Proof. simpl. intros H. by simplify_eq. Qed.

Lemma safe_artifact_bytes_run v relative ext fates fs bytes fs' :
  Disk.run fates (safe_artifact_bytes v relative ext) fs = (Finished (Ok bytes), fs') →
  ∃ a, a ∈ Manifest.artifacts (Store.vm_manifest v) ∧ Manifest.path a = relative ∧
       str_len bytes = Manifest.size a ∧ sha256_hex bytes = Manifest.sha256 a.
Proof.
  unfold safe_artifact_bytes. destruct (negb _); [done|]. intros H%run_map_failure. by apply Files.artifact_bytes_run in H.
Qed.

Lemma reject_external_run bytes fates fs fs' :
  Disk.run fates (reject_external bytes) fs = (Finished (Ok tt), fs') →
  ∃ probe, prost_decode bytes = Ok probe ∧ model_external probe = false.
Proof.
  unfold reject_external. cbv zeta. destruct (prost_decode bytes) as [probe|e]; [|done].
  rewrite reject_external_exact by (simpl; lia). intros [H _]%run_ret. exists probe. split; [done|].
  by destruct (model_external probe).
Qed.

Lemma load_candidate_run v fates fs m fs' :
  Disk.run fates (load_candidate v) fs = (Finished (Ok m), fs') → authentic v m.
Proof.
  unfold load_candidate. intros H. apply run_try_inv in H as ([] & f1 & s1 & _ & H). cbv zeta in H.
  apply run_try_inv in H as ([[mf tf] c] & f2 & s2 & Hc & H). apply run_ret in Hc as [Hc _].
  apply run_try_inv in H as (mb & f3 & s3 & Hmb & H). apply run_try_inv in H as ([] & f4 & s4 & Hx & H).
  apply run_try_inv in H as (tb & f5 & s5 & Htb & H). apply run_try_inv in H as (tk & f6 & s6 & Htk & H). apply run_ret in Htk as [Htk _].
  apply run_try_inv in H as (mt & f7 & s7 & _ & H). destruct (_ <? _)%N; [done|].
  apply run_try_inv in H as (tr & f8 & s8 & _ & H). apply run_try_inv in H as (se & f9 & s9 & Hse & H). apply run_ret in Hse as [Hse _].
  apply run_try_inv in H as ([] & f10 & s10 & Hg & H). apply run_ret in Hg as [Hg _].
  apply run_try_inv in H as ([] & f11 & s11 & _ & H). apply run_try_inv in H as (sf & f12 & s12 & _ & H).
  apply run_try_inv in H as (i & f13 & s13 & Hi & H). apply run_ret in Hi as [Hi _]. apply run_ret in H as [[= <-] _].
  apply safe_artifact_bytes_run in Hmb as (a & Ha & _ & Ha1 & Ha2). apply safe_artifact_bytes_run in Htb as (b & Hb & _ & Hb1 & Hb2).
  apply reject_external_run in Hx. split; simpl.
  - done.
  - exists mb, tb, a, b. split_and!; try done.
    + by destruct (commit_from_memory mb); simplify_eq/=.
    + by destruct (tokenizer_from_bytes tb); simplify_eq/=.
  - done.
  - unfold ResolvedModelIdentity_new in Hi. destruct (existsb _ _) eqn:E; [done|]. injection Hi as <-. split_and!; [done|done|].
    unfold Scheduler.identity_is_complete. clear -E. apply forallb_forall. intros x Hx. apply negb_true_iff.
    destruct (is_blank x) eqn:Eb; [|done]. rewrite <-not_true_iff_false in E. exfalso. apply E, existsb_exists. by exists x.
Qed.

(** Only authenticated bytes run.  Whatever happens to the disk while a model is loaded,
    if a candidate comes out, its session was built from bytes of exactly the length and
    digest the verified manifest declares for an artifact, its tokenizer likewise, no
    tensor of the model refers to data outside those bytes, the graph is the contract's,
    and the identity it will answer with is the manifest's, complete. *)
Theorem load_is_authentic v fates fs m fs' :
  Disk.run fates (load_candidate v) fs = (Finished (Ok m), fs') → authentic v m.
Proof. apply load_candidate_run. Qed.

End loading.

(** * Lifecycle epochs

    [load] takes the state lock twice, with the candidate built in between, so loads and
    unloads of several threads interleave at those points. *)

Section epochs.
Context {T : TokenizerCrate} {O : OrtCrate}.

Definition load_publish (s : EngineState) (e : N) (candidate : LoadedModel) : result EngineFailure ResolvedModelIdentity * EngineState :=
  if negb (accepts s e) then (Err (public ModelUnavailable), s)
  else (Ok (lm_identity candidate), mk_EngineState (epoch s) (Some candidate)).

Definition engine_unload (s : EngineState) : EngineState := mk_EngineState (snd (reserve_transition s)).(epoch) None.

Definition is_loaded (s : EngineState) : bool := bool_decide (is_Some (loaded s)).

(** The first half of a load of a thread, its second half with the candidate it built
    (nothing happens to the state when building it failed), or an unload. *)
Inductive Event :=
| LoadBegins (thread : nat)
| LoadEnds (thread : nat) (candidate : result EngineFailure LoadedModel)
| Unloads.

Record World := mk_World { engine : EngineState; reserved : gmap nat N }.

Definition step (w : World) (ev : Event) : World :=
  match ev with
  | LoadBegins t => let '(e, s) := reserve_transition (engine w) in mk_World s (<[t := e]> (reserved w))
  | LoadEnds t (Ok c) =>
    match reserved w !! t with
    | Some e => mk_World (snd (load_publish (engine w) e c)) (delete t (reserved w))
    | None => w
    end
  | LoadEnds t (Err _) => mk_World (engine w) (delete t (reserved w))
  | Unloads => mk_World (engine_unload (engine w)) (reserved w)
  end.
Definition steps (w : World) (evs : list Event) : World := foldl step w evs.

Definition transitions (evs : list Event) : N :=
  sum_N ((λ ev, match ev with LoadEnds _ _ => 0 | _ => 1 end)%N <$> evs).
Definition of_thread (t : nat) (ev : Event) : bool :=
  match ev with LoadBegins t' | LoadEnds t' _ => Nat.eqb t t' | Unloads => false end.

Lemma step_epoch w ev : epoch (engine (step w ev)) = wrapping_add (epoch (engine w)) (transitions [ev]) ∨ transitions [ev] = 0%N ∧ epoch (engine (step w ev)) = epoch (engine w).
Proof.
  destruct ev as [t|t [c|e]|]; [by left| |by right|by left]. right. split; [done|]. cbn [step]. destruct (reserved w !! t); [|done].
  cbn [engine]. unfold load_publish. by destruct (negb _).
Qed.

Lemma step_reserved w ev t : of_thread t ev = false → reserved (step w ev) !! t = reserved w !! t.
Proof.
  destruct ev as [t'|t' [c|e]|]; cbn [of_thread step]; try intros Ht%Nat.eqb_neq; [| | |done].
  - cbn. by rewrite lookup_insert_ne.
  - destruct (reserved w !! t'); [|done]. cbn [reserved]. by rewrite lookup_delete_ne.
  - cbn. by rewrite lookup_delete_ne.
Qed.

(** The epoch counts the transitions, modulo the counter's width. *)
Lemma steps_epoch evs : ∀ w e n,
  epoch (engine w) = wrapping_add e n → epoch (engine (steps w evs)) = wrapping_add e (n + transitions evs).
Proof.
  induction evs as [|ev evs IH]; intros w e n Hw; [by rewrite N.add_0_r|].
  assert (transitions (ev :: evs) = transitions [ev] + transitions evs)%N as ->.
  { unfold transitions. change (ev :: evs) with ([ev] ++ evs). by rewrite fmap_app, sum_N_app. }
  rewrite N.add_assoc. apply (IH (step w ev)). destruct (step_epoch w ev) as [-> |[-> ->]].
  - rewrite Hw. unfold wrapping_add. rewrite N.Div0.add_mod_idemp_l. by rewrite N.add_assoc.
  - by rewrite N.add_0_r.
Qed.

Lemma steps_reserved evs t : ∀ w, forallb (λ ev, negb (of_thread t ev)) evs = true → reserved (steps w evs) !! t = reserved w !! t.
Proof.
  induction evs as [|ev evs IH]; intros w H; [done|]. apply andb_prop in H as [He H]. apply negb_true_iff in He.
  cbn [steps foldl]. fold (steps (step w ev) evs). rewrite IH by done. by apply step_reserved.
Qed.

(** A load publishes only if it is still the latest transition.  Between the two halves
    of a thread's load, let any other loads begin and end and any unloads happen, fewer
    than 2^64 of them: if there was none that began or unloaded, the candidate becomes the
    loaded model; otherwise the state is left exactly as the later transitions made it, so
    an unload is never undone and a newer load never overwritten by a slower older one. *)
Theorem stale_load_never_published w t evs c :
  (transitions evs < 2 ^ 64)%N → forallb (λ ev, negb (of_thread t ev)) evs = true →
  let before := steps (step w (LoadBegins t)) evs in
  engine (step before (LoadEnds t (Ok c))) =
  if (transitions evs =? 0)%N then mk_EngineState (epoch (engine before)) (Some c) else engine before.
Proof.
  intros Hn Ht before. assert (reserved before !! t = Some (wrapping_add (epoch (engine w)) 1)) as Hr.
  { unfold before. rewrite steps_reserved by done. apply lookup_insert_eq. }
  assert (epoch (engine before) = wrapping_add (epoch (engine w)) (1 + transitions evs)) as Hep by by apply steps_epoch.
  cbn [step]. rewrite Hr. cbn [engine]. unfold load_publish, accepts. rewrite Hep.
  assert (wrapping_add (epoch (engine w)) (1 + transitions evs) = wrapping_add (epoch (engine w)) 1 ↔ transitions evs = 0%N) as Hiff.
  { split; [|by intros ->]. rewrite <-Cache.wrapping_succ. intros H.
    rewrite <-(N.add_0_r 1) in H at 2. rewrite <-Cache.wrapping_succ in H. apply Cache.wrapping_inj in H; [done|done|done]. }
  destruct (N.eqb_spec (transitions evs) 0) as [H0|H0].
  - rewrite (proj2 (N.eqb_eq _ _)) by by apply Hiff. done.
  - rewrite (proj2 (N.eqb_neq _ _)) by (intros H; by apply H0, Hiff). done.
Qed.

End epochs.

(** * Prefixes *)

(** Exactly once: the prepared text starts with the prefix, and preparing it again changes
    nothing. *)
Lemma prefix_exactly_once input prefix :
  apply_prefix (apply_prefix input prefix) prefix = apply_prefix input prefix ∧
  (∀ p, prefix = Some p → starts_with p (apply_prefix input prefix) = true).
Proof.
  destruct prefix as [p|]; [|done]. unfold apply_prefix. destruct (starts_with p input) eqn:E.
  - rewrite E. split; [done|]. by intros ? [= <-].
  - rewrite starts_with_app. split; [done|]. intros ? [= <-]. apply starts_with_app.
Qed.

(** [impl RuntimeEngine for OnnxEmbeddingEngine]; [checks] is what the control answers
    during the call. *)
Definition onnx_runtime_engine {T : TokenizerCrate} {O : OrtCrate} (s : StateLock) (poisoned : bool)
    (checks : ExecutionControl → nat → result EngineFailure unit) : Scheduler.RuntimeEngine := {|
  Scheduler.model_contract rq := Some (let? '(i, d) := resolved_model_contract s rq in Scheduler.RuntimeModelContract_new i d);
  Scheduler.preflight rq b o := Some (preflight_with_options s rq b o);
  Scheduler.embed rq b ctl o := embed_with_options s poisoned rq b (checks ctl) o;
|}.

(** * A concrete engine

    A tokenizer with one token per character, and a session that answers a rank-2 output of
    ones. *)

#[local] Instance CharTokenizer : TokenizerCrate := {|
  Tokenizer := unit;
  tokenizer_from_bytes _ := Ok tt;
  added_tokens _ := 0%N;
  with_truncation _ _ := Ok tt;
  tokenizer_encode _ text :=
    let ids := N_of_ascii <$> String.list_ascii_of_string text in
    Ok (mk_Encoding ids (replicate (length ids) 1%N) (replicate (length ids) 0%N));
|}.

#[local] Instance OnesOrt : OrtCrate := {|
  Session := unit;
  commit_from_memory _ := Ok tt;
  session_io _ := mk_GraphIo [("input_ids", Tensor Int64 [-1; -1]%Z); ("attention_mask", Tensor Int64 [-1; -1]%Z)]
                             [("last_hidden_state", Tensor Float32 [-1; 4]%Z)];
  from_array shape data := Ok (mk_I64Tensor shape data);
  session_run _ ins :=
    match ins with
    | (_, t) :: _ => let rows := default 0%N (head (t_shape t)) in
                     Ok [("last_hidden_state", Ok (mk_Array [rows; 4]%N (replicate (N.to_nat rows * 4) f32_one)))]
    | [] => Err "no input"
    end;
  prost_decode _ := Ok (mk_OnnxModelProbe None [] []);
|}.

Definition sample_contract : OnnxContract :=
  mk_OnnxContract (Manifest.mk_OnnxInputNames "input_ids" (Some "attention_mask") None) "last_hidden_state" 0 true.
Definition sample_identity : ResolvedModelIdentity :=
  mk_ResolvedModelIdentity "acme/tiny" "0123456789abcdef0123456789abcdef01234567" "onnx-runtime@1"
    (Identity.artifact_fingerprint Staging.sample_sha Manifest.sample_manifest) ("sha256:" +:+ Staging.sample_key).
Definition sample_loaded : LoadedModel :=
  mk_LoadedModel Manifest.sample_manifest sample_contract tt tt tt sample_identity.
Definition sample_state : StateLock := Ok (mk_EngineState 1 (Some sample_loaded)).
Definition sample_request (text : string) (tokens : N) : Scheduler.Request :=
  Scheduler.mk_Request 0 0 [text] (mk_EmbeddingBatchCost 1 tokens (N.max tokens 1))
    (Scheduler.mk_RuntimeModelContract sample_identity 4) EmbedOptions_default (mk_ExecutionControl 0 None None).
Definition sample_model : RequestedModel := mk_RequestedModel "acme/tiny".
(** One half, four times: the unit vector the engine answers. *)
Definition sample_output (n : N) : EmbeddingOutput :=
  mk_EmbeddingOutput [replicate 4 1056964608%N] sample_identity (mk_EmbeddingUsage [n] n).

Lemma onnx_output_contract_witness : produced sample_loaded EmbedOptions_default ["abc"] (sample_output 3).
Proof.
  destruct (onnx_output_contract sample_state false sample_model (mk_EmbeddingBatch ["abc"]) (λ _, Ok tt) EmbedOptions_default (sample_output 3))
    as (m & Hm & _ & Hp & _).
  - vm_compute. reflexivity.
  - injection Hm as <-. exact Hp.
Defined.

Lemma onnx_output_accepted_witness :
  Scheduler.valid_engine_output (sample_output 3) [sample_request "abc" 3] (Scheduler.sizes_of [sample_request "abc" 3]) = true.
Proof.
  apply (onnx_output_accepted sample_state false sample_model (λ _, Ok tt) EmbedOptions_default [sample_request "abc" 3] (sample_output 3) sample_loaded).
  - reflexivity.
  - vm_compute. reflexivity.
  - constructor; [|constructor]. split; vm_compute; reflexivity.
  - constructor; [|constructor]. vm_compute. discriminate.
  - vm_compute. discriminate.
  - vm_compute. reflexivity.
Defined.

Lemma onnx_never_panics_witness :
  is_Some (embed_with_options sample_state false sample_model (mk_EmbeddingBatch ["abc"; ""]) (λ _, Ok tt) EmbedOptions_default) ∧
  is_Some (warm sample_state false).
Proof.
  assert (∀ (t : Tokenizer) text e, tokenizer_encode t text = Ok e → aligned e) as Ha.
  { intros t text e [= <-]. split; simpl; by rewrite length_replicate. }
  assert (∀ se ins outs n a, session_run se ins = Ok outs → (n, Ok a) ∈ outs → well_shaped a) as Hs.
  { intros se [|[nm t] ins] outs n a; [discriminate|]. intros [= <-] Hin. apply list_elem_of_singleton in Hin. injection Hin as -> ->.
    unfold well_shaped, len. cbn [a_data a_shape product foldr]. rewrite length_replicate. lia. }
  exact (onnx_never_panics Ha Hs sample_state false sample_model (mk_EmbeddingBatch ["abc"; ""]) (λ _, Ok tt) EmbedOptions_default).
Defined.

Lemma load_is_authentic_witness :
  authentic Staging.sample_sha (Store.mk_VerifiedModel Manifest.sample_manifest (Cache.model_dir Staging.sample_key)) sample_loaded.
Proof.
  apply (load_is_authentic (U := SimpleUrl) (J := Manifest.SimpleJson) Staging.sample_sha Identity.simple_to_vec "1"
    _ (replicate 99 Proceeds) (Staging.sample_store Staging.sample_key (Some Staging.sample_tree)) sample_loaded
    (Staging.sample_store Staging.sample_key (Some Staging.sample_tree))).
  vm_compute. reflexivity.
Defined.

Lemma stale_load_never_published_witness :
  let w := mk_World (mk_EngineState 0 None) ∅ in
  engine (step (steps (step w (LoadBegins 1)) [Unloads]) (LoadEnds 1 (Ok sample_loaded))) = mk_EngineState 2 None.
Proof.
  cbv zeta. rewrite (stale_load_never_published (mk_World (mk_EngineState 0 None) ∅) 1 [Unloads] sample_loaded); vm_compute; reflexivity.
Defined.

(** An input with no token: preflight counts one token, the usage none, and the scheduler
    refuses the whole native batch it is part of. *)
Example empty_encoding_fails_its_batch :
  preflight_with_options sample_state sample_model (mk_EmbeddingBatch [""]) EmbedOptions_default = Ok (mk_EmbeddingBatchCost 1 1 1) ∧
  (∃ out, embed_with_options sample_state false sample_model (mk_EmbeddingBatch ["abc"; ""]) (λ _, Ok tt) EmbedOptions_default = Some (Ok out) ∧
     Scheduler.valid_engine_output out [sample_request "abc" 3; sample_request "" 1]
       (Scheduler.sizes_of [sample_request "abc" 3; sample_request "" 1]) = false).
Proof. split; [vm_compute; reflexivity|]. eexists. split; vm_compute; reflexivity. Qed.

End Onnx.
