(* ===== verification/Loading.v ===== *)
(** From an installed model to a warm engine: the closure that [load_onnx]
    ([impossible-server/src/runtime.rs]) runs on the blocking pool, composed of the store's
    verification, the engine's load and its warm-up, and its composition with installation.

    [assemble] is the abstract load: what the native libraries make of the bytes of the
    declared artifacts, with no disk. *)

From Stdlib Require Import NArith Lia Ascii.
From stdpp Require Import base strings gmap list.
From S2P Require Import Prelude Core Std Config Manifest Install Disk Cache Identity Files Store Staging Installer Probe Scheduler Onnx.
Import Disk Probe Cache Files Store Onnx.

Local Open Scope string_scope.
Local Open Scope list_scope.
Local Open Scope rust_scope.

Module Loading.

Section loading.
Context {U : UrlCrate} {J : Manifest.JsonCrate} {T : TokenizerCrate} {O : OrtCrate}.
Context (sha256_hex : string → string) (to_vec : Identity.SemanticContract → result string string).
Context (trust_root : Identity.TrustRoot) (pid : N) (fuel : nat) (version : string).

(** * The program *)

(** [OnnxEmbeddingEngine::new] *)
Definition engine_new : EngineState := mk_EngineState 0 None.

(** [OnnxEmbeddingEngine::load] on an engine that nobody else has. *)
Definition load (v : VerifiedModel) (s : EngineState) : prog (result EngineFailure ResolvedModelIdentity * EngineState) :=
  let '(e, s) := reserve_transition s in
  prog_bind (load_candidate sha256_hex to_vec version v) (λ r, Ret
    match r with
    | Err failure => (Err failure, s)
    | Ok candidate => load_publish s e candidate
    end).

(** The closure of [ApplicationRuntime::load_onnx]; [None] for a panic of the warm-up. *)
Definition load_onnx_job (m : Manifest.Manifest) (rounds : list (Lock * Lock))
    : prog (option (result Scheduler.LifecycleError EngineState)) :=
  prog_bind (verified_model sha256_hex to_vec trust_root pid fuel m rounds) (λ r,
    match r with
    | Err _ => Ret (Some (Err Scheduler.LoadFailed))
    | Ok verified =>
      prog_bind (load verified engine_new) (λ r,
        match r.1 with
        | Err _ => Ret (Some (Err Scheduler.LoadFailed))
        | Ok _ =>
          Ret (warmed ← warm (Ok r.2) false;
               Some (match warmed with Ok _ => Ok r.2 | Err _ => Err Scheduler.LoadFailed end))
        end)
    end).

(** * The abstract load *)

Section bytes.
Context (m : Manifest.Manifest) (bytes_of : Manifest.Artifact → string).

Definition declared_bytes (relative ext : string) : result EngineFailure string :=
  ensure bool_decide (extension relative = Some ext) else public InvalidRequest in
  let? a := ok_or (List.find (λ a, String.eqb (Manifest.path a) relative) (Manifest.artifacts m))
              (unavailable (Manifest.EInvalid "runtime requested an undeclared artifact")) in
  Ok (bytes_of a).

Definition no_external_data (bytes : string) : result EngineFailure unit :=
  let? probe := map_err (λ e, with_source ModelUnavailable ("ONNX inspection failed: " +:+ e)) (prost_decode bytes) in
  ensure negb (model_external probe) else public InvalidRequest in
  Ok tt.

Definition assemble : result EngineFailure LoadedModel :=
  let? '(model_file, tokenizer_file, contract) := onnx_contract m in
  let? model_bytes := declared_bytes model_file "onnx" in
  let? _ := no_external_data model_bytes in
  let? tokenizer_bytes := declared_bytes tokenizer_file "json" in
  let? tokenizer := map_err (private_error ModelUnavailable "tokenizer parse") (tokenizer_from_bytes tokenizer_bytes) in
  let? max_tokens := ok_or (try_from usize_max (Manifest.max_tokens (Manifest.tokenizer m))) (with_source Internal "out of range") in
  ensure negb (max_tokens <? added_tokens tokenizer)%N else public InvalidRequest in
  let? truncating := map_err (private_error ModelUnavailable "tokenizer truncation") (with_truncation max_tokens tokenizer) in
  let? session := map_err (private_error ModelUnavailable "ONNX load") (commit_from_memory model_bytes) in
  let? _ := validate_graph_contract contract (session_io session) (Manifest.native (Manifest.dimensions m)) in
  let? semantic := map_err (λ e, with_source Internal (Manifest.Error_display e)) (Identity.semantic_fingerprint sha256_hex to_vec m) in
  let? identity := ResolvedModelIdentity_new (Manifest.canonical_id m) (Manifest.revision m)
                     (ENGINE_NAME +:+ "@" +:+ version) (Identity.artifact_fingerprint sha256_hex m) semantic in
  Ok (mk_LoadedModel m contract tokenizer truncating session identity).

(** What the job answers of these bytes. *)
Definition engine_of : option (result Scheduler.LifecycleError EngineState) :=
  match assemble with
  | Err _ => Some (Err Scheduler.LoadFailed)
  | Ok candidate =>
    let s := mk_EngineState 1 (Some candidate) in
    warmed ← warm (Ok s) false;
    Some (match warmed with Ok _ => Ok s | Err _ => Err Scheduler.LoadFailed end)
  end.

End bytes.

(** * On an installed model *)

Section installed.
Context (m : Manifest.Manifest) (k : string) (t : Node) (fs : Fs) (bytes_of : Manifest.Artifact → string).
Hypothesis Hvalid : Manifest.validate m = Ok tt.
Hypothesis Htop : tops fs !! "models" = Some KDir.
Hypothesis Htree : at_tree "models" k t fs.
Hypothesis Hintact : intact sha256_hex m t.
Hypothesis Hbytes : ∀ a, a ∈ Manifest.artifacts m → descend t (str_split "/" (Manifest.path a)) = Some (File (bytes_of a)).

Abbreviation verified := (mk_VerifiedModel m (model_dir k)).

(** A step that leaves the disk as it is. *)
Lemma exec_step {A B E} (p : prog (result E A)) (c : A → prog (result E B)) r r' :
  exec p fs = (Finished r, fs) → (∀ a, r = Ok a → exec (c a) fs = (Finished (r' a), fs)) →
  exec (try p c) fs = (Finished (let? a := r in r' a), fs).
Proof. intros Hp Hc. destruct r as [a|e]; [erewrite exec_try_Ok by exact Hp; by apply Hc|by erewrite exec_try_Err by exact Hp]. Qed.

Lemma exec_map_failure {A} f (p : prog (result Manifest.Error A)) r :
  exec p fs = (Finished r, fs) → exec (map_failure f p) fs = (Finished (map_err f r), fs).
Proof. intros Hp. unfold map_failure. by rewrite exec_bind, Hp. Qed.

Lemma revalidated : exec (revalidate_integrity sha256_hex verified) fs = (Finished (Ok tt), fs).
Proof.
  unfold revalidate_integrity. cbn [vm_root vm_manifest]. unfold model_dir.
  erewrite exec_try_Ok; [|rewrite (read_manifest_exec "models" k t fs Htop Htree), (in_manifest _ _ _ Hintact); reflexivity].
  rewrite bool_decide_eq_false_2 by (intros H'; by apply H').
  pose proof (valid_artifacts m Hvalid) as Hc. pose proof (in_artifacts _ _ _ Hintact) as Hok. clear Hbytes.
  induction (Manifest.artifacts m) as [|a l IH]; [done|]. apply Forall_cons in Hc as [[Hp Hs] Hc]. apply Forall_cons in Hok as [Ha Hok].
  destruct (verify_exec "models" k sha256_hex never t a fs ltac:(done) (halts_ret _) Htree Hp Hs) as (r & fs' & He & Hiff & Hsame).
  assert (r = Ok true) as -> by by apply Hiff. rewrite Hsame in He by done. cbn [revalidate_artifacts].
  erewrite exec_try_Ok by exact He. by apply IH.
Qed.

Lemma artifact_read a relative :
  List.find (λ a, String.eqb (Manifest.path a) relative) (Manifest.artifacts m) = Some a →
  exec (artifact_bytes sha256_hex m (model_dir k) relative) fs = (Finished (Ok (bytes_of a)), fs).
Proof.
  intros Hf. unfold artifact_bytes. rewrite Hf. apply List.find_some in Hf as [Ha%list_elem_of_In Hp%String.eqb_eq]. subst relative.
  pose proof (Hbytes a Ha) as Hb. pose proof (valid_artifacts m Hvalid) as Hc. pose proof (in_artifacts _ _ _ Hintact) as Hok.
  rewrite Forall_forall in *. destruct (Hc a Ha) as [Hcon Hmax]. destruct (Hok a Ha) as (b & Hb' & Hlen & Hsha). simplify_eq.
  rewrite (Manifest.ct_components _ Hcon). destruct (str_split_snoc "/" (Manifest.path a)) as (names & x & Hnames). rewrite Hnames in *.
  erewrite exec_try_Ok; [|done]. unfold model_dir. erewrite exec_try_Ok; [|by eapply (open_contained_Ok "models" k t)].
  unfold try_from, usize_max. rewrite (proj2 (N.leb_le _ _)) by lia. erewrite exec_try_Ok; [|done].
  unfold checked_add. rewrite (proj2 (N.leb_le _ _)) by lia. erewrite exec_try_Ok; [|done].
  erewrite exec_try_Ok; [|by apply exec_call_Ok, (read_chunk_exec "models" k t)].
  erewrite exec_try_Ok; [|by apply exec_call_Ok, (handle_metadata_exec "models" k t _ _ _ Htree Hb)].
  change (N.to_nat 0) with 0%nat. rewrite substring_all by (rewrite <-Hlen; unfold str_len; lia). cbn [fst snd kind].
  rewrite Hlen, N.eqb_refl, Hsha, String.eqb_refl. done.
Qed.

Lemma safe_bytes_read relative ext :
  exec (safe_artifact_bytes sha256_hex verified relative ext) fs = (Finished (declared_bytes m bytes_of relative ext), fs).
Proof.
  unfold safe_artifact_bytes, declared_bytes. destruct (bool_decide _); [|done]. cbn [negb vm_manifest vm_root].
  destruct (List.find _ _) as [a|] eqn:Hf; [by apply (exec_map_failure _ _ (Ok (bytes_of a))), artifact_read|].
  apply (exec_map_failure unavailable _ (Err _)). unfold artifact_bytes. rewrite Hf. done.
Qed.

Lemma external_checked bytes : exec (reject_external bytes) fs = (Finished (no_external_data bytes), fs).
Proof.
  unfold reject_external, no_external_data. cbv zeta. destruct (prost_decode bytes) as [probe|e]; [|done]. cbn [probe_fuel].
  rewrite reject_external_exact by lia. cbn [map_err result_bind]. by destruct (model_external probe).
Qed.

Lemma candidate_assembled :
  exec (load_candidate sha256_hex to_vec version verified) fs = (Finished (assemble m bytes_of), fs).
Proof.
  unfold load_candidate, assemble. cbn [vm_manifest]. cbv zeta.
  erewrite exec_try_Ok; [|apply (exec_map_failure _ _ (Ok tt)), revalidated].
  apply exec_step; [done|]. intros [[model_file tokenizer_file] contract] _.
  apply exec_step; [apply safe_bytes_read|]. intros model_bytes _. apply exec_step; [apply external_checked|]. intros _ _.
  apply exec_step; [apply safe_bytes_read|]. intros tokenizer_bytes _. do 2 (apply exec_step; [done|]; intros ? _).
  match goal with |- context [(?x <? ?y)%N] => destruct (x <? y)%N end; [done|]. cbn [negb].
  do 3 (apply exec_step; [done|]; intros ? _).
  erewrite exec_try_Ok; [|apply (exec_map_failure _ _ (Ok tt)), revalidated].
  do 2 (apply exec_step; [done|]; intros ? _). done.
Qed.

(** The job is exactly the abstract load of the stored bytes. *)
Lemma job_exec rounds repair_lock :
  key sha256_hex to_vec m = Ok k → entries fs !! pair_of (repair_marker k) = None →
  Identity.trusts sha256_hex to_vec trust_root m = Ok true →
  exec (load_onnx_job m ((repair_lock, Ok tt) :: rounds)) fs = (Finished (engine_of m bytes_of), fs).
Proof.
  intros Hk Hmark Htrust. unfold load_onnx_job.
  assert (exec (verified_model sha256_hex to_vec trust_root pid fuel m ((repair_lock, Ok tt) :: rounds)) fs =
    (Finished (Ok verified), fs)) as Hv.
  { unfold verified_model. rewrite Hvalid, Hk. do 2 (erewrite exec_try_Ok; [|done]). cbn [verified_rounds].
    assert (perform (SymlinkMetadata (repair_marker k)) fs = (Err NotFound, fs)) as Hm.
    { unfold perform, repair_marker in *. simpl in *. by rewrite Hmark. }
    erewrite exec_try_Ok; [|rewrite exec_bind; unfold io; cbn [exec]; rewrite Hm; reflexivity].
    erewrite exec_try_Ok; [|done]. rewrite exec_bind. unfold io. cbn [exec]. rewrite Hm. cbv beta iota.
    destruct (status_inner_exec sha256_hex to_vec trust_root m k never fs never_idle Hvalid Hk Htop) as (r & fs' & He & Hr).
    rewrite Htree in Hr. destruct Hr as [_ Hr]. destruct (Hr Hintact) as (-> & b & Hb & ->). rewrite Htrust in Hb. simplify_eq.
    erewrite exec_try_Ok by exact He. cbn [exec]. by rewrite bool_decide_eq_true_2. }
  rewrite exec_bind, Hv. cbv beta iota. unfold load. cbn [reserve_transition engine_new epoch loaded].
  rewrite !exec_bind, candidate_assembled. cbn [exec]. unfold engine_of. destruct (assemble m bytes_of) as [candidate|e]; [|done].
  unfold load_publish, accepts. cbn [epoch]. rewrite N.eqb_refl. cbn [negb fst snd exec]. change (wrapping_add 0 1) with 1%N. done.
Qed.

End installed.

(** Whatever happens to the disk: an engine comes out only of a valid manifest that the trust
    root trusts, under a granted lease, holding a candidate that is authentic for that
    manifest, and warm. *)
Lemma job_run m rounds fates fs s fs' :
  Disk.run fates (load_onnx_job m rounds) fs = (Finished (Some (Ok s)), fs') →
  Manifest.validate m = Ok tt ∧ Identity.trusts sha256_hex to_vec trust_root m = Ok true ∧
  (∃ lock lease, (lock, lease) ∈ rounds ∧ lease = Ok tt) ∧
  ∃ k candidate, key sha256_hex to_vec m = Ok k ∧ loaded s = Some candidate ∧
    authentic sha256_hex (mk_VerifiedModel m (model_dir k)) candidate ∧ warm (Ok s) false = Some (Ok tt).
Proof.
  unfold load_onnx_job. intros H. apply run_bind_inv in H as ([v|e] & f1 & s1 & Hv & H); [|done].
  apply verified_model_guarded in Hv as (Hvalid & Htrust & (k & Hk & ->) & Hlease).
  apply run_bind_inv in H as ([r s2] & f2 & s3 & Hl & H). unfold load in Hl. cbn [reserve_transition engine_new epoch loaded] in Hl.
  apply run_bind_inv in Hl as ([candidate|e] & f3 & s4 & Hc & Hl); apply run_ret in Hl as [Hl _]; [|by simplify_eq/=].
  apply load_candidate_run in Hc. unfold load_publish, accepts in Hl. cbn [epoch] in Hl. rewrite N.eqb_refl in Hl. cbn [negb] in Hl. simplify_eq. cbn [fst snd] in H.
  apply run_ret in H as [H _]. destruct (warm _ false) as [[[]|e]|] eqn:Hw; simplify_eq/=.
  split_and!; [done|done|done|]. exists k, candidate. split_and!; [done|done|done|done].
Qed.

(** C24: only trusted, authenticated models run.  Whatever happens to the disk while a model is
    verified, loaded and warmed, if an engine comes out of the job, then the manifest is valid
    and trusted by the trust root, a lease on it was granted, and the engine holds a candidate
    built from bytes of exactly the lengths and digests the manifest declares, with no data
    outside them, a graph that is the contract's and the manifest's complete identity; and
    its warm-up succeeded. *)
Theorem loaded_is_trusted m rounds fates fs s fs' :
  Disk.run fates (load_onnx_job m rounds) fs = (Finished (Some (Ok s)), fs') →
  Manifest.validate m = Ok tt ∧ Identity.trusts sha256_hex to_vec trust_root m = Ok true ∧
  (∃ lock lease, (lock, lease) ∈ rounds ∧ lease = Ok tt) ∧
  ∃ k candidate, key sha256_hex to_vec m = Ok k ∧ loaded s = Some candidate ∧
    authentic sha256_hex (mk_VerifiedModel m (model_dir k)) candidate ∧ warm (Ok s) false = Some (Ok tt).
Proof. apply job_run. Qed.


End loading.

(** * Concrete runs *)

Lemma loaded_is_trusted_witness :
  warm (T := CharTokenizer) (O := OnesOrt) (Ok (mk_EngineState 1 (Some sample_loaded))) false = Some (Ok tt).
Proof.
  destruct (loaded_is_trusted (U := SimpleUrl) (J := Manifest.SimpleJson) (T := CharTokenizer) (O := OnesOrt)
    Staging.sample_sha Identity.simple_to_vec Staging.sample_root 7 1025 "1" Manifest.sample_manifest [(Ok tt, Ok tt)]
    (replicate 200 Proceeds) (Staging.sample_store Staging.sample_key (Some Staging.sample_tree))
    (mk_EngineState 1 (Some sample_loaded)) (Staging.sample_store Staging.sample_key (Some Staging.sample_tree)))
    as (_ & _ & _ & k & candidate & _ & _ & _ & Hw).
  - vm_compute. reflexivity.
  - exact Hw.
Defined.


End Loading.
