(* ===== verification/Runtime.v ===== *)
(** The application runtime of [crates/impossible-server/src/runtime.rs]: admission,
    leases and queue permits, model registration and loading, unloading, deletion,
    installation registration, and shutdown.

    The registries are behind mutexes, so each lock section of the source is one
    step; atomics are single accesses; the RAII values that live in futures and
    requests (leases, queue permits, work permits, reservations, installations) are
    recorded as what the environment still holds.  Any holder may act at any time,
    which covers every interleaving of requests, administration and shutdown.  Lock
    poisoning (a panic inside a registry lock section) is outside the model. *)

From Stdlib Require Import NArith Lia.
From stdpp Require Import base strings relations fin_maps gmap list.
From S2P Require Import Prelude Core Scheduler Health Shutdown Metrics Install.

Local Open Scope list_scope.

Module Runtime.

Abbreviation LifecycleError := Scheduler.LifecycleError.
Abbreviation BatchPolicy := Scheduler.BatchPolicy.

(** * State *)

(** [struct ModelSlot]: slots are shared, so they live in an arena and outlive
    their registration; the engine and the channel are elsewhere. *)
Record Slot := mk_Slot {
  key : N;
  leases : N;
  accepting : bool;
  cancelled : bool;
  queued : N;
}.

(** [struct InstallControl]: the cancellation flag and the commit gate. *)
Record InstallControl := mk_InstallControl {
  cancellation : bool;
  commit : Install.GateState;
}.

(** The progress of [finish_shutdown]. *)
Inductive Flight := NoFlight | Draining | Fenced (drained : bool) | Cleared (drained : bool) | Finished (drained : bool).

#[global] Instance Flight_eq_dec : EqDecision Flight.
Proof. solve_decision. Defined.

(** [struct Inner], and what the environment holds. *)
Record State := mk_State {
  policy : BatchPolicy;
  slots : list Slot;
  models : gmap string nat;
  loading : gmap string N;
  installs : gmap N InstallControl;
  health : Health.HealthRegistry;
  coordinator : Shutdown.Coordinator;
  next_key : N;
  draining : bool;
  schedulers : gset N;
  retired : list N;
  force_stop : bool;
  metrics : Metrics.Metrics;
  active : N;
  admitted : N;
  queued_total : N;
  flight : Flight;
  (* held by futures and requests *)
  held_leases : list nat;
  held_queue : list nat;
  held_permits : N;
  held_active : N;
  reservations : list (string * N);
}.

Definition with_slots v s := mk_State (policy s) v (models s) (loading s) (installs s) (health s) (coordinator s) (next_key s) (draining s) (schedulers s) (retired s) (force_stop s) (metrics s) (active s) (admitted s) (queued_total s) (flight s) (held_leases s) (held_queue s) (held_permits s) (held_active s) (reservations s).
Definition with_models v s := mk_State (policy s) (slots s) v (loading s) (installs s) (health s) (coordinator s) (next_key s) (draining s) (schedulers s) (retired s) (force_stop s) (metrics s) (active s) (admitted s) (queued_total s) (flight s) (held_leases s) (held_queue s) (held_permits s) (held_active s) (reservations s).
Definition with_loading v s := mk_State (policy s) (slots s) (models s) v (installs s) (health s) (coordinator s) (next_key s) (draining s) (schedulers s) (retired s) (force_stop s) (metrics s) (active s) (admitted s) (queued_total s) (flight s) (held_leases s) (held_queue s) (held_permits s) (held_active s) (reservations s).
Definition with_installs v s := mk_State (policy s) (slots s) (models s) (loading s) v (health s) (coordinator s) (next_key s) (draining s) (schedulers s) (retired s) (force_stop s) (metrics s) (active s) (admitted s) (queued_total s) (flight s) (held_leases s) (held_queue s) (held_permits s) (held_active s) (reservations s).
Definition with_health v s := mk_State (policy s) (slots s) (models s) (loading s) (installs s) v (coordinator s) (next_key s) (draining s) (schedulers s) (retired s) (force_stop s) (metrics s) (active s) (admitted s) (queued_total s) (flight s) (held_leases s) (held_queue s) (held_permits s) (held_active s) (reservations s).
Definition with_coordinator v s := mk_State (policy s) (slots s) (models s) (loading s) (installs s) (health s) v (next_key s) (draining s) (schedulers s) (retired s) (force_stop s) (metrics s) (active s) (admitted s) (queued_total s) (flight s) (held_leases s) (held_queue s) (held_permits s) (held_active s) (reservations s).
Definition with_next_key v s := mk_State (policy s) (slots s) (models s) (loading s) (installs s) (health s) (coordinator s) v (draining s) (schedulers s) (retired s) (force_stop s) (metrics s) (active s) (admitted s) (queued_total s) (flight s) (held_leases s) (held_queue s) (held_permits s) (held_active s) (reservations s).
Definition with_draining v s := mk_State (policy s) (slots s) (models s) (loading s) (installs s) (health s) (coordinator s) (next_key s) v (schedulers s) (retired s) (force_stop s) (metrics s) (active s) (admitted s) (queued_total s) (flight s) (held_leases s) (held_queue s) (held_permits s) (held_active s) (reservations s).
Definition with_schedulers v s := mk_State (policy s) (slots s) (models s) (loading s) (installs s) (health s) (coordinator s) (next_key s) (draining s) v (retired s) (force_stop s) (metrics s) (active s) (admitted s) (queued_total s) (flight s) (held_leases s) (held_queue s) (held_permits s) (held_active s) (reservations s).
Definition with_retired v s := mk_State (policy s) (slots s) (models s) (loading s) (installs s) (health s) (coordinator s) (next_key s) (draining s) (schedulers s) v (force_stop s) (metrics s) (active s) (admitted s) (queued_total s) (flight s) (held_leases s) (held_queue s) (held_permits s) (held_active s) (reservations s).
Definition with_force_stop v s := mk_State (policy s) (slots s) (models s) (loading s) (installs s) (health s) (coordinator s) (next_key s) (draining s) (schedulers s) (retired s) v (metrics s) (active s) (admitted s) (queued_total s) (flight s) (held_leases s) (held_queue s) (held_permits s) (held_active s) (reservations s).
Definition with_flight v s := mk_State (policy s) (slots s) (models s) (loading s) (installs s) (health s) (coordinator s) (next_key s) (draining s) (schedulers s) (retired s) (force_stop s) (metrics s) (active s) (admitted s) (queued_total s) v (held_leases s) (held_queue s) (held_permits s) (held_active s) (reservations s).
Definition with_held_leases v s := mk_State (policy s) (slots s) (models s) (loading s) (installs s) (health s) (coordinator s) (next_key s) (draining s) (schedulers s) (retired s) (force_stop s) (metrics s) (active s) (admitted s) (queued_total s) (flight s) v (held_queue s) (held_permits s) (held_active s) (reservations s).
Definition with_held_queue v s := mk_State (policy s) (slots s) (models s) (loading s) (installs s) (health s) (coordinator s) (next_key s) (draining s) (schedulers s) (retired s) (force_stop s) (metrics s) (active s) (admitted s) (queued_total s) (flight s) (held_leases s) v (held_permits s) (held_active s) (reservations s).
Definition with_reservations v s := mk_State (policy s) (slots s) (models s) (loading s) (installs s) (health s) (coordinator s) (next_key s) (draining s) (schedulers s) (retired s) (force_stop s) (metrics s) (active s) (admitted s) (queued_total s) (flight s) (held_leases s) (held_queue s) (held_permits s) (held_active s) v.
Definition with_permits a c h s := mk_State (policy s) (slots s) (models s) (loading s) (installs s) (health s) c (next_key s) (draining s) (schedulers s) (retired s) (force_stop s) (metrics s) (active s) a (queued_total s) (flight s) (held_leases s) (held_queue s) h (held_active s) (reservations s).
Definition with_queue_gauge v m s := mk_State (policy s) (slots s) (models s) (loading s) (installs s) (health s) (coordinator s) (next_key s) (draining s) (schedulers s) (retired s) (force_stop s) m (active s) (admitted s) v (flight s) (held_leases s) (held_queue s) (held_permits s) (held_active s) (reservations s).
Definition with_active_gauge v m h s := mk_State (policy s) (slots s) (models s) (loading s) (installs s) (health s) (coordinator s) (next_key s) (draining s) (schedulers s) (retired s) (force_stop s) m v (admitted s) (queued_total s) (flight s) (held_leases s) (held_queue s) (held_permits s) h (reservations s).

(** [ApplicationRuntime::new] after a successful [policy.validate()]. *)
Definition new_runtime (p : BatchPolicy) : State :=
  mk_State p [] ∅ ∅ ∅ (Health.transition Health.Ready None Health.HealthRegistry_default).2
    Shutdown.Coordinator_default 1 false ∅ [] false Metrics.Metrics_default 0 0 0 NoFlight [] [] 0 0 [].

Definition update_slot (f : Slot → Slot) (i : nat) (s : State) : State := with_slots (alter f i (slots s)) s.
Definition remove_one {A} `{EqDecision A} (x : A) (l : list A) : list A :=
  match list_find (x =.) l with Some (i, _) => delete i l | None => l end.

(** * Work permits *)

(** [admit_work]; [admit_work_locked] runs under the same lock. *)
Definition admit_work (s : State) : bool * State :=
  if draining s then (false, s) else
  match Shutdown.coordinator_admit (coordinator s) with
  | (true, c) => (true, with_permits (wrapping_add (admitted s) 1) c (held_permits s + 1) s)
  | (false, _) => (false, s)
  end.

(** [Drop for RuntimeWorkPermit], which also drops the coordinator's permit; the
    answer is whether the zero latch is notified. *)
Definition drop_permit (s : State) : bool * State :=
  ((admitted s =? 1)%N,
   with_permits (wrapping_sub (admitted s) 1) (Shutdown.drop_permit (coordinator s)) (held_permits s - 1) s).

(** * Gauges *)

(** [GaugeGuard::increment] and [Drop for GaugeGuard] for the queue gauge. *)
Definition increment_queued (s : State) : State :=
  with_queue_gauge (wrapping_add (queued_total s) 1) (Metrics.increment_queue_depth (metrics s)) s.
Definition decrement_queued (s : State) : State :=
  with_queue_gauge (wrapping_sub (queued_total s) 1) (Metrics.decrement_queue_depth (metrics s)) s.

(** [embed]: the active gauge is held around the request, whose outcome is
    observed before the gauge is released. *)
Definition embed_begin (s : State) : State :=
  with_active_gauge (wrapping_add (active s) 1) (Metrics.increment_active (metrics s)) (held_active s + 1) s.
Definition embed_end (out : Metrics.Outcome) (micros : N) (s : State) : State :=
  with_active_gauge (wrapping_sub (active s) 1)
    (Metrics.decrement_active (Metrics.observe Metrics.Embed out micros (metrics s))) (held_active s - 1) s.

(** * Leases and queue permits *)

(** [ApplicationRuntime::lease]: the slot whose lease was taken. *)
Definition lease (id : string) (s : State) : result LifecycleError nat * State :=
  match models s !! id with
  | None => (Err Scheduler.NotFound, s)
  | Some i =>
    match slots s !! i with
    | None => (Err Scheduler.NotFound, s)
    | Some sl =>
      if accepting sl
      then (Ok i, with_held_leases (i :: held_leases s)
              (update_slot (λ sl, mk_Slot (key sl) (wrapping_add (leases sl) 1) (accepting sl) (cancelled sl) (queued sl)) i s))
      else (Err Scheduler.NotFound, s)
    end
  end.

(** [Clone for RuntimeLease] and [Drop for RuntimeLease] *)
Definition clone_lease (i : nat) (s : State) : State :=
  with_held_leases (i :: held_leases s)
    (update_slot (λ sl, mk_Slot (key sl) (wrapping_add (leases sl) 1) (accepting sl) (cancelled sl) (queued sl)) i s).
Definition drop_lease (i : nat) (s : State) : State :=
  with_held_leases (remove_one i (held_leases s))
    (update_slot (λ sl, mk_Slot (key sl) (wrapping_sub (leases sl) 1) (accepting sl) (cancelled sl) (queued sl)) i s).

(** [QueuePermit::acquire]: one atomic update against the limit. *)
Definition acquire_queue (i : nat) (s : State) : bool * State :=
  match slots s !! i with
  | Some sl =>
    if (queued sl <? Scheduler.queue_depth (policy s))%N
    then (true, increment_queued (with_held_queue (i :: held_queue s)
            (update_slot (λ sl, mk_Slot (key sl) (leases sl) (accepting sl) (cancelled sl) (queued sl + 1)) i s)))
    else (false, s)
  | None => (false, s)
  end.
(** [Drop for QueuePermit] *)
Definition drop_queue (i : nat) (s : State) : State :=
  decrement_queued (with_held_queue (remove_one i (held_queue s))
    (update_slot (λ sl, mk_Slot (key sl) (leases sl) (accepting sl) (cancelled sl) (wrapping_sub (queued sl) 1)) i s)).

(** * Registration *)

Definition new_slot (k : N) : Slot := mk_Slot k 0 true false 0.

(** The publication block shared by the two registrations: scheduler, model and
    health entry. *)
Definition publish_slot (id : string) (k : N) (s : State) : State :=
  with_health (Health.set_model k Health.MReady (health s))
    (with_models (<[id := length (slots s)]> (models s))
       (with_schedulers ({[k]} ∪ schedulers s) (with_slots (slots s ++ [new_slot k]) s))).

Definition contains (id : string) (s : State) : bool :=
  bool_decide (is_Some (models s !! id)) || bool_decide (is_Some (loading s !! id)).

(** [register_engine]; [executor] and [scheduler_alive] are what the async
    runtime answers. *)
Definition register_engine (id : string) (executor scheduler_alive : bool) (s : State)
    : result LifecycleError unit * State :=
  if is_blank id then (Err Scheduler.LoadFailed, s) else
  if negb executor then (Err Scheduler.LoadFailed, s) else
  if draining s then (Err Scheduler.ShuttingDown, s) else
  if contains id s then (Err Scheduler.AlreadyLoaded, s) else
  let k := next_key s in
  let s := with_next_key (wrapping_add k 1) s in
  if negb scheduler_alive then (Err Scheduler.LoadFailed, s) else
  (Ok tt, publish_slot id k s).

(** The reservation section of [load_with]: a key, then the loading entry. *)
Definition reserve (id : string) (s : State) : result LifecycleError N * State :=
  let k := next_key s in
  let s := with_next_key (wrapping_add k 1) s in
  if draining s then (Err Scheduler.ShuttingDown, s) else
  if contains id s then (Err Scheduler.AlreadyLoaded, s) else
  (Ok k, with_reservations ((id, k) :: reservations s)
           (with_health (Health.set_model k Health.MLoading (health s)) (with_loading (<[id := k]> (loading s)) s))).

(** [register_reserved_engine]: [started] is the startup handshake and the first
    look at the task, [alive] the look under the locks; a failure leaves the
    reservation armed. *)
Definition publish (id : string) (k : N) (started alive : bool) (s : State) : result LifecycleError unit * State :=
  if negb started then (Err Scheduler.LoadFailed, s) else
  if draining s then (Err Scheduler.ShuttingDown, s) else
  if bool_decide (is_Some (models s !! id)) then (Err Scheduler.AlreadyLoaded, s) else
  if negb (bool_decide (loading s !! id = Some k)) then (Err Scheduler.LoadFailed, s) else
  if negb alive then (Err Scheduler.LoadFailed, s) else
  (Ok tt, with_reservations (remove_one (id, k) (reservations s))
            (publish_slot id k (with_loading (delete id (loading s)) s))).

(** [Drop for LoadReservation] (armed) *)
Definition drop_reservation (id : string) (k : N) (s : State) : State :=
  let s := with_loading (if bool_decide (loading s !! id = Some k) then delete id (loading s) else loading s) s in
  with_reservations (remove_one (id, k) (reservations s)) (with_health (Health.remove_model k (health s)).2 s).

(** * Installation *)

(** [InstallControl::cancel_before_commit] *)
Definition cancel_before_commit (c : InstallControl) : Install.CommitDecision * InstallControl :=
  let '(d, g) := Install.request_cancel (commit c) in
  (d, mk_InstallControl (cancellation c || bool_decide (d = Install.CancelledBeforeCommit)) g).

(** [begin_install] *)
Definition begin_install (s : State) : result LifecycleError N * State :=
  if draining s then (Err Scheduler.ShuttingDown, s) else
  match admit_work s with
  | (false, s) => (Err Scheduler.ShuttingDown, s)
  | (true, s) =>
    let op := next_key s in
    (Ok op, with_installs (<[op := mk_InstallControl false Install.InstallCommitGate_new]> (installs s))
              (with_next_key (wrapping_add op 1) s))
  end.

(** The installation's own attempt to cross its gate, and a cancellation by its
    caller (a dropped or interrupted [install_with]). *)
Definition install_commit (op : N) (s : State) : bool * State :=
  match installs s !! op with
  | Some c => let '(b, g) := Install.begin_commit (commit c) in
              (b, with_installs (<[op := mk_InstallControl (cancellation c) g]> (installs s)) s)
  | None => (false, s)
  end.
Definition install_cancel (op : N) (s : State) : State :=
  match installs s !! op with
  | Some c => with_installs (<[op := (cancel_before_commit c).2]> (installs s)) s
  | None => s
  end.

(** [drop(active)]: the registration, then the permit. *)
Definition end_install (op : N) (s : State) : State :=
  (drop_permit (with_installs (delete op (installs s)) s)).2.

(** * Unloading and deletion *)

(** [ApplicationRuntime::unload]; [finished] tells which retired scheduler tasks
    have ended. *)
Definition unload (finished : N → bool) (id : string) (s : State) : result LifecycleError unit * State :=
  if draining s then (Err Scheduler.ShuttingDown, s) else
  match models s !! id with
  | None => (Err Scheduler.NotFound, s)
  | Some i =>
    match slots s !! i with
    | None => (Err Scheduler.NotFound, s)
    | Some sl =>
      if negb (leases sl =? 0)%N then (Err Scheduler.InUse, s) else
      let s := update_slot (λ sl, mk_Slot (key sl) (leases sl) false (cancelled sl) (queued sl)) i s in
      let s := with_models (delete id (models s)) s in
      let s := if decide (key sl ∈ schedulers s)
               then with_retired (filter (λ k, finished k = false) (retired s) ++ [key sl])
                      (with_schedulers (schedulers s ∖ {[key sl]}) s)
               else s in
      (Ok tt, with_health (Health.remove_model (key sl) (health s)).2 s)
    end
  end.

(** [ApplicationRuntime::delete]; [store_delete] is the verified store's answer. *)
Definition delete_model (id canonical_id : string) (store_delete : result LifecycleError bool) (s : State)
    : result LifecycleError bool :=
  if negb (String.eqb id canonical_id) then Err Scheduler.DeleteFailed else
  if draining s then Err Scheduler.ShuttingDown else
  if contains id s then Err Scheduler.InUse else
  map_err (λ _, Scheduler.DeleteFailed) store_delete.

(** * Shutdown *)

(** The first call of [shutdown]: the fence, under the admin lock.  [true]: no
    admitted work is left. *)
Definition shutdown_begin (s : State) : bool * State :=
  match flight s with
  | NoFlight =>
    let s := with_draining true s in
    let s := with_health (Health.transition Health.Draining (Some Health.RDraining) (health s)).2 s in
    let s := with_coordinator (Shutdown.begin (coordinator s)) s in
    ((admitted s =? 0)%N, with_flight Draining s)
  | _ => (false, s)
  end.

(** The deadline of a running shutdown only tightens ([send_if_modified]). *)
Definition tighten (current requested : option N) : option N :=
  match current, requested with
  | None, Some r => Some r
  | Some c, Some r => Some (N.min c r)
  | c, None => c
  end.

(** [finish_shutdown], first part: installations are cancelled unless the work
    drained, the forced-stop signal is published, every slot stops accepting and is
    cancelled, the coordinator stops and the schedulers are drained. *)
Definition shutdown_fence (drained : bool) (s : State) : State :=
  let s := if drained then s
           else with_force_stop true (with_installs ((λ c, (cancel_before_commit c).2) <$> installs s) s) in
  let registered := map_to_list (models s) in
  let s := foldl (λ s e, update_slot (λ sl, mk_Slot (key sl) (leases sl) false true (queued sl)) e.2 s) s registered in
  with_flight (Fenced drained) (with_retired [] (with_schedulers ∅ (with_coordinator (Shutdown.force_stop (coordinator s)) s))).

(** Second part, under the admin lock: the registries are cleared. *)
Definition shutdown_clear (drained : bool) (s : State) : State :=
  with_flight (Cleared drained) (with_loading ∅ (with_models ∅ s)).

(** Last part: health is cleared and stopped. *)
Definition shutdown_finish (drained : bool) (s : State) : State :=
  with_flight (Finished drained)
    (with_health (Health.transition Health.Stopped (Some Health.RStopped) (Health.clear_models (health s))).2 s).

(** * Steps *)

(** The key counter does not wrap (it would take 2^64 registrations), and neither
    do the reference counts (each unit is a live value in memory). *)
Definition counters_fit (s : State) : Prop :=
  (next_key s < 2 ^ 64 - 1)%N ∧ (N.of_nat (length (held_leases s)) < 2 ^ 64 - 1)%N ∧
  (held_permits s < 2 ^ 64 - 1)%N ∧ (N.of_nat (length (held_queue s)) < 2 ^ 64 - 1)%N ∧
  (held_active s < 2 ^ 64 - 1)%N.

Inductive step (s : State) : State → Prop :=
| s_admit s' b : admit_work s = (b, s') → step s s'
| s_drop_permit : (0 < held_permits s)%N → step s (drop_permit s).2
| s_lease id r s' : lease id s = (r, s') → step s s'
| s_clone i : i ∈ held_leases s → step s (clone_lease i s)
| s_drop_lease i : i ∈ held_leases s → step s (drop_lease i s)
| s_acquire i b s' : acquire_queue i s = (b, s') → step s s'
| s_drop_queue i : i ∈ held_queue s → step s (drop_queue i s)
| s_register id ex al r s' : register_engine id ex al s = (r, s') → step s s'
| s_reserve id r s' : reserve id s = (r, s') → step s s'
| s_publish id k st al r s' : (id, k) ∈ reservations s → publish id k st al s = (r, s') → step s s'
| s_drop_reservation id k : (id, k) ∈ reservations s → step s (drop_reservation id k s)
| s_begin_install r s' : begin_install s = (r, s') → step s s'
| s_end_install op : is_Some (installs s !! op) → (0 < held_permits s)%N → step s (end_install op s)
| s_install_commit op b s' : install_commit op s = (b, s') → step s s'
| s_install_cancel op : step s (install_cancel op s)
| s_embed_begin : step s (embed_begin s)
| s_embed_end out micros : (0 < held_active s)%N → step s (embed_end out micros s)
| s_unload fin id r s' : unload fin id s = (r, s') → step s s'
| s_shutdown b s' : shutdown_begin s = (b, s') → step s s'
| s_fence d : flight s = Draining → (d = true → admitted s = 0%N) → step s (shutdown_fence d s)
| s_clear d : flight s = Fenced d → step s (shutdown_clear d s)
| s_finish d : flight s = Cleared d → step s (shutdown_finish d s).

Inductive reachable (p : BatchPolicy) : State → Prop :=
| r_new : reachable p (new_runtime p)
| r_step s s' : reachable p s → counters_fit s → step s s' → reachable p s'.

(** Case analysis on a step, with a name for what each step gives. *)
Ltac step_cases H := destruct H as
    [s' b Ha|Hp|id r s' Hl|i Hi|i Hi|i b s' Hq|i Hi|id ex al r s' Hr|id r s' Hr|id k st al r s' Hin Hp|id k Hin|r s' Hb
    |op Hop Hp|op b s' Hic|op| |out micros Hact|fin id r s' Hu|b s' Hs|d Hfl Hdr|d Hfl|d Hfl].

(** * Counting holders *)

Fixpoint count (i : nat) (l : list nat) : N :=
  match l with [] => 0 | j :: l => if decide (i = j) then 1 + count i l else count i l end%N.

(** A counter of each slot is the number of values in [held] that refer to it. *)
Definition counts (f : Slot → N) (held : list nat) (sl : list Slot) : Prop :=
  Forall (λ i, i < length sl)%nat held ∧ ∀ i s, sl !! i = Some s → f s = count i held.

Lemma count_length i l : (count i l <= N.of_nat (length l))%N.
Proof. induction l as [|j l IH]; simpl; [lia|]. destruct (decide (i = j)); lia. Qed.

Lemma count_pos i l : i ∈ l ↔ count i l ≠ 0%N.
Proof.
  induction l as [|j l IH]; simpl; [split; [by intros ?%not_elem_of_nil|done]|].
  rewrite elem_of_cons, IH. destruct (decide (i = j)) as [->|]; [split; [lia|by left]|]. naive_solver.
Qed.

Lemma remove_one_cons x y (l : list nat) :
  remove_one x (y :: l) = if decide (x = y) then l else y :: remove_one x l.
Proof.
  unfold remove_one. cbn [list_find]. destruct (decide (x = y)); [done|].
  by destruct (list_find (x =.) l) as [[i z]|].
Qed.

Lemma count_remove_one i j l :
  j ∈ l → count i (remove_one j l) = (if decide (i = j) then count i l - 1 else count i l)%N.
Proof.
  induction l as [|k l IH]; [by intros ?%not_elem_of_nil|]. intros Hin. rewrite remove_one_cons. simpl.
  destruct (decide (j = k)) as [->|Hjk]; [destruct (decide (i = k)); [lia|done]|].
  apply elem_of_cons in Hin as [|Hin]; [done|]. simpl. rewrite (IH Hin).
  destruct (decide (i = k)), (decide (i = j)); subst; (done || lia).
Qed.

Lemma remove_one_subset (x y : nat) l : y ∈ remove_one x l → y ∈ l.
Proof.
  induction l as [|z l IH]; [done|]. rewrite remove_one_cons. destruct (decide (x = z)); [by right|].
  intros [->|H]%elem_of_cons; [by left|right; auto].
Qed.

Lemma remove_one_length (x : nat) l : (length (remove_one x l) ≤ length l)%nat.
Proof. induction l as [|z l IH]; [done|]. rewrite remove_one_cons. destruct (decide (x = z)); simpl; lia. Qed.

Lemma counts_same f held sl g i :
  counts f held sl → (∀ s, f (g s) = f s) → counts f held (alter g i sl).
Proof.
  intros [H1 H2] Hg. split; [by rewrite length_alter|]. intros j s Hj.
  destruct (decide (i = j)) as [->|].
  - rewrite list_lookup_alter_eq in Hj. apply fmap_Some in Hj as (s0 & Hs0 & ->). rewrite Hg. auto.
  - rewrite list_lookup_alter_ne in Hj by done. auto.
Qed.

Lemma counts_new f held sl s : counts f held sl → f s = 0%N → counts f held (sl ++ [s]).
Proof.
  intros [H1 H2] Hs. split.
  - eapply Forall_impl; [exact H1|]. intros i Hi. rewrite length_app. simpl. simpl in Hi. lia.
  - intros i s' Hi. apply lookup_app_Some in Hi as [Hi|[Hi Hs']]; [auto|].
    destruct (i - length sl)%nat eqn:E; simplify_eq/=. rewrite Hs.
    symmetry. destruct (decide (count i held = 0%N)) as [->|Hc]; [done|].
    apply count_pos in Hc. rewrite Forall_forall in H1. specialize (H1 i Hc). simpl in H1. lia.
Qed.

Lemma counts_incr f held sl g i s0 :
  counts f held sl → sl !! i = Some s0 → f (g s0) = (f s0 + 1)%N → counts f (i :: held) (alter g i sl).
Proof.
  intros [H1 H2] Hi Hg. split.
  - rewrite length_alter. constructor; [by eapply lookup_lt_Some|done].
  - intros j s Hj. simpl. destruct (decide (j = i)) as [->|].
    + rewrite list_lookup_alter_eq, Hi in Hj. simplify_eq/=. rewrite Hg, (H2 i s0 Hi). lia.
    + rewrite list_lookup_alter_ne in Hj by done. auto.
Qed.

Lemma counts_decr f held sl g i :
  counts f held sl → i ∈ held → (∀ s, (f s ≠ 0)%N → f (g s) = (f s - 1)%N) →
  counts f (remove_one i held) (alter g i sl).
Proof.
  intros [H1 H2] Hi Hg. split.
  - rewrite length_alter. rewrite Forall_forall in *. intros j Hj. apply H1. by eapply remove_one_subset.
  - intros j s Hj. rewrite count_remove_one by done. destruct (decide (j = i)) as [->|].
    + rewrite list_lookup_alter_eq in Hj. apply fmap_Some in Hj as (s0 & Hs0 & ->).
      rewrite <-(H2 i s0 Hs0). apply Hg. rewrite (H2 i s0 Hs0). by apply count_pos.
    + rewrite list_lookup_alter_ne in Hj by done. auto.
Qed.

Lemma wrapping_sub_1 n : (n ≠ 0)%N → (n < 2 ^ 64)%N → wrapping_sub n 1 = (n - 1)%N.
Proof.
  intros Hn Hb. unfold wrapping_sub. replace (n + 2 ^ 64 - 1)%N with ((n - 1) + 1 * 2 ^ 64)%N by lia.
  rewrite N.Div0.mod_add, N.mod_small by lia. done.
Qed.

Lemma wrapping_add_1 n : (n < 2 ^ 64 - 1)%N → wrapping_add n 1 = (n + 1)%N.
Proof. intros H. unfold wrapping_add. apply N.mod_small. lia. Qed.

(** ** Leases and queue permits are exact *)

Record accounting (s : State) : Prop := {
  ac_leases : counts leases (held_leases s) (slots s);
  ac_queue : counts queued (held_queue s) (slots s);
  ac_depth : ∀ i sl, slots s !! i = Some sl → (queued sl <= Scheduler.queue_depth (policy s))%N;
}.

(** Operations that only touch other parts of the slots, or add a fresh one. *)
Lemma accounting_alter s g i :
  accounting s → (∀ sl, leases (g sl) = leases sl) → (∀ sl, queued (g sl) = queued sl) →
  accounting (update_slot g i s).
Proof.
  intros [H1 H2 H3] Hl Hq. split; simpl; [by apply counts_same..|].
  intros j sl Hj. destruct (decide (i = j)) as [->|].
  - rewrite list_lookup_alter_eq in Hj. apply fmap_Some in Hj as (s0 & Hs0 & ->). rewrite Hq. eauto.
  - rewrite list_lookup_alter_ne in Hj by done. eauto.
Qed.

Lemma accounting_publish s id k : accounting s → accounting (publish_slot id k s).
Proof.
  intros [H1 H2 H3]. split; simpl; [by apply counts_new..|].
  intros i sl Hi. apply lookup_app_Some in Hi as [Hi|[_ Hi]]; [eauto|].
  destruct (i - _)%nat; simplify_eq/=. lia.
Qed.

(** Nothing but the listed fields matters. *)
Lemma accounting_ext s s' :
  accounting s → slots s' = slots s → held_leases s' = held_leases s → held_queue s' = held_queue s →
  policy s' = policy s → accounting s'.
Proof. intros [H1 H2 H3] E1 E2 E3 E4. split; rewrite ?E1, ?E2, ?E3, ?E4; done. Qed.
#[export] Hint Extern 2 (accounting _) => (by eapply accounting_ext) : invariants.

Lemma accounting_fold s l :
  accounting s →
  accounting (foldl (λ s (e : string * nat), update_slot (λ sl, mk_Slot (key sl) (leases sl) false true (queued sl)) e.2 s) s l).
Proof.
  revert s. induction l as [|e l IH]; intros s H; simpl; [done|]. apply IH. by apply accounting_alter.
Qed.

Lemma accounting_lease s i sl :
  accounting s → counters_fit s → slots s !! i = Some sl →
  accounting (with_held_leases (i :: held_leases s)
    (update_slot (λ sl, mk_Slot (key sl) (wrapping_add (leases sl) 1) (accepting sl) (cancelled sl) (queued sl)) i s)).
Proof.
  intros [H1 H2 H3] Hf Hi. split; simpl.
  - eapply counts_incr; [done|done|]. simpl. apply wrapping_add_1.
    rewrite (proj2 H1 i sl Hi). pose proof (count_length i (held_leases s)). unfold counters_fit in Hf. lia.
  - by apply counts_same.
  - intros j s' Hj. destruct (decide (i = j)) as [->|].
    + rewrite list_lookup_alter_eq in Hj. apply fmap_Some in Hj as (s0 & Hs0 & ->). simpl. eauto.
    + rewrite list_lookup_alter_ne in Hj by done. eauto.
Qed.

Lemma accounting_drop_lease s i :
  accounting s → counters_fit s → i ∈ held_leases s → accounting (drop_lease i s).
Proof.
  intros [H1 H2 H3] Hf Hi. unfold drop_lease.
  assert (Hb : ∀ sl, slots s !! i = Some sl → (leases sl < 2 ^ 64)%N).
  { intros sl Hsl. rewrite (proj2 H1 i sl Hsl). pose proof (count_length i (held_leases s)).
    unfold counters_fit in Hf. lia. }
  split; simpl.
  - destruct H1 as [H1a H1b]. split.
    + rewrite length_alter. rewrite Forall_forall in *. intros j Hj. apply H1a. by eapply remove_one_subset.
    + intros j s' Hj. rewrite count_remove_one by done. destruct (decide (j = i)) as [->|].
      * rewrite list_lookup_alter_eq in Hj. apply fmap_Some in Hj as (s0 & Hs0 & ->). simpl.
        rewrite wrapping_sub_1; [by rewrite (H1b i s0)| |by apply Hb].
        rewrite (H1b i s0 Hs0). by apply count_pos.
      * rewrite list_lookup_alter_ne in Hj by done. auto.
  - by apply counts_same.
  - intros j s' Hj. destruct (decide (i = j)) as [->|].
    + rewrite list_lookup_alter_eq in Hj. apply fmap_Some in Hj as (s0 & Hs0 & ->). simpl. eauto.
    + rewrite list_lookup_alter_ne in Hj by done. eauto.
Qed.

Lemma accounting_acquire s i sl :
  accounting s → slots s !! i = Some sl → (queued sl < Scheduler.queue_depth (policy s))%N →
  accounting (with_held_queue (i :: held_queue s)
    (update_slot (λ sl, mk_Slot (key sl) (leases sl) (accepting sl) (cancelled sl) (queued sl + 1)) i s)).
Proof.
  intros [H1 H2 H3] Hi Hq. split; simpl; [by apply counts_same|by eapply counts_incr|].
  intros j s' Hj. destruct (decide (i = j)) as [->|].
  - rewrite list_lookup_alter_eq, Hi in Hj. simplify_eq/=. lia.
  - rewrite list_lookup_alter_ne in Hj by done. eauto.
Qed.

Lemma accounting_drop_queue s i :
  accounting s → (Scheduler.queue_depth (policy s) <= usize_max)%N → i ∈ held_queue s → accounting (drop_queue i s).
Proof.
  intros [H1 H2 H3] Hd Hi.
  assert (Hw : ∀ sl, slots s !! i = Some sl → wrapping_sub (queued sl) 1 = (queued sl - 1)%N).
  { intros sl Hsl. apply wrapping_sub_1; [rewrite (proj2 H2 i sl Hsl); by apply count_pos|].
    specialize (H3 i sl Hsl). unfold usize_max, u64_max in Hd. lia. }
  split; simpl; [by apply counts_same| |].
  - destruct H2 as [H2a H2b]. split.
    + rewrite length_alter. rewrite Forall_forall in *. intros j Hj. apply H2a. by eapply remove_one_subset.
    + intros j s' Hj. rewrite count_remove_one by done. destruct (decide (j = i)) as [->|].
      * rewrite list_lookup_alter_eq in Hj. apply fmap_Some in Hj as (s0 & Hs0 & ->). simpl.
        by rewrite Hw, (H2b i s0).
      * rewrite list_lookup_alter_ne in Hj by done. auto.
  - intros j s' Hj. destruct (decide (i = j)) as [->|].
    + rewrite list_lookup_alter_eq in Hj. apply fmap_Some in Hj as (s0 & Hs0 & ->). simpl.
      rewrite Hw by done. specialize (H3 _ _ Hs0). lia.
    + rewrite list_lookup_alter_ne in Hj by done. eauto.
Qed.

Lemma admit_work_accounting s b s' : accounting s → admit_work s = (b, s') → accounting s'.
Proof.
  unfold admit_work. intros H. repeat case_match; intros; simplify_eq; try done; by eapply accounting_ext.
Qed.

Lemma accounting_step s s' :
  accounting s → counters_fit s → (Scheduler.queue_depth (policy s) <= usize_max)%N → step s s' → accounting s'.
Proof.
  intros H Hf Hd Hstep. step_cases Hstep.
  - by eapply admit_work_accounting.
  - by eapply accounting_ext.
  - unfold lease in Hl. repeat case_match; simplify_eq; try done. by eapply accounting_lease.
  - unfold clone_lease. destruct (lookup_lt_is_Some_2 (slots s) i) as [sl Hsl].
    { destruct H as [[H1 _] _ _]. rewrite Forall_forall in H1. by apply H1. }
    by eapply accounting_lease.
  - by apply accounting_drop_lease.
  - unfold acquire_queue in Hq. repeat case_match; simplify_eq; try done. inv_bool.
    eapply accounting_ext; [by eapply accounting_acquire|done..].
  - by apply accounting_drop_queue.
  - unfold register_engine in Hr. repeat case_match; simplify_eq; try done; [by eapply accounting_ext|].
    apply accounting_publish. by eapply accounting_ext.
  - frame reserve in Hr.
  - unfold publish in Hp. repeat case_match; simplify_eq; try done.
    eapply accounting_ext; [apply (accounting_publish (with_loading (delete id (loading s)) s) id k); by eapply accounting_ext|done..].
  - by eapply accounting_ext.
  - unfold begin_install in Hb. destruct (draining s); [by simplify_eq|].
    destruct (admit_work s) as [[] s1] eqn:Ha; simplify_eq; eapply admit_work_accounting in Ha; try done.
    by eapply accounting_ext.
  - by eapply accounting_ext.
  - frame install_commit in Hic.
  - unfold install_cancel. case_match; by eauto with invariants.
  - by eapply accounting_ext.
  - by eapply accounting_ext.
  - unfold unload in Hu. repeat case_match; simplify_eq; try done;
    match goal with Hsl : slots s !! ?n = Some ?sl |- _ =>
      eapply (accounting_ext (update_slot (λ sl, mk_Slot (key sl) (leases sl) false (cancelled sl) (queued sl)) n s));
        [by apply accounting_alter|done..] end.
  - unfold shutdown_begin in Hs. repeat case_match; simplify_eq; try done. by eapply accounting_ext.
  - unfold shutdown_fence. cbv zeta.
    match goal with |- accounting (with_flight _ (with_retired _ (with_schedulers _ (with_coordinator _ ?x)))) =>
      apply (accounting_ext x); [|done..] end.
    apply accounting_fold. destruct d; [done|]. by eapply accounting_ext.
  - by eapply accounting_ext.
  - by eapply accounting_ext.
Qed.

(** ** Work permits and the shutdown fence *)

(** What the shutdown has concluded about the admitted work. *)
Definition reported_drained (f : Flight) : bool :=
  match f with Fenced d | Cleared d | Finished d => d | _ => false end.

Record fence (s : State) : Prop := {
  fe_admitted : admitted s = held_permits s;
  fe_active : Shutdown.active (coordinator s) = held_permits s;
  fe_poison : Shutdown.poisoned (coordinator s) = false;
  fe_draining : draining s = false ↔ flight s = NoFlight;
  fe_running : Shutdown.shutdown (coordinator s) = Shutdown.Running ↔ flight s = NoFlight;
  fe_stopped : flight s ≠ NoFlight → flight s ≠ Draining → Shutdown.shutdown (coordinator s) = Shutdown.Stopped;
  fe_drained : reported_drained (flight s) = true → held_permits s = 0%N;
}.

(** Nothing but the listed fields matters. *)
Lemma fence_ext s s' :
  fence s → admitted s' = admitted s → held_permits s' = held_permits s → coordinator s' = coordinator s →
  draining s' = draining s → flight s' = flight s → fence s'.
Proof. destruct s, s'. simpl. intros [] -> -> -> -> ->. by split. Qed.
#[export] Hint Extern 2 (fence _) => (by eapply fence_ext) : invariants.

Lemma fence_admit s b s' : fence s → counters_fit s → admit_work s = (b, s') → fence s'.
Proof.
  intros H Hf. pose proof H as []. unfold admit_work. destruct (draining s) eqn:Hd; [by intros; simplify_eq|].
  destruct (Shutdown.coordinator_admit (coordinator s)) as [[] c] eqn:Ha; [|by intros; simplify_eq].
  apply Shutdown.admit_true in Ha as (_ & Hr & ->). intros [= <- <-]. unfold counters_fit in Hf.
  split; simpl; try done.
  - rewrite wrapping_add_1 by lia. lia.
  - unfold saturating_add, usize_max, u64_max. lia.
  - by rewrite Hd.
  - split; [intros _; by apply fe_running0|done].
  - intros Hne _. destruct Hne. by apply fe_draining0.
  - by rewrite (proj1 fe_draining0 eq_refl).
Qed.

Lemma fence_drop s : fence s → counters_fit s → (0 < held_permits s)%N → fence (drop_permit s).2.
Proof.
  intros [] Hf Hp. unfold counters_fit in Hf. unfold drop_permit, Shutdown.drop_permit. rewrite fe_poison0.
  split; simpl; try done.
  - rewrite wrapping_sub_1 by lia. lia.
  - unfold saturating_sub. lia.
  - rewrite <-fe_running0. destruct (_ && _) eqn:E; [|done]. inv_bool. split; [done|]. congruence.
  - intros H1 H2. rewrite fe_stopped0 by done. by destruct (_ && _).
  - intros Hr. specialize (fe_drained0 Hr). lia.
Qed.

Lemma fence_shutdown d s :
  fence s → flight s = Draining → (d = true → admitted s = 0%N) → fence (shutdown_fence d s).
Proof.
  intros H Hfl Hdr. unfold shutdown_fence. cbv zeta.
  assert (Hx : ∀ s1 l, fence s1 → flight s1 = Draining → (d = true → held_permits s1 = 0%N) →
    fence (with_flight (Fenced d) (with_retired [] (with_schedulers ∅ (with_coordinator (Shutdown.force_stop (coordinator
      (foldl (λ s (e : string * nat), update_slot (λ sl, mk_Slot (key sl) (leases sl) false true (queued sl)) e.2 s) s1 l)))
      (foldl (λ s (e : string * nat), update_slot (λ sl, mk_Slot (key sl) (leases sl) false true (queued sl)) e.2 s) s1 l)))))).
  { intros s1 l. revert s1. induction l as [|e l IH]; intros s1 H1 Hfl1 Hd1; simpl.
    - destruct H1. assert (Hd : draining s1 ≠ false) by (rewrite fe_draining0; congruence).
      split; simpl; unfold Shutdown.force_stop; rewrite ?fe_poison0; simpl; try done.
    - apply IH; [by eapply fence_ext|done..]. }
  rewrite (fe_admitted s H) in Hdr. apply Hx; destruct d; (done || by eapply fence_ext).
Qed.

Lemma fence_step s s' : fence s → counters_fit s → step s s' → fence s'.
Proof.
  intros H Hf Hstep. step_cases Hstep.
  - by eapply fence_admit.
  - by apply fence_drop.
  - frame lease in Hl.
  - by eapply fence_ext.
  - by eapply fence_ext.
  - frame acquire_queue in Hq.
  - by eapply fence_ext.
  - frame register_engine in Hr.
  - frame reserve in Hr.
  - frame publish in Hp.
  - by eapply fence_ext.
  - unfold begin_install in Hb. destruct (draining s); [by simplify_eq|].
    destruct (admit_work s) as [[] s1] eqn:Ha; simplify_eq; eapply fence_admit in Ha; try done. by eapply fence_ext.
  - apply fence_drop; [by eapply fence_ext|done|done].
  - frame install_commit in Hic.
  - unfold install_cancel. case_match; by eauto with invariants.
  - by eapply fence_ext.
  - by eapply fence_ext.
  - frame unload in Hu.
  - unfold shutdown_begin in Hs. destruct (flight s) eqn:Hfl; simplify_eq; try done. destruct H.
    assert (Hr : Shutdown.shutdown (coordinator s) = Shutdown.Running) by by apply fe_running0.
    split; simpl; unfold Shutdown.begin; rewrite ?fe_poison0; simpl; try done.
    rewrite Hr. by destruct (_ =? 0)%N.
  - by apply fence_shutdown.
  - destruct H. assert (Hd : draining s ≠ false) by (rewrite fe_draining0; congruence).
    assert (Hs : Shutdown.shutdown (coordinator s) = Shutdown.Stopped) by (apply fe_stopped0; congruence).
    rewrite Hfl in fe_drained0. split; simpl; rewrite ?Hs; done.
  - destruct H. assert (Hd : draining s ≠ false) by (rewrite fe_draining0; congruence).
    assert (Hs : Shutdown.shutdown (coordinator s) = Shutdown.Stopped) by (apply fe_stopped0; congruence).
    rewrite Hfl in fe_drained0. split; simpl; rewrite ?Hs; done.
Qed.

(** ** The registries agree *)

Abbreviation hmodels h := (Health.models (Health.inner h)).

(** The part of the state that describes which models exist. *)
Record Reg := mk_Reg {
  g_slots : list (N * bool);
  g_models : gmap string nat;
  g_loading : gmap string N;
  g_res : list (string * N);
  g_health : gmap N Health.ModelState;
  g_sched : gset N;
  g_flight : Flight;
  g_next : N;
}.
Definition reg (s : State) : Reg :=
  mk_Reg ((λ sl, (key sl, accepting sl)) <$> slots s) (models s) (loading s) (reservations s)
    (hmodels (health s)) (schedulers s) (flight s) (next_key s).

Definition registered (g : Reg) (k : N) : Prop :=
  ∃ id i a, g_models g !! id = Some i ∧ g_slots g !! i = Some (k, a).
Definition is_loading (g : Reg) (k : N) : Prop := ∃ id, g_loading g !! id = Some k.
Definition serving (f : Flight) : Prop := f = NoFlight ∨ f = Draining.
Definition populated (f : Flight) : Prop := serving f ∨ ∃ d, f = Fenced d.

Record registry (g : Reg) : Prop := {
  rg_slot : ∀ id i, g_models g !! id = Some i → is_Some (g_slots g !! i);
  rg_inj : ∀ id id' i, g_models g !! id = Some i → g_models g !! id' = Some i → id = id';
  rg_keys : ∀ i j k a b, g_slots g !! i = Some (k, a) → g_slots g !! j = Some (k, b) → i = j;
  rg_fresh : ∀ i k a, g_slots g !! i = Some (k, a) → (k < g_next g)%N;
  rg_res_fresh : ∀ id k, (id, k) ∈ g_res g → (k < g_next g)%N ∧ ∀ i a, g_slots g !! i ≠ Some (k, a);
  rg_res : NoDup (snd <$> g_res g);
  rg_loading : ∀ id k, g_loading g !! id = Some k → (id, k) ∈ g_res g;
  rg_disjoint : ∀ id i, g_models g !! id = Some i → g_loading g !! id = None;
  rg_health : populated (g_flight g) → ∀ k m, g_health g !! k = Some m ↔
    (m = Health.MReady ∧ registered g k) ∨ (m = Health.MLoading ∧ is_loading g k);
  rg_sched : ∀ k, k ∈ g_sched g ↔ serving (g_flight g) ∧ registered g k;
  rg_accepting : ∀ i k a, g_slots g !! i = Some (k, a) →
    a = true ↔ serving (g_flight g) ∧ ∃ id, g_models g !! id = Some i;
  rg_cleared : ¬ populated (g_flight g) → g_models g = ∅ ∧ g_loading g = ∅;
  rg_finished : ∀ d, g_flight g = Finished d → g_health g = ∅;
}.

Lemma res_key_unique g id id' k : registry g → (id, k) ∈ g_res g → (id', k) ∈ g_res g → id = id'.
Proof.
  intros H. pose proof (rg_res g H) as Hn. clear H. induction (g_res g) as [|[a b] l IH]; [by intros ?%not_elem_of_nil|].
  csimpl in Hn. apply NoDup_cons in Hn as [Hb Hn]. rewrite !elem_of_cons.
  assert (Hin : ∀ x, (x, b) ∈ l → False).
  { intros x Hx. apply Hb. apply list_elem_of_fmap. by exists (x, b). }
  intros [[= -> ->]|H1] [[= ->]|H2]; [done| | |by apply IH]; exfalso; subst; by eapply Hin.
Qed.

Lemma registered_not_res g id k : registry g → (id, k) ∈ g_res g → ¬ registered g k.
Proof. intros H Hin (x & i & a & _ & Hs). by apply (proj2 (rg_res_fresh g H id k Hin) i a). Qed.

Lemma slots_app (sl : list (N * bool)) x i k a :
  (sl ++ [x]) !! i = Some (k, a) ↔ sl !! i = Some (k, a) ∨ (i = length sl ∧ x = (k, a)).
Proof.
  rewrite lookup_app_Some. split; [intros [H|[Hl H]]|intros [H|[-> ->]]].
  - by left.
  - destruct (i - length sl)%nat eqn:E; simplify_eq/=. right. split; [lia|done].
  - by left.
  - right. split; [lia|]. by rewrite Nat.sub_diag.
Qed.

(** What is registered after a publication. *)
Lemma registered_publish g id k sc h k' :
  registry g → g_models g !! id = None →
  registered (mk_Reg (g_slots g ++ [(k, true)]) (<[id := length (g_slots g)]> (g_models g)) (g_loading g) (g_res g)
    h sc (g_flight g) (g_next g)) k' ↔ k' = k ∨ registered g k'.
Proof.
  intros H Hm. unfold registered; simpl. split.
  - intros (x & i & a & Hx & Hi). apply slots_app in Hi as [Hi|[-> Hi]]; [|left; congruence].
    destruct (decide (x = id)) as [->|].
    + rewrite lookup_insert_eq in Hx. simplify_eq. apply lookup_lt_Some in Hi. lia.
    + rewrite lookup_insert_ne in Hx by done. right. eauto 10.
  - intros [->|(x & i & a & Hx & Hi)].
    + exists id, (length (g_slots g)), true. rewrite lookup_insert_eq, slots_app. auto.
    + exists x, i, a. rewrite lookup_insert_ne by congruence. rewrite slots_app. auto.
Qed.

(** Publishing a model under a fresh key. *)
Lemma registry_publish g id k :
  registry g → g_flight g = NoFlight → g_models g !! id = None → g_loading g !! id = None →
  (k < g_next g)%N → (∀ i a, g_slots g !! i ≠ Some (k, a)) → (∀ x, (x, k) ∉ g_res g) → ¬ is_loading g k →
  registry (mk_Reg (g_slots g ++ [(k, true)]) (<[id := length (g_slots g)]> (g_models g)) (g_loading g) (g_res g)
    (<[k := Health.MReady]> (g_health g)) ({[k]} ∪ g_sched g) (g_flight g) (g_next g)).
Proof.
  intros H Hf Hm Hl Hk Hs Hr Hld.
  assert (Hlt : ∀ x i, g_models g !! x = Some i → (i < length (g_slots g))%nat).
  { intros x i Hx. apply (rg_slot g H) in Hx. by apply lookup_lt_is_Some. }
  assert (Hserve : serving (g_flight g)) by by left.
  pose proof (λ k', registered_publish g id k ({[k]} ∪ g_sched g) (<[k := Health.MReady]> (g_health g)) k' H Hm) as Hreg.
  split; simpl.
  - intros x i Hx. apply lookup_insert_Some in Hx as [[<- <-]|[_ Hx]].
    + eexists. apply slots_app. by right.
    + apply (rg_slot g H) in Hx as [[k' a] Hx]. eexists. apply slots_app. by left.
  - intros x y i Hx Hy. apply lookup_insert_Some in Hx as [[<- <-]|[_ Hx]], Hy as [[<- E]|[_ Hy]]; [done| | |].
    + apply Hlt in Hy. lia.
    + subst. apply Hlt in Hx. lia.
    + by eapply (rg_inj g H).
  - intros i j k' a b Hi Hj. apply slots_app in Hi as [Hi|[-> Hi]], Hj as [Hj|[-> Hj]]; simplify_eq; try done.
    + by eapply (rg_keys g H).
    + by apply Hs in Hi.
    + by apply Hs in Hj.
  - intros i k' a Hi. apply slots_app in Hi as [Hi|[-> Hi]]; [by eapply (rg_fresh g H)|by simplify_eq].
  - intros x k' Hx. destruct (rg_res_fresh g H x k' Hx) as [H1 H2]. split; [done|]. intros i a Hi.
    apply slots_app in Hi as [Hi|[_ Hi]]; [by apply H2 in Hi|]. simplify_eq. by apply (Hr x).
  - apply (rg_res g H).
  - apply (rg_loading g H).
  - intros x i Hx. apply lookup_insert_Some in Hx as [[<- _]|[_ Hx]]; [done|by eapply (rg_disjoint g H)].
  - intros Hp k' m. rewrite lookup_insert_Some, Hreg, (rg_health g H Hp).
    assert (Hnk : ∀ a, is_loading g a → a ≠ k) by (intros a Ha ->; done).
    split.
    + intros [[<- <-]|[Hne [[-> Hr']|[-> Hl']]]]; [left; auto|left; auto|by right].
    + intros [[-> [->|Hr']]|[-> Hl']]; [by left| |].
      * destruct (decide (k = k')) as [->|]; [by left|right; split; [done|]; by left].
      * right. split; [by apply not_eq_sym, Hnk|by right].
  - intros k'. rewrite elem_of_union, elem_of_singleton, Hreg, (rg_sched g H). naive_solver.
  - intros i k' a Hi. apply slots_app in Hi as [Hi|[-> Hi]].
    + rewrite (rg_accepting g H i k' a Hi). split; intros [Hsv [x Hx]]; (split; [done|]).
      * exists x. rewrite lookup_insert_ne; [done|congruence].
      * apply lookup_insert_Some in Hx as [[<- <-]|[_ Hx]]; [|by exists x]. apply lookup_lt_Some in Hi. lia.
    + simplify_eq. split; [|done]. intros _. split; [done|]. exists id. by rewrite lookup_insert_eq.
  - intros Hn. exfalso. apply Hn. by left.
  - intros d Hd. congruence.
Qed.

(** The key counter may run ahead. *)
Lemma registry_next g n :
  registry g → (g_next g <= n)%N →
  registry (mk_Reg (g_slots g) (g_models g) (g_loading g) (g_res g) (g_health g) (g_sched g) (g_flight g) n).
Proof.
  intros [] Hn. split; simpl; try done.
  - intros i k a Hi. specialize (rg_fresh0 i k a Hi). lia.
  - intros id k Hin. destruct (rg_res_fresh0 id k Hin). split; [lia|done].
Qed.

(** Reserving a name under a fresh key. *)
Lemma registry_reserve g id k :
  registry g → g_flight g = NoFlight → g_models g !! id = None → g_loading g !! id = None →
  (k < g_next g)%N → (∀ i a, g_slots g !! i ≠ Some (k, a)) → (∀ x, (x, k) ∉ g_res g) →
  registry (mk_Reg (g_slots g) (g_models g) (<[id := k]> (g_loading g)) ((id, k) :: g_res g)
    (<[k := Health.MLoading]> (g_health g)) (g_sched g) (g_flight g) (g_next g)).
Proof.
  intros H Hf Hm Hl Hk Hs Hr.
  assert (Hnr : ¬ registered g k) by (intros (x & i & a & _ & Hi); by apply Hs in Hi).
  split; simpl; try (by destruct H).
  - intros x k' [[= -> ->]|Hx]%elem_of_cons; [done|]. by apply (rg_res_fresh g H x).
  - constructor; [|apply (rg_res g H)]. intros ([x y] & Hy & Hin)%list_elem_of_fmap. simpl in Hy. subst. by eapply Hr.
  - intros x k' Hx. apply lookup_insert_Some in Hx as [[<- <-]|[_ Hx]]; [by left|right; by apply (rg_loading g H)].
  - intros x i Hx. rewrite lookup_insert_ne by congruence. by eapply (rg_disjoint g H).
  - intros Hp k' m. rewrite lookup_insert_Some, (rg_health g H Hp). unfold registered, is_loading; simpl. split.
    + intros [[<- <-]|[Hne [Hr'|[-> [x Hx]]]]].
      * right. split; [done|]. exists id. by rewrite lookup_insert_eq.
      * by left.
      * right. split; [done|]. exists x. rewrite lookup_insert_ne; [done|congruence].
    + intros [[-> Hr']|[-> [x Hx]]].
      * right. split; [by intros ->|]. by left.
      * apply lookup_insert_Some in Hx as [[<- <-]|[Hne Hx]]; [by left|]. right.
        split; [|right; split; [done|by exists x]]. intros ->. by apply (Hr x), (rg_loading g H).
  - intros Hn. exfalso. apply Hn. by do 2 left.
  - intros d Hd. congruence.
Qed.

Lemma remove_one_elem {A} `{EqDecision A} (x y : A) l : y ∈ remove_one x l → y ∈ l.
Proof.
  unfold remove_one. destruct (list_find (x =.) l) as [[i z]|]; [|done].
  intros Hy. eapply elem_of_sublist; [exact Hy|]. apply sublist_delete.
Qed.

Lemma remove_one_other {A} `{EqDecision A} (x y : A) l : y ∈ l → y ≠ x → y ∈ remove_one x l.
Proof.
  unfold remove_one. destruct (list_find (x =.) l) as [[i z]|] eqn:E; [|done].
  apply list_find_Some in E as (Hi & <- & _). intros Hy Hne.
  apply list_elem_of_lookup in Hy as [j Hj]. assert (i ≠ j) by congruence.
  rewrite delete_take_drop. apply elem_of_app. destruct (decide (j < i)%nat).
  - left. apply list_elem_of_lookup. exists j. by rewrite lookup_take_lt.
  - right. apply list_elem_of_lookup. exists (j - S i)%nat. rewrite lookup_drop.
    by replace (S i + (j - S i))%nat with j by lia.
Qed.

Lemma remove_one_gone g id k :
  registry g → (id, k) ∈ g_res g → ∀ x, (x, k) ∉ remove_one (id, k) (g_res g).
Proof.
  intros H Hin x Hx. pose proof (remove_one_elem _ _ _ Hx) as Hx'.
  assert (x = id) as -> by by eapply res_key_unique.
  unfold remove_one in Hx. destruct (list_find _ (g_res g)) as [[i z]|] eqn:E.
  - apply list_find_Some in E as (Hi & <- & _). pose proof (rg_res g H) as Hn.
    rewrite delete_take_drop in Hx.
    rewrite <-(take_drop_middle _ _ _ Hi), fmap_app, fmap_cons in Hn.
    apply NoDup_app in Hn as (_ & Hd & Hn). apply NoDup_cons in Hn as [Hn _]. simpl in Hn, Hd.
    apply elem_of_app in Hx as [Hx|Hx].
    + apply (Hd k); [|by left]. apply list_elem_of_fmap. by exists (id, k).
    + apply Hn. apply list_elem_of_fmap. by exists (id, k).
  - by apply (list_find_None _ _) in E; rewrite Forall_forall in E; apply (E (id, k)).
Qed.

Lemma remove_one_nodup g x : registry g → NoDup (snd <$> remove_one x (g_res g)).
Proof.
  intros H. unfold remove_one. destruct (list_find _ _) as [[i z]|]; [|apply (rg_res g H)].
  eapply sublist_NoDup; [apply (rg_res g H)|]. apply fmap_sublist, sublist_delete.
Qed.

(** A reservation ends: its loading entry (if it is still its own) and its health
    entry go with it. *)
Lemma registry_unreserve g id k :
  registry g → (id, k) ∈ g_res g →
  registry (mk_Reg (g_slots g) (g_models g)
    (if bool_decide (g_loading g !! id = Some k) then delete id (g_loading g) else g_loading g)
    (remove_one (id, k) (g_res g)) (delete k (g_health g)) (g_sched g) (g_flight g) (g_next g)).
Proof.
  intros H Hin. set (ld := if bool_decide _ then _ else _).
  assert (Hld : ∀ x k', ld !! x = Some k' ↔ g_loading g !! x = Some k' ∧ k' ≠ k).
  { intros x k'. subst ld. case_bool_decide as E.
    - rewrite lookup_delete_Some. split; intros [H1 H2].
      + split; [done|]. intros ->. apply H1. symmetry.
        eapply res_key_unique; [done|by apply (rg_loading g H)|done].
      + split; [by intros ->; congruence|done].
    - split; [|by intros [? _]]. intros Hx. split; [done|]. intros ->. apply E.
      assert (x = id) as <-; [|done]. eapply res_key_unique; [done|by apply (rg_loading g H)|done]. }
  split; simpl; try (by destruct H).
  - intros x k' Hx. apply (rg_res_fresh g H x). by eapply remove_one_elem.
  - by apply remove_one_nodup.
  - intros x k' [Hx Hne]%Hld. apply remove_one_other; [by apply (rg_loading g H)|congruence].
  - intros x i Hx. apply (rg_disjoint g H) in Hx. apply eq_None_not_Some. intros [y [Hy _]%Hld]. congruence.
  - intros Hp k' m. rewrite lookup_delete_Some, (rg_health g H Hp).
    unfold registered, is_loading; simpl. setoid_rewrite Hld. split.
    + intros [Hne [Hr|[-> [x Hx]]]]; [by left|]. right. split; [done|]. by exists x.
    + intros [[-> Hr]|[-> [x [Hx Hne]]]].
      * split; [|by left]. intros <-. by eapply registered_not_res in Hr.
      * split; [by apply not_eq_sym|]. right. split; [done|]. by exists x.
  - intros Hn. destruct (rg_cleared g H Hn) as [H1 H2]. split; [done|]. apply map_empty.
    intros x. apply eq_None_not_Some. intros [y [Hy _]%Hld]. by rewrite H2 in Hy.
  - intros d Hd. rewrite (rg_finished g H d Hd). apply delete_empty.
Qed.

(** The slots and the registered keys after a model has left. *)
Lemma slots_closed (sl : list (N * bool)) i k a j k' b :
  sl !! i = Some (k, a) →
  alter (λ x, (x.1, false)) i sl !! j = Some (k', b) ↔
  ∃ b', sl !! j = Some (k', b') ∧ b = (if decide (j = i) then false else b').
Proof.
  intros Hi. destruct (decide (j = i)) as [->|].
  - rewrite list_lookup_alter_eq, Hi. simpl. split.
    + intros [= <- <-]. by exists a.
    + intros (b' & [= <- <-] & ->). done.
  - rewrite list_lookup_alter_ne by done. split; [intros Hj; by exists b|by intros (b' & Hj & ->)].
Qed.

Lemma registered_unload g id i k a h sc k' :
  registry g → g_models g !! id = Some i → g_slots g !! i = Some (k, a) →
  registered (mk_Reg (alter (λ x, (x.1, false)) i (g_slots g)) (delete id (g_models g)) (g_loading g) (g_res g)
    h sc (g_flight g) (g_next g)) k' ↔ k' ≠ k ∧ registered g k'.
Proof.
  intros H Hm Hi. unfold registered; simpl. split.
  - intros (x & j & b & Hx & Hj). apply lookup_delete_Some in Hx as [Hne Hx].
    apply (slots_closed _ _ _ _ _ _ _ Hi) in Hj as (b' & Hj & _). split; [|by exists x, j, b'].
    intros ->. assert (j = i) as -> by by eapply (rg_keys g H). by apply Hne, (rg_inj g H id x i).
  - intros [Hne (x & j & b & Hx & Hj)]. exists x, j. eexists. rewrite lookup_delete_Some, (slots_closed _ _ _ _ _ _ _ Hi).
    split; [split; [congruence|done]|]. by exists b.
Qed.

(** An idle model leaves. *)
Lemma registry_unload g id i k a :
  registry g → g_flight g = NoFlight → g_models g !! id = Some i → g_slots g !! i = Some (k, a) →
  registry (mk_Reg (alter (λ x, (x.1, false)) i (g_slots g)) (delete id (g_models g)) (g_loading g) (g_res g)
    (delete k (g_health g)) (g_sched g ∖ {[k]}) (g_flight g) (g_next g)).
Proof.
  intros H Hf Hm Hi.
  assert (Hserve : serving (g_flight g)) by by left.
  pose proof (λ j k' b, slots_closed (g_slots g) i k a j k' b Hi) as Hsl.
  pose proof (λ k', registered_unload g id i k a (delete k (g_health g)) (g_sched g ∖ {[k]}) k' H Hm Hi) as Hreg.
  split; simpl; try (by destruct H).
  - intros x j Hx. apply lookup_delete_Some in Hx as [_ Hx]. apply (rg_slot g H) in Hx as [[k' b] Hx].
    eexists. apply Hsl. by exists b.
  - intros x y j Hx Hy. apply lookup_delete_Some in Hx as [_ Hx], Hy as [_ Hy]. by eapply (rg_inj g H).
  - intros j1 j2 k' b1 b2 H1 H2. apply Hsl in H1 as (? & H1 & _), H2 as (? & H2 & _). by eapply (rg_keys g H).
  - intros j k' b Hj. apply Hsl in Hj as (? & Hj & _). by eapply (rg_fresh g H).
  - intros x k' Hx. destruct (rg_res_fresh g H x k' Hx) as [H1 H2]. split; [done|]. intros j b Hj.
    apply Hsl in Hj as (? & Hj & _). by apply H2 in Hj.
  - intros x j Hx. apply lookup_delete_Some in Hx as [_ Hx]. by eapply (rg_disjoint g H).
  - intros Hp k' m. rewrite lookup_delete_Some, Hreg, (rg_health g H Hp).
    change (is_loading (mk_Reg _ _ (g_loading g) _ _ _ _ _) k') with (is_loading g k').
    assert (Hnl : is_loading g k' → k ≠ k').
    { intros [x Hx] <-. apply (rg_loading g H) in Hx. apply (proj2 (rg_res_fresh g H x k Hx) i a Hi). }
    naive_solver.
  - intros k'. rewrite elem_of_difference, not_elem_of_singleton, Hreg, (rg_sched g H). naive_solver.
  - intros j k' b Hj. apply Hsl in Hj as (b' & Hj & ->). destruct (decide (j = i)) as [->|].
    + split; [done|]. intros [_ [x Hx]]. apply lookup_delete_Some in Hx as [Hne Hx].
      by destruct Hne; apply (rg_inj g H id x i).
    + rewrite (rg_accepting g H j k' b' Hj). split; intros [Hsv [x Hx]]; (split; [done|]); exists x.
      * apply lookup_delete_Some. split; [congruence|done].
      * by apply lookup_delete_Some in Hx as [_ Hx].
  - intros Hn. exfalso. apply Hn. by left.
  - intros d Hd. congruence.
Qed.

(** Draining changes nothing in the registries. *)
Lemma registry_drain g :
  registry g → g_flight g = NoFlight →
  registry (mk_Reg (g_slots g) (g_models g) (g_loading g) (g_res g) (g_health g) (g_sched g) Draining (g_next g)).
Proof.
  intros H Hf. assert (Hs : serving (g_flight g)) by by left.
  split; simpl; try (by destruct H).
  - intros _ k m. apply (rg_health g H). by left.
  - intros k. rewrite (rg_sched g H). split; (intros [_ Hr]; split; [|done]); [by right|done].
  - intros i k a Hi. rewrite (rg_accepting g H i k a Hi). split; (intros [_ Hr]; split; [|done]); [by right|done].
  - intros Hn. destruct Hn. left. by right.
Qed.

(** Every slot is fenced and every scheduler drained. *)
Lemma registry_fence g sl d :
  registry g → g_flight g = Draining →
  (∀ j k, (∃ b, sl !! j = Some (k, b)) ↔ ∃ b, g_slots g !! j = Some (k, b)) →
  (∀ j k b, sl !! j = Some (k, b) → b = false) →
  registry (mk_Reg sl (g_models g) (g_loading g) (g_res g) (g_health g) ∅ (Fenced d) (g_next g)).
Proof.
  intros H Hf Hsl Hfalse.
  assert (Hin : ∀ j k b, sl !! j = Some (k, b) → ∃ b', g_slots g !! j = Some (k, b')) by (intros; apply Hsl; eauto).
  split; simpl; try (by destruct H).
  - intros id i Hi. apply (rg_slot g H) in Hi as [[k b] Hi]. destruct (proj2 (Hsl i k)) as [b' Hb']; eauto.
  - intros i j k a b (? & Hi)%Hin (? & Hj)%Hin. by eapply (rg_keys g H).
  - intros i k a (? & Hi)%Hin. by eapply (rg_fresh g H).
  - intros id k Hid. destruct (rg_res_fresh g H id k Hid) as [H1 H2]. split; [done|].
    intros i a (? & Hi)%Hin. by apply H2 in Hi.
  - intros _ k m. rewrite (rg_health g H) by (left; by right).
    unfold registered, is_loading; simpl.
    assert (Heq : (∃ id i a, g_models g !! id = Some i ∧ g_slots g !! i = Some (k, a)) ↔
                  (∃ id i a, g_models g !! id = Some i ∧ sl !! i = Some (k, a))); [|by rewrite Heq].
    split; intros (id & i & a & Hid & Hi); exists id, i.
    + destruct (proj2 (Hsl i k)) as [b' Hb']; eauto.
    + destruct (proj1 (Hsl i k)) as [b' Hb']; eauto.
  - intros k. rewrite elem_of_empty. split; [done|]. by intros [[?|?] _].
  - intros i k a Hi. rewrite (Hfalse i k a Hi). split; [done|]. by intros [[?|?] _].
  - intros Hn. destruct Hn. right. by exists d.
Qed.

(** The registries are emptied. *)
Lemma registry_clear g d :
  registry g → g_flight g = Fenced d →
  registry (mk_Reg (g_slots g) ∅ ∅ (g_res g) (g_health g) (g_sched g) (Cleared d) (g_next g)).
Proof.
  intros H Hf. assert (Hs : ¬ serving (g_flight g)) by (intros [?|?]; congruence).
  split; simpl; try (by destruct H); try done.
  - by intros [[?|?]|[? ?]].
  - intros k. rewrite (rg_sched g H). split; [by intros [? _]|]. by intros [[?|?] _].
  - intros i k a Hi. rewrite (rg_accepting g H i k a Hi). split; [by intros [? _]|]. by intros [[?|?] _].
Qed.

(** Health is emptied. *)
Lemma registry_finish g d :
  registry g → g_flight g = Cleared d →
  registry (mk_Reg (g_slots g) (g_models g) (g_loading g) (g_res g) ∅ (g_sched g) (Finished d) (g_next g)).
Proof.
  intros H Hf. assert (Hs : ¬ serving (g_flight g)) by (intros [?|?]; congruence).
  assert (Hp : ¬ populated (g_flight g)) by (intros [?|[? ?]]; [done|congruence]).
  split; simpl; try (by destruct H); try done.
  - by intros [[?|?]|[? ?]].
  - intros k. rewrite (rg_sched g H). split; [by intros [? _]|]. by intros [[?|?] _].
  - intros i k a Hi. rewrite (rg_accepting g H i k a Hi). split; [by intros [? _]|]. by intros [[?|?] _].
  - intros _. by apply (rg_cleared g H).
Qed.

(** The fence reaches exactly the registered slots. *)
Lemma fence_slots (l : list (string * nat)) s j :
  slots (foldl (λ s e, update_slot (λ sl, mk_Slot (key sl) (leases sl) false true (queued sl)) e.2 s) s l) !! j =
  (λ sl, if decide (j ∈ l.*2) then mk_Slot (key sl) (leases sl) false true (queued sl) else sl) <$> slots s !! j.
Proof.
  revert s. induction l as [|[id i] l IH]; intros s.
  - cbn [foldl]. by destruct (slots s !! j).
  - cbn [foldl]. rewrite IH, fmap_cons. cbn [update_slot with_slots slots snd].
    destruct (decide (i = j)) as [->|Hne].
    + rewrite list_lookup_alter_eq. destruct (slots s !! j) as [x|]; [|done]. cbn. f_equal.
      destruct (decide (j ∈ j :: l.*2)) as [|Hd]; [by case_decide|]. destruct Hd. by left.
    + rewrite list_lookup_alter_ne by done. destruct (slots s !! j) as [x|]; [|done]. cbn. f_equal.
      apply decide_ext. rewrite elem_of_cons. naive_solver.
Qed.

(** ** Registries, health and schedulers together *)

Definition expected_lifecycle (f : Flight) : Health.LifecycleState :=
  match f with NoFlight => Health.Ready | Finished _ => Health.Stopped | _ => Health.Draining end.

Record consistent (s : State) : Prop := {
  co_reg : registry (reg s);
  co_poison : Health.poisoned (health s) = false;
  co_life : Health.lifecycle (Health.inner (health s)) = expected_lifecycle (flight s);
  co_live : ∀ d, flight s = Finished d → Health.live (Health.inner (health s)) = false;
}.

Lemma consistent_ext s s' : consistent s → reg s' = reg s → health s' = health s → consistent s'.
Proof.
  intros [H1 H2 H3 H4] Hr Hh. assert (Hf : flight s' = flight s) by apply (f_equal g_flight Hr).
  by split; rewrite ?Hr, ?Hh, ?Hf.
Qed.
#[export] Hint Extern 2 (consistent _) => (by eapply consistent_ext) : invariants.

(** An update of the health registry that keeps the lifecycle. *)
Lemma consistent_health s s' f :
  consistent s → health s' = Health.write f (health s) → flight s' = flight s →
  (∀ h, Health.lifecycle (f h) = Health.lifecycle h) → (∀ h, Health.live (f h) = Health.live h) →
  registry (reg s') → consistent s'.
Proof.
  intros [_ H2 H3 H4] Hh Hf Hl Hv Hr. split; [done|..]; rewrite Hh; unfold Health.write; rewrite H2; simpl;
    rewrite ?Hl, ?Hv, ?Hf; done.
Qed.

(** Reference counts are not part of the view. *)
Lemma reg_counts s g i :
  (∀ sl, key (g sl) = key sl) → (∀ sl, accepting (g sl) = accepting sl) → reg (update_slot g i s) = reg s.
Proof.
  intros Hk Ha. unfold reg. simpl. f_equal. apply list_eq. intros j. rewrite !list_lookup_fmap.
  destruct (decide (i = j)) as [->|]; [|by rewrite list_lookup_alter_ne].
  rewrite list_lookup_alter_eq. destruct (slots s !! j); simpl; [by rewrite Hk, Ha|done].
Qed.

Lemma reg_slot s i sl : slots s !! i = Some sl → g_slots (reg s) !! i = Some (key sl, accepting sl).
Proof. intros H. simpl. by rewrite list_lookup_fmap, H. Qed.

Lemma reg_unload_slots s i :
  (λ sl, (key sl, accepting sl)) <$>
    alter (λ sl, mk_Slot (key sl) (leases sl) false (cancelled sl) (queued sl)) i (slots s) =
  alter (λ x, (x.1, false)) i (g_slots (reg s)).
Proof.
  simpl. apply list_eq. intros j. rewrite list_lookup_fmap.
  destruct (decide (i = j)) as [->|].
  - rewrite !list_lookup_alter_eq, list_lookup_fmap. by destruct (slots s !! j).
  - by rewrite !list_lookup_alter_ne, list_lookup_fmap.
Qed.

Lemma reg_publish s id k :
  Health.poisoned (health s) = false →
  reg (publish_slot id k s) =
  mk_Reg (g_slots (reg s) ++ [(k, true)]) (<[id := length (g_slots (reg s))]> (models s)) (loading s) (reservations s)
    (<[k := Health.MReady]> (hmodels (health s))) ({[k]} ∪ schedulers s) (flight s) (next_key s).
Proof.
  intros Hp. unfold reg, publish_slot, Health.set_model, Health.write. simpl.
  by rewrite Hp, fmap_app, length_fmap.
Qed.

Lemma key_fresh s : registry (reg s) →
  (∀ i a, g_slots (reg s) !! i ≠ Some (next_key s, a)) ∧ (∀ x, (x, next_key s) ∉ reservations s) ∧
  ¬ is_loading (reg s) (next_key s).
Proof.
  intros H. assert (Hr : ∀ x, (x, next_key s) ∉ reservations s).
  { intros x Hx. destruct (rg_res_fresh _ H x _ Hx) as [Hlt _]. simpl in Hlt. lia. }
  split; [|split; [done|]].
  - intros i a Hi. apply (rg_fresh _ H) in Hi. simpl in Hi. lia.
  - intros [x Hx]. by apply (rg_loading _ H) in Hx; apply Hr in Hx.
Qed.

Lemma contains_false id s : contains id s = false → models s !! id = None ∧ loading s !! id = None.
Proof.
  unfold contains. intros H. apply orb_false_iff in H as [H1 H2]. apply bool_decide_eq_false in H1, H2.
  by rewrite <-!eq_None_not_Some in *.
Qed.

Lemma consistent_next s : consistent s → (next_key s < 2 ^ 64 - 1)%N →
  consistent (with_next_key (wrapping_add (next_key s) 1) s).
Proof.
  intros [H1 H2 H3 H4] Hn. split; try done. rewrite wrapping_add_1 by done.
  apply (registry_next (reg s)); [done|]. simpl. lia.
Qed.

(** The whole publication of a fresh key. *)
Lemma consistent_publish s id k :
  consistent s → flight s = NoFlight → models s !! id = None → loading s !! id = None →
  (k < next_key s)%N → (∀ i a, g_slots (reg s) !! i ≠ Some (k, a)) → (∀ x, (x, k) ∉ reservations s) →
  ¬ is_loading (reg s) k → consistent (publish_slot id k s).
Proof.
  intros H Hf Hm Hl Hk Hs Hr Hld. eapply (consistent_health s); [done|done|done|done|done|].
  rewrite reg_publish by apply H. by apply (registry_publish (reg s)); [apply H|..].
Qed.

Lemma consistent_register id ex al r s s' :
  consistent s → fence s → counters_fit s → register_engine id ex al s = (r, s') → consistent s'.
Proof.
  intros H Hfe Hfit Hr. unfold register_engine in Hr.
  repeat case_match; simplify_eq; try done; apply consistent_next in H as H'; try apply Hfit; try done.
  destruct (key_fresh s (co_reg s H)) as (F1 & F2 & F3).
  match goal with Hc : contains _ _ = false |- _ => apply contains_false in Hc as [Hm Hl] end.
  apply consistent_publish; try done; [by apply (fe_draining s Hfe)|].
  simpl. destruct Hfit. rewrite wrapping_add_1 by done. lia.
Qed.

Lemma consistent_reserve id r s s' :
  consistent s → fence s → counters_fit s → reserve id s = (r, s') → consistent s'.
Proof.
  intros H Hfe Hfit Hr. pose proof (consistent_next s H (proj1 Hfit)) as H'.
  destruct (key_fresh s (co_reg s H)) as (F1 & F2 & F3).
  unfold reserve in Hr. cbv zeta in Hr. repeat case_match; simplify_eq; try done.
  match goal with Hc : contains _ _ = false |- _ => apply contains_false in Hc as [Hm Hl] end.
  eapply (consistent_health (with_next_key _ s)); [done|done|done|done|done|].
  unfold reg. simpl. unfold Health.set_model, Health.write. rewrite (co_poison s H). simpl.
  apply (registry_reserve (reg (with_next_key (wrapping_add (next_key s) 1) s))); try done; [apply H'| |].
  - by apply (fe_draining s Hfe).
  - simpl. destruct Hfit. rewrite wrapping_add_1 by done. lia.
Qed.

Lemma consistent_publication id k st al r s s' :
  consistent s → fence s → (id, k) ∈ reservations s → publish id k st al s = (r, s') → consistent s'.
Proof.
  intros H Hfe Hin Hp. unfold publish in Hp. repeat case_match; simplify_eq; try done.
  inv_bool.
  assert (Hm : models s !! id = None) by by apply eq_None_not_Some.
  assert (Hld : loading s !! id = Some k) by done.
  pose proof (registry_unreserve (reg s) id k (co_reg s H) Hin) as Hu. simpl in Hu. rewrite bool_decide_true in Hu by done.
  eapply (consistent_health s); [done|done|done|done|done|].
  unfold reg. simpl. unfold Health.set_model, Health.write. rewrite (co_poison s H), fmap_app. simpl.
  rewrite <-(insert_delete_eq _ k).
  rewrite <-(length_fmap (λ sl, (key sl, accepting sl)) (slots s)).
  apply (registry_publish _ id k) in Hu; simpl; try done.
  - by apply (fe_draining s Hfe).
  - simpl. by rewrite lookup_delete_eq.
  - by apply (rg_res_fresh _ (co_reg s H) id).
  - apply (rg_res_fresh _ (co_reg s H) id k Hin).
  - by apply (remove_one_gone (reg s)); [apply H|].
  - intros [x Hx]. simpl in Hx. apply lookup_delete_Some in Hx as [Hne Hx].
    apply Hne. eapply (res_key_unique (reg s)); [apply H|done|]. by apply (rg_loading _ (co_reg s H)).
Qed.

Lemma consistent_drop_reservation id k s :
  consistent s → (id, k) ∈ reservations s → consistent (drop_reservation id k s).
Proof.
  intros H Hin. eapply (consistent_health s); [done|done|done|done|done|].
  unfold reg, drop_reservation. simpl. unfold Health.write. rewrite (co_poison s H). simpl.
  by apply (registry_unreserve (reg s)); [apply H|].
Qed.

(** A registered model has its scheduler while the service runs. *)
Lemma scheduler_running s id i sl :
  consistent s → flight s = NoFlight → models s !! id = Some i → slots s !! i = Some sl → key sl ∈ schedulers s.
Proof.
  intros H Hf Hi Hsl. apply (rg_sched _ (co_reg s H)). split; [by left|].
  exists id, i, (accepting sl). split; [done|by apply reg_slot].
Qed.

Lemma consistent_unload fin id r s s' :
  consistent s → fence s → unload fin id s = (r, s') → consistent s'.
Proof.
  intros H Hfe Hu. unfold unload in Hu.
  destruct (draining s) eqn:Hd; [by simplify_eq|]. apply (fe_draining s Hfe) in Hd.
  destruct (models s !! id) as [i|] eqn:Hi; [|by simplify_eq].
  destruct (slots s !! i) as [sl|] eqn:Hsl; [|by simplify_eq].
  destruct (negb _); [by simplify_eq|]. cbn [schedulers update_slot with_slots with_models] in Hu.
  rewrite decide_True in Hu by by eapply scheduler_running. simplify_eq.
  eapply (consistent_health s); [done|done|done|done|done|].
  unfold reg. simpl. unfold Health.write. rewrite (co_poison s H). simpl. rewrite reg_unload_slots.
  eapply (registry_unload (reg s)); [apply H|done|done|by apply reg_slot].
Qed.

Lemma consistent_shutdown b s s' : consistent s → shutdown_begin s = (b, s') → consistent s'.
Proof.
  intros H Hs. unfold shutdown_begin in Hs. destruct (flight s) eqn:Hf; simplify_eq; try done.
  destruct H as [H1 H2 H3 _]. rewrite Hf in H3. simpl in H3.
  split; simpl; unfold Health.transition; rewrite ?H2; cbv zeta; rewrite ?H3; try done.
  unfold reg. simpl. unfold Health.transition. rewrite ?H2. cbv zeta. rewrite ?H3. simpl. by apply (registry_drain (reg s)).
Qed.

Lemma fence_frame (l : list (string * nat)) s :
  let s' := foldl (λ s e, update_slot (λ sl, mk_Slot (key sl) (leases sl) false true (queued sl)) e.2 s) s l in
  s' = with_slots (slots s') s.
Proof.
  cbv zeta. revert s. induction l as [|e l IH]; intros s; [by destruct s|]. cbn [foldl]. rewrite IH at 1. done.
Qed.

Lemma consistent_fence d s : consistent s → flight s = Draining → consistent (shutdown_fence d s).
Proof.
  intros H Hf. unfold shutdown_fence. cbv zeta.
  set (s0 := if d then s else _).
  assert (Hr0 : reg s0 = reg s) by (by destruct d). assert (Hh0 : health s0 = health s) by (by destruct d).
  pose proof (fence_slots (map_to_list (models s0)) s0) as Hsl.
  pose proof (fence_frame (map_to_list (models s0)) s0) as Hfr. cbv zeta in Hfr. rewrite Hfr. clear Hfr.
  set (sl := slots (foldl _ _ _)) in *. clearbody sl.
  destruct H as [H1 H2 H3 _].
  split; simpl; [|by rewrite Hh0|by rewrite Hh0, H3, Hf|done].
  change (registry (mk_Reg ((λ sl, (key sl, accepting sl)) <$> sl) (g_models (reg s0)) (g_loading (reg s0))
    (g_res (reg s0)) (g_health (reg s0)) ∅ (Fenced d) (g_next (reg s0)))).
  rewrite <-Hr0 in H1. apply registry_fence; [done| | |].
  - by rewrite Hr0.
  - intros j k. simpl. rewrite !list_lookup_fmap, Hsl. destruct (slots s0 !! j) as [x|]; simpl; [|by split; intros [??]].
    destruct (decide _); simpl; split; intros [b [= <- <-]]; by eexists.
  - intros j k b Hj. rewrite list_lookup_fmap, Hsl in Hj. destruct (slots s0 !! j) as [x|] eqn:Hx; [|done].
    simpl in Hj. destruct (decide _) as [|Hni]; [by simplify_eq/=|]. simplify_eq/=.
    apply not_true_is_false. rewrite (rg_accepting _ H1 j (key x) (accepting x)) by by apply reg_slot.
    intros [_ [id Hid]]. apply Hni. apply list_elem_of_fmap. exists (id, j). split; [done|]. by apply elem_of_map_to_list.
Qed.

Lemma consistent_clear d s : consistent s → flight s = Fenced d → consistent (shutdown_clear d s).
Proof.
  intros [H1 H2 H3 _] Hf. split; [|done|by simpl; rewrite H3, Hf|done]. by apply (registry_clear (reg s)).
Qed.

Lemma consistent_finish d s : consistent s → flight s = Cleared d → consistent (shutdown_finish d s).
Proof.
  intros [H1 H2 H3 _] Hf. rewrite Hf in H3.
  split; simpl; unfold Health.transition, Health.clear_models, Health.write; rewrite ?H2; simpl; rewrite ?H3; simpl; try done.
  unfold reg; simpl. unfold Health.transition, Health.clear_models, Health.write. rewrite !H2. simpl. rewrite H3. simpl.
  by apply (registry_finish (reg s)).
Qed.

Lemma consistent_admit s b s' : consistent s → admit_work s = (b, s') → consistent s'.
Proof. unfold admit_work. intros H Ha. repeat case_match; simplify_eq; try done; by eapply consistent_ext. Qed.

Lemma consistent_step s s' : consistent s → fence s → counters_fit s → step s s' → consistent s'.
Proof.
  intros H Hfe Hf Hstep. step_cases Hstep.
  - by eapply consistent_admit.
  - by eapply consistent_ext.
  - unfold lease in Hl. repeat case_match; simplify_eq; try done. eapply consistent_ext; [done|by apply reg_counts|done].
  - eapply consistent_ext; [done|by apply reg_counts|done].
  - eapply consistent_ext; [done|by apply reg_counts|done].
  - unfold acquire_queue in Hq. repeat case_match; simplify_eq; try done.
    eapply consistent_ext; [done|by apply reg_counts|done].
  - eapply consistent_ext; [done|by apply reg_counts|done].
  - by eapply consistent_register.
  - by eapply consistent_reserve.
  - by eapply consistent_publication.
  - by apply consistent_drop_reservation.
  - unfold begin_install in Hb. destruct (draining s); [by simplify_eq|].
    destruct (admit_work s) as [[] s1] eqn:Ha; simplify_eq; [|by eapply consistent_admit].
    assert (Hk : next_key s1 = next_key s) by (unfold admit_work in Ha; by repeat case_match; simplify_eq).
    eapply consistent_admit in Ha; [|done]. eapply consistent_ext; [apply consistent_next|..]; try done.
    rewrite Hk. apply Hf.
  - by eapply consistent_ext.
  - frame install_commit in Hic.
  - unfold install_cancel. case_match; by eauto with invariants.
  - by eapply consistent_ext.
  - by eapply consistent_ext.
  - by eapply consistent_unload.
  - by eapply consistent_shutdown.
  - by apply consistent_fence.
  - by apply consistent_clear.
  - by apply consistent_finish.
Qed.

(** ** Gauges and retired tasks *)

Record gauges (s : State) : Prop := {
  ga_queued : queued_total s = N.of_nat (length (held_queue s));
  ga_active : active s = held_active s;
  ga_poison : Metrics.poisoned (metrics s) = false;
  ga_depth : Metrics.queue_depth (Metrics.inner (metrics s)) = N.of_nat (length (held_queue s));
  ga_requests : Metrics.active (Metrics.inner (metrics s)) = held_active s;
  ga_retired : ¬ serving (flight s) → retired s = [];
}.

(** Nothing but the listed fields matters. *)
Lemma gauges_ext s s' :
  gauges s → queued_total s' = queued_total s → held_queue s' = held_queue s → active s' = active s →
  held_active s' = held_active s → metrics s' = metrics s → retired s' = retired s → flight s' = flight s → gauges s'.
Proof. destruct s, s'. simpl. intros [] -> -> -> -> -> -> ->. by split. Qed.
#[export] Hint Extern 2 (gauges _) => (by eapply gauges_ext) : invariants.

Lemma length_remove_one (x : nat) l :
  x ∈ l → N.of_nat (length (remove_one x l)) = (N.of_nat (length l) - 1)%N ∧ (0 < N.of_nat (length l))%N.
Proof.
  induction l as [|z l IH]; [by intros ?%not_elem_of_nil|]. intros Hin. rewrite remove_one_cons.
  destruct (decide (x = z)); simpl; [lia|]. apply elem_of_cons in Hin as [|Hin]; [done|].
  destruct (IH Hin). lia.
Qed.

Lemma gauges_acquire i s sl :
  gauges s → counters_fit s →
  gauges (increment_queued (with_held_queue (i :: held_queue s) (update_slot sl i s))).
Proof.
  intros [] (_ & _ & _ & Hf & _).
  split; simpl; unfold Metrics.increment_queue_depth, Metrics.with_queue_depth, Metrics.locked; rewrite ?ga_poison0; simpl; try done.
  - rewrite ga_queued0, wrapping_add_1 by done. lia.
  - rewrite ga_depth0. unfold saturating_add, u64_max. lia.
Qed.

Lemma gauges_drop_queue i s : gauges s → counters_fit s → i ∈ held_queue s → gauges (drop_queue i s).
Proof.
  intros [] (_ & _ & _ & Hf & _) Hi. destruct (length_remove_one i _ Hi) as [Hl Hp].
  split; simpl; unfold Metrics.decrement_queue_depth, Metrics.with_queue_depth, Metrics.locked; rewrite ?ga_poison0; simpl; try done.
  - rewrite ga_queued0, wrapping_sub_1 by lia. lia.
  - rewrite ga_depth0. unfold saturating_sub. lia.
Qed.

Lemma gauges_embed_begin s : gauges s → counters_fit s → gauges (embed_begin s).
Proof.
  intros [] (_ & _ & _ & _ & Hf).
  split; simpl; unfold Metrics.increment_active, Metrics.with_active, Metrics.locked; rewrite ?ga_poison0; simpl; try done.
  - rewrite ga_active0, wrapping_add_1 by done. lia.
  - rewrite ga_requests0. unfold saturating_add, u64_max. lia.
Qed.

Lemma gauges_embed_end out micros s :
  gauges s → counters_fit s → (0 < held_active s)%N → gauges (embed_end out micros s).
Proof.
  intros [] (_ & _ & _ & _ & Hf) Hp.
  split; simpl; unfold Metrics.decrement_active, Metrics.observe, Metrics.with_active, Metrics.locked; rewrite ?ga_poison0; simpl; try done.
  - rewrite ga_active0, wrapping_sub_1 by lia. lia.
  - rewrite ga_requests0. unfold saturating_sub. lia.
Qed.

Lemma gauges_step s s' : gauges s → fence s → counters_fit s → step s s' → gauges s'.
Proof.
  intros H Hfe Hf Hstep. step_cases Hstep.
  - frame admit_work in Ha.
  - by eapply gauges_ext.
  - frame lease in Hl.
  - by eapply gauges_ext.
  - by eapply gauges_ext.
  - unfold acquire_queue in Hq. repeat case_match; simplify_eq; try done. by apply gauges_acquire.
  - by apply gauges_drop_queue.
  - frame register_engine in Hr.
  - frame reserve in Hr.
  - frame publish in Hp.
  - by eapply gauges_ext.
  - unfold begin_install, admit_work in Hb. repeat case_match; simplify_eq; try done; by eapply gauges_ext.
  - by eapply gauges_ext.
  - frame install_commit in Hic.
  - unfold install_cancel. case_match; by eauto with invariants.
  - by apply gauges_embed_begin.
  - by apply gauges_embed_end.
  - assert (Hn : draining s = false → serving (flight s)) by (intros ?; left; by apply (fe_draining s Hfe)).
    unfold unload in Hu. repeat case_match; simplify_eq; try done; [|by eapply gauges_ext].
    destruct H. split; try done. intros Hx. destruct Hx. by apply Hn.
  - unfold shutdown_begin in Hs. repeat case_match; simplify_eq; try done.
    destruct H. split; try done. intros Hx. destruct Hx. by right.
  - unfold shutdown_fence. cbv zeta.
    rewrite (fence_frame (map_to_list (models (if d then s else _)))). destruct H. by destruct d; split.
  - destruct H. split; try done. intros _. apply ga_retired0. rewrite Hfl. by intros [?|?].
  - destruct H. split; try done. intros _. apply ga_retired0. rewrite Hfl. by intros [?|?].
Qed.

(** ** Reachable states *)

Lemma policy_step s s' : step s s' → policy s' = policy s.
Proof.
  intros Hstep; step_cases Hstep; try done.
  - unfold admit_work in Ha. by repeat case_match; simplify_eq.
  - unfold lease in Hl. by repeat case_match; simplify_eq.
  - unfold acquire_queue in Hq. by repeat case_match; simplify_eq.
  - unfold register_engine in Hr. by repeat case_match; simplify_eq.
  - unfold reserve in Hr. by repeat case_match; simplify_eq.
  - unfold publish in Hp. by repeat case_match; simplify_eq.
  - unfold begin_install, admit_work in Hb. by repeat case_match; simplify_eq.
  - unfold install_commit in Hic. by repeat case_match; simplify_eq.
  - unfold install_cancel. by case_match.
  - unfold unload in Hu. by repeat case_match; simplify_eq.
  - unfold shutdown_begin in Hs. by repeat case_match; simplify_eq.
  - unfold shutdown_fence. cbv zeta.
    rewrite (fence_frame (map_to_list (models (if d then s else _)))). by destruct d.
Qed.

Lemma reachable_invariant p s :
  (Scheduler.queue_depth p <= usize_max)%N → reachable p s →
  policy s = p ∧ accounting s ∧ fence s ∧ consistent s ∧ gauges s.
Proof.
  intros Hd. induction 1 as [|s s' _ (Hpol & Ha & Hf & Hc & Hg) Hfit Hstep].
  - split; [done|]. split; [|split; [|split]].
    + split; simpl; [split; [constructor|done]..|done].
    + split; simpl; try done; by intros.
    + split; [|done..]. split; simpl; try done.
      * by intros ?? ?%not_elem_of_nil.
      * constructor.
      * intros _ k m. split; [done|]. by intros [[_ (?&?&?&?&?)]|[_ [? ?]]].
      * intros k. split; [by intros ?%elem_of_empty|]. by intros [_ (?&?&?&?&?)].
    + by split.
  - split; [by rewrite (policy_step _ _ Hstep)|]. split; [|split; [|split]].
    + eapply accounting_step; [done|done| |done]. by rewrite Hpol.
    + by eapply fence_step.
    + by eapply consistent_step.
    + by eapply gauges_step.
Qed.

(** What one step may do once the fence is up. *)
Lemma draining_step s s' :
  fence s → counters_fit s → draining s = true → step s s' →
  draining s' = true ∧ (held_permits s' <= held_permits s)%N ∧ models s' ⊆ models s.
Proof.
  intros Hf Hfit Hd. intros Hstep; step_cases Hstep; try (simpl; split_and!; (done || lia)).
  - unfold admit_work in Ha. rewrite Hd in Ha. by simplify_eq.
  - unfold lease in Hl. by repeat case_match; simplify_eq.
  - unfold acquire_queue in Hq. by repeat case_match; simplify_eq.
  - unfold register_engine in Hr. rewrite Hd in Hr. by repeat case_match; simplify_eq.
  - unfold reserve in Hr. simpl in Hr. rewrite Hd in Hr. by simplify_eq.
  - unfold publish in Hp. rewrite Hd in Hp. by repeat case_match; simplify_eq.
  - unfold begin_install in Hb. rewrite Hd in Hb. by simplify_eq.
  - unfold install_commit in Hic. by repeat case_match; simplify_eq.
  - unfold install_cancel. by case_match.
  - unfold unload in Hu. rewrite Hd in Hu. by simplify_eq.
  - unfold shutdown_begin in Hs. repeat case_match; simplify_eq; try done.
  - unfold shutdown_fence. cbv zeta.
    rewrite (fence_frame (map_to_list (models (if d then s else _)))). by destruct d.
  - simpl. split_and!; [done|lia|apply map_empty_subseteq].
Qed.

Lemma registered_reg s k :
  registered (reg s) k ↔ ∃ id i sl, models s !! id = Some i ∧ slots s !! i = Some sl ∧ key sl = k.
Proof.
  unfold registered. simpl. setoid_rewrite list_lookup_fmap. split.
  - intros (id & i & a & Hid & Hi). destruct (slots s !! i) as [sl|] eqn:E; simplify_eq/=. by exists id, i, sl.
  - intros (id & i & sl & Hid & Hi & <-). exists id, i, (accepting sl). by rewrite Hi.
Qed.

(** Steps taken while the counters fit. *)
Definition runs : State → State → Prop := rtc (λ a b, counters_fit a ∧ step a b).

Lemma draining_runs s s' :
  runs s s' → fence s → draining s = true →
  draining s' = true ∧ (admitted s' <= admitted s)%N ∧ models s' ⊆ models s.
Proof.
  unfold runs. induction 1 as [s|s s1 s' [Hfit Hstep] _ IH]; intros Hf Hd; [done|].
  destruct (draining_step s s1 Hf Hfit Hd Hstep) as (Hd1 & Hp1 & Hm1).
  pose proof (fence_step s s1 Hf Hfit Hstep) as Hf1. destruct (IH Hf1 Hd1) as (H1 & H2 & H3).
  rewrite (fe_admitted _ Hf). rewrite (fe_admitted _ Hf1) in H2. split_and!; [done|lia|by etrans].
Qed.

(** * Theorems *)

(** C5: In every reachable state of the runtime - whatever the interleaving of
    requests, loads, unloads, installations and shutdown - each slot's lease and
    queue counters are exactly the live lease and queue values that refer to it, the
    queue never exceeds the configured depth, the admission counter and the
    coordinator's active count both equal the live work permits, the queue and
    active-request gauges (and the metrics they feed) equal what is really queued
    and active, a model is never
    registered and loading at once, the health registry lists exactly the
    registered models (ready) and the loading ones (loading), and the running
    schedulers are exactly those of the registered models while the service is not
    yet fenced. *)
Theorem runtime_invariant p s (Hp : (Scheduler.queue_depth p <= usize_max)%N) (Hr : reachable p s) :
  (∀ i sl, slots s !! i = Some sl →
     leases sl = count i (held_leases s) ∧ queued sl = count i (held_queue s) ∧
     (queued sl <= Scheduler.queue_depth p)%N) ∧
  admitted s = held_permits s ∧ Shutdown.active (coordinator s) = held_permits s ∧
  queued_total s = N.of_nat (length (held_queue s)) ∧ active s = held_active s ∧
  Metrics.queue_depth (Metrics.inner (metrics s)) = queued_total s ∧
  Metrics.active (Metrics.inner (metrics s)) = active s ∧
  (∀ id i, models s !! id = Some i → is_Some (slots s !! i) ∧ loading s !! id = None) ∧
  (populated (flight s) → ∀ k m, Health.models (Health.inner (health s)) !! k = Some m ↔
     (m = Health.MReady ∧ ∃ id i sl, models s !! id = Some i ∧ slots s !! i = Some sl ∧ key sl = k) ∨
     (m = Health.MLoading ∧ ∃ id, loading s !! id = Some k)) ∧
  (∀ k, (k ∈ schedulers s) ↔
     serving (flight s) ∧ ∃ id i sl, models s !! id = Some i ∧ slots s !! i = Some sl ∧ key sl = k).
Proof.
  destruct (reachable_invariant p s Hp Hr) as (Hpol & [HA1 HA2 HA3] & [] & [HC _ _ _] & HG).
  assert (Hreg : ∀ k, registered (reg s) k ↔
    ∃ id i sl, models s !! id = Some i ∧ slots s !! i = Some sl ∧ key sl = k) by apply registered_reg.
  split_and!; try done.
  - intros i sl Hi. rewrite <-Hpol. split_and!; [by apply HA1|by apply HA2|by eapply HA3].
  - apply HG.
  - apply HG.
  - by rewrite (ga_depth s HG), (ga_queued s HG).
  - by rewrite (ga_requests s HG), (ga_active s HG).
  - intros id i Hi. split; [|by eapply (rg_disjoint _ HC)].
    apply (rg_slot _ HC) in Hi as [x Hx]. simpl in Hx. rewrite list_lookup_fmap in Hx.
    by destruct (slots s !! i); [eexists|].
  - intros Hpop k m. rewrite <-Hreg. apply (rg_health _ HC Hpop).
  - intros k. rewrite <-Hreg. apply (rg_sched _ HC).
Qed.

(** Unloading succeeds exactly when the service is not draining and the model is
    registered with no live lease; then its slot stops accepting, its scheduler and
    health entry are gone, no new lease can be taken on it and every other model
    stays registered.  Any refusal leaves the whole runtime untouched, and is
    "in use" exactly when a lease is live. *)
Theorem unload_only_idle p s fin id (Hp : (Scheduler.queue_depth p <= usize_max)%N) (Hr : reachable p s) :
  ((unload fin id s).1 = Ok tt ↔ draining s = false ∧ ∃ i, models s !! id = Some i ∧ i ∉ held_leases s) ∧
  ((unload fin id s).1 = Err Scheduler.InUse ↔ draining s = false ∧ ∃ i, models s !! id = Some i ∧ i ∈ held_leases s) ∧
  (∀ e, (unload fin id s).1 = Err e → (unload fin id s).2 = s) ∧
  ((unload fin id s).1 = Ok tt → ∀ i sl, models s !! id = Some i → slots s !! i = Some sl →
     models (unload fin id s).2 = delete id (models s) ∧
     (key sl ∉ schedulers (unload fin id s).2) ∧
     Health.models (Health.inner (health (unload fin id s).2)) !! key sl = None ∧
     (lease id (unload fin id s).2).1 = Err Scheduler.NotFound ∧
     ∃ sl', slots (unload fin id s).2 !! i = Some sl' ∧ accepting sl' = false).
Proof.
  destruct (reachable_invariant p s Hp Hr) as (_ & [[_ HA] _ _] & Hfe & HCO & _).
  pose proof HCO as [HC HP _ _].
  assert (Hslot : ∀ i, models s !! id = Some i → ∃ sl, slots s !! i = Some sl).
  { intros i Hi. apply (rg_slot _ HC) in Hi as [x Hx]. simpl in Hx. rewrite list_lookup_fmap in Hx.
    by destruct (slots s !! i); [eexists|]. }
  assert (Hidle : ∀ i sl, slots s !! i = Some sl → (leases sl =? 0)%N = true ↔ i ∉ held_leases s).
  { intros i sl Hi. rewrite N.eqb_eq, (HA i sl Hi), count_pos. destruct (decide (count i (held_leases s) = 0%N)); naive_solver. }
  unfold unload. destruct (draining s) eqn:Hd; [by split_and!; naive_solver|].
  destruct (models s !! id) as [i|] eqn:Hm; [|by split_and!; naive_solver].
  destruct (Hslot i eq_refl) as [sl Hsl]. rewrite Hsl. specialize (Hidle i sl Hsl).
  assert (Hks : key sl ∈ schedulers s) by (eapply scheduler_running; [done|by apply (fe_draining s Hfe)|done|done]).
  cbn [schedulers update_slot with_slots with_models]. rewrite (decide_True (P := key sl ∈ schedulers s)) by done.
  destruct (leases sl =? 0)%N eqn:Hz; cbn [negb].
  - assert (i ∉ held_leases s) by by apply Hidle.
    split_and!; try (by naive_solver). intros _ j sl' [= <-] Hsl'. simplify_eq. simpl. split_and!; try done.
    + set_solver.
    + unfold Health.write. rewrite HP. simpl. by rewrite lookup_delete_eq.
    + unfold lease. simpl. by rewrite lookup_delete_eq.
    + eexists. rewrite list_lookup_alter_eq, Hsl. by split.
  - assert (i ∈ held_leases s) by (apply dec_stable; intros Hn; apply Hidle in Hn; congruence).
    split_and!; naive_solver.
Qed.

(** Once shutdown has begun, it is final: however the system runs on, the
    service stays draining, the admitted work only decreases, no model is ever
    added, and every admission, registration, reservation, publication,
    installation, unload and deletion is refused. *)
Theorem draining_is_final p s s' (Hp : (Scheduler.queue_depth p <= usize_max)%N) (Hr : reachable p s)
    (Hd : draining s = true) (Hs : runs s s') :
  draining s' = true ∧ (admitted s' <= admitted s)%N ∧ models s' ⊆ models s ∧
  (admit_work s').1 = false ∧
  (∀ id ex al, is_ok (register_engine id ex al s').1 = false) ∧
  (∀ id, is_ok (reserve id s').1 = false) ∧
  (∀ id k st al, is_ok (publish id k st al s').1 = false) ∧
  is_ok (begin_install s').1 = false ∧
  (∀ fin id, is_ok (unload fin id s').1 = false) ∧
  (∀ id cid st, is_ok (delete_model id cid st s') = false).
Proof.
  destruct (reachable_invariant p s Hp Hr) as (_ & _ & Hf & _ & _).
  destruct (draining_runs s s' Hs Hf Hd) as (Hd' & Ha & Hm).
  unfold admit_work, register_engine, reserve, publish, begin_install, unload, delete_model.
  cbn [draining with_next_key]. rewrite Hd'. split_and!; try done; intros; by repeat case_match.
Qed.

(** C18: When shutdown has finished, nothing of the service is left: no model is
    registered or loading, no scheduler runs, health is empty, not live and
    stopped, the coordinator is stopped, no slot accepts and no lease can be
    taken; and it reports a drained shutdown only when no admitted work remains. *)
Theorem shutdown_terminal p s d (Hp : (Scheduler.queue_depth p <= usize_max)%N) (Hr : reachable p s)
    (Hf : flight s = Finished d) :
  models s = ∅ ∧ loading s = ∅ ∧ schedulers s = ∅ ∧ retired s = [] ∧
  Health.models (Health.inner (health s)) = ∅ ∧
  Health.is_live (health s) = false ∧
  Health.state (Health.readiness (health s)) = Health.Stopped ∧
  Shutdown.shutdown (coordinator s) = Shutdown.Stopped ∧
  (∀ i sl, slots s !! i = Some sl → accepting sl = false) ∧
  (∀ id, (lease id s).1 = Err Scheduler.NotFound) ∧
  (d = true → admitted s = 0%N).
Proof.
  destruct (reachable_invariant p s Hp Hr) as (_ & _ & Hfe & [HC HP HL HV] & HG).
  assert (Hpop : ¬ populated (flight s)) by (rewrite Hf; by intros [[?|?]|[? ?]]).
  assert (Hser : ¬ serving (flight s)) by (intros ?; apply Hpop; by left).
  destruct (rg_cleared _ HC Hpop) as [Hm Hl]. simpl in Hm, Hl.
  split_and!; try done.
  - apply set_eq. intros k. rewrite (rg_sched _ HC k). simpl. split; [by intros [? _]|by intros ?%elem_of_empty].
  - by apply (ga_retired s HG).
  - apply (rg_finished _ HC d Hf).
  - unfold Health.is_live. rewrite (HV d Hf). apply andb_false_r.
  - unfold Health.readiness. rewrite HP. simpl. by rewrite HL, Hf.
  - apply (fe_stopped _ Hfe); congruence.
  - intros i sl Hi. apply not_true_is_false. rewrite (rg_accepting _ HC i (key sl)) by by apply reg_slot.
    by intros [? _].
  - intros id. unfold lease. by rewrite Hm, lookup_empty.
  - intros ->. rewrite (fe_admitted _ Hfe). apply (fe_drained _ Hfe). by rewrite Hf.
Qed.

(** * A run *)

Definition run_policy : BatchPolicy := Scheduler.BatchPolicy_default.

(** One model is registered, a lease and a queue permit are taken under a work
    permit, and another model starts to load. *)
Definition run_registered : State := (register_engine "m" true true (new_runtime run_policy)).2.
Definition run_admitted : State := (admit_work run_registered).2.
Definition run_leased : State := (lease "m" run_admitted).2.
Definition run_queued : State := (acquire_queue 0 run_leased).2.
Definition run_loading : State := (reserve "n" run_queued).2.
(** Shutdown begins with the work still there, and is forced. *)
Definition run_draining : State := (shutdown_begin run_loading).2.
Definition run_fenced : State := shutdown_fence false run_draining.
Definition run_finished : State := shutdown_finish false (shutdown_clear false run_fenced).

(** A state is passed by name, so that it is evaluated and never unfolded. *)
Lemma runs_step s1 s s2 : runs s1 s → counters_fit s → step s s2 → runs s1 s2.
Proof. intros H Hf Hs. eapply rtc_r; [exact H|by split]. Qed.

Lemma reachable_runs p s s' : reachable p s → runs s s' → reachable p s'.
Proof. intros Hr. induction 1 as [|s s1 s' [Hfit Hs] _ IH]; [done|]. apply IH. by eapply r_step. Qed.

Ltac fits := vm_compute; by split_and!.

Lemma run_to_loading : runs (new_runtime run_policy) run_loading.
Proof.
  apply (runs_step _ run_queued); [|fits|apply (s_reserve _ "n" (reserve "n" run_queued).1), surjective_pairing].
  apply (runs_step _ run_leased); [|fits|apply (s_acquire _ 0 (acquire_queue 0 run_leased).1), surjective_pairing].
  apply (runs_step _ run_admitted); [|fits|apply (s_lease _ "m" (lease "m" run_admitted).1), surjective_pairing].
  apply (runs_step _ run_registered); [|fits|apply (s_admit _ _ (admit_work run_registered).1), surjective_pairing].
  apply (runs_step _ (new_runtime run_policy)); [apply rtc_refl|fits|].
  apply (s_register _ "m" true true (register_engine "m" true true (new_runtime run_policy)).1), surjective_pairing.
Qed.

Lemma run_to_finished : runs run_draining run_finished.
Proof.
  apply (runs_step _ (shutdown_clear false run_fenced)); [|fits|by apply s_finish].
  apply (runs_step _ run_fenced); [|fits|by apply s_clear].
  apply (runs_step _ run_draining); [apply rtc_refl|fits|by apply s_fence].
Qed.

Lemma run_loading_reachable : reachable run_policy run_loading.
Proof. eapply reachable_runs; [apply r_new|apply run_to_loading]. Qed.

Lemma run_draining_reachable : reachable run_policy run_draining.
Proof.
  eapply (r_step _ run_loading); [apply run_loading_reachable|fits|].
  apply (s_shutdown _ (shutdown_begin run_loading).1), surjective_pairing.
Qed.

Lemma run_finished_reachable : reachable run_policy run_finished.
Proof. eapply reachable_runs; [apply run_draining_reachable|apply run_to_finished]. Qed.

Lemma run_registered_reachable : reachable run_policy run_registered.
Proof.
  eapply (r_step _ (new_runtime run_policy)); [apply r_new|fits|].
  apply (s_register _ "m" true true (register_engine "m" true true (new_runtime run_policy)).1), surjective_pairing.
Qed.

(** The loaded, leased and queued model of the run. *)
Lemma runtime_invariant_witness :
  ∃ sl, slots run_loading !! 0 = Some sl ∧ leases sl = 1%N ∧ queued sl = 1%N ∧
  admitted run_loading = 1%N ∧ key sl ∈ schedulers run_loading.
Proof.
  destruct (runtime_invariant run_policy run_loading) as (H1 & H2 & _ & _ & _ & _ & _ & _ & _ & H3);
    [by vm_compute|apply run_loading_reachable|].
  exists (mk_Slot 1 1 true false 1). destruct (H1 0 (mk_Slot 1 1 true false 1)) as (L1 & L2 & _); [by vm_compute|].
  split; [by vm_compute|]. split; [exact L1|]. split; [exact L2|]. split; [rewrite H2; by vm_compute|].
  apply H3. split; [left; by vm_compute|]. exists "m", 0, (mk_Slot 1 1 true false 1). by vm_compute.
Defined.

(** The leased model is in use; before the lease it can be unloaded. *)
Lemma unload_only_idle_witness :
  (unload (λ _, false) "m" run_loading).1 = Err Scheduler.InUse ∧ (unload (λ _, false) "m" run_loading).2 = run_loading ∧
  (unload (λ _, false) "m" run_registered).1 = Ok tt ∧ (lease "m" (unload (λ _, false) "m" run_registered).2).1 = Err Scheduler.NotFound.
Proof.
  destruct (unload_only_idle run_policy run_loading (λ _, false) "m") as (_ & H2 & H3 & _);
    [by vm_compute|apply run_loading_reachable|].
  destruct (unload_only_idle run_policy run_registered (λ _, false) "m") as (G1 & _ & _ & G4);
    [by vm_compute|apply run_registered_reachable|].
  assert (E : (unload (λ _, false) "m" run_loading).1 = Err Scheduler.InUse).
  { apply H2. split; [by vm_compute|]. exists 0. split; [by vm_compute|]. vm_compute. by left. }
  assert (F : (unload (λ _, false) "m" run_registered).1 = Ok tt).
  { apply G1. split; [by vm_compute|]. exists 0. split; [by vm_compute|]. vm_compute. by intros ?%not_elem_of_nil. }
  split; [exact E|]. split; [by apply (H3 _ E)|]. split; [exact F|].
  apply (G4 F 0 (mk_Slot 1 0 true false 0)); by vm_compute.
Defined.

(** The forced shutdown of the run. *)
Lemma draining_is_final_witness :
  draining run_finished = true ∧ (admit_work run_finished).1 = false ∧
  (∀ fin id, is_ok (unload fin id run_finished).1 = false).
Proof.
  destruct (draining_is_final run_policy run_draining run_finished) as (H1 & _ & _ & H4 & _ & _ & _ & _ & H9 & _);
    [by vm_compute|apply run_draining_reachable|by vm_compute|apply run_to_finished|].
  split; [exact H1|]. split; [exact H4|exact H9].
Defined.

Lemma shutdown_terminal_witness :
  models run_finished = ∅ ∧ schedulers run_finished = ∅ ∧ Health.is_live (health run_finished) = false ∧
  (lease "m" run_finished).1 = Err Scheduler.NotFound.
Proof.
  destruct (shutdown_terminal run_policy run_finished false) as (H1 & _ & H3 & _ & _ & H5 & _ & _ & _ & H8 & _);
    [by vm_compute|apply run_finished_reachable|by vm_compute|].
  split; [exact H1|]. split; [exact H3|]. split; [exact H5|apply H8].
Defined.

(** * The aggregate snapshot *)

(** [RuntimeSnapshot]; [snapshot] reads the registry, the health and the flag one after the
    other, each in a state of its own. *)
Record RuntimeSnapshot := mk_RuntimeSnapshot { ready_models : nat; registered_models : nat; is_draining : bool }.
Definition snapshot (at_models at_health at_flag : State) : RuntimeSnapshot :=
  mk_RuntimeSnapshot (Health.model_counts (health at_health)).1 (size (models at_models)) (draining at_flag).

Lemma ready_registered s : consistent s → populated (flight s) → Health.ready_count (Health.inner (health s)) = size (models s).
Proof.
  intros Hc Hpop. pose proof (co_reg _ Hc) as HC. pose proof (rg_health _ HC Hpop) as Hh.
  set (key_at := λ x : string * nat, default 0%N (key <$> slots s !! x.2)).
  unfold Health.ready_count. rewrite <-!length_map_to_list.
  rewrite <-(length_fmap fst), <-(length_fmap key_at (map_to_list (models s))). apply Permutation_length, NoDup_Permutation.
  - apply NoDup_fst_map_to_list.
  - apply NoDup_fmap_2_strong; [|apply NoDup_map_to_list]. intros [id i] [id' i'] Hi Hi' Heq.
    apply elem_of_map_to_list in Hi, Hi'. unfold key_at in Heq. simpl in Heq.
    destruct (rg_slot _ HC id i Hi) as [x Hx]. destruct (rg_slot _ HC id' i' Hi') as [y Hy]. simpl in Hx, Hy.
    rewrite list_lookup_fmap in Hx, Hy. destruct (slots s !! i) as [sl|] eqn:Hs; [|done]. destruct (slots s !! i') as [sl'|] eqn:Hs'; [|done].
    simpl in Heq. pose proof (reg_slot s i sl Hs) as Ga. pose proof (reg_slot s i' sl' Hs') as Gb. rewrite Heq in Ga.
    pose proof (rg_keys _ HC _ _ _ _ _ Ga Gb) as <-. by rewrite (rg_inj _ HC id id' i Hi Hi').
  - intros k. rewrite !list_elem_of_fmap. split.
    + intros ([k' m] & -> & Hm). apply elem_of_map_to_list, map_lookup_filter_Some in Hm as [Hm Hr]. simpl in Hr. subst m.
      apply Hh in Hm as [[_ Hreg]|[? _]]; [|done]. apply registered_reg in Hreg as (id & i & sl & Hid & Hi & <-).
      exists (id, i). split; [unfold key_at; simpl; by rewrite Hi|by apply elem_of_map_to_list].
    + intros ([id i] & -> & Hid). apply elem_of_map_to_list in Hid. destruct (rg_slot _ HC id i Hid) as [x Hx]. simpl in Hx.
      rewrite list_lookup_fmap in Hx. destruct (slots s !! i) as [sl|] eqn:Hs; [|done].
      exists (key sl, Health.MReady). unfold key_at. simpl. rewrite Hs. split; [done|].
      apply elem_of_map_to_list, map_lookup_filter_Some. split; [|done]. apply Hh. left. split; [done|].
      apply registered_reg. by exists id, i, sl.
Qed.

(** A snapshot of one state reports as many ready models as registered ones for as long as
    models are served, and once the runtime is emptied it reports neither. *)
Theorem snapshot_exact p s (Hp : (Scheduler.queue_depth p <= usize_max)%N) (Hr : reachable p s) :
  (populated (flight s) → ready_models (snapshot s s s) = registered_models (snapshot s s s)) ∧
  (∀ d, flight s = Finished d → snapshot s s s = mk_RuntimeSnapshot 0 0 (draining s)).
Proof.
  destruct (reachable_invariant p s Hp Hr) as (_ & _ & _ & HC & _). unfold snapshot, Health.model_counts. rewrite (co_poison _ HC). cbn [fst].
  split; [by apply ready_registered|]. intros d Hf.
  assert (¬ populated (flight s)) as Hnp by (rewrite Hf; intros [[?|?]|[? ?]]; done).
  pose proof (rg_cleared _ (co_reg _ HC) Hnp) as [Hm _]. pose proof (rg_finished _ (co_reg _ HC) d Hf) as Hh. simpl in Hm, Hh.
  unfold Health.ready_count. rewrite Hh, Hm. done.
Qed.

End Runtime.
