(* ===== verification/Requests.v ===== *)
(** The request path of [crates/impossible-server/src/runtime.rs]: [embed] and
    [embed_inner] from admission to the answer, the waits [await_controlled],
    [wait_for_drain] and [receive_install_result], and what dropping the last
    handle of the runtime does.

    An asynchronous wait is a function of what its polls observe, so a theorem about
    it holds for every schedule.  [embed_inner] is composed of the operations of
    [Runtime] in program order, with the release of everything it still owns on
    each way out. *)

From Stdlib Require Import NArith Lia.
From stdpp Require Import base strings relations fin_maps gmap list.
From S2P Require Import Prelude Core Cancellation Scheduler Health Shutdown Metrics Install Runtime.
Import Runtime.

Local Open Scope list_scope.

Module Requests.

(** * Waiting for an answer *)

(** The shared state at one instant. *)
Record Glimpse := mk_Glimpse { g_store : Store; g_now : N; g_forced : bool }.

(** One poll of [await_controlled]: what the head of the loop sees when the poll
    reaches it, which branches of the biased [select!] are ready ([force_changed]
    tells whether the sender is gone), and what the chosen branch sees. *)
Record Poll := mk_Poll {
  at_head : Glimpse;
  force_changed : option bool;
  cancel_ready : bool;
  sleep_ready : bool;
  reply_ready : bool;
  in_branch : Glimpse;
}.

Definition alive_at (g : Glimpse) (c : ExecutionControl) : result EngineFailure unit :=
  ensure_active (g_store g) (g_now g) c.

(** [await_controlled]; [answer] is what the response channel carries ([None]: the
    sender is dropped).  Without a ready branch the [select!] stays pending and the
    next poll resumes inside it; [None] is a future that is still pending. *)
Fixpoint await_from {T} (head : bool) (c : ExecutionControl) (answer : option (result EngineFailure T))
    (polls : list Poll) : option (result EngineFailure T) :=
  match polls with
  | [] => None
  | p :: polls =>
    if head && g_forced (at_head p) then Some (Err (public ModelUnavailable)) else
    match (if head then alive_at (at_head p) c else Ok tt) with
    | Err e => Some (Err e)
    | Ok _ =>
      match force_changed p with
      | Some closed =>
        if closed || g_forced (in_branch p) then Some (Err (public ModelUnavailable))
        else await_from true c answer polls
      | None =>
        if cancel_ready p then
          Some (if g_forced (in_branch p) then Err (public ModelUnavailable)
                else let? _ := alive_at (in_branch p) c in Err (public Cancelled))
        else if sleep_ready p then
          Some (let? _ := alive_at (in_branch p) c in Err (public DeadlineExceeded))
        else if reply_ready p then
          Some (let? _ := alive_at (in_branch p) c in default (Err (public ModelUnavailable)) answer)
        else await_from false c answer polls
      end
    end
  end.
Definition await_controlled {T} (c : ExecutionControl) (answer : option (result EngineFailure T)) (polls : list Poll)
    : option (result EngineFailure T) := await_from true c answer polls.

(** * Waiting for the drain *)

(** One iteration of [wait_for_drain]: the deadline, the clock and the admission
    counter it reads, and the branch that ends its [select!]. *)
Inductive DrainEvent := DeadlineChanged (closed : bool) | TimerFired | Notified.
Record DrainPoll := mk_DrainPoll {
  d_deadline : option N;
  d_now : N;
  d_admitted : N;
  d_event : DrainEvent;
}.

(** [wait_for_drain]; the timer exists only when there is a deadline. *)
Fixpoint wait_for_drain (polls : list DrainPoll) : option bool :=
  match polls with
  | [] => None
  | p :: polls =>
    if match d_deadline p with Some at_ => (at_ <=? d_now p)%N | None => false end then Some false else
    if (d_admitted p =? 0)%N then Some true else
    match d_event p, d_deadline p with
    | DeadlineChanged true, _ => Some false
    | TimerFired, Some _ => Some false
    | _, _ => wait_for_drain polls
    end
  end.

(** * Waiting for an installation *)

(** [receive_install_result]: [first] tells whether the answer was ready before the
    forced stop; the last component, whether the installation task is aborted. *)
Definition receive_install_result {T} (first : bool) (answer : option (result LifecycleError T)) (c : InstallControl)
    : result LifecycleError T * InstallControl * bool :=
  if first then (default (Err Scheduler.InstallFailed) answer, c, false) else
  match cancel_before_commit c with
  | (Install.CancelledBeforeCommit, c) => (Err Scheduler.ShuttingDown, c, true)
  | (Install.AlreadyCommitted, c) => (default (Err Scheduler.InstallFailed) answer, c, false)
  end.

(** * The last handle *)

(** [Drop for Inner]: the registries are fenced and emptied as by a forced
    shutdown, without waiting; a running shutdown task is aborted with its state. *)
Definition drop_inner (s : State) : State :=
  let s := with_draining true s in
  let s := with_coordinator (Shutdown.force_stop (Shutdown.begin (coordinator s))) s in
  let s := with_force_stop true s in
  let s := foldl (λ s e, update_slot (λ sl, mk_Slot (key sl) (leases sl) false true (queued sl)) e.2 s) s
             (map_to_list (models s)) in
  let s := with_installs ((λ c, (cancel_before_commit c).2) <$> installs s) s in
  let s := with_retired [] (with_schedulers ∅ s) in
  let s := with_loading ∅ (with_models ∅ s) in
  with_health (Health.transition Health.Stopped (Some Health.RStopped) (Health.clear_models (health s))).2 s.

(** * The request path *)

(** What a request meets on its way. *)
Inductive SendError := Full | Closed.
Record EmbedEnv := mk_EmbedEnv {
  instant_max : N;
  started : N;
  store : Store;
  registered_at : N;
  checked_at : N;
  slot_token : nat → token;
  next_sequence : N;
  pool_room : bool;
  job_runs : bool;
  job_before : Scheduler.View;
  job_after : Scheduler.View;
  job_polls : list Poll;
  channel : option SendError;
  response_id : nat;
  answer : option (result EngineFailure EmbeddingOutput);
  answer_polls : list Poll;
}.

(** The answer ([None]: the future was dropped while waiting), the runtime and the
    token store afterwards, and the request with its slot if it was handed to the
    scheduler, which then owns its lease and queue permit. *)
Record Embedded := mk_Embedded {
  outcome : option (result EngineFailure EmbeddingOutput);
  final : State;
  final_store : Store;
  submitted : option (nat * Scheduler.Request);
}.

Section embed.
Context {E : Scheduler.RuntimeEngine}.

(** From the lease on: the control of the request, the queue permit, preflight and
    the hand-over.  [s] holds the permit and the lease. *)
Definition embed_leased (id : string) (inputs : list string) (o : EmbedOptions) (cancellation : token)
    (deadline : option N) (server_deadline : N) (e : EmbedEnv) (i : nat) (s : State) : Embedded :=
  let refuse err s st := mk_Embedded (Some (Err err)) (drop_permit (drop_lease i s)).2 st None in
  let effective := match deadline with Some d => N.min d server_deadline | None => server_deadline end in
  let '(abandonment, st) := token_default (store e) in
  let '(t, st) := any (registered_at e) [cancellation; abandonment; slot_token e i] st in
  let c := ExecutionControl_new t (Some effective) in
  match ensure_active st (checked_at e) c with
  | Err err => refuse err s st
  | Ok _ =>
    match acquire_queue i s with
    | (false, s) => refuse (public QueueFull) s st
    | (true, s) =>
      match RequestedModel_new id with
      | Err err => refuse err (drop_queue i s) st
      | Ok model =>
        if negb (pool_room e) then refuse (public QueueFull) (drop_queue i s) st else
        let plan := Scheduler.mk_PreflightPlan (next_sequence e) inputs o c model
                      (Scheduler.max_tokens (policy s)) (Scheduler.max_batch_tokens (policy s)) in
        match await_controlled c (if job_runs e then Some (Scheduler.preflight_job (job_before e) (job_after e) plan) else None)
                (job_polls e) with
        | None => mk_Embedded None (drop_permit (drop_lease i (drop_queue i s))).2 (cancel (checked_at e) st abandonment) None
        | Some (Err err) => refuse err (drop_queue i s) st
        | Some (Ok (cost, contract)) =>
          match channel e with
          | Some Full => refuse (public QueueFull) (drop_queue i s) st
          | Some Closed => refuse (public ModelUnavailable) (drop_queue i s) st
          | None =>
            let r := Scheduler.mk_Request (response_id e) (next_sequence e) inputs cost contract o c in
            match await_controlled c (answer e) (answer_polls e) with
            | Some res => mk_Embedded (Some res) (drop_permit s).2 st (Some (i, r))
            | None => mk_Embedded None (drop_permit s).2 (cancel (checked_at e) st abandonment) (Some (i, r))
            end
          end
        end
      end
    end
  end.

(** [embed_inner] *)
Definition embed_inner (id : string) (inputs : list string) (o : EmbedOptions) (cancellation : token)
    (deadline : option N) (e : EmbedEnv) (s : State) : Embedded :=
  let refuse code s := mk_Embedded (Some (Err (public code))) s (store e) None in
  match checked_add (instant_max e) (started e) (Scheduler.request_timeout (policy s)) with
  | None => refuse Internal s
  | Some server_deadline =>
    match admit_work s with
    | (false, s) => refuse ModelUnavailable s
    | (true, s) =>
      if (len inputs =? 0)%N || (Scheduler.max_items (policy s) <? len inputs)%N
      then refuse InvalidRequest (drop_permit s).2 else
      match Scheduler.validate_raw_inputs inputs (Scheduler.max_input_bytes (policy s)) (Scheduler.max_request_bytes (policy s)) with
      | Err err => mk_Embedded (Some (Err err)) (drop_permit s).2 (store e) None
      | Ok _ =>
        match lease id s with
        | (Err _, s) => refuse ModelUnavailable (drop_permit s).2
        | (Ok i, s) => embed_leased id inputs o cancellation deadline server_deadline e i s
        end
      end
    end
  end.

(** The [Outcome] that [embed] observes. *)
Definition outcome_of {T} (r : result EngineFailure T) : Metrics.Outcome :=
  match r with
  | Ok _ => Metrics.OutOk
  | Err e =>
    match pe_code (public_error e) with
    | InvalidRequest => Metrics.OutInvalid
    | QueueFull => Metrics.OutOverloaded
    | Cancelled | DeadlineExceeded => Metrics.OutCancelled
    | ModelUnavailable | InferenceFailed | Internal => Metrics.OutFailed
    end
  end.

(** [embed]: an abandoned future releases its gauge without an observation. *)
Definition embed (id : string) (inputs : list string) (o : EmbedOptions) (cancellation : token)
    (deadline : option N) (e : EmbedEnv) (micros : N) (s : State) : Embedded :=
  let r := embed_inner id inputs o cancellation deadline e (embed_begin s) in
  mk_Embedded (outcome r)
    match outcome r with
    | Some res => embed_end (outcome_of res) micros (final r)
    | None => with_active_gauge (wrapping_sub (active (final r)) 1)
                (Metrics.decrement_active (metrics (final r))) (held_active (final r) - 1) (final r)
    end (final_store r) (submitted r).

End embed.

(** * Lemmas *)

Lemma ensure_active_code st now c err :
  ensure_active st now c = Err err → err = public Cancelled ∨ err = public DeadlineExceeded.
Proof.
  unfold ensure_active. destruct c as [t d [l|]]; cbn [ensure_active_with]; repeat case_match; intros; simplify_eq; auto.
Qed.

(** What a wait can answer on its own account. *)
Definition interruption (err : EngineFailure) : Prop :=
  err = public ModelUnavailable ∨ err = public Cancelled ∨ err = public DeadlineExceeded.

Lemma alive_then {A} g c (k : result EngineFailure A) r :
  (let? _ := alive_at g c in k) = r →
  (alive_at g c = Ok tt ∧ k = r) ∨ ∃ err, r = Err err ∧ interruption err.
Proof.
  unfold alive_at. destruct (ensure_active _ _ _) as [[]|err] eqn:Ha; simpl; intros <-; [by left|].
  right. exists err. split; [done|]. right. by eapply ensure_active_code.
Qed.

(** The poll at which an answer is taken: nothing of higher priority is ready and
    the request is live. *)
Definition delivers (c : ExecutionControl) (p : Poll) : Prop :=
  reply_ready p = true ∧ force_changed p = None ∧ cancel_ready p = false ∧ sleep_ready p = false ∧
  alive_at (in_branch p) c = Ok tt.

Lemma await_answer {T} head c (ans : option (result EngineFailure T)) polls r :
  await_from head c ans polls = Some r →
  (ans = Some r ∧ ∃ p, p ∈ polls ∧ delivers c p) ∨ ∃ err, r = Err err ∧ interruption err.
Proof.
  revert head. induction polls as [|p polls IH]; intros head; [done|]. cbn [await_from].
  assert (Hin : (∃ q, q ∈ polls ∧ delivers c q) → ∃ q, q ∈ p :: polls ∧ delivers c q).
  { intros (q & Hq & HP). exists q. split; [by right|done]. }
  assert (Hint : ∀ code : ErrorCode, code = ModelUnavailable ∨ code = Cancelled ∨ code = DeadlineExceeded →
    interruption (public code)) by (unfold interruption; intros ? [-> | [-> | ->] ]; auto).
  destruct (head && _); [intros [= <-]; right; by eauto 6|].
  destruct (if head then _ else _) as [u|err] eqn:Hh.
  2:{ intros [= <-]. right. exists err. split; [done|]. destruct head; [|done]. right. by eapply ensure_active_code. }
  destruct (force_changed p) as [closed|] eqn:Hf.
  { destruct (closed || _); [intros [= <-]; right; by eauto 6|].
    intros [[Ha Hp]|He]%IH; [left; by auto|by right]. }
  destruct (cancel_ready p) eqn:Hc.
  { destruct (g_forced _); intros [= Hr]; [subst; right; by eauto 6|].
    apply alive_then in Hr as [[_ <-]|He]; right; by eauto 6. }
  destruct (sleep_ready p) eqn:Hs.
  { intros [= Hr]. apply alive_then in Hr as [[_ <-]|He]; right; by eauto 6. }
  destruct (reply_ready p) eqn:Hy; [|intros [[Ha Hp]|He]%IH; [left; by auto|by right]].
  intros [= Hr]. apply alive_then in Hr as [[Hal <-]|He]; [|by right].
  destruct ans as [r|]; simpl; [|right; by eauto 6]. left. split; [done|]. exists p. split; [by left|done].
Qed.

(** A ready branch ends the wait, when notifications carry what they announce. *)
Lemma await_progress {T} head c (ans : option (result EngineFailure T)) polls :
  Forall (λ p, ∀ closed, force_changed p = Some closed → closed || g_forced (in_branch p) = true) polls →
  Exists (λ p, is_Some (force_changed p) ∨ cancel_ready p = true ∨ sleep_ready p = true ∨ reply_ready p = true) polls →
  is_Some (await_from head c ans polls).
Proof.
  revert head. induction polls as [|p polls IH]; intros head Hall Hex; [by inversion Hex|].
  apply Forall_cons in Hall as [Hp Hall]. cbn [await_from].
  destruct (head && _); [by eexists|]. destruct (if head then _ else _); [|by eexists].
  destruct (force_changed p) as [closed|] eqn:Hf; [rewrite (Hp closed) by done; by eexists|].
  destruct (cancel_ready p) eqn:Hc; [by eexists|]. destruct (sleep_ready p) eqn:Hs; [by eexists|].
  destruct (reply_ready p) eqn:Hr; [by eexists|]. apply IH; [done|].
  apply Exists_cons in Hex as [[[? ?]|[?|[?|?]]]|Hex]; (done || congruence).
Qed.

(** ** Releasing what was taken *)

Lemma wrapping_undo n : (n < 2 ^ 64 - 1)%N → wrapping_sub (wrapping_add n 1) 1 = n.
Proof. intros H. rewrite wrapping_add_1 by done. rewrite wrapping_sub_1 by lia. lia. Qed.

Lemma remove_one_head (i : nat) l : remove_one i (i :: l) = l.
Proof. rewrite remove_one_cons. by rewrite decide_True. Qed.

(** The work permit, the lease and the queue permit are each released without a
    trace. *)
Lemma admit_released s s1 : fence s → (held_permits s < 2 ^ 64 - 1)%N → admit_work s = (true, s1) → (drop_permit s1).2 = s.
Proof.
  intros [] Hp. unfold admit_work. destruct (draining s); [done|].
  destruct (Shutdown.coordinator_admit (coordinator s)) as [[] c] eqn:Ha; [|done].
  apply Shutdown.admit_true in Ha as (Hpo & Hr & ->). intros [= <-].
  destruct s; simpl in *. unfold drop_permit, with_permits, Shutdown.drop_permit; simpl. f_equal.
  - destruct coordinator0; simpl in *. subst. unfold saturating_add, saturating_sub, usize_max, u64_max.
    rewrite andb_false_r. f_equal. lia.
  - subst. by apply wrapping_undo.
  - lia.
Qed.

(** States with equal fields are equal. *)
Lemma State_ext s s' :
  policy s = policy s' → slots s = slots s' → models s = models s' → loading s = loading s' → 
  installs s = installs s' → health s = health s' → coordinator s = coordinator s' → next_key s = next_key s' → draining s = draining s' → schedulers s = schedulers s' → retired s = retired s' → 
  force_stop s = force_stop s' → metrics s = metrics s' → active s = active s' → admitted s = admitted s' → queued_total s = queued_total s' → flight s = flight s' → held_leases s = held_leases s' → 
  held_queue s = held_queue s' → held_permits s = held_permits s' → held_active s = held_active s' → reservations s = reservations s' → s = s'.
Proof. destruct s, s'. simpl. intros. subst. reflexivity. Qed.

Lemma alter_undo {A} (f g : A → A) i (l : list A) :
  (∀ x, l !! i = Some x → g (f x) = x) → alter g i (alter f i l) = l.
Proof.
  intros H. apply list_eq. intros j. destruct (decide (i = j)) as [->|].
  - rewrite !list_lookup_alter_eq. destruct (l !! j) as [x|] eqn:Hx; simpl; [by rewrite H|done].
  - by rewrite !list_lookup_alter_ne.
Qed.

Definition leased (i : nat) (s : State) : State :=
  with_held_leases (i :: held_leases s)
    (update_slot (λ sl, mk_Slot (key sl) (wrapping_add (leases sl) 1) (accepting sl) (cancelled sl) (queued sl)) i s).

Lemma lease_released i s :
  counts leases (held_leases s) (slots s) → (N.of_nat (length (held_leases s)) < 2 ^ 64 - 1)%N →
  drop_lease i (leased i s) = s.
Proof.
  intros [_ H1] Hl. destruct s; simpl in *. unfold drop_lease, leased, update_slot, with_held_leases, with_slots; simpl.
  rewrite remove_one_head, alter_undo; [done|].
  intros sl Hj. simpl. rewrite wrapping_undo; [by destruct sl|].
  rewrite (H1 i sl Hj). pose proof (count_length i held_leases0). lia.
Qed.

Definition enqueued (i : nat) (s : State) : State :=
  increment_queued (with_held_queue (i :: held_queue s)
    (update_slot (λ sl, mk_Slot (key sl) (leases sl) (accepting sl) (cancelled sl) (queued sl + 1)) i s)).

Lemma queue_released i s :
  counts queued (held_queue s) (slots s) → gauges s → (N.of_nat (length (held_queue s)) < 2 ^ 64 - 1)%N →
  drop_queue i (enqueued i s) = s.
Proof.
  intros [_ H1] [] Hq. apply State_ext; try reflexivity.
  - apply alter_undo. intros sl Hj. simpl. pose proof (count_length i (held_queue s)). specialize (H1 i sl Hj).
    rewrite wrapping_sub_1 by lia. destruct sl; simpl in *. f_equal. lia.
  - cbn [metrics drop_queue enqueued decrement_queued increment_queued with_queue_gauge with_held_queue update_slot with_slots].
    destruct (metrics s) as [po [rq du qd ac]]; simpl in *. subst po.
    unfold Metrics.decrement_queue_depth, Metrics.increment_queue_depth, Metrics.with_queue_depth, Metrics.locked.
    cbn [Metrics.poisoned Metrics.inner Metrics.requests Metrics.durations_micros Metrics.queue_depth Metrics.active].
    f_equal. f_equal. unfold saturating_add, saturating_sub, u64_max. lia.
  - cbn [queued_total drop_queue enqueued decrement_queued increment_queued with_queue_gauge with_held_queue update_slot with_slots].
    apply wrapping_undo. lia.
  - apply remove_one_head.
Qed.

Lemma acquire_cases i s : acquire_queue i s = (false, s) ∨ acquire_queue i s = (true, enqueued i s).
Proof. unfold acquire_queue. repeat case_match; auto. Qed.

Lemma lease_cases id s :
  lease id s = (Err Scheduler.NotFound, s) ∨
  ∃ i sl, models s !! id = Some i ∧ slots s !! i = Some sl ∧ accepting sl = true ∧ lease id s = (Ok i, leased i s).
Proof. unfold lease. repeat case_match; eauto 10. Qed.

Lemma admit_cases s :
  admit_work s = (false, s) ∨
  admit_work s = (true, (admit_work s).2) ∧ slots (admit_work s).2 = slots s ∧ models (admit_work s).2 = models s ∧
    held_leases (admit_work s).2 = held_leases s ∧ held_queue (admit_work s).2 = held_queue s ∧
    policy (admit_work s).2 = policy s ∧ active (admit_work s).2 = active s ∧ metrics (admit_work s).2 = metrics s ∧
    held_active (admit_work s).2 = held_active s ∧ retired (admit_work s).2 = retired s ∧
    queued_total (admit_work s).2 = queued_total s ∧ flight (admit_work s).2 = flight s.
Proof. unfold admit_work. repeat case_match; auto. right. simpl. by split_and!. Qed.

(** ** The request path releases what it took *)

Section path.
Context {E : Scheduler.RuntimeEngine}.

(** A request that was handed over: it owns a lease and a queue permit of its slot,
    and its preflight succeeded for these inputs under this policy. *)
Definition handed_over (p : BatchPolicy) (id : string) (inputs : list string) (q : Scheduler.Request) : Prop :=
  Scheduler.r_inputs q = inputs ∧
  ∃ before after plan, Scheduler.preflight_job before after plan = Ok (Scheduler.cost q, Scheduler.contract q) ∧
    Scheduler.p_inputs plan = inputs ∧ rm_str (Scheduler.p_model plan) = id ∧
    Scheduler.p_max_tokens plan = Scheduler.max_tokens p ∧
    Scheduler.p_max_batch_tokens plan = Scheduler.max_batch_tokens p.

Lemma embed_leased_releases id inputs o t dl sd e i s :
  counts leases (held_leases s) (slots s) → counts queued (held_queue s) (slots s) → gauges s →
  (N.of_nat (length (held_leases s)) < 2 ^ 64 - 1)%N → (N.of_nat (length (held_queue s)) < 2 ^ 64 - 1)%N →
  let r := embed_leased id inputs o t dl sd e i (leased i s) in
  match submitted r with
  | None => final r = (drop_permit s).2 ∧ ∀ v, outcome r ≠ Some (Ok v)
  | Some (j, q) => j = i ∧ final r = (drop_permit (enqueued i (leased i s))).2 ∧
      handed_over (policy s) id inputs q ∧ ∀ v, outcome r = Some (Ok v) → answer e = Some (Ok v)
  end.
Proof.
  intros Hcl Hcq Hg Hl Hq r.
  assert (Hdl : drop_lease i (leased i s) = s) by by apply lease_released.
  assert (Hdq : drop_queue i (enqueued i (leased i s)) = leased i s).
  { apply queue_released; [by apply counts_same|by eapply gauges_ext|done]. }
  subst r. unfold embed_leased.
  destruct (token_default (store e)) as [ab st0]. destruct (any _ _ st0) as [tk st].
  destruct (ensure_active _ _ _) as [u|err]; [|by simpl; rewrite Hdl].
  destruct (acquire_cases i (leased i s)) as [-> | ->]; [by simpl; rewrite Hdl|].
  destruct (RequestedModel_new id) as [m|err] eqn:Hm; [|by simpl; rewrite Hdq, Hdl].
  destruct (pool_room e); [|by simpl; rewrite Hdq, Hdl]. cbn [negb].
  destruct (await_controlled _ (if job_runs e then _ else _) _) as [[[co ct]|err]|] eqn:Hj;
    [|by simpl; rewrite Hdq, Hdl..].
  destruct (channel e) as [[]|]; [by simpl; rewrite Hdq, Hdl..|].
  apply await_answer in Hj as [[Hj _]|(err & ? & _)]; [|done].
  destruct (job_runs e); [|done]. injection Hj as Hj.
  apply RequestedModel_new_Ok in Hm as [_ ->].
  assert (Hh : handed_over (policy s) id inputs
    (Scheduler.mk_Request (response_id e) (next_sequence e) inputs co ct o (ExecutionControl_new tk
       (Some match dl with Some d => N.min d sd | None => sd end)))).
  { split; [done|]. eexists _, _, _. split; [exact Hj|]. done. }
  destruct (await_controlled _ (answer e) _) as [res|] eqn:Ha; cbn [submitted final outcome]; split_and!; try done.
  intros v [= ->]. by apply await_answer in Ha as [[Ha _]|(err & ? & _)].
Qed.

(** The state of the runtime that [embed_inner] starts from. *)
Record ready_for (s : State) : Prop := {
  rf_leases : counts leases (held_leases s) (slots s);
  rf_queued : counts queued (held_queue s) (slots s);
  rf_fence : fence s;
  rf_gauges : gauges s;
  rf_permits : (held_permits s < 2 ^ 64 - 1)%N;
  rf_lease_room : (N.of_nat (length (held_leases s)) < 2 ^ 64 - 1)%N;
  rf_queue_room : (N.of_nat (length (held_queue s)) < 2 ^ 64 - 1)%N;
}.

Lemma embed_inner_releases id inputs o t dl e s :
  ready_for s →
  let r := embed_inner id inputs o t dl e s in
  match submitted r with
  | None => final r = s ∧ ∀ v, outcome r ≠ Some (Ok v)
  | Some (i, q) =>
      (∃ sl, models s !! id = Some i ∧ slots s !! i = Some sl ∧ accepting sl = true) ∧
      final r = (drop_permit (enqueued i (leased i (admit_work s).2))).2 ∧ admit_work s = (true, (admit_work s).2) ∧
      (len inputs <= Scheduler.max_items (policy s))%N ∧
      handed_over (policy s) id inputs q ∧ ∀ v, outcome r = Some (Ok v) → answer e = Some (Ok v)
  end.
Proof.
  intros [] r. subst r. unfold embed_inner.
  destruct (checked_add _ _ _) as [sd|]; [|by simpl].
  destruct (admit_cases s) as [-> | (Ha & E1 & E2 & E3 & E4 & E5 & E6 & E7 & E8 & E9 & E10 & E11)]; [by simpl|].
  assert (Hrel : (drop_permit (admit_work s).2).2 = s) by by eapply admit_released.
  rewrite Ha. set (s1 := (admit_work s).2) in *. clearbody s1.
  destruct ((len inputs =? 0)%N || _) eqn:Hlen; [by cbn [submitted final outcome]; rewrite Hrel|].
  destruct (Scheduler.validate_raw_inputs _ _ _); [|by cbn [submitted final outcome]; rewrite Hrel].
  destruct (lease_cases id s1) as [-> | (i & sl & Hi & Hsl & Hacc & ->)]; [by cbn [submitted final outcome]; rewrite Hrel|].
  pose proof (embed_leased_releases id inputs o t dl sd e i s1) as Hx. cbv zeta in Hx. cbv beta iota.
  destruct (submitted _) as [[j q]|].
  - rewrite E1, E3, E4, E5 in Hx.
    destruct Hx as (-> & Hfin & Hh & Hans); [done|done|by eapply gauges_ext|done|done|].
    rewrite E1 in Hsl. rewrite E2 in Hi. rewrite E5 in Hlen. split_and!; try done; [by exists sl|].
    inv_bool. lia.
  - rewrite E1, E3, E4 in Hx. rewrite Hrel in Hx. apply Hx; try done. by eapply gauges_ext.
Qed.

Lemma held_after s s1 i :
  admit_work s = (true, s1) →
  held_leases (drop_permit (enqueued i (leased i s1))).2 = i :: held_leases s ∧
  held_queue (drop_permit (enqueued i (leased i s1))).2 = i :: held_queue s ∧
  held_permits (drop_permit (enqueued i (leased i s1))).2 = held_permits s ∧
  held_active (drop_permit (enqueued i (leased i s1))).2 = held_active s.
Proof. unfold admit_work. repeat case_match; intros [= <-]. simpl. split_and!; (done || lia). Qed.

Definition with_metrics (m : Metrics.Metrics) (s : State) : State := with_queue_gauge (queued_total s) m s.

Lemma ready_for_embed p s :
  (Scheduler.queue_depth p <= usize_max)%N → reachable p s → counters_fit s → ready_for (embed_begin s).
Proof.
  intros Hd Hr Hf. destruct (reachable_invariant p s Hd Hr) as (_ & [] & Hfe & _ & Hg).
  pose proof Hf as (_ & ? & ? & ? & _).
  split; try done; [by eapply fence_ext|by apply gauges_embed_begin].
Qed.

(** The gauge of a finished request leaves only the observation behind, and an
    abandoned one nothing. *)
Lemma embed_gauge_released s :
  gauges s → (held_active s < 2 ^ 64 - 1)%N →
  (∀ out micros, embed_end out micros (embed_begin s) =
     with_metrics (Metrics.observe Metrics.Embed out micros (metrics s)) s) ∧
  with_active_gauge (wrapping_sub (active (embed_begin s)) 1) (Metrics.decrement_active (metrics (embed_begin s)))
    (held_active (embed_begin s) - 1) (embed_begin s) = s.
Proof.
  intros [] Hf.
  assert (Hu : wrapping_sub (active (embed_begin s)) 1 = active s) by (apply wrapping_undo; lia).
  assert (Hsat : ∀ n : N, (n < 2 ^ 64 - 1)%N → saturating_sub (saturating_add u64_max n 1) 1 = n).
  { intros n Hn. unfold saturating_sub, saturating_add, u64_max. lia. }
  split.
  - intros out micros. apply State_ext; try reflexivity; [|done|simpl; lia].
    cbn [metrics embed_end embed_begin with_active_gauge with_metrics with_queue_gauge].
    destruct (metrics s) as [po [rq du qd ac]]; simpl in *. subst po. unfold Metrics.decrement_active, Metrics.observe,
      Metrics.increment_active, Metrics.with_active, Metrics.locked.
    cbn [Metrics.poisoned Metrics.inner Metrics.requests Metrics.durations_micros Metrics.queue_depth Metrics.active].
    rewrite Hsat by lia. done.
  - apply State_ext; try reflexivity; [|done|simpl; lia].
    cbn [metrics embed_begin with_active_gauge].
    destruct (metrics s) as [po [rq du qd ac]]; simpl in *. subst po. unfold Metrics.decrement_active,
      Metrics.increment_active, Metrics.with_active, Metrics.locked.
    cbn [Metrics.poisoned Metrics.inner Metrics.requests Metrics.durations_micros Metrics.queue_depth Metrics.active].
    rewrite Hsat by lia. done.
Qed.


End path.

(** The wait for an answer is truthful and bounded by its events: a success is
    exactly the one the channel carried, taken at a poll where neither a forced
    stop, nor cancellation, nor the deadline was ready and the request was still
    live, after a first look that found the request live; an error is the one the
    channel carried or the stable code of an interruption; a forced stop that is
    already published wins over a ready answer; and as soon as any branch is ready
    the wait ends. *)
Theorem await_truthful {T} c (ans : option (result EngineFailure T)) polls :
  (∀ v, await_controlled c ans polls = Some (Ok v) →
     ans = Some (Ok v) ∧ (∃ p, p ∈ polls ∧ delivers c p) ∧
     ∃ p rest, polls = p :: rest ∧ g_forced (at_head p) = false ∧ alive_at (at_head p) c = Ok tt) ∧
  (∀ err, await_controlled c ans polls = Some (Err err) → ans = Some (Err err) ∨ interruption err) ∧
  (∀ p rest, polls = p :: rest → g_forced (at_head p) = true →
     await_controlled c ans polls = Some (Err (public ModelUnavailable))) ∧
  (Forall (λ p, ∀ closed, force_changed p = Some closed → closed || g_forced (in_branch p) = true) polls →
   Exists (λ p, is_Some (force_changed p) ∨ cancel_ready p = true ∨ sleep_ready p = true ∨ reply_ready p = true) polls →
   is_Some (await_controlled c ans polls)).
Proof.
  unfold await_controlled. split_and!.
  - intros v Hv. destruct (await_answer _ _ _ _ _ Hv) as [[-> Hp]|(err & ? & _)]; [|done].
    split_and!; [done|done|]. destruct polls as [|p rest]; [done|]. exists p, rest. split; [done|].
    cbn [await_from andb] in Hv. destruct (g_forced (at_head p)); [done|]. split; [done|].
    by destruct (alive_at (at_head p) c) as [[]|].
  - intros err He. destruct (await_answer _ _ _ _ _ He) as [[-> _]|(err' & [= ->] & ?)]; auto.
  - intros p rest -> Hf. cbn [await_from andb]. by rewrite Hf.
  - apply await_progress.
Qed.

(** ** The other waits *)

(** The drain is reported only for a counter seen at zero before the deadline, and
    given up only for the deadline or a closed channel. *)
Definition drain_evidence (b : bool) (p : DrainPoll) : Prop :=
  if b then d_admitted p = 0%N ∧ ∀ at_, d_deadline p = Some at_ → (d_now p < at_)%N
  else (∃ at_, d_deadline p = Some at_ ∧ ((at_ <= d_now p)%N ∨ d_event p = TimerFired)) ∨ d_event p = DeadlineChanged true.

Lemma wait_for_drain_sound polls b :
  wait_for_drain polls = Some b → ∃ p, p ∈ polls ∧ drain_evidence b p.
Proof.
  induction polls as [|p polls IH]; [done|]. cbn [wait_for_drain].
  assert (Hrec : wait_for_drain polls = Some b → ∃ q, q ∈ p :: polls ∧ drain_evidence b q).
  { intros (q & Hq & HP)%IH. exists q. split; [by right|exact HP]. }
  assert (Hhere : ∀ b', drain_evidence b' p → Some b' = Some b → ∃ q, q ∈ p :: polls ∧ drain_evidence b q).
  { intros b' HP [= <-]. exists p. split; [by left|done]. }
  destruct (d_deadline p) as [at_|] eqn:Hd.
  - destruct (N.leb_spec at_ (d_now p)); [apply Hhere; left; by eauto|].
    destruct (N.eqb_spec (d_admitted p) 0); [apply Hhere; split; [done|]; intros; by simplify_eq|].
    destruct (d_event p) as [[]| |] eqn:He; try done; apply Hhere; [by right|left; by eauto].
  - destruct (N.eqb_spec (d_admitted p) 0); [apply Hhere; split; [done|]; intros; by simplify_eq|].
    destruct (d_event p) as [[]| |] eqn:He; try done. apply Hhere. by right.
Qed.

(** An installation reported as shut down can no longer commit, and one that has
    committed is reported as it ended. *)
Lemma install_result_truthful {T} first (ans : option (result LifecycleError T)) c r c' aborted :
  receive_install_result first ans c = (r, c', aborted) →
  (aborted = true → r = Err Scheduler.ShuttingDown ∧ (Install.begin_commit (commit c')).1 = false) ∧
  (commit c = Install.COMMIT_CROSSED → r = default (Err Scheduler.InstallFailed) ans ∧ aborted = false).
Proof.
  unfold receive_install_result, cancel_before_commit. destruct first; [intros [= <- <- <-]; split; intros; (done || by split)|].
  destruct c as [cn []]; cbn; intros [= <- <- <-]; split; intros; (done || by split).
Qed.

(** Dropping the last handle leaves nothing behind either. *)
Lemma drop_inner_terminal p s :
  (Scheduler.queue_depth p <= usize_max)%N → reachable p s →
  let s' := drop_inner s in
  draining s' = true ∧ models s' = ∅ ∧ loading s' = ∅ ∧ schedulers s' = ∅ ∧ retired s' = [] ∧
  Health.is_live (health s') = false ∧ Shutdown.shutdown (coordinator s') = Shutdown.Stopped ∧
  (∀ i sl, slots s' !! i = Some sl → accepting sl = false) ∧
  (∀ op c, installs s' !! op = Some c → (Install.begin_commit (commit c)).1 = false).
Proof.
  intros Hd Hr. destruct (reachable_invariant p s Hd Hr) as (_ & _ & Hfe & [HC HP HL HV] & _).
  cbv zeta. unfold drop_inner. cbv zeta. set (s0 := with_force_stop true _).
  pose proof (fence_slots (map_to_list (models s0)) s0) as Hsl.
  pose proof (fence_frame (map_to_list (models s0)) s0) as Hfr. cbv zeta in Hfr. rewrite Hfr. clear Hfr.
  set (sl := slots (foldl _ _ _)) in *. clearbody sl. split_and!; try done.
  - simpl. unfold Health.is_live, Health.transition, Health.clear_models, Health.write. rewrite HP. simpl.
    rewrite andb_false_r. case_bool_decide as Hst; simpl; [|done].
    rewrite HL in Hst. destruct (flight s) eqn:Hf; try done. by eapply HV.
  - simpl. unfold Shutdown.force_stop, Shutdown.begin. by rewrite (fe_poison s Hfe).
  - intros i x Hx. simpl in Hx. rewrite Hsl in Hx. destruct (slots s0 !! i) as [y|] eqn:Hy; [|done].
    simpl in Hx. destruct (decide _) as [|Hni]; simplify_eq/=; [done|].
    apply not_true_is_false. rewrite (rg_accepting _ HC i (key x)) by by apply reg_slot.
    intros [_ [id Hid]]. apply Hni. apply list_elem_of_fmap. exists (id, i). split; [done|]. by apply elem_of_map_to_list.
  - intros op c Hc. simpl in Hc. rewrite lookup_fmap in Hc. destruct (installs s !! op) as [[cn g]|]; simplify_eq/=.
    unfold cancel_before_commit. by destruct g.
Qed.

(** * Witnesses *)

(** Tokens 0 (the caller) and 1 (the slot) exist; the request adds 2 and 3. *)
Definition sample_tokens : Store := (token_default (token_default empty_store).2).2.
Definition sample_store : Store := (any 0 [0; 2; 1] (token_default sample_tokens).2).2.
Definition sample_glimpse : Glimpse := mk_Glimpse sample_store 0 false.
Definition sample_poll : Poll := mk_Poll sample_glimpse None false false true sample_glimpse.
Definition sample_answer : EmbeddingOutput :=
  mk_EmbeddingOutput [[1065353216; 1]%N] sample_identity (mk_EmbeddingUsage [3%N] 3).
Definition sample_env : EmbedEnv :=
  mk_EmbedEnv u64_max 0 sample_tokens 0 0 (λ _, 1) 7 true true
    (Scheduler.mk_View sample_store 0 true) (Scheduler.mk_View sample_store 0 true) [sample_poll]
    None 5 (Some (Ok sample_answer)) [sample_poll].

Definition sample_embed (queue_full : bool) : Embedded :=
  embed (E := Scheduler.sample_engine) "m" ["a"] EmbedOptions_default 0 None
    (if queue_full then mk_EmbedEnv u64_max 0 sample_tokens 0 0 (λ _, 1) 7 false true
       (Scheduler.mk_View sample_store 0 true) (Scheduler.mk_View sample_store 0 true) [] None 5 None [] else sample_env)
    10 run_registered.


End Requests.
