(* ===== verification/Catalog.v ===== *)
(** The model catalog and the error taxonomy of the application
    ([crates/impossible-server/src/application.rs]): the collision-checked names under which
    models are requested, and what a transport may learn of a failure. *)

From Stdlib Require Import NArith Lia Ascii.
From stdpp Require Import base strings gmap sorting list.
From S2P Require Import Prelude Core Std Config Manifest Scheduler.
Import Manifest.

Local Open Scope string_scope.
Local Open Scope list_scope.
Local Open Scope rust_scope.

Module Catalog.

(** * The catalog *)

Definition MAX_MODEL_NAME_BYTES : N := 512.

Inductive CatalogError := InvalidEntry | NameCollision.
#[global] Instance CatalogError_eq_dec : EqDecision CatalogError.
Proof. solve_decision. Defined.

(** [Display for CatalogError] *)
Definition CatalogError_display (e : CatalogError) : string :=
  match e with
  | InvalidEntry => "the model catalog contains an invalid entry"
  | NameCollision => "the model catalog contains an ambiguous name"
  end.

(** [valid_model_name] *)
Definition valid_model_name (value : string) : bool :=
  negb (str_is_empty value) && (str_len value <=? MAX_MODEL_NAME_BYTES)%N && String.eqb (trim value) value
  && negb (has_control value).

Record ModelCatalog := mk_ModelCatalog {
  manifests : gmap string Manifest;
  aliases : gmap string string;
  aliases_by_model : gmap string (list string);
}.

Section catalog.
Context {U : UrlCrate}.

(** The first loop of [ModelCatalog::new]. *)
Fixpoint insert_manifests (l : list Manifest) (manifest_map : gmap string Manifest)
    : result CatalogError (gmap string Manifest) :=
  match l with
  | [] => Ok manifest_map
  | manifest :: l =>
    let? _ := map_err (λ _, InvalidEntry) (validate manifest) in
    let canonical := canonical_id manifest in
    if negb (valid_model_name canonical) || bool_decide (is_Some (manifest_map !! canonical)) then Err NameCollision else
    insert_manifests l (<[canonical := manifest]> manifest_map)
  end.

(** The second loop. *)
Fixpoint insert_aliases (manifest_map : gmap string Manifest) (l : list (string * string))
    (alias_map : gmap string string) (by_model : gmap string (list string))
    : result CatalogError (gmap string string * gmap string (list string)) :=
  match l with
  | [] => Ok (alias_map, by_model)
  | (alias, canonical) :: l =>
    if negb (valid_model_name alias) || bool_decide (is_Some (manifest_map !! alias))
       || negb (bool_decide (is_Some (manifest_map !! canonical))) || bool_decide (is_Some (alias_map !! alias))
    then Err NameCollision
    else insert_aliases manifest_map l (<[alias := canonical]> alias_map)
           (<[canonical := default [] (by_model !! canonical) ++ [alias]]> by_model)
  end.

(** [ModelCatalog::new] *)
Definition ModelCatalog_new (ms : list Manifest) (als : list (string * string)) : result CatalogError ModelCatalog :=
  let? manifest_map := insert_manifests ms ∅ in
  ensure negb (bool_decide (manifest_map = ∅)) else InvalidEntry in
  let? '(alias_map, by_model) := insert_aliases manifest_map als ∅ ∅ in
  Ok (mk_ModelCatalog manifest_map alias_map (merge_sort String.le <$> by_model)).

Definition CURATED_ALIASES : list (string * string) :=
  [("bge-small-en", "BAAI/bge-small-en-v1.5");
   ("bge-small-en-v1.5", "BAAI/bge-small-en-v1.5");
   ("multilingual-e5-small", "intfloat/multilingual-e5-small");
   ("nomic-embed-text", "nomic-ai/nomic-embed-text-v1.5");
   ("nomic-embed-text-v1.5", "nomic-ai/nomic-embed-text-v1.5")].

(** [ModelCatalog::curated]; the embedded manifests are read by [curated_manifests]. *)
Definition ModelCatalog_curated (curated_manifests : result Error (list Manifest)) : result CatalogError ModelCatalog :=
  let? ms := map_err (λ _, InvalidEntry) curated_manifests in
  ModelCatalog_new ms CURATED_ALIASES.

End catalog.

(** [ModelCatalog::resolve] *)
Definition resolve (c : ModelCatalog) (requested : string) : option Manifest :=
  if negb (valid_model_name requested) then None else
  match manifests c !! requested with
  | Some m => Some m
  | None => aliases c !! requested ≫= λ canonical, manifests c !! canonical
  end.

(** The order in which a [BTreeMap] is iterated. *)
Definition key_le {V} (a b : string * V) : Prop := String.le a.1 b.1.
#[global] Instance key_le_dec {V} : RelDecision (@key_le V).
Proof. intros a b. unfold key_le. apply _. Defined.

(** [ModelCatalog::iter] *)
Definition iter (c : ModelCatalog) : list (string * Manifest) := merge_sort key_le (map_to_list (manifests c)).

(** [ModelCatalog::aliases_for] *)
Definition aliases_for (c : ModelCatalog) (canonical : string) : list string :=
  default [] (aliases_by_model c !! canonical).

(** * Errors *)

Inductive ApplicationErrorKind :=
| KInvalidRequest | KModelUnavailable | KOverloaded | KCancelled | KDeadlineExceeded | KShuttingDown | KInternal.
#[global] Instance ApplicationErrorKind_eq_dec : EqDecision ApplicationErrorKind.
Proof. solve_decision. Defined.

Record ApplicationError := mk_ApplicationError { ae_kind : ApplicationErrorKind; ae_public : PublicError }.
#[global] Instance ApplicationError_eq_dec : EqDecision ApplicationError.
Proof. solve_decision. Defined.

(** [ApplicationError::new] *)
Definition ApplicationError_new (kind : ApplicationErrorKind) (code : ErrorCode) : ApplicationError :=
  mk_ApplicationError kind (for_code code).

(** [Display for ApplicationError] *)
Definition ApplicationError_display (e : ApplicationError) : string := pe_message (ae_public e).

(** [From<EngineFailure> for ApplicationError] *)
Definition of_engine (failure : EngineFailure) : ApplicationError :=
  let public := public_error failure in
  let kind := match pe_code public with
              | InvalidRequest => KInvalidRequest
              | ModelUnavailable => KModelUnavailable
              | QueueFull => KOverloaded
              | Cancelled => KCancelled
              | DeadlineExceeded => KDeadlineExceeded
              | _ => KInternal
              end in
  mk_ApplicationError kind public.

(** [From<LifecycleError> for ApplicationError] *)
Definition of_lifecycle (e : Scheduler.LifecycleError) : ApplicationError :=
  match e with
  | Scheduler.ShuttingDown => ApplicationError_new KShuttingDown ModelUnavailable
  | Scheduler.NotFound | Scheduler.LoadFailed => ApplicationError_new KModelUnavailable ModelUnavailable
  | Scheduler.InvalidPolicy | Scheduler.AlreadyLoaded | Scheduler.InUse => ApplicationError_new KInvalidRequest InvalidRequest
  | Scheduler.InitializationFailed | Scheduler.InstallFailed | Scheduler.DeleteFailed => ApplicationError_new KInternal Internal
  end.

Definition catalog_request_error : ApplicationError := ApplicationError_new KInvalidRequest InvalidRequest.
Definition infrastructure_error : ApplicationError := ApplicationError_new KInternal Internal.

(** * Listing *)

Inductive SemanticStatus := SVerified | SUnverified.
Inductive RuntimeStatus := RCatalogOnly | ROnnx.
Inductive LoadStatus := Unloaded | Loaded.
#[global] Instance LoadStatus_eq_dec : EqDecision LoadStatus.
Proof. solve_decision. Defined.

Record ModelInfo := mk_ModelInfo {
  mi_canonical_id : string;
  mi_revision : string;
  mi_aliases : list string;
  mi_native_dimensions : N;
  mi_dimensions : list N;
  mi_semantic_status : SemanticStatus;
  mi_installation_status : ModelVerificationStatus;
  mi_runtime_status : RuntimeStatus;
  mi_load_status : LoadStatus;
}.

(** [EmbeddingApplication::model_info], from the store's answer and whether the model is
    listed as loaded. *)
Definition model_info (c : ModelCatalog) (m : Manifest) (status : result Error ModelVerificationStatus) (is_loaded : bool)
    : result ApplicationError ModelInfo :=
  let? installation_status := map_err (λ _, infrastructure_error) status in
  Ok (mk_ModelInfo (canonical_id m) (revision m) (aliases_for c (canonical_id m))
        (native (dimensions m)) (matryoshka (dimensions m))
        match semantic_verification m with Verified _ => SVerified | Unverified _ => SUnverified end
        installation_status
        match Manifest.runtime m with CatalogOnly => RCatalogOnly | Onnx _ _ _ _ _ _ => ROnnx end
        (if is_loaded then Loaded else Unloaded)).

(** * Names *)

Section names.
Context {U : UrlCrate}.

Definition ids (ms : list Manifest) : list string := canonical_id <$> ms.
Definition entry_ok (m : Manifest) : Prop := validate m = Ok tt ∧ valid_model_name (canonical_id m) = true.

Lemma insert_manifests_Ok l old mm :
  insert_manifests l old = Ok mm ↔
  Forall entry_ok l ∧ NoDup (ids l) ∧ (∀ m, m ∈ l → old !! canonical_id m = None) ∧
  mm = foldl (λ mm m, <[canonical_id m := m]> mm) old l.
Proof.
  revert old. induction l as [|m l IH]; intros old; cbn [insert_manifests foldl ids fmap list_fmap].
  - split; [intros [= <-]|by intros (_ & _ & _ & ->)].
    split_and!; [constructor|constructor|by intros m ?%elem_of_nil|done].
  - destruct (validate m) as [[]|e] eqn:Hv; cbn [map_err result_bind].
    2:{ split; [done|]. intros [H _]. apply Forall_cons in H as [[? _] _]. congruence. }
    destruct (valid_model_name (canonical_id m)) eqn:Hn; cbn [negb orb].
    2:{ split; [done|]. intros [H _]. apply Forall_cons in H as [[_ ?] _]. congruence. }
    case_bool_decide as Hin.
    { split; [done|]. intros (_ & _ & H & _). rewrite (H m) in Hin by left. by destruct Hin. }
    rewrite IH, Forall_cons, NoDup_cons. apply eq_None_not_Some in Hin. split.
    + intros (Hf & Hd & Hold & ->). split_and!; try done.
      * intros (x & Hx & Hxl)%list_elem_of_fmap. specialize (Hold _ Hxl). by rewrite <-Hx, lookup_insert_eq in Hold.
      * intros x [->|Hx]%elem_of_cons; [done|]. specialize (Hold _ Hx). by apply lookup_insert_None in Hold as [? _].
    + intros ((_ & Hf) & (Hnin & Hd) & Hold & ->). split_and!; try done.
      intros x Hx. apply lookup_insert_None. split; [apply Hold; by right|].
      intros He. apply Hnin. rewrite He. by apply list_elem_of_fmap_2.
Qed.

Lemma manifests_lookup l (old : gmap string Manifest) id m :
  NoDup (ids l) → (∀ m, m ∈ l → old !! canonical_id m = None) →
  foldl (λ mm m, <[canonical_id m := m]> mm) old l !! id = Some m ↔
  old !! id = Some m ∨ (m ∈ l ∧ canonical_id m = id).
Proof.
  revert old. induction l as [|x l IH]; intros old; cbn [foldl ids fmap list_fmap].
  - intros _ _. split; [by left|]. intros [?|[?%elem_of_nil _]]; done.
  - intros [Hnin Hd]%NoDup_cons Hold. rewrite IH; [|done|].
    2:{ intros y Hy. apply lookup_insert_None. split; [apply Hold; by right|]. intros He. apply Hnin. rewrite He.
        by apply list_elem_of_fmap_2. }
    rewrite lookup_insert_Some, elem_of_cons. split; [naive_solver|]. intros [Hm|[[->|Hl] Hid]]; [|by auto|by auto].
    left. right. split; [|done]. intros <-. rewrite Hold in Hm by left. done.
Qed.

(** The aliases of a model in the order given. *)
Definition aliases_of (als : list (string * string)) (id : string) : list string :=
  (filter (λ a, a.2 = id) als).*1.

Lemma insert_aliases_Ok mm l am bm r :
  insert_aliases mm l am bm = Ok r ↔
  Forall (λ a, valid_model_name a.1 = true ∧ mm !! a.1 = None ∧ is_Some (mm !! a.2)) l ∧ NoDup l.*1 ∧
  (∀ a, a ∈ l → am !! a.1 = None) ∧
  r = (foldl (λ am a, <[a.1 := a.2]> am) am l,
       foldl (λ bm a, <[a.2 := default [] (bm !! a.2) ++ [a.1]]> bm) bm l).
Proof.
  revert am bm. induction l as [|[alias canonical] l IH]; intros am bm; cbn [insert_aliases foldl fmap list_fmap fst snd].
  - split; [intros [= <-]|by intros (_ & _ & _ & ->)].
    split_and!; [constructor|constructor|by intros m ?%elem_of_nil|done].
  - destruct (valid_model_name alias) eqn:Hn; cbn [negb orb].
    2:{ split; [done|]. intros [H _]. apply Forall_cons in H as [[? _] _]. simpl in *. congruence. }
    case_bool_decide as H1; cbn [orb].
    { split; [done|]. intros [H _]. apply Forall_cons in H as [(_ & H & _) _]. simpl in H. rewrite H in H1. by destruct H1. }
    case_bool_decide as H2; cbn [negb orb].
    2:{ split; [done|]. intros [H _]. by apply Forall_cons in H as [(_ & _ & H) _]. }
    case_bool_decide as H3.
    { split; [done|]. intros (_ & _ & H & _). specialize (H _ (list_elem_of_here _ _)). simpl in H. rewrite H in H3. by destruct H3. }
    rewrite IH, Forall_cons, NoDup_cons. apply eq_None_not_Some in H1, H3. split.
    + intros (Hf & Hd & Hold & ->). split_and!; try done.
      * intros (x & Hx & Hxl)%list_elem_of_fmap. specialize (Hold _ Hxl). by rewrite <-Hx, lookup_insert_eq in Hold.
      * intros x [->|Hx]%elem_of_cons; [done|]. specialize (Hold _ Hx). by apply lookup_insert_None in Hold as [? _].
    + intros ((_ & Hf) & (Hnin & Hd) & Hold & ->). split_and!; try done.
      intros x Hx. apply lookup_insert_None. split; [apply Hold; by right|].
      intros He. apply Hnin. rewrite He. by apply list_elem_of_fmap_2.
Qed.

Lemma aliases_lookup l (am : gmap string string) alias id :
  NoDup l.*1 → (∀ a, a ∈ l → am !! a.1 = None) →
  foldl (λ am a, <[a.1 := a.2]> am) am l !! alias = Some id ↔ am !! alias = Some id ∨ (alias, id) ∈ l.
Proof.
  revert am. induction l as [|[x y] l IH]; intros am; cbn [foldl fmap list_fmap fst snd].
  - intros _ _. split; [by left|]. intros [?|?%elem_of_nil]; done.
  - intros [Hnin Hd]%NoDup_cons Hold. rewrite IH; [|done|].
    2:{ intros a Ha. apply lookup_insert_None. split; [apply Hold; by right|]. intros He. apply Hnin. rewrite He.
        by apply list_elem_of_fmap_2. }
    rewrite lookup_insert_Some, elem_of_cons. split; [naive_solver|]. intros [Hm|[ [= -> ->]|Hl]]; [|by auto|by auto].
    left. right. split; [|done]. intros <-. specialize (Hold (x, y) (list_elem_of_here _ _)). simpl in Hold. congruence.
Qed.

Lemma by_model_lookup l (bm : gmap string (list string)) id :
  default [] (foldl (λ bm a, <[a.2 := default [] (bm !! a.2) ++ [a.1]]> bm) bm l !! id)
  = default [] (bm !! id) ++ aliases_of l id.
Proof.
  unfold aliases_of. revert bm. induction l as [|[x y] l IH]; intros bm; cbn [foldl fst snd].
  - by rewrite app_nil_r.
  - rewrite IH, filter_cons. cbn [snd]. destruct (decide (y = id)) as [->|Hne].
    + rewrite lookup_insert_eq. simpl. by rewrite <-(assoc (++)).
    + by rewrite lookup_insert_ne.
Qed.

(** What a catalog asks of the names: valid, unambiguous, and every alias leads somewhere. *)
Record well_named (ms : list Manifest) (als : list (string * string)) : Prop := {
  wn_nonempty : ms ≠ [];
  wn_entries : Forall entry_ok ms;
  wn_distinct : NoDup (ids ms ++ als.*1);
  wn_aliases : Forall (λ a, valid_model_name a.1 = true ∧ a.2 ∈ ids ms) als;
}.

Definition built (ms : list Manifest) (als : list (string * string)) : ModelCatalog :=
  mk_ModelCatalog (foldl (λ mm m, <[canonical_id m := m]> mm) ∅ ms) (foldl (λ am a, <[a.1 := a.2]> am) ∅ als)
    (merge_sort String.le <$> foldl (λ bm a, <[a.2 := default [] (bm !! a.2) ++ [a.1]]> bm) ∅ als).

Lemma built_manifests ms als id m : NoDup (ids ms) → manifests (built ms als) !! id = Some m ↔ m ∈ ms ∧ canonical_id m = id.
Proof.
  intros Hd. cbn [manifests built]. rewrite manifests_lookup by done. rewrite lookup_empty. naive_solver.
Qed.
Lemma built_known ms als id : NoDup (ids ms) → is_Some (manifests (built ms als) !! id) ↔ id ∈ ids ms.
Proof.
  intros Hd. unfold is_Some, ids. setoid_rewrite built_manifests; [|done]. rewrite list_elem_of_fmap. naive_solver.
Qed.

Lemma new_Ok ms als c : ModelCatalog_new ms als = Ok c ↔ well_named ms als ∧ c = built ms als.
Proof.
  unfold ModelCatalog_new. rewrite bind_Ok. setoid_rewrite insert_manifests_Ok. split.
  - intros (mm & (He & Hd & _ & ->) & H). apply Config.ensure_Ok in H as [Hne H].
    apply bind_Ok in H as ([am bm] & (Ha & Hda & _ & [= -> ->])%insert_aliases_Ok & [= <-]).
    split; [|done]. split; [by intros ->|done| |].
    + apply NoDup_app. split_and!; [done| |done]. intros id Hid (a & -> & Hin)%list_elem_of_fmap.
      rewrite Forall_forall in Ha. destruct (Ha _ Hin) as (_ & Hn & _).
      apply (built_known ms als) in Hid; [|done]. cbn [manifests built] in Hid. rewrite Hn in Hid. by destruct Hid.
    + eapply Forall_impl; [done|]. intros a (Hv & _ & Hk). split; [done|]. by apply (built_known ms als).
  - intros [ [Hne He Hd Ha] ->]. apply NoDup_app in Hd as (Hd & Hdis & Hda).
    exists (foldl (λ mm m, <[canonical_id m := m]> mm) ∅ ms). split; [done|]. apply Config.ensure_Ok. split.
    + apply negb_true_iff, bool_decide_eq_false. intros Hempty. destruct ms as [|m ms]; [done|].
      destruct (proj2 (built_known (m :: ms) als (canonical_id m) Hd)) as [x Hx]; [by left|].
      cbn [manifests built] in Hx. by rewrite Hempty in Hx.
    + apply bind_Ok. eexists (_, _). split; [apply insert_aliases_Ok; split_and!; [|done|done|done]|done].
      apply Forall_forall. intros a Hin. rewrite Forall_forall in Ha. destruct (Ha _ Hin) as [Hv Hk]. split_and!; [done| |].
      * apply eq_None_not_Some. intros Hs%(built_known ms als); [|done]. apply (Hdis _ Hs). by apply list_elem_of_fmap_2.
      * by apply (built_known ms als).
Qed.

Lemma built_resolve ms als name m :
  well_named ms als →
  resolve (built ms als) name = Some m ↔ m ∈ ms ∧ (name = canonical_id m ∨ (name, canonical_id m) ∈ als).
Proof.
  intros [_ He Hd Ha]. apply NoDup_app in Hd as (Hd & Hdis & Hda). unfold resolve.
  assert (∀ id, aliases (built ms als) !! name = Some id ↔ (name, id) ∈ als) as Hal.
  { intros id. cbn [aliases built]. rewrite aliases_lookup by done. rewrite lookup_empty. naive_solver. }
  split.
  - destruct (negb _); [done|]. destruct (manifests (built ms als) !! name) as [m'|] eqn:Hm.
    + intros [= ->]. apply built_manifests in Hm as [? <-]; auto.
    + intros (id & Hid & Hm')%bind_Some. apply Hal in Hid. apply built_manifests in Hm' as [? <-]; auto.
  - intros [Hm Hname]. assert (valid_model_name name = true) as ->.
    { rewrite Forall_forall in He. rewrite Forall_forall in Ha. destruct Hname as [->|Hname]; [by apply He|by apply Ha in Hname as [? _]]. }
    cbn [negb]. destruct (manifests (built ms als) !! name) as [m'|] eqn:Hm'.
    + destruct Hname as [->|Hname].
      * rewrite <-Hm'. by apply built_manifests.
      * exfalso. apply (Hdis name); [by apply (built_known ms als); [done|eexists]|by apply (list_elem_of_fmap_2 fst) in Hname].
    + destruct Hname as [->|Hname]; [rewrite (proj2 (built_manifests ms als _ m Hd)) in Hm' by done; done|].
      apply bind_Some. exists (canonical_id m). split; [by apply Hal|]. by apply built_manifests.
Qed.

(** C34: names are unambiguous.  A catalog is built exactly from valid entries with distinct,
    valid names whose aliases lead to entries; then a name resolves to an entry iff it is
    the entry's canonical id or one of its aliases, so no name means two models and nothing
    outside the catalog resolves, and every entry lists exactly its aliases, in order. *)
Theorem catalog_exact ms als :
  (is_ok (ModelCatalog_new ms als) = true ↔ well_named ms als) ∧
  ∀ c, ModelCatalog_new ms als = Ok c →
    (∀ name m, resolve c name = Some m ↔ m ∈ ms ∧ (name = canonical_id m ∨ (name, canonical_id m) ∈ als)) ∧
    (∀ m, m ∈ ms → resolve c (canonical_id m) = Some m) ∧
    (∀ id, StronglySorted String.le (aliases_for c id) ∧ aliases_for c id ≡ₚ aliases_of als id).
Proof.
  split.
  { split.
    - destruct (ModelCatalog_new ms als) as [c|] eqn:H; [|done]. intros _. by apply new_Ok in H as [? _].
    - intros H. by rewrite (proj2 (new_Ok ms als (built ms als)) (conj H eq_refl)). }
  intros c [Hw ->]%new_Ok. split_and!; [intros name m; by apply built_resolve| |].
  - intros m Hm. apply built_resolve; [done|]. by auto.
  - intros id. unfold aliases_for. cbn [aliases_by_model built]. rewrite lookup_fmap.
    pose proof (by_model_lookup als ∅ id) as Hb. rewrite lookup_empty in Hb. simpl in Hb.
    destruct (foldl _ _ als !! id) as [l|]; simpl in *; subst; split;
      [apply StronglySorted_merge_sort; apply _|apply merge_sort_Permutation|constructor|by rewrite <-Hb].
Qed.

End names.

(** A catalog with one model under three names. *)
Definition sample_catalog : ModelCatalog := built [sample_manifest] [("tiny", "acme/tiny"); ("default", "acme/tiny")].
Lemma sample_catalog_new :
  ModelCatalog_new (U := SimpleUrl) [sample_manifest] [("tiny", "acme/tiny"); ("default", "acme/tiny")] = Ok sample_catalog.
Proof. vm_compute. reflexivity. Qed.

Lemma catalog_exact_witness :
  resolve sample_catalog "tiny" = Some sample_manifest ∧ aliases_for sample_catalog "acme/tiny" ≡ₚ ["tiny"; "default"].
Proof.
  destruct (catalog_exact (U := SimpleUrl) [sample_manifest] [("tiny", "acme/tiny"); ("default", "acme/tiny")]) as [_ H].
  destruct (H sample_catalog sample_catalog_new) as (Hr & _ & Ha). split.
  - apply Hr. split; [apply list_elem_of_here|]. right. apply list_elem_of_here.
  - apply (Ha "acme/tiny").
Defined.

End Catalog.
