(* ===== verification/Application.v ===== *)
(** The application layer ([crates/impossible-server/src/application.rs]): administration of
    models and the request boundary on top of the runtime.

    Administrative operations are programs of atomic sections ([Threads]): they serialize on
    the lifecycle mutex, while listing, requests and shutdown do not take it.  The sections
    of [load_with] and of [install_model] ([runtime.rs]) are part of them, so that a load can
    be interrupted, dropped or overtaken by shutdown at each of its suspension points.  What
    the executor, the blocking pool, the store and the installer answer is an [Env].

    A read-modify-write under one guard is one section.  Poisoning of the two application
    locks (a panic inside a set operation) is outside the model. *)

From Stdlib Require Import NArith Lia Ascii.
From stdpp Require Import base strings relations gmap list.
From S2P Require Import Prelude Threads Core Cancellation Std Config Security Manifest Install Health Shutdown Metrics Scheduler Runtime Requests Catalog.
Import Threads Catalog.

Local Open Scope list_scope.
Local Open Scope rust_scope.

Module Application.

Abbreviation LifecycleError := Scheduler.LifecycleError.
Abbreviation Manifest := Manifest.Manifest.

(** * State *)

(** [struct ApplicationInner], what changes of it.  [lifecycle] is the thread that holds the
    lifecycle mutex; [load_permits] and [unspawned] record the work permits and the
    installation that its operation owns, which the runtime counts with all others. *)
Record App := mk_App {
  runtime : Runtime.State;
  loaded : gset string;
  preload_pending : gset string;
  shutting_down : bool;
  lifecycle : option nat;
  load_permits : N;
  unspawned : option N;
}.

Definition set_runtime v s := mk_App v (loaded s) (preload_pending s) (shutting_down s) (lifecycle s) (load_permits s) (unspawned s).
Definition set_loaded v s := mk_App (runtime s) v (preload_pending s) (shutting_down s) (lifecycle s) (load_permits s) (unspawned s).
Definition set_pending v s := mk_App (runtime s) (loaded s) v (shutting_down s) (lifecycle s) (load_permits s) (unspawned s).
Definition set_shutting_down s := mk_App (runtime s) (loaded s) (preload_pending s) true (lifecycle s) (load_permits s) (unspawned s).
Definition set_lifecycle v s := mk_App (runtime s) (loaded s) (preload_pending s) (shutting_down s) v (load_permits s) (unspawned s).
Definition set_permits r n s := mk_App r (loaded s) (preload_pending s) (shutting_down s) (lifecycle s) n (unspawned s).
Definition set_unspawned r v s := mk_App r (loaded s) (preload_pending s) (shutting_down s) (lifecycle s) (load_permits s) v.

(** Its immutable part. *)
Record Settings := mk_Settings {
  catalog : ModelCatalog;
  preload_models : list string;
  startup_policy : Config.StartupPolicy;
  request_timeout : N;
  shutdown_timeout : N;
}.

Definition DEFAULT_BATCH_WAIT : N := from_millis 4.

(** The loop of [EmbeddingApplication::with_catalog] over the configured preloads. *)
Fixpoint resolve_preloads (c : ModelCatalog) (requested seen : list string) : result ApplicationError (list string) :=
  match requested with
  | [] => Ok []
  | r :: requested =>
    let? manifest := ok_or (resolve c r) catalog_request_error in
    let canonical := Manifest.canonical_id manifest in
    if bool_decide (canonical ∈ seen) then Err catalog_request_error else
    let? rest := resolve_preloads c requested (canonical :: seen) in
    Ok (canonical :: rest)
  end.

(** [EmbeddingApplication::with_catalog]; [store] and [installer] tell whether the two could
    be opened, [pool] whether the runtime's worker threads could be spawned. *)
Definition with_catalog (config : Config.ServerConfig) (c : ModelCatalog) (store installer pool : bool)
    : result ApplicationError (Settings * App) :=
  let? resolved := resolve_preloads c (Config.preload_models config) [] in
  ensure store else infrastructure_error in
  ensure installer else infrastructure_error in
  let? policy := map_err of_lifecycle
      (Scheduler.policy_validate (Scheduler.from_limits (Config.limits config) DEFAULT_BATCH_WAIT)) in
  ensure pool else of_lifecycle Scheduler.InitializationFailed in
  Ok (mk_Settings c resolved (Config.startup_policy config) (from_millis (Config.request_timeout (Config.limits config)))
        (from_millis (Config.shutdown_timeout (Config.limits config))),
      mk_App (Runtime.new_runtime policy) ∅ ∅ false None 0 None).

(** [EmbeddingApplication::new] *)
Definition EmbeddingApplication_new {U : UrlCrate} (config : Config.ServerConfig)
    (curated_manifests : result Manifest.Error (list Manifest)) (store installer pool : bool)
    : result ApplicationError (Settings * App) :=
  let? _ := map_err (λ _, catalog_request_error) (Config.validate config) in
  let? c := map_err (λ _, infrastructure_error) (ModelCatalog_curated curated_manifests) in
  with_catalog config c store installer pool.

(** * The outside of a section *)

(** The executing thread, and the answers: whether there is an executor
    ([Handle::try_current]), whether the pool takes the job, what the loading job has sent
    (with [None] inside when its sender is gone), the startup handshake, whether the
    scheduler task is alive, which retired ones have ended, the store's answers, what the
    installation task has sent, and whether the shutdown task was lost. *)
Record Env := mk_Env {
  me : nat;
  executor : bool;
  pool_room : bool;
  candidate : option (option (result LifecycleError unit));
  startup : option bool;
  scheduler_alive : bool;
  finished : N → bool;
  store_status : Manifest → result Manifest.Error ModelVerificationStatus;
  store_delete : Manifest → result Manifest.Error bool;
  installed : option (option (result LifecycleError ModelVerificationStatus));
  shutdown_lost : bool;
}.

Abbreviation prog := (@Threads.prog App Env).

Notation "'do!' x ':=' p 'in' k" := (bind p (λ x, k))
  (at level 10, x name, p at level 100, k at level 200) : rust_scope.
(** [let x = p.await?; k] *)
Definition try {E A B} (p : prog (result E A)) (k : A → prog (result E B)) : prog (result E B) :=
  bind p (λ r, match r with Ok a => k a | Err e => Ret (Err e) end).
Notation "'try!' x ':=' p 'in' k" := (try p (λ x, k))
  (at level 10, x name, p at level 100, k at level 200) : rust_scope.

(** [p.await.map_err(f)] *)
Definition mapping {E F A} (f : E → F) (p : prog (result E A)) : prog (result F A) :=
  bind p (λ r, Ret (map_err f r)).

(** * Loading in the runtime *)

(** A section of the runtime, and one with an answer. *)
Definition on_runtime (f : Env → Runtime.State → Runtime.State) : Env → App → App :=
  λ e s, set_runtime (f e (runtime s)) s.
Definition call {X} (f : Env → Runtime.State → X * Runtime.State) : prog X :=
  Step (λ e s, let '(x, r) := f e (runtime s) in (x, set_runtime r s)) Ret.

Definition admit_load : prog bool :=
  Step (λ e s, let '(b, r) := Runtime.admit_work (runtime s) in
               (b, if b then set_permits r (load_permits s + 1) s else set_runtime r s)) Ret.
Definition release_permit : Env → App → App :=
  λ e s, set_permits (Runtime.drop_permit (runtime s)).2 (load_permits s - 1) s.

(** The life of an armed [LoadReservation]: a successful publication disarms it. *)
Definition drop_reservation (id : string) (k : N) : Env → App → App := on_runtime (λ _, Runtime.drop_reservation id k).
Definition reserved (id : string) (k : N) (p : prog (result LifecycleError unit)) : prog (result LifecycleError unit) :=
  do! r := on_drop [drop_reservation id k] p in
  match r with
  | Ok u => Ret (Ok u)
  | Err e => sections [drop_reservation id k] (Ret (Err e))
  end.

(** [load_with] with the job of [load_onnx], whose result is [candidate]. *)
Definition load_onnx (id : string) : prog (result LifecycleError unit) :=
  do! ok := ask executor in
  if negb ok then Ret (Err Scheduler.LoadFailed) else
  do! admitted := admit_load in
  if negb admitted then Ret (Err Scheduler.ShuttingDown) else
  owning [release_permit]
    (try! k := call (λ _, Runtime.reserve id) in
     reserved id k
       (do! room := ask pool_room in
        if negb room then Ret (Err Scheduler.InUse) else
        do! forced := look (λ s, Runtime.force_stop (runtime s)) in
        if forced then Ret (Err Scheduler.ShuttingDown) else
        try! _ := Await (λ e s, if Runtime.force_stop (runtime s) then Some (Err Scheduler.ShuttingDown, s)
                                else (λ r, (default (Err Scheduler.LoadFailed) r, s)) <$> candidate e) [] Ret in
        do! started := Await (λ e s, (λ b, (b, s)) <$> startup e) [] Ret in
        call (λ e, Runtime.publish id k started (scheduler_alive e)))).

(** * Installing in the runtime *)

Definition end_install (op : N) : Env → App → App := λ e s, set_unspawned (Runtime.end_install op (runtime s)) None s.
Definition cancel_install (op : N) : Env → App → App := on_runtime (λ _, Runtime.install_cancel op).

(** [install_model]: registration, the spawned transaction, and [receive_install_result].
    A task sends its result before it releases its registration. *)
Definition install_model : prog (result LifecycleError ModelVerificationStatus) :=
  try! op := Step (λ e s, match Runtime.begin_install (runtime s) with
                          | (Ok op, r) => (Ok op, set_unspawned r (Some op) s)
                          | (Err err, r) => (Err err, set_runtime r s)
                          end) Ret in
  do! forced := look (λ s, Runtime.force_stop (runtime s)) in
  if forced then sections [cancel_install op; end_install op] (Ret (Err Scheduler.ShuttingDown)) else
  do! _ := act (λ _ s, set_unspawned (runtime s) None s) in
  let reply (e : Env) := default (Err Scheduler.InstallFailed) <$> installed e in
  do! first := Await (λ e s,
      match reply e with
      | Some r => Some (inl r, s)
      | None =>
        if Runtime.force_stop (runtime s)
        then (λ c, (inr (Runtime.cancel_before_commit c).1, cancel_install op e s)) <$> Runtime.installs (runtime s) !! op
        else None
      end) [cancel_install op] Ret in
  match first with
  | inl r => Ret r
  | inr Install.CancelledBeforeCommit => Ret (Err Scheduler.ShuttingDown)
  | inr Install.AlreadyCommitted => Await (λ e s, (λ r, (r, s)) <$> reply e) [cancel_install op] Ret
  end.

(** * Shutting the runtime down *)

(** [ApplicationRuntime::shutdown]: the first call raises the fence, every call waits for the
    shutdown task. *)
Definition runtime_shutdown : prog bool :=
  do! ok := ask executor in
  if negb ok then Ret false else
  do! _ := call (λ _ s, Runtime.shutdown_begin s) in
  Await (λ e s, match Runtime.flight (runtime s) with
                | Runtime.Finished drained => Some (drained, s)
                | _ => if shutdown_lost e then Some (false, s) else None
                end) [] Ret.

(** * Operations *)

(** [is_loaded] *)
Definition is_loaded (id : string) : prog bool :=
  do! down := look shutting_down in
  if down then Ret false else
  do! pending := look (λ s, bool_decide (id ∈ preload_pending s)) in
  if pending then Ret false else
  look (λ s, bool_decide (id ∈ loaded s)).

(** [ensure_running] *)
Definition ensure_running : prog (result ApplicationError unit) :=
  do! down := look shutting_down in
  Ret (if down then Err (of_lifecycle Scheduler.ShuttingDown) else Ok tt).

(** [self.0.lifecycle.lock().await], with the guard in scope. *)
Definition locked {A} (p : prog A) : prog A :=
  do! _ := Await (λ e s, match lifecycle s with
                         | None => Some (tt, set_lifecycle (Some (me e)) s)
                         | Some _ => None
                         end) [] Ret in
  owning [λ _ s, set_lifecycle None s] p.

Definition unload_section (id : string) : Env → App → App :=
  on_runtime (λ e s, (Runtime.unload (finished e) id s).2).

(** [load_locked] *)
Definition load_locked (id : string) : prog (result ApplicationError unit) :=
  do! already := is_loaded id in
  if already then Ret (Err (of_lifecycle Scheduler.AlreadyLoaded)) else
  try! _ := mapping of_lifecycle (load_onnx id) in
  do! published := Step (λ _ s, if shutting_down s then (false, s)
                                else (true, set_loaded ({[id]} ∪ loaded s) s)) Ret in
  if published then Ret (Ok tt)
  else sections [unload_section id] (Ret (Err (of_lifecycle Scheduler.ShuttingDown))).

Section operations.
Context (c : Settings).

(** [model_info] *)
Definition info (m : Manifest) : prog (result ApplicationError ModelInfo) :=
  do! status := ask (λ e, store_status e m) in
  match status with
  | Err _ => Ret (Err infrastructure_error)
  | Ok _ => do! l := is_loaded (Manifest.canonical_id m) in Ret (model_info (catalog c) m status l)
  end.

(** The frame of [install], [load], [unload] and [delete]. *)
Definition administer (model : string) (p : Manifest → prog (result ApplicationError unit))
    : prog (result ApplicationError ModelInfo) :=
  match resolve (catalog c) model with
  | None => Ret (Err catalog_request_error)
  | Some m =>
    try! _ := ensure_running in
    locked (try! _ := ensure_running in
            try! _ := p m in
            info m)
  end.

Definition install (model : string) : prog (result ApplicationError ModelInfo) :=
  administer model (λ _, mapping of_lifecycle (try! _ := install_model in Ret (Ok tt))).

Definition load (model : string) : prog (result ApplicationError ModelInfo) :=
  administer model (λ m, load_locked (Manifest.canonical_id m)).

Definition unload (model : string) : prog (result ApplicationError ModelInfo) :=
  administer model (λ m,
    let id := Manifest.canonical_id m in
    try! _ := mapping of_lifecycle (call (λ e, Runtime.unload (finished e) id)) in
    do! _ := act (λ _ s, set_loaded (loaded s ∖ {[id]}) s) in
    Ret (Ok tt)).

Definition delete (model : string) : prog (result ApplicationError ModelInfo) :=
  administer model (λ m,
    let id := Manifest.canonical_id m in
    try! _ := mapping of_lifecycle (call (λ e s,
                (Runtime.delete_model id id (map_err (λ _, Scheduler.DeleteFailed) (store_delete e m)) s, s))) in
    Ret (Ok tt)).

(** [list_models] *)
Fixpoint collect (ms : list (string * Manifest)) : prog (result ApplicationError (list ModelInfo)) :=
  match ms with
  | [] => Ret (Ok [])
  | (_, m) :: ms => try! i := info m in try! infos := collect ms in Ret (Ok (i :: infos))
  end.
Definition list_models : prog (result ApplicationError (list ModelInfo)) := collect (iter (catalog c)).

(** ** Preloading *)

Record PreloadOutcome := mk_PreloadOutcome { po_canonical_id : string; po_loaded : bool; po_error : option ApplicationErrorKind }.

Definition ungate (gated : list string) : Env → App → App :=
  λ _ s, set_pending (preload_pending s ∖ list_to_set gated) s.

(** [StrictPreloadTransaction::begin]: the gated models. *)
Definition begin_strict : prog (list string) :=
  do! gated := look (λ s, filter (λ id, id ∉ loaded s) (preload_models c)) in
  do! _ := act (λ _ s, set_pending (preload_pending s ∪ list_to_set gated) s) in
  Ret gated.

(** [Drop for StrictPreloadTransaction] before and after the commit. *)
Definition rollback (gated newly_loaded : list string) : list (Env → App → App) :=
  (unload_section <$> reverse newly_loaded) ++ [λ _ s, set_loaded (loaded s ∖ list_to_set newly_loaded) s; ungate gated].
Definition drop_committed (gated : list string) : list (Env → App → App) := [ungate gated].

(** The destructor of the optional transaction while it is not committed. *)
Definition drop_transaction (tx : option (list string)) (newly_loaded : list string) : list (Env → App → App) :=
  match tx with Some gated => rollback gated newly_loaded | None => [] end.

(** The loop of [preload] and what follows it. *)
Fixpoint preload_loop (tx : option (list string)) (newly_loaded : list string) (outcomes : list PreloadOutcome)
    (models : list string) : prog (result ApplicationError (list PreloadOutcome)) :=
  match models with
  | [] =>
    match tx with
    | Some gated => sections (ungate gated :: drop_committed gated) (Ret (Ok outcomes))
    | None => Ret (Ok outcomes)
    end
  | canonical :: models =>
    match resolve (catalog c) canonical with
    | None => sections (drop_transaction tx newly_loaded) (Ret (Err infrastructure_error))
    | Some m =>
      do! already := is_loaded canonical in
      if already then preload_loop tx newly_loaded (outcomes ++ [mk_PreloadOutcome canonical true None]) models else
      do! r := on_drop (drop_transaction tx newly_loaded) (load_locked (Manifest.canonical_id m)) in
      match r, startup_policy c with
      | Ok _, _ => preload_loop tx (newly_loaded ++ [canonical])
                     (outcomes ++ [mk_PreloadOutcome canonical true None]) models
      | Err e, Config.BestEffort => preload_loop tx newly_loaded
                     (outcomes ++ [mk_PreloadOutcome canonical false (Some (ae_kind e))]) models
      | Err e, Config.Strict => sections (drop_transaction tx newly_loaded) (Ret (Err e))
      end
    end
  end.

Definition preload_locked : prog (result ApplicationError (list PreloadOutcome)) :=
  match startup_policy c with
  | Config.Strict => do! gated := begin_strict in preload_loop (Some gated) [] [] (preload_models c)
  | Config.BestEffort => preload_loop None [] [] (preload_models c)
  end.

(** [preload] *)
Definition preload : prog (result ApplicationError (list PreloadOutcome)) :=
  try! _ := ensure_running in
  locked (try! _ := ensure_running in preload_locked).

(** [shutdown_with_timeout]; the deadline reaches [Requests.wait_for_drain]. *)
Definition shutdown : prog bool :=
  do! _ := act (λ _, set_shutting_down) in
  do! r := runtime_shutdown in
  do! _ := act (λ _, set_loaded ∅) in
  do! _ := act (λ _, set_pending ∅) in
  Ret r.

(** Every operation a client can start, and its answer. *)
Inductive Response :=
| RInfo (r : result ApplicationError ModelInfo)
| RList (r : result ApplicationError (list ModelInfo))
| RReport (r : result ApplicationError (list PreloadOutcome))
| RShutdown (drained : bool).

Inductive operation : prog Response → Prop :=
| o_install m : operation (bind (install m) (λ r, Ret (RInfo r)))
| o_load m : operation (bind (load m) (λ r, Ret (RInfo r)))
| o_unload m : operation (bind (unload m) (λ r, Ret (RInfo r)))
| o_delete m : operation (bind (delete m) (λ r, Ret (RInfo r)))
| o_list : operation (bind list_models (λ r, Ret (RList r)))
| o_preload : operation (bind preload (λ r, Ret (RReport r)))
| o_shutdown : operation (bind shutdown (λ r, Ret (RShutdown r))).

(** What goes on beside them: requests, installation tasks, the shutdown task. *)
Inductive background (s : App) : App → Prop :=
| b_admit b r : Runtime.admit_work (runtime s) = (b, r) → background s (set_runtime r s)
| b_drop_permit : (load_permits s + N.of_nat (size (Runtime.installs (runtime s))) < Runtime.held_permits (runtime s))%N →
    background s (set_runtime (Runtime.drop_permit (runtime s)).2 s)
| b_lease id x r : Runtime.lease id (runtime s) = (x, r) → background s (set_runtime r s)
| b_clone i : i ∈ Runtime.held_leases (runtime s) → background s (set_runtime (Runtime.clone_lease i (runtime s)) s)
| b_drop_lease i : i ∈ Runtime.held_leases (runtime s) → background s (set_runtime (Runtime.drop_lease i (runtime s)) s)
| b_acquire i b r : Runtime.acquire_queue i (runtime s) = (b, r) → background s (set_runtime r s)
| b_drop_queue i : i ∈ Runtime.held_queue (runtime s) → background s (set_runtime (Runtime.drop_queue i (runtime s)) s)
| b_embed_begin : background s (set_runtime (Runtime.embed_begin (runtime s)) s)
| b_embed_end out micros : (0 < Runtime.held_active (runtime s))%N →
    background s (set_runtime (Runtime.embed_end out micros (runtime s)) s)
| b_install_commit op b r : Runtime.install_commit op (runtime s) = (b, r) → background s (set_runtime r s)
| b_install_end op : is_Some (Runtime.installs (runtime s) !! op) → unspawned s ≠ Some op →
    background s (set_runtime (Runtime.end_install op (runtime s)) s)
| b_fence d : Runtime.flight (runtime s) = Runtime.Draining → (d = true → Runtime.admitted (runtime s) = 0%N) →
    background s (set_runtime (Runtime.shutdown_fence d (runtime s)) s)
| b_clear d : Runtime.flight (runtime s) = Runtime.Fenced d →
    background s (set_runtime (Runtime.shutdown_clear d (runtime s)) s)
| b_finish d : Runtime.flight (runtime s) = Runtime.Cleared d →
    background s (set_runtime (Runtime.shutdown_finish d (runtime s)) s).

Definition fit (s : App) : Prop := Runtime.counters_fit (runtime s).

(** Any number of operations, started at any time, dropped at any suspension point. *)
Definition app_step : App * list (thread Response) → App * list (thread Response) → Prop :=
  pool_step me operation background fit.

End operations.

(** * What the threads promise each other *)

Abbreviation registered s := (dom (Runtime.models (runtime s))).

(** What thread [t] may assume of the steps of the others: shutdown is final and nothing is
    published after it, a finished shutdown stays finished, and while [t] holds the
    lifecycle mutex nobody else changes the registries, unless shutdown does. *)
Record rely (t : nat) (s s' : App) : Prop := {
  re_late : shutting_down s = true → shutting_down s' = true ∧ loaded s' ⊆ loaded s;
  re_finished : ∀ d, Runtime.flight (runtime s) = Runtime.Finished d → Runtime.flight (runtime s') = Runtime.Finished d;
  re_other : lifecycle s ≠ Some t → lifecycle s' ≠ Some t;
  re_owner : lifecycle s = Some t →
    lifecycle s' = Some t ∧ load_permits s' = load_permits s ∧ unspawned s' = unspawned s ∧
    Runtime.reservations (runtime s') = Runtime.reservations (runtime s);
  re_registries : lifecycle s = Some t → shutting_down s' = false →
    loaded s' = loaded s ∧ preload_pending s' = preload_pending s ∧ registered s' = registered s;
}.
Definition guar (t : nat) (s s' : App) : Prop := ∀ u, u ≠ t → rely u s s'.

Lemma rely_refl t s : rely t s s.
Proof. by split; auto. Qed.

Lemma shutting_down_back t s s' : rely t s s' → shutting_down s' = false → shutting_down s = false.
Proof. intros [Hl _ _ _ _] H. destruct (shutting_down s); [|done]. destruct Hl as [? _]; [done|congruence]. Qed.

Lemma rely_trans t s s' s'' : rely t s s' → rely t s' s'' → rely t s s''.
Proof.
  intros H H'. split.
  - intros Hs. destruct (re_late _ _ _ H Hs) as [Hs' Hl]. destruct (re_late _ _ _ H' Hs') as [? ?]. split; [done|set_solver].
  - intros d Hd. by apply (re_finished _ _ _ H'), (re_finished _ _ _ H).
  - intros Hn. by apply (re_other _ _ _ H'), (re_other _ _ _ H).
  - intros Ht. destruct (re_owner _ _ _ H Ht) as (Ht' & <- & <- & <-). by apply (re_owner _ _ _ H').
  - intros Ht Hd. destruct (re_owner _ _ _ H Ht) as (Ht' & _). pose proof (shutting_down_back _ _ _ H' Hd) as Hd'.
    destruct (re_registries _ _ _ H Ht Hd') as (<- & <- & <-). by apply (re_registries _ _ _ H').
Qed.

Section invariant.
Context (c : Settings) (p : Scheduler.BatchPolicy).

(** A further property of the application's own registries, for as long as it serves. *)
Context (ext : App → Prop).
Context (ext_same : ∀ s s', ext s → lifecycle s' = lifecycle s → shutting_down s' = shutting_down s →
  loaded s' = loaded s → preload_pending s' = preload_pending s → ext s').
Context (ext_down : ∀ s, shutting_down s = true → ext s).

(** The runtime under the application is one of its own reachable states, the operations own
    what they think they own, and only the application's shutdown makes the runtime drain. *)
Record sound (s : App) : Prop := {
  so_runtime : Runtime.reachable p (runtime s);
  so_permits : (load_permits s + N.of_nat (size (Runtime.installs (runtime s))) <= Runtime.held_permits (runtime s))%N;
  so_unspawned : ∀ op, unspawned s = Some op → is_Some (Runtime.installs (runtime s) !! op);
  so_draining : Runtime.draining (runtime s) = true → shutting_down s = true;
}.

(** The registries of the application agree with the runtime's.  A strict rollback may fail
    to unload a model that a request still leases. *)
Record agree (L P M : gset string) : Prop := {
  ag_pending : P = ∅;
  ag_loaded : L ⊆ M;
  ag_exact : startup_policy c = Config.BestEffort → M ⊆ L;
}.

(** What the lifecycle mutex protects. *)
Record app_inv (s : App) : Prop := {
  ai_sound : sound s;
  ai_free : lifecycle s = None →
    load_permits s = 0%N ∧ unspawned s = None ∧ Runtime.reservations (runtime s) = [] ∧
    (shutting_down s = false → agree (loaded s) (preload_pending s) (registered s));
  ai_ext : ext s;
}.

(** Thread [t] holds the mutex, [n] permits, the unspawned installation [un] and the
    reservations [res], and knows the registries unless shutdown has begun. *)
Record owned (t : nat) (n : N) (un : option N) (res : list (string * N)) (Q : gset string → gset string → gset string → Prop) (s : App) : Prop := {
  ow_lock : lifecycle s = Some t;
  ow_permits : load_permits s = n;
  ow_unspawned : unspawned s = un;
  ow_reservations : Runtime.reservations (runtime s) = res;
  ow_registries : shutting_down s = false → Q (loaded s) (preload_pending s) (registered s);
}.

(** A model was added to the runtime's registry. *)
Definition added (id : string) (Q : gset string → gset string → gset string → Prop) : gset string → gset string → gset string → Prop :=
  λ L P M, ∃ M0, Q L P M0 ∧ M = {[id]} ∪ M0 ∧ id ∉ M0.

Abbreviation safe := (Threads.safe me rely guar app_inv fit).
Abbreviation safe_sections := (Threads.safe_sections me rely guar app_inv fit).

Lemma owned_rely t n un res Q s s' : owned t n un res Q s → rely t s s' → owned t n un res Q s'.
Proof.
  intros [Hl Hn Hu Hr Hg] H. destruct (re_owner _ _ _ H Hl) as (Hl' & Hn' & Hu' & Hr'). split; try congruence.
  intros Hd. destruct (re_registries _ _ _ H Hl Hd) as (-> & -> & ->). by apply Hg, (shutting_down_back t s s').
Qed.

(** A step of the holder that does not undo shutdown is no concern of the others. *)
Lemma guar_owner t s s' :
  lifecycle s = Some t → (lifecycle s' = Some t ∨ lifecycle s' = None) →
  (shutting_down s = true → shutting_down s' = true ∧ loaded s' ⊆ loaded s) →
  (∀ d, Runtime.flight (runtime s) = Runtime.Finished d → Runtime.flight (runtime s') = Runtime.Finished d) →
  guar t s s'.
Proof.
  intros Hl Hl' Hd Hf u Hu. split; [done|done| | |]; intros H.
  - destruct Hl' as [-> | ->]; congruence.
  - congruence.
  - congruence.
Qed.

(** * The runtime's side *)

(** What a runtime step of an operation keeps. *)
Definition keeps (r r' : Runtime.State) : Prop :=
  Runtime.draining r' = Runtime.draining r ∧ Runtime.installs r' = Runtime.installs r ∧
  Runtime.held_permits r' = Runtime.held_permits r ∧ Runtime.flight r' = Runtime.flight r.

Lemma sound_keeps r s : sound s → fit s → Runtime.step (runtime s) r → keeps (runtime s) r → sound (set_runtime r s).
Proof.
  intros [H1 H2 H3 H4] Hf Hs (Hd & Hi & Hh & _). split; simpl.
  - by eapply Runtime.r_step.
  - by rewrite Hi, Hh.
  - by rewrite Hi.
  - by rewrite Hd.
Qed.

(** The holder takes a runtime step that keeps the rest. *)
Lemma owner_keeps t s r n un res Q :
  app_inv s → fit s → owned t n un res Q s → Runtime.step (runtime s) r → keeps (runtime s) r →
  guar t s (set_runtime r s) ∧ app_inv (set_runtime r s).
Proof.
  intros [Hs _ He] Hf Ho Hstep Hk. split.
  - apply guar_owner; simpl; [apply Ho|left; apply Ho|done|]. by destruct Hk as (_ & _ & _ & ->).
  - split; [by apply sound_keeps| |by apply (ext_same s)]. simpl. by rewrite (ow_lock _ _ _ _ _ _ Ho).
Qed.

Lemma reserve_keeps id x r r' : Runtime.reserve id r = (x, r') → keeps r r'.
Proof. unfold Runtime.reserve. by repeat case_match; intros; simplify_eq. Qed.
Lemma publish_keeps id k st al x r r' : Runtime.publish id k st al r = (x, r') → keeps r r'.
Proof. unfold Runtime.publish. by repeat case_match; intros; simplify_eq. Qed.
Lemma drop_reservation_keeps id k r : keeps r (Runtime.drop_reservation id k r).
Proof. done. Qed.
Lemma unload_keeps fin id x r r' : Runtime.unload fin id r = (x, r') → keeps r r'.
Proof. unfold Runtime.unload. by repeat case_match; intros; simplify_eq. Qed.

(** * Loading and installing are safe for the holder *)

Lemma guar_refl t s : guar t s s.
Proof. intros u _. apply rely_refl. Qed.

Lemma safe_look {X A} t (f : App → X) (k : X → prog A) Φ Ψ s :
  (∀ s', rely t s s' → app_inv s' → safe t (k (f s')) Φ Ψ s') → safe t (bind (look f) k) Φ Ψ s.
Proof. intros H s1 e x s2 Hr Hi Hf Hm [= <- <-]. split_and!; [apply guar_refl|done|]. by apply H. Qed.

Lemma safe_ask {X A} t (f : Env → X) (k : X → prog A) Φ Ψ s :
  (∀ x s', rely t s s' → app_inv s' → safe t (k x) Φ Ψ s') → safe t (bind (ask f) k) Φ Ψ s.
Proof. intros H s1 e x s2 Hr Hi Hf Hm [= <- <-]. split_and!; [apply guar_refl|done|]. by apply H. Qed.

(** A suspension that changes nothing. *)
Lemma safe_wait {X A} t (f : Env → App → option (X * App)) d (k : X → prog A) Φ Ψ s :
  (∀ e s x s', f e s = Some (x, s') → s' = s) →
  (∀ s', rely t s s' → app_inv s' → (∀ x, safe t (k x) Φ Ψ s') ∧ safe_sections t d Ψ s') →
  safe t (bind (Await f d Ret) k) Φ Ψ s.
Proof.
  intros Hf H s1 Hr Hi. destruct (H s1 Hr Hi) as [Hk Hd]. split; [|done].
  intros e x s2 Hfit Hm He. apply Hf in He as ->. split_and!; [apply guar_refl|done|apply Hk].
Qed.

Lemma safe_try {E X A} t (q : prog (result E X)) (k : X → prog (result E A)) Φ Ψ s :
  safe t q (λ r s, match r with Ok x => safe t (k x) Φ Ψ s | Err e => Φ (Err e) s end) Ψ s →
  safe t (try q k) Φ Ψ s.
Proof. intros H. apply safe_bind. eapply safe_mono; [done| |done]. by intros [x|e] s'. Qed.

Lemma safe_mapping {E F X} t (f : E → F) (q : prog (result E X)) Φ Ψ s :
  safe t q (λ r, Φ (map_err f r)) Ψ s → safe t (mapping f q) Φ Ψ s.
Proof. intros H. by apply safe_bind. Qed.

(** One section of the holder, given its effect. *)
Lemma section_safe t (f : Env → App → App) l Ψ s n un res Q :
  owned t n un res Q s →
  (∀ s1 e, owned t n un res Q s1 → app_inv s1 → fit s1 → me e = t →
     guar t s1 (f e s1) ∧ app_inv (f e s1) ∧ safe_sections t l Ψ (f e s1)) →
  safe_sections t (f :: l) Ψ s.
Proof. intros Ho H s1 e Hr Hi Hf Hm. apply H; try done. by eapply owned_rely. Qed.

Lemma inv_owner s t s0 :
  ext s0 → lifecycle s = Some t → lifecycle s = lifecycle s0 → shutting_down s = shutting_down s0 →
  loaded s = loaded s0 → preload_pending s = preload_pending s0 → sound s → app_inv s.
Proof. intros He Hl Hl0 Hd Hlo Hp Hs. split; [done|by rewrite Hl|]. by apply (ext_same s0). Qed.

Lemma release_safe t un res Q Ψ s :
  owned t 1 un res Q s → (∀ s', owned t 0 un res Q s' → Ψ s') → safe_sections t [release_permit] Ψ s.
Proof.
  intros Ho HΨ. eapply section_safe; [done|]. intros s1 e [Hl Hn Hu Hr Hg] [[H1 H2 H3 H4] _ HE] Hf Hm.
  assert (0 < Runtime.held_permits (runtime s1))%N by lia. split_and!.
  - by apply guar_owner; simpl; auto.
  - apply (inv_owner _ t _ HE); [done..|]. split; simpl; [|lia|done|done].
    eapply Runtime.r_step; [done|done|]. by apply Runtime.s_drop_permit.
  - apply HΨ. split; simpl; [done|lia|done|done|done].
Qed.

Lemma work_admitted r b r' :
  Runtime.admit_work r = (b, r') →
  (b = false ∧ r' = r) ∨
  (b = true ∧ ∃ co, r' = Runtime.with_permits (wrapping_add (Runtime.admitted r) 1) co (Runtime.held_permits r + 1) r).
Proof. unfold Runtime.admit_work. repeat case_match; intros; simplify_eq; eauto. Qed.

Lemma admit_safe {A} t un res Q (k : bool → prog A) Φ Ψ s :
  owned t 0 un res Q s →
  (∀ s', owned t 1 un res Q s' → safe t (k true) Φ Ψ s') → (∀ s', owned t 0 un res Q s' → safe t (k false) Φ Ψ s') →
  safe t (bind admit_load k) Φ Ψ s.
Proof.
  intros Ho Ht Hf s1 e x s2 Hr [[H1 H2 H3 H4] _ HE] Hfit _ He. eapply owned_rely in Ho as [Hl Hn Hu Hres Hg]; [|done].
  destruct (Runtime.admit_work (runtime s1)) as [b r] eqn:Ha.
  assert (Runtime.reachable p r) by (eapply Runtime.r_step; [done|done|by eapply Runtime.s_admit]).
  destruct (work_admitted _ _ _ Ha) as [[-> ->]|[-> [co ->]]]; simplify_eq.
  - split_and!; [by apply guar_owner; simpl; auto| |apply Hf; by split]. apply (inv_owner _ t _ HE); [done..|]. by split.
  - split_and!; [by apply guar_owner; simpl; auto| |].
    + apply (inv_owner _ t _ HE); [done..|]. split; simpl; [done|lia|done|done].
    + apply Ht. split; simpl; [done|lia|done..].
Qed.

(** The reservation is dropped. *)
Lemma drop_reservation_safe t n un id k Q Ψ s :
  owned t n un [(id, k)] Q s → (∀ s', owned t n un [] Q s' → Ψ s') →
  safe_sections t [drop_reservation id k] Ψ s.
Proof.
  intros Ho HΨ. eapply section_safe; [done|]. intros s1 e Ho1 Hi Hf Hm.
  destruct (owner_keeps t s1 (Runtime.drop_reservation id k (runtime s1)) n un [(id, k)] Q Hi Hf Ho1) as [Hg Hi'].
  { apply Runtime.s_drop_reservation. rewrite (ow_reservations _ _ _ _ _ _ Ho1). by left. }
  { done. }
  split_and!; [done|done|]. apply HΨ. destruct Ho1 as [Hl Hn Hu Hres Hreg]. split; simpl; try done.
  rewrite Hres. unfold Runtime.remove_one. simpl. by rewrite decide_True.
Qed.

Lemma reserve_cases id r x r' :
  Runtime.reserve id r = (x, r') →
  Runtime.models r' = Runtime.models r ∧
  match x with
  | Ok k => Runtime.reservations r' = (id, k) :: Runtime.reservations r
  | Err _ => Runtime.reservations r' = Runtime.reservations r
  end.
Proof. unfold Runtime.reserve. by repeat case_match; intros; simplify_eq. Qed.

Lemma reserve_safe {A} t n un id Q (k : N → prog (result LifecycleError A)) Φ Ψ s :
  owned t n un [] Q s →
  (∀ x s', owned t n un [(id, x)] Q s' → safe t (k x) Φ Ψ s') → (∀ e s', owned t n un [] Q s' → Φ (Err e) s') →
  safe t (try! x := call (λ _, Runtime.reserve id) in k x) Φ Ψ s.
Proof.
  intros Ho Hk HΦ s1 e x s2 Hr Hi Hfit _ He. eapply owned_rely in Ho; [|done].
  destruct (Runtime.reserve id (runtime s1)) as [y r] eqn:Hres. simplify_eq.
  destruct (owner_keeps t s1 r n un [] Q Hi Hfit Ho) as [Hg Hi'];
    [by eapply Runtime.s_reserve|by eapply reserve_keeps|].
  split_and!; [done|done|]. destruct (reserve_cases _ _ _ _ Hres) as [Hm Hx]. destruct Ho as [Hl Hn Hu Hrs Hreg].
  rewrite Hrs in Hx. destruct x as [x|err]; simpl; [apply Hk|apply HΦ]; split; simpl; try done; by rewrite Hm.
Qed.

Lemma publish_cases id k st al r x r' :
  Runtime.publish id k st al r = (x, r') →
  match x with
  | Ok _ => Runtime.models r !! id = None ∧ Runtime.models r' = <[id := length (Runtime.slots r)]> (Runtime.models r) ∧
            Runtime.reservations r' = Runtime.remove_one (id, k) (Runtime.reservations r)
  | Err _ => r' = r
  end.
Proof.
  unfold Runtime.publish. case_match; [intros; by simplify_eq|]. case_match; [intros; by simplify_eq|].
  case_bool_decide as Hm; [intros; by simplify_eq|]. repeat case_match; intros; simplify_eq; try done.
  split_and!; [by apply eq_None_not_Some|done|done].
Qed.

Lemma publish_safe t n un id k Q st Φ Ψ s :
  owned t n un [(id, k)] Q s →
  (∀ s', owned t n un [] (added id Q) s' → Φ (Ok tt) s') →
  (∀ e s', owned t n un [(id, k)] Q s' → Φ (Err e) s') →
  safe t (call (λ e, Runtime.publish id k st (scheduler_alive e))) Φ Ψ s.
Proof.
  intros Ho Hok Herr s1 e x s2 Hr Hi Hfit _ He. eapply owned_rely in Ho; [|done].
  destruct (Runtime.publish id k st (scheduler_alive e) (runtime s1)) as [y r] eqn:Hp. simplify_eq.
  destruct (owner_keeps t s1 r n un [(id, k)] Q Hi Hfit Ho) as [Hg Hi'].
  { eapply Runtime.s_publish; [|done]. rewrite (ow_reservations _ _ _ _ _ _ Ho). by left. }
  { by eapply publish_keeps. }
  split_and!; [done|done|]. apply publish_cases in Hp. destruct x as [[]|err]; simpl.
  - destruct Ho as [Hl Hn Hu Hrs Hreg], Hp as (Hnone & Hm & Hx). apply Hok. split; simpl; try done.
    + rewrite Hx, Hrs. unfold Runtime.remove_one. simpl. by rewrite decide_True.
    + intros Hd. exists (registered s1). rewrite Hm, dom_insert_L. split_and!; [by apply Hreg|done|].
      by apply not_elem_of_dom.
  - subst r. apply Herr. by destruct Ho; split.
Qed.

(** A reservation is given back unless the program in its scope has published. *)
Lemma reserved_safe t n un id k Q Q' (q : prog (result LifecycleError unit)) Φ Ψ s :
  safe t q (λ r s', match r with
                    | Ok u => owned t n un [] Q' s' ∧ Φ (Ok u) s'
                    | Err e => owned t n un [(id, k)] Q s'
                    end) (owned t n un [(id, k)] Q) s →
  (∀ e s', owned t n un [] Q s' → Φ (Err e) s') → (∀ s', owned t n un [] Q s' → Ψ s') →
  safe t (reserved id k q) Φ Ψ s.
Proof.
  intros Hq HΦ HΨ. apply safe_bind, safe_on_drop. eapply safe_mono; [done| |].
  - intros [u|e] s' H; [apply H|]. apply safe_run_sections. eapply drop_reservation_safe; [done|]. intros s2 Ho. by apply HΦ.
  - intros s' H. by eapply drop_reservation_safe.
Qed.

(** A load leaves the runtime as it was, or with one more model. *)
Lemma load_onnx_safe t id Q Φ Ψ s :
  owned t 0 None [] Q s →
  (∀ s', owned t 0 None [] (added id Q) s' → Φ (Ok tt) s') →
  (∀ e s', owned t 0 None [] Q s' → Φ (Err e) s') → (∀ s', owned t 0 None [] Q s' → Ψ s') →
  safe t (load_onnx id) Φ Ψ s.
Proof.
  intros Ho Hok Herr Hdrop. unfold load_onnx. apply safe_ask. intros ex s0 Hr0 _. eapply owned_rely in Ho; [|exact Hr0].
  destruct ex; [|by apply Herr]. eapply admit_safe; [done| |intros s1 Ho1; by apply Herr].
  intros s1 Ho1. apply safe_owning. eapply reserve_safe; [done| |intros; eapply release_safe; eauto].
  clear s Ho s0 Hr0 s1 Ho1. intros k s Ho. apply (reserved_safe t 1 None id k Q (added id Q));
    [|intros; eapply release_safe; eauto..].
  apply safe_ask. intros room s1 Hr1 _. eapply owned_rely in Ho; [|exact Hr1]. destruct room; [|done].
  apply safe_look. intros s2 Hr2 _. eapply owned_rely in Ho; [|exact Hr2]. destruct (Runtime.force_stop _); [done|].
  apply safe_wait.
  { intros e s3 x s4. case_match; [intros; by simplify_eq|]. destruct (candidate e); intros; by simplify_eq/=. }
  intros s3 Hr3 _. eapply owned_rely in Ho; [|exact Hr3]. split; [|done]. intros [_|err]; [|done].
  apply safe_wait. { intros e s4 x s5. destruct (startup e); intros; by simplify_eq/=. }
  intros s4 Hr4 _. eapply owned_rely in Ho; [|exact Hr4]. split; [|done]. intros started.
  eapply publish_safe; [done| |done]. intros s5 Ho5. split; [done|]. by eapply release_safe.
Qed.

(** * Installation *)

Lemma install_cancel_facts op r :
  let r' := Runtime.install_cancel op r in
  Runtime.models r' = Runtime.models r ∧ Runtime.reservations r' = Runtime.reservations r ∧
  Runtime.draining r' = Runtime.draining r ∧ Runtime.flight r' = Runtime.flight r ∧
  Runtime.held_permits r' = Runtime.held_permits r ∧ dom (Runtime.installs r') = dom (Runtime.installs r).
Proof.
  unfold Runtime.install_cancel. destruct (Runtime.installs r !! op) as [x|] eqn:Hx; [|done]. simpl. split_and!; try done.
  rewrite dom_insert_L. apply elem_of_dom_2 in Hx. set_solver.
Qed.

(** Cancelling an installation, whoever owns it. *)
Lemma cancel_install_owner t n un res Q op s :
  app_inv s → fit s → owned t n un res Q s →
  guar t s (set_runtime (Runtime.install_cancel op (runtime s)) s) ∧
  app_inv (set_runtime (Runtime.install_cancel op (runtime s)) s) ∧
  owned t n un res Q (set_runtime (Runtime.install_cancel op (runtime s)) s).
Proof.
  intros [[H1 H2 H3 H4] _ HE] Hf [Hl Hn Hu Hrs Hreg].
  destruct (install_cancel_facts op (runtime s)) as (Hm & Hr & Hd & Hfl & Hh & Hi).
  split_and!.
  - apply guar_owner; simpl; auto. by rewrite Hfl.
  - apply (inv_owner _ t _ HE); [done..|]. split; simpl.
    + eapply Runtime.r_step; [done|done|apply Runtime.s_install_cancel].
    + rewrite Hh, <-size_dom, Hi, size_dom. done.
    + intros o Ho. apply elem_of_dom. rewrite Hi. by apply elem_of_dom, H3.
    + by rewrite Hd.
  - split; simpl; [done..|congruence|]. by rewrite Hm.
Qed.

Lemma cancel_install_safe t n un res Q op Ψ l s :
  owned t n un res Q s → (∀ s', owned t n un res Q s' → safe_sections t l Ψ s') → safe_sections t (cancel_install op :: l) Ψ s.
Proof.
  intros Ho H. eapply section_safe; [done|]. intros s1 e Ho1 Hi Hf _.
  destruct (cancel_install_owner t n un res Q op s1 Hi Hf Ho1) as (Hg & Hi' & Ho'). split_and!; [done|done|by apply H].
Qed.

Lemma begin_install_cases r x r' :
  Runtime.begin_install r = (x, r') →
  match x with
  | Ok op => is_Some (Runtime.installs r' !! op) ∧ Runtime.models r' = Runtime.models r ∧
      Runtime.reservations r' = Runtime.reservations r ∧ Runtime.draining r' = Runtime.draining r ∧
      Runtime.flight r' = Runtime.flight r ∧ Runtime.held_permits r' = (Runtime.held_permits r + 1)%N ∧
      (size (Runtime.installs r') ≤ S (size (Runtime.installs r)))%nat ∧
      ∀ o, is_Some (Runtime.installs r !! o) → is_Some (Runtime.installs r' !! o)
  | Err _ => r' = r
  end.
Proof.
  unfold Runtime.begin_install. case_match; [intros; by simplify_eq|].
  destruct (Runtime.admit_work r) as [b r1] eqn:Ha. destruct (work_admitted _ _ _ Ha) as [[-> ->]|[-> [co ->] ]];
    intros; simplify_eq; simpl; [done|]. split_and!; try done.
  - rewrite lookup_insert_eq. by eexists.
  - destruct (Runtime.installs r !! Runtime.next_key r) as [y|] eqn:Hy.
    + rewrite map_size_insert_Some by by eexists. lia.
    + rewrite map_size_insert_None by done. lia.
  - intros o Ho. by apply lookup_insert_is_Some'; right.
Qed.

Lemma begin_install_safe {A} t Q (k : N → prog (result LifecycleError A)) Φ Ψ s :
  owned t 0 None [] Q s →
  (∀ op s', owned t 0 (Some op) [] Q s' → safe t (k op) Φ Ψ s') → (∀ e s', owned t 0 None [] Q s' → Φ (Err e) s') →
  safe t (try! op := Step (λ e s, match Runtime.begin_install (runtime s) with
                          | (Ok op, r) => (Ok op, set_unspawned r (Some op) s)
                          | (Err err, r) => (Err err, set_runtime r s)
                          end) Ret in k op) Φ Ψ s.
Proof.
  intros Ho Hk HΦ s1 e x s2 Hr [[H1 H2 H3 H4] _ HE] Hfit _ He. eapply owned_rely in Ho as [Hl Hn Hu Hrs Hreg]; [|done].
  destruct (Runtime.begin_install (runtime s1)) as [y r] eqn:Hb.
  assert (Runtime.reachable p r) by (eapply Runtime.r_step; [done|done|by eapply Runtime.s_begin_install]).
  apply begin_install_cases in Hb. destruct y as [op|err]; simplify_eq.
  - destruct Hb as (Hop & Hm & Hre & Hd & Hf & Hh & Hsz & Hin). split_and!.
    + apply guar_owner; simpl; auto. by rewrite Hf.
    + apply (inv_owner _ t _ HE); [done..|]. split; simpl; [done|lia|by intros o [= <-]|by rewrite Hd].
    + apply Hk. split; simpl; [done..|congruence|by rewrite Hm].
  - split_and!; [by apply guar_owner; simpl; auto|apply (inv_owner _ t _ HE); [done..|]; by split|]. apply HΦ. by split.
Qed.

Lemma end_install_safe t op Q Ψ l s :
  owned t 0 (Some op) [] Q s → (∀ s', owned t 0 None [] Q s' → safe_sections t l Ψ s') →
  safe_sections t (end_install op :: l) Ψ s.
Proof.
  intros Ho H. eapply section_safe; [done|]. intros s1 e [Hl Hn Hu Hrs Hreg] [[H1 H2 H3 H4] _ HE] Hf _.
  destruct (H3 _ Hu) as [x Hx].
  assert (size (Runtime.installs (runtime s1)) ≠ 0)%nat as Hsz by (rewrite map_size_non_empty_iff; intros He; by rewrite He in Hx).
  split_and!.
  - by apply guar_owner; simpl; auto.
  - apply (inv_owner _ t _ HE); [done..|]. split; simpl; [|rewrite map_size_delete_Some; [lia|by eexists]|done|done].
    eapply Runtime.r_step; [done|done|]. apply Runtime.s_end_install; [by eexists|lia].
  - apply H. by split.
Qed.

(** An installation does not touch the registries. *)
Lemma install_model_safe t Q Φ Ψ s :
  owned t 0 None [] Q s → (∀ r s', owned t 0 None [] Q s' → Φ r s') → (∀ s', owned t 0 None [] Q s' → Ψ s') →
  safe t install_model Φ Ψ s.
Proof.
  intros Ho HΦ HΨ. eapply begin_install_safe; [done| |by eauto]. clear s Ho. intros op s Ho.
  apply safe_look. intros s1 Hr1 _. eapply owned_rely in Ho; [|exact Hr1]. destruct (Runtime.force_stop _).
  { apply safe_run_sections. eapply cancel_install_safe; [done|]. intros s2 Ho2.
    eapply end_install_safe; [done|]. intros s3 Ho3. by apply HΦ. }
  clear s Hr1. intros s e x s2 Hr Hi Hfit _ [= <- <-]. eapply owned_rely in Ho; [|exact Hr].
  destruct Ho as [Hl Hn Hu Hrs Hreg], Hi as [ [H1 H2 H3 H4] _ HE]. split_and!.
  { by apply guar_owner; simpl; auto. }
  { apply (inv_owner _ t _ HE); [done..|]. by split. }
  set (s0 := set_unspawned (runtime s) None s).
  assert (owned t 0 None [] Q s0) as Ho by by split. clearbody s0. clear - ext_same ext_down Ho HΦ HΨ.
  assert (∀ s', owned t 0 None [] Q s' → safe_sections t [cancel_install op] Ψ s') as Hdrop
    by (intros; eapply cancel_install_safe; eauto).
  intros s1 Hr1 Hi1. eapply owned_rely in Ho; [|exact Hr1]. split; [|by apply Hdrop].
  intros e x s2 Hfit _ He. destruct (default (Err Scheduler.InstallFailed) <$> installed e) as [r|] eqn:Hin.
  { simplify_eq. split_and!; [apply guar_refl|done|by apply HΦ]. }
  destruct (Runtime.force_stop _); [|done]. destruct (Runtime.installs _ !! op) as [ic|]; simplify_eq/=.
  destruct (cancel_install_owner t 0 None [] Q op s1 Hi1 Hfit Ho) as (Hg & Hi' & Ho'). split_and!; [done|done|].
  destruct (_.1); [by apply HΦ|]. clear - ext_same ext_down Ho' HΦ Hdrop. intros s3 Hr3 Hi3. eapply owned_rely in Ho'; [|exact Hr3].
  split; [|exact (Hdrop _ Ho')]. intros e' x s4 Hfit _ He. destruct (_ <$> installed e'); simplify_eq/=.
  split_and!; [apply guar_refl|done|by apply HΦ].
Qed.

(** * Operations are safe for the holder *)

(** What [is_loaded] found, as long as shutdown has not begun. *)
Definition seen (id : string) (b : bool) (Q : gset string → gset string → gset string → Prop) : gset string → gset string → gset string → Prop :=
  λ L P M, Q L P M ∧ (b = true ↔ (id ∉ P) ∧ id ∈ L).

Lemma owned_mono t n un res (Q Q' : gset string → gset string → gset string → Prop) s :
  owned t n un res Q s → (∀ L P M, Q L P M → Q' L P M) → owned t n un res Q' s.
Proof. intros [] H. split; auto. Qed.
Lemma owned_down t n un res Q Q' s : owned t n un res Q s → shutting_down s = true → owned t n un res Q' s.
Proof. intros [] H. split; [done..|congruence]. Qed.

Lemma is_loaded_safe {A} t id n un res Q (k : bool → prog A) Φ Ψ s :
  owned t n un res Q s → (∀ b s', owned t n un res (seen id b Q) s' → safe t (k b) Φ Ψ s') →
  safe t (bind (is_loaded id) k) Φ Ψ s.
Proof.
  intros Ho Hk. apply safe_bind, safe_look. intros s1 Hr1 _. eapply owned_rely in Ho; [|exact Hr1].
  destruct (shutting_down s1) eqn:Hd1; [apply Hk; by eapply owned_down|].
  apply safe_look. intros s2 Hr2 _. eapply owned_rely in Ho; [|exact Hr2].
  case_bool_decide as Hin2.
  { apply Hk. destruct Ho as [Hl Hn Hu Hrs Hreg]. split; try done. intros Hd. split; [by apply Hreg|]. naive_solver. }
  intros s3 e x s4 Hr3 Hi3 _ _ [= <- <-]. split_and!; [apply guar_refl|done|]. apply Hk.
  pose proof (ow_lock _ _ _ _ _ _ Ho) as Hl2. eapply owned_rely in Ho as [Hl Hn Hu Hrs Hreg]; [|exact Hr3]. split; try done.
  intros Hd. split; [by apply Hreg|]. destruct (re_registries _ _ _ Hr3 Hl2 Hd) as (_ & -> & _). rewrite bool_decide_eq_true. naive_solver.
Qed.

(** Reading changes nothing, whoever reads. *)
Fixpoint reading {A} (q : prog A) : Prop :=
  match q with
  | Ret _ => True
  | Step f k => (∀ e s, (f e s).2 = s) ∧ ∀ x, reading (k x)
  | Await _ _ _ => False
  end.
Lemma reading_safe {A} t (q : prog A) Ω Φ Ψ s :
  reading q → stable rely app_inv t Ω → Ω s → (∀ a s', Ω s' → Φ a s') → safe t q Φ Ψ s.
Proof.
  intros Hq HΩ Hs HΦ. revert s Hs. induction q as [a|X f k IH|]; intros s Hs; [by apply HΦ| |done].
  destruct Hq as [Hf Hk]. intros s1 e x s2 Hr Hi _ _ He. specialize (Hf e s1). rewrite He in Hf. simpl in Hf. subst s2.
  split_and!; [apply guar_refl|done|]. apply IH; [apply Hk|]. by eapply HΩ.
Qed.
Lemma reading_bind {A B} (q : prog A) (k : A → prog B) : reading q → (∀ a, reading (k a)) → reading (bind q k).
Proof. intros Hq Hk. induction q as [a|X f j IH|]; simpl in *; [apply Hk| |done]. destruct Hq. split; auto. Qed.

Lemma is_loaded_reading id : reading (is_loaded id).
Proof. split; [done|]. intros []; [done|]. split; [done|]. intros []; [done|]. by split. Qed.
Lemma info_reading m : reading (info c m).
Proof.
  split; [done|]. intros [st|]; [|done]. apply (reading_bind (is_loaded _)); [apply is_loaded_reading|done].
Qed.
Lemma collect_reading ms : reading (collect c ms).
Proof.
  induction ms as [|[id m] ms IH]; [done|]. apply (reading_bind (info c m)); [apply info_reading|]. intros [i|]; [|done].
  apply (reading_bind (collect c ms)); [done|]. by intros [].
Qed.
Lemma ensure_running_reading : reading ensure_running.
Proof. by split. Qed.

Lemma owned_stable t n un res Q : stable rely app_inv t (owned t n un res Q).
Proof. intros s s' Ho Hr _. by eapply owned_rely. Qed.
Lemma idle_stable t : stable rely app_inv t (λ s, lifecycle s ≠ Some t).
Proof. intros s s' Hn Hr _. by apply (re_other _ _ _ Hr). Qed.

(** ** Loading *)

(** A model was published: registered and listed. *)
Definition published (id : string) (Q : gset string → gset string → gset string → Prop) : gset string → gset string → gset string → Prop :=
  λ L P M, ∃ L0 M0, Q L0 P M0 ∧ L = {[id]} ∪ L0 ∧ M = {[id]} ∪ M0 ∧ id ∉ M0.

Lemma unload_cases fin id r x r' :
  Runtime.unload fin id r = (x, r') →
  Runtime.reservations r' = Runtime.reservations r ∧
  match x with
  | Ok _ => Runtime.models r' = base.delete id (Runtime.models r) ∧ is_Some (Runtime.models r !! id)
  | Err _ => r' = r
  end.
Proof. unfold Runtime.unload. repeat case_match; intros; simplify_eq; by eauto. Qed.

(** The runtime's registry lost a model, or kept it because it is in use. *)
Definition unloaded (id : string) (Q : gset string → gset string → gset string → Prop) : gset string → gset string → gset string → Prop :=
  λ L P M, ∃ M0, Q L P M0 ∧ (M = M0 ∖ {[id]} ∨ M = M0).

Lemma unload_section_safe t id n un res Q l Ψ s :
  owned t n un res Q s → (∀ s', owned t n un res (unloaded id Q) s' → safe_sections t l Ψ s') →
  safe_sections t (unload_section id :: l) Ψ s.
Proof.
  intros Ho H. eapply section_safe; [done|]. intros s1 e Ho1 Hi Hf _. unfold unload_section, on_runtime.
  destruct (Runtime.unload (finished e) id (runtime s1)) as [x r] eqn:Hu. simpl.
  destruct (owner_keeps t s1 r n un res Q Hi Hf Ho1) as [Hg Hi']; [by eapply Runtime.s_unload|by eapply unload_keeps|].
  split_and!; [done|done|]. apply H. destruct Ho1 as [Hl Hn Hun Hrs Hreg]. apply unload_cases in Hu as [Hr Hx].
  split; simpl; [done..|congruence|]. intros Hd. exists (registered s1). split; [by apply Hreg|].
  destruct x as [[]|err]; [left|right]; [destruct Hx as [-> _]; by rewrite dom_delete_L|by subst].
Qed.

Lemma load_locked_safe t id Q Φ Ψ s :
  owned t 0 None [] Q s →
  (∀ s0 s1, owned t 0 None [] (added id Q) s0 → shutting_down s0 = false → ext s0 →
     lifecycle s1 = lifecycle s0 → shutting_down s1 = false → loaded s1 = {[id]} ∪ loaded s0 →
     preload_pending s1 = preload_pending s0 → ext s1) →
  (∀ s', owned t 0 None [] (published id Q) s' → Φ (Ok tt) s') →
  (∀ e s', owned t 0 None [] Q s' → Φ (Err e) s') → (∀ s', owned t 0 None [] Q s' → Ψ s') →
  safe t (load_locked id) Φ Ψ s.
Proof.
  intros Ho Hext Hok Herr Hdrop. unfold load_locked. eapply is_loaded_safe; [done|]. clear s Ho. intros b s Ho.
  apply owned_mono with (Q' := Q) in Ho; [|by intros ??? [? _] ]. destruct b; [by apply Herr|].
  apply safe_try, safe_mapping. eapply load_onnx_safe; [done| |by intros; apply Herr|done]. clear s Ho.
  intros s Ho s1 e x s2 Hr Hi Hf _ He. eapply owned_rely in Ho; [|exact Hr]. destruct (shutting_down s1) eqn:Hd; simplify_eq.
  - split_and!; [apply guar_refl|done|]. clear Hr.
    match goal with |- safe _ _ _ _ ?x => change (safe t (sections [unload_section id]
      (Ret (Err (of_lifecycle Scheduler.ShuttingDown)))) Φ Ψ x) end.
    apply safe_run_sections. clear Hi Hf. rename s2 into s1. intros s2 e' Hr2 Hi2 Hf2 _. assert (shutting_down s2 = true) as Hd2 by by apply (re_late _ _ _ Hr2).
    eapply owned_rely in Ho; [|exact Hr2]. eapply owned_down with (Q' := Q) in Ho; [|done].
    destruct (Runtime.unload (finished e') id (runtime s2)) as [x r] eqn:Hu.
    destruct (owner_keeps t s2 r 0 None [] Q Hi2 Hf2 Ho) as [Hg Hi']; [by eapply Runtime.s_unload|by eapply unload_keeps|].
    unfold unload_section, on_runtime. rewrite Hu. split_and!; [done|done|]. apply Herr.
    apply unload_cases in Hu as [Hrv _]. destruct Ho as [Hl Hn Hun Hrs _]. split; simpl; [done..|congruence|congruence].
  - destruct Ho as [Hl Hn Hu Hrs Hreg]. split_and!.
    + apply guar_owner; simpl; auto; congruence.
    + destruct Hi as [ [H1 H2 H3 H4] _ HE]. split; [by split|simpl; by rewrite Hl|]. by apply (Hext s1).
    + simpl. apply Hok. split; simpl; try done. intros _. destruct (Hreg Hd) as (M0 & HQ & HM & Hid).
      by exists (loaded s1), M0.
Qed.

(** ** The mutex *)

(** The registries as the mutex protects them. *)
Abbreviation resting t := (owned t 0 None [] agree).

(** A section of the holder on the application's own registries. *)
Lemma registry_safe t n un res Q L' P' l Ψ s (f : Env → App → App) :
  owned t n un res Q s →
  (∀ e s, f e s = set_pending (P' (preload_pending s)) (set_loaded (L' (loaded s)) s)) →
  (∀ L, L' L ⊆ L) →
  (∀ s1, owned t n un res Q s1 → app_inv s1 → ext (set_pending (P' (preload_pending s1)) (set_loaded (L' (loaded s1)) s1))) →
  (∀ s', owned t n un res (λ L P M, ∃ L0 P0, Q L0 P0 M ∧ L = L' L0 ∧ P = P' P0) s' → safe_sections t l Ψ s') →
  safe_sections t (f :: l) Ψ s.
Proof.
  intros Ho Hfe HL Hext H. eapply section_safe; [done|]. intros s1 e Ho1 Hi Hf _. rewrite Hfe.
  pose proof (Hext _ Ho1 Hi) as HE. destruct Hi as [Hs _ _]. destruct Ho1 as [Hl Hn Hu Hrs Hreg]. split_and!.
  - apply guar_owner; simpl; auto.
  - split; [by destruct Hs; split|simpl; by rewrite Hl|done].
  - apply H. split; simpl; try done. intros Hd. exists (loaded s1), (preload_pending s1). by auto.
Qed.

Lemma locked_safe {A} t (q : prog A) s :
  (∀ s, ext s) → lifecycle s ≠ Some t →
  (∀ s', resting t s' → safe t q (λ _ s', resting t s') (λ s', resting t s') s') →
  safe t (locked q) (λ _ s', lifecycle s' ≠ Some t) (λ s', lifecycle s' ≠ Some t) s.
Proof.
  intros Hany Hidle Hq s1 Hr Hi. split; [|by apply (idle_stable t s s1)].
  intros e x s2 Hf Hm He. destruct (lifecycle s1) eqn:Hl; simplify_eq. split_and!.
  - intros u Hu. split; simpl; try done; congruence.
  - destruct Hi as [ [H1 H2 H3 H4] _ _]. split; [by split|done|apply Hany].
  - apply safe_owning. assert (∀ s', resting (me e) s' → safe_sections (me e) [λ _ s, set_lifecycle None s]
      (λ s', lifecycle s' ≠ Some (me e)) s') as Hrelease.
    { intros s' Ho. eapply section_safe; [done|]. intros s2 e' [Hl2 Hn Hu Hrs Hreg] [Hs _ _] _ _. split_and!.
      - apply guar_owner; simpl; auto.
      - split; [by destruct Hs; split|done|apply Hany].
      - done. }
    eapply safe_mono; [apply Hq|by intros; apply Hrelease|done].
    destruct (ai_free _ Hi Hl) as (Hn & Hu & Hrs & Hag). by split.
Qed.

(** The frame of the administrative operations. *)
Lemma administer_safe t model q s :
  (∀ s, ext s) → lifecycle s ≠ Some t →
  (∀ m s', resting t s' → safe t (q m) (λ _ s', resting t s') (λ s', resting t s') s') →
  safe t (administer c model q) (λ _ s', lifecycle s' ≠ Some t) (λ s', lifecycle s' ≠ Some t) s.
Proof.
  intros Hany Hidle Hq. unfold administer. destruct (resolve _ _) as [m|]; [|done].
  apply safe_try. eapply reading_safe; [apply ensure_running_reading|apply idle_stable|done|].
  intros [_|e] s1 Hidle1; [|done]. apply locked_safe; [done|done|]. intros s2 Ho2.
  apply safe_try. eapply reading_safe; [apply ensure_running_reading|apply owned_stable|done|].
  intros [_|e] s3 Ho3; [|done]. apply safe_try. eapply safe_mono; [by apply Hq| |done].
  intros [_|e] s4 Ho4; [|done]. eapply reading_safe; [apply info_reading|apply owned_stable|done|done].
Qed.

(** * The operations *)

Lemma load_safe t model s :
  (∀ s, ext s) → lifecycle s ≠ Some t →
  safe t (load c model) (λ _ s', lifecycle s' ≠ Some t) (λ s', lifecycle s' ≠ Some t) s.
Proof.
  intros Hany Hidle. apply administer_safe; [done|done|]. intros m s' Ho. eapply load_locked_safe; [done|done| |done|done].
  intros s2 Ho2. eapply owned_mono; [done|]. intros L P M (L0 & M0 & [HP HL HM] & -> & -> & _). split; [done|set_solver|].
  intros Hb. specialize (HM Hb). set_solver.
Qed.

Lemma install_safe t model s :
  (∀ s, ext s) → lifecycle s ≠ Some t →
  safe t (install c model) (λ _ s', lifecycle s' ≠ Some t) (λ s', lifecycle s' ≠ Some t) s.
Proof.
  intros Hany Hidle. apply administer_safe; [done|done|]. intros m s' Ho. apply safe_mapping, safe_try.
  eapply install_model_safe; [done| |done]. by intros [r|e] s2 Ho2.
Qed.

Lemma safe_act {A} t (f : Env → App → App) (k : unit → prog A) Φ Ψ s :
  safe_sections t [f] (λ s', safe t (k tt) Φ Ψ s') s → safe t (bind (act f) k) Φ Ψ s.
Proof. intros H s1 e [] s2 Hr Hi Hf Hm [= <-]. by apply H. Qed.

Lemma unload_safe t model s :
  (∀ s, ext s) → lifecycle s ≠ Some t →
  safe t (unload c model) (λ _ s', lifecycle s' ≠ Some t) (λ s', lifecycle s' ≠ Some t) s.
Proof.
  intros Hany Hidle. apply administer_safe; [done|done|]. intros m s' Ho. set (id := Manifest.canonical_id m).
  apply safe_try, safe_mapping. intros s1 e x s2 Hr Hi Hf _ He. eapply owned_rely in Ho; [|exact Hr].
  destruct (Runtime.unload (finished e) id (runtime s1)) as [y r] eqn:Hu. simplify_eq.
  destruct (owner_keeps t s1 r 0 None [] agree Hi Hf Ho) as [Hg Hi']; [by eapply Runtime.s_unload|by eapply unload_keeps|].
  split_and!; [done|done|]. apply unload_cases in Hu as [Hrv Hx]. destruct Ho as [Hl Hn Hun Hrs Hreg].
  destruct x as [[]|err]; [|subst r; by split]. destruct Hx as [Hm _].
  apply (safe_act t (λ _ s, set_loaded (loaded s ∖ {[id]}) s)).
  apply (registry_safe t 0 None [] (λ L P M, ∃ M0, agree L P M0 ∧ M = M0 ∖ {[id]}) (.∖ {[id]}) (λ P, P));
    [| |set_solver|done|].
  - split; simpl; [done..|congruence|]. intros Hd. exists (registered s1). rewrite Hm, dom_delete_L. by auto.
  - done.
  - intros s2 Ho2. eapply owned_mono; [done|].
    intros L P M (L0 & P0 & (M0 & [HP HL HM] & ->) & -> & ->). split; [done|set_solver|].
    intros Hb. specialize (HM Hb). set_solver.
Qed.

Lemma delete_safe t model s :
  (∀ s, ext s) → lifecycle s ≠ Some t →
  safe t (delete c model) (λ _ s', lifecycle s' ≠ Some t) (λ s', lifecycle s' ≠ Some t) s.
Proof.
  intros Hany Hidle. apply administer_safe; [done|done|]. intros m s' Ho.
  apply safe_try, safe_mapping. intros s1 e x s2 Hr Hi Hf _ [= <- <-]. eapply owned_rely in Ho; [|exact Hr].
  assert (set_runtime (runtime s1) s1 = s1) as -> by by destruct s1. split_and!; [apply guar_refl|done|].
  by destruct (Runtime.delete_model _ _ _ _).
Qed.

Lemma list_safe t s :
  lifecycle s ≠ Some t → safe t (list_models c) (λ _ s', lifecycle s' ≠ Some t) (λ s', lifecycle s' ≠ Some t) s.
Proof. intros Hidle. eapply reading_safe; [apply collect_reading|apply idle_stable|done|done]. Qed.

(** ** Shutdown *)

(** A section after the fence of the application. *)
Lemma guar_down t s s' :
  shutting_down s' = true → loaded s' ⊆ loaded s → lifecycle s' = lifecycle s → load_permits s' = load_permits s →
  unspawned s' = unspawned s → Runtime.reservations (runtime s') = Runtime.reservations (runtime s) →
  (∀ d, Runtime.flight (runtime s) = Runtime.Finished d → Runtime.flight (runtime s') = Runtime.Finished d) →
  guar t s s'.
Proof. intros Hd HL Hl Hn Hu Hr Hf u _. split; try done; [by rewrite Hl|by rewrite Hl, Hn, Hu, Hr|congruence]. Qed.

Lemma inv_down s s' :
  app_inv s → shutting_down s' = true → lifecycle s' = lifecycle s → load_permits s' = load_permits s →
  unspawned s' = unspawned s → runtime s' = runtime s → app_inv s'.
Proof.
  intros [ [H1 H2 H3 H4] Hf _] Hd Hl Hn Hu Hr. split; [split| |by apply ext_down].
  - by rewrite Hr.
  - by rewrite Hn, Hr.
  - by rewrite Hu, Hr.
  - done.
  - rewrite Hl, Hn, Hu, Hr. intros H. destruct (Hf H) as (? & ? & ? & _). split_and!; [done..|congruence].
Qed.

Lemma shutdown_begin_cases r b r' :
  Runtime.shutdown_begin r = (b, r') →
  Runtime.reservations r' = Runtime.reservations r ∧ Runtime.installs r' = Runtime.installs r ∧
  Runtime.held_permits r' = Runtime.held_permits r ∧ ∀ d, Runtime.flight r = Runtime.Finished d → r' = r.
Proof. unfold Runtime.shutdown_begin. repeat case_match; intros; simplify_eq; by split_and!. Qed.

(** Where a finished call of [shutdown] leaves the application. *)
Record fenced (drained : bool) (s : App) : Prop := {
  fd_down : shutting_down s = true;
  fd_loaded : loaded s = ∅;
  fd_drained : drained = true → Runtime.flight (runtime s) = Runtime.Finished true;
}.
Lemma fenced_stable t d : stable rely app_inv t (fenced d).
Proof.
  intros s s' [Hd Hl Hf] Hr _. destruct (re_late _ _ _ Hr Hd) as [Hd' Hl']. split; [done|set_solver|].
  intros Ht. apply (re_finished _ _ _ Hr). by apply Hf.
Qed.

Lemma down_stable t : stable rely app_inv t (λ s, shutting_down s = true ∧ lifecycle s ≠ Some t).
Proof. intros s s' [Hd Hn] Hr _. split; [by apply (re_late _ _ _ Hr)|by apply (re_other _ _ _ Hr)]. Qed.

(** Clearing after the runtime has answered. *)
Lemma clear_safe t r s :
  shutting_down s = true ∧ lifecycle s ≠ Some t → (r = true → Runtime.flight (runtime s) = Runtime.Finished true) →
  safe t (do! _ := act (λ _, set_loaded ∅) in do! _ := act (λ _, set_pending ∅) in Ret r)
    (λ r s', fenced r s' ∧ lifecycle s' ≠ Some t) (λ s', lifecycle s' ≠ Some t) s.
Proof.
  intros Hs Hfin s1 e x s2 Hr1 Hi1 _ _ [= <- <-]. pose proof (down_stable t _ _ Hs Hr1 Hi1) as [Hd1 Hn1]. split_and!.
  { apply guar_down; simpl; auto. set_solver. }
  { by apply (inv_down s1). }
  intros s3 e3 x3 s4 Hr3 Hi3 _ _ [= <- <-]. destruct (re_late _ _ _ Hr3 Hd1) as [Hd3 Hl3]. simpl in Hl3. split_and!.
  { apply guar_down; simpl; auto. }
  { by apply (inv_down s3). }
  split; [split; simpl; [done|set_solver|]|by apply (re_other _ _ _ Hr3)].
  intros Ht. apply (re_finished _ _ _ Hr3). simpl. apply (re_finished _ _ _ Hr1). by apply Hfin.
Qed.

Lemma shutdown_safe t s :
  lifecycle s ≠ Some t →
  safe t shutdown (λ r s', fenced r s' ∧ lifecycle s' ≠ Some t) (λ s', lifecycle s' ≠ Some t) s.
Proof.
  intros Hidle s1 e x s2 Hr1 Hi1 _ _ [= <- <-]. apply (re_other _ _ _ Hr1) in Hidle. split_and!.
  { apply guar_down; simpl; auto. }
  { by apply (inv_down s1). }
  set (s2 := set_shutting_down s1). assert (shutting_down s2 = true ∧ lifecycle s2 ≠ Some t) as Hs2 by done.
  clearbody s2. clear - ext_same ext_down Hs2. apply safe_bind, safe_ask. intros ex s3 Hr3 Hi3.
  pose proof (down_stable t _ _ Hs2 Hr3 Hi3) as Hs3. destruct ex; [|by apply clear_safe].
  intros s4 e x s5 Hr4 Hi4 Hf4 _ He. pose proof (down_stable t _ _ Hs3 Hr4 Hi4) as [Hd4 Hn4].
  destruct (Runtime.shutdown_begin (runtime s4)) as [b r] eqn:Hb. simplify_eq.
  destruct (shutdown_begin_cases _ _ _ Hb) as (Hrs & Hin & Hh & Hfin). split_and!.
  { apply guar_down; simpl; auto. intros d Hd. by rewrite (Hfin d Hd). }
  { destruct Hi4 as [ [H1 H2 H3 H4] Hfree _]. split; [split; simpl| |by apply ext_down]; simpl.
    - eapply Runtime.r_step; [done|done|by eapply Runtime.s_shutdown].
    - by rewrite Hin, Hh.
    - by rewrite Hin.
    - done.
    - rewrite Hrs. intros H. destruct (Hfree H) as (? & ? & ? & _). split_and!; [done..|congruence]. }
  set (s5 := set_runtime r s4). assert (shutting_down s5 = true ∧ lifecycle s5 ≠ Some t) as Hs5 by done.
  clearbody s5. clear - ext_same ext_down Hs5. intros s6 Hr6 Hi6. pose proof (down_stable t _ _ Hs5 Hr6 Hi6) as Hs6.
  split; [|by destruct Hs6]. intros e' x' s7 _ _ He.
  destruct (Runtime.flight (runtime s6)) as [| | | |d] eqn:Hfl; try (destruct (shutdown_lost e'); [|done]);
    simplify_eq; (split_and!; [apply guar_refl|done|apply clear_safe; [done|]]); try done. by intros ->.
Qed.

(** ** Preloading, best effort *)

Lemma preload_best_effort_safe t tx newly outcomes models s :
  (∀ s, ext s) → startup_policy c = Config.BestEffort → tx = None → resting t s →
  safe t (preload_loop c tx newly outcomes models) (λ _ s', resting t s') (λ s', resting t s') s.
Proof.
  intros Hany Hbe ->. revert newly outcomes s. induction models as [|id models IH]; intros newly outcomes s Ho; [done|].
  cbn [preload_loop]. destruct (resolve _ _) as [m|]; [|done]. eapply is_loaded_safe; [done|]. clear s Ho. intros b s Ho.
  apply owned_mono with (Q' := agree) in Ho; [|by intros ??? [? _] ]. destruct b; [by apply IH|].
  apply safe_bind, safe_on_drop. eapply load_locked_safe; [done|done| | |done].
  - intros s' Ho'. apply IH. eapply owned_mono; [done|]. intros L P M (L0 & M0 & [HP HL HM] & -> & -> & _).
    split; [done|set_solver|]. intros _. specialize (HM Hbe). set_solver.
  - intros e s' Ho'. rewrite Hbe. by apply IH.
Qed.

(** ** Preloading, strict *)

(** The catalog resolves the configured models to themselves. *)
Definition settled : Prop :=
  ∀ id m, id ∈ preload_models c → resolve (catalog c) id = Some m → Manifest.canonical_id m = id.

Section strict.
Context (t : nat) (L0 M0 : gset string).
Context (Hstrict : startup_policy c = Config.Strict) (Hsettled : settled).

Abbreviation wanted := (list_to_set (preload_models c) : gset string).
(** What a client sees: listed and not gated. *)
Definition visible (s : App) : gset string := loaded s ∖ preload_pending s.
Context (Hext : ∀ s, lifecycle s = Some t →
  (shutting_down s = false → visible s = L0 ∨ visible s = L0 ∪ wanted) → ext s).

(** While the transaction runs: [newly] were loaded by it, [seen] were looked at. *)
Record pending (gated newly looked : list string) (L P M : gset string) : Prop := {
  pn_gated : gated = filter (λ id, id ∉ L0) (preload_models c);
  pn_known : L0 ⊆ M0;
  pn_loaded : L = L0 ∪ list_to_set newly;
  pn_pending : P = list_to_set gated;
  pn_registered : M = M0 ∪ list_to_set newly;
  pn_new : ∀ id, id ∈ newly → (id ∉ M0) ∧ id ∈ preload_models c;
  pn_looked : ∀ id, id ∈ looked → id ∈ L;
}.

(** After a rollback. *)
Record rolled (L P M : gset string) : Prop := {
  ro_loaded : L = L0;
  ro_pending : P = ∅;
  ro_known : L0 ⊆ M0;
  ro_registered : M0 ⊆ M ∧ M ⊆ M0 ∪ wanted;
}.

Lemma gated_elem gated newly looked L P M id :
  pending gated newly looked L P M → id ∈ gated ↔ (id ∉ L0) ∧ id ∈ preload_models c.
Proof. intros [-> _ _ _ _ _ _]. by rewrite list_elem_of_filter. Qed.

Lemma pending_visible gated newly looked L P M : pending gated newly looked L P M → L ∖ P = L0.
Proof.
  intros Hp. pose proof Hp as [_ HK -> -> _ Hn _]. apply set_eq. intros id.
  rewrite elem_of_difference, elem_of_union, !elem_of_list_to_set, (gated_elem _ _ _ _ _ _ id Hp). split.
  - intros [ [?|Hin] Hg]; [done|]. destruct (Hn id Hin) as [HM Hw]. destruct Hg. set_solver.
  - intros Hin. split; [by left|]. by intros [? _].
Qed.

(** Unloading what the transaction loaded; a model in use stays registered. *)
Definition unwinding (gated newly : list string) (L P M : gset string) : Prop :=
  ∃ M1 looked, pending gated newly looked L P M1 ∧ M0 ⊆ M ∧ M ⊆ M1.

Lemma unwind_safe gated newly todo l Ψ s :
  (∀ id, id ∈ todo → id ∈ newly) → owned t 0 None [] (unwinding gated newly) s →
  (∀ s', owned t 0 None [] (unwinding gated newly) s' → safe_sections t l Ψ s') →
  safe_sections t ((unload_section <$> todo) ++ l) Ψ s.
Proof.
  intros Hin Ho H. revert s Ho. induction todo as [|id todo IH]; intros s Ho; [by apply H|].
  simpl. eapply unload_section_safe; [done|]. intros s' Ho'. apply IH; [set_solver|].
  eapply owned_mono; [done|]. intros L P M (M2 & (M1 & looked & Hp & HM & HM') & Hor).
  exists M1, looked. split; [done|]. destruct (pn_new _ _ _ _ _ _ Hp id) as [Hid _]; [apply Hin; by left|].
  destruct Hor as [-> | ->]; set_solver.
Qed.

Lemma rollback_safe gated newly looked Ψ s :
  owned t 0 None [] (pending gated newly looked) s → (∀ s', owned t 0 None [] rolled s' → Ψ s') →
  safe_sections t (rollback gated newly) Ψ s.
Proof.
  intros Ho HΨ. apply (unwind_safe gated newly); [intros id; by rewrite elem_of_reverse| |].
  { eapply owned_mono; [done|]. intros L P M Hp. exists M, looked. split_and!; [done| |done].
    rewrite (pn_registered _ _ _ _ _ _ Hp). apply union_subseteq_l. }
  clear s Ho. intros s Ho.
  apply (registry_safe t 0 None [] (unwinding gated newly) (.∖ list_to_set newly) (λ P, P)); [done|done|set_solver| |].
  - intros s1 [Hl _ _ _ Hreg] _. apply Hext; [done|]. intros Hd. left. destruct (Hreg Hd) as (M1 & lk & Hp & _).
    pose proof (pending_visible _ _ _ _ _ _ Hp) as HV. unfold visible. simpl. destruct Hp as [_ HK HL _ _ Hn _].
    rewrite HL in HV |- *. clear - HV Hn HK. set_solver.
  - clear s Ho. intros s Ho.
    apply (registry_safe t 0 None [] (λ L P M, ∃ L1 P1, unwinding gated newly L1 P1 M ∧ L = L1 ∖ list_to_set newly ∧ P = P1)
             (λ L, L) (.∖ list_to_set gated)); [done| |done| |].
    + intros e s1. unfold ungate. by destruct s1.
    + intros s1 [Hl _ _ _ Hreg] _. apply Hext; [done|]. intros Hd. left.
      destruct (Hreg Hd) as (L1 & P1 & (M1 & lk & Hp & _) & HL & HP). unfold visible. simpl. rewrite HL, HP.
      destruct Hp as [_ HK HL' HP' _ Hn _]. subst L1 P1. clear - Hn HK. set_solver.
    + intros s' Ho'. apply HΨ. eapply owned_mono; [done|].
      intros L P M (L2 & P2 & (L1 & P1 & (M1 & lk & [Hg HK -> -> -> Hn _] & HM & HM') & -> & ->) & -> & ->).
      split; [set_solver|set_solver|done|]. split; [done|]. etrans; [exact HM'|]. apply union_mono_l.
      intros id. rewrite !elem_of_list_to_set. by intros [_ ?]%Hn.
Qed.

Lemma rolled_resting s : owned t 0 None [] rolled s → resting t s.
Proof.
  intros Ho. eapply owned_mono; [done|]. intros L P M [-> -> HK [HM _] ]. split; [done|set_solver|]. by rewrite Hstrict.
Qed.

(** After the commit. *)
Record committed (L P M : gset string) : Prop := {
  cm_loaded : L = L0 ∪ wanted;
  cm_pending : P = ∅;
  cm_registered : L ⊆ M;
}.

Lemma commit_safe gated newly Ψ s :
  owned t 0 None [] (pending gated newly (preload_models c)) s → (∀ s', owned t 0 None [] committed s' → Ψ s') →
  safe_sections t (ungate gated :: drop_committed gated) Ψ s.
Proof.
  intros Ho HΨ.
  assert (∀ L P M, pending gated newly (preload_models c) L P M → L = L0 ∪ wanted ∧ P ∖ list_to_set gated = ∅ ∧ L ⊆ M) as Hfin.
  { intros L P M [_ HK -> -> -> Hn Hl]. split_and!; [|set_solver|set_solver]. apply set_eq. intros id.
    rewrite !elem_of_union, !elem_of_list_to_set. split; [naive_solver|]. intros [?|Hw]; [by left|].
    apply Hl in Hw. set_solver. }
  apply (registry_safe t 0 None [] (pending gated newly (preload_models c)) (λ L, L) (.∖ list_to_set gated)); [done| |done| |].
  - intros e s1. unfold ungate. by destruct s1.
  - intros s1 [Hl _ _ _ Hreg] _. apply Hext; [done|]. intros Hd. right. destruct (Hfin _ _ _ (Hreg Hd)) as (HL & HP & _).
    unfold visible. simpl. by rewrite HL, HP, difference_empty_L.
  - clear s Ho. intros s Ho. apply owned_mono with (Q' := committed) in Ho.
    2:{ intros L P M (L1 & P1 & Hp & -> & ->). destruct (Hfin _ _ _ Hp) as (? & ? & ?). by split. }
    apply (registry_safe t 0 None [] committed (λ L, L) (.∖ list_to_set gated)); [done| |done| |].
    + intros e s1. unfold ungate. by destruct s1.
    + intros s1 [Hl _ _ _ Hreg] _. apply Hext; [done|]. intros Hd. right. destruct (Hreg Hd) as [HL HP _].
      unfold visible. simpl. rewrite HL, HP. clear. set_solver.
    + intros s' Ho'. apply HΨ. eapply owned_mono; [done|]. intros L P M (L1 & P1 & [HL HP HM] & -> & ->).
      split; [done|rewrite HP; clear; set_solver|done].
Qed.

Lemma pending_add gated newly looked id L P M :
  pending gated newly looked L P M → id ∉ M → id ∈ preload_models c →
  pending gated (newly ++ [id]) (looked ++ [id]) ({[id]} ∪ L) P ({[id]} ∪ M).
Proof.
  intros [Hg HK -> -> -> Hn Hl] HM Hw. split; [done|done|set_solver|done|set_solver| |].
  - intros x [Hx|Hx]%elem_of_app; [by apply Hn|]. apply list_elem_of_singleton in Hx as ->. set_solver.
  - intros x [Hx|Hx]%elem_of_app; [apply Hl in Hx; set_solver|]. apply list_elem_of_singleton in Hx as ->. set_solver.
Qed.

Lemma strict_loop_safe gated newly looked outcomes models s :
  looked ++ models = preload_models c → owned t 0 None [] (pending gated newly looked) s →
  safe t (preload_loop c (Some gated) newly outcomes models)
    (λ r s', match r with Ok _ => owned t 0 None [] committed s' | Err _ => owned t 0 None [] rolled s' end)
    (λ s', owned t 0 None [] rolled s') s.
Proof.
  revert newly looked outcomes s. induction models as [|id models IH]; intros newly looked outcomes s Hall Ho; cbn [preload_loop].
  { rewrite app_nil_r in Hall. subst looked. apply safe_run_sections. by eapply commit_safe. }
  assert (id ∈ preload_models c) as Hw by (rewrite <-Hall; set_solver).
  assert ((looked ++ [id]) ++ models = preload_models c) as Hall' by by rewrite <-(assoc_L (++)).
  destruct (resolve (catalog c) id) as [m|] eqn:Hm; [|apply safe_run_sections; by eapply rollback_safe].
  rewrite (Hsettled id m Hw Hm). clear m Hm.
  eapply is_loaded_safe; [done|]. clear s Ho. intros [] s Ho.
  { apply (IH newly (looked ++ [id])); [done|]. eapply owned_mono; [done|]. intros L P M [ [] [Hs _] ].
    split; try done. intros x [Hx|Hx]%elem_of_app; [by auto|]. apply list_elem_of_singleton in Hx as ->. by apply Hs. }
  apply owned_mono with (Q' := pending gated newly looked) in Ho; [|by intros ??? [? _] ].
  apply safe_bind, safe_on_drop. eapply load_locked_safe; [done| | | |].
  - intros s0 s1 [Hl _ _ _ Hreg] Hd _ Hl1 Hd1 HL1 HP1. apply Hext; [congruence|]. intros _. left. unfold visible.
    destruct (Hreg Hd) as (M1 & Hp & _ & Hid). rewrite HL1, HP1. by eapply pending_visible, pending_add.
  - intros s' Ho'. apply (IH _ (looked ++ [id])); [done|]. eapply owned_mono; [done|].
    intros L P M (L1 & M1 & Hp & -> & -> & Hid). by apply pending_add.
  - intros e s' Ho'. rewrite Hstrict. apply safe_run_sections. by eapply rollback_safe.
  - intros s' Ho'. by eapply rollback_safe.
Qed.

(** What a strict preload does: everything, visible at once, or nothing visible. *)
Lemma preload_strict_safe s :
  L0 ⊆ M0 → owned t 0 None [] (λ L P M, L = L0 ∧ P = ∅ ∧ M = M0) s →
  safe t (preload_locked c)
    (λ r s', match r with Ok _ => owned t 0 None [] committed s' | Err _ => owned t 0 None [] rolled s' end)
    (λ s', owned t 0 None [] rolled s') s.
Proof.
  intros HK Ho. unfold preload_locked. rewrite Hstrict. apply safe_bind, safe_look. intros s1 Hr1 _.
  eapply owned_rely in Ho; [|exact Hr1]. set (gated := filter _ _). apply safe_act.
  apply (registry_safe t 0 None [] (λ L P M, L = L0 ∧ P = ∅ ∧ M = M0 ∧ gated = filter (λ id, id ∉ L0) (preload_models c))
           (λ L, L) (.∪ list_to_set gated)); [| |done| |].
  - destruct Ho as [Hl Hn Hu Hrs Hreg]. split; try done. intros Hd. destruct (Hreg Hd) as (HL & HP & HM). split_and!; try done.
    subst gated. by rewrite HL.
  - intros e s2. by destruct s2.
  - intros s2 [Hl _ _ _ Hreg] _. apply Hext; [done|]. intros Hd. left. destruct (Hreg Hd) as (HL & HP & _ & Hg).
    unfold visible. simpl. rewrite HL, HP, Hg. apply set_eq. intros id.
    rewrite elem_of_difference, elem_of_union, elem_of_list_to_set, list_elem_of_filter. set_solver.
  - clear s Ho Hr1. intros s2 Ho2. apply (strict_loop_safe gated [] []); [done|]. eapply owned_mono; [done|].
    intros L P M (L1 & P1 & (-> & -> & -> & Hg) & -> & ->). split; [done|done|set_solver|set_solver|set_solver| |].
    + by intros id ?%elem_of_nil.
    + by intros id ?%elem_of_nil.
Qed.

End strict.

Lemma preload_safe t s :
  (∀ s, ext s) → settled → lifecycle s ≠ Some t →
  safe t (preload c) (λ _ s', lifecycle s' ≠ Some t) (λ s', lifecycle s' ≠ Some t) s.
Proof.
  intros Hany Hset Hidle. unfold preload.
  apply safe_try. eapply reading_safe; [apply ensure_running_reading|apply idle_stable|done|].
  intros [_|e] s1 Hidle1; [|done]. apply locked_safe; [done|done|]. intros s2 Ho2.
  apply safe_try. eapply reading_safe; [apply ensure_running_reading|apply owned_stable|done|].
  intros [_|e] s3 Ho3; [|done]. destruct (startup_policy c) eqn:Hpol.
  - unfold preload_locked. rewrite Hpol. by apply preload_best_effort_safe.
  - assert (∃ L0 M0, L0 ⊆ M0 ∧ owned t 0 None [] (λ L P M, L = L0 ∧ P = ∅ ∧ M = M0) s3) as (L0 & M0 & HK & Ho).
    { destruct (shutting_down s3) eqn:Hd; [exists ∅, ∅; split; [done|by eapply owned_down]|].
      pose proof Ho3 as [Hl Hn Hu Hrs Hreg]. destruct (Hreg Hd) as [HP HL _]. exists (loaded s3), (registered s3).
      split; [done|]. by split. }
    eapply safe_mono; [eapply (preload_strict_safe t L0 M0); by eauto| |].
    + intros [r|e] s4 Ho4; [|by eapply rolled_resting]. eapply owned_mono; [done|]. intros L P M [_ -> HM].
      split; [done|done|]. by rewrite Hpol.
    + intros s4 Ho4. by eapply rolled_resting.
Qed.

End invariant.

(** * Every interleaving *)

Section pool.
Context (c : Settings) (p : Scheduler.BatchPolicy).
Context (Hp : (Scheduler.queue_depth p <= usize_max)%N) (Hsettled : settled c).

Abbreviation app_ok := (app_inv c p (λ _, True)).

(** The background leaves the registries to their holder. *)
Record quiet (s : App) (r : Runtime.State) : Prop := {
  qt_step : Runtime.step (runtime s) r;
  qt_reservations : Runtime.reservations r = Runtime.reservations (runtime s);
  qt_draining : Runtime.draining r = Runtime.draining (runtime s);
  qt_permits : (load_permits s + N.of_nat (size (Runtime.installs r)) <= Runtime.held_permits r)%N;
  qt_unspawned : ∀ op, unspawned s = Some op → is_Some (Runtime.installs r !! op);
  qt_models : Runtime.models r = Runtime.models (runtime s) ∨ Runtime.draining (runtime s) = true;
  qt_finished : ∀ d, Runtime.flight (runtime s) = Runtime.Finished d → Runtime.flight r = Runtime.Finished d;
}.

Lemma quiet_keeps s r :
  sound p s → Runtime.step (runtime s) r → keeps (runtime s) r →
  Runtime.reservations r = Runtime.reservations (runtime s) → Runtime.models r = Runtime.models (runtime s) → quiet s r.
Proof.
  intros [H1 H2 H3 H4] Hs (Hd & Hi & Hh & Hf) Hr Hm. split; try done; [by rewrite Hi, Hh|by rewrite Hi|by left|by rewrite Hf].
Qed.

Lemma install_commit_facts op r b r' :
  Runtime.install_commit op r = (b, r') →
  dom (Runtime.installs r') = dom (Runtime.installs r) ∧ Runtime.reservations r' = Runtime.reservations r ∧
  Runtime.draining r' = Runtime.draining r ∧ Runtime.held_permits r' = Runtime.held_permits r ∧
  Runtime.models r' = Runtime.models r ∧ Runtime.flight r' = Runtime.flight r.
Proof.
  unfold Runtime.install_commit. destruct (Runtime.installs r !! op) as [ic|] eqn:Hx; [|intros; by simplify_eq].
  destruct (Install.begin_commit _). intros; simplify_eq/=. split_and!; try done.
  rewrite dom_insert_L. apply elem_of_dom_2 in Hx. set_solver.
Qed.

Lemma fence_facts d r :
  Runtime.flight r = Runtime.Draining →
  let r' := Runtime.shutdown_fence d r in
  dom (Runtime.installs r') = dom (Runtime.installs r) ∧ Runtime.reservations r' = Runtime.reservations r ∧
  Runtime.draining r' = Runtime.draining r ∧ Runtime.held_permits r' = Runtime.held_permits r ∧
  Runtime.models r' = Runtime.models r.
Proof.
  intros Hf. unfold Runtime.shutdown_fence. cbv zeta. set (r0 := if d then r else _).
  rewrite (Runtime.fence_frame (map_to_list (Runtime.models r0))). simpl. subst r0. destruct d; simpl; [done|].
  by rewrite dom_fmap_L.
Qed.

(** The installations of [r] are those of the state. *)
Lemma quiet_installs s r :
  sound p s → dom (Runtime.installs r) = dom (Runtime.installs (runtime s)) →
  Runtime.held_permits r = Runtime.held_permits (runtime s) →
  (load_permits s + N.of_nat (size (Runtime.installs r)) <= Runtime.held_permits r)%N ∧
  ∀ op, unspawned s = Some op → is_Some (Runtime.installs r !! op).
Proof.
  intros [H1 H2 H3 H4] Hd Hh. split.
  - by rewrite Hh, <-size_dom, Hd, size_dom.
  - intros op Hop. apply elem_of_dom. rewrite Hd. by apply elem_of_dom, H3.
Qed.

Lemma background_quiet s s' : app_ok s → background s s' → ∃ r, s' = set_runtime r s ∧ quiet s r.
Proof.
  intros [Hs _ _] Hb. destruct (Runtime.reachable_invariant p (runtime s) Hp (so_runtime _ _ Hs)) as (_ & _ & Hfe & _).
  destruct Hb as [b r Hb|Hh|id x r Hb|i Hi|i Hi|i b r Hb|i Hi| |out mi Ha|op b r Hb|op Ho Hu|d Hf Hz|d Hf|d Hf];
    (eexists; split; [reflexivity|]).
  - pose proof Hs as [_ H2 H3 _]. assert (Runtime.step (runtime s) r) by by eapply Runtime.s_admit.
    destruct (work_admitted _ _ _ Hb) as [ [-> ->]|[-> [co ->] ] ]; split; simpl; auto. lia.
  - pose proof Hs as [_ H2 H3 _]. split; simpl; auto; [apply Runtime.s_drop_permit; lia|lia].
  - apply quiet_keeps; [done|by eapply Runtime.s_lease|..]; unfold Runtime.lease in Hb; by repeat case_match; simplify_eq.
  - apply quiet_keeps; [done|by apply Runtime.s_clone|done..].
  - apply quiet_keeps; [done|by apply Runtime.s_drop_lease|done..].
  - apply quiet_keeps; [done|by eapply Runtime.s_acquire|..]; unfold Runtime.acquire_queue in Hb; by repeat case_match; simplify_eq.
  - apply quiet_keeps; [done|by apply Runtime.s_drop_queue|done..].
  - apply quiet_keeps; [done|apply Runtime.s_embed_begin|done..].
  - apply quiet_keeps; [done|by apply Runtime.s_embed_end|done..].
  - destruct (install_commit_facts _ _ _ _ Hb) as (Hd & Hr & Hdr & Hh & Hm & Hfl).
    destruct (quiet_installs s r Hs Hd Hh) as [H1 H2]. split; auto; [by eapply Runtime.s_install_commit|by rewrite Hfl].
  - pose proof Hs as [_ H2 H3 _]. destruct Ho as [ic Hic].
    assert (size (Runtime.installs (runtime s)) ≠ 0)%nat as Hsz by (rewrite map_size_non_empty_iff; intros He; by rewrite He in Hic).
    split; simpl; auto; [apply Runtime.s_end_install; [by eexists|lia]|rewrite map_size_delete_Some; [lia|by eexists]|].
    intros o Ho. rewrite lookup_delete_ne; [by apply H3|congruence].
  - destruct (fence_facts d _ Hf) as (Hd & Hr & Hdr & Hh & Hm). destruct (quiet_installs s _ Hs Hd Hh) as [H1 H2].
    split; auto; [by apply Runtime.s_fence|]. intros d' Hd'. congruence.
  - pose proof Hs as [_ H2 H3 _]. split; simpl; auto; [by apply Runtime.s_clear| |intros d' Hd'; congruence].
    right. destruct (Runtime.draining (runtime s)) eqn:Hdr; [done|]. apply (Runtime.fe_draining _ Hfe) in Hdr. congruence.
  - pose proof Hs as [_ H2 H3 _]. split; simpl; auto; [by apply Runtime.s_finish|]. intros d' Hd'. congruence.
Qed.

Lemma background_rely t s s' : app_ok s → fit s → background s s' → rely t s s'.
Proof.
  intros Hi _ Hb. destruct (background_quiet s s' Hi Hb) as (r & -> & [_ Hr Hd _ _ Hm Hf]). split; simpl; auto.
  intros _ Hdn. split_and!; [done..|]. destruct Hm as [-> |Hdr]; [done|].
  destruct Hi as [ [_ _ _ H4] _ _]. rewrite H4 in Hdn; done.
Qed.

Lemma background_inv s s' : app_ok s → fit s → background s s' → app_ok s'.
Proof.
  intros Hi Hfit Hb. destruct (background_quiet s s' Hi Hb) as (r & -> & [Hst Hr Hd Hpm Hu Hm Hf]).
  destruct Hi as [ [H1 H2 H3 H4] Hfree _]. split; [split; simpl| |done]; simpl.
  - by eapply Runtime.r_step.
  - done.
  - done.
  - by rewrite Hd.
  - intros Hl. destruct (Hfree Hl) as (? & ? & Hres & Hag). rewrite Hr. split_and!; [done..|]. intros Hdn.
    destruct Hm as [-> |Hdr]; [by apply Hag|]. rewrite H4 in Hdn; done.
Qed.

(** Where an operation that has ended leaves its thread. *)
Definition ended (t : nat) (a : option Response) (s : App) : Prop :=
  match a with
  | Some (RShutdown d) => fenced d s ∧ lifecycle s ≠ Some t
  | _ => lifecycle s ≠ Some t
  end.

Lemma ended_stable t a : stable rely app_ok t (ended t a).
Proof.
  assert (stable rely app_ok t (λ s, lifecycle s ≠ Some t)) as Hidle by apply idle_stable.
  destruct a as [ [| | |d]|]; try done. intros s s' [H1 H2] Hr Hi.
  split; [by apply (fenced_stable c p (λ _, True) ltac:(done) ltac:(done) t d s s')|by apply (Hidle s s')].
Qed.

Lemma operation_safe q t s :
  operation c q → lifecycle s ≠ Some t → app_ok s →
  Threads.safe me rely guar app_ok fit t q (λ a, ended t (Some a)) (ended t None) s.
Proof.
  intros Ho Hidle _. destruct Ho; apply safe_bind; (eapply safe_mono; [| |done]).
  1: by apply install_safe.
  2: by apply load_safe.
  3: by apply unload_safe.
  4: by apply delete_safe.
  5: by apply list_safe.
  6: by apply preload_safe.
  7: by apply shutdown_safe.
  all: done.
Qed.

(** A fresh application over a runtime with policy [p]. *)
Definition fresh : App := mk_App (Runtime.new_runtime p) ∅ ∅ false None 0 None.

Lemma fresh_ok : app_ok fresh.
Proof.
  split; [split; simpl; [constructor|rewrite map_size_empty; lia|done|done]| |done].
  intros _. split_and!; [done..|]. intros _. split; [done|done|]. simpl. set_solver.
Qed.

Lemma run_ok s ts :
  rtc (app_step c) (fresh, []) (s, ts) →
  app_ok s ∧ ∀ t q, ts !! t = Some q → Threads.safe me rely guar app_ok fit t q (ended t) (ended t None) s.
Proof.
  intros Hr. assert (pool_inv me rely guar app_ok fit ended (λ t s, lifecycle s ≠ Some t) (s, ts)) as (Hi & _ & Hs); [|done].
  eapply (pool_run_inv me rely guar app_ok fit rely_refl rely_trans (operation c) background ended
    (λ t s, lifecycle s ≠ Some t)); [| | | | | | |exact Hr].
  - apply ended_stable.
  - intros t. apply idle_stable.
  - intros t u s1 s2 Hne Hg. by apply Hg.
  - apply background_rely.
  - apply background_inv.
  - apply operation_safe.
  - split_and!; [apply fresh_ok|done|done].
Qed.

(** C6: the application and the runtime agree in every interleaving of administration,
    requests and shutdown, with operations dropped at any suspension point: the runtime is
    always in one of its own reachable states, it drains only for the application's
    shutdown, and whenever no administrative operation is in progress there is no half-done
    load, no gated model, every listed model is registered with the runtime, and under the
    best-effort policy the two lists are equal. *)
Theorem application_consistent s ts :
  rtc (app_step c) (fresh, []) (s, ts) →
  Runtime.reachable p (runtime s) ∧
  (Runtime.draining (runtime s) = true → shutting_down s = true) ∧
  (lifecycle s = None → Runtime.loading (runtime s) = ∅ ∧
     (shutting_down s = false → preload_pending s = ∅ ∧ loaded s ⊆ registered s ∧
        (startup_policy c = Config.BestEffort → loaded s = registered s))).
Proof.
  intros Hr. destruct (run_ok s ts Hr) as [ [ [H1 H2 H3 H4] Hfree _] _]. split_and!; [done|done|]. intros Hl.
  destruct (Hfree Hl) as (_ & _ & Hres & Hag). split.
  - destruct (Runtime.reachable_invariant p (runtime s) Hp H1) as (_ & _ & _ & [Hreg _ _ _] & _). apply map_empty.
    intros id. apply eq_None_not_Some. intros [k Hk]. pose proof (Runtime.rg_loading _ Hreg id k Hk) as Hin.
    simpl in Hin. rewrite Hres in Hin. by apply elem_of_nil in Hin.
  - intros Hd. destruct (Hag Hd) as [HP HL HM]. split_and!; [done|done|]. intros Hb. apply set_eq. specialize (HM Hb).
    intros id. split; [apply HL|apply HM].
Qed.


End pool.

(** * The strict transaction *)

Section transaction.
Context (c : Settings) (p : Scheduler.BatchPolicy).
Context (Hstrict : startup_policy c = Config.Strict) (Hsettled : settled c).

(** Thread [t] has taken the mutex and nothing is in progress. *)
Definition begun (t : nat) (s : App) : Prop :=
  app_inv c p (λ _, True) s ∧ owned t 0 None [] (agree c) s ∧ shutting_down s = false.

Abbreviation amid := (Threads.amid me rely fit (app_inv c p (λ _, True))).
Abbreviation wanted := (list_to_set (preload_models c) : gset string).

(** C8: a strict preload is all or nothing.  Whatever the other threads do meanwhile, and
    wherever the operation is dropped, after each of its steps the models a client can see
    are those from before or, once it has committed, those and all configured models;
    success lists all of them and registers them, and failure or abandonment gives back the
    list of before, ungated, keeping every model that was registered. *)
Theorem strict_preload_atomic t s tr r s' :
  begun t s → amid t (preload_locked c) s tr r s' →
  (∀ s1 s2, (s1, s2) ∈ tr → shutting_down s2 = false → visible s2 = loaded s ∨ visible s2 = loaded s ∪ wanted) ∧
  (shutting_down s' = false →
     match r with
     | Some (Ok _) => visible s' = loaded s ∪ wanted ∧ loaded s' ⊆ registered s'
     | _ => visible s' = loaded s ∧ preload_pending s' = ∅ ∧ registered s ⊆ registered s' ∧
            registered s' ⊆ registered s ∪ wanted
     end).
Proof.
  intros (Hi & Ho & Hd) Hrun.
  set (ext := λ s2, shutting_down s2 = false →
    lifecycle s2 = Some t ∧ (visible s2 = loaded s ∨ visible s2 = loaded s ∪ wanted)).
  pose proof Ho as [Hl Hn Hu Hrs Hreg]. destruct (Hreg Hd) as [HP HL _].
  assert (ext_same : ∀ s s', ext s → lifecycle s' = lifecycle s → shutting_down s' = shutting_down s →
    loaded s' = loaded s → preload_pending s' = preload_pending s → ext s').
  { intros a b Ha Hl' Hd' HL' HP'. unfold ext, visible. rewrite Hl', Hd', HL', HP'. exact Ha. }
  assert (ext_down : ∀ s, shutting_down s = true → ext s) by (intros a Ha Hb; congruence).
  assert (ext s) as He.
  { intros _. split; [done|]. left. unfold visible. rewrite HP. apply difference_empty_L. }
  assert (inv_rely : ∀ a b, app_inv c p ext a → rely t a b → app_inv c p (λ _, True) b → app_inv c p ext b).
  { intros a b [_ _ Ha] Hr [H1 H2 _]. split; [done|done|]. intros Hdb.
    destruct (Ha (shutting_down_back _ _ _ Hr Hdb)) as [Hla Hv]. destruct (re_registries _ _ _ Hr Hla Hdb) as (HLb & HPb & _).
    split; [by apply (re_owner _ _ _ Hr)|]. unfold visible in *. by rewrite HLb, HPb. }
  assert (app_inv c p ext s) as Hie by (destruct Hi; by split).
  assert (owned t 0 None [] (λ L P M, L = loaded s ∧ P = ∅ ∧ M = registered s) s) as Ho' by by split.
  pose proof (preload_strict_safe c p ext ext_same ext_down t (loaded s) (registered s) Hstrict Hsettled
    ltac:(intros a Hla Hv Hda; auto) s HL Ho') as Hsafe.
  destruct (amid_safe me rely guar (app_inv c p ext) fit (app_inv c p (λ _, True)) t inv_rely
    (preload_locked c) s tr r s' _ _ Hrun Hie Hsafe) as [HΦ Htr].
  split.
  - intros s1 s2 Hin Hd2. rewrite Forall_forall in Htr. destruct (Htr _ Hin) as [_ [_ _ Hx] ]. by apply Hx.
  - intros Hd'. assert (∀ L : gset string, L ∖ ∅ = L) as Hemp by (intros; apply difference_empty_L).
    destruct r as [ [o|e]|]; [destruct HΦ as [_ _ _ _ HQ]; destruct (HQ Hd') as [H1 H2 H3]
      |destruct HΦ as [_ _ _ _ HQ]; destruct (HQ Hd') as [H1 H2 _ [H3 H4] ]..];
      unfold visible; rewrite H2, Hemp; split_and!; done.
Qed.

End transaction.

(** Construction settles the configured models. *)
Lemma resolve_preloads_canonical (c : ModelCatalog) requested known ids :
  resolve_preloads c requested known = Ok ids →
  NoDup ids ∧ (∀ id, id ∈ ids → (id ∉ known) ∧ ∃ r m, resolve c r = Some m ∧ Manifest.canonical_id m = id).
Proof.
  revert known ids. induction requested as [|r requested IH]; intros known ids; cbn [resolve_preloads].
  { intros [= <-]. split; [constructor|by intros id ?%elem_of_nil]. }
  intros (m & Hm%ok_or_Ok & H)%bind_Ok. case_bool_decide as Hin; [done|].
  apply bind_Ok in H as (rest & Hrest & [= <-]). apply IH in Hrest as [Hd Hr]. split.
  - apply NoDup_cons. split; [|done]. intros Hx. destruct (Hr _ Hx) as [Hx' _]. set_solver.
  - intros id [->|Hid]%elem_of_cons; [split; [done|by exists r, m]|]. destruct (Hr id Hid) as [Hx' Hex]. split; [set_solver|done].
Qed.

Lemma with_catalog_settled {U : UrlCrate} ms als k config st ins pool c s :
  ModelCatalog_new ms als = Ok k → with_catalog config k st ins pool = Ok (c, s) →
  settled c ∧ NoDup (preload_models c) ∧ ∃ p, s = fresh p.
Proof.
  intros [Hw ->]%new_Ok H. unfold with_catalog in H. apply bind_Ok in H as (ids & Hids & H).
  apply resolve_preloads_canonical in Hids as [Hd Hids]. apply Config.ensure_Ok in H as [_ H]. apply Config.ensure_Ok in H as [_ H].
  apply bind_Ok in H as (p & _ & H). apply Config.ensure_Ok in H as [_ [= <- <-] ]. split_and!; [|done|by exists p].
  intros id m Hid Hm. destruct (Hids id Hid) as [_ (r & m' & Hr & Hc)]. apply built_resolve in Hr as [Hin _]; [|done].
  assert (resolve (built ms als) id = Some m') as Hm'.
  { apply built_resolve; [done|]. split; [done|]. by left. }
  simpl in Hm. rewrite Hm' in Hm. by injection Hm as <-.
Qed.

(** * Examples *)

Definition fits (s : App) : bool :=
  let r := runtime s in
  ((Runtime.next_key r <? 2 ^ 64 - 1) && (N.of_nat (length (Runtime.held_leases r)) <? 2 ^ 64 - 1)
   && (Runtime.held_permits r <? 2 ^ 64 - 1) && (N.of_nat (length (Runtime.held_queue r)) <? 2 ^ 64 - 1)
   && (Runtime.held_active r <? 2 ^ 64 - 1))%N.
Lemma fits_fit s : fits s = true → fit s.
Proof. unfold fits, fit, Runtime.counters_fit. intros H. inv_bool. by split_and!. Qed.

Definition sample_settings (policy : Config.StartupPolicy) : Settings :=
  mk_Settings sample_catalog ["acme/tiny"]%string policy 30000 20000.
Definition willing (t : nat) : Env :=
  mk_Env t true true (Some (Some (Ok tt))) (Some true) true (λ _, true) (λ _, Ok Loadable) (λ _, Ok true)
    (Some (Some (Ok Loadable))) false.

Lemma sample_settled policy : settled (sample_settings policy).
Proof. intros id m Hid Hm. simpl in Hid. apply list_elem_of_singleton in Hid as ->. by injection Hm as <-. Qed.

Lemma sample_depth : (Scheduler.queue_depth Runtime.run_policy <= usize_max)%N.
Proof. by vm_compute. Qed.

Definition best_effort : Settings := sample_settings Config.BestEffort.
Definition sample_load : prog Response := bind (load best_effort "tiny") (λ r, Ret (RInfo r)).
Definition sample_shutdown : prog Response := bind shutdown (λ r, Ret (RShutdown r)).

(** What is left of a driven operation, and the state. *)
Definition driven {A} (answers : list Env) (q : prog A) (s : App) : prog A * App := default (q, s) (drive fits answers q s).
Definition after_load : prog (option Response) * App := driven (replicate 40 (willing 0)) (start sample_load) (fresh Runtime.run_policy).
(** Shutdown up to its wait, the shutdown task, and the rest. *)
Definition waiting_shutdown : prog (option Response) * App := driven (replicate 3 (willing 1)) (start sample_shutdown) after_load.2.
Definition fenced_app : App := set_runtime (Runtime.shutdown_fence true (runtime waiting_shutdown.2)) waiting_shutdown.2.
Definition cleared_app : App := set_runtime (Runtime.shutdown_clear true (runtime fenced_app)) fenced_app.
Definition stopped_app : App := set_runtime (Runtime.shutdown_finish true (runtime cleared_app)) cleared_app.
Definition after_shutdown : prog (option Response) * App := driven (replicate 9 (willing 1)) waiting_shutdown.1 stopped_app.

Definition drives {A} (answers : list Env) (q : prog A) (s : App) : bool :=
  match drive fits answers q s with Some _ => true | None => false end.

Lemma drive_run c t answers q s ts :
  Forall (λ e, me e = t) answers → ts !! t = Some q → drives answers q s = true →
  rtc (app_step c) (s, ts) ((driven answers q s).2, <[t := (driven answers q s).1]> ts).
Proof.
  intros Hme Ht. unfold drives, driven. destruct (drive fits answers q s) as [ [q' s']|] eqn:Hd; [|done]. intros _. simpl.
  by eapply drive_pool; [apply fits_fit|..].
Qed.

Lemma run_load : rtc (app_step best_effort) (fresh Runtime.run_policy, []) (after_load.2, [after_load.1]).
Proof.
  eapply rtc_l; [apply p_start; apply o_load with (m := "tiny"%string)|].
  apply (drive_run best_effort 0 (replicate 40 (willing 0)) (start sample_load) (fresh Runtime.run_policy) [start sample_load]).
  - by apply Forall_replicate.
  - reflexivity.
  - vm_compute. reflexivity.
Qed.

(** A shutdown with the steps of its task in between. *)
Lemma shutdown_run c q0 s s1 s2 q1 q2 :
  drives (replicate 3 (willing 1)) (start sample_shutdown) s = true →
  driven (replicate 3 (willing 1)) (start sample_shutdown) s = (q1, s1) →
  let sf := set_runtime (Runtime.shutdown_fence true (runtime s1)) s1 in
  let sc := set_runtime (Runtime.shutdown_clear true (runtime sf)) sf in
  let se := set_runtime (Runtime.shutdown_finish true (runtime sc)) sc in
  fits s1 && fits sf && fits sc = true →
  Runtime.flight (runtime s1) = Runtime.Draining → Runtime.admitted (runtime s1) = 0%N →
  drives (replicate 9 (willing 1)) q1 se = true → driven (replicate 9 (willing 1)) q1 se = (q2, s2) →
  rtc (app_step c) (s, [q0]) (s2, [q0; q2]).
Proof.
  intros Hd1 He1 sf sc se Hfit Hfl Hz Hd2 He2. apply andb_true_iff in Hfit as [ [Hf1 Hf2]%andb_true_iff Hf3].
  eapply rtc_l; [apply p_start; apply o_shutdown|].
  etrans; [apply (drive_run c 1 (replicate 3 (willing 1)) (start sample_shutdown) s [q0; start sample_shutdown]);
    [by apply Forall_replicate|reflexivity|exact Hd1]|]. rewrite He1.
  eapply rtc_l; [apply p_background; [by apply fits_fit|by apply (b_fence _ true)]|].
  eapply rtc_l; [apply p_background; [by apply fits_fit|by apply (b_clear _ true)]|].
  eapply rtc_l; [apply p_background; [by apply fits_fit|by apply (b_finish _ true)]|].
  fold sf sc se. pose proof (drive_run c 1 (replicate 9 (willing 1)) q1 se [q0; q1]) as H. rewrite He2 in H.
  apply H; [by apply Forall_replicate|reflexivity|exact Hd2].
Qed.

Lemma run_shutdown : rtc (app_step best_effort) (fresh Runtime.run_policy, []) (after_shutdown.2, [after_load.1; after_shutdown.1]).
Proof.
  etrans; [apply run_load|]. apply (shutdown_run _ _ _ waiting_shutdown.2 _ waiting_shutdown.1).
  - vm_compute. reflexivity.
  - unfold waiting_shutdown. apply surjective_pairing.
  - vm_compute. reflexivity.
  - vm_compute. reflexivity.
  - vm_compute. reflexivity.
  - vm_compute. reflexivity.
  - unfold after_shutdown. apply surjective_pairing.
Qed.

(** A model is loaded by its alias: both lists have it. *)
Lemma application_consistent_witness :
  loaded after_load.2 = {[ "acme/tiny"%string ]} ∧ loaded after_load.2 = dom (Runtime.models (runtime after_load.2)).
Proof.
  split; [by vm_compute|].
  destruct (application_consistent best_effort Runtime.run_policy sample_depth (sample_settled _) _ _ run_load) as (_ & _ & H).
  destruct H as [_ H]; [by vm_compute|]. destruct H as (_ & _ & H); [by vm_compute|]. by apply H.
Defined.


(** ** A strict preload *)

Definition strict : Settings := sample_settings Config.Strict.
Definition strict_start : App := set_lifecycle (Some 0) (fresh Runtime.run_policy).
Definition strict_run : prog (result ApplicationError (list PreloadOutcome)) * App :=
  driven (replicate 60 (willing 0)) (preload_locked strict) strict_start.
Definition strict_outcome : result ApplicationError (list PreloadOutcome) := Ok [mk_PreloadOutcome "acme/tiny" true None].

Lemma strict_begun : begun strict Runtime.run_policy 0 strict_start.
Proof.
  split_and!; [|split; [done..|]|done].
  - destruct (fresh_ok strict Runtime.run_policy sample_depth) as [ [H1 H2 H3 H4] _ _]. split; [by split|done|done].
  - intros _. split; [done|done|]. by vm_compute.
Qed.

Lemma strict_amid : ∃ tr, amid me rely fit (app_inv strict Runtime.run_policy (λ _, True)) 0 (preload_locked strict) strict_start tr
  (Some strict_outcome) strict_run.2.
Proof.
  destruct strict_begun as (Hi & Ho & _).
  eapply (drive_amid me rely guar (app_inv strict Runtime.run_policy (λ _, True)) fit rely_refl
    (app_inv strict Runtime.run_policy (λ _, True)) fits 0 (replicate 60 (willing 0))).
  - apply fits_fit.
  - done.
  - by apply Forall_replicate.
  - exact Hi.
  - apply (preload_strict_safe strict Runtime.run_policy (λ _, True) ltac:(done) ltac:(done) 0 ∅ ∅ eq_refl (sample_settled _)).
    + done.
    + done.
    + destruct Ho as [Hl Hn Hu Hrs _]. by split.
  - vm_compute. reflexivity.
Qed.

(** The configured model becomes visible. *)
Lemma strict_preload_atomic_witness : visible strict_run.2 = {[ "acme/tiny"%string ]}.
Proof.
  destruct strict_amid as [tr Htr].
  destruct (strict_preload_atomic strict Runtime.run_policy eq_refl (sample_settled _) 0 _ _ _ _ strict_begun Htr) as [_ H].
  destruct H as [H _]; [by vm_compute|]. rewrite H. by vm_compute.
Defined.

End Application.
