(* ===== verification/Service.v ===== *)
(** The shared state of the transports ([crates/impossible-server/src/application.rs]):
    credentials, request ids, the shutdown trigger, and the request boundary of the
    application. *)

From Stdlib Require Import NArith Lia Ascii.
From stdpp Require Import base strings relations gmap list.
From S2P Require Import Prelude Core Cancellation Std Config Security Manifest Scheduler Runtime Requests Catalog Application.
Import Catalog Application.

Local Open Scope list_scope.
Local Open Scope rust_scope.

Module Service.

(** * Request ids *)

(** [RequestIdSource::next]: the id and the counter afterwards.  The loop runs twice only
    when the counter has wrapped to zero. *)
Fixpoint next_fuel (fuel : nat) (counter : N) : option (N * N) :=
  match fuel with
  | O => None
  | S fuel => let value := wrapping_add counter 1 in
              if (value =? 0)%N then next_fuel fuel value else Some (value, value)
  end.
Definition next (counter : N) : option (N * N) := next_fuel 2 counter.

(** The first [n] ids. *)
Fixpoint draw (n : nat) (counter : N) : option (list N) :=
  match n with
  | O => Some []
  | S n => next counter ≫= λ '(id, counter), ids ← draw n counter; Some (id :: ids)
  end.

(** * The shutdown trigger *)

(** [ShutdownTrigger::cancelled] against [trigger], at the granularity of single accesses:
    the waiter registers with the notifier, looks at the flag and sleeps; the trigger swaps
    the flag and, if it was first, notifies whoever is registered. *)
Inductive WaitPc := WRegister | WCheck | WSleep | WDone.
Inductive TriggerPc := TSwap | TNotify | TDone.
Record Trigger := mk_Trigger {
  triggered : bool;
  registered : bool;
  notified : bool;
  wait_pc : WaitPc;
  trigger_pc : TriggerPc;
}.

Definition wait_step (r : Trigger) : option Trigger :=
  match wait_pc r with
  | WRegister => Some (mk_Trigger (triggered r) true false WCheck (trigger_pc r))
  | WCheck => Some (mk_Trigger (triggered r) (registered r) (notified r) (if triggered r then WDone else WSleep) (trigger_pc r))
  | WSleep => if notified r then Some (mk_Trigger (triggered r) false false WRegister (trigger_pc r)) else None
  | WDone => None
  end.
Definition trigger_step (r : Trigger) : option Trigger :=
  match trigger_pc r with
  | TSwap => Some (mk_Trigger true (registered r) (notified r) (wait_pc r) (if triggered r then TDone else TNotify))
  | TNotify => Some (mk_Trigger (triggered r) (registered r) (notified r || registered r) (wait_pc r) TDone)
  | TDone => None
  end.
Inductive trigger_race (r : Trigger) : Trigger → Prop :=
| tr_wait r' : wait_step r = Some r' → trigger_race r r'
| tr_trigger r' : trigger_step r = Some r' → trigger_race r r'.
Definition trigger_start : Trigger := mk_Trigger false false false WRegister TSwap.

(** * Shared state *)

Record AppState := mk_AppState {
  application : Settings * App;
  public_credential : option Security.Secret;
  admin_credential : option Security.Secret;
  origins : Security.OriginPolicy;
  limits : Config.Limits;
  admin_api_enabled : bool;
}.

Inductive AppStateError :=
| Configuration
| Credential (e : Security.CredentialError)
| EApplication (e : ApplicationError).

(** [Display for AppStateError] *)
Definition AppStateError_display (e : AppStateError) : string :=
  match e with
  | Configuration => "server configuration is invalid"
  | Credential _ => "server credential configuration is invalid"
  | EApplication _ => "embedding application initialization failed"
  end.

(** [source.as_ref().map(load_credential).transpose()] *)
Definition load_optional (h : Security.Host) (source : option Config.CredentialSource) : result AppStateError (option Security.Secret) :=
  match source with
  | None => Ok None
  | Some s => let? secret := map_err Credential (Security.load_credential h s) in Ok (Some secret)
  end.

(** [AppState::new] *)
Definition AppState_new {U : UrlCrate} (h : Security.Host) (config : Config.ServerConfig)
    (curated_manifests : result Manifest.Error (list Manifest)) (store installer pool : bool) : result AppStateError AppState :=
  let? _ := map_err (λ _, Configuration) (Config.validate config) in
  let? public := load_optional h (Config.auth config) in
  let? admin := load_optional h (Config.admin_auth config) in
  let? _ := match public, admin with
            | Some p, Some a => map_err Credential (Security.verify_distinct_credentials p a)
            | _, _ => Ok tt
            end in
  let? app := map_err EApplication (EmbeddingApplication_new config curated_manifests store installer pool) in
  Ok (mk_AppState app public admin (Security.mk_OriginPolicy (Config.allowed_origins config)) (Config.limits config)
        (Config.admin_api_enabled config)).

Definition is_none_or {A} (o : option A) (f : A → bool) : bool := match o with None => true | Some a => f a end.

Definition public_auth_required (s : AppState) : bool := bool_decide (is_Some (public_credential s)).
Definition admin_auth_required (s : AppState) : bool := bool_decide (is_Some (admin_credential s)).
Definition metrics_credential (s : AppState) : option Security.Secret :=
  match admin_credential s with Some a => Some a | None => public_credential s end.
Definition metrics_auth_required (s : AppState) : bool := bool_decide (is_Some (metrics_credential s)).
Definition verify_public_token (s : AppState) (candidate : string) : bool :=
  is_none_or (public_credential s) (λ secret, Security.verify secret candidate).
Definition verify_admin_token (s : AppState) (candidate : string) : bool :=
  is_none_or (admin_credential s) (λ secret, Security.verify secret candidate).
Definition verify_metrics_token (s : AppState) (candidate : string) : bool :=
  is_none_or (metrics_credential s) (λ secret, Security.verify secret candidate).

(** * Embedding *)

Record EmbedCommand := mk_EmbedCommand {
  model : string;
  input : list string;
  options : EmbedOptions;
  cancellation : token;
  timeout : option N;
}.

Section embed.
Context {E : Scheduler.RuntimeEngine}.

(** [EmbeddingApplication::embed]: [down] and [pending] are what the gate reads, [now] the
    clock; the second component is the runtime's side of a request that was let through. *)
Definition embed (c : Settings) (down : bool) (pending : gset string) (instant_max now : N) (command : EmbedCommand)
    (e : Requests.EmbedEnv) (micros : N) (r : Runtime.State)
    : option (result ApplicationError EmbeddingOutput) * option Requests.Embedded :=
  match resolve (catalog c) (model command) with
  | None => (Some (Err catalog_request_error), None)
  | Some manifest =>
    let id := Manifest.canonical_id manifest in
    if down || bool_decide (id ∈ pending) then (Some (Err (ApplicationError_new KModelUnavailable ModelUnavailable)), None) else
    let timeout := N.min (default (request_timeout c) (timeout command)) (request_timeout c) in
    if (timeout =? 0)%N then (Some (Err catalog_request_error), None) else
    match checked_add instant_max now timeout with
    | None => (Some (Err infrastructure_error), None)
    | Some deadline =>
      let x := Requests.embed id (input command) (options command) (cancellation command) (Some deadline) e micros r in
      (map_err of_engine <$> Requests.outcome x, Some x)
    end
  end.

End embed.

(** * Ids *)

(** The id after [id], without zero. *)
Definition succ_id (id : N) : N := if (id =? 2 ^ 64 - 1)%N then 1 else (id + 1)%N.

Lemma next_spec counter : (counter < 2 ^ 64)%N → next counter = Some (succ_id counter, succ_id counter).
Proof.
  intros Hc. unfold next, next_fuel, succ_id, wrapping_add. destruct (N.eqb_spec counter (2 ^ 64 - 1)) as [->|Hne]; [done|].
  rewrite N.mod_small by lia. destruct (N.eqb_spec (counter + 1) 0); [lia|done].
Qed.

Definition ID_SPAN : N := 18446744073709551615.

Lemma succ_id_mod counter : (counter < 2 ^ 64)%N → succ_id counter = (1 + counter mod ID_SPAN)%N.
Proof.
  intros Hc. unfold succ_id, ID_SPAN. destruct (N.eqb_spec counter (2 ^ 64 - 1)) as [->|Hne]; [done|]. rewrite N.mod_small by lia. lia.
Qed.
Lemma mod_span x : (x mod ID_SPAN < ID_SPAN)%N.
Proof. apply N.mod_lt. done. Qed.

Lemma draw_spec n counter :
  (counter < 2 ^ 64)%N → draw n counter = Some ((λ i, 1 + (counter + N.of_nat i) mod ID_SPAN)%N <$> seq 0 n).
Proof.
  revert counter. induction n as [|n IH]; intros counter Hc; [done|]. cbn [draw]. rewrite next_spec by done. simpl.
  rewrite succ_id_mod by done. pose proof (mod_span counter) as Hm. rewrite IH by (unfold ID_SPAN in *; lia). simpl.
  f_equal. f_equal; [by rewrite N.add_0_r|]. rewrite <-fmap_S_seq, <-list_fmap_compose. apply list_fmap_ext. intros _ i _. simpl.
  f_equal. rewrite <-(N.Div0.add_mod_idemp_l counter), <-(N.Div0.add_mod_idemp_l (1 + _)).
  rewrite N.Div0.add_mod_idemp_l. f_equal. lia.
Qed.

(** Request ids identify.  However the counter starts, as many as 2^64 - 1 ids drawn in
    a row are all distinct and none is zero; a draw always ends. *)
Theorem request_ids_distinct n counter :
  (counter < 2 ^ 64)%N → (N.of_nat n <= 2 ^ 64 - 1)%N →
  ∃ ids, draw n counter = Some ids ∧ length ids = n ∧ NoDup ids ∧ Forall (λ id, 0 < id < 2 ^ 64)%N ids.
Proof.
  intros Hc Hn. rewrite draw_spec by done. eexists. split; [done|]. split_and!.
  - by rewrite length_fmap, length_seq.
  - apply NoDup_fmap_2_strong; [|apply NoDup_seq]. intros i j Hi%elem_of_seq Hj%elem_of_seq Heq.
    assert ((counter + N.of_nat i) mod ID_SPAN = (counter + N.of_nat j) mod ID_SPAN)%N as Hmod by lia.
    pose proof (N.div_mod (counter + N.of_nat i) ID_SPAN ltac:(done)) as H1.
    pose proof (N.div_mod (counter + N.of_nat j) ID_SPAN ltac:(done)) as H2.
    rewrite Hmod in H1. unfold ID_SPAN in *. lia.
  - apply Forall_fmap, Forall_forall. intros i _. unfold compose. pose proof (mod_span (counter + N.of_nat i)). unfold ID_SPAN in *. set (z := (_ mod _)%N) in *. clearbody z. clear - H. lia.
Qed.

Lemma request_ids_distinct_witness : draw 3 (2 ^ 64 - 2) = Some [2 ^ 64 - 1; 1; 2]%N ∧ NoDup [2 ^ 64 - 1; 1; 2]%N.
Proof.
  assert (H : draw 3 (2 ^ 64 - 2) = Some [2 ^ 64 - 1; 1; 2]%N) by (vm_compute; reflexivity). split; [exact H|].
  destruct (request_ids_distinct 3 (2 ^ 64 - 2)) as (ids & Hd & _ & Hn & _); [lia|lia|].
  rewrite H in Hd. injection Hd as <-. exact Hn.
Defined.

(** * The trigger wakes its waiter *)

Definition trigger_inv (r : Trigger) : bool :=
  Bool.eqb (triggered r) (match trigger_pc r with TSwap => false | _ => true end) &&
  match wait_pc r with
  | WCheck => registered r
  | WSleep => registered r && match trigger_pc r with TDone => notified r | _ => true end
  | _ => true
  end.

(** No request for shutdown is missed: when neither side can move, the waiter has seen it. *)
Lemma trigger_not_missed r :
  rtc trigger_race trigger_start r → wait_step r = None → trigger_step r = None → wait_pc r = WDone.
Proof.
  assert (∀ a b, trigger_race a b → trigger_inv a = true → trigger_inv b = true) as Hstep.
  { intros a b [x H|x H]; destruct a as [ [] [] [] [] [] ]; vm_compute in H; try discriminate; injection H as <-;
      vm_compute; congruence. }
  intros Hr. assert (trigger_inv r = true) as Hi.
  { assert (∀ a, rtc trigger_race a r → trigger_inv a = true → trigger_inv r = true) as Hg by (induction 1; eauto).
    by apply (Hg trigger_start). }
  destruct r as [ [] [] [] [] [] ]; vm_compute; try discriminate; intros; try discriminate; done.
Qed.

(** * Credentials *)

Lemma none_or_verify o candidate :
  is_none_or o (λ secret, Security.verify secret candidate) = true ↔ ∀ s, o = Some s → candidate = Security.secret_bytes s.
Proof.
  destruct o as [s|]; simpl; [rewrite Security.verify_spec|]; split; [by intros -> ? [= <-]|auto|done|done].
Qed.

Lemma load_optional_Ok h source o : load_optional h source = Ok o → (is_Some o ↔ is_Some source).
Proof.
  unfold load_optional. destruct source as [x|]; [|intros [= <-]; done]. intros (s & _ & [= <-])%bind_Ok. split; by eexists.
Qed.

(** C33: the two credentials are separate powers.  In a state that was constructed, a bearer
    token is demanded exactly where one is configured and is accepted iff it is the
    configured one; metrics take the administrative credential if there is one and the
    public one otherwise; and when both are configured, no token opens both doors. *)
Theorem credentials_separate {U : UrlCrate} h config cur st ins pool s :
  AppState_new h config cur st ins pool = Ok s →
  (public_auth_required s = true ↔ is_Some (Config.auth config)) ∧
  (admin_auth_required s = true ↔ is_Some (Config.admin_auth config)) ∧
  (metrics_auth_required s = true ↔ is_Some (Config.auth config) ∨ is_Some (Config.admin_auth config)) ∧
  (∀ k, verify_public_token s k = true ↔ ∀ p, public_credential s = Some p → k = Security.secret_bytes p) ∧
  (∀ k, verify_admin_token s k = true ↔ ∀ a, admin_credential s = Some a → k = Security.secret_bytes a) ∧
  (is_Some (Config.admin_auth config) → ∀ k, verify_metrics_token s k = verify_admin_token s k) ∧
  (Config.admin_auth config = None → ∀ k, verify_metrics_token s k = verify_public_token s k) ∧
  (is_Some (Config.auth config) → is_Some (Config.admin_auth config) →
     ∀ k, verify_public_token s k && verify_admin_token s k = false).
Proof.
  unfold AppState_new. intros H. apply bind_Ok in H as ([] & _ & H). apply bind_Ok in H as (p & Hp%load_optional_Ok & H).
  apply bind_Ok in H as (a & Ha%load_optional_Ok & H). apply bind_Ok in H as ([] & Hd & H). apply bind_Ok in H as (app & _ & [= <-]).
  unfold public_auth_required, admin_auth_required, metrics_auth_required, verify_public_token, verify_admin_token,
    verify_metrics_token, metrics_credential. cbn [public_credential admin_credential].
  setoid_rewrite none_or_verify. rewrite !bool_decide_eq_true. split_and!; try done.
  - destruct a as [a|].
    + split; [|by eexists]. intros _. right. by apply Ha; eexists.
    + rewrite Hp. split; [by left|]. intros [?|Hx]; [done|]. apply Ha in Hx as [? ?]. done.
  - intros [x ->]%Ha k. done.
  - intros Hn k. destruct a as [a|]; [|done]. destruct (proj1 Ha) as [y Hy]; [by eexists|]. congruence.
  - intros [x ->]%Hp [y ->]%Ha k. simpl. apply not_true_iff_false. intros [H1 H2]%andb_true_iff.
    apply Security.verify_spec in H1, H2. unfold Security.verify_distinct_credentials in Hd.
    destruct (Security.verify x (Security.secret_bytes y)) eqn:Hv; [done|].
    apply not_true_iff_false in Hv. apply Hv, Security.verify_spec. congruence.
Qed.

Definition renamed (id : string) : Manifest :=
  let m := Manifest.sample_manifest in
  Manifest.mk_Manifest (Manifest.schema_version m) id (Manifest.revision m) (Manifest.license m) (Manifest.semantic_verification m)
    (Manifest.tokenizer m) (Manifest.pooling m) (Manifest.prefixes m) (Manifest.dimensions m) (Manifest.tensors m)
    (Manifest.runtime m) (Manifest.artifacts m).
Definition sample_curated : result Manifest.Error (list Manifest) :=
  Ok (renamed <$> ["BAAI/bge-small-en-v1.5"; "intfloat/multilingual-e5-small"; "nomic-ai/nomic-embed-text-v1.5"])%string.
Definition sample_host : Security.Host :=
  Security.mk_Host (λ name, if String.eqb name "PUBLIC" then Some "reader"%string
                            else if String.eqb name "ADMIN" then Some "keeper"%string else None)
    (λ _, mk_FileTrace (Err None) None None None).
Definition sample_config : Config.ServerConfig :=
  Config.set_admin_auth (Some (Config.Environment "ADMIN")) (Config.set_auth (Some (Config.Environment "PUBLIC")) Config.ServerConfig_default).
Definition sample_state : result AppStateError AppState := AppState_new (U := SimpleUrl) sample_host sample_config sample_curated true true true.

Lemma credentials_separate_witness :
  match sample_state with
  | Ok s => verify_public_token s "reader" = true ∧ verify_public_token s "reader" && verify_admin_token s "reader" = false
  | Err _ => False
  end.
Proof.
  pose proof (credentials_separate (U := SimpleUrl) sample_host sample_config sample_curated true true true) as H.
  fold sample_state in H. destruct sample_state as [s|e] eqn:Hs; [|vm_compute in Hs; discriminate Hs].
  destruct (H s eq_refl) as (_ & _ & _ & Hp & _ & _ & _ & Hsep).
  assert (public_credential s = Some (Security.mk_Secret "reader")) as Hc.
  { vm_compute in Hs. injection Hs as <-. reflexivity. }
  split; [apply Hp; intros x Hx; rewrite Hc in Hx; injection Hx as <-; reflexivity|].
  apply Hsep; vm_compute; by eexists.
Defined.

(** * The request boundary *)

Section boundary.
Context {E : Scheduler.RuntimeEngine}.

(** What the application answers to a request.  A success means that the requested name
    resolves to a catalog entry that was neither gated nor shut down, that the runtime took
    the request for exactly that entry's canonical id, whose registered slot holds it, and
    that the vectors are what its scheduler sent.  A request that is let through carries a
    deadline in the future that the server's timeout bounds, and one that is not let
    through has an error and leaves the runtime alone. *)
Theorem embed_boundary c p down pending imax now cmd e micros r
    (Hd : (Scheduler.queue_depth p <= usize_max)%N) (Hr : Runtime.reachable p r) (Hf : Runtime.counters_fit r) :
  let res := embed c down pending imax now cmd e micros r in
  (∀ v, res.1 = Some (Ok v) → ∃ m i q x, resolve (catalog c) (model cmd) = Some m ∧ down = false ∧
     (Manifest.canonical_id m ∉ pending) ∧ res.2 = Some x ∧ Requests.submitted x = Some (i, q) ∧
     Runtime.models r !! Manifest.canonical_id m = Some i ∧
     Requests.handed_over p (Manifest.canonical_id m) (input cmd) q ∧ Requests.answer e = Some (Ok v)) ∧
  (∀ x, res.2 = Some x → ∃ m d, resolve (catalog c) (model cmd) = Some m ∧ (now < d <= now + request_timeout c)%N ∧
     (∀ own, timeout cmd = Some own → (d <= now + own)%N) ∧
     x = Requests.embed (Manifest.canonical_id m) (input cmd) (options cmd) (cancellation cmd) (Some d) e micros r) ∧
  (res.2 = None → ∃ err, res.1 = Some (Err err)).
Proof.
  intros res. subst res. unfold embed. destruct (resolve _ _) as [m|]; [|split_and!; naive_solver].
  destruct (down || _) eqn:Hg; [split_and!; naive_solver|]. apply orb_false_iff in Hg as [-> Hg%bool_decide_eq_false].
  destruct (N.eqb_spec (N.min (default (request_timeout c) (timeout cmd)) (request_timeout c)) 0) as [|Hz]; [split_and!; naive_solver|].
  destruct (checked_add _ _ _) as [d|] eqn:Hadd; [|split_and!; naive_solver]. apply checked_add_Some in Hadd as [-> _].
  cbn [fst snd]. split_and!.
  - intros v Hv. apply fmap_Some in Hv as (res & Ho & Hv). destruct res as [v'|]; simplify_eq/=.
    pose proof (Requests.embed_inner_releases (Manifest.canonical_id m) (input cmd) (options cmd) (cancellation cmd)
      (Some (now + N.min (default (request_timeout c) (timeout cmd)) (request_timeout c))%N) e _
      (Requests.ready_for_embed p r Hd Hr Hf)) as Hx.
    destruct (Runtime.reachable_invariant p r Hd Hr) as (Hpol & _).
    cbv zeta in Hx. unfold Requests.embed in *. cbn [Requests.outcome Requests.submitted] in *.
    destruct (Requests.submitted _) as [ [i q]|] eqn:Hs; [|by destruct Hx as [_ Hx]; apply Hx in Ho].
    destruct Hx as ((sl & Hm & _) & _ & _ & _ & Hh & Hans). simpl in Hh. rewrite Hpol in Hh.
    eexists m, i, q, _. split_and!; try done. by apply Hans.
  - intros x [= <-]. exists m, (now + N.min (default (request_timeout c) (timeout cmd)) (request_timeout c))%N. split_and!; [done|lia|lia| |reflexivity]. intros own ->. simpl. lia.
  - done.
Qed.

End boundary.

(** A request by alias that is served. *)
Definition served_settings : Settings := mk_Settings (built [renamed "m"] [("alias"%string, "m"%string)]) [] Config.BestEffort 30000 20000.
Definition served_command : EmbedCommand := mk_EmbedCommand "alias" ["a"%string] EmbedOptions_default 0 None.

Lemma embed_boundary_witness :
  ∃ m, resolve (catalog served_settings) "alias" = Some m ∧ Manifest.canonical_id m = "m"%string ∧
  (embed (E := Scheduler.sample_engine) served_settings false ∅ u64_max 0 served_command Requests.sample_env 10 Runtime.run_registered).1
    = Some (Ok Requests.sample_answer).
Proof.
  destruct (embed_boundary (E := Scheduler.sample_engine) served_settings Runtime.run_policy false ∅ u64_max 0 served_command
    Requests.sample_env 10 Runtime.run_registered sample_depth Runtime.run_registered_reachable ltac:(Runtime.fits)) as [H _].
  assert (Hok : (embed (E := Scheduler.sample_engine) served_settings false ∅ u64_max 0 served_command Requests.sample_env 10
    Runtime.run_registered).1 = Some (Ok Requests.sample_answer)) by (vm_compute; reflexivity).
  destruct (H _ Hok) as (m & i & q & x & Hm & _). exists m. split; [exact Hm|]. split; [|exact Hok].
  vm_compute in Hm. injection Hm as <-. reflexivity.
Defined.

End Service.
