(* ===== verification/Transport.v ===== *)
(** What the transports share ([crates/impossible-server/src/http.rs], [mcp.rs], [grpc.rs]):
    header maps, and handlers as programs over the calls a transport can make of the
    application.  A handler is a finite tree of calls, so a statement about every
    possible behaviour of the application is a statement about its branches. *)

From Stdlib Require Import NArith Lia Ascii.
From stdpp Require Import base strings list.
From S2P Require Import Prelude Core Cancellation Health Metrics Config Security Catalog Application Service.
Import Catalog.

Local Open Scope string_scope.
Local Open Scope list_scope.

Module Transport.

(** * Calls *)

(** [enum AdminAction] *)
Inductive AdminAction := AInstall | ALoad | AUnload | ADelete.

(** Everything a transport asks of the shared state.  [NewToken] is
    [CancellationToken::default()], [EmbedWithin] the [select!] of an embedding with a timer. *)
Inductive Call :=
| NewToken
| Cancel (t : token)
| Embed (c : Service.EmbedCommand)
| EmbedWithin (c : Service.EmbedCommand) (timeout : N)
| ListModels
| Administer (a : AdminAction) (model : string)
| Observe (o : Metrics.Operation) (out : Metrics.Outcome)
| IsLive
| GetReadiness
| ModelCounts
| RenderMetrics.

Definition Answer (c : Call) : Type :=
  match c with
  | NewToken => token
  | Embed _ => result ApplicationError EmbeddingOutput
  | EmbedWithin _ _ => option (result ApplicationError EmbeddingOutput)
  | ListModels => result ApplicationError (list ModelInfo)
  | Administer _ _ => result ApplicationError ModelInfo
  | IsLive => bool
  | GetReadiness => Health.Readiness
  | ModelCounts => (nat * nat)%type
  | RenderMetrics => string
  | Cancel _ | Observe _ _ => unit
  end.

(** [dropped]: the tokens that are cancelled when the future is dropped during the call. *)
Inductive io (A : Type) : Type :=
| Ret (a : A)
| Ask (c : Call) (dropped : list token) (k : Answer c → io A).
Arguments Ret {A} a.
Arguments Ask {A} c dropped k.

Fixpoint bind {A B} (p : io A) (k : A → io B) : io B :=
  match p with Ret a => k a | Ask c d q => Ask c d (λ x, bind (q x) k) end.

Definition ask (c : Call) : io (Answer c) := Ask c [] Ret.
(** The call while a guard that cancels [t] is in scope. *)
Definition guarded (t : token) (c : Call) : io (Answer c) := Ask c [t] Ret.

Notation "'do!' x ':=' p 'in' k" := (bind p (λ x, k))
  (at level 10, x name, p at level 100, k at level 200) : rust_scope.

(** One run: what the application answers, the calls made, the result. *)
Fixpoint run {A} (answer : ∀ c, Answer c) (p : io A) : list Call * A :=
  match p with
  | Ret a => ([], a)
  | Ask c _ k => let '(cs, a) := run answer (k (answer c)) in (c :: cs, a)
  end.

(** A run with answers that may differ from call to call. *)
Inductive exec {A} : io A → list Call → A → Prop :=
| exec_ret a : exec (Ret a) [] a
| exec_ask c d k x cs a : exec (k x) cs a → exec (Ask c d k) (c :: cs) a.

(** Every call satisfies [P] and every result [Q], whatever the answers are. *)
Fixpoint spec {A} (P : Call → Prop) (Q : A → Prop) (p : io A) : Prop :=
  match p with Ret a => Q a | Ask c _ k => P c ∧ ∀ x, spec P Q (k x) end.

#[global] Arguments bind {A B} !p k / : simpl nomatch.
#[global] Arguments spec {A} P Q !p / : simpl nomatch.

(** A dropped future cancels the token of the embedding it was waiting for. *)
Definition cancels (c : Call) (dropped : list token) : Prop :=
  match c with
  | Embed cmd | EmbedWithin cmd _ => Service.cancellation cmd ∈ dropped
  | _ => True
  end.
Fixpoint drop_safe {A} (p : io A) : Prop :=
  match p with Ret _ => True | Ask c d k => cancels c d ∧ ∀ x, drop_safe (k x) end.

(** ** Laws *)

Lemma spec_bind {A B} P (Q : B → Prop) (p : io A) (k : A → io B) :
  spec P Q (bind p k) ↔ spec P (λ a, spec P Q (k a)) p.
Proof. induction p as [a|c d q IH]; simpl; [done|]. split; intros [H1 H2]; split; try done; intros x; by apply IH. Qed.

Lemma spec_mono {A} (P P' : Call → Prop) (Q Q' : A → Prop) p :
  spec P Q p → (∀ c, P c → P' c) → (∀ a, Q a → Q' a) → spec P' Q' p.
Proof. intros H HP HQ. induction p as [a|c d q IH]; simpl in *; [by apply HQ|]. destruct H. split; [by apply HP|]. intros x; by apply IH. Qed.

Lemma spec_true {A} (p : io A) : spec (λ _, True) (λ _, True) p.
Proof. induction p as [a|c d q IH]; simpl; [done|]. by split. Qed.

Lemma spec_and {A} P P' (Q Q' : A → Prop) p :
  spec P Q p → spec P' Q' p → spec (λ c, P c ∧ P' c) (λ a, Q a ∧ Q' a) p.
Proof. induction p as [a|c d q IH]; simpl; [done|]. intros [] []. split; [done|]. intros x; by apply IH. Qed.

Lemma spec_run {A} answer P (Q : A → Prop) p :
  spec P Q p → Forall P (run answer p).1 ∧ Q (run answer p).2.
Proof.
  induction p as [a|c d q IH]; simpl; [by split|]. intros [Hc Hk]. specialize (IH _ (Hk (answer c))).
  destruct (run answer (q (answer c))) as [cs a]; simpl in *. destruct IH. split; [by constructor|done].
Qed.

Lemma run_bind {A B} answer (p : io A) (k : A → io B) :
  run answer (bind p k) =
  ((run answer p).1 ++ (run answer (k (run answer p).2)).1, (run answer (k (run answer p).2)).2).
Proof.
  induction p as [a|c d q IH]; simpl; [by destruct (run answer (k a))|].
  rewrite IH. destruct (run answer (q (answer c))) as [cs a]; simpl. done.
Qed.

Lemma run_exec {A} answer (p : io A) : exec p (run answer p).1 (run answer p).2.
Proof.
  induction p as [a|c d q IH]; simpl; [constructor|]. specialize (IH (answer c)).
  destruct (run answer (q (answer c))) as [cs a]; simpl in *. by apply (exec_ask _ _ _ (answer c)).
Qed.

Lemma spec_exec {A} P (Q : A → Prop) p cs a : spec P Q p → exec p cs a → Forall P cs ∧ Q a.
Proof.
  intros H Hx. induction Hx as [a|c d k x cs a Hx IH]; simpl in *; [by split|].
  destruct H as [Hc Hk]. destruct (IH (Hk x)). split; [by constructor|done].
Qed.

Lemma exec_Ret {A} (a b : A) cs : exec (Ret a) cs b ↔ cs = [] ∧ b = a.
Proof. split; [by inversion 1|]. intros [-> ->]. constructor. Qed.

Lemma exec_Ask {A} c d (k : Answer c → io A) cs a :
  exec (Ask c d k) cs a ↔ ∃ x cs', cs = c :: cs' ∧ exec (k x) cs' a.
Proof.
  split.
  - intros H. refine (match H in exec p cs a return
      match p return (list Call → A → Prop) with
      | Ret _ => λ _ _, True
      | Ask c d k => λ cs a, ∃ x cs', cs = c :: cs' ∧ exec (k x) cs' a
      end cs a with exec_ret a => I | exec_ask c d k x cs a Hx => _ end). by exists x, cs.
  - intros (x & cs' & -> & Hx). by apply (exec_ask _ _ _ x).
Qed.

Lemma exec_Bind {A B} (p : io A) (k : A → io B) cs b :
  exec (bind p k) cs b ↔ ∃ cs1 a cs2, cs = cs1 ++ cs2 ∧ exec p cs1 a ∧ exec (k a) cs2 b.
Proof.
  revert cs. induction p as [a|c d q IH]; intros cs; cbn [bind].
  - split.
    + intros Hk. exists [], a, cs. split_and!; [done|constructor|done].
    + intros (cs1 & a' & cs2 & -> & [-> ->]%exec_Ret & Hk). done.
  - rewrite exec_Ask. split.
    + intros (x & cs' & -> & (cs1 & a & cs2 & -> & H1 & H2)%IH).
      exists (c :: cs1), a, cs2. split_and!; [done| |done]. by apply (exec_ask _ _ _ x).
    + intros (cs1 & a & cs2 & -> & (x & cs' & -> & H1)%exec_Ask & H2).
      exists x, (cs' ++ cs2). split; [done|]. apply IH. eauto 6.
Qed.

Lemma drop_safe_bind {A B} (p : io A) (k : A → io B) : drop_safe p → (∀ a, drop_safe (k a)) → drop_safe (bind p k).
Proof. induction p as [a|c d q IH]; simpl; [auto|]. intros [] Hk. split; [done|]. intros x; by apply IH. Qed.

(** * Headers *)

(** What is used of the [http] crate: [HeaderValue::to_str] gives the text of a value of
    visible characters, [HeaderValue::from_str] the value of such a text; [to_bytes] of
    [axum] collects a body that is not longer than the limit. *)
Class HttpCrate := {
  Body : Type;
  to_str : string → option string;
  from_str : string → option string;
  to_bytes : Body → N → option string;
  to_str_text v s : to_str v = Some s → s = v;
  from_str_text s v : from_str s = Some v → v = s;
  to_bytes_limit b limit s : to_bytes b limit = Some s → (str_len s <= limit)%N;
}.

(** Names are lower case, as [HeaderName] keeps them. *)
Abbreviation HeaderMap := (list (string * string)) (only parsing).

(** [headers.get_all(name)] *)
Definition get_all (h : HeaderMap) (name : string) : list string := snd <$> filter (λ x, x.1 = name) h.
(** [headers.contains_key(name)] *)
Definition contains_key (h : HeaderMap) (name : string) : bool := negb (bool_decide (get_all h name = [])).
(** [headers.insert(name, value)] *)
Definition insert_header (name value : string) (h : HeaderMap) : HeaderMap :=
  filter (λ x, x.1 ≠ name) h ++ [(name, value)].

(** [single_header] *)
Definition single_header (h : HeaderMap) (name : string) : option string :=
  match get_all h name with [v] => Some v | _ => None end.

(** [a.eq_ignore_ascii_case(b)] *)
Definition eq_ignore_ascii_case (a b : string) : bool := String.eqb (to_ascii_lowercase a) (to_ascii_lowercase b).

(** * Messages *)

Record Request `{H : HttpCrate} := mk_Request { method : string; path : string; headers : HeaderMap; body : Body }.
Record Response := mk_Response { status : N; response_headers : HeaderMap; response_body : string }.

(** [(status, [(CONTENT_TYPE, media)], body).into_response()] *)
Definition with_content (status : N) (media body : string) : Response := mk_Response status [("content-type", media)] body.
(** [status.into_response()] *)
Definition empty_response (status : N) : Response := mk_Response status [] "".

Lemma contains_key_get_all h name : contains_key h name = false ↔ get_all h name = [].
Proof. unfold contains_key. rewrite negb_false_iff, bool_decide_eq_true. done. Qed.

Lemma single_header_get_all h name v : single_header h name = Some v ↔ get_all h name = [v].
Proof. unfold single_header. destruct (get_all h name) as [|a [|b l]]; naive_solver. Qed.

Lemma get_all_insert h name v n :
  get_all (insert_header name v h) n = if decide (n = name) then [v] else get_all h n.
Proof.
  unfold get_all, insert_header. rewrite filter_app, fmap_app, list_filter_filter.
  destruct (decide (n = name)) as [->|Hn].
  - rewrite filter_cons_True by done. cbn [fmap list_fmap filter list_filter].
    replace (filter _ h) with (@nil (string * string)); [done|]. symmetry.
    induction h as [|x h IH]; [done|]. rewrite filter_cons_False by tauto. done.
  - rewrite filter_cons_False by (simpl; congruence). simpl. rewrite app_nil_r. f_equal.
    apply list_filter_iff. intros x. naive_solver.
Qed.

(** An application that refuses everything. *)
Definition refusing (c : Call) : Answer c :=
  match c with
  | NewToken => 0%nat
  | Embed _ | ListModels | Administer _ _ => Err infrastructure_error
  | EmbedWithin _ _ => Some (Err infrastructure_error)
  | IsLive => true
  | GetReadiness => Health.mk_Readiness Health.Starting None
  | ModelCounts => (0, 0)%nat
  | RenderMetrics => ""
  | Cancel _ | Observe _ _ => tt
  end.

End Transport.
