(* ===== verification/Mcp.v ===== *)
(** The MCP adapter ([crates/impossible-server/src/mcp.rs]): the JSON-RPC dispatcher with its
    connection phases, the two tools, the stateless HTTP endpoint, and the newline-delimited
    stdio loop. *)

From Stdlib Require Import NArith ZArith Lia Ascii.
From stdpp Require Import base strings list sets.
From S2P Require Import Prelude Core Cancellation Config Security Float Catalog Application Service Transport.
Import Catalog Transport.

Local Open Scope string_scope.
Local Open Scope list_scope.
Local Open Scope rust_scope.

Module Mcp.

Definition PROTOCOL_VERSION : string := "2025-03-26".
Definition JSON_CONTENT_TYPE : string := "application/json".
Definition SESSION_HEADER : string := "mcp-session-id".
Definition MAX_BATCH_ITEMS : N := 128.

(** * JSON values *)

(** [serde_json::Number] and [serde_json::Value]; a float is its binary64 pattern, an object
    the list of its entries. *)
Inductive Number := PosInt (n : N) | NegInt (z : Z) | NFloat (bits : N).
Inductive Value :=
| Null
| VBool (b : bool)
| VNumber (n : Number)
| VString (s : string)
| VArray (l : list Value)
| VObject (m : list (string * Value)).

(** [json!(n)] of an unsigned and of a signed integer, and of an [f32]: a number that is not
    finite becomes null. *)
Definition of_uint (n : N) : Value := VNumber (PosInt n).
Definition of_int (z : Z) : Value := VNumber (if (z <? 0)%Z then NegInt z else PosInt (Z.to_N z)).
Definition of_f32 (x : f32) : Value := if f32_is_finite x then VNumber (NFloat (Float.widen x)) else Null.

Fixpoint lookup_key (key : string) (m : list (string * Value)) : option Value :=
  match m with
  | [] => None
  | (k, v) :: m => if String.eqb k key then Some v else lookup_key key m
  end.

(** [value[key]]: null for a missing key and for anything but an object. *)
Definition index (v : Value) (key : string) : Value :=
  match v with VObject m => default Null (lookup_key key m) | _ => Null end.

(** [value == n] *)
Definition equals_int (v : Value) (z : Z) : bool :=
  match v with
  | VNumber (PosInt n) => (Z.of_N n <? 2 ^ 63)%Z && (Z.of_N n =? z)%Z
  | VNumber (NegInt n) => (n =? z)%Z
  | _ => false
  end.

(** * Wire data *)

Inductive Phase := AwaitInitialize | AwaitInitialized | Ready | Stateless.
#[global] Instance Phase_eq_dec : EqDecision Phase.
Proof. solve_decision. Defined.

(** [enum DispatchResult] *)
Inductive DispatchResult := DResponse (v : Value) | DNotification.

Record Incoming := mk_Incoming { id : option Value; method : string; params : option Value }.

(** [struct IncomingEnvelope]; [PresentValue] tells a missing member from null. *)
Record IncomingEnvelope := mk_IncomingEnvelope {
  e_jsonrpc : string; e_id : option Value; e_method : string; e_params : option Value }.
Inductive WireItem := WIncoming (e : IncomingEnvelope) | WInvalid (v : Value).
Inductive WireFrame := Batch (l : list WireItem) | Single (i : WireItem).

(** [valid_id] *)
Definition valid_id (v : Value) : bool :=
  match v with
  | VString _ => true
  | VNumber (PosInt _) | VNumber (NegInt _) => true
  | _ => false
  end.

(** [WireItem::into_incoming] *)
Definition into_incoming (i : WireItem) : option Incoming :=
  match i with
  | WInvalid _ => None
  | WIncoming e =>
    if negb (String.eqb (e_jsonrpc e) "2.0") || str_is_empty (e_method e)
       || match e_id e with Some v => negb (valid_id v) | None => false end then None else
    Some (mk_Incoming (e_id e) (e_method e) (e_params e))
  end.

Record ClientInfo := mk_ClientInfo { ci_name : string; ci_version : string; ci_title : option string }.
Record InitializeParams := mk_InitializeParams {
  protocol_version : string; capabilities : list (string * Value); client_info : ClientInfo; ip_meta : option (list (string * Value)) }.
Record EmptyParams := mk_EmptyParams { ep_meta : option (list (string * Value)) }.
Record ListToolsParams := mk_ListToolsParams { cursor : option string; lt_meta : option (list (string * Value)) }.
Record CallToolParams := mk_CallToolParams { ct_name : string; ct_arguments : option Value; ct_meta : option (list (string * Value)) }.
Inductive EmptyArguments := mk_EmptyArguments.
Inductive EmbedInput := One (s : string) | Many (l : list string).
Inductive ToolTask := TQuery | TDocument.
Inductive ToolTruncation := TReject | TTruncate.
Record EmbedArguments := mk_EmbedArguments {
  ea_model : string; ea_input : EmbedInput; ea_task : ToolTask; ea_truncation : ToolTruncation;
  ea_dimensions : option N; ea_normalize : option bool }.

Definition of_tool_task (t : ToolTask) : EmbeddingTask := match t with TQuery => Query | TDocument => Document end.
Definition of_tool_truncation (t : ToolTruncation) : Truncation := match t with TReject => Reject | TTruncate => Truncate end.

(** [serde_json] on these types: the derived decoders and the text of a value. *)
Class McpJson := {
  frame_from_slice : string → option WireFrame;
  initialize_from_value : Value → option InitializeParams;
  empty_from_value : Value → option EmptyParams;
  list_tools_from_value : Value → option ListToolsParams;
  call_tool_from_value : Value → option CallToolParams;
  embed_from_value : Value → option EmbedArguments;
  empty_arguments_from_value : Value → option EmptyArguments;
  value_to_string : Value → option string;
}.

(** * JSON-RPC *)

(** [struct RpcFailure] *)
Record RpcFailure := mk_RpcFailure { code : Z; message : string }.
Definition invalid_params : RpcFailure := mk_RpcFailure (-32602) "Invalid params".

(** [rpc_success], [rpc_error] *)
Definition rpc_success (id result : Value) : Value :=
  VObject [("jsonrpc", VString "2.0"); ("id", id); ("result", result)].
Definition rpc_error (id : Value) (code : Z) (message : string) : Value :=
  VObject [("jsonrpc", VString "2.0"); ("id", id);
           ("error", VObject [("code", of_int code); ("message", VString message)])].

Definition invalid_request (id : Value) : DispatchResult := DResponse (rpc_error id (-32600) "Invalid Request").

(** * Results of the tools *)

Definition strings (l : list string) : Value := VArray (VString <$> l).

(** [embedding_value] *)
Definition embedding_value (o : EmbeddingOutput) : Value :=
  let total := of_uint (total_tokens (usage o)) in
  VObject [
    ("embeddings", VArray ((λ v, VArray (of_f32 <$> v)) <$> vectors o));
    ("model", VObject [
      ("canonical_id", VString (canonical_id (out_model o)));
      ("revision", VString (revision (out_model o)));
      ("runtime", VString (runtime (out_model o)));
      ("artifact_fingerprint", VString (artifact_fingerprint (out_model o)));
      ("semantic_fingerprint", VString (semantic_fingerprint (out_model o)))]);
    ("usage", VObject [
      ("prompt_tokens", total); ("total_tokens", total);
      ("input_tokens", VArray (of_uint <$> input_tokens (usage o)))])].

(** [model_value] *)
Definition model_value (m : ModelInfo) : Value :=
  VObject [
    ("model", VString (mi_canonical_id m));
    ("revision", VString (mi_revision m));
    ("aliases", strings (mi_aliases m));
    ("native_dimensions", of_uint (mi_native_dimensions m));
    ("dimensions", VArray (of_uint <$> mi_dimensions m));
    ("semantic_status", VString (match mi_semantic_status m with SVerified => "verified" | SUnverified => "unverified" end));
    ("installation_status", VString (match mi_installation_status m with
       | Missing => "missing" | Invalid => "invalid"
       | IntegrityVerified => "integrity_verified" | Loadable => "loadable" end));
    ("runtime_status", VString (match mi_runtime_status m with RCatalogOnly => "catalog_only" | ROnnx => "onnx" end));
    ("load_status", VString (match mi_load_status m with Unloaded => "unloaded" | Loaded => "loaded" end))].

(** The value of [list_tools]. *)
Definition annotations : Value :=
  VObject [("readOnlyHint", VBool true); ("destructiveHint", VBool false);
           ("idempotentHint", VBool true); ("openWorldHint", VBool false)].
Definition typed (t : string) (rest : list (string * Value)) : Value := VObject (("type", VString t) :: rest).
Definition tools : Value :=
  VObject [("tools", VArray [
    VObject [
      ("name", VString "embed");
      ("description", VString "Create dense embeddings with a locally loaded open model.");
      ("inputSchema", typed "object" [
        ("additionalProperties", VBool false);
        ("required", strings ["model"; "input"]);
        ("properties", VObject [
          ("model", typed "string" [("minLength", of_uint 1)]);
          ("input", VObject [("oneOf", VArray [
             typed "string" [];
             typed "array" [("minItems", of_uint 1); ("items", typed "string" [])]])]);
          ("task", typed "string" [("enum", strings ["query"; "document"]); ("default", VString "document")]);
          ("truncation", typed "string" [("enum", strings ["reject"; "truncate"]); ("default", VString "reject")]);
          ("dimensions", typed "integer" [("minimum", of_uint 1)]);
          ("normalize", typed "boolean" [])])]);
      ("annotations", annotations)];
    VObject [
      ("name", VString "list_models");
      ("description", VString "List local model availability without revealing paths or host details.");
      ("inputSchema", typed "object" [("additionalProperties", VBool false)]);
      ("annotations", annotations)]])].

Section mcp.
Context {J : McpJson} (version : string) (limits : Config.Limits).

(** [tool_result]; the replacement text of a value that cannot be serialized. *)
Definition INTERNAL_TEXT : string :=
  let q := dquote in
  "{" +:+ q +:+ "error" +:+ q +:+ ":{" +:+ q +:+ "code" +:+ q +:+ ":" +:+ q +:+ "internal" +:+ q +:+ ","
  +:+ q +:+ "message" +:+ q +:+ ":" +:+ q +:+ "Internal server error" +:+ q +:+ "," +:+ q +:+ "retryable" +:+ q +:+ ":false}}".
Definition tool_result (v : Value) (is_error : bool) : Value :=
  VObject [("content", VArray [VObject [("type", VString "text"); ("text", VString (default INTERNAL_TEXT (value_to_string v)))]]);
           ("isError", VBool is_error)].
Definition tool_success (v : Value) : Value := tool_result v false.
Definition tool_error (e : ApplicationError) : Value :=
  let public := ae_public e in
  tool_result (VObject [("error", VObject [
    ("code", VString (ErrorCode_as_str (pe_code public)));
    ("message", VString (pe_message public));
    ("retryable", VBool (bool_decide (pe_retryability public = Retryable)))])]) true.

(** [parse_params], [parse_arguments], [parse_empty] *)
Definition parse_params {T} (decode : Value → option T) (params : option Value) : result RpcFailure T :=
  let? v := ok_or params invalid_params in ok_or (decode v) invalid_params.
Definition parse_arguments {T} (decode : Value → option T) (arguments : option Value) : result RpcFailure T :=
  ok_or (decode (default (VObject []) arguments)) invalid_params.
Definition parse_empty (params : option Value) : result RpcFailure unit :=
  match params with
  | None => Ok tt
  | Some v => let? _ := ok_or (empty_from_value v) invalid_params in Ok tt
  end.

(** [list_tools] *)
Definition list_tools (params : option Value) : result RpcFailure Value :=
  let? _ := match params with
            | None => Ok tt
            | Some v => let? p := ok_or (list_tools_from_value v) invalid_params in
                        if bool_decide (is_Some (cursor p)) then Err invalid_params else Ok tt
            end in
  Ok tools.

(** [McpDispatcher::ready] *)
Definition ready (p : Phase) : bool := match p with Ready | Stateless => true | _ => false end.

Definition initialize_value : Value :=
  VObject [
    ("protocolVersion", VString PROTOCOL_VERSION);
    ("capabilities", VObject [("tools", VObject [("listChanged", VBool false)])]);
    ("serverInfo", VObject [("name", VString "impossible-embedding"); ("version", VString version)]);
    ("instructions", VString "Local embedding inference and model discovery. No model administration is exposed.")].

(** [McpDispatcher::initialize]: the answer and the phase afterwards. *)
Definition initialize (params : option Value) (p : Phase) : result RpcFailure Value * Phase :=
  if negb (match p with AwaitInitialize | Stateless => true | _ => false end)
  then (Err (mk_RpcFailure (-32600) "Invalid Request"), p) else
  match parse_params initialize_from_value params with
  | Err e => (Err e, p)
  | Ok i =>
    if is_blank (protocol_version i) || is_blank (ci_name (client_info i)) || is_blank (ci_version (client_info i))
    then (Err invalid_params, p)
    else (Ok initialize_value, if bool_decide (p = AwaitInitialize) then AwaitInitialized else p)
  end.

(** [McpDispatcher::initialized] *)
Definition initialized (params : option Value) (p : Phase) : Phase :=
  if is_ok (parse_empty params) && bool_decide (p = AwaitInitialized) then Ready else p.

(** [McpDispatcher::embed] *)
Definition embed (arguments : option Value) : io (result RpcFailure Value) :=
  match parse_arguments embed_from_value arguments with
  | Err e => Ret (Err e)
  | Ok a =>
    if str_is_empty (ea_model a) then Ret (Err invalid_params) else
    match (match ea_input a with
           | One s => Ok [s]
           | Many [] => Err invalid_params
           | Many l => Ok l
           end) with
    | Err e => Ret (Err e)
    | Ok input =>
      match (match ea_dimensions a with
             | Some n => (let? d := ok_or (try_from usize_max n) invalid_params in Ok (Some d))
             | None => Ok None
             end) with
      | Err e => Ret (Err e)
      | Ok dimensions =>
        if bool_decide (dimensions = Some 0%N) then Ret (Err invalid_params) else
        do! cancellation := ask NewToken in
        do! r := ask (Embed (Service.mk_EmbedCommand (ea_model a) input
                   (mk_EmbedOptions (of_tool_task (ea_task a)) (of_tool_truncation (ea_truncation a)) dimensions (ea_normalize a))
                   cancellation None)) in
        Ret (Ok (match r with Ok o => tool_success (embedding_value o) | Err e => tool_error e end))
      end
    end
  end.

(** [McpDispatcher::list_models] *)
Definition list_models (arguments : option Value) : io (result RpcFailure Value) :=
  match parse_arguments empty_arguments_from_value arguments with
  | Err e => Ret (Err e)
  | Ok _ =>
    do! r := ask ListModels in
    Ret (Ok (match r with
             | Ok models => tool_success (VObject [("models", VArray (model_value <$> models))])
             | Err e => tool_error e
             end))
  end.

(** [McpDispatcher::call_tool] *)
Definition call_tool (params : option Value) : io (result RpcFailure Value) :=
  match parse_params call_tool_from_value params with
  | Err e => Ret (Err e)
  | Ok r =>
    if String.eqb (ct_name r) "embed" then embed (ct_arguments r) else
    if String.eqb (ct_name r) "list_models" then list_models (ct_arguments r) else
    Ret (Err invalid_params)
  end.

Definition not_initialized : RpcFailure := mk_RpcFailure (-32002) "Server not initialized".

(** [McpDispatcher::dispatch_incoming] *)
Definition dispatch_incoming (i : Incoming) (p : Phase) : io (DispatchResult * Phase) :=
  let id_value := default Null (id i) in
  let answer (r : result RpcFailure Value) (p : Phase) : DispatchResult * Phase :=
    (DResponse (match r with
                | Ok v => rpc_success id_value v
                | Err e => rpc_error id_value (code e) (message e)
                end), p) in
  match id i with
  | Some _ =>
    if String.eqb (method i) "initialize" then
      let '(r, p) := initialize (params i) p in Ret (answer r p)
    else if String.eqb (method i) "ping" then
      Ret (answer (let? _ := parse_empty (params i) in Ok (VObject [])) p)
    else if String.eqb (method i) "tools/list" then
      Ret (answer (if ready p then list_tools (params i) else Err not_initialized) p)
    else if String.eqb (method i) "tools/call" then
      if ready p then do! r := call_tool (params i) in Ret (answer r p)
      else Ret (answer (Err not_initialized) p)
    else Ret (answer (Err (mk_RpcFailure (-32601) "Method not found")) p)
  | None =>
    if String.eqb (method i) "notifications/initialized" then Ret (DNotification, initialized (params i) p)
    else Ret (DNotification, p)
  end.

(** One item of a batch. *)
Definition dispatch_item (item : WireItem) (p : Phase) : io (DispatchResult * Phase) :=
  match into_incoming item with
  | Some i =>
    if String.eqb (method i) "initialize" then
      Ret (match id i with None => DNotification | Some v => invalid_request v end, p)
    else dispatch_incoming i p
  | None => Ret (invalid_request Null, p)
  end.

Fixpoint dispatch_items (items : list WireItem) (p : Phase) : io (list Value * Phase) :=
  match items with
  | [] => Ret ([], p)
  | item :: items =>
    do! r := dispatch_item item p in
    do! rest := dispatch_items items r.2 in
    Ret (match r.1 with DResponse v => v :: rest.1 | DNotification => rest.1 end, rest.2)
  end.

(** [McpDispatcher::dispatch] *)
Definition dispatch_frame (f : WireFrame) (p : Phase) : io (DispatchResult * Phase) :=
  match f with
  | Single item =>
    match into_incoming item with
    | Some i => dispatch_incoming i p
    | None => Ret (invalid_request Null, p)
    end
  | Batch [] => Ret (invalid_request Null, p)
  | Batch items =>
    if (MAX_BATCH_ITEMS <? len items)%N then Ret (invalid_request Null, p) else
    do! r := dispatch_items items p in
    Ret (match r.1 with [] => DNotification | responses => DResponse (VArray responses) end, r.2)
  end.
Definition dispatch (frame : string) (p : Phase) : io (DispatchResult * Phase) :=
  match frame_from_slice frame with
  | None => Ret (DResponse (rpc_error Null (-32700) "Parse error"), p)
  | Some f => dispatch_frame f p
  end.

(** * The HTTP endpoint *)

Section http.
Context {H : HttpCrate}.

(** [has_json_content_type] *)
Definition has_json_content_type (h : HeaderMap) : bool :=
  match get_all h "content-type" with
  | [value] =>
    match to_str value with
    | Some value => match str_split ";" value with
                    | media :: _ => eq_ignore_ascii_case (trim media) JSON_CONTENT_TYPE
                    | [] => false
                    end
    | None => false
    end
  | _ => false
  end.

(** The loop of [acceptable_media_range] over the parameters. *)
Fixpoint quality_of (parameters : list string) (quality : f32) (saw_quality : bool) : option f32 :=
  match parameters with
  | [] => Some quality
  | parameter :: parameters =>
    match split_once "=" parameter with
    | None => None
    | Some (name, value) =>
      if eq_ignore_ascii_case (trim name) "q" then
        if saw_quality then None else
        match Float.f32_from_str (trim value) with
        | None => None
        | Some q =>
          if negb (f32_is_finite q) || negb (Float.f32_le Float.f32_zero q && Float.f32_le q Float.f32_one) then None
          else quality_of parameters q true
        end
      else quality_of parameters quality saw_quality
    end
  end.

(** [acceptable_media_range] *)
Definition acceptable_media_range (value : string) : option (string * bool) :=
  match str_split ";" value with
  | [] => None
  | first :: parameters =>
    let media := trim first in
    if str_is_empty media then None else
    match quality_of parameters Float.f32_one false with
    | None => None
    | Some quality => Some (media, Float.f32_lt Float.f32_zero quality)
    end
  end.

(** [accepts_streamable_http]: whether both kinds were seen; [None] is the early [false]. *)
Fixpoint accept_parts (parts : list string) (seen : bool * bool) : option (bool * bool) :=
  match parts with
  | [] => Some seen
  | part :: parts =>
    match acceptable_media_range part with
    | None => None
    | Some (media, acceptable) =>
      accept_parts parts
        (if negb acceptable then seen
         else if eq_ignore_ascii_case media "application/json" then (true, seen.2)
         else if eq_ignore_ascii_case media "text/event-stream" then (seen.1, true) else seen)
    end
  end.
Fixpoint accept_values (values : list string) (seen : bool * bool) : option (bool * bool) :=
  match values with
  | [] => Some seen
  | value :: values =>
    match to_str value with
    | None => None
    | Some value => match accept_parts (str_split "," value) seen with
                    | None => None
                    | Some seen => accept_values values seen
                    end
    end
  end.
Definition accepts_streamable_http (h : HeaderMap) : bool :=
  match accept_values (get_all h "accept") (false, false) with Some (json, events) => json && events | None => false end.

(** [valid_content_length] *)
Definition valid_content_length (h : HeaderMap) (limit : N) : bool :=
  match get_all h "content-length" with
  | [] => true
  | [value] =>
    match to_str value with
    | Some value => match parse_unsigned u64_max value with Some length => (length <=? limit)%N | None => false end
    | None => false
    end
  | _ => false
  end.

(** [http_rpc_response] *)
Definition http_rpc_response (status : N) (v : Value) : Response :=
  match value_to_string v with
  | Some body => with_content status JSON_CONTENT_TYPE body
  | None => empty_response 500
  end.

(** [http_handler] *)
Definition http_handler (r : Request) : io Response :=
  if contains_key (headers r) SESSION_HEADER
  then Ret (http_rpc_response 400 (rpc_error Null (-32600) "Sessions are not supported")) else
  if negb (accepts_streamable_http (headers r)) then Ret (empty_response 406) else
  if negb (has_json_content_type (headers r)) then Ret (empty_response 415) else
  if negb (valid_content_length (headers r) (Config.max_body_bytes limits)) then Ret (empty_response 413) else
  match to_bytes (body r) (Config.max_body_bytes limits) with
  | None => Ret (empty_response 413)
  | Some body =>
    do! d := dispatch body Stateless in
    Ret (match d.1 with
         | DNotification => empty_response 202
         | DResponse v =>
           let code := index (index v "error") "code" in
           http_rpc_response (if equals_int code (-32700) || equals_int code (-32600) then 400 else 200) v
         end)
  end.

End http.

(** * Stdio *)

(** What [fill_buf] returns from now on: [None] is an error, an empty buffer and the end of
    the list are the end of the input. *)
Definition Reader := list (option string).

Inductive LineResult := LFrame | LOversized | LEof.

(** One buffer taken into the line. *)
Definition absorb (oversized : bool) (line payload : string) : bool * string :=
  if oversized then (true, line) else
  if (Config.max_body_bytes limits <? saturating_add usize_max (str_len line) (str_len payload))%N then (true, "")
  else (false, line +:+ payload).

Definition finish_line (st : bool * string) (r : Reader) : result unit (LineResult * string) * Reader :=
  (Ok (if st.1 then (LOversized, st.2) else (LFrame, Security.pop_last (byte 13) st.2)), r).

(** The loop of [read_capped_line]; [consume] leaves the rest of a buffer to the next call. *)
Fixpoint read_from (st : bool * string) (saw_bytes : bool) (r : Reader) : result unit (LineResult * string) * Reader :=
  match r with
  | [] => if saw_bytes then finish_line st [] else (Ok (LEof, st.2), [])
  | None :: r => (Err tt, r)
  | Some EmptyString :: r => if saw_bytes then finish_line st r else (Ok (LEof, st.2), r)
  | Some buffer :: r =>
    match split_once (byte 10) buffer with
    | Some (payload, rest) =>
      finish_line (absorb st.1 st.2 payload) (if str_is_empty rest then r else Some rest :: r)
    | None => read_from (absorb st.1 st.2 buffer) true r
    end
  end.
Definition read_capped_line (r : Reader) : result unit (LineResult * string) * Reader := read_from (false, "") false r.

(** The other side of the streams: whether shutdown comes before the read of the [n]-th
    round, and whether the write of that round and the last flush fail. *)
Record Streams := mk_Streams { stops : nat → bool; write_fails : nat → bool; flush_fails : bool }.

(** [write_frame] *)
Definition write_frame (s : Streams) (n : nat) (v : Value) : option string :=
  match value_to_string v with
  | Some text => if write_fails s n then None else Some (text +:+ newline)
  | None => None
  end.

(** [run_stdio]: the bytes written and how it ended, [None] only without fuel. *)
Fixpoint run_stdio (fuel n : nat) (s : Streams) (r : Reader) (p : Phase) : io (option (string * result unit unit)) :=
  match fuel with
  | O => Ret None
  | S fuel =>
    let done_ := Ret (Some ("", if flush_fails s then Err tt else Ok tt)) in
    let reply v k :=
      match write_frame s n v with
      | None => Ret (Some ("", Err tt))
      | Some text => do! rest := k in Ret ((λ x, (text +:+ x.1, x.2)) <$> rest)
      end in
    if stops s n then done_ else
    match read_capped_line r with
    | (Err _, _) => Ret (Some ("", Err tt))
    | (Ok (LEof, _), _) => done_
    | (Ok (LOversized, _), r) => reply (rpc_error Null (-32600) "Invalid Request") (run_stdio fuel (S n) s r p)
    | (Ok (LFrame, line), r) =>
      do! d := dispatch line p in
      match d.1 with
      | DResponse v => reply v (run_stdio fuel (S n) s r d.2)
      | DNotification => run_stdio fuel (S n) s r d.2
      end
    end
  end.

(** * Calls and phases *)

(** What MCP may ask of the application: the listing, and an embedding of a named model with
    at least one input, a fresh token and no deadline of its own. *)
Record command_ok (c : Service.EmbedCommand) : Prop := {
  co_model : Service.model c ≠ "";
  co_input : Service.input c ≠ [];
  co_dimensions : ∀ d, dimensions (Service.options c) = Some d → (1 <= d <= usize_max)%N;
  co_timeout : Service.timeout c = None;
}.
Definition tool_call (c : Call) : Prop :=
  match c with NewToken | ListModels => True | Embed cmd => command_ok cmd | _ => False end.

Lemma call_tool_calls params : spec tool_call (λ _, True) (call_tool params).
Proof.
  unfold call_tool. destruct (parse_params _ _) as [r|]; [|done]. destruct (String.eqb _ _).
  - unfold embed. destruct (parse_arguments _ _) as [a|]; [|done]. destruct (str_is_empty (ea_model a)) eqn:Hm; [done|].
    destruct (match ea_input a with One s => _ | Many _ => _ end) as [input|] eqn:Hin; [|done].
    destruct (match ea_dimensions a with Some _ => _ | None => _ end) as [d|] eqn:Hd; [|done].
    case_bool_decide as Hz; [done|]. simpl. split; [done|]. intros t. split; [|done]. split; simpl.
    + intros He. by rewrite He in Hm.
    + intros ->. destruct (ea_input a) as [s|[|]]; simplify_eq.
    + intros n ->. destruct (ea_dimensions a) as [m|]; [|done]. inv_result. simplify_eq.
      match goal with H : try_from _ _ = Some _ |- _ => unfold try_from in H; destruct (N.leb_spec m usize_max); simplify_eq end.
      split; [|done]. destruct n; [done|lia].
    + done.
  - destruct (String.eqb _ _); [|done]. unfold list_models. by destruct (parse_arguments _ _).
Qed.

(** An item that is the [initialized] notification. *)
Definition is_initialized (i : WireItem) : Prop :=
  ∃ inc, into_incoming i = Some inc ∧ id inc = None ∧ method inc = "notifications/initialized" ∧
         is_ok (parse_empty (params inc)) = true.

(** What dispatching can do: call tools only when ready, and move the phase only on the two
    messages of the handshake. *)
Lemma incoming_step i p :
  spec (λ c, ready p = true ∧ tool_call c)
       (λ x, x.2 = p ∨
             (p = AwaitInitialize ∧ x.2 = AwaitInitialized ∧ method i = "initialize" ∧
              ∃ v, id i = Some v ∧ x.1 = DResponse (rpc_success v initialize_value)) ∨
             (p = AwaitInitialized ∧ x.2 = Ready ∧ id i = None ∧ method i = "notifications/initialized" ∧
              is_ok (parse_empty (params i)) = true))
       (dispatch_incoming i p).
Proof.
  unfold dispatch_incoming. destruct (id i) as [v|] eqn:Hi.
  - destruct (String.eqb_spec (method i) "initialize") as [Hm|_].
    + unfold initialize. destruct p; cbn [negb]; try (by left);
        (destruct (parse_params _ _) as [ip|]; [|by left]);
        (destruct (_ || _ || _); [by left|]); simpl; [|by left]. right; left. eauto 6.
    + destruct (String.eqb _ _); [by left|]. destruct (String.eqb _ _); [by left|].
      destruct (String.eqb _ _); [|by left]. destruct (ready p) eqn:Hr; [|by left].
      apply spec_bind. eapply spec_mono; [apply call_tool_calls|by intros c|by left].
  - destruct (String.eqb_spec (method i) "notifications/initialized") as [Hm|_]; [|by left]. simpl.
    unfold initialized. destruct (is_ok _) eqn:Hok; [|by left]. case_bool_decide; simpl; [|by left]. right; right. eauto 6.
Qed.

Lemma item_step i p :
  spec (λ c, ready p = true ∧ tool_call c)
       (λ x, x.2 = p ∨ (p = AwaitInitialized ∧ x.2 = Ready ∧ is_initialized i)) (dispatch_item i p).
Proof.
  unfold dispatch_item. destruct (into_incoming i) as [inc|] eqn:Hi; [|by left].
  destruct (String.eqb_spec (method inc) "initialize") as [Hm|Hm]; [by left|].
  eapply spec_mono; [apply incoming_step|done|].
  intros x [?|[(_ & _ & ? & _)|(? & ? & ? & ? & ?)]]; [by left|done|]. right. split_and!; [done..|]. by exists inc.
Qed.

Lemma items_step items p :
  spec (λ c, tool_call c ∧ (ready p = true ∨ (p = AwaitInitialized ∧ Exists is_initialized items)))
       (λ x, x.2 = p ∨ (p = AwaitInitialized ∧ x.2 = Ready ∧ Exists is_initialized items)) (dispatch_items items p).
Proof.
  revert p. induction items as [|i items IH]; intros p; cbn [dispatch_items]; [by left|].
  apply spec_bind. eapply spec_mono; [apply item_step|naive_solver|].
  intros [r p'] Hp'. simpl in *. apply spec_bind. eapply spec_mono; [apply IH| |]; simpl.
  - intros c [Hc Hr]. split; [done|]. destruct Hp' as [->|(-> & -> & Hi)]; [|by eauto].
    destruct Hr as [?|[-> ?]]; eauto.
  - intros [vs p''] Hp''. simpl in *. destruct Hp' as [->|(-> & -> & Hi)].
    + destruct Hp'' as [?|(? & ? & ?)]; [by left|]. right. eauto.
    + destruct Hp'' as [->|(? & _)]; [|done]. right. eauto.
Qed.

(** The items of a frame. *)
Definition frame_items (f : WireFrame) : list WireItem := match f with Single i => [i] | Batch l => l end.

(** The [initialize] request, alone in its frame. *)
Definition is_initialize (f : WireFrame) (v : Value) : Prop :=
  ∃ i inc, f = Single i ∧ into_incoming i = Some inc ∧ method inc = "initialize" ∧ id inc = Some v.

Lemma frame_step f p :
  spec (λ c, tool_call c ∧ (ready p = true ∨ (p = AwaitInitialized ∧ Exists is_initialized (frame_items f))))
       (λ x, x.2 = p ∨
             (p = AwaitInitialize ∧ x.2 = AwaitInitialized ∧
              ∃ v, is_initialize f v ∧ x.1 = DResponse (rpc_success v initialize_value)) ∨
             (p = AwaitInitialized ∧ x.2 = Ready ∧ Exists is_initialized (frame_items f)))
       (dispatch_frame f p).
Proof.
  destruct f as [[|i items]|i]; cbn [dispatch_frame frame_items]; [by left| |].
  - destruct (_ <? _)%N; [by left|]. apply spec_bind. eapply spec_mono; [apply items_step|done|].
    intros [vs p'] [->|?]; [by left|]. by right; right.
  - destruct (into_incoming i) as [inc|] eqn:Hi; [|by left].
    eapply spec_mono; [apply incoming_step|naive_solver|].
    intros x [?|[(? & ? & ? & v & ? & ?)|(? & ? & ? & ? & ?)]]; [by left| |].
    + right; left. split_and!; [done..|]. exists v. split; [|done]. by exists i, inc.
    + right; right. split_and!; [done..|]. apply Exists_cons_hd. by exists inc.
Qed.

(** * Sessions *)

(** One connection: the frames it received ([None] is an oversized line), and for each the
    calls it caused and the answer. *)
Inductive session : list (option string) → Phase → list (list Call * DispatchResult) → Phase → Prop :=
| session_end p : session [] p [] p
| session_frame f frames p cs d p' outs p'' :
    exec (dispatch f p) cs (d, p') → session frames p' outs p'' → session (Some f :: frames) p ((cs, d) :: outs) p''
| session_oversized frames p outs p' :
    session frames p outs p' → session (None :: frames) p (([], invalid_request Null) :: outs) p'.

(** The handshake as seen in the frames and the answers so far. *)
Definition greeted (frames : list (option string)) (outs : list (list Call * DispatchResult)) (i : nat) : Prop :=
  ∃ f w v cs, frames !! i = Some (Some f) ∧ frame_from_slice f = Some w ∧ is_initialize w v ∧
    outs !! i = Some (cs, DResponse (rpc_success v initialize_value)).
Definition confirmed (frames : list (option string)) (j : nat) : Prop :=
  ∃ f w, frames !! j = Some (Some f) ∧ frame_from_slice f = Some w ∧ Exists is_initialized (frame_items w).

Lemma dispatch_step f p :
  spec (λ c, tool_call c ∧ (ready p = true ∨
          (p = AwaitInitialized ∧ ∃ w, frame_from_slice f = Some w ∧ Exists is_initialized (frame_items w))))
       (λ x, x.2 = p ∨
             (p = AwaitInitialize ∧ x.2 = AwaitInitialized ∧
              ∃ w v, frame_from_slice f = Some w ∧ is_initialize w v ∧ x.1 = DResponse (rpc_success v initialize_value)) ∨
             (p = AwaitInitialized ∧ x.2 = Ready ∧ ∃ w, frame_from_slice f = Some w ∧ Exists is_initialized (frame_items w)))
       (dispatch f p).
Proof.
  unfold dispatch. destruct (frame_from_slice f) as [w|]; [|by left].
  eapply spec_mono; [apply frame_step| |]; simpl; naive_solver.
Qed.

(** What had to happen before a call at frame [k], by the phase the session began in. *)
Definition prior (p : Phase) (frames : list (option string)) (outs : list (list Call * DispatchResult)) (k : nat) : Prop :=
  match p with
  | Ready | Stateless => True
  | AwaitInitialized => ∃ j, (j <= k)%nat ∧ confirmed frames j
  | AwaitInitialize => ∃ i j, (i < j <= k)%nat ∧ greeted frames outs i ∧ confirmed frames j
  end.

Lemma prior_shift p f frames o outs k :
  prior p frames outs k → prior p (f :: frames) (o :: outs) (S k).
Proof.
  destruct p; simpl; try done.
  - intros (i & j & ? & Hi & Hj). exists (S i), (S j). split_and!; [lia|lia|done|done].
  - intros (j & ? & Hj). exists (S j). split; [lia|done].
Qed.

Lemma session_prior frames p outs p' :
  session frames p outs p' →
  ∀ k cs d, outs !! k = Some (cs, d) → cs ≠ [] → Forall tool_call cs ∧ prior p frames outs k.
Proof.
  induction 1 as [p|f frames p cs d p' outs p'' Hx Hs IH|frames p outs p' Hs IH]; intros k ks kd Hk Hne; [done| |].
  - destruct (spec_exec _ _ _ _ _ (dispatch_step f p) Hx) as [Hcs Hp']. simpl in Hp'. destruct k as [|k]; simpl in Hk.
    + injection Hk as -> ->. split; [eapply Forall_impl; [done|]; by intros c []|].
      destruct ks as [|c ks]; [done|]. inversion Hcs as [|? ? [_ Hr] _]; subst.
      destruct p; simpl in *; try done; destruct Hr as [?|[? (w & ? & ?)]]; try done.
      exists 0%nat. split; [lia|]. by exists f, w.
    + destruct (IH k ks kd Hk Hne) as [Ht Hpr]. split; [done|].
      destruct Hp' as [->|[(-> & -> & w & v & ? & ? & ->)|(-> & -> & w & ? & ?)]]; [by apply prior_shift| |].
      * simpl in Hpr. destruct Hpr as (j & ? & ?). exists 0%nat, (S j). split_and!; [lia|lia| |done].
        by exists f, w, v, cs.
      * exists 0%nat. split; [lia|]. by exists f, w.
  - destruct k as [|k]; simpl in Hk; [by injection Hk as <- <-|].
    destruct (IH k ks kd Hk Hne). split; [done|]. by apply prior_shift.
Qed.

(** C15: On a stdio connection nothing is asked of the application before the handshake is
    complete: if frame [k] of a session causes any call, then an earlier frame was an
    [initialize] request by itself, answered with success, and after it, at the latest in
    frame [k], came the [initialized] notification.  Moreover every call MCP makes is the
    model listing or an embedding with a model name, at least one input and sensible
    dimensions; model administration is out of its reach. *)
Theorem mcp_handshake_first frames outs p k cs d :
  session frames AwaitInitialize outs p → outs !! k = Some (cs, d) → cs ≠ [] →
  (∃ i j, (i < j <= k)%nat ∧ greeted frames outs i ∧ confirmed frames j) ∧ Forall tool_call cs.
Proof. intros Hs Hk Hne. by destruct (session_prior _ _ _ _ Hs k cs d Hk Hne). Qed.

(** * One answer to each request *)

(** The id an item has to be answered with; a notification is not answered. *)
Definition answer_id (i : WireItem) : option Value :=
  match into_incoming i with None => Some Null | Some inc => id inc end.

(** The failures a client can see: a closed list of codes and texts. *)
Definition RPC_FAILURES : list (Z * string) :=
  [(-32600, "Invalid Request"); (-32601, "Method not found"); (-32602, "Invalid params"); (-32002, "Server not initialized")]%Z.
Definition answers (v resp : Value) : Prop :=
  (∃ x, resp = rpc_success v x) ∨ (∃ c m, resp = rpc_error v c m ∧ (c, m) ∈ RPC_FAILURES).

Definition known (r : result RpcFailure Value) : Prop :=
  match r with Ok _ => True | Err e => (code e, message e) ∈ RPC_FAILURES end.

Lemma known_invalid : known (Err invalid_params).
Proof. set_solver. Qed.

Lemma known_answers v r :
  known r → answers v (match r with Ok x => rpc_success v x | Err e => rpc_error v (code e) (message e) end).
Proof. destruct r as [x|e]; intros H; [left|right]; eauto. Qed.

Lemma call_tool_known params : spec (λ _, True) known (call_tool params).
Proof.
  pose proof known_invalid as Hinv. unfold call_tool, parse_params.
  destruct params as [v|]; [|done]. simpl. destruct (call_tool_from_value v) as [r|]; [|done]. simpl.
  destruct (String.eqb _ _).
  - unfold embed, parse_arguments. destruct (embed_from_value _) as [a|]; [|done]. simpl.
    destruct (str_is_empty _); [done|]. destruct (ea_input a) as [s|[|s l]]; [|done|];
      (destruct (ea_dimensions a) as [n|]; simpl; [destruct (try_from usize_max n); simpl; [|done]|]);
      by repeat case_bool_decide.
  - destruct (String.eqb _ _); [|done]. unfold list_models, parse_arguments.
    by destruct (empty_arguments_from_value _).
Qed.

Lemma initialize_known params p : known (initialize params p).1.
Proof.
  pose proof known_invalid as Hinv. unfold initialize, parse_params. destruct (negb _); [simpl; set_solver|].
  destruct params as [w|]; simpl; [|done]. destruct (initialize_from_value w); simpl; [|done].
  by destruct (_ || _ || _).
Qed.

Lemma list_tools_known params : known (list_tools params).
Proof.
  pose proof known_invalid as Hinv. unfold list_tools. destruct params as [w|]; simpl; [|done].
  destruct (list_tools_from_value w); simpl; [|done]. by case_bool_decide.
Qed.

Lemma ping_known params : known (let? _ := parse_empty params in Ok (VObject [])).
Proof. pose proof known_invalid as Hinv. unfold parse_empty. destruct params as [w|]; simpl; [|done]. by destruct (empty_from_value w). Qed.

Lemma incoming_answered i p :
  spec (λ _, True) (λ x, match id i with
                         | Some v => ∃ resp, x.1 = DResponse resp ∧ answers v resp
                         | None => x.1 = DNotification
                         end) (dispatch_incoming i p).
Proof.
  unfold dispatch_incoming. destruct (id i) as [v|]; cbn [spec]; [|by destruct (String.eqb _ _)].
  assert (∀ (r : result RpcFailure Value) (p' : Phase), known r → ∃ resp,
    (DResponse (match r with Ok x => rpc_success v x | Err e => rpc_error v (code e) (message e) end), p').1 = DResponse resp
    ∧ answers v resp) as Hk by (intros r p' Hr; eexists; split; [done|]; by apply known_answers).
  assert (known (Err not_initialized)) by (simpl; set_solver).
  destruct (String.eqb _ _).
  { pose proof (initialize_known (params i) p) as Hr. destruct (initialize (params i) p) as [r p']. by apply Hk. }
  destruct (String.eqb _ _); [apply Hk, ping_known|].
  destruct (String.eqb _ _); [apply Hk; destruct (ready p); [apply list_tools_known|done]|].
  destruct (String.eqb _ _); [|apply (Hk (Err (mk_RpcFailure (-32601) "Method not found"))); simpl; set_solver].
  destruct (ready p); [|by apply (Hk (Err not_initialized))].
  apply spec_bind. eapply spec_mono; [apply call_tool_known|done|]. intros r Hr. by apply Hk.
Qed.

Lemma item_answered i p :
  spec (λ _, True) (λ x, match answer_id i with
                         | Some v => ∃ resp, x.1 = DResponse resp ∧ answers v resp
                         | None => x.1 = DNotification
                         end) (dispatch_item i p).
Proof.
  unfold dispatch_item, answer_id. destruct (into_incoming i) as [inc|]; simpl.
  - destruct (String.eqb _ _); [|apply incoming_answered]. simpl. destruct (id inc) as [v|]; [|done].
    eexists; split; [done|]. right. eexists _, _. split; [done|]. set_solver.
  - eexists; split; [done|]. right. eexists _, _. split; [done|]. set_solver.
Qed.

Lemma items_answered items p :
  spec (λ _, True) (λ x, Forall2 answers (omap answer_id items) x.1) (dispatch_items items p).
Proof.
  revert p. induction items as [|i items IH]; intros p; cbn [dispatch_items]; [constructor|].
  apply spec_bind. eapply spec_mono; [apply item_answered|done|]. intros [r p'] Hr. simpl in *.
  apply spec_bind. eapply spec_mono; [apply IH|done|]. intros [vs p''] Hvs. simpl in *.
  destruct (answer_id i) as [v|]; [|by subst r]. destruct Hr as (resp & -> & ?). by constructor.
Qed.

(** C28: Whatever the application answers, one frame gets the response JSON-RPC asks for: text
    that is not a frame gets a parse error; a single request exactly one response with its
    own id, which is a result or one of four fixed failures; a notification none; an item
    that is not a request an error with a null id; a batch, when it has 1 to 128 items, an
    array with exactly the responses of its requests and invalid items in their order, or
    nothing when there are none; and any other batch one error without reaching the
    application. *)
Theorem mcp_answers_each_request frame p :
  spec (λ _, match frame_from_slice frame with
             | Some (Batch items) => (1 <= len items <= MAX_BATCH_ITEMS)%N
             | Some (Single _) => True
             | None => False
             end)
       (λ x, match frame_from_slice frame with
             | None => x.1 = DResponse (rpc_error Null (-32700) "Parse error")
             | Some (Single i) =>
               match answer_id i with
               | Some v => ∃ resp, x.1 = DResponse resp ∧ answers v resp
               | None => x.1 = DNotification
               end
             | Some (Batch items) =>
               if decide (1 <= len items <= MAX_BATCH_ITEMS)%N then
                 match omap answer_id items with
                 | [] => x.1 = DNotification
                 | vs => ∃ rs, x.1 = DResponse (VArray rs) ∧ Forall2 answers vs rs
                 end
               else x.1 = DResponse (rpc_error Null (-32600) "Invalid Request")
             end) (dispatch frame p).
Proof.
  unfold dispatch. destruct (frame_from_slice frame) as [[items|i]|]; cbn [dispatch_frame]; [| |done].
  - destruct items as [|i items]; [done|]. cbn [dispatch_frame].
    assert (1 <= len (i :: items))%N as Hlen by (rewrite len_cons; lia).
    destruct (N.ltb_spec MAX_BATCH_ITEMS (len (i :: items))) as [Hl|Hl].
    { cbn [spec fst]. destruct (decide _); [lia|done]. }
    apply spec_bind. eapply spec_mono; [apply items_answered|lia|].
    intros [vs p'] H. cbn [spec fst]. destruct (decide _) as [_|]; [|lia]. cbn [fst] in H. destruct (omap answer_id (i :: items)) as [|v ids];
      [by apply Forall2_nil_inv_l in H as ->|].
    destruct (Forall2_cons_inv_l _ _ _ _ H) as (r & rs & ? & ? & ->). by eexists.
  - unfold answer_id. destruct (into_incoming i) as [inc|]; [eapply spec_mono; [apply incoming_answered|done|done]|]. simpl.
    eexists; split; [done|]. right. eexists _, _. split; [done|]. set_solver.
Qed.

(** * Lines *)

(** The input as the bytes it is, however it is cut into buffers. *)
Fixpoint stream (r : Reader) : string :=
  match r with [] => "" | Some b :: r => b +:+ stream r | None :: r => stream r end.
Definition clean (r : Reader) : Prop := Forall (λ b, ∃ s, b = Some s ∧ s ≠ "") r.

(** The lines of a text; a last one need not be terminated. *)
Definition input_lines (s : string) : list string :=
  let l := str_split (byte 10) s in if bool_decide (last l = Some "") then removelast l else l.

(** What a line is read as. *)
Definition frame_of (line : string) : option string :=
  if (Config.max_body_bytes limits <? str_len line)%N then None else Some (Security.pop_last (byte 13) line).

Lemma str_split_ne c s : str_split c s ≠ [].
Proof. rewrite str_split_once. by destruct (split_once c s) as [[]|]. Qed.

Lemma input_lines_step s :
  input_lines s = match split_once (byte 10) s with
                  | Some (a, b) => a :: input_lines b
                  | None => if str_is_empty s then [] else [s]
                  end.
Proof.
  unfold input_lines. rewrite (str_split_once _ s). destruct (split_once (byte 10) s) as [[a b]|].
  - pose proof (str_split_ne (byte 10) b). destruct (str_split (byte 10) b) as [|x l]; [done|].
    cbn [last removelast]. by case_bool_decide.
  - destruct s; [done|]. by rewrite bool_decide_false.
Qed.

(** The state of a line of which [acc] has been read. *)
Definition holds (st : bool * string) (acc : string) : Prop :=
  st = if (Config.max_body_bytes limits <? str_len acc)%N then (true, "") else (false, acc).
Definition line_result (line : string) : LineResult * string :=
  match frame_of line with Some f => (LFrame, f) | None => (LOversized, "") end.

Section lines.
Hypothesis limit_fits : (Config.max_body_bytes limits < usize_max)%N.

Lemma absorb_holds st acc payload : holds st acc → holds (absorb st.1 st.2 payload) (acc +:+ payload).
Proof.
  unfold holds. intros ->. rewrite str_len_app. unfold absorb, saturating_add.
  destruct (N.ltb_spec (Config.max_body_bytes limits) (str_len acc)); cbn [fst snd].
  - by rewrite (proj2 (N.ltb_lt _ _)) by lia.
  - destruct (N.ltb_spec (Config.max_body_bytes limits) (str_len acc + str_len payload)).
    + by rewrite (proj2 (N.ltb_lt _ _)) by lia.
    + by rewrite (proj2 (N.ltb_ge _ _)) by lia.
Qed.

Lemma finish_holds st acc r : holds st acc → finish_line st r = (Ok (line_result acc), r).
Proof.
  unfold holds, finish_line, line_result, frame_of. intros ->. by destruct (_ <? _)%N.
Qed.

Lemma read_from_stream r : ∀ st acc saw,
  clean r → holds st acc →
  match split_once (byte 10) (stream r) with
  | Some (a, b) => ∃ r', read_from st saw r = (Ok (line_result (acc +:+ a)), r') ∧ clean r' ∧ stream r' = b
  | None => if saw || negb (str_is_empty (stream r)) then read_from st saw r = (Ok (line_result (acc +:+ stream r)), [])
            else read_from st saw r = (Ok (LEof, st.2), [])
  end.
Proof.
  induction r as [|b r IH]; intros st acc saw Hc Hst; cbn [stream].
  - cbn [split_once str_is_empty negb read_from]. rewrite orb_false_r, str_app_nil_r. destruct saw; [by apply finish_holds|done].
  - inversion Hc as [|? ? (s & -> & Hs) Hc']; subst. destruct (split_once (byte 10) s) as [[a rest]|] eqn:Hsp.
    + rewrite (split_once_app_Some _ _ _ _ _ Hsp). destruct s as [|x s]; [done|]. cbn [read_from]. rewrite Hsp.
      exists (if str_is_empty rest then r else Some rest :: r). rewrite (finish_holds _ (acc +:+ a)) by by apply absorb_holds.
      split; [done|]. destruct rest; simpl; [done|]. split; [|done]. constructor; [by eexists|done].
    + rewrite (split_once_app_None _ _ _ Hsp). destruct s as [|x s]; [done|]. cbn [read_from]. rewrite Hsp.
      specialize (IH (absorb st.1 st.2 (String x s)) (acc +:+ String x s) true Hc' (absorb_holds _ _ _ Hst)).
      destruct (split_once (byte 10) (stream r)) as [[a b]|]; cbn [fmap option_fmap option_map fst snd].
      * rewrite str_app_assoc in IH. exact IH.
      * rewrite orb_true_r. rewrite str_app_assoc in IH. exact IH.
Qed.

End lines.

(** How much there is left to read. *)
Fixpoint measure (r : Reader) : nat :=
  match r with
  | [] => 0
  | Some s :: r => S (String.length s + measure r)
  | None :: r => S (measure r)
  end.

Lemma split_once_shorter c s a b : split_once c s = Some (a, b) → (String.length b < String.length s)%nat.
Proof.
  revert a. induction s as [|d s IH]; intros a; simpl; [done|]. destruct (Ascii.eqb d c); [intros [= _ ->]; lia|].
  destruct (split_once c s) as [[a' b']|]; [|done]. intros [= _ ->]. specialize (IH a' eq_refl). lia.
Qed.

(** Every line that is read takes something from the input. *)
Lemma read_from_measure r : ∀ st saw res r',
  read_from st saw r = (Ok res, r') → (measure r' <= measure r)%nat ∧
  (saw = false → res.1 ≠ LEof → (measure r' < measure r)%nat).
Proof.
  induction r as [|[[|x s]|] r IH]; intros st saw res r'; cbn [read_from measure String.length].
  - destruct saw; unfold finish_line; intros [= <- <-]; naive_solver.
  - destruct saw; unfold finish_line; intros [= <- <-]; simpl; (split; [lia|]); [done|naive_solver].
  - destruct (split_once (byte 10) (String x s)) as [[a b]|] eqn:Hsp.
    + apply split_once_shorter in Hsp. unfold finish_line. intros [= <- <-]. cbn [String.length] in *. destruct (str_is_empty b); cbn [measure]; lia.
    + intros H. apply IH in H as [H _]. lia.
  - done.
Qed.

(** The bytes that answer a session. *)
Definition line_text (v : Value) : string := default "" (value_to_string v) +:+ newline.
Fixpoint text_of (outs : list (list Call * DispatchResult)) : string :=
  match outs with
  | [] => ""
  | (_, DResponse v) :: outs => line_text v +:+ text_of outs
  | (_, DNotification) :: outs => text_of outs
  end.

(** Enough fuel for the whole input: the loop always ends. *)
Lemma stdio_returns s fuel : ∀ n r p,
  (measure r < fuel)%nat → spec (λ _, True) (λ o, o ≠ None) (run_stdio fuel n s r p).
Proof.
  induction fuel as [|fuel IH]; intros n r p Hf; [lia|]. cbn [run_stdio]. destruct (stops s n); [done|].
  destruct (read_capped_line r) as [[[res line]|] r'] eqn:Hr; [|done].
  apply read_from_measure in Hr as [_ Hr]. cbn [fst] in Hr.
  assert (∀ v p', res ≠ LEof → spec (λ _, True) (λ o, o ≠ None)
    match write_frame s n v with
    | None => Ret (Some ("", Err tt))
    | Some text => do! rest := run_stdio fuel (S n) s r' p' in Ret ((λ x, (text +:+ x.1, x.2)) <$> rest)
    end) as Hreply.
  { intros v p' Hres. destruct (write_frame s n v) as [text|]; [|done]. apply spec_bind.
    eapply spec_mono; [apply IH; specialize (Hr eq_refl Hres); lia|done|]. by intros [|]. }
  destruct res; [|by apply Hreply|done]. apply spec_bind.
  eapply spec_mono; [exact (spec_true _)|done|]. intros [[v|] p'] _; cbn [fst snd]; [by apply Hreply|].
  apply IH. specialize (Hr eq_refl ltac:(done)). lia.
Qed.

(** Streams that neither stop nor fail. *)
Definition quiet (s : Streams) : Prop :=
  (∀ n, stops s n = false ∧ write_fails s n = false) ∧ flush_fails s = false.

Section served.
Hypothesis limit_fits : (Config.max_body_bytes limits < usize_max)%N.
Hypothesis printable : ∀ v, is_Some (value_to_string v).

Lemma write_quiet s n v : quiet s → write_frame s n v = Some (line_text v).
Proof.
  intros [Hq _]. unfold write_frame, line_text. destruct (printable v) as [text ->]. by destruct (Hq n) as [_ ->].
Qed.

Lemma read_clean r :
  clean r →
  match input_lines (stream r) with
  | [] => read_capped_line r = (Ok (LEof, ""), [])
  | line :: lines => ∃ r', read_capped_line r = (Ok (line_result line), r') ∧ clean r' ∧ input_lines (stream r') = lines
  end.
Proof.
  intros Hc. pose proof (read_from_stream limit_fits r (false, "") "" false Hc) as H. rewrite input_lines_step.
  assert (holds (false, "") "") as Hh by (unfold holds; destruct (N.ltb_spec (Config.max_body_bytes limits) (str_len "")) as [Hl|]; [change (str_len "") with 0%N in Hl; lia|done]).
  specialize (H Hh). unfold read_capped_line. destruct (split_once (byte 10) (stream r)) as [[a b]|].
  - destruct H as (r' & -> & ? & <-). by exists r'.
  - destruct (str_is_empty (stream r)); simpl in H; [done|]. exists []. split_and!; [done|constructor|done].
Qed.

Lemma stdio_session s fuel : ∀ n r p cs out,
  quiet s → clean r → (measure r < fuel)%nat → exec (run_stdio fuel n s r p) cs out →
  ∃ outs p', session (frame_of <$> input_lines (stream r)) p outs p' ∧ cs = concat outs.*1 ∧
    out = Some (text_of outs, Ok tt).
Proof.
  induction fuel as [|fuel IH]; intros n r p cs out Hq Hc Hf; [lia|]. cbn [run_stdio].
  pose proof Hq as [Hs Hfl]. rewrite (proj1 (Hs n)), Hfl. pose proof (read_clean r Hc) as Hr.
  destruct (input_lines (stream r)) as [|line lines].
  { rewrite Hr. intros [-> ->]%exec_Ret. exists [], p. split_and!; [constructor|done|done]. }
  destruct Hr as (r' & Hr & Hc' & <-). rewrite Hr.
  apply read_from_measure in Hr as [_ Hm]. unfold line_result in *. cbn [fmap list_fmap].
  destruct (frame_of line) as [f|] eqn:Hframe; cbn [fst] in Hm; specialize (Hm eq_refl ltac:(done)).
  - intros (cs1 & [d p'] & cs2 & -> & Hd & Hx)%exec_Bind. cbn [fst snd] in Hx. destruct d as [v|].
    + rewrite write_quiet in Hx by done.
      apply exec_Bind in Hx as (cs3 & rest & cs4 & -> & Hx & [-> ->]%exec_Ret).
      destruct (IH _ _ _ _ _ Hq Hc' ltac:(lia) Hx) as (outs & p'' & Hses & -> & ->).
      exists ((cs1, DResponse v) :: outs), p''. split_and!; [by eapply session_frame| |done].
      by rewrite app_nil_r.
    + destruct (IH _ _ _ _ _ Hq Hc' ltac:(lia) Hx) as (outs & p'' & Hses & -> & ->).
      exists ((cs1, DNotification) :: outs), p''. split_and!; [by eapply session_frame|done|done].
  - rewrite write_quiet by done. intros (cs3 & rest & cs4 & -> & Hx & [-> ->]%exec_Ret)%exec_Bind.
    destruct (IH _ _ _ _ _ Hq Hc' ltac:(lia) Hx) as (outs & p'' & Hses & -> & ->).
    exists (([], invalid_request Null) :: outs), p''. split_and!; [by apply session_oversized| |done].
    by rewrite app_nil_r.
Qed.

End served.

(** C17: The stdio loop serves exactly the lines of its input, however the input is cut into
    buffers.  For any streams it ends within one round per byte and buffer.  When they
    neither fail nor stop it, it has served the session whose frames are the lines in order
    — a line longer than the limit is replaced by an error and never kept, a carriage return
    before the line feed is dropped, an unterminated last line counts — has made exactly
    the calls of that session, and has written exactly one line per response. *)
Theorem stdio_serves_lines s fuel n r p :
  (measure r < fuel)%nat →
  spec (λ _, True) (λ o, o ≠ None) (run_stdio fuel n s r p) ∧
  ((Config.max_body_bytes limits < usize_max)%N → (∀ v, is_Some (value_to_string v)) → quiet s → clean r →
   ∀ cs out, exec (run_stdio fuel n s r p) cs out →
   ∃ outs p', session (frame_of <$> input_lines (stream r)) p outs p' ∧ cs = concat outs.*1 ∧
     out = Some (text_of outs, Ok tt)).
Proof.
  intros Hf. split; [by apply stdio_returns|]. intros Hl Hp Hq Hc cs out Hx. by eapply stdio_session.
Qed.

End mcp.

(** * Witnesses *)

(** A client that knows three messages. *)
Definition sample_message (method : string) (id : option Value) : option WireFrame :=
  Some (Single (WIncoming (mk_IncomingEnvelope "2.0" id method (Some (VObject []))))).
Definition SampleJson : McpJson := {|
  frame_from_slice s :=
    if String.eqb s "i" then sample_message "initialize" (Some (of_uint 1)) else
    if String.eqb s "n" then sample_message "notifications/initialized" None else
    if String.eqb s "c" then sample_message "tools/call" (Some (of_uint 2)) else None;
  initialize_from_value _ := Some (mk_InitializeParams PROTOCOL_VERSION [] (mk_ClientInfo "client" "1" None) None);
  empty_from_value _ := Some (mk_EmptyParams None);
  list_tools_from_value _ := Some (mk_ListToolsParams None None);
  call_tool_from_value _ := Some (mk_CallToolParams "list_models" None None);
  embed_from_value _ := None;
  empty_arguments_from_value _ := Some mk_EmptyArguments;
  value_to_string v := Some "ok";
|}.

Definition sample_run (frame : string) (p : Phase) : list Call * (DispatchResult * Phase) :=
  run refusing (dispatch (J := SampleJson) "1" frame p).
Definition sample_frames : list (option string) := [Some "i"; None; Some "n"; Some "c"].
Definition sample_outs : list (list Call * DispatchResult) :=
  [((sample_run "i" AwaitInitialize).1, (sample_run "i" AwaitInitialize).2.1);
   ([], invalid_request Null);
   ((sample_run "n" AwaitInitialized).1, (sample_run "n" AwaitInitialized).2.1);
   ((sample_run "c" Ready).1, (sample_run "c" Ready).2.1)].

Lemma sample_session : session (J := SampleJson) "1" sample_frames AwaitInitialize sample_outs Ready.
Proof.
  unfold sample_frames, sample_outs. econstructor; [apply (run_exec refusing (dispatch (J := SampleJson) "1" "i" AwaitInitialize))|].
  constructor. econstructor; [apply (run_exec refusing (dispatch (J := SampleJson) "1" "n" AwaitInitialized))|].
  econstructor; [apply (run_exec refusing (dispatch (J := SampleJson) "1" "c" Ready))|]. constructor.
Qed.

Lemma mcp_handshake_first_witness :
  ∃ d, sample_outs !! 3%nat = Some ([ListModels], d) ∧
  (∃ i j, (i < j <= 3)%nat ∧ greeted (J := SampleJson) "1" sample_frames sample_outs i ∧ confirmed (J := SampleJson) sample_frames j) ∧
  Forall tool_call [ListModels].
Proof.
  eexists. split; [reflexivity|].
  refine (mcp_handshake_first (J := SampleJson) "1" sample_frames sample_outs Ready 3 [ListModels] _ sample_session _ _); [reflexivity|done].
Defined.

Definition sample_input : Reader := [Some ("i" +:+ newline +:+ "xxx"); Some "xxx"; Some (newline +:+ "n" +:+ newline +:+ "c"); Some (String (byte 13) newline)].
Definition sample_limits : Config.Limits := Config.limits (Config.set_max_body_bytes 4 Config.ServerConfig_default).
Definition calm : Streams := mk_Streams (λ _, false) (λ _, false) false.

Lemma stdio_serves_lines_witness :
  frame_of sample_limits <$> input_lines (stream sample_input) = sample_frames ∧
  ∃ outs p', session (J := SampleJson) "1" sample_frames AwaitInitialize outs p' ∧
    (run refusing (run_stdio (J := SampleJson) "1" sample_limits 40 0 calm sample_input AwaitInitialize)).1 = concat outs.*1 ∧
    (run refusing (run_stdio (J := SampleJson) "1" sample_limits 40 0 calm sample_input AwaitInitialize)).2 =
      Some (text_of (J := SampleJson) outs, Ok tt).
Proof.
  split; [vm_compute; reflexivity|].
  change sample_frames with (frame_of sample_limits <$> input_lines (stream sample_input)).
  eapply (proj2 (stdio_serves_lines (J := SampleJson) "1" sample_limits calm 40 0 sample_input AwaitInitialize ltac:(vm_compute; lia)));
    [vm_compute; reflexivity|intros v; by eexists|split; [done|done]| |apply run_exec].
  repeat constructor; by eexists.
Defined.

End Mcp.
