(* ===== verification/Http.v ===== *)
(** The HTTP v1 adapter ([crates/impossible-server/src/http.rs]): the route table with its
    authentication layers, the origin layer around it, the decoding of requests within the
    configured limits, the handlers, and the responses. *)

From Stdlib Require Import NArith Lia Ascii.
From stdpp Require Import base strings list sets.
From S2P Require Import Prelude Core Cancellation Health Metrics Config Security Catalog Application Service Transport Mcp Runtime.
Import Catalog Transport.

Local Open Scope string_scope.
Local Open Scope list_scope.
Local Open Scope rust_scope.

Module Http.

Definition JSON_CONTENT_TYPE : string := "application/json".

(** * Bodies *)

Inductive OpenAiInput := One (s : string) | Many (l : list string).
Inductive FloatEncoding := Float.
Record OpenAiRequest := mk_OpenAiRequest {
  o_model : string; o_input : OpenAiInput; o_encoding_format : option FloatEncoding; o_dimensions : option N }.
Inductive Task := HQuery | HDocument.
Inductive TruncationMode := HReject | HTruncate.
Record NativeRequest := mk_NativeRequest {
  n_model : string; n_input : list string; n_task : Task; n_truncation : TruncationMode;
  n_dimensions : option N; n_normalize : option bool }.
Record ModelCommand := mk_ModelCommand { c_model : string }.

Record ErrorBody := mk_ErrorBody { eb_code : string; eb_message : string; eb_retryable : bool }.
Record CompatibilityErrorBody := mk_CompatibilityErrorBody {
  ce_message : string; ce_type : string; ce_param : option string; ce_code : string }.
Record OpenAiEmbedding := mk_OpenAiEmbedding { oe_object : string; oe_index : N; oe_embedding : list f32 }.
Record OpenAiResponse := mk_OpenAiResponse {
  or_object : string; or_data : list OpenAiEmbedding; or_model : string; or_prompt_tokens : N; or_total_tokens : N }.
Record NativeResponse := mk_NativeResponse {
  nr_embeddings : list (list f32); nr_model : ResolvedModelIdentity;
  nr_prompt_tokens : N; nr_total_tokens : N; nr_input_tokens : list N }.
Record ModelSummary := mk_ModelSummary { ms_model : string; ms_state : string }.
Record HealthResponse := mk_HealthResponse { hr_status : string; hr_reason : option string }.

(** Everything that is serialized. *)
Inductive Payload :=
| PError (e : ErrorBody)
| PCompatibility (e : CompatibilityErrorBody)
| POpenAi (r : OpenAiResponse)
| PNative (r : NativeResponse)
| PModels (l : list ModelSummary)
| PModel (m : ModelSummary)
| PHealth (h : HealthResponse).

(** [serde_json] on these types; the three strings and flags of an error can always be
    serialized. *)
Class HttpJson := {
  openai_from_slice : string → option OpenAiRequest;
  native_from_slice : string → option NativeRequest;
  command_from_slice : string → option ModelCommand;
  to_vec : Payload → option string;
  error_text : ErrorBody → string;
  to_vec_error e : to_vec (PError e) = Some (error_text e);
}.

(** [impl From<EmbeddingOutput> for OpenAiResponse] *)
Definition openai_response (o : EmbeddingOutput) : OpenAiResponse :=
  let total := total_tokens (usage o) in
  mk_OpenAiResponse "list" (imap (λ i v, mk_OpenAiEmbedding "embedding" (N.of_nat i) v) (vectors o))
    (canonical_id (out_model o)) total total.

(** [impl From<EmbeddingOutput> for NativeResponse] *)
Definition native_response (o : EmbeddingOutput) : NativeResponse :=
  let total := total_tokens (usage o) in
  mk_NativeResponse (vectors o) (out_model o) total total (input_tokens (usage o)).

(** [impl From<ModelInfo> for ModelSummary] *)
Definition model_summary (m : ModelInfo) : ModelSummary :=
  mk_ModelSummary (mi_canonical_id m)
    (if bool_decide (mi_load_status m = Loaded) then "ready" else
     match mi_installation_status m with
     | Missing => "missing"
     | Invalid => "invalid"
     | IntegrityVerified | Loadable => "installed"
     end).

Inductive ErrorFlavor := Native | Compatibility.

(** [flavor_for_path] *)
Definition flavor_for_path (path : string) : ErrorFlavor :=
  if String.eqb path "/v1/embeddings" then Compatibility else Native.

(** The [ErrorBody] of a public error. *)
Definition error_body (e : PublicError) : ErrorBody :=
  mk_ErrorBody (ErrorCode_as_str (pe_code e)) (pe_message e) (bool_decide (pe_retryability e = Retryable)).

Section responses.
Context {J : HttpJson}.

(** [json_response]; an error that cannot be serialized would be retried for ever, and always
    can be. *)
Definition json_response (status : N) (v : Payload) : Response :=
  match to_vec v with
  | Some body => with_content status JSON_CONTENT_TYPE body
  | None => with_content 500 JSON_CONTENT_TYPE (error_text (error_body (for_code Internal)))
  end.

(** [wire_error] *)
Definition wire_error (status : N) (code : ErrorCode) : Response := json_response status (PError (error_body (for_code code))).

(** [compatibility_error] *)
Definition compatibility_error (status : N) (code : ErrorCode) : Response :=
  json_response status (PCompatibility (mk_CompatibilityErrorBody (pe_message (for_code code))
    (if bool_decide (code = InvalidRequest) then "invalid_request_error" else "server_error") None (ErrorCode_as_str code))).

(** [error_response] *)
Definition error_response (flavor : ErrorFlavor) (status : N) (code : ErrorCode) : Response :=
  match flavor with Native => wire_error status code | Compatibility => compatibility_error status code end.

(** [application_error] *)
Definition error_status (k : ApplicationErrorKind) : N :=
  match k with
  | KInvalidRequest => 400
  | KModelUnavailable | KShuttingDown => 503
  | KOverloaded => 429
  | KCancelled => 499
  | KDeadlineExceeded => 408
  | KInternal => 500
  end.
Definition application_error (e : ApplicationError) (flavor : ErrorFlavor) : Response :=
  match flavor with
  | Native => json_response (error_status (ae_kind e)) (PError (error_body (ae_public e)))
  | Compatibility => compatibility_error (error_status (ae_kind e)) (pe_code (ae_public e))
  end.

(** [observe] *)
Definition outcome_of {A} (r : result ApplicationError A) : Metrics.Outcome :=
  match r with
  | Ok _ => Metrics.OutOk
  | Err e =>
    match ae_kind e with
    | KInvalidRequest => Metrics.OutInvalid
    | KOverloaded => Metrics.OutOverloaded
    | KCancelled | KDeadlineExceeded => Metrics.OutCancelled
    | _ => Metrics.OutFailed
    end
  end.

(** * Decoding *)

Context {H : HttpCrate} (s : Service.AppState).

(** [decode_json]: the media type, the declared length, the body and its decoder. *)
Definition is_json (value : string) : bool :=
  match str_split ";" value with
  | media :: _ => eq_ignore_ascii_case (trim media) JSON_CONTENT_TYPE
  | [] => false
  end.
Definition decode_json {T} (from_slice : string → option T) (r : Request) (flavor : ErrorFlavor) : result Response T :=
  ensure match single_header (headers r) "content-type" ≫= to_str with Some v => is_json v | None => false end
    else error_response flavor 415 InvalidRequest in
  let? _ :=
    if contains_key (headers r) "content-length" then
      match (single_header (headers r) "content-length" ≫= to_str) ≫= parse_unsigned u64_max with
      | None => Err (error_response flavor 400 InvalidRequest)
      | Some length =>
        if (Config.max_body_bytes (Service.limits s) <? length)%N then Err (error_response flavor 413 InvalidRequest) else Ok tt
      end
    else Ok tt in
  let? bytes := ok_or (to_bytes (body r) (Config.max_body_bytes (Service.limits s))) (error_response flavor 413 InvalidRequest) in
  ok_or (from_slice bytes) (error_response flavor 400 InvalidRequest).

(** The fold of [validate_inputs]. *)
Fixpoint input_bytes (total : N) (inputs : list string) : option N :=
  match inputs with
  | [] => Some total
  | i :: inputs =>
    if (Config.max_input_bytes (Service.limits s) <? str_len i)%N then None else
    match checked_add usize_max total (str_len i) with Some total => input_bytes total inputs | None => None end
  end.
(** [validate_inputs] *)
Definition validate_inputs (model : string) (inputs : list string) (flavor : ErrorFlavor) : result Response unit :=
  if str_is_empty model || bool_decide (inputs = []) || (Config.max_items (Service.limits s) <? len inputs)%N
  then Err (error_response flavor 400 InvalidRequest) else
  if match input_bytes 0 inputs with
     | Some bytes => (Config.max_request_bytes (Service.limits s) <? bytes)%N
     | None => true
     end
  then Err (error_response flavor 413 InvalidRequest) else Ok tt.

(** * Handlers *)

(** [run_embed]: while the embedding is awaited the guard [CancelOnDrop] is armed. *)
Definition run_embed (model : string) (input : list string) (o : EmbedOptions) : io (result ApplicationError EmbeddingOutput) :=
  do! cancellation := ask NewToken in
  guarded cancellation (Embed (Service.mk_EmbedCommand model input o cancellation None)).

(** [request.dimensions.map(usize::try_from).transpose()]; a [u32] fits. *)
Definition transpose (d : option N) : option (option N) :=
  match d with Some n => Some <$> try_from usize_max n | None => Some None end.

(** [openai_embeddings] *)
Definition openai_embeddings (r : Request) : io Response :=
  match decode_json openai_from_slice r Compatibility with
  | Err response => Ret response
  | Ok q =>
    let inputs := match o_input q with One v => [v] | Many vs => vs end in
    match validate_inputs (o_model q) inputs Compatibility with
    | Err response => Ret response
    | Ok _ =>
      match transpose (o_dimensions q) with
      | None => Ret (compatibility_error 400 InvalidRequest)
      | Some d =>
        do! result := run_embed (o_model q) inputs
          (mk_EmbedOptions (task EmbedOptions_default) (truncation EmbedOptions_default) d (normalize EmbedOptions_default)) in
        Ret (match result with
             | Ok output => json_response 200 (POpenAi (openai_response output))
             | Err e => application_error e Compatibility
             end)
      end
    end
  end.

(** [native_embeddings] *)
Definition native_embeddings (r : Request) : io Response :=
  match decode_json native_from_slice r Native with
  | Err response => Ret response
  | Ok q =>
    match validate_inputs (n_model q) (n_input q) Native with
    | Err response => Ret response
    | Ok _ =>
      match transpose (n_dimensions q) with
      | None => Ret (wire_error 400 InvalidRequest)
      | Some d =>
        do! result := run_embed (n_model q) (n_input q)
          (mk_EmbedOptions match n_task q with HQuery => Query | HDocument => Document end
                           match n_truncation q with HReject => Reject | HTruncate => Truncate end d (n_normalize q)) in
        Ret (match result with
             | Ok output => json_response 200 (PNative (native_response output))
             | Err e => application_error e Native
             end)
      end
    end
  end.

(** [list_models] *)
Definition list_models : io Response :=
  do! result := ask ListModels in
  do! _ := ask (Observe Metrics.ListModels (outcome_of result)) in
  Ret (match result with
       | Ok models => json_response 200 (PModels (model_summary <$> models))
       | Err e => application_error e Native
       end).

(** [admin_command] and the four handlers that call it. *)
Definition admin_command (r : Request) (a : AdminAction) : io Response :=
  match decode_json command_from_slice r Native with
  | Err response => Ret response
  | Ok command =>
    if str_is_empty (c_model command) then Ret (wire_error 400 InvalidRequest) else
    do! result := ask (Administer a (c_model command)) in
    do! _ := ask (Observe Metrics.AdminModel (outcome_of result)) in
    Ret (match result with
         | Ok model => json_response match a with AInstall => 202 | _ => 200 end (PModel (model_summary model))
         | Err e => application_error e Native
         end)
  end.

Definition health_response (ok : bool) (reason : option string) : Response :=
  json_response (if ok then 200 else 503) (PHealth (mk_HealthResponse (if ok then "ok" else "unavailable") reason)).

(** [live_health] *)
Definition live_health : io Response :=
  do! live := ask IsLive in
  do! _ := ask (Observe Metrics.OpHealth (if live : bool then Metrics.OutOk else Metrics.OutFailed)) in
  Ret (health_response live None).

(** [ready_health] *)
Definition ready_health : io Response :=
  do! readiness := ask GetReadiness in
  let ready := Health.is_ready readiness in
  do! _ := ask (Observe Metrics.OpHealth (if ready then Metrics.OutOk else Metrics.OutFailed)) in
  Ret (health_response ready (Health.reason_code_str <$> Health.reason_code readiness)).

(** [metrics] *)
Definition metrics : io Response :=
  do! text := ask RenderMetrics in
  Ret (with_content 200 "text/plain; version=0.0.4; charset=utf-8" text).

(** The embedded document [OPENAPI] and the version of the package. *)
Context (OPENAPI version : string).

(** [openapi] *)
Definition openapi : io Response := Ret (with_content 200 "application/json" OPENAPI).

Definition quoted (t : string) : string := dquote +:+ t +:+ dquote.

(** [status_page] *)
Definition status_page : io Response :=
  do! readiness := ask GetReadiness in
  do! counts := ask ModelCounts in
  let '(ready_models, total_models) := counts in
  let status := if Health.is_ready readiness then "Ready" else "Unavailable" in
  let reason := match Health.reason_code readiness with Some c => Health.reason_code_str c | None => "none" end in
  Ret (with_content 200 "text/html; charset=utf-8"
    ("<!doctype html><html lang=" +:+ quoted "en" +:+ "><head><meta charset=" +:+ quoted "utf-8" +:+ "><meta name="
     +:+ quoted "viewport" +:+ " content=" +:+ quoted "width=device-width,initial-scale=1"
     +:+ "><title>Impossible Embedding</title><style>body{font:16px system-ui;margin:3rem;max-width:48rem;background:#101416;color:#edf7f4}main{border-left:.4rem solid #ff746c;padding:1rem 1.5rem;background:#182023}dt{color:#9cb0aa}dd{margin:0 0 1rem}</style></head><body><main><h1>Impossible Embedding</h1><dl><dt>Status</dt><dd>"
     +:+ status +:+ "</dd><dt>Reason</dt><dd>" +:+ reason +:+ "</dd><dt>Ready models</dt><dd>"
     +:+ decimal (N.of_nat ready_models) +:+ " of " +:+ decimal (N.of_nat total_models)
     +:+ "</dd><dt>Version</dt><dd>" +:+ version +:+ "</dd></dl></main></body></html>")).

(** * Layers *)

(** [bearer_candidate] *)
Definition bearer_candidate (h : HeaderMap) : option string :=
  match single_header h "authorization" ≫= strip_prefix "Bearer " with
  | Some candidate => if str_is_empty candidate then None else Some candidate
  | None => None
  end.

(** [require_public_auth], [require_admin_auth], [require_metrics_auth] *)
Definition presents (h : HeaderMap) (verify : string → bool) : bool :=
  match bearer_candidate h with Some candidate => verify candidate | None => false end.
Definition require_public_auth (r : Request) (next : io Response) : io Response :=
  if Service.public_auth_required s && negb (presents (headers r) (Service.verify_public_token s))
  then Ret (error_response (flavor_for_path (path r)) 401 InvalidRequest) else next.
Definition require_admin_auth (r : Request) (next : io Response) : io Response :=
  if Service.admin_auth_required s && negb (presents (headers r) (Service.verify_admin_token s))
  then Ret (wire_error 401 InvalidRequest) else next.
Definition require_metrics_auth (r : Request) (next : io Response) : io Response :=
  if Service.metrics_auth_required s && negb (presents (headers r) (Service.verify_metrics_token s))
  then Ret (wire_error 401 InvalidRequest) else next.

(** * Routes *)

Inductive Verb := GET | POST.
Definition verb_str (v : Verb) : string := match v with GET => "GET" | POST => "POST" end.
Record Route := mk_Route { r_path : string; r_verb : Verb; r_handler : Request → io Response }.

(** [router]: the table; an empty list of administrative routes when they are disabled. *)
Definition public (handler : Request → io Response) (r : Request) : io Response := require_public_auth r (handler r).
Definition admin (a : AdminAction) (r : Request) : io Response := require_admin_auth r (admin_command r a).

Context {M : Mcp.McpJson}.

Definition router : list Route :=
  [mk_Route "/" GET (λ _, status_page);
   mk_Route "/health/live" GET (λ _, live_health);
   mk_Route "/health/ready" GET (λ _, ready_health);
   mk_Route "/openapi.json" GET (λ _, openapi);
   mk_Route "/v1/embeddings" POST (public openai_embeddings);
   mk_Route "/v1/embed" POST (public native_embeddings);
   mk_Route "/v1/models" GET (public (λ _, list_models));
   mk_Route "/mcp" POST (public (Mcp.http_handler version (Service.limits s)));
   mk_Route "/metrics" GET (λ r, require_metrics_auth r metrics)]
  ++ (if Service.admin_api_enabled s then
        [mk_Route "/v1/admin/models/install" POST (admin AInstall);
         mk_Route "/v1/admin/models/load" POST (admin ALoad);
         mk_Route "/v1/admin/models/unload" POST (admin AUnload);
         mk_Route "/v1/admin/models/delete" POST (admin ADelete)]
      else []).

(** What [axum] answers by itself when no route takes the request. *)
Context (unrouted : Request → Response).

(** The dispatch of [axum]: exact paths; a [get] route takes [HEAD] too, without a body. *)
Definition takes (r : Request) (x : Route) : bool :=
  String.eqb (path r) (r_path x) &&
  (String.eqb (method r) (verb_str (r_verb x)) || (String.eqb (method r) "HEAD" && match r_verb x with GET => true | POST => false end)).
Definition route (r : Request) : io Response :=
  match find (takes r) router with
  | None => Ret (unrouted r)
  | Some x =>
    do! response := r_handler x r in
    Ret (if String.eqb (method r) "HEAD" then mk_Response (status response) (response_headers response) "" else response)
  end.

(** [route_method] *)
Definition route_method (path : string) : option Verb :=
  if bool_decide (path ∈ ["/"; "/v1/models"; "/health/live"; "/health/ready"; "/metrics"; "/openapi.json"]) then Some GET else
  if bool_decide (path ∈ ["/v1/embeddings"; "/v1/embed"; "/mcp"]) then Some POST else
  if bool_decide (path ∈ ["/v1/admin/models/install"; "/v1/admin/models/load"; "/v1/admin/models/unload"; "/v1/admin/models/delete"])
     && Service.admin_api_enabled s
  then Some POST else None.

(** [preflight_headers_allowed] *)
Definition header_allowed (header : string) : bool :=
  let name := to_ascii_lowercase (trim header) in String.eqb name "authorization" || String.eqb name "content-type".
Definition preflight_headers_allowed (h : HeaderMap) : bool :=
  match get_all h "access-control-request-headers" with
  | [] => true
  | value :: rest =>
    match to_str value with
    | None => false
    | Some value => if existsb (λ header, negb (header_allowed header)) (str_split "," value) then false
                    else match rest with [] => true | _ => false end
    end
  end.

(** [apply_origin], [apply_preflight] *)
Definition apply_origin (origin : option string) (h : HeaderMap) : HeaderMap :=
  match origin ≫= from_str with
  | None => h
  | Some origin => insert_header "vary" "Origin" (insert_header "access-control-allow-origin" origin h)
  end.
Definition apply_preflight (origin : string) (v : Verb) (h : HeaderMap) : HeaderMap :=
  insert_header "access-control-allow-headers" "Authorization, Content-Type"
    (insert_header "access-control-allow-methods" (default "GET" (from_str (verb_str v))) (apply_origin (Some origin) h)).

(** [origin_layer] around [next] *)
Definition origin_layer (r : Request) (next : io Response) : io Response :=
  let refused := Ret (error_response (flavor_for_path (path r)) 403 InvalidRequest) in
  match get_all (headers r) "origin" with
  | _ :: _ :: _ => refused
  | origin_header =>
    let origin := head origin_header ≫= to_str in
    if bool_decide (origin_header ≠ [] ∧ origin = None) then refused else
    if negb (Security.allows (Service.origins s) origin) then refused else
    let response_origin := Security.response_origin (Service.origins s) origin in
    if String.eqb (method r) "OPTIONS" then
      match response_origin with
      | None => refused
      | Some origin =>
        match route_method (path r) with
        | None => Ret (empty_response 404)
        | Some expected =>
          match single_header (headers r) "access-control-request-method" ≫= to_str with
          | None => refused
          | Some requested =>
            if negb (String.eqb requested (verb_str expected)) || negb (preflight_headers_allowed (headers r)) then refused
            else Ret (mk_Response 204 (apply_preflight origin expected []) "")
          end
        end
      end
    else
      do! response := next in
      Ret (mk_Response (status response) (apply_origin response_origin (response_headers response)) (response_body response))
  end.

(** The whole adapter. *)
Definition serve (r : Request) : io Response := origin_layer r (route r).

(** * Who may do what *)

(** No origin, or a single one that is listed. *)
Definition origin_ok (r : Request) : Prop :=
  get_all (headers r) "origin" = [] ∨
  ∃ o, get_all (headers r) "origin" = [o] ∧ o ∈ Security.allowed (Service.origins s).

(** Exactly one authorization header, the bearer form of the credential, where there is one. *)
Definition authorized (credential : option Security.Secret) (r : Request) : Prop :=
  match credential with
  | None => True
  | Some secret => get_all (headers r) "authorization" = ["Bearer " +:+ Security.secret_bytes secret]
  end.

(** The limits on one embedding request. *)
Record within_limits (model : string) (inputs : list string) : Prop := {
  wl_model : model ≠ "";
  wl_some : inputs ≠ [];
  wl_items : (len inputs <= Config.max_items (Service.limits s))%N;
  wl_input : Forall (λ i, (str_len i <= Config.max_input_bytes (Service.limits s))%N) inputs;
  wl_fits : (sum_N (str_len <$> inputs) <= usize_max)%N;
  wl_total : (sum_N (str_len <$> inputs) <= Config.max_request_bytes (Service.limits s))%N;
}.

Definition admin_path (a : AdminAction) : string :=
  match a with
  | AInstall => "/v1/admin/models/install" | ALoad => "/v1/admin/models/load"
  | AUnload => "/v1/admin/models/unload" | ADelete => "/v1/admin/models/delete"
  end.

(** The calls a request is entitled to. *)
Definition permitted (r : Request) (c : Call) : Prop :=
  match c with
  | NewToken => authorized (Service.public_credential s) r
  | Embed cmd => authorized (Service.public_credential s) r ∧
      ((path r = "/v1/embeddings" ∨ path r = "/v1/embed") ∧ within_limits (Service.model cmd) (Service.input cmd)
       ∨ path r = "/mcp" ∧ Mcp.command_ok cmd)
  | ListModels => authorized (Service.public_credential s) r ∧ (path r = "/v1/models" ∨ path r = "/mcp")
  | Administer a model => Service.admin_api_enabled s = true ∧ authorized (Service.admin_credential s) r ∧
      path r = admin_path a ∧ model ≠ ""
  | RenderMetrics => authorized (Service.metrics_credential s) r ∧ path r = "/metrics"
  | Observe _ _ | IsLive | GetReadiness | ModelCounts => True
  | Cancel _ | EmbedWithin _ _ => False
  end.

Lemma presents_carries h verify secret :
  (∀ c, verify c = Security.verify secret c) → presents h verify = true →
  get_all h "authorization" = ["Bearer " +:+ Security.secret_bytes secret].
Proof.
  intros Hv. unfold presents, bearer_candidate. destruct (single_header h "authorization") as [v|] eqn:Hs; cbn [mbind option_bind]; [|done].
  apply single_header_get_all in Hs as ->. destruct (strip_prefix "Bearer " v) as [c|] eqn:Hp; [|done].
  apply Security.strip_prefix_Some in Hp as ->. destruct (str_is_empty c); [done|].
  rewrite Hv. by intros ->%Security.verify_spec.
Qed.

Lemma carries_presents h verify secret :
  (∀ c, verify c = Security.verify secret c) → Security.secret_bytes secret ≠ "" →
  get_all h "authorization" = ["Bearer " +:+ Security.secret_bytes secret] → presents h verify = true.
Proof.
  intros Hv Hne Hh. unfold presents, bearer_candidate. rewrite (proj2 (single_header_get_all _ _ _) Hh). simpl.
  destruct (str_is_empty (Security.secret_bytes secret)) eqn:E; [by destruct (Security.secret_bytes secret)|]. rewrite Hv.
  by apply Security.verify_spec.
Qed.

(** The shape of the three layers. *)
Definition required (credential : option Security.Secret) (r : Request) : bool :=
  bool_decide (is_Some credential) && negb (presents (headers r) (λ c, Service.is_none_or credential (λ x, Security.verify x c))).

Lemma required_authorized credential r : required credential r = false → authorized credential r.
Proof.
  unfold required. destruct credential as [secret|]; simpl; [|done].
  intros Hp%negb_false_iff. by eapply presents_carries.
Qed.

Lemma authorized_required credential r :
  (∀ x, credential = Some x → Security.secret_bytes x ≠ "") → authorized credential r → required credential r = false.
Proof.
  unfold required. destruct credential as [secret|]; simpl; [|done]. intros Hne Ha.
  apply negb_false_iff. eapply carries_presents; [done|by apply Hne|done].
Qed.

Lemma public_spec P Q r handler :
  (authorized (Service.public_credential s) r → spec P Q (handler r)) →
  Q (error_response (flavor_for_path (path r)) 401 InvalidRequest) → spec P Q (public handler r).
Proof.
  intros Hh He. unfold public, require_public_auth. change (_ && negb _) with (required (Service.public_credential s) r).
  destruct (required _ r) eqn:Hr; [done|]. by apply Hh, required_authorized.
Qed.

(** ** Limits *)

Lemma input_bytes_Some total ins n :
  input_bytes total ins = Some n ↔
  Forall (λ i, (str_len i <= Config.max_input_bytes (Service.limits s))%N) ins ∧
  n = (total + sum_N (str_len <$> ins))%N ∧ (ins = [] ∨ (total + sum_N (str_len <$> ins) <= usize_max)%N).
Proof.
  revert total. induction ins as [|i ins IH]; intros total; cbn [input_bytes fmap list_fmap].
  - change (sum_N []) with 0%N. rewrite N.add_0_r. naive_solver.
  - change (sum_N (str_len i :: (str_len <$> ins))) with (str_len i + sum_N (str_len <$> ins))%N.
    rewrite Forall_cons. destruct (N.ltb_spec (Config.max_input_bytes (Service.limits s)) (str_len i)) as [Hl|Hl].
    { split; [done|]. intros ([] & _). lia. }
    destruct (checked_add usize_max total (str_len i)) as [t|] eqn:Ht.
    + apply checked_add_Some in Ht as [-> Ht]. rewrite IH, N.add_assoc. split.
      * intros (? & -> & [->|?]); split_and!; try done; right; [|lia]. change (sum_N (str_len <$> [])) with 0%N. lia.
      * intros ([] & -> & [?|?]); [done|]. split_and!; [done|done|]. right. lia.
    + apply checked_add_None in Ht. split; [done|]. intros (_ & _ & [?|?]); [done|]. lia.
Qed.

Lemma validate_inputs_Ok model ins flavor :
  validate_inputs model ins flavor = Ok tt ↔ within_limits model ins.
Proof.
  unfold validate_inputs. split.
  - destruct (_ || _) eqn:Hg; [done|]. inv_bool. destruct (input_bytes 0 ins) as [n|] eqn:Hb; [|done].
    destruct (N.ltb_spec (Config.max_request_bytes (Service.limits s)) n); [done|]. intros _.
    apply input_bytes_Some in Hb as (Hf & -> & Hu). rewrite N.add_0_l in *. split; try done.
    + intros ->. done.
    + by destruct Hu.
  - intros [Hm Hne Hi Hf Hu Ht]. destruct model; [done|]. simpl. rewrite (bool_decide_false _ Hne). simpl.
    rewrite (proj2 (N.ltb_ge _ _) Hi). assert (input_bytes 0 ins = Some (sum_N (str_len <$> ins))) as ->.
    { apply input_bytes_Some. rewrite N.add_0_l. eauto. }
    by rewrite (proj2 (N.ltb_ge _ _) Ht).
Qed.

(** ** Handlers *)

Definition embed_call (c : Call) : Prop :=
  match c with NewToken => True | Embed cmd => within_limits (Service.model cmd) (Service.input cmd) | _ => False end.

Lemma openai_calls r : spec embed_call (λ _, True) (openai_embeddings r).
Proof.
  unfold openai_embeddings. destruct (decode_json _ _ _) as [q|]; [|done].
  destruct (validate_inputs _ _ _) as [[]|] eqn:Hv; [|done]. apply validate_inputs_Ok in Hv.
  by destruct (transpose _).
Qed.

Lemma native_calls r : spec embed_call (λ _, True) (native_embeddings r).
Proof.
  unfold native_embeddings. destruct (decode_json _ _ _) as [q|]; [|done].
  destruct (validate_inputs _ _ _) as [[]|] eqn:Hv; [|done]. apply validate_inputs_Ok in Hv.
  by destruct (transpose _).
Qed.

Lemma admin_calls r a :
  spec (λ c, match c with Administer b model => b = a ∧ model ≠ "" | Observe _ _ => True | _ => False end) (λ _, True)
       (admin_command r a).
Proof.
  unfold admin_command. destruct (decode_json _ _ _) as [q|]; [|done]. destruct (str_is_empty (c_model q)) eqn:Hm; [done|].
  simpl. split; [|done]. split; [done|]. intros He. by rewrite He in Hm.
Qed.

Lemma mcp_calls r : spec Mcp.tool_call (λ _, True) (Mcp.http_handler version (Service.limits s) r).
Proof.
  unfold Mcp.http_handler. repeat case_match; try done. apply spec_bind.
  eapply spec_mono; [apply Mcp.dispatch_step|by intros c []|done].
Qed.

(** ** Layers and routes *)

Lemma origin_layer_calls P r next :
  (origin_ok r → method r ≠ "OPTIONS" → spec P (λ _, True) next) → spec P (λ _, True) (origin_layer r next).
Proof.
  intros Hn. unfold origin_layer. destruct (get_all (headers r) "origin") as [|o [|o' l]] eqn:Ho; [| |done].
  - simpl. destruct (String.eqb_spec (method r) "OPTIONS") as [|Hm]; [done|].
    apply spec_bind. eapply spec_mono; [apply Hn; [by left|done]|done|done].
  - cbn [head mbind option_bind]. case_bool_decide as Hb; [done|]. destruct (to_str o) as [t|] eqn:Ht; [|by destruct Hb].
    apply to_str_text in Ht as ->. destruct (Security.allows _ _) eqn:Ha; simpl; [|done].
    destruct (String.eqb_spec (method r) "OPTIONS") as [|Hm].
    + repeat case_match; done.
    + apply spec_bind. eapply spec_mono; [apply Hn; [|done]|done|done]. right. exists o. split; [done|].
      apply existsb_exists in Ha as (a & Hin & He). apply Security.constant_time_eq_spec, Security.str_bytes_inj in He as ->.
      by apply list_elem_of_In.
Qed.

Lemma public_calls P r handler :
  spec P (λ _, True) (handler r) →
  spec (λ c, authorized (Service.public_credential s) r ∧ P c) (λ _, True) (public handler r).
Proof. intros Hh. apply public_spec; [|done]. intros Ha. eapply spec_mono; [exact Hh|done|done]. Qed.

Lemma route_calls r : spec (λ c, (∃ x, x ∈ router ∧ takes r x = true) ∧ permitted r c) (λ _, True) (route r).
Proof.
  unfold route. destruct (find (takes r) router) as [x|] eqn:Hf; [|done]. apply find_some in Hf as [Hin Ht].
  apply spec_bind. apply (spec_mono (permitted r) _ (λ _, True)); [|intros c Hc; split; [|done]; exists x; by rewrite list_elem_of_In|done].
  unfold takes in Ht. apply andb_prop in Ht as [Hp%String.eqb_eq _]. unfold router in Hin. apply in_app_or in Hin as [Hin|Hin].
  - repeat destruct Hin as [<-|Hin]; [..|done]; cbn [r_path r_handler] in *.
    + simpl. split; [done|]. intros x. split; [done|]. by intros [].
    + done.
    + done.
    + done.
    + eapply spec_mono; [apply public_calls, openai_calls| |done]. intros [] []; simpl in *; naive_solver.
    + eapply spec_mono; [apply public_calls, native_calls| |done]. intros [] []; simpl in *; naive_solver.
    + apply public_spec; [|done]. intros Ha. simpl. naive_solver.
    + eapply spec_mono; [apply public_calls, mcp_calls| |done]. intros [] []; simpl in *; naive_solver.
    + unfold require_metrics_auth. change (_ && negb _) with (required (Service.metrics_credential s) r).
      destruct (required _ r) eqn:Hr; [done|]. apply required_authorized in Hr. done.
  - destruct (Service.admin_api_enabled s) eqn:Hadm; [|done].
    assert (∀ a, path r = admin_path a → spec (permitted r) (λ _, True) (admin a r)) as Ha.
    { intros a Hpa. unfold admin, require_admin_auth. change (_ && negb _) with (required (Service.admin_credential s) r).
      destruct (required _ r) eqn:Hr; [done|]. apply required_authorized in Hr.
      eapply spec_mono; [apply admin_calls| |done]. intros []; simpl; try done. intros [-> ?]. done. }
    repeat destruct Hin as [<-|Hin]; [..|done]; by apply Ha.
Qed.

(** Dropping a request that waits for an embedding cancels it. *)
Lemma route_drops r : path r ≠ "/mcp" → drop_safe (route r).
Proof.
  intros Hnot. unfold route. destruct (find (takes r) router) as [x|] eqn:Hf; [|done]. apply find_some in Hf as [Hin Ht].
  apply drop_safe_bind; [|done]. unfold takes in Ht. apply andb_prop in Ht as [Hp%String.eqb_eq _].
  assert (∀ m i o, drop_safe (run_embed m i o)) as Hrun by (intros m i o; simpl; split; [done|]; intros t; split; [by left|done]).
  unfold router in Hin. apply in_app_or in Hin as [Hin|Hin].
  - repeat destruct Hin as [<-|Hin]; [..|done]; cbn [r_path r_handler] in *;
      unfold public, require_public_auth, require_metrics_auth; try done; try (by repeat case_match).
    + simpl. split; [done|]. intros x. split; [done|]. by intros [].
    + case_match; [done|]. unfold openai_embeddings. destruct (decode_json _ _ _) as [q|]; [|done].
      destruct (validate_inputs _ _ _); [|done]. destruct (transpose _); [|done]. by apply drop_safe_bind.
    + case_match; [done|]. unfold native_embeddings. destruct (decode_json _ _ _) as [q|]; [|done].
      destruct (validate_inputs _ _ _); [|done]. destruct (transpose _); [|done]. by apply drop_safe_bind.
  - destruct (Service.admin_api_enabled s); [|done].
    repeat destruct Hin as [<-|Hin]; [..|done]; cbn [r_handler]; unfold admin, require_admin_auth, admin_command;
      by repeat case_match.
Qed.


(** * Preflights *)

Ltac pick_route := (left; reflexivity) + (right; pick_route).

(** The table the preflight consults is the route table. *)
Lemma route_method_router p v : route_method p = Some v ↔ ∃ x, x ∈ router ∧ r_path x = p ∧ r_verb x = v.
Proof.
  setoid_rewrite list_elem_of_In. split.
  - unfold route_method. intros Hr.
    assert (∀ l P, bool_decide (p ∈ l) = true → Forall P l → P p) as Hall.
    { intros l P Hb Hl. apply bool_decide_eq_true in Hb. by eapply Forall_forall in Hl. }
    destruct (bool_decide (p ∈ _)) eqn:H1 in Hr.
    { injection Hr as <-. apply (Hall _ (λ p, ∃ x, In x router ∧ r_path x = p ∧ r_verb x = GET)) in H1; [done|].
      repeat first [apply Forall_nil_2|apply Forall_cons_2]; eexists; (split; [apply in_or_app; left; pick_route|by split]). }
    destruct (bool_decide (p ∈ _)) eqn:H2 in Hr.
    { injection Hr as <-. apply (Hall _ (λ p, ∃ x, In x router ∧ r_path x = p ∧ r_verb x = POST)) in H2; [done|].
      repeat first [apply Forall_nil_2|apply Forall_cons_2]; eexists; (split; [apply in_or_app; left; pick_route|by split]). }
    destruct (bool_decide (p ∈ _)) eqn:H3 in Hr; [|done]. destruct (Service.admin_api_enabled s) eqn:Ha; [|done].
    injection Hr as <-. apply (Hall _ (λ p, ∃ x, In x router ∧ r_path x = p ∧ r_verb x = POST)) in H3; [done|].
    unfold router. rewrite Ha.
    repeat first [apply Forall_nil_2|apply Forall_cons_2]; eexists; (split; [apply in_or_app; right; pick_route|by split]).
  - intros (x & Hin & <- & <-). unfold router in Hin. apply in_app_or in Hin as [Hin|Hin].
    + by repeat destruct Hin as [<-|Hin].
    + unfold route_method. destruct (Service.admin_api_enabled s); [|done]. by repeat destruct Hin as [<-|Hin].
Qed.

(** At most one header that lists only the two allowed names. *)
Lemma preflight_headers_spec h :
  preflight_headers_allowed h = true ↔
  get_all h "access-control-request-headers" = [] ∨
  ∃ v t, get_all h "access-control-request-headers" = [v] ∧ to_str v = Some t ∧
    Forall (λ x, to_ascii_lowercase (trim x) ∈ ["authorization"; "content-type"]) (str_split "," t).
Proof.
  unfold preflight_headers_allowed. destruct (get_all h _) as [|v rest]; [naive_solver|].
  destruct (to_str v) as [t|] eqn:Ht; [|naive_solver].
  assert (existsb (λ x, negb (header_allowed x)) (str_split "," t) = false ↔
    Forall (λ x, to_ascii_lowercase (trim x) ∈ ["authorization"; "content-type"]) (str_split "," t)) as Hl.
  { induction (str_split "," t) as [|x l IH]; simpl; [by split|]. rewrite orb_false_iff, Forall_cons, IH.
    unfold header_allowed. rewrite negb_false_iff, orb_true_iff, !String.eqb_eq. set_solver. }
  destruct (existsb _ _).
  - split; [done|]. intros [?|(v' & t' & [= -> ->] & ? & Hf)]; [done|]. simplify_eq. by apply Hl in Hf.
  - destruct rest as [|y rest]; [|naive_solver]. split; [|done]. intros _. right. exists v, t. naive_solver.
Qed.

(** An error is not a success and names no origin. *)
Lemma error_response_plain flavor st code :
  st ≠ 204%N → status (error_response flavor st code) ≠ 204%N ∧
  get_all (response_headers (error_response flavor st code)) "access-control-allow-origin" = [].
Proof.
  intros Hs. destruct flavor; unfold error_response, wire_error, compatibility_error, json_response;
    by destruct (to_vec _).
Qed.

(** What a preflight has to bring. *)
Definition preflight_ok (r : Request) (o : string) : Prop :=
  get_all (headers r) "origin" = [o] ∧ is_Some (to_str o) ∧ o ∈ Security.allowed (Service.origins s) ∧
  ∃ x requested, x ∈ router ∧ r_path x = path r ∧
    get_all (headers r) "access-control-request-method" = [requested] ∧ to_str requested = Some (verb_str (r_verb x)) ∧
    (get_all (headers r) "access-control-request-headers" = [] ∨
     ∃ v t, get_all (headers r) "access-control-request-headers" = [v] ∧ to_str v = Some t ∧
       Forall (λ x, to_ascii_lowercase (trim x) ∈ ["authorization"; "content-type"]) (str_split "," t)).

Lemma verb_str_inj v w : verb_str v = verb_str w → v = w.
Proof. by destruct v, w. Qed.

Lemma allows_listed o : Security.allows (Service.origins s) (Some o) = true ↔ o ∈ Security.allowed (Service.origins s).
Proof.
  cbn [Security.allows]. rewrite existsb_exists, list_elem_of_In. split.
  - intros (a & Hin & He). by apply Security.constant_time_eq_spec, Security.str_bytes_inj in He as ->.
  - intros Hin. exists o. split; [done|]. by apply Security.constant_time_eq_spec.
Qed.

Lemma preflight_headers_of o v n :
  n ∈ get_all (apply_preflight o v []) "access-control-allow-origin" → n = o.
Proof.
  unfold apply_preflight, apply_origin. rewrite !get_all_insert. simpl. destruct (from_str o) as [f|] eqn:Hf; simpl; [|set_solver].
  rewrite !get_all_insert. simpl. apply from_str_text in Hf as ->. set_solver.
Qed.

(** A response that decides the preflight. *)
Definition decides (r : Request) (resp : Response) : Prop :=
  (status resp = 204%N ↔ ∃ o, preflight_ok r o) ∧
  ∀ o, o ∈ get_all (response_headers resp) "access-control-allow-origin" → preflight_ok r o.

Lemma refused_exact r flavor st code :
  st ≠ 204%N → (¬ ∃ o, preflight_ok r o) → ∃ resp, Ret (error_response flavor st code) = Ret resp ∧ decides r resp.
Proof.
  intros Hst Hno. eexists; split; [done|]. unfold decides.
  destruct (error_response_plain flavor st code Hst) as [? ->]. split; [done|]. set_solver.
Qed.

Lemma preflight_route r o :
  preflight_ok r o → ∃ v q, route_method (path r) = Some v ∧ get_all (headers r) "access-control-request-method" = [q] ∧
    to_str q = Some (verb_str v) ∧ preflight_headers_allowed (headers r) = true.
Proof.
  intros (_ & _ & _ & x & q & Hx & Hp & Hg & Hq & Hh%preflight_headers_spec). exists (r_verb x), q.
  split_and!; try done. apply route_method_router. eauto.
Qed.

(** C29: A preflight is answered by the adapter alone, without any call, and with success
    exactly when it brings a single listed origin, asks in a single header for the method of
    a route that really exists for the path under the current configuration, and announces
    no headers other than the authorization and the content type.  No other preflight
    response names an origin as allowed, and a successful one names only the asking one. *)
Theorem preflight_exact r :
  method r = "OPTIONS" →
  ∃ resp, serve r = Ret resp ∧ (status resp = 204%N ↔ ∃ o, preflight_ok r o) ∧
    ∀ o, o ∈ get_all (response_headers resp) "access-control-allow-origin" → preflight_ok r o.
Proof.
  intros Hm. unfold serve, origin_layer. rewrite Hm. change (String.eqb "OPTIONS" "OPTIONS") with true.
  destruct (get_all (headers r) "origin") as [|o [|o' l]] eqn:Ho.
  - apply refused_exact; [done|]. intros (o & Hc & _). congruence.
  - cbn [head mbind option_bind]. case_bool_decide as Hb.
    { apply refused_exact; [done|]. intros (o' & Hc & [t Ht] & _). rewrite Hc in Ho. injection Ho as ->. destruct Hb; congruence. }
    destruct (to_str o) as [t|] eqn:Ht; [|by destruct Hb]. pose proof (to_str_text _ _ Ht) as ->.
    destruct (Security.allows _ (Some o)) eqn:Ha; cbn [negb].
    2: { apply refused_exact; [done|]. intros (o' & Hc & _ & Hin & _). rewrite Hc in Ho. injection Ho as ->.
         apply allows_listed in Hin. congruence. }
    cbn [Security.response_origin]. rewrite Ha. destruct (route_method (path r)) as [v|] eqn:Hv.
    2: { eexists; split; [done|]. split; [|intros ? ?%elem_of_nil; done]. split; [done|].
         intros (o' & (v & q & ? & _)%preflight_route). congruence. }
    destruct (single_header (headers r) "access-control-request-method") as [q|] eqn:Hq; cbn [mbind option_bind].
    2: { apply refused_exact; [done|]. intros (o' & (v' & q & _ & Hg & _)%preflight_route). apply single_header_get_all in Hg. congruence. }
    apply single_header_get_all in Hq. destruct (to_str q) as [req|] eqn:Hreq.
    2: { apply refused_exact; [done|]. intros (o' & (v' & q' & _ & Hg & Hq' & _)%preflight_route). congruence. }
    destruct (negb _ || negb _) eqn:Hbad.
    + apply refused_exact; [done|]. intros (o' & (v' & q' & Hv' & Hg & Hq' & Hh)%preflight_route).
      assert (req = verb_str v) as -> by congruence. by rewrite Hh, String.eqb_refl in Hbad.
    + inv_bool. subst req. pose proof Hv as (x & Hx & Hp & Hverb)%route_method_router. assert (preflight_ok r o) as Hok.
      { split_and!; [done|by eexists|by apply allows_listed|]. exists x, q. rewrite Hverb. split_and!; [done..|].
        by apply preflight_headers_spec. }
      eexists; split; [done|]. split; [split; [by eexists|done]|].
      intros n ->%preflight_headers_of. done.
  - apply refused_exact; [done|]. intros (o2 & Hc & _). congruence.
Qed.

(** * Embeddings *)

(** A request the origin layer lets through. *)
Lemma origin_layer_passes r next :
  origin_ok r → (∀ o, get_all (headers r) "origin" = [o] → is_Some (to_str o)) → method r ≠ "OPTIONS" →
  ∃ origin, origin_layer r next = bind next (λ response, Ret (mk_Response (status response)
    (apply_origin origin (response_headers response)) (response_body response))).
Proof.
  intros Ho Ht Hm%String.eqb_neq. unfold origin_layer. rewrite Hm. destruct Ho as [->|(o & Ho & Hin)].
  - by eexists.
  - destruct (Ht o Ho) as [t Hto]. rewrite Ho. cbn [head mbind option_bind]. rewrite Hto.
    pose proof (to_str_text _ _ Hto) as ->. rewrite bool_decide_false by (by intros []).
    apply allows_listed in Hin. rewrite Hin. cbn [negb]. by eexists.
Qed.

Lemma public_passes r handler :
  (∀ x, Service.public_credential s = Some x → Security.secret_bytes x ≠ "") →
  authorized (Service.public_credential s) r → public handler r = handler r.
Proof.
  intros Hne Ha. unfold public, require_public_auth. change (_ && negb _) with (required (Service.public_credential s) r).
  by rewrite authorized_required.
Qed.

Lemma openai_route r :
  path r = "/v1/embeddings" → method r = "POST" →
  route r = bind (public openai_embeddings r) (λ response, Ret response).
Proof. intros Hp Hm. unfold route, router, takes. rewrite Hp, Hm. done. Qed.

Lemma transpose_u32 d : (∀ n, d = Some n → (n <= u32_max)%N) → transpose d = Some d.
Proof.
  intros Hd. destruct d as [n|]; [|done]. unfold transpose, try_from. specialize (Hd n eq_refl).
  rewrite (proj2 (N.leb_le _ _)); [done|]. unfold usize_max, u64_max, u32_max in *. lia.
Qed.

(** Everything an OpenAI request has to be to be served. *)
Record openai_ready (r : Request) (q : OpenAiRequest) : Prop := {
  or_path : path r = "/v1/embeddings";
  or_method : method r = "POST";
  or_origin : origin_ok r;
  or_origin_text o : get_all (headers r) "origin" = [o] → is_Some (to_str o);
  or_credential x : Service.public_credential s = Some x → Security.secret_bytes x ≠ "";
  or_authorized : authorized (Service.public_credential s) r;
  or_decoded : decode_json openai_from_slice r Compatibility = Ok q;
  or_limits : within_limits (o_model q) (match o_input q with One v => [v] | Many vs => vs end);
  or_dimensions n : o_dimensions q = Some n → (n <= u32_max)%N;
}.

(** The command an OpenAI request stands for. *)
Definition openai_command (q : OpenAiRequest) (cancellation : token) : Service.EmbedCommand :=
  Service.mk_EmbedCommand (o_model q) (match o_input q with One v => [v] | Many vs => vs end)
    (mk_EmbedOptions Document Reject (o_dimensions q) None) cancellation None.

(** C30: A complete and well-formed OpenAI request makes exactly two calls: a fresh token and
    one embedding of its model and inputs, in order, with the default task, no truncation and
    the dimensions asked for.  The answer is then success with the serialized OpenAI form of
    the application's output, in which entry [i] is vector [i] under index [i] and the token
    counts are the output's total; or the status of the failure's kind with the fixed text
    of its public code. *)
Theorem openai_served r q (answer : ∀ c, Answer c) :
  openai_ready r q → (∀ v, is_Some (to_vec v)) →
  let cmd := openai_command q (answer NewToken) in
  let x := run answer (serve r) in
  x.1 = [NewToken; Embed cmd] ∧
  match answer (Embed cmd) with
  | Ok o => status x.2 = 200%N ∧ Some (response_body x.2) = to_vec (POpenAi (openai_response o)) ∧
      or_total_tokens (openai_response o) = total_tokens (usage o) ∧ length (or_data (openai_response o)) = length (vectors o) ∧
      (∀ i v, vectors o !! i = Some v → or_data (openai_response o) !! i = Some (mk_OpenAiEmbedding "embedding" (N.of_nat i) v))
  | Err e => status x.2 = error_status (ae_kind e) ∧
      let code := pe_code (ae_public e) in
      Some (response_body x.2) = to_vec (PCompatibility (mk_CompatibilityErrorBody (pe_message (for_code code))
        (if bool_decide (code = InvalidRequest) then "invalid_request_error" else "server_error") None (ErrorCode_as_str code)))
  end.
Proof.
  intros [Hp Hm Ho Hot Hne Ha Hd Hl Hdim] Hv cmd x. subst x. unfold serve.
  destruct (origin_layer_passes r (route r) Ho Hot) as [origin ->]; [by rewrite Hm|].
  rewrite openai_route by done. rewrite public_passes by done. unfold openai_embeddings. rewrite Hd.
  rewrite (proj2 (validate_inputs_Ok _ _ Compatibility) Hl), (transpose_u32 _ Hdim). simpl.
  change (Service.mk_EmbedCommand _ _ _ _ _) with cmd. split; [done|].
  destruct (answer (Embed cmd)) as [o|e]; simpl.
  - unfold json_response. destruct (Hv (POpenAi (openai_response o))) as [t Ht]. rewrite Ht. simpl.
    split_and!; [done..|by rewrite length_imap|]. intros i v Hi. by rewrite list_lookup_imap, Hi.
  - unfold compatibility_error, json_response.
    set (body := PCompatibility _). by destruct (Hv body) as [t ->].
Qed.

End responses.

(** * Witnesses *)

Definition SampleHttp : HttpCrate.
Proof.
  refine {| Body := string; to_str v := if str_forall (in_range 32 126) v then Some v else None;
            from_str v := if str_forall (in_range 32 126) v then Some v else None;
            to_bytes b limit := if (str_len b <=? limit)%N then Some b else None |}.
  - intros v t. destruct (str_forall _ v); congruence.
  - intros v t. destruct (str_forall _ v); congruence.
  - intros b limit t. destruct (N.leb_spec (str_len b) limit); naive_solver.
Defined.

Definition SampleHttpJson : HttpJson := {|
  openai_from_slice b := Some (mk_OpenAiRequest "alias" (One b) None (Some 2%N));
  native_from_slice b := None;
  command_from_slice b := Some (mk_ModelCommand b);
  to_vec p := Some "text";
  error_text e := "text";
  to_vec_error e := eq_refl;
|}.

Definition sample_secret : Security.Secret := Security.mk_Secret "secret".
Definition sample_served : Service.AppState :=
  Service.mk_AppState (Service.served_settings, Application.fresh Runtime.run_policy) (Some sample_secret) None
    (Security.mk_OriginPolicy ["https://app.example"]) Config.Limits_default false.
Definition sample_post : @Request SampleHttp :=
  @mk_Request SampleHttp "POST" "/v1/embeddings"
    [("origin", "https://app.example"); ("authorization", "Bearer secret"); ("content-type", "Application/JSON; charset=utf-8")] "hello".
Definition sample_preflight : @Request SampleHttp :=
  @mk_Request SampleHttp "OPTIONS" "/v1/embed"
    [("origin", "https://app.example"); ("access-control-request-method", "POST");
     ("access-control-request-headers", "Content-Type, authorization")] "".

Abbreviation sample_serve := (serve (J := SampleHttpJson) (H := SampleHttp) sample_served "{}" "1" (M := Mcp.SampleJson) (λ _, empty_response 404)).


Lemma preflight_exact_witness : ∃ resp, sample_serve sample_preflight = Ret resp ∧ status resp = 204%N ∧
  get_all (response_headers resp) "access-control-allow-origin" = ["https://app.example"].
Proof.
  destruct (preflight_exact (J := SampleHttpJson) (H := SampleHttp) sample_served "{}" "1" (M := Mcp.SampleJson)
    (λ _, empty_response 404) sample_preflight) as (resp & Hr & _ & _); [reflexivity|].
  exists resp. split; [done|]. vm_compute in Hr. injection Hr as <-. done.
Defined.

Lemma openai_served_witness :
  (run refusing (sample_serve sample_post)).1 =
    [NewToken; Embed (openai_command (mk_OpenAiRequest "alias" (One "hello") None (Some 2%N)) 0%nat)] ∧
  status (run refusing (sample_serve sample_post)).2 = 500%N.
Proof.
  destruct (openai_served (J := SampleHttpJson) (H := SampleHttp) sample_served "{}" "1" (M := Mcp.SampleJson)
    (λ _, empty_response 404) sample_post (mk_OpenAiRequest "alias" (One "hello") None (Some 2%N)) refusing) as [H1 [H2 _]].
  - split.
    + reflexivity.
    + reflexivity.
    + right. exists "https://app.example". split; [reflexivity|]. by left.
    + intros o Ho. injection Ho as <-. by eexists.
    + intros x [= <-]. done.
    + reflexivity.
    + vm_compute. reflexivity.
    + apply (validate_inputs_Ok (J := SampleHttpJson) sample_served _ _ Native). vm_compute. reflexivity.
    + intros n [= <-]. vm_compute. congruence.
  - intros v. by eexists.
  - split; [exact H1|exact H2].
Defined.

End Http.
