(* ===== verification/Grpc.v ===== *)
(** The gRPC adapter ([crates/impossible-server/src/grpc.rs]) and the error contract of the
    protocol ([crates/impossible-protocol/src/lib.rs], [proto/embedding.proto]): the
    interceptor, the caller's timeout, the embedding call with its guard and timer, the
    health service, and the server handle. *)

From Stdlib Require Import NArith ZArith Lia Ascii.
From stdpp Require Import base strings list sets.
From S2P Require Import Prelude Core Cancellation Std Config Security Catalog Application Service Transport Http.
Import Catalog Transport.

Local Open Scope string_scope.
Local Open Scope list_scope.
Local Open Scope rust_scope.

Module Grpc.

Definition AUTHORIZATION : string := "authorization".
Definition AUTHORIZATION_BIN : string := "authorization-bin".
Definition GRPC_TIMEOUT : string := "grpc-timeout".
Definition GRPC_TIMEOUT_BIN : string := "grpc-timeout-bin".
Definition HEALTH_REFRESH_INTERVAL : N := from_millis 50.

(** * The protocol *)

(** [tonic::Code], the codes in use *)
Inductive Code :=
| InvalidArgument | Unavailable | ResourceExhausted | CodeCancelled | CodeDeadlineExceeded | CodeInternal | Unauthenticated.

(** The enumerations of the schema, with their numbers. *)
Inductive ProtoErrorCode :=
| EUnspecified | EInvalidRequest | EModelUnavailable | EQueueFull | ECancelled | EDeadlineExceeded | EInferenceFailed | EInternal.
Definition error_code_number (c : ProtoErrorCode) : N :=
  match c with
  | EUnspecified => 0 | EInvalidRequest => 1 | EModelUnavailable => 2 | EQueueFull => 3
  | ECancelled => 4 | EDeadlineExceeded => 5 | EInferenceFailed => 6 | EInternal => 7
  end.
Inductive ProtoRetryability := RUnspecified | RNever | RRetryable | RUnknown.
Definition retryability_number (r : ProtoRetryability) : N :=
  match r with RUnspecified => 0 | RNever => 1 | RRetryable => 2 | RUnknown => 3 end.
Inductive ProtoEmbeddingTask := PTaskUnspecified | PQuery | PDocument.
Definition task_of_number (n : Z) : option ProtoEmbeddingTask :=
  match n with 0 => Some PTaskUnspecified | 1 => Some PQuery | 2 => Some PDocument | _ => None end%Z.
Inductive ProtoTruncation := PTruncationUnspecified | PReject | PTruncate.
Definition truncation_of_number (n : Z) : option ProtoTruncation :=
  match n with 0 => Some PTruncationUnspecified | 1 => Some PReject | 2 => Some PTruncate | _ => None end%Z.

Record PublicErrorDetail := mk_PublicErrorDetail { d_code : N; d_retryability : N; d_message : string }.
Record EmbedRequest := mk_EmbedRequest {
  q_model : string; q_input : list string; q_task : Z; q_truncation : Z; q_dimensions : option N; q_normalize : option bool }.
Record EmbedResponse := mk_EmbedResponse {
  a_embeddings : list (list f32); a_model : option ResolvedModelIdentity; a_usage : option (N * N * list N) }.

(** [proto_error_code], [proto_retryability], [public_error_detail], [grpc_status_code] *)
Definition proto_error_code (c : ErrorCode) : ProtoErrorCode :=
  match c with
  | InvalidRequest => EInvalidRequest | ModelUnavailable => EModelUnavailable | QueueFull => EQueueFull
  | Cancelled => ECancelled | DeadlineExceeded => EDeadlineExceeded | InferenceFailed => EInferenceFailed | Internal => EInternal
  end.
Definition proto_retryability (r : Retryability) : ProtoRetryability :=
  match r with Never => RNever | Retryable => RRetryable | Unknown => RUnknown end.
Definition public_error_detail (e : PublicError) : PublicErrorDetail :=
  mk_PublicErrorDetail (error_code_number (proto_error_code (pe_code e)))
    (retryability_number (proto_retryability (pe_retryability e))) (pe_message e).
Definition grpc_status_code (c : ErrorCode) : Code :=
  match c with
  | InvalidRequest => InvalidArgument
  | ModelUnavailable => Unavailable
  | QueueFull => ResourceExhausted
  | Cancelled => CodeCancelled
  | DeadlineExceeded => CodeDeadlineExceeded
  | InferenceFailed | Internal => CodeInternal
  end.

(** [tonic::Status] *)
Record Status := mk_Status { st_code : Code; st_message : string; st_details : string }.

(** [prost]: the encoding of the detail message. *)
Class ProstCrate := { encode_to_vec : PublicErrorDetail → string }.

Section grpc.
Context {P : ProstCrate} {H : HttpCrate} (s : Service.AppState).

(** [status_for_public], [status_for_application], [invalid_request_status] *)
Definition status_for_public (e : PublicError) : Status :=
  mk_Status (grpc_status_code (pe_code e)) (pe_message e) (encode_to_vec (public_error_detail e)).
Definition status_for_application (e : ApplicationError) : Status := status_for_public (ae_public e).
Definition invalid_request_status : Status := status_for_public (for_code InvalidRequest).
Definition unauthenticated : Status := mk_Status Unauthenticated "authentication required" "".

(** * The interceptor *)

(** [authorize] *)
Definition authorize (metadata : HeaderMap) : result Status unit :=
  if contains_key metadata AUTHORIZATION_BIN then Err unauthenticated else
  match get_all metadata AUTHORIZATION with
  | _ :: _ :: _ => Err unauthenticated
  | [] => if Service.public_auth_required s then Err unauthenticated else Ok tt
  | [value] =>
    let? value := ok_or (to_str value) unauthenticated in
    match strip_prefix "Bearer " value with
    | None => Err unauthenticated
    | Some token =>
      if str_is_empty token || (Service.public_auth_required s && negb (Service.verify_public_token s token))
      then Err unauthenticated else Ok tt
    end
  end.

(** * The caller's timeout *)

(** [value.split_at(value.len() - 1)] of a text of ASCII characters. *)
Fixpoint split_last (v : string) : option (string * ascii) :=
  match v with
  | EmptyString => None
  | String c EmptyString => Some (EmptyString, c)
  | String c v => match split_last v with Some (a, b) => Some (String c a, b) | None => None end
  end.

(** The units. *)
Definition duration_of (amount : N) (unit : ascii) : option N :=
  if Ascii.eqb unit "H" then Some (from_secs (saturating_mul u64_max amount (60 * 60))) else
  if Ascii.eqb unit "M" then Some (from_secs (saturating_mul u64_max amount 60)) else
  if Ascii.eqb unit "S" then Some (from_secs amount) else
  if Ascii.eqb unit "m" then Some (from_millis amount) else
  if Ascii.eqb unit "u" then Some (from_micros amount) else
  if Ascii.eqb unit "n" then Some (from_nanos amount) else None.

(** [parse_grpc_timeout] *)
Definition parse_grpc_timeout (metadata : HeaderMap) : result Status (option N) :=
  if contains_key metadata GRPC_TIMEOUT_BIN then Err invalid_request_status else
  match get_all metadata GRPC_TIMEOUT with
  | [] => Ok None
  | _ :: _ :: _ => Err invalid_request_status
  | [value] =>
    let? value := ok_or (to_str value) invalid_request_status in
    if ((str_len value <? 2) || (9 <? str_len value))%N then Err invalid_request_status else
    let? '(digits, unit) := ok_or (split_last value) invalid_request_status in
    if (8 <? str_len digits)%N || negb (str_forall is_ascii_digit digits) then Err invalid_request_status else
    let? amount := ok_or (parse_unsigned u64_max digits) invalid_request_status in
    let? duration := ok_or (duration_of amount unit) invalid_request_status in
    Ok (Some duration)
  end.

(** [effective_timeout] *)
Definition effective_timeout (caller : option N) (server : N) : N := N.min (default server caller) server.

(** * The call *)

(** [decode_options] *)
Definition decode_options (q : EmbedRequest) : result Status EmbedOptions :=
  let? task := match task_of_number (q_task q) with
               | Some (PTaskUnspecified | PDocument) => Ok Document
               | Some PQuery => Ok Query
               | None => Err invalid_request_status
               end in
  let? truncation := match truncation_of_number (q_truncation q) with
                     | Some (PTruncationUnspecified | PReject) => Ok Reject
                     | Some PTruncate => Ok Truncate
                     | None => Err invalid_request_status
                     end in
  let? dimensions := match q_dimensions q with
                     | Some n => (let? d := ok_or (try_from usize_max n) invalid_request_status in Ok (Some d))
                     | None => Ok None
                     end in
  Ok (mk_EmbedOptions task truncation dimensions (q_normalize q)).

(** [encode_response] *)
Definition encode_response (o : EmbeddingOutput) : EmbedResponse :=
  mk_EmbedResponse (vectors o) (Some (out_model o))
    (Some (total_tokens (usage o), total_tokens (usage o), input_tokens (usage o))).

(** [EmbeddingService::embed].  The [DisconnectGuard] is armed while the embedding runs and
    when its error is returned, so both cancel the token; success disarms it. *)
Definition embed (metadata : HeaderMap) (q : EmbedRequest) : io (result Status EmbedResponse) :=
  let deadline_exceeded := Err (status_for_public (for_code DeadlineExceeded)) in
  match parse_grpc_timeout metadata with
  | Err e => Ret (Err e)
  | Ok caller_timeout =>
    if bool_decide (caller_timeout = Some 0%N) then Ret deadline_exceeded else
    match decode_options q with
    | Err e => Ret (Err e)
    | Ok options =>
      do! cancellation := ask NewToken in
      do! selected := guarded cancellation
        (EmbedWithin (Service.mk_EmbedCommand (q_model q) (q_input q) options cancellation caller_timeout)
           (effective_timeout caller_timeout (from_millis (Config.request_timeout (Service.limits s))))) in
      match selected with
      | Some (Ok output) => Ret (Ok (encode_response output))
      | Some (Err e) => do! _ := ask (Cancel cancellation) in Ret (Err (status_for_application e))
      | None => do! _ := ask (Cancel cancellation) in Ret deadline_exceeded
      end
    end
  end.

(** The service behind its interceptor. *)
Definition intercepted (metadata : HeaderMap) (q : EmbedRequest) : io (result Status EmbedResponse) :=
  match authorize metadata with Err e => Ret (Err e) | Ok _ => embed metadata q end.

(** * Health *)

(** [tonic_health::ServingStatus] of the whole server and of the service. *)
Inductive ServingStatus := Serving | NotServing.
Record Reporter := mk_Reporter { whole : ServingStatus; service : ServingStatus }.

(** [publish_health]: two updates; a client can see the state between them. *)
Definition publish_health (ready : bool) (r : Reporter) : list Reporter :=
  let status := if ready then Serving else NotServing in
  [mk_Reporter status (service r); mk_Reporter status status].

(** What [track_health] waits for: a stop wins over a tick. *)
Inductive HealthEvent := Tick (ready : bool) | Stop.

(** The loop of [track_health]: every state of the reporter, in order. *)
Fixpoint track_from (last_ready : bool) (r : Reporter) (events : list HealthEvent) : list Reporter :=
  match events with
  | [] => []
  | Stop :: _ => publish_health false r
  | Tick ready :: events =>
    if Bool.eqb ready last_ready then track_from last_ready r events
    else publish_health ready r ++ track_from ready (mk_Reporter (if ready then Serving else NotServing)
                                                       (if ready then Serving else NotServing)) events
  end.
(** [track_health]; [started] is the readiness its task reads first. *)
Definition track_health (started : bool) (r : Reporter) (events : list HealthEvent) : list Reporter := track_from started r events.

(** * The handle *)

Inductive GrpcServerError := Reflection | ETransport | Join | ShutdownTimeout.

(** [Display for GrpcServerError] *)
Definition GrpcServerError_display (e : GrpcServerError) : string :=
  match e with
  | Reflection => "gRPC reflection initialization failed"
  | ETransport => "gRPC transport failed"
  | Join => "gRPC transport task failed"
  | ShutdownTimeout => "gRPC shutdown timed out"
  end.

(** The transport task: still running, ended with a result, or lost. *)
Inductive Task (E : Type) := Running | Ended (r : result E unit) | Lost | Aborted.
#[global] Arguments Running {E}.
#[global] Arguments Ended {E} r.
#[global] Arguments Lost {E}.
#[global] Arguments Aborted {E}.
Definition running {E} (t : option (Task E)) : bool := match t with Some Running => true | _ => false end.

Record GrpcServerHandle := mk_GrpcServerHandle {
  local_addr : Std.SocketAddr; shutdown_timeout : N; stop_sent : bool; join : option (Task GrpcServerError) }.

(** [GrpcServerHandle::is_finished] *)
Definition is_finished (h : GrpcServerHandle) : bool :=
  match join h with None => true | Some Running => false | Some _ => true end.

(** [GrpcServerHandle::shutdown]: [within] is what the task is when it ends or the timeout
    passes.  The result, the task, and whether it was told to stop. *)
Definition handle_shutdown (within : Task GrpcServerError) (h : GrpcServerHandle)
    : result GrpcServerError unit * option (Task GrpcServerError) * bool :=
  match join h with
  | None => (Ok tt, None, true)
  | Some _ =>
    match within with
    | Ended r => (r, Some within, true)
    | Lost | Aborted => (Err Join, Some within, true)
    | Running => (Err ShutdownTimeout, Some Aborted, true)
    end
  end.

(** [Drop for GrpcServerHandle] *)
Definition drop_handle (h : GrpcServerHandle) : GrpcServerHandle :=
  mk_GrpcServerHandle (local_addr h) (shutdown_timeout h) true
    (match join h with Some Running => Some Aborted | t => t end).

(** [spawn_grpc_server]: the address of the listener, whether the reflection service could be
    built, and the readiness that is published before the task exists. *)
Definition spawn_grpc_server (address : option Std.SocketAddr) (reflection ready : bool) (r : Reporter)
    : result GrpcServerError GrpcServerHandle * list Reporter :=
  match address with
  | None => (Err ETransport, [])
  | Some a =>
    (if reflection
     then Ok (mk_GrpcServerHandle a (from_millis (Config.shutdown_timeout (Service.limits s))) false (Some Running))
     else Err Reflection, publish_health ready r)
  end.

(** * Timeouts *)

(** One unit in nanoseconds. *)
Definition unit_nanos (unit : ascii) : option N :=
  if Ascii.eqb unit "H" then Some 3600000000000%N else
  if Ascii.eqb unit "M" then Some 60000000000%N else
  if Ascii.eqb unit "S" then Some 1000000000%N else
  if Ascii.eqb unit "m" then Some 1000000%N else
  if Ascii.eqb unit "u" then Some 1000%N else
  if Ascii.eqb unit "n" then Some 1%N else None.
(** The number a text of digits writes. *)
Fixpoint numeral (acc : N) (s : string) : N :=
  match s with EmptyString => acc | String c s => numeral (acc * 10 + (byte_val c - 48)) s end.

Lemma digit_bound c : is_ascii_digit c = true → (byte_val c - 48 <= 9)%N.
Proof. unfold is_ascii_digit, in_range. intros H1. inv_bool. lia. Qed.

Lemma numeral_bound d : ∀ acc, str_forall is_ascii_digit d = true →
  (acc * 10 ^ str_len d <= numeral acc d < (acc + 1) * 10 ^ str_len d)%N.
Proof.
  induction d as [|c d IH]; intros acc Hd; cbn [numeral].
  - change (10 ^ str_len "")%N with 1%N. lia.
  - cbn in Hd. apply andb_prop in Hd as [Hc Hd]. specialize (IH (acc * 10 + (byte_val c - 48))%N Hd).
    apply digit_bound in Hc. assert (str_len (String c d) = N.succ (str_len d)) as -> by (unfold str_len; cbn [String.length]; lia).
    rewrite N.pow_succ_r by lia. nia.
Qed.

Lemma parse_digits_numeral max d : ∀ acc,
  str_forall is_ascii_digit d = true → ((acc + 1) * 10 ^ str_len d <= max)%N → parse_digits max acc d = Some (numeral acc d).
Proof.
  induction d as [|c d IH]; intros acc Hd Hm; cbn [parse_digits numeral]; [done|].
  cbn in Hd. apply andb_prop in Hd as [Hc Hd]. rewrite Hc. apply digit_bound in Hc.
  assert (str_len (String c d) = N.succ (str_len d)) as Hlen by (unfold str_len; cbn [String.length]; lia).
  rewrite Hlen, N.pow_succ_r in Hm by lia. pose proof (N.pow_nonzero 10 (str_len d) ltac:(done)).
  rewrite (proj2 (checked_mul_Some _ _ _ (acc * 10)%N)) by (split; [done|nia]). cbn [mbind option_bind].
  rewrite (proj2 (checked_add_Some _ _ _ (acc * 10 + (byte_val c - 48))%N)) by (split; [done|nia]). cbn [mbind option_bind].
  apply IH; [done|]. nia.
Qed.

Lemma split_last_app d c : split_last (d +:+ String c EmptyString) = Some (d, c).
Proof.
  induction d as [|x [|y d] IH]; [done|done|].
  change (match split_last (String y d +:+ String c "") with Some (a, b) => Some (String x a, b) | None => None end = Some (String x (String y d), c)).
  by rewrite IH.
Qed.

Lemma split_last_Some v d c : split_last v = Some (d, c) → v = d +:+ String c EmptyString.
Proof.
  revert d. induction v as [|x [|y v] IH]; intros d; [done|by intros [= <- ->]|].
  change (match split_last (String y v) with Some (a, b) => Some (String x a, b) | None => None end = Some (d, c) →
    String x (String y v) = d +:+ String c "").
  destruct (split_last (String y v)) as [[a b]|]; [|done]. intros [= <- ->]. by rewrite (IH a eq_refl).
Qed.

(** The header value [digits unit] that stands for [d] nanoseconds. *)
Definition writes (v : string) (d : N) : Prop :=
  ∃ digits unit u, v = digits +:+ String unit EmptyString ∧ (1 <= str_len digits <= 8)%N ∧
    str_forall is_ascii_digit digits = true ∧ unit_nanos unit = Some u ∧ d = (numeral 0 digits * u)%N.

Lemma duration_of_unit n unit :
  (n < 100000000)%N → duration_of n unit = (λ u, (n * u)%N) <$> unit_nanos unit.
Proof.
  intros Hn. unfold duration_of, unit_nanos, saturating_mul, from_secs, from_millis, from_micros, from_nanos, u64_max.
  repeat (destruct (Ascii.eqb unit _); [cbn [fmap option_fmap option_map]; f_equal; lia|]). done.
Qed.

Lemma parse_value_spec v d :
  (if ((str_len v <? 2) || (9 <? str_len v))%N then Err invalid_request_status else
   let? '(digits, unit) := ok_or (split_last v) invalid_request_status in
   if (8 <? str_len digits)%N || negb (str_forall is_ascii_digit digits) then Err invalid_request_status else
   let? amount := ok_or (parse_unsigned u64_max digits) invalid_request_status in
   let? duration := ok_or (duration_of amount unit) invalid_request_status in
   Ok (Some duration)) = Ok (Some d) ↔ writes v d.
Proof.
  assert (∀ digits, (1 <= str_len digits <= 8)%N → str_forall is_ascii_digit digits = true →
    parse_unsigned u64_max digits = Some (numeral 0 digits) ∧ (numeral 0 digits < 100000000)%N) as Hnum.
  { intros digits Hl Hd. assert (10 ^ str_len digits <= 10 ^ 8)%N as Hp by (apply N.pow_le_mono_r; lia).
    pose proof (numeral_bound digits 0 Hd). change (10 ^ 8)%N with 100000000%N in Hp. split; [|lia].
    unfold parse_unsigned. destruct digits as [|c r]; [by destruct Hl|]. pose proof Hd as Hc. cbn in Hc. apply andb_prop in Hc as [Hc _].
    destruct (Ascii.eqb_spec c "+") as [->|_]; [done|]. cbn [str_is_empty]. apply parse_digits_numeral; [done|]. unfold u64_max. lia. }
  assert (∀ digits c, str_len (digits +:+ String c "") = (str_len digits + 1)%N) as Hlen by (intros; by rewrite str_len_app).
  split.
  - destruct (_ || _) eqn:Hg; [done|]. inv_bool. destruct (split_last v) as [[digits unit]|] eqn:Hs; [|done].
    apply split_last_Some in Hs as ->. rewrite Hlen in *. cbn [ok_or result_bind]. destruct (_ || _) eqn:Hg2; [done|]. inv_bool.
    destruct (Hnum digits ltac:(lia) ltac:(done)) as [-> Hb]. cbn [ok_or result_bind]. rewrite duration_of_unit by done.
    destruct (unit_nanos unit) as [u|] eqn:Hu; [|done]. cbn. intros [= <-]. exists digits, unit, u. split_and!; done || lia.
  - intros (digits & unit & u & -> & Hl & Hd & Hu & ->). rewrite Hlen.
    rewrite (proj2 (N.ltb_ge _ _)), (proj2 (N.ltb_ge _ _)) by lia. cbn [orb]. rewrite split_last_app. cbn [ok_or result_bind].
    rewrite (proj2 (N.ltb_ge _ _)) by lia. rewrite Hd. cbn [orb negb].
    destruct (Hnum digits Hl Hd) as [-> Hb]. cbn [ok_or result_bind]. by rewrite duration_of_unit, Hu.
Qed.

(** C31: A request has a timeout exactly when it has a single [grpc-timeout] value of visible
    text that is one to eight digits followed by one of the six units, and no binary
    variant; its duration is then the number times the unit, never saturated.  Without the
    header there is no timeout, and anything else is refused with the fixed status of an
    invalid request. *)
Theorem grpc_timeout_exact metadata :
  (∀ d, parse_grpc_timeout metadata = Ok (Some d) ↔
     get_all metadata GRPC_TIMEOUT_BIN = [] ∧ ∃ v, get_all metadata GRPC_TIMEOUT = [v] ∧ is_Some (to_str v) ∧ writes v d) ∧
  (parse_grpc_timeout metadata = Ok None ↔ get_all metadata GRPC_TIMEOUT_BIN = [] ∧ get_all metadata GRPC_TIMEOUT = []) ∧
  (∀ e, parse_grpc_timeout metadata = Err e → e = invalid_request_status) ∧
  (∀ d, parse_grpc_timeout metadata = Ok (Some d) → (d <= 359999996400000000000)%N).
Proof.
  unfold parse_grpc_timeout. destruct (contains_key metadata GRPC_TIMEOUT_BIN) eqn:Hbin.
  { assert (get_all metadata GRPC_TIMEOUT_BIN ≠ []) by (intros Hx%contains_key_get_all; congruence). split_and!; [intros d; split; [done|by intros []]|split; [done|by intros []]|congruence|done]. }
  apply contains_key_get_all in Hbin. rewrite Hbin. clear Hbin. destruct (get_all metadata GRPC_TIMEOUT) as [|v [|v' l]].
  { split_and!; [intros d; split; [done|by intros (_ & ? & ? & _)]|done|done|done]. }
  2: { split_and!; [intros d; split; [done|by intros (_ & ? & ? & _)]|split; [done|by intros []]|congruence|done]. }
  destruct (to_str v) as [t|] eqn:Ht; cbn [ok_or result_bind].
  2: { split_and!; [|split; [done|by intros []]|congruence|done]. intros d. split; [done|]. intros (_ & v' & [= <-] & [t Hc] & _). congruence. }
  pose proof (to_str_text _ _ Ht) as ->. setoid_rewrite parse_value_spec. split_and!.
  - intros d. split; [intros Hw; split; [done|]; exists v; split_and!; [done|by eexists|done]|]. by intros (_ & v' & [= <-] & _ & Hw).
  - split; [|naive_solver]. intros Hx. destruct (_ || _); [done|]. inv_result. destruct x as [a b]. inv_result. done.
  - intros e Hx. repeat case_match; simplify_eq/=; try done.
    destruct (split_last v) as [[a b]|]; cbn in Hx; [|congruence]. destruct (_ || _) in Hx; [congruence|].
    destruct (parse_unsigned _ _); cbn in Hx; [|congruence]. destruct (duration_of _ _); cbn in Hx; congruence.
  - intros d (digits & unit & u & _ & Hl & Hd & Hu & ->). pose proof (numeral_bound digits 0 Hd) as Hb.
    assert (10 ^ str_len digits <= 10 ^ 8)%N as Hp by (apply N.pow_le_mono_r; lia). change (10 ^ 8)%N with 100000000%N in Hp.
    assert (u <= 3600000000000)%N; [|nia]. unfold unit_nanos in Hu. repeat case_match; simplify_eq; lia.
Qed.

(** * The boundary *)

(** The credential, or without one any well-formed bearer header. *)
Definition grpc_authorized (metadata : HeaderMap) : Prop :=
  get_all metadata AUTHORIZATION_BIN = [] ∧
  match Service.public_credential s with
  | Some secret => get_all metadata AUTHORIZATION = ["Bearer " +:+ Security.secret_bytes secret]
  | None => get_all metadata AUTHORIZATION = [] ∨ ∃ token, token ≠ "" ∧ get_all metadata AUTHORIZATION = ["Bearer " +:+ token]
  end.

Lemma authorize_Ok metadata : authorize metadata = Ok tt → grpc_authorized metadata.
Proof.
  unfold authorize, grpc_authorized, Service.public_auth_required, Service.verify_public_token.
  destruct (contains_key metadata AUTHORIZATION_BIN) eqn:Hb; [done|]. apply contains_key_get_all in Hb as ->.
  destruct (get_all metadata AUTHORIZATION) as [|v [|v' l]]; [| |done].
  - destruct (Service.public_credential s); [done|]. intros _. split; [done|]. by left.
  - destruct (to_str v) as [t|] eqn:Ht; cbn [ok_or result_bind]; [|done]. apply to_str_text in Ht as ->.
    destruct (strip_prefix "Bearer " v) as [token|] eqn:Hp; [|done]. apply Security.strip_prefix_Some in Hp as ->.
    destruct (str_is_empty token) eqn:He; [done|]. destruct (Service.public_credential s) as [secret|]; simpl.
    + destruct (Security.verify secret token) eqn:Hv; [|done]. apply Security.verify_spec in Hv as ->. done.
    + intros _. split; [done|]. right. exists token. split; [|done]. by intros ->.
Qed.

(** What the adapter asks for a request. *)
Definition grpc_call (metadata : HeaderMap) (q : EmbedRequest) (c : Call) : Prop :=
  match c with
  | NewToken | Cancel _ => True
  | EmbedWithin cmd timer =>
    Service.model cmd = q_model q ∧ Service.input cmd = q_input q ∧ decode_options q = Ok (Service.options cmd) ∧
    parse_grpc_timeout metadata = Ok (Service.timeout cmd) ∧ Service.timeout cmd ≠ Some 0%N ∧
    (timer <= from_millis (Config.request_timeout (Service.limits s)))%N ∧
    (∀ own, Service.timeout cmd = Some own → (timer <= own)%N)
  | _ => False
  end.

(** How a request ends: a success leaves the token alone, a failure cancels it. *)
Definition grpc_trace (cs : list Call) (r : result Status EmbedResponse) : Prop :=
  match r with
  | Ok _ => ∃ cmd timer, cs = [NewToken; EmbedWithin cmd timer]
  | Err _ => cs = [] ∨ ∃ cmd timer, cs = [NewToken; EmbedWithin cmd timer; Cancel (Service.cancellation cmd)]
  end.

Lemma embed_calls metadata q : spec (grpc_call metadata q) (λ _, True) (embed metadata q) ∧ drop_safe (embed metadata q).
Proof.
  unfold embed. destruct (parse_grpc_timeout metadata) as [own|] eqn:Hp; [|done]. case_bool_decide as Hz; [done|].
  destruct (decode_options q) as [o|] eqn:Ho; [|done]. split.
  - simpl. split; [done|]. intros t. split; [|by intros [[]|]]. split_and!; try done.
    + unfold effective_timeout. lia.
    + intros n ->. unfold effective_timeout. simpl. lia.
  - simpl. split; [done|]. intros t. split; [by left|]. by intros [[]|].
Qed.

Lemma embed_trace metadata q cs r : exec (embed metadata q) cs r → grpc_trace cs r.
Proof.
  unfold embed. destruct (parse_grpc_timeout metadata) as [own|] eqn:Hp; [|by intros [-> ->]%exec_Ret; left].
  case_bool_decide; [by intros [-> ->]%exec_Ret; left|].
  destruct (decode_options q) as [o|]; [|by intros [-> ->]%exec_Ret; left].
  cbn [bind ask guarded]. intros (t & cs1 & -> & (x & cs2 & -> & Hx)%exec_Ask)%exec_Ask.
  destruct x as [[out|e]|]; cbn [bind ask] in Hx.
  - apply exec_Ret in Hx as [-> ->]. by eexists _, _.
  - apply exec_Ask in Hx as ([] & cs3 & -> & [-> ->]%exec_Ret). right. exists (Service.mk_EmbedCommand (q_model q) (q_input q) o t own). by eexists.
  - apply exec_Ask in Hx as ([] & cs3 & -> & [-> ->]%exec_Ret). right. exists (Service.mk_EmbedCommand (q_model q) (q_input q) o t own). by eexists.
Qed.

(** C16: A gRPC request reaches the application only with the public credential in exactly one
    textual authorization entry (without a configured credential the entry may be missing,
    but a malformed one is refused too), and then makes at most one embedding: of its model
    and inputs, with its decoded options and its own non-zero timeout, under a timer that
    neither exceeds the server's timeout nor the caller's.  A dropped request cancels the
    embedding, and so does every failure and the timer; only a success leaves the token
    alone. *)
Theorem grpc_boundary metadata q :
  spec (λ c, grpc_authorized metadata ∧ grpc_call metadata q c) (λ _, True) (intercepted metadata q) ∧
  drop_safe (intercepted metadata q) ∧ ∀ cs r, exec (intercepted metadata q) cs r → grpc_trace cs r.
Proof.
  unfold intercepted. destruct (authorize metadata) as [[]|e] eqn:Ha.
  - apply authorize_Ok in Ha. destruct (embed_calls metadata q). split_and!; [|done|apply embed_trace].
    by eapply spec_mono.
  - split_and!; [done|done|]. intros cs r [-> ->]%exec_Ret. by left.
Qed.

(** * Health *)

Definition reporting (ready : bool) : Reporter :=
  let status := if ready then Serving else NotServing in mk_Reporter status status.
(** The reporter after a list of updates. *)
Definition reported (r : Reporter) (l : list Reporter) : Reporter := default r (last l).

Lemma reported_app r l k : reported r (l ++ k) = reported (reported r l) k.
Proof. unfold reported. rewrite last_app. by destruct (last k). Qed.

Lemma track_ticks last_ready ticks rest :
  track_from last_ready (reporting last_ready) ((Tick <$> ticks) ++ rest) =
  track_from last_ready (reporting last_ready) (Tick <$> ticks) ++
    track_from (default last_ready (last ticks)) (reporting (default last_ready (last ticks))) rest ∧
  reported (reporting last_ready) (track_from last_ready (reporting last_ready) (Tick <$> ticks)) =
    reporting (default last_ready (last ticks)).
Proof.
  revert last_ready. induction ticks as [|b ticks IH]; intros a; [done|]. cbn [fmap list_fmap app track_from].
  assert (default a (last (b :: ticks)) = default b (last ticks)) as -> by (rewrite last_cons; by destruct (last ticks)).
  destruct (Bool.eqb b a) eqn:Hb.
  - apply Bool.eqb_prop in Hb as ->. apply IH.
  - destruct (IH b) as [H1 H2]. change (mk_Reporter _ _) with (reporting b). rewrite H1, <-app_assoc. split; [done|].
    rewrite reported_app. exact H2.
Qed.

(** C32: As long as the task that watches readiness starts from the published state, the health
    service always reports the readiness seen last, for the server and for the service alike,
    although only changes are published; and once it is told to stop it ends with both not
    serving.  But the task reads readiness anew without publishing it: when readiness changes
    between the publication before the spawn and that read, the published state stays stale
    for as long as readiness keeps the new value. *)
Theorem grpc_health_tracks ready ticks rest :
  reported (reporting ready) (track_health ready (reporting ready) (Tick <$> ticks)) = reporting (default ready (last ticks)) ∧
  reported (reporting ready) (track_health ready (reporting ready) ((Tick <$> ticks) ++ Stop :: rest)) = reporting false ∧
  ∀ n, reported (reporting (negb ready)) (track_health ready (reporting (negb ready)) (replicate n (Tick ready))) = reporting (negb ready).
Proof.
  destruct (track_ticks ready ticks (Stop :: rest)) as [H1 H2]. split_and!; [exact H2| |].
  - unfold track_health. rewrite H1, reported_app. done.
  - intros n. unfold track_health. induction n as [|n IH]; [done|]. cbn [replicate track_from]. by rewrite Bool.eqb_reflx.
Qed.

End grpc.

(** * Witnesses *)

Definition SampleProst : ProstCrate := {| encode_to_vec d := d_message d |}.
Definition sample_metadata : HeaderMap := [("grpc-timeout", "250m"); ("authorization", "Bearer secret")].
Definition sample_request : EmbedRequest := mk_EmbedRequest "alias" ["hello"] 1 0 None (Some true).

Lemma grpc_timeout_exact_witness :
  parse_grpc_timeout (P := SampleProst) (H := Http.SampleHttp) sample_metadata = Ok (Some 250000000%N).
Proof.
  apply (proj1 (grpc_timeout_exact (P := SampleProst) (H := Http.SampleHttp) sample_metadata)).
  split; [reflexivity|]. exists "250m". split; [reflexivity|]. split; [by eexists|].
  exists "250", "m"%char, 1000000%N. split_and!; (done || vm_compute; congruence).
Defined.

Lemma grpc_boundary_witness :
  grpc_trace (run refusing (intercepted (P := SampleProst) (H := Http.SampleHttp) Http.sample_served sample_metadata sample_request)).1
    (run refusing (intercepted (P := SampleProst) (H := Http.SampleHttp) Http.sample_served sample_metadata sample_request)).2 ∧
  length (run refusing (intercepted (P := SampleProst) (H := Http.SampleHttp) Http.sample_served sample_metadata sample_request)).1 = 3%nat.
Proof.
  split; [|vm_compute; reflexivity].
  apply (proj2 (proj2 (grpc_boundary (P := SampleProst) (H := Http.SampleHttp) Http.sample_served sample_metadata sample_request))).
  apply run_exec.
Defined.

End Grpc.
