(* ===== verification/Process.v ===== *)
(** The process host ([crates/impossible-server/src/process.rs]): assembly of the state, the
    two listeners, the preload and the transports; the wait for a signal; and the one bounded
    shutdown path.  What the operating system, the application and the transport tasks answer
    is given; what the host does in between is a log. *)

From Stdlib Require Import NArith Lia.
From stdpp Require Import base strings list sets.
From S2P Require Import Prelude Core Std Config Catalog Application Service Transport Http Grpc.
Import Catalog Grpc.

Local Open Scope string_scope.
Local Open Scope list_scope.
Local Open Scope rust_scope.

Module Process.

Inductive ProcessError :=
| ApplicationState (e : Service.AppStateError)
| HttpBind
| GrpcBind
| EPreload (e : ApplicationError)
| HttpTransport
| HttpJoin
| EGrpc (e : GrpcServerError)
| ESignal
| UnexpectedTransportStop
| HostShutdownTimeout.

(** [Display for ProcessError] *)
Definition ProcessError_display (e : ProcessError) : string :=
  match e with
  | ApplicationState _ => "server initialization failed"
  | HttpBind => "HTTP listener could not be bound"
  | GrpcBind => "gRPC listener could not be bound"
  | EPreload _ => "configured model preload failed"
  | HttpTransport => "HTTP transport failed"
  | HttpJoin => "HTTP transport task failed"
  | EGrpc _ => "gRPC transport failed"
  | ESignal => "shutdown signal handling failed"
  | UnexpectedTransportStop => "a server transport stopped unexpectedly"
  | HostShutdownTimeout => "server shutdown exceeded its deadline"
  end.

(** What the host does to the world, in order.  A listener is closed when it is dropped. *)
Inductive HostEvent :=
| BindHttp | BindGrpc | CloseHttp | CloseGrpc | RunPreload | ShutdownApplication | StartGrpc | StartHttp.
#[global] Instance HostEvent_eq_dec : EqDecision HostEvent.
Proof. solve_decision. Defined.

(** The listeners that are open after a log: HTTP and gRPC. *)
Fixpoint open_after (o : bool * bool) (log : list HostEvent) : bool * bool :=
  match log with
  | [] => o
  | BindHttp :: log => open_after (true, o.2) log
  | BindGrpc :: log => open_after (o.1, true) log
  | CloseHttp :: log => open_after (false, o.2) log
  | CloseGrpc :: log => open_after (o.1, false) log
  | _ :: log => open_after o log
  end.

(** [struct ServerHost] *)
Record ServerHost := mk_ServerHost {
  host_state : Service.AppState;
  http_addr : SocketAddr;
  grpc_addr : SocketAddr;
  host_shutdown_timeout : N;
  http : option (Task ProcessError);
  grpc : option GrpcServerHandle;
  preload_report : list Application.PreloadOutcome;
  triggered : bool;
}.

(** * Starting *)

(** The answers [start] gets: the state, the two binds and the addresses of the listeners, the
    preload, and what the gRPC server needs. *)
Record StartEnv := mk_StartEnv {
  app_state : result Service.AppStateError Service.AppState;
  http_bound : bool;
  http_local : option SocketAddr;
  grpc_bound : bool;
  grpc_local : option SocketAddr;
  preloaded : result ApplicationError (list Application.PreloadOutcome);
  grpc_listener_local : option SocketAddr;
  reflection : bool;
  ready : bool;
  reporter : Reporter;
}.

(** [ServerHost::start] *)
Definition start (e : StartEnv) : result ProcessError ServerHost * list HostEvent :=
  match app_state e with
  | Err err => (Err (ApplicationState err), [])
  | Ok state =>
    if negb (http_bound e) then (Err HttpBind, []) else
    match http_local e with
    | None => (Err HttpBind, [BindHttp; CloseHttp])
    | Some http_addr =>
      if negb (grpc_bound e) then (Err GrpcBind, [BindHttp; CloseHttp]) else
      match grpc_local e with
      | None => (Err GrpcBind, [BindHttp; BindGrpc; CloseGrpc; CloseHttp])
      | Some grpc_addr =>
        match preloaded e with
        | Err err => (Err (EPreload err), [BindHttp; BindGrpc; RunPreload; ShutdownApplication; CloseGrpc; CloseHttp])
        | Ok report =>
          match (spawn_grpc_server state (grpc_listener_local e) (reflection e) (ready e) (reporter e)).1 with
          | Err err => (Err (EGrpc err), [BindHttp; BindGrpc; RunPreload; CloseGrpc; CloseHttp])
          | Ok server =>
            (Ok (mk_ServerHost state http_addr grpc_addr (from_millis (Config.shutdown_timeout (Service.limits state)))
                   (Some Running) (Some server) report false),
             [BindHttp; BindGrpc; RunPreload; StartGrpc; StartHttp])
          end
        end
      end
    end
  end.

(** * Stopping *)

(** [finish_http]: the result and the task afterwards; [within] is the task when it ends or
    the timeout passes. *)
Definition finish_http (task : option (Task ProcessError)) (within : Task ProcessError)
    : result ProcessError unit * option (Task ProcessError) :=
  match task with
  | None => (Ok tt, None)
  | Some _ =>
    match within with
    | Ended r => (r, Some within)
    | Lost | Aborted => (Err HttpJoin, Some within)
    | Running => (Err HostShutdownTimeout, Some Aborted)
    end
  end.

(** [finish_grpc] *)
Definition finish_grpc (server : option GrpcServerHandle) (within : Task GrpcServerError)
    : result ProcessError unit * option (Task GrpcServerError) :=
  match server with
  | None => (Ok tt, None)
  | Some h => let '(r, t, _) := handle_shutdown within h in (map_err EGrpc r, t)
  end.

(** How the three things that are joined end. *)
Record Ending := mk_Ending { drained : bool; http_within : Task ProcessError; grpc_within : Task GrpcServerError }.

(** [ServerHost::shutdown]: the result, the host with its handles taken, and the two tasks
    afterwards. *)
Definition shutdown (e : Ending) (h : ServerHost)
    : result ProcessError unit * ServerHost * (option (Task ProcessError) * option (Task GrpcServerError)) :=
  let '(http_result, http_task) := finish_http (http h) (http_within e) in
  let '(grpc_result, grpc_task) := finish_grpc (grpc h) (grpc_within e) in
  (let? _ := http_result in
   let? _ := grpc_result in
   if drained e then Ok tt else Err HostShutdownTimeout,
   mk_ServerHost (host_state h) (http_addr h) (grpc_addr h) (host_shutdown_timeout h) None None (preload_report h) true,
   (http_task, grpc_task)).

(** [Drop for ServerHost] *)
Definition drop_host (h : ServerHost) : ServerHost :=
  mk_ServerHost (host_state h) (http_addr h) (grpc_addr h) (host_shutdown_timeout h)
    (match http h with Some Running => Some Aborted | t => t end) (drop_handle <$> grpc h) (preload_report h) true.

(** What [run_until_signal] sees: the signal future, or a poll of the transports after 50 ms. *)
Inductive RunEvent := SignalReceived (r : result ProcessError unit) | Polled (http_finished grpc_finished : bool).

(** The loop: whether the end was unexpected; [None] while it waits. *)
Fixpoint wait_signal (events : list RunEvent) : option (result ProcessError bool) :=
  match events with
  | [] => None
  | SignalReceived (Ok _) :: _ => Some (Ok false)
  | SignalReceived (Err e) :: _ => Some (Err e)
  | Polled http_finished grpc_finished :: events => if http_finished || grpc_finished then Some (Ok true) else wait_signal events
  end.

(** [ServerHost::run_until_signal]: a failed signal drops the host. *)
Definition run_until_signal (events : list RunEvent) (e : Ending) (h : ServerHost) : option (result ProcessError unit) :=
  match wait_signal events with
  | None => None
  | Some (Err err) => Some (Err err)
  | Some (Ok unexpected) =>
    let result := (shutdown e h).1.1 in
    Some (if unexpected && is_ok result then Err UnexpectedTransportStop else result)
  end.

(** [shutdown_signal] (Unix): whether SIGTERM could be registered, and what comes first. *)
Definition shutdown_signal (registered : bool) (ctrl_c : option bool) : result ProcessError unit :=
  if negb registered then Err ESignal else
  match ctrl_c with
  | Some ok => if ok then Ok tt else Err ESignal
  | None => Ok tt
  end.

(** * All or nothing *)

Lemma failed (err : ProcessError) (log : list HostEvent) (p : ApplicationError → Prop) :
  (StartHttp ∉ log) → (StartGrpc ∉ log) → (ShutdownApplication ∉ log) →
  open_after (false, false) log = (false, false) → (∀ z, err ≠ EPreload z) →
  open_after (false, false) log = (false, false) ∧ (StartHttp ∉ log) ∧ (StartGrpc ∉ log) ∧
  (∀ x, err = EPreload x ↔ ShutdownApplication ∈ log ∧ p x).
Proof. intros H1 H2 H3 Ho He. split_and!; try done. intros x. split; [by intros ?%He|by intros [?%H3 _]]. Qed.

(** Assembly is all or nothing.  It succeeds only after both listeners were bound and the
    preload finished, in that order, and then starts the gRPC server before the HTTP server,
    both left running.  However it fails, no transport was started and both listeners are
    closed again, and after a failed preload the application was shut down. *)
Theorem start_all_or_nothing e :
  match start e with
  | (Ok h, log) =>
    log = [BindHttp; BindGrpc; RunPreload; StartGrpc; StartHttp] ∧ open_after (false, false) log = (true, true) ∧
    running (http h) = true ∧ (∃ g, grpc h = Some g ∧ is_finished g = false) ∧ triggered h = false ∧
    app_state e = Ok (host_state h) ∧ preloaded e = Ok (preload_report h)
  | (Err err, log) =>
    open_after (false, false) log = (false, false) ∧ (StartHttp ∉ log) ∧ (StartGrpc ∉ log) ∧
    (∀ x, err = EPreload x ↔ ShutdownApplication ∈ log ∧ preloaded e = Err x)
  end.
Proof.
  unfold start. destruct (app_state e) as [state|err] eqn:Hs; [|apply (failed _ _ (λ x, _ = Err x)); (done || set_solver)].
  destruct (http_bound e); cbn [negb]; [|apply (failed _ _ (λ x, _ = Err x)); (done || set_solver)].
  destruct (http_local e) as [ha|]; [|apply (failed _ _ (λ x, _ = Err x)); (done || set_solver)].
  destruct (grpc_bound e); cbn [negb]; [|apply (failed _ _ (λ x, _ = Err x)); (done || set_solver)].
  destruct (grpc_local e) as [ga|]; [|apply (failed _ _ (λ x, _ = Err x)); (done || set_solver)].
  destruct (preloaded e) as [report|err] eqn:Hp.
  2: { split_and!; [done|set_solver|set_solver|]. intros x. split; [intros [= ->]; set_solver|intros [_ [= ->]]; done]. }
  unfold spawn_grpc_server. destruct (grpc_listener_local e) as [a|]; [|apply (failed _ _ (λ x, _ = Err x)); (done || set_solver)].
  cbn [fst]. destruct (reflection e); [|apply (failed _ _ (λ x, _ = Err x)); (done || set_solver)].
  split_and!; try done. by eexists.
Qed.

(** The shutdown path succeeds exactly when the HTTP task, the gRPC task and the
    application all ended well, and whatever happens the shutdown was triggered, afterwards neither transport is
    still running and dropping the host has nothing left to do.  Waiting for a signal reports success only for a received signal followed by
    such a shutdown; a transport that stopped by itself is always reported as a failure. *)
Theorem shutdown_complete e h :
  (∃ g, grpc h = Some g ∧ is_Some (join g)) → is_Some (http h) →
  let '(r, h', (http_task, grpc_task)) := shutdown e h in
  (r = Ok tt ↔ http_within e = Ended (Ok tt) ∧ grpc_within e = Ended (Ok tt) ∧ drained e = true) ∧
  running http_task = false ∧ running grpc_task = false ∧ triggered h' = true ∧ drop_host h' = h' ∧
  ∀ events, run_until_signal events e h = Some (Ok tt) ↔ wait_signal events = Some (Ok false) ∧ r = Ok tt.
Proof.
  intros (g & Hg & [jt Hj]) [ht Hh].
  assert (∀ events, run_until_signal events e h = Some (Ok tt) ↔ wait_signal events = Some (Ok false) ∧ (shutdown e h).1.1 = Ok tt) as Hrun.
  { intros events. unfold run_until_signal. destruct (wait_signal events) as [[[]|]|]; [| |naive_solver|naive_solver].
    - split; [|naive_solver]. destruct (shutdown e h).1.1 as [[]|]; simpl; naive_solver.
    - split; [|by intros [_ ->]]. cbn [andb]. intros [= ->]. done. }
  revert Hrun. unfold shutdown, finish_http, finish_grpc, handle_shutdown. rewrite Hg, Hj, Hh.
  destruct (http_within e) as [|[[]|]| |], (grpc_within e) as [|[[]|]| |], (drained e); cbn; intros Hrun;
    (split_and!; [naive_solver|done..|exact Hrun]).
Qed.

(** * Witnesses *)

Definition sample_addr : SocketAddr := SocketAddr_new LOCALHOST_V6 8080.
Definition sample_host : ServerHost :=
  mk_ServerHost Http.sample_served sample_addr sample_addr 10 (Some Running)
    (Some (mk_GrpcServerHandle sample_addr 10 false (Some Running))) [] false.
Definition sample_ending : Ending := mk_Ending true (Ended (Ok tt)) (Ended (Ok tt)).

Lemma shutdown_complete_witness :
  (shutdown sample_ending sample_host).1.1 = Ok tt ∧
  run_until_signal [Polled false false; SignalReceived (Ok tt)] sample_ending sample_host = Some (Ok tt).
Proof.
  destruct (shutdown_complete sample_ending sample_host) as (H1 & _ & _ & _ & _ & H2).
  - eexists. split; [reflexivity|]. by eexists.
  - by eexists.
  - split; [by apply H1|]. apply H2. split; [reflexivity|]. by apply H1.
Defined.

End Process.
