(* ===== verification/Cli.v ===== *)
(** The command line ([crates/impossible-server/src/cli.rs]): how the options of the server
    reach the configuration loader, the four commands, and the HTTP client of the model
    commands.  The argument structures are what [clap] parsed. *)

From Stdlib Require Import NArith Lia Ascii.
From stdpp Require Import base strings list gmap sets.
From S2P Require Import Prelude Core Std Health Config Security Catalog Application Service Transport Mcp Http Grpc Process.
Import Config.

Local Open Scope string_scope.
Local Open Scope list_scope.
Local Open Scope rust_scope.

Module Cli.

Definition EXIT_FAILURE : N := 1.
Definition EXIT_USAGE : N := 2.
Definition EXIT_UNAVAILABLE : N := 3.
Definition EXIT_AUTH : N := 4.
Definition EXIT_REQUEST : N := 5.
Definition EXIT_SERVER : N := 6.
Definition MAX_CLIENT_RESPONSE_BYTES : N := 2 * 1024 * 1024.

(** * Arguments *)

(** [struct ConfigArgs]; paths are the strings they convert to. *)
Record ConfigArgs := mk_ConfigArgs {
  config : option string;
  http_bind : option string;
  grpc_bind : option string;
  allow_insecure_remote : bool;
  auth_env : option string;
  auth_file : option string;
  admin_auth_env : option string;
  admin_auth_file : option string;
  admin_api_enabled : option string;
  allowed_origins : option string;
  model_directories : option string;
  cache_directory : option string;
  preload_models : option string;
  offline : bool;
  startup_policy : option string;
  max_body_bytes : option string;
  max_input_bytes : option string;
  max_request_bytes : option string;
  max_items : option string;
  max_tokens : option string;
  max_queue_depth : option string;
  max_batch_items : option string;
  max_batch_tokens : option string;
  max_concurrency : option string;
  request_timeout_ms : option string;
  shutdown_timeout_ms : option string;
}.

(** [push_value], [push_path] *)
Definition push_value (name : string) (value : option string) : list string :=
  match value with Some v => [name; v] | None => [] end.
Definition push_flag (name : string) (set : bool) : list string := if set then [name] else [].

(** [ConfigArgs::configuration_arguments] *)
Definition configuration_arguments (a : ConfigArgs) : list string :=
  push_value "--http-bind" (http_bind a) ++
  push_value "--grpc-bind" (grpc_bind a) ++
  push_flag "--allow-insecure-remote" (allow_insecure_remote a) ++
  push_value "--auth-env" (auth_env a) ++
  push_value "--auth-file" (auth_file a) ++
  push_value "--admin-auth-env" (admin_auth_env a) ++
  push_value "--admin-auth-file" (admin_auth_file a) ++
  push_value "--admin-api-enabled" (admin_api_enabled a) ++
  push_value "--allowed-origins" (allowed_origins a) ++
  push_value "--model-directories" (model_directories a) ++
  push_value "--cache-directory" (cache_directory a) ++
  push_value "--preload-models" (preload_models a) ++
  push_flag "--offline" (offline a) ++
  push_value "--startup-policy" (startup_policy a) ++
  push_value "--max-body-bytes" (max_body_bytes a) ++
  push_value "--max-input-bytes" (max_input_bytes a) ++
  push_value "--max-request-bytes" (max_request_bytes a) ++
  push_value "--max-items" (max_items a) ++
  push_value "--max-tokens" (max_tokens a) ++
  push_value "--max-queue-depth" (max_queue_depth a) ++
  push_value "--max-batch-items" (max_batch_items a) ++
  push_value "--max-batch-tokens" (max_batch_tokens a) ++
  push_value "--max-concurrency" (max_concurrency a) ++
  push_value "--request-timeout-ms" (request_timeout_ms a) ++
  push_value "--shutdown-timeout-ms" (shutdown_timeout_ms a).

(** [ConfigArgs::load] with the process environment and the file system. *)
Definition load {U : UrlCrate} {T : TomlCrate} (file_at : string → FileTrace) (environment : list (string * string)) (a : ConfigArgs)
    : result ConfigError ServerConfig :=
  Config.load (file_at <$> config a) environment (configuration_arguments a).

(** [struct ClientArgs], [enum ModelCommand], [enum Command] *)
Record ClientArgs := mk_ClientArgs {
  server : string; c_auth_env : option string; c_auth_file : option string; timeout_seconds : N }.
Inductive ModelAction := MInstall | MLoad | MUnload | MDelete.
Inductive ModelCommand := MList (c : ClientArgs) | MAction (a : ModelAction) (model : string) (c : ClientArgs).

(** * Failures *)

Inductive ClientError := InvalidUrl | BadCredential | ServerUnavailable | Authentication | Rejected | ServerFailed | InvalidResponse.

(** [ClientError::for_status] *)
Definition for_status (status : N) : ClientError :=
  if ((status =? 401) || (status =? 403))%N then Authentication else
  if ((400 <=? status) && (status <=? 499))%N then Rejected else ServerFailed.

(** [ClientError::exit_code], [Display for ClientError] *)
Definition client_exit_code (e : ClientError) : N :=
  match e with
  | InvalidUrl => EXIT_USAGE
  | BadCredential | Authentication => EXIT_AUTH
  | ServerUnavailable | InvalidResponse => EXIT_UNAVAILABLE
  | Rejected => EXIT_REQUEST
  | ServerFailed => EXIT_SERVER
  end.
Definition ClientError_display (e : ClientError) : string :=
  match e with
  | InvalidUrl => "server URL is invalid"
  | BadCredential => "client credential configuration is invalid"
  | ServerUnavailable => "server is unavailable"
  | Authentication => "server authentication failed"
  | Rejected => "model operation was rejected"
  | ServerFailed => "server failed the model operation"
  | InvalidResponse => "server returned an invalid response"
  end.

Inductive CliError :=
| EConfig (e : ConfigError) | EState (e : Service.AppStateError) | EProcess (e : Process.ProcessError) | Stdio | EClient (e : ClientError).

(** [CliError::exit_code], [Display for CliError] *)
Definition exit_code (e : CliError) : N :=
  match e with
  | EConfig _ => EXIT_USAGE
  | EClient e => client_exit_code e
  | EState _ | EProcess _ | Stdio => EXIT_FAILURE
  end.
Definition CliError_display (e : CliError) : string :=
  match e with
  | EConfig e => "configuration failed: " +:+ ConfigError_display e
  | EState e => Service.AppStateError_display e
  | EProcess e => Process.ProcessError_display e
  | Stdio => "MCP stdio transport failed"
  | EClient e => ClientError_display e
  end.

(** [run]: the text on the error stream and the exit status. *)
Definition run (r : result CliError unit) : option string * N :=
  match r with Ok _ => (None, 0%N) | Err e => (Some (CliError_display e), exit_code e) end.

(** * The client *)

Section client.
Context {U : UrlCrate}.

(** [parse_server_url] *)
Definition parse_server_url (value : string) : result ClientError Url :=
  let? url := ok_or (url_parse value) InvalidUrl in
  if negb (String.eqb (url_scheme url) "http" || String.eqb (url_scheme url) "https")
     || bool_decide (url_host_str url = None) || negb (str_is_empty (url_username url))
     || bool_decide (is_Some (url_password url)) || bool_decide (is_Some (url_query url))
     || bool_decide (is_Some (url_fragment url))
  then Err InvalidUrl else Ok url.

(** [client_credential_source], with the process environment of the host. *)
Definition client_credential_source (h : Security.Host) (c : ClientArgs) (administrative : bool) : option CredentialSource :=
  match c_auth_env c, c_auth_file c with
  | Some name, _ => Some (Environment name)
  | None, Some path => Some (File path)
  | None, None =>
    let conventional := if administrative then "IMPOSSIBLE_ADMIN_AUTH_TOKEN" else "IMPOSSIBLE_AUTH_TOKEN" in
    match Security.env_var h conventional with Some _ => Some (Environment conventional) | None => None end
  end.

(** [bearer_header]; [HeaderValue::from_bytes] accepts some byte strings and keeps them. *)
Definition bearer_header (from_bytes : string → option string) (secret : string) : option string := from_bytes ("Bearer " +:+ secret).

(** The loop of [bounded_response] over the chunks; [None] is a failed read. *)
Fixpoint collect_chunks (body : string) (chunks : list (option string)) : result ClientError string :=
  match chunks with
  | [] => Ok body
  | None :: _ => Err ServerUnavailable
  | Some chunk :: chunks =>
    if (MAX_CLIENT_RESPONSE_BYTES <? saturating_add usize_max (str_len body) (str_len chunk))%N then Err InvalidResponse
    else collect_chunks (body +:+ chunk) chunks
  end.
(** [bounded_response] *)
Definition bounded_response (content_length : option N) (chunks : list (option string)) : result ClientError string :=
  if match content_length with Some n => (MAX_CLIENT_RESPONSE_BYTES <? n)%N | None => false end then Err InvalidResponse
  else collect_chunks "" chunks.

(** The method and the path of a command. *)
Definition action_path (a : ModelAction) : string :=
  match a with
  | MInstall => "/v1/admin/models/install" | MLoad => "/v1/admin/models/load"
  | MUnload => "/v1/admin/models/unload" | MDelete => "/v1/admin/models/delete"
  end.

(** The request that is sent: the base, the path, the model of a post, the authorization. *)
Record ClientRequest := mk_ClientRequest {
  base : Url; cr_path : string; post_model : option string; authorization : option string }.
(** What comes back: the status, the declared length and the chunks. *)
Record ClientResponse := mk_ClientResponse { cr_status : N; content_length : option N; chunks : list (option string) }.

(** The world of the client: the host, the header encoding, whether the HTTP client could be
    built, the server, and the JSON decoder. *)
Record ClientEnv := mk_ClientEnv {
  host : Security.Host;
  from_bytes : string → option string;
  client_built : bool;
  send : ClientRequest → option ClientResponse;
  printable : string → option string;
}.

(** [request_models]: the request, if one was sent, and the line that is printed. *)
Definition prepare (e : ClientEnv) (c : ClientArgs) (action : option (ModelAction * string)) : result ClientError ClientRequest :=
  let? url := parse_server_url (server c) in
  let administrative := bool_decide (is_Some action) in
  let path := match action with Some (a, _) => action_path a | None => "/v1/models" end in
  ensure client_built e else ServerUnavailable in
  let? header := match client_credential_source (host e) c administrative with
                 | None => Ok None
                 | Some source =>
                   let? secret := map_err (λ _, BadCredential) (Security.load_credential (host e) source) in
                   let? value := ok_or (bearer_header (from_bytes e) (Security.secret_bytes secret)) BadCredential in
                   Ok (Some value)
                 end in
  Ok (mk_ClientRequest url path (snd <$> action) header).
Definition request_models (e : ClientEnv) (c : ClientArgs) (action : option (ModelAction * string))
    : result ClientError string * option ClientRequest :=
  match prepare e c action with
  | Err err => (Err err, None)
  | Ok request =>
    (let? response := ok_or (send e request) ServerUnavailable in
     let? body := bounded_response (content_length response) (chunks response) in
     ensure (200 <=? cr_status response)%N && (cr_status response <=? 299)%N else for_status (cr_status response) in
     ok_or (printable e body) InvalidResponse, Some request)
  end.

(** [run_models] *)
Definition run_models (e : ClientEnv) (m : ModelCommand) : result CliError unit * option ClientRequest :=
  let '(r, sent) := match m with
                    | MList c => request_models e c None
                    | MAction a model c => request_models e c (Some (a, model))
                    end in
  (let? _ := map_err EClient r in Ok tt, sent).

End client.

(** * The server commands *)

(** [lifecycle_name] *)
Definition lifecycle_name (l : Health.LifecycleState) : string :=
  match l with
  | Health.Starting => "starting" | Health.Ready => "ready" | Health.Draining => "draining" | Health.Stopped => "stopped"
  end.

(** [run_server], from the loaded configuration on; [started] is [ServerHost::start] of it. *)
Definition run_server (loaded : result ConfigError ServerConfig) (started : ServerConfig → Process.StartEnv)
    (events : list Process.RunEvent) (ending : Process.Ending) : option (result CliError unit) :=
  match loaded with
  | Err e => Some (Err (EConfig e))
  | Ok config =>
    match (Process.start (started config)).1 with
    | Err e => Some (Err (EProcess e))
    | Ok h => map_err EProcess <$> Process.run_until_signal events ending h
    end
  end.

(** What a command does to the application, in order. *)
Inductive CommandEvent := Preloaded | ServedStdio | Reported (report : Mcp.Value) | ShutdownTriggered | ShutDown.

(** [run_mcp]: the state, the preload, the stdio loop, and the shutdown after it. *)
Definition run_mcp (loaded : result ConfigError ServerConfig) (state : ServerConfig → result Service.AppStateError Service.AppState)
    (preloaded : result Catalog.ApplicationError unit) (served : result unit unit) (drained : bool)
    : result CliError unit * list CommandEvent :=
  match (let? config := map_err EConfig loaded in map_err EState (state config)) with
  | Err e => (Err e, [])
  | Ok _ =>
    match preloaded with
    | Err e => (Err (EProcess (Process.EPreload e)), [Preloaded])
    | Ok _ =>
      (let? _ := map_err (λ _, Stdio) served in
       if drained then Ok tt else Err (EProcess Process.HostShutdownTimeout),
       [Preloaded; ServedStdio; ShutdownTriggered; ShutDown])
    end
  end.

(** [run_doctor]: the report it prints is part of what it does. *)
Definition doctor_report (version : string) (readiness : Health.Readiness) (counts : nat * nat) : Mcp.Value :=
  let report := Health.from_readiness version readiness counts.1 counts.2 in
  Mcp.VObject [
    ("version", Mcp.VString (Health.dr_version report));
    ("lifecycle", Mcp.VString (lifecycle_name (Health.dr_lifecycle report)));
    ("reason_code", match Health.dr_reason report with
                    | Some r => Mcp.VString (Health.reason_code_str r) | None => Mcp.Null end);
    ("model_count", Mcp.of_uint (N.of_nat (Health.model_count report)));
    ("ready_model_count", Mcp.of_uint (N.of_nat (Health.ready_model_count report)))].
Definition run_doctor (loaded : result ConfigError ServerConfig) (state : ServerConfig → result Service.AppStateError Service.AppState)
    (preloaded : result Catalog.ApplicationError unit) (version : string) (readiness : Health.Readiness) (counts : nat * nat)
    : result CliError unit * list CommandEvent :=
  match (let? config := map_err EConfig loaded in map_err EState (state config)) with
  | Err e => (Err e, [])
  | Ok _ =>
    match preloaded with
    | Err e => (Err (EProcess (Process.EPreload e)), [Preloaded])
    | Ok _ => (Ok tt, [Preloaded; Reported (doctor_report version readiness counts); ShutdownTriggered; ShutDown])
    end
  end.

(** * Forwarding of the options *)

(** One option: its name, the key it sets and its value; a flag has none of its own. *)
Definition entry : Type := string * ConfigKey * option string.
Definition is_flag (k : ConfigKey) : bool := bool_decide (k = AllowInsecureRemote ∨ k = Offline).
Definition args_of (x : entry) : list string :=
  match x.2 with None => [] | Some v => if is_flag x.1.2 then [x.1.1] else [x.1.1; v] end.
Definition flag_value (set : bool) : option string := if set then Some "true" else None.

(** The value an option structure gives to a key. *)
Definition argument (a : ConfigArgs) (k : ConfigKey) : option string :=
  match k with
  | HttpBind => http_bind a | GrpcBind => grpc_bind a | AllowInsecureRemote => flag_value (allow_insecure_remote a)
  | AuthEnv => auth_env a | AuthFile => auth_file a | AdminAuthEnv => admin_auth_env a | AdminAuthFile => admin_auth_file a
  | AdminApiEnabled => admin_api_enabled a | AllowedOrigins => allowed_origins a | ModelDirectories => model_directories a
  | CacheDirectory => cache_directory a | PreloadModels => preload_models a | Offline => flag_value (offline a)
  | StartupPolicyKey => startup_policy a | MaxBodyBytes => max_body_bytes a | MaxInputBytes => max_input_bytes a
  | MaxRequestBytes => max_request_bytes a | MaxItems => max_items a | MaxTokens => max_tokens a
  | MaxQueueDepth => max_queue_depth a | MaxBatchItems => max_batch_items a | MaxBatchTokens => max_batch_tokens a
  | MaxConcurrency => max_concurrency a | RequestTimeout => request_timeout_ms a | ShutdownTimeout => shutdown_timeout_ms a
  | _ => None
  end.

Definition OPTIONS : list (string * ConfigKey) :=
  [("--http-bind", HttpBind); ("--grpc-bind", GrpcBind); ("--allow-insecure-remote", AllowInsecureRemote);
   ("--auth-env", AuthEnv); ("--auth-file", AuthFile); ("--admin-auth-env", AdminAuthEnv); ("--admin-auth-file", AdminAuthFile);
   ("--admin-api-enabled", AdminApiEnabled); ("--allowed-origins", AllowedOrigins); ("--model-directories", ModelDirectories);
   ("--cache-directory", CacheDirectory); ("--preload-models", PreloadModels); ("--offline", Offline);
   ("--startup-policy", StartupPolicyKey); ("--max-body-bytes", MaxBodyBytes); ("--max-input-bytes", MaxInputBytes);
   ("--max-request-bytes", MaxRequestBytes); ("--max-items", MaxItems); ("--max-tokens", MaxTokens);
   ("--max-queue-depth", MaxQueueDepth); ("--max-batch-items", MaxBatchItems); ("--max-batch-tokens", MaxBatchTokens);
   ("--max-concurrency", MaxConcurrency); ("--request-timeout-ms", RequestTimeout); ("--shutdown-timeout-ms", ShutdownTimeout)].
Definition entries (a : ConfigArgs) (l : list (string * ConfigKey)) : list entry := (λ x, (x, argument a x.2)) <$> l.

Lemma configuration_entries a : configuration_arguments a = concat (args_of <$> entries a OPTIONS).
Proof.
  assert (∀ name b, push_flag name b = match flag_value b with Some _ => [name] | None => [] end) as Hf by by intros ? [].
  unfold configuration_arguments. rewrite !Hf. unfold push_value, entries, OPTIONS, args_of. cbn. by rewrite ?app_nil_r.
Qed.

(** Whether the loader takes an option for a key. *)
Definition accepted (x : string * ConfigKey) : bool :=
  match strip_prefix "--" x.1 with
  | None => false
  | Some o =>
    let n := str_map underscore (hd "" (str_split "=" o)) in
    negb (credential_like_option n) && bool_decide (parse_key (cli_name n) = Some x.2) && negb (has_char "=" o)
  end.
Definition is_token_limit (k : ConfigKey) : bool := bool_decide (k = MaxTokens ∨ k = MaxBatchTokens).

Lemma options_accepted : Forall (λ x, accepted x = negb (is_token_limit x.2)) OPTIONS.
Proof. apply (bool_decide_eq_true_1 _). vm_compute. reflexivity. Qed.

Lemma insert_entry p x v rest :
  accepted x = true → (is_flag x.2 = true → v = "true") →
  insert_cli p (args_of (x, Some v) ++ rest) = (let? p := patch_set x.2 (Scalar v) p in insert_cli p rest).
Proof.
  destruct x as [name k]. unfold accepted, args_of. cbn [fst snd]. destruct (strip_prefix "--" name) as [o|] eqn:Hs; [|done].
  intros Ha Hv. inv_bool. unfold is_flag in *.
  destruct (bool_decide (k = AllowInsecureRemote ∨ k = Offline)) eqn:Hk; cbn [app insert_cli]; rewrite Hs; cbn [ok_or result_bind];
    repeat match goal with H : credential_like_option _ = false |- _ => rewrite H; clear H
                         | H : parse_key _ = Some _ |- _ => rewrite H; clear H
                         | H : has_char _ _ = false |- _ => rewrite H; clear H end;
    cbn [negb ok_or result_bind]; rewrite Hk; [by rewrite Hv|done].
Qed.

Lemma insert_refused p x v rest :
  In x [("--max-tokens", MaxTokens); ("--max-batch-tokens", MaxBatchTokens)] →
  insert_cli p (args_of (x, Some v) ++ rest) = Err (UnknownKey FromCommandLine).
Proof. intros [<-|[<-|[]]]; done. Qed.

Lemma flag_argument a k v : is_flag k = true → argument a k = Some v → v = "true".
Proof.
  unfold is_flag. intros [->| ->]%bool_decide_eq_true; cbn; unfold flag_value; case_match; congruence.
Qed.

(** Options the loader takes, or that are not given. *)
Definition takeable (a : ConfigArgs) (x : string * ConfigKey) : Prop := argument a x.2 = None ∨ accepted x = true.

Lemma insert_entries a l : ∀ p rest,
  Forall (takeable a) l → NoDup l.*2 → (∀ k, k ∈ l.*2 → p !! k = None) →
  ∃ p', insert_cli p (concat (args_of <$> entries a l) ++ rest) = insert_cli p' rest ∧
    ∀ k, p' !! k = if bool_decide (k ∈ l.*2) then Scalar <$> argument a k else p !! k.
Proof.
  induction l as [|x l IH]; intros p rest Ht Hn Hp; [by exists p|].
  apply Forall_cons in Ht as [Hx Ht]. cbn [fmap list_fmap] in Hn, Hp. apply NoDup_cons in Hn as [Hnot Hn].
  change (concat (args_of <$> entries a (x :: l))) with (args_of (x, argument a x.2) ++ concat (args_of <$> entries a l)).
  rewrite <-app_assoc. cbn [fmap list_fmap]. destruct (argument a x.2) as [v|] eqn:Hv.
  - destruct Hx as [?|Hacc]; [congruence|]. rewrite insert_entry by (done || intros Hf; by eapply flag_argument).
    unfold patch_set. rewrite (Hp x.2) by set_solver. cbn [result_bind].
    destruct (IH (<[x.2 := Scalar v]> p) rest Ht Hn) as (p' & -> & Hp').
    { intros k Hk. rewrite lookup_insert_ne by congruence. apply Hp. set_solver. }
    exists p'. split; [done|]. intros k. rewrite Hp'. destruct (decide (k = x.2)) as [->|Hne].
    + rewrite bool_decide_false, bool_decide_true by set_solver. by rewrite lookup_insert_eq, Hv.
    + rewrite lookup_insert_ne by done. by rewrite (bool_decide_ext _ (k ∈ x.2 :: l.*2)) by set_solver.
  - cbn [args_of snd app]. destruct (IH p rest Ht Hn) as (p' & -> & Hp'); [set_solver|]. exists p'. split; [done|].
    intros k. rewrite Hp'. destruct (decide (k = x.2)) as [->|Hne].
    + rewrite bool_decide_false, bool_decide_true by set_solver. rewrite (Hp x.2) by set_solver. by rewrite Hv.
    + by rewrite (bool_decide_ext _ (k ∈ x.2 :: l.*2)) by set_solver.
Qed.

Lemma takeable_options a l :
  (∀ x, x ∈ l → x ∈ OPTIONS) → (∀ x, x ∈ l → is_token_limit x.2 = true → argument a x.2 = None) → Forall (takeable a) l.
Proof.
  intros Hin Htok. apply Forall_forall. intros x Hx. pose proof options_accepted as Ho. rewrite Forall_forall in Ho.
  specialize (Ho x (Hin x Hx)). destruct (is_token_limit x.2) eqn:Ht; [left; by apply Htok|by right].
Qed.

Lemma options_nodup : NoDup OPTIONS.*2.
Proof. apply (bool_decide_eq_true_1 _). vm_compute. reflexivity. Qed.

(** A given option that the credential filter takes for a secret ends the parsing. *)
Lemma refused_at a n x v :
  OPTIONS !! n = Some x → In x [("--max-tokens", MaxTokens); ("--max-batch-tokens", MaxBatchTokens)] →
  (∀ y, y ∈ take n OPTIONS → is_token_limit y.2 = true → argument a y.2 = None) → argument a x.2 = Some v →
  parse_cli (configuration_arguments a) = Err (UnknownKey FromCommandLine).
Proof.
  intros Hn Hx Hbefore Hv. rewrite configuration_entries. rewrite <-(take_drop_middle _ _ _ Hn).
  unfold entries. rewrite !fmap_app, concat_app. change (((λ y, (y, argument a y.2)) <$> take n OPTIONS)) with (entries a (take n OPTIONS)).
  pose proof options_nodup as Hnd. rewrite <-(take_drop n OPTIONS), fmap_app in Hnd. apply NoDup_app in Hnd as [Hnd _].
  destruct (insert_entries a (take n OPTIONS) ∅ (concat (args_of <$> ((λ y, (y, argument a y.2)) <$> x :: drop (S n) OPTIONS))))
    as (p' & He & _); [|done|done|].
  - apply takeable_options; [|done]. intros y Hy. by eapply elem_of_take in Hy as (? & ? & _); eapply list_elem_of_lookup_2.
  - unfold parse_cli. rewrite He. cbn [fmap list_fmap concat]. rewrite Hv. by apply insert_refused.
Qed.


Definition sample_args : ConfigArgs :=
  mk_ConfigArgs None (Some "127.0.0.1:9000") None false None None None None None None None None None true
    None (Some "--offline") None None None None None None None None None None.

(** The environment variable the model commands read their server from is not a key of the
    configuration: while it is set, no server command gets a configuration. *)
Lemma server_url_refused p env :
  (∃ v, ("IMPOSSIBLE_SERVER_URL", v) ∈ env) → is_ok (insert_environment p env) = false.
Proof.
  intros [v Hv]. revert p. induction env as [|[n w] env IH]; intros p; [by apply not_elem_of_nil in Hv|].
  apply elem_of_cons in Hv as [[= <- <-]|Hv]; [done|]. cbn [insert_environment].
  destruct (strip_prefix "IMPOSSIBLE_" n) as [o|]; [|by apply IH]. destruct (lookup_name env_names o) as [k|]; [|done].
  cbn [ok_or result_bind]. destruct (if is_token_key k then _ else _) as [p'|]; [by apply IH|done].
Qed.
Lemma server_url_breaks_serving {U : UrlCrate} {T : TomlCrate} file_at env a :
  (∃ v, ("IMPOSSIBLE_SERVER_URL", v) ∈ env) → is_ok (load file_at env a) = false.
Proof.
  intros Hv. pose proof (server_url_refused ∅ env Hv) as He. unfold load, Config.load, parse_environment.
  destruct (match file_at <$> config a with Some _ => _ | None => _ end) as [c|]; [|done]. cbn [result_bind].
  by destruct (insert_environment ∅ env).
Qed.

(** * The client *)

Lemma str_app_nil a : a +:+ "" = a.
Proof. induction a as [|x a IH]; [done|]. cbn [String.append]. by rewrite IH. Qed.

Lemma collect_chunks_spec chunks : ∀ body text,
  (str_len body <= MAX_CLIENT_RESPONSE_BYTES)%N →
  collect_chunks body chunks = Ok text ↔
  ∃ parts, chunks = Some <$> parts ∧ text = body +:+ foldr String.append "" parts ∧ (str_len text <= MAX_CLIENT_RESPONSE_BYTES)%N.
Proof.
  assert (MAX_CLIENT_RESPONSE_BYTES < usize_max)%N as Hmax by done.
  induction chunks as [|[x|] chunks IH]; intros body text Hb; cbn [collect_chunks].
  - split; [intros [= <-]; exists []; cbn; by rewrite str_app_nil|]. intros ([|] & ? & -> & _); [cbn; by rewrite str_app_nil|done].
  - unfold saturating_add. destruct (N.ltb_spec MAX_CLIENT_RESPONSE_BYTES (N.min (str_len body + str_len x) usize_max)) as [Hl|Hl].
    + split; [done|]. intros ([|y parts] & Hp & -> & Hlen); [done|]. injection Hp as <- _. cbn [foldr] in Hlen.
      rewrite !str_len_app in Hlen. lia.
    + rewrite IH by (rewrite str_len_app; lia). split.
      * intros (parts & -> & -> & Hlen). exists (x :: parts). cbn [foldr]. by rewrite <-str_app_assoc.
      * intros ([|y parts] & Hp & -> & Hlen); [done|]. injection Hp as <- ->. exists parts. cbn [foldr] in *. by rewrite str_app_assoc.
  - split; [done|]. by intros ([|] & Hp & _).
Qed.

Section client_safety.
Context {U : UrlCrate}.

(** A base that cannot carry a credential or change the path it is given. *)
Record plain_base (url : Url) : Prop := {
  pb_scheme : url_scheme url = "http" ∨ url_scheme url = "https";
  pb_host : is_Some (url_host_str url);
  pb_user : url_username url = "";
  pb_password : url_password url = None;
  pb_query : url_query url = None;
  pb_fragment : url_fragment url = None;
}.

Lemma parse_server_url_spec value url : parse_server_url value = Ok url ↔ url_parse value = Some url ∧ plain_base url.
Proof.
  unfold parse_server_url. destruct (url_parse value) as [u|]; cbn [ok_or result_bind]; [|by split; [|intros []]].
  destruct (negb _ || _ || _ || _ || _ || _) eqn:Hc.
  - split; [done|]. intros [[= ->] [Hs [h Hh] Hu Hp Hq Hf]]. rewrite Hh, Hu, Hp, Hq, Hf in Hc. cbn in Hc.
    rewrite !orb_false_r in Hc. by destruct Hs as [Hs|Hs]; rewrite Hs in Hc.
  - apply orb_false_iff in Hc as [Hc Hf]. apply orb_false_iff in Hc as [Hc Hq]. apply orb_false_iff in Hc as [Hc Hp].
    apply orb_false_iff in Hc as [Hc Hu]. apply orb_false_iff in Hc as [Hs Hh].
    apply bool_decide_eq_false in Hf, Hq, Hp, Hh. apply eq_None_not_Some in Hf, Hq, Hp. apply not_eq_None_Some in Hh.
    apply negb_false_iff in Hu, Hs. apply orb_true_iff in Hs.
    split; [intros [= <-]|intros [[= <-] _]; done]. split; [done|].
    split; try done; [by destruct Hs as [?%String.eqb_eq|?%String.eqb_eq]; auto|].
    by destruct (url_username u).
Qed.

(** The request a command means: its path, its body, and the credential it was given. *)
Record meant (e : ClientEnv) (c : ClientArgs) (action : option (ModelAction * string)) (q : ClientRequest) : Prop := {
  m_url : url_parse (server c) = Some (base q);
  m_plain : plain_base (base q);
  m_path : cr_path q = match action with Some (a, _) => action_path a | None => "/v1/models" end;
  m_model : post_model q = snd <$> action;
  m_auth : match client_credential_source (host e) c (bool_decide (is_Some action)) with
           | None => authorization q = None
           | Some source => ∃ secret, Security.load_credential (host e) source = Ok secret ∧
               is_Some (authorization q) ∧ authorization q = from_bytes e ("Bearer " +:+ Security.secret_bytes secret)
           end;
}.

Lemma prepare_spec e c action q : prepare e c action = Ok q ↔ client_built e = true ∧ meant e c action q.
Proof.
  unfold prepare. rewrite bind_Ok. setoid_rewrite parse_server_url_spec. split.
  - intros (url & [Hu Hpl] & H). destruct (client_built e); [|done]. split; [done|].
    apply bind_Ok in H as (auth & Ha & [= <-]). split; cbn; [done..|].
    destruct (client_credential_source _ _ _) as [source|]; [|by injection Ha].
    apply bind_Ok in Ha as (secret & Hs & (value & Hv%ok_or_Ok & [= <-])%bind_Ok). exists secret. split; [|split; [by eexists|done]].
    destruct (Security.load_credential _ _); cbn in Hs; congruence.
  - intros [-> [Hu Hpl Hp Hm Ha]]. exists (base q). split; [done|]. destruct q as [b p m au]; cbn [base cr_path post_model authorization] in *. subst p m.
    destruct (client_credential_source _ _ _) as [source|]; [|by subst au].
    destruct Ha as (secret & -> & [v ->] & Hv). cbn [map_err result_bind]. unfold bearer_header. by rewrite <-Hv.
Qed.

(** A response the client prints: a success that fits, complete and readable. *)
Definition readable (e : ClientEnv) (r : ClientResponse) (line : string) : Prop :=
  (200 <= cr_status r <= 299)%N ∧ (∀ n, content_length r = Some n → (n <= MAX_CLIENT_RESPONSE_BYTES)%N) ∧
  ∃ parts, chunks r = Some <$> parts ∧ (str_len (foldr String.append "" parts) <= MAX_CLIENT_RESPONSE_BYTES)%N ∧
    printable e (foldr String.append "" parts) = Some line.

Lemma bounded_response_spec length l text :
  bounded_response length l = Ok text ↔
  (∀ n, length = Some n → (n <= MAX_CLIENT_RESPONSE_BYTES)%N) ∧
  ∃ parts, l = Some <$> parts ∧ text = foldr String.append "" parts ∧ (str_len text <= MAX_CLIENT_RESPONSE_BYTES)%N.
Proof.
  unfold bounded_response. destruct length as [n|].
  - destruct (N.ltb_spec MAX_CLIENT_RESPONSE_BYTES n).
    + split; [done|]. intros [Hn _]. specialize (Hn n eq_refl). lia.
    + rewrite collect_chunks_spec by done. naive_solver.
  - rewrite collect_chunks_spec by done. naive_solver.
Qed.


End client_safety.

Definition sample_client : ClientEnv (U := SimpleUrl) :=
  mk_ClientEnv (U := SimpleUrl) Service.sample_host Some true
    (λ _, Some (mk_ClientResponse 200 (Some 4%N) [Some "tr"; Some "ue"])) Some.
Definition sample_client_args : ClientArgs := mk_ClientArgs "http://localhost/base" (Some "ADMIN") None 60.

End Cli.
